(* ===== verification/_CoqProject ===== *)
-Q . S2P
Prelude.v
GoBase.v
GoStrings.v
Persister.v
Raft.v
RaftSystem.v
RaftNode.v
RaftDemo.v
RaftElection.v
RaftLogs.v
RaftCommit.v
RaftApply.v
RaftFindings.v
RaftSpec.v
RaftSafety.v
RaftCommitted.v
RaftCommittedSteps.v
RaftCommittedAppend.v
RaftStateMachine.v
RaftLive.v
RaftProgress.v
LabRpc.v
LabRpcSafety.v
RaftConfig.v
RaftWiring.v
RaftChecks.v
RaftOne.v
RaftNet.v
RaftNetRefines.v
RaftNetDemo.v
RaftNetSafety.v
Shuffle.v
MapReduce.v
MapReduceNames.v
MapReduceCorrect.v
MapReduceDemo.v
MRSchedule.v
WordCount.v
MRWorker.v
MRDistributed.v
MRMaster.v
Base32.v
RandString.v
FileSystem.v
DiskKV.v
DiskKVSafety.v
LockService.v
Clerks.v
Services.v
ServiceConfig.v
ServiceWiring.v
ServiceHarness.v
ServicePartition.v
ServicePromises.v
GroupConfig.v
GroupWiring.v
GroupServers.v
GroupPromises.v
GroupSize.v
Accept.v
AcceptSafety.v
PaxosServices.v
ClerkState.v
SocketRpc.v
SocketServers.v
LockSystem.v
CommandLine.v
Programs.v
DebugPrint.v
