(* ===== verification/Prelude.v ===== *)
(** * A verification of the 6.824 distributed systems labs

    The repository holds Go implementations for the labs of MIT's course on
    distributed systems: a Raft library (raft/), the simulated network it is
    tested on (labrpc/), a MapReduce framework with two applications
    (mapreduce/, main/wc.go, main/ii.go), a lock service (lockservice/), and
    parts of key/value services (kvraft/, shardmaster/, shardkv/, diskv/,
    pbservice/, viewservice/, and the Paxos library and its services).  Several
    services are skeletons: their handlers have no body, so a call leaves its
    reply at the zero value, and this is how they are modelled; what they do
    have is their start and end, their accept loops and their test harnesses.
    Paths below are relative to src/src/.

    ** How the parts interact

    A Raft peer (raft/raft.go) keeps its term, vote and log in a [Persister]
    (raft/persister.go), talks to the other peers through labrpc end-points
    and delivers committed commands on a channel.  The test harness
    (raft/config.go) starts, crashes, connects and cuts off peers by changing
    the tables of the labrpc network, and checks what the peers report.  The
    MapReduce master (mapreduce/master.go, schedule.go) hands map and reduce
    tasks to workers (worker.go), which exchange data through files
    (common_map.go, common_reduce.go, master_splitmerge.go); wc.go and ii.go
    supply the map and reduce functions.  The clerks find the group that
    serves a key with the shardmaster's configuration and retry RPCs.  The
    services on Raft start a peer each and are tested on labrpc by harnesses
    (kvraft/config.go, shardmaster/config.go, shardkv/config.go) that stop,
    restart and partition the servers.  The services on Paxos, diskv, pbservice
    and viewservice serve Unix sockets with one common loop, which their tests
    make unreliable or kill; their clients, and those of lockservice, reach
    them with a function call that dials, asks and closes.  The programs in
    main/ start these servers, clients and jobs from the command line.

    ** Conventions

    Pure code is a function; code that may panic returns [option] (Raft) or
    [result] (GoBase), where [Fatal] is a call of log.Fatal, [Panic] a
    run-time panic and [Blocked] an operation that cannot proceed.  State is
    passed explicitly.  Goroutines are program counters in a world, and an
    action runs one of them from one point where it can be interrupted to the
    next.  Random draws, timeouts, message loss, map iteration orders and
    scheduling are arguments or choices of actions, so theorems hold for all
    of them.  encoding/gob and encoding/json are classes of operations with
    their round trip as a law; concrete instances show that the laws can hold
    and let every model run.  Integers are in [Z], with wrap-around written
    out where it matters (FNV hashing, word counts); Raft's terms and indices
    are not bounded.

    ** Files

    - Prelude, GoBase, GoStrings: shared lemmas and tactics, and the part of
      Go and its library that the sources use: slices, sorting, one-place
      channels, [result], decimal numbers, sorted strings.
    - Persister, Raft: raft/persister.go and raft/raft.go, one definition per
      method.  [startElection] and [StartAppendLog] are split at their RPCs
      into the part that builds the request and the part that handles the
      reply; [advanceCommit] is the commit rule inside the latter.
    - RaftSystem: a cluster as a transition system.  [world] holds the peers,
      the state of each main loop and the pool of running goroutines with
      their RPCs in flight; [act] runs one action, [reachable] collects the
      worlds.
    - RaftNode: what one operation does to a peer; RaftDemo: concrete runs.
    - RaftElection: election safety over all times, stability of terms and
      votes.  The proof keeps a table of votes that only grows.
    - RaftLogs: log matching and append-only leaders, with a table of the
      entries each leader created.
    - RaftCommit, RaftApply: the commit rule picks a majority's index; the
      apply channel is in order; only a leader's replication goroutine can
      panic.
    - RaftFindings: runs that show four defects of the code: commands can be
      committed without a majority, applied entries can be erased, a leader
      can panic, a restarted peer can vote twice in a term.
    - RaftSpec: the two RPC handlers, with the value of every field they leave;
      the round trip of the persistent state, durability of positive replies.
    - RaftSafety, RaftCommitted, RaftCommittedSteps, RaftCommittedAppend,
      RaftStateMachine: the two defects of the commit path in RaftFindings are
      the only ones.  A run is timely when no request makes its receiver cut
      off entries of the request's own term, and every positive reply finds the
      leader with the term and the log it had when it sent the request.  With
      tables of the logs that leaders had and of the entries that peers
      acknowledged, a voter of every later leader holds what a majority had
      acknowledged; so in timely runs leaders have all committed entries and no
      two peers apply different commands at an index.
    - RaftLive, RaftProgress: what the cluster can always still do.  From every
      reachable world of two or more peers a leader can be elected; from every
      world of a timely run in which some peer does not lead, any command can be
      committed and delivered, by a schedule that is timely itself.  The proofs
      build the schedule: the leaders are deposed, the peer with the most recent
      log times out until its term is the largest, its votes are counted, and
      its requests go back in each log until they are accepted.  A cluster of
      one peer never gets a leader.
    - LabRpc, LabRpcSafety: labrpc/labrpc.go and what it promises: handlers run
      at most once per call, deleted servers stay silent, and on a reliable
      network, in any interleaving, calls do not fail and can be completed.
    - RaftConfig, RaftWiring, RaftChecks: raft/config.go over the network of
      LabRpc: the end-points are enabled exactly between connected peers, and
      the leader check never reports a split on a running cluster.
    - RaftNet, RaftNetRefines, RaftNetDemo, RaftNetSafety: the two transition
      systems composed.  The peers of RaftSystem are the objects behind servers
      of LabRpc, and their RPCs are labrpc calls with gob-encoded messages.  A
      simulation shows that every run is one of RaftSystem, and a timely run a
      timely one, so election safety, log matching and, in timely runs, state
      machine safety hold over the real network model; the demos elect a leader
      and commit a command.
    - RaftOne: one and cleanup of raft/config.go: an index that one returns was
      given by a leader and seen applied by the expected number of servers, and
      no leader is overlooked.
    - Shuffle, RandString: random_handles gives every order for one sequence of
      draws; randstring, with the base64 encoding it uses, every name for one
      choice of the bytes.
    - MapReduce, MapReduceNames, MapReduceCorrect, MapReduceDemo: the tasks and
      the sequential job; its output equals a reference definition over all
      key/value pairs; a missing input is fatal.
    - MRSchedule: schedule.go; all tasks done exactly once, no panic when there
      are enough files (and a panic when there are not), and then never stuck.
    - WordCount: wc.go and ii.go, down to the decoding of runes, and the proof
      that a job prints the right counts and lists.
    - MRWorker: worker.go's counters, with calls of Shutdown at any time,
      Register and killWorkers; MRMaster: the
      master's own RPC server and how it is stopped.
    - MRDistributed: Distributed, with the schedule of MRSchedule running the
      tasks of MapReduce: failed calls may leave anything in their files, and
      still the output is that of Sequential.
    - Base32, FileSystem, DiskKV, DiskKVSafety: the file helpers of
      diskv/server.go as computations that also say what a crash leaves, with
      a Hoare logic for crashes: round trips, the atomicity of a put, and what
      a shard replacement cut short can have lost.
    - LockService: handlers, clerk and accept loop of lockservice/.
    - SocketRpc, SocketServers: the function call of eight packages.  The class
      [ConnServer] is what a client knows of a server process, with the laws
      [ConnServerLaws].  Calls write requests to their connections, and the
      server runs the handler for each request it reads; any number of concurrent
      calls run their handlers at most once and close their connections, because
      each writes one request to a connection of its own.  The accept loops of
      Accept are instances, on which calls to a server left alone complete.
    - LockSystem: the lock service as another instance, and its defect: since
      Unlock has no body, a lock that was granted is never granted again.
    - ClerkState: the clerks' fields and nrand, which is uniform.
    - CommandLine: the programs of main/ and what they do with their arguments,
      with strconv; diskvd reads back what its tests print and never panics.
    - Programs: wc.go and ii.go in their three modes.
    - Clerks: the retry loops of the clerks against arbitrary RPC outcomes.
    - Services: the servers of kvraft, shardmaster and shardkv and kvraft's
      clerk, and what the clerks of Clerks get from them: a sharded store that
      never answers.
    - ServiceConfig: the harness of kvraft/config.go and shardmaster/config.go.
      The class [RaftService] says what it needs from a service,
      [RaftServiceLaws] what its restart theorem needs, and both services are
      instances.  ServiceWiring, ServiceHarness, ServicePartition and
      ServicePromises prove that end-points lead where they should in every
      state, that make_partition isolates the leader, and that a restart keeps
      what was persisted.
    - GroupConfig: the harness of shardkv/config.go.  GroupWiring, GroupServers
      and GroupPromises prove its wiring; GroupSize that it works for groups of
      three servers only.
    - Accept, AcceptSafety: the accept loop of seven servers as a transition
      system with the goroutines that kill the server or switch its mode: every
      connection has one fate, a reliable server serves in order, a killed one
      stops because its listener is closed, the shared words keep their ranges.
    - PaxosServices: the life of these servers and of the Paxos peers in them,
      with their handlers, clerks and constant answers.
    - DebugPrint: DPrintf and debug, which the constants of the source switch
      off.

    ** Fuel and bounds

    [decode_stream] reads at most as many records as the file has bytes plus
    one; every record takes a byte, so none is missed ([decode_all_stream]).
    [fields_go] consumes at least one byte per unit of its fuel, the length of
    the string.  The clerks' loops never end in the source; they take a number
    of rounds, and [shardkv_Get_correct] shows how many are enough.
    [updateLastApplied_loop] gets the distance it has to cover.  The accept
    loop has no fuel, as it is a transition system; [killed_loop_ends] and
    [reliable_serves_in_order] bound its steps.

    ** Not modelled

    The real time that passes, and what goes to the log; the calls of DPrintf
    and debug are left out, because they have no effect (DebugPrint).  Sockets
    are modelled by what becomes of a connection, not by the bytes on it.  The
    names that randstring draws are inputs of the harnesses.  A labrpc handler
    runs in one step: the handlers of raft.go hold the peer's mutex from their
    first to their last statement, and only [startElection] reads without it.
    Data races are not modelled beyond the reads without a lock that raft.go
    makes on purpose ([startElection_args], where the reads of the term and of
    the log are two steps, but the three reads of the log are one) and the atomic
    flags of the accept loops.  Crashes of diskv are those of its process: what
    was written stays, as the code calls no fsync and the order in which a disk
    keeps writes is unknown.  A worker of MapReduce that the master has given up
    does not go on writing.  The liveness theorems say that a good schedule exists, not that a
    fair scheduler finds it, which depends on real time.  Apart from the
    test programs, the lines that no definition stands for are imports,
    comments, structs with no field or one, which are passed as their contents,
    and repeated declarations of constants and of the type [Err]. *)

From Stdlib Require Export ZArith Lia Sorted.
From stdpp Require Export base tactics list gmap sets strings numbers sorting.

(** * Hint databases

    [golang] collects the rewriting lemmas on slices, channels and
    integers that every component uses; [raft] the facts on a Raft peer's
    fields. *)

Create HintDb golang.
Create HintDb raft.

(** * Tactics *)

(** Split every conjunction, existential and boolean connective in the
    context. *)
Ltac norm_hyp :=
  match goal with
  | H : _ ∧ _ |- _ => destruct H
  | H : ∃ _, _ |- _ => destruct H
  | H : andb _ _ = true |- _ => apply andb_true_iff in H
  | H : orb _ _ = false |- _ => apply orb_false_iff in H
  | H : negb _ = true |- _ => apply negb_true_iff in H
  | H : negb _ = false |- _ => apply negb_false_iff in H
  | H : bool_decide _ = true |- _ => apply bool_decide_eq_true in H
  | H : bool_decide _ = false |- _ => apply bool_decide_eq_false in H
  end.

Ltac norm_hyps := repeat norm_hyp.

(** Turn boolean comparisons on [Z] into propositions for [lia]. *)
Ltac zbool :=
  repeat match goal with
  | H : Z.ltb _ _ = true |- _ => apply Z.ltb_lt in H
  | H : Z.ltb _ _ = false |- _ => apply Z.ltb_ge in H
  | H : Z.leb _ _ = true |- _ => apply Z.leb_le in H
  | H : Z.leb _ _ = false |- _ => apply Z.leb_gt in H
  | H : Z.eqb _ _ = true |- _ => apply Z.eqb_eq in H
  | H : Z.eqb _ _ = false |- _ => apply Z.eqb_neq in H
  end.

(** Take apart one step of an [option]-monadic computation that is known to
    have returned. *)
Ltac run_opt :=
  repeat match goal with
  | H : (_ ≫= _) = Some _ |- _ => apply bind_Some in H as (? & ? & H)
  | H : Some _ = Some _ |- _ => injection H as H
  | H : (_, _) = (_, _) |- _ => injection H as H
  | H : None = Some _ |- _ => discriminate H
  | H : Some _ = None |- _ => discriminate H
  end.

(** * Lists *)

Section list_facts.
Context {A : Type}.
Implicit Types l k : list A.

(** Two lists that agree on their first [n] positions agree on fewer. *)
Lemma take_eq_le l k m n :
  m ≤ n → take n l = take n k → take m l = take m k.
Proof.
  intros Hle Heq. rewrite <-(Nat.min_l m n) by lia.
  by rewrite <-!take_take, Heq.
Qed.

Lemma lookup_take_eq l k n i :
  take n l = take n k → i < n → l !! i = k !! i.
Proof.
  intros Heq Hi. rewrite <-(lookup_take_lt l n i) by done.
  by rewrite Heq, lookup_take_lt.
Qed.

Lemma prefix_take_eq l k n :
  l `prefix_of` k → n ≤ length l → take n k = take n l.
Proof. intros [r ->] Hn. by apply take_app_le. Qed.

Lemma take_prefix_le l m n : m ≤ n → take m l `prefix_of` take n l.
Proof. intros Hle. rewrite <-(Nat.min_l m n), <-take_take by done. apply prefix_take. Qed.

Lemma take_prefix_of l k n :
  l `prefix_of` k → n ≤ length l → take n k `prefix_of` l.
Proof. intros Hp Hn. rewrite (prefix_take_eq l k n) by done. apply prefix_take. Qed.

Lemma elem_of_delete_subset l n x : x ∈ delete n l → x ∈ l.
Proof.
  rewrite !list_elem_of_lookup. intros [i Hi].
  destruct (decide (i < n)).
  - rewrite list_lookup_delete_lt in Hi by done. eauto.
  - rewrite list_lookup_delete_ge in Hi by lia. eauto.
Qed.
End list_facts.

Section omap_facts.
Context {A B : Type} (f : A → option B).
Implicit Types l : list A.

(** Overwriting a position by an element with the same image. *)
Lemma omap_insert_same l n x y :
  l !! n = Some x → f x = f y → omap f (<[n := y]> l) = omap f l.
Proof.
  revert n. induction l as [|z l IH]; intros [|n] Hl Hf; simplify_eq/=.
  - by rewrite Hf.
  - by rewrite IH.
Qed.

Lemma omap_delete_perm l n x :
  l !! n = Some x → omap f l ≡ₚ omap f (x :: delete n l).
Proof. intros Hn. by rewrite <-delete_Permutation. Qed.

Lemma NoDup_omap_delete l n : NoDup (omap f l) → NoDup (omap f (delete n l)).
Proof.
  intros Hnd. destruct (l !! n) as [x|] eqn:Hn.
  - rewrite (omap_delete_perm l n x Hn) in Hnd. simpl in Hnd.
    destruct (f x); [by apply NoDup_cons in Hnd as [_ ?]|done].
  - apply lookup_ge_None in Hn.
    by rewrite delete_take_drop, take_ge, drop_ge, app_nil_r by lia.
Qed.
End omap_facts.

(** * Majorities *)

Section majorities.

(** A set of members of [0 .. n-1] that holds more than half of them. *)
Definition majority (n : nat) (Q : gset nat) : Prop :=
  Q ⊆ set_seq 0 n ∧ n < 2 * size Q.

(** Two majorities of the same cluster share a member. *)
Lemma majority_overlap n Q1 Q2 :
  majority n Q1 → majority n Q2 → ∃ x, x ∈ Q1 ∧ x ∈ Q2.
Proof.
  intros [Hs1 Hq1] [Hs2 Hq2].
  destruct (decide (Q1 ∩ Q2 = ∅)) as [Hemp|Hne].
  - exfalso.
    assert (size (Q1 ∪ Q2) = size Q1 + size Q2) as Hsz.
    { apply size_union. set_solver. }
    assert (size (Q1 ∪ Q2) ≤ size (set_seq (C:=gset nat) 0 n)) as Hle.
    { apply subseteq_size. set_solver. }
    rewrite size_set_seq in Hle. lia.
  - apply set_choose_L in Hne as [x Hx]. exists x. set_solver.
Qed.

Lemma majority_nonempty n Q : majority n Q → ∃ x, x ∈ Q.
Proof.
  intros HQ. destruct (majority_overlap n Q Q) as (x & ? & _); eauto.
Qed.
End majorities.
