(* ===== verification/GoBase.v ===== *)
(** * The part of Go the sources use: slices, channels, sorting, numbers

    A Go slice is a [list]; indexing and re-slicing are partial, and [None]
    stands for the run-time panic that Go raises out of range.  [int] values
    that index, count or number things are kept in [Z], since the code uses
    -1 as "none". *)

From Stdlib Require Export Strings.Byte.
From S2P Require Import Prelude.

(** ** Code that may end the process *)

(** The result of code that may end the process: [log.Fatalf], or a
    run-time panic. *)
Inductive result (A : Type) :=
| Ok (a : A)
| Fatal
| Panic
| Blocked.
Arguments Ok {A} _.
Arguments Fatal {A}.
Arguments Panic {A}.
Arguments Blocked {A}.

Definition rbind {A B} (r : result A) (k : A → result B) : result B :=
  match r with
  | Ok a => k a
  | Fatal => Fatal
  | Panic => Panic
  | Blocked => Blocked
  end.

(** A value the source can only use when it is there. *)
Definition oget {A} (o : option A) (none : result A) : result A :=
  match o with Some a => Ok a | None => none end.

(** Take apart a computation of the [result] monad that returned. *)
Lemma rbind_Ok {A B} (r : result A) (k : A → result B) b :
  rbind r k = Ok b → ∃ a, r = Ok a ∧ k a = Ok b.
Proof. destruct r; simpl; naive_solver. Qed.

Lemma oget_Ok {A} (o : option A) r a :
  oget o r = Ok a → (∀ b, r ≠ Ok b) → o = Some a.
Proof. destruct o; simpl; naive_solver. Qed.

Ltac run_result :=
  repeat match goal with
  | H : rbind _ _ = Ok _ |- _ => apply rbind_Ok in H as (? & ? & H)
  | H : oget _ _ = Ok _ |- _ => apply oget_Ok in H; [|done]
  | H : Ok _ = Ok _ |- _ => injection H as H
  | H : Fatal = Ok _ |- _ => discriminate H
  | H : Panic = Ok _ |- _ => discriminate H
  | H : Blocked = Ok _ |- _ => discriminate H
  end.

(** [for _, x := range l]: the body runs on each element in order. *)
Fixpoint rfor {A B} (body : A → B → result B) (l : list A) (b : B) : result B :=
  match l with
  | [] => Ok b
  | x :: l => rbind (body x b) (rfor body l)
  end.

Lemma rfor_app {A B} (body : A → B → result B) l k b :
  rfor body (l ++ k) b = rbind (rfor body l b) (rfor body k).
Proof.
  revert b. induction l as [|x l IH]; intros b; [done|].
  simpl. by destruct (body x b); simpl.
Qed.

Lemma rfor_inv {A B} (P : B → Prop) (body : A → B → result B) l b b' :
  (∀ x b b', x ∈ l → P b → body x b = Ok b' → P b') →
  P b → rfor body l b = Ok b' → P b'.
Proof.
  intros Hbody. revert b. induction l as [|x l IH]; intros b HP Hr; simpl in Hr.
  { by injection Hr as <-. }
  apply rbind_Ok in Hr as (c & Hc & Hr). eapply IH; [|eapply Hbody; [by left|..]|]; eauto.
  intros y d d' Hy. apply Hbody. by right.
Qed.

(** A loop that ends well ran its body on every element. *)
Lemma rfor_reaches {A B} (P : B → Prop) (body : A → B → result B) l b b' x :
  (∀ x b b', x ∈ l → P b → body x b = Ok b' → P b') →
  P b → rfor body l b = Ok b' → x ∈ l → ∃ c c', P c ∧ body x c = Ok c'.
Proof.
  intros Hbody. revert b. induction l as [|y l IH]; intros b HP Hr Hx.
  { by apply elem_of_nil in Hx. }
  simpl in Hr. apply rbind_Ok in Hr as (c & Hc & Hr).
  apply elem_of_cons in Hx as [->|Hx]; [eauto|].
  eapply IH; [|eapply Hbody; [by left|..]| |]; eauto. intros z d d' Hz. apply Hbody. by right.
Qed.

(** ** Slices *)

Section slices.
Context {A : Type}.
Implicit Types l : list A.

(** [len(l)]. *)
Definition zlen l : Z := Z.of_nat (length l).

(** [l[i]]. *)
Definition zget l (i : Z) : option A :=
  if Z.ltb i 0 then None else l !! Z.to_nat i.

(** [l[i] = x]. *)
Definition zset l (i : Z) (x : A) : option (list A) :=
  if Z.ltb i 0 || Z.leb (zlen l) i then None else Some (<[Z.to_nat i := x]> l).

(** [l[:i]], for [i] at most the length (the code never re-slices beyond). *)
Definition slice_to l (i : Z) : option (list A) :=
  if Z.ltb i 0 || Z.ltb (zlen l) i then None else Some (take (Z.to_nat i) l).

(** [l[i:]]. *)
Definition slice_from l (i : Z) : option (list A) :=
  if Z.ltb i 0 || Z.ltb (zlen l) i then None else Some (drop (Z.to_nat i) l).
End slices.

(** ** Channels of capacity one

    [make(chan bool, 1)]: full or empty.  A send on a full channel blocks,
    which is [None]. *)

Definition chan1 : Type := bool.

Definition chan_recv_default (ch : chan1) : chan1 := false.

Definition chan_send (ch : chan1) : option chan1 :=
  if ch then None else Some true.

(** ** Sorting

    [sort.Sort(sort.Reverse(sort.IntSlice(l)))] leaves [l] in descending
    order. *)

Fixpoint insert_desc (x : Z) (l : list Z) : list Z :=
  match l with
  | [] => [x]
  | y :: l' => if Z.leb y x then x :: y :: l' else y :: insert_desc x l'
  end.

Fixpoint sort_desc (l : list Z) : list Z :=
  match l with
  | [] => []
  | x :: l' => insert_desc x (sort_desc l')
  end.

(** ** encoding/gob

    One [gob.Encoder] writes a sequence of values to a buffer, one
    [gob.Decoder] reads them back in order: [gob_encode vs] is the buffer
    after one [Encode] call per element of [vs], and [gob_decode b n] the
    result of the [n]-th [Decode] call on [b], [None] when it returns an
    error.  The codec is a parameter of the development; its laws are the
    package's documented round trip and the end-of-file error on an empty
    buffer. *)

Class Gob (V : Type) := {
  gob_encode : list V → list byte;
  gob_decode : list byte → nat → option V;
}.

Class GobLaws (V : Type) `{Gob V} : Prop := {
  gob_decode_encode vs n : gob_decode (gob_encode vs) n = vs !! n;
  gob_decode_eof n : gob_decode [] n = None;
}.

(** A concrete codec for any countable type of values, used to run the
    models: the bits of the list's number, one per byte. *)

Fixpoint pos_bits (p : positive) : list byte :=
  match p with
  | xH => [x02]
  | xO p => x00 :: pos_bits p
  | xI p => x01 :: pos_bits p
  end.

Fixpoint bits_pos (b : list byte) : option positive :=
  match b with
  | [x02] => Some xH
  | x00 :: b => xO <$> bits_pos b
  | x01 :: b => xI <$> bits_pos b
  | _ => None
  end.

Definition bits_gob (V : Type) `{Countable V} : Gob V := {|
  gob_encode vs := pos_bits (encode vs);
  gob_decode b n := p ← bits_pos b; vs ← decode (A:=list V) p; vs !! n;
|}.

Lemma bits_pos_bits p : bits_pos (pos_bits p) = Some p.
Proof.
  induction p as [p IH|p IH|]; simpl; [| |done]; rewrite IH; simpl; done.
Qed.

Lemma bits_gob_laws (V : Type) `{Countable V} : @GobLaws V (bits_gob V).
Proof.
  split; [|done]. intros vs n. simpl.
  rewrite bits_pos_bits. simpl. by rewrite decode_encode.
Qed.

(** ** Lemmas on slices *)

Section slice_lemmas.
Context {A : Type}.
Implicit Types l : list A.

Lemma zlen_nonneg l : (0 ≤ zlen l)%Z.
Proof. unfold zlen. lia. Qed.

Lemma zlen_app l k : zlen (l ++ k) = (zlen l + zlen k)%Z.
Proof. unfold zlen. rewrite length_app. lia. Qed.

Lemma zget_Some l i x :
  zget l i = Some x ↔ (0 ≤ i)%Z ∧ l !! Z.to_nat i = Some x.
Proof.
  unfold zget. destruct (Z.ltb_spec i 0); split; try naive_solver lia.
Qed.

Lemma zget_lt l i x : zget l i = Some x → (0 ≤ i < zlen l)%Z.
Proof.
  intros [Hi Hx]%zget_Some. apply lookup_lt_Some in Hx. unfold zlen. lia.
Qed.

Lemma zget_is_Some l i : (0 ≤ i < zlen l)%Z → ∃ x, zget l i = Some x.
Proof.
  intros [Hi Hl]. unfold zlen in Hl.
  destruct (lookup_lt_is_Some_2 l (Z.to_nat i)) as [x Hx]; [lia|].
  exists x. apply zget_Some. eauto with lia.
Qed.

Lemma zget_None l i : zget l i = None ↔ (i < 0 ∨ zlen l ≤ i)%Z.
Proof.
  unfold zget, zlen. destruct (Z.ltb_spec i 0); [naive_solver lia|].
  rewrite lookup_ge_None. lia.
Qed.

Lemma zget_nat l (i : nat) : zget l (Z.of_nat i) = l !! i.
Proof.
  unfold zget. destruct (Z.ltb_spec (Z.of_nat i) 0); [lia|].
  by rewrite Nat2Z.id.
Qed.

Lemma zget_app_l l k i : (i < zlen l)%Z → zget (l ++ k) i = zget l i.
Proof.
  unfold zget, zlen. intros. destruct (Z.ltb_spec i 0); [done|].
  apply lookup_app_l. lia.
Qed.

Lemma zset_Some l i x l' :
  zset l i x = Some l' ↔ (0 ≤ i < zlen l)%Z ∧ l' = <[Z.to_nat i := x]> l.
Proof.
  unfold zset. destruct (Z.ltb_spec i 0), (Z.leb_spec (zlen l) i); simpl;
    naive_solver lia.
Qed.

Lemma zset_length l i x l' : zset l i x = Some l' → length l' = length l.
Proof. intros [_ ->]%zset_Some. by rewrite length_insert. Qed.

Lemma slice_to_Some l i l' :
  slice_to l i = Some l' ↔ (0 ≤ i ≤ zlen l)%Z ∧ l' = take (Z.to_nat i) l.
Proof.
  unfold slice_to. destruct (Z.ltb_spec i 0), (Z.ltb_spec (zlen l) i); simpl;
    naive_solver lia.
Qed.

Lemma slice_from_Some l i l' :
  slice_from l i = Some l' ↔ (0 ≤ i ≤ zlen l)%Z ∧ l' = drop (Z.to_nat i) l.
Proof.
  unfold slice_from. destruct (Z.ltb_spec i 0), (Z.ltb_spec (zlen l) i);
    simpl; naive_solver lia.
Qed.
End slice_lemmas.

#[export] Hint Resolve zlen_nonneg : golang.
#[export] Hint Rewrite @zlen_app @zget_nat : golang.

(** ** Lemmas on sorting *)

Lemma insert_desc_perm x l : insert_desc x l ≡ₚ x :: l.
Proof.
  induction l as [|y l IH]; simpl; [done|].
  destruct (Z.leb y x); [done|]. rewrite IH. constructor.
Qed.

Lemma sort_desc_perm l : sort_desc l ≡ₚ l.
Proof.
  induction l as [|x l IH]; simpl; [done|]. by rewrite insert_desc_perm, IH.
Qed.

Lemma sort_desc_length l : length (sort_desc l) = length l.
Proof. by rewrite sort_desc_perm. Qed.

Lemma insert_desc_sorted x l :
  Sorted Z.ge l → Sorted Z.ge (insert_desc x l).
Proof.
  induction 1 as [|y l Hs IH Hhd]; simpl; [repeat constructor|].
  destruct (Z.leb_spec y x).
  - repeat constructor; auto. lia.
  - constructor; [done|]. destruct l as [|z l]; simpl.
    + constructor. lia.
    + inversion Hhd; subst. destruct (Z.leb z x); constructor; lia.
Qed.

Lemma sort_desc_sorted l : Sorted Z.ge (sort_desc l).
Proof.
  induction l; simpl; [constructor|]. by apply insert_desc_sorted.
Qed.

Lemma sort_desc_lookup_ge (l : list Z) (i j : nat) (x y : Z) :
  sort_desc l !! i = Some x → sort_desc l !! j = Some y → i ≤ j → (y ≤ x)%Z.
Proof.
  intros Hx Hy Hij. destruct (decide (i = j)) as [->|]; [naive_solver lia|].
  assert (StronglySorted Z.ge (sort_desc l)) as Hss.
  { apply Sorted_StronglySorted; [intros ???; lia|]. apply sort_desc_sorted. }
  apply Z.ge_le. eapply (StronglySorted_app_1_elem_of Z.ge
    (take (S i) (sort_desc l)) (drop (S i) (sort_desc l))).
  - by rewrite take_drop.
  - apply list_elem_of_lookup. exists i. rewrite lookup_take_lt by lia. done.
  - apply list_elem_of_lookup. exists (j - S i).
    rewrite lookup_drop. by replace (S i + (j - S i)) with j by lia.
Qed.
