(* ===== verification/GoStrings.v ===== *)
(** * The part of Go's strings, strconv and sort packages the sources use

    A Go string is a [string] of bytes.  [Itoa] is stdpp's decimal printer;
    [sort.Strings] sorts bytewise. *)

From Stdlib Require Export Ascii.
From stdpp Require Export pretty.
From S2P Require Import Prelude GoBase.

(** ** strconv *)

Definition Itoa (n : Z) : string := pretty n.

Definition digit_value (c : ascii) : option Z :=
  let v := Z.of_nat (nat_of_ascii c) in
  if Z.leb 48 v && Z.leb v 57 then Some (v - 48)%Z else None.

(** The number a string of digits stands for, after the digits already
    read. *)
Fixpoint parse_digits (acc : Z) (s : string) : option Z :=
  match s with
  | EmptyString => Some acc
  | String c s' => d ← digit_value c; parse_digits (acc * 10 + d) s'
  end.

Definition int_min : Z := (- 2 ^ 63)%Z.
Definition int_max : Z := (2 ^ 63 - 1)%Z.

(** [strconv.Atoi]: an optional sign and at least one decimal digit, in the
    range of a 64-bit [int]; [None] when it returns an error. *)
Definition Atoi (s : string) : option Z :=
  let '(neg, ds) :=
    match s with
    | String "-" s' => (true, s')
    | String "+" s' => (false, s')
    | _ => (false, s)
    end in
  match ds with
  | EmptyString => None
  | _ =>
      v ← parse_digits 0 ds;
      let n := if (neg : bool) then (- v)%Z else v in
      if Z.leb int_min n && Z.leb n int_max then Some n else None
  end.

(** 64-bit [int] arithmetic wraps around. *)
Definition wrap_int (n : Z) : Z := ((n + 2 ^ 63) mod 2 ^ 64 - 2 ^ 63)%Z.

(** ** sort.Strings, strings.Join *)

Definition sort_Strings (l : list string) : list string := merge_sort String.le l.

Fixpoint Join (l : list string) (sep : string) : string :=
  match l with
  | [] => ""
  | [s] => s
  | s :: l' => s +:+ sep +:+ Join l' sep
  end.

(** Strings written one after the other. *)
Fixpoint concat_strings (l : list string) : string :=
  match l with
  | [] => ""
  | s :: l' => s +:+ concat_strings l'
  end.

(** ** Lemmas *)

Lemma length_string_app s t :
  String.length (s +:+ t) = String.length s + String.length t.
Proof.
  induction s as [|a s IH]; [done|].
  change (String a s +:+ t) with (String a (s +:+ t)).
  cbn [String.length]. lia.
Qed.

Lemma substring_whole t : String.substring 0 (String.length t) t = t.
Proof.
  induction t as [|a t IH]; [done|].
  cbn [String.length String.substring]. by rewrite IH.
Qed.

Lemma substring_prefix s t : String.substring 0 (String.length s) (s +:+ t) = s.
Proof.
  induction s as [|a s IH]; [by destruct t|].
  change (String a s +:+ t) with (String a (s +:+ t)).
  cbn [String.length String.substring]. by rewrite IH.
Qed.

Lemma substring_suffix s t :
  String.substring (String.length s) (String.length t) (s +:+ t) = t.
Proof. induction s as [|a s IH]; [apply substring_whole|]. done. Qed.

Lemma string_app_assoc s t u : s +:+ t +:+ u = (s +:+ t) +:+ u.
Proof.
  induction s as [|a s IH]; [done|].
  change (String a (s +:+ (t +:+ u)) = String a ((s +:+ t) +:+ u)).
  by rewrite IH.
Qed.

Lemma string_app_nil_r s : s +:+ "" = s.
Proof.
  induction s as [|a s IH]; [done|].
  change (String a (s +:+ "") = String a s). by rewrite IH.
Qed.

Lemma string_app_cons a s t : String a s +:+ t = String a (s +:+ t).
Proof. done. Qed.

Lemma concat_strings_app l k :
  concat_strings (l ++ k) = concat_strings l +:+ concat_strings k.
Proof.
  induction l as [|s l IH]; [done|]. simpl.
  by rewrite IH, string_app_assoc.
Qed.

(** Does character [c] occur in [s]? *)
Fixpoint string_mem (c : ascii) (s : string) : bool :=
  match s with
  | EmptyString => false
  | String a s' => Ascii.eqb a c || string_mem c s'
  end.

(** A separator that the first parts do not contain splits uniquely. *)
Lemma string_sep_inj c s1 s2 t1 t2 :
  string_mem c s1 = false → string_mem c t1 = false →
  s1 +:+ String c s2 = t1 +:+ String c t2 → s1 = t1 ∧ s2 = t2.
Proof.
  revert t1. induction s1 as [|a s1 IH]; intros [|b t1] Hs Ht Heq;
    cbn [string_mem] in *; rewrite ?string_app_cons in *.
  - by injection Heq.
  - injection Heq as -> _. by rewrite Ascii.eqb_refl in Ht.
  - injection Heq as -> _. by rewrite Ascii.eqb_refl in Hs.
  - injection Heq as -> Heq. apply orb_false_iff in Hs as [_ Hs], Ht as [_ Ht].
    destruct (IH t1 Hs Ht Heq) as [-> ->]. done.
Qed.

(** *** Decimal numbers *)

Definition is_digit (c : ascii) : bool := bool_decide (is_Some (digit_value c)).

Fixpoint all_digits (s : string) : bool :=
  match s with
  | EmptyString => true
  | String c s' => is_digit c && all_digits s'
  end.

Lemma digit_value_char x :
  (x < 10)%N → digit_value (pretty_N_char x) = Some (Z.of_N x).
Proof.
  intros Hx.
  assert (x = 0 ∨ x = 1 ∨ x = 2 ∨ x = 3 ∨ x = 4 ∨ x = 5 ∨ x = 6
          ∨ x = 7 ∨ x = 8 ∨ x = 9)%N as Hc by lia.
  destruct_or!; by subst.
Qed.

Lemma pretty_N_go_digits x s :
  all_digits s = true → all_digits (pretty_N_go x s) = true.
Proof.
  revert s. induction (N.lt_wf_0 x) as [x _ IH]; intros s Hs.
  assert (x = 0 ∨ 0 < x)%N as [->|Hx] by lia; [by rewrite pretty_N_go_0|].
  rewrite pretty_N_go_step by done. apply IH; [by apply N.div_lt|].
  cbn [all_digits]. unfold is_digit.
  by rewrite digit_value_char by (by apply N.mod_lt).
Qed.

Lemma parse_pretty_N_go x s acc :
  parse_digits 0 (pretty_N_go x s) = Some acc ↔
  parse_digits (Z.of_N x) s = Some acc.
Proof.
  revert s. induction (N.lt_wf_0 x) as [x _ IH]; intros s.
  assert (x = 0 ∨ 0 < x)%N as [->|Hx] by lia; [by rewrite pretty_N_go_0|].
  rewrite pretty_N_go_step, IH by (done || by apply N.div_lt).
  cbn [parse_digits]. rewrite digit_value_char by (by apply N.mod_lt). simpl.
  pose proof (N.div_mod x 10 ltac:(done)) as Hdm.
  by replace (Z.of_N (x `div` 10) * 10 + Z.of_N (x `mod` 10))%Z with (Z.of_N x)
    by lia.
Qed.

Lemma Itoa_digits n : (0 ≤ n)%Z → all_digits (Itoa n) = true.
Proof.
  destruct n as [|p|p]; intros Hn; [done| |lia].
  unfold Itoa, pretty, pretty_Z, pretty, pretty_positive, pretty, pretty_N.
  case_decide; [done|]. by apply pretty_N_go_digits.
Qed.

Lemma pretty_N_go_nonempty x s : s ≠ "" → pretty_N_go x s ≠ "".
Proof.
  revert s. induction (N.lt_wf_0 x) as [x _ IH]; intros s Hs.
  assert (x = 0 ∨ 0 < x)%N as [->|Hx] by lia; [by rewrite pretty_N_go_0|].
  rewrite pretty_N_go_step by done. apply IH; [by apply N.div_lt|done].
Qed.

Lemma Itoa_nonempty n : Itoa n ≠ "".
Proof.
  destruct n as [|p|p]; [done| |done].
  unfold Itoa, pretty, pretty_Z, pretty, pretty_positive, pretty, pretty_N.
  case_decide; [done|]. rewrite pretty_N_go_step by lia.
  by apply pretty_N_go_nonempty.
Qed.

Lemma parse_Itoa n : (0 ≤ n)%Z → parse_digits 0 (Itoa n) = Some n.
Proof.
  destruct n as [|p|p]; intros Hn; [done| |lia].
  unfold Itoa, pretty, pretty_Z, pretty, pretty_positive, pretty, pretty_N.
  case_decide; [done|]. by apply parse_pretty_N_go.
Qed.

Lemma all_digits_mem c s :
  is_digit c = false → all_digits s = true → string_mem c s = false.
Proof.
  intros Hc. induction s as [|a s IH]; [done|]. cbn [all_digits string_mem].
  intros [Ha Hs]%andb_true_iff. rewrite IH by done.
  destruct (Ascii.eqb_spec a c); [congruence|done].
Qed.

Lemma dash_not_digit : is_digit "-"%char = false.
Proof. by vm_compute. Qed.

Lemma Itoa_no_dash n : (0 ≤ n)%Z → string_mem "-"%char (Itoa n) = false.
Proof.
  intros Hn. apply all_digits_mem; [apply dash_not_digit|by apply Itoa_digits].
Qed.

Global Instance Itoa_inj : Inj (=) (=) Itoa.
Proof. unfold Itoa. apply _. Qed.

(** Printing a non-negative number and reading it back. *)
Lemma Atoi_Itoa n : (0 ≤ n ≤ int_max)%Z → Atoi (Itoa n) = Some n.
Proof.
  intros Hn. pose proof (parse_Itoa n ltac:(lia)) as Hp.
  pose proof (Itoa_digits n ltac:(lia)) as Hd.
  pose proof (Itoa_nonempty n) as Hne. unfold Atoi.
  destruct (Itoa n) as [|c s] eqn:Hs; [done|].
  assert (c ≠ "-"%char ∧ c ≠ "+"%char) as [Hm Hpl].
  { cbn [all_digits] in Hd. apply andb_true_iff in Hd as [Hd _].
    split; intros ->; done. }
  assert (match String c s with
          | String "-" s' => (true, s')
          | String "+" s' => (false, s')
          | _ => (false, String c s)
          end = (false, String c s)) as ->.
  { destruct c as [[] [] [] [] [] [] [] []]; done. }
  rewrite Hp. cbn -[Z.leb int_min int_max].
  destruct (Z.leb_spec int_min n); [|unfold int_min in *; lia].
  by destruct (Z.leb_spec n int_max); [|lia].
Qed.

(** *** Sorting *)

(** The result only depends on which strings are sorted, so it does not
    matter in which order a map was iterated. *)
Lemma sort_Strings_perm l k : l ≡ₚ k → sort_Strings l = sort_Strings k.
Proof.
  intros Hlk. apply (Sorted_unique String.le).
  - apply Sorted_merge_sort, _.
  - apply Sorted_merge_sort, _.
  - unfold sort_Strings. by rewrite !merge_sort_Permutation.
Qed.

Lemma sort_Strings_Permutation l : sort_Strings l ≡ₚ l.
Proof. apply merge_sort_Permutation. Qed.

Lemma sort_Strings_sorted l : Sorted String.le (sort_Strings l).
Proof. apply Sorted_merge_sort, _. Qed.
