(* ===== verification/Persister.v ===== *)
(** * raft/persister.go: the stable storage of a Raft peer

    The two byte slices a [Persister] keeps.  Every method runs under the
    persister's own mutex, so each is one state transformer.  [Copy] shares
    the slices of the original; no method writes into a slice in place, so a
    shared slice and a copied one cannot be told apart. *)

From S2P Require Import Prelude GoBase.

Record Persister := mkPersister {
  raftstate : list byte;
  snapshot : list byte;
}.

Definition MakePersister : Persister := mkPersister [] [].

Definition Copy (ps : Persister) : Persister :=
  mkPersister (raftstate ps) (snapshot ps).

Definition SaveRaftState (ps : Persister) (data : list byte) : Persister :=
  mkPersister data (snapshot ps).

Definition ReadRaftState (ps : Persister) : list byte := raftstate ps.

Definition RaftStateSize (ps : Persister) : Z := zlen (raftstate ps).

Definition SaveSnapshot (ps : Persister) (snap : list byte) : Persister :=
  mkPersister (raftstate ps) snap.

Definition ReadSnapshot (ps : Persister) : list byte := snapshot ps.
