(* ===== verification/Raft.v ===== *)
(** * raft/raft.go: one Raft peer

    The whole of raft.go, handler by handler.  A handler that runs under
    [raft.mu] is one function on the peer's state; [None] means that the
    goroutine does not come back from it, because Go panics (an index out of
    range) or because a channel send blocks.  The fields of the Go struct are
    the fields of [Raft]; [peers] is the number of client ends, and [applyCh]
    is the sequence of messages delivered so far on that channel.  [Cmd] is
    the type of commands; an [interface{}] that may be nil is [option Cmd].

    The two goroutine bodies of [startElection] and [StartAppendLog] are cut
    at the points where they release the mutex to perform an RPC:
    [startElection_args], [startElection_reply], [StartAppendLog_args] and
    [StartAppendLog_reply].  How these pieces interleave is the subject of
    RaftSystem.v. *)

From S2P Require Import Prelude GoBase Persister.

(** ** Data *)

Inductive RState := Follower | Candidate | Leader.

#[export] Instance RState_eq_dec : EqDecision RState.
Proof. solve_decision. Defined.

Record LogEntry (Cmd : Type) := mkLog {
  Log_Term : Z;
  Log_Command : option Cmd;
}.
Arguments mkLog {Cmd} _ _.
Arguments Log_Term {Cmd} _.
Arguments Log_Command {Cmd} _.

Record ApplyMsg (Cmd : Type) := mkApplyMsg {
  AM_Index : Z;
  AM_Command : option Cmd;
  AM_UseSnapshot : bool;
  AM_Snapshot : list byte;
}.
Arguments mkApplyMsg {Cmd} _ _ _ _.
Arguments AM_Index {Cmd} _.
Arguments AM_Command {Cmd} _.
Arguments AM_UseSnapshot {Cmd} _.
Arguments AM_Snapshot {Cmd} _.

Record AppendEntriesReply := mkAEReply {
  AER_Term : Z;
  AER_Success : bool;
}.

Record InstallSnapshotArgs := mkISArgs {
  IS_Term : Z;
  IS_LeaderId : Z;
  IS_LastIncludedIndex : Z;
  IS_LastIncludedTerm : Z;
  IS_Offset : Z;
  IS_Data : list byte;
  IS_done : bool;
}.

Record InstallSnapshotReply := mkISReply {
  ISR_Term : Z;
}.

Record RequestVoteArgs := mkRVArgs {
  RV_Term : Z;
  RV_CandidateId : Z;
  RV_LastLogIndex : Z;
  RV_LastLogTerm : Z;
}.

Record AppendEntriesArgs (Cmd : Type) := mkAEArgs {
  AE_Term : Z;
  AE_LeaderId : Z;
  AE_PrevLogIndex : Z;
  AE_PrevLogTerm : Z;
  AE_Entries : list (LogEntry Cmd);
  AE_LeaderCommit : Z;
}.
Arguments mkAEArgs {Cmd} _ _ _ _ _ _.
Arguments AE_Term {Cmd} _.
Arguments AE_LeaderId {Cmd} _.
Arguments AE_PrevLogIndex {Cmd} _.
Arguments AE_PrevLogTerm {Cmd} _.
Arguments AE_Entries {Cmd} _.
Arguments AE_LeaderCommit {Cmd} _.

Record RequestVoteReply := mkRVReply {
  RVR_Term : Z;
  RVR_VoteGranted : bool;
}.

Record Raft (Cmd : Type) := mkRaft {
  me : nat;
  peers : nat;
  persister : Persister;
  State : RState;
  CurrentTerm : Z;
  VoteFor : Z;
  Log : list (LogEntry Cmd);
  CommitIndex : Z;
  LastApplied : Z;
  NextIndex : list Z;
  MatchIndex : list Z;
  appendLogCh : chan1;
  voteCh : chan1;
  applyCh : list (ApplyMsg Cmd);
}.
Arguments mkRaft {Cmd} _ _ _ _ _ _ _ _ _ _ _ _ _ _.
Arguments me {Cmd} _.
Arguments peers {Cmd} _.
Arguments persister {Cmd} _.
Arguments State {Cmd} _.
Arguments CurrentTerm {Cmd} _.
Arguments VoteFor {Cmd} _.
Arguments Log {Cmd} _.
Arguments CommitIndex {Cmd} _.
Arguments LastApplied {Cmd} _.
Arguments NextIndex {Cmd} _.
Arguments MatchIndex {Cmd} _.
Arguments appendLogCh {Cmd} _.
Arguments voteCh {Cmd} _.
Arguments applyCh {Cmd} _.

(** The values [persist] hands to gob. *)
Inductive gval (Cmd : Type) :=
| GInt (z : Z)
| GLog (l : list (LogEntry Cmd)).
Arguments GInt {Cmd} _.
Arguments GLog {Cmd} _.

#[export] Instance LogEntry_eq_dec `{EqDecision Cmd} :
  EqDecision (LogEntry Cmd).
Proof. solve_decision. Defined.

#[export] Instance LogEntry_countable `{Countable Cmd} :
  Countable (LogEntry Cmd).
Proof.
  refine (inj_countable' (λ e, (Log_Term e, Log_Command e))
            (λ p, mkLog p.1 p.2) _); by intros [].
Defined.

#[export] Instance gval_eq_dec `{EqDecision Cmd} : EqDecision (gval Cmd).
Proof. solve_decision. Defined.

#[export] Instance gval_countable `{Countable Cmd} : Countable (gval Cmd).
Proof.
  refine (inj_countable' (λ v, match v with GInt z => inl z | GLog l => inr l end)
            (λ s, match s with inl z => GInt z | inr l => GLog l end) _);
    by intros [].
Defined.

(** ** Field updates *)

Section setters.
Context {Cmd : Type}.

Definition set_persister (x : Persister) (rf : Raft Cmd) : Raft Cmd :=
  mkRaft (rf.(me)) (rf.(peers)) x (rf.(State)) (rf.(CurrentTerm))
    (rf.(VoteFor)) (rf.(Log)) (rf.(CommitIndex)) (rf.(LastApplied))
    (rf.(NextIndex)) (rf.(MatchIndex)) (rf.(appendLogCh)) (rf.(voteCh))
    (rf.(applyCh)).

Definition set_State (x : RState) (rf : Raft Cmd) : Raft Cmd :=
  mkRaft (rf.(me)) (rf.(peers)) (rf.(persister)) x (rf.(CurrentTerm))
    (rf.(VoteFor)) (rf.(Log)) (rf.(CommitIndex)) (rf.(LastApplied))
    (rf.(NextIndex)) (rf.(MatchIndex)) (rf.(appendLogCh)) (rf.(voteCh))
    (rf.(applyCh)).

Definition set_CurrentTerm (x : Z) (rf : Raft Cmd) : Raft Cmd :=
  mkRaft (rf.(me)) (rf.(peers)) (rf.(persister)) (rf.(State)) x
    (rf.(VoteFor)) (rf.(Log)) (rf.(CommitIndex)) (rf.(LastApplied))
    (rf.(NextIndex)) (rf.(MatchIndex)) (rf.(appendLogCh)) (rf.(voteCh))
    (rf.(applyCh)).

Definition set_VoteFor (x : Z) (rf : Raft Cmd) : Raft Cmd :=
  mkRaft (rf.(me)) (rf.(peers)) (rf.(persister)) (rf.(State))
    (rf.(CurrentTerm)) x (rf.(Log)) (rf.(CommitIndex)) (rf.(LastApplied))
    (rf.(NextIndex)) (rf.(MatchIndex)) (rf.(appendLogCh)) (rf.(voteCh))
    (rf.(applyCh)).

Definition set_Log (x : list (LogEntry Cmd)) (rf : Raft Cmd) : Raft Cmd :=
  mkRaft (rf.(me)) (rf.(peers)) (rf.(persister)) (rf.(State))
    (rf.(CurrentTerm)) (rf.(VoteFor)) x (rf.(CommitIndex))
    (rf.(LastApplied)) (rf.(NextIndex)) (rf.(MatchIndex)) (rf.(appendLogCh))
    (rf.(voteCh)) (rf.(applyCh)).

Definition set_CommitIndex (x : Z) (rf : Raft Cmd) : Raft Cmd :=
  mkRaft (rf.(me)) (rf.(peers)) (rf.(persister)) (rf.(State))
    (rf.(CurrentTerm)) (rf.(VoteFor)) (rf.(Log)) x (rf.(LastApplied))
    (rf.(NextIndex)) (rf.(MatchIndex)) (rf.(appendLogCh)) (rf.(voteCh))
    (rf.(applyCh)).

Definition set_LastApplied (x : Z) (rf : Raft Cmd) : Raft Cmd :=
  mkRaft (rf.(me)) (rf.(peers)) (rf.(persister)) (rf.(State))
    (rf.(CurrentTerm)) (rf.(VoteFor)) (rf.(Log)) (rf.(CommitIndex)) x
    (rf.(NextIndex)) (rf.(MatchIndex)) (rf.(appendLogCh)) (rf.(voteCh))
    (rf.(applyCh)).

Definition set_NextIndex (x : list Z) (rf : Raft Cmd) : Raft Cmd :=
  mkRaft (rf.(me)) (rf.(peers)) (rf.(persister)) (rf.(State))
    (rf.(CurrentTerm)) (rf.(VoteFor)) (rf.(Log)) (rf.(CommitIndex))
    (rf.(LastApplied)) x (rf.(MatchIndex)) (rf.(appendLogCh)) (rf.(voteCh))
    (rf.(applyCh)).

Definition set_MatchIndex (x : list Z) (rf : Raft Cmd) : Raft Cmd :=
  mkRaft (rf.(me)) (rf.(peers)) (rf.(persister)) (rf.(State))
    (rf.(CurrentTerm)) (rf.(VoteFor)) (rf.(Log)) (rf.(CommitIndex))
    (rf.(LastApplied)) (rf.(NextIndex)) x (rf.(appendLogCh)) (rf.(voteCh))
    (rf.(applyCh)).

Definition set_appendLogCh (x : chan1) (rf : Raft Cmd) : Raft Cmd :=
  mkRaft (rf.(me)) (rf.(peers)) (rf.(persister)) (rf.(State))
    (rf.(CurrentTerm)) (rf.(VoteFor)) (rf.(Log)) (rf.(CommitIndex))
    (rf.(LastApplied)) (rf.(NextIndex)) (rf.(MatchIndex)) x (rf.(voteCh))
    (rf.(applyCh)).

Definition set_voteCh (x : chan1) (rf : Raft Cmd) : Raft Cmd :=
  mkRaft (rf.(me)) (rf.(peers)) (rf.(persister)) (rf.(State))
    (rf.(CurrentTerm)) (rf.(VoteFor)) (rf.(Log)) (rf.(CommitIndex))
    (rf.(LastApplied)) (rf.(NextIndex)) (rf.(MatchIndex)) (rf.(appendLogCh))
    x (rf.(applyCh)).

Definition set_applyCh (x : list (ApplyMsg Cmd)) (rf : Raft Cmd) : Raft Cmd :=
  mkRaft (rf.(me)) (rf.(peers)) (rf.(persister)) (rf.(State))
    (rf.(CurrentTerm)) (rf.(VoteFor)) (rf.(Log)) (rf.(CommitIndex))
    (rf.(LastApplied)) (rf.(NextIndex)) (rf.(MatchIndex)) (rf.(appendLogCh))
    (rf.(voteCh)) x.

End setters.

(** ** Operations *)

Section operations.
Context {Cmd : Type} `{!Gob (gval Cmd)}.
Implicit Types rf : Raft Cmd.

(** [min] of raft.go. *)
Definition min (x y : Z) : Z := if (x <? y)%Z then x else y.

(** [send]: if the channel already holds a value, consume it; then send. *)
Definition send (ch : chan1) : option chan1 :=
  chan_send (chan_recv_default ch).

(** [GetState]. *)
Definition GetState rf : Z * bool :=
  (CurrentTerm rf, bool_decide (State rf = Leader)).

(** [persist]: encode the term, the vote and the log, and save the bytes. *)
Definition persist rf : Raft Cmd :=
  set_persister
    (SaveRaftState (persister rf)
       (gob_encode [GInt (CurrentTerm rf); GInt (VoteFor rf); GLog (Log rf)]))
    rf.

(** One [d.Decode(&x)] call on an int variable, on a log variable: a failing
    call leaves the variable as it is. *)
Definition decode_int (data : list byte) (n : nat) (old : Z) : Z :=
  match gob_decode (V:=gval Cmd) data n with Some (GInt z) => z | _ => old end.

Definition decode_log (data : list byte) (n : nat) (old : list (LogEntry Cmd))
    : list (LogEntry Cmd) :=
  match gob_decode data n with Some (GLog l) => l | _ => old end.

(** [readPersist]. *)
Definition readPersist (data : list byte) rf : Raft Cmd :=
  let rf := set_CurrentTerm (decode_int data 0 (CurrentTerm rf)) rf in
  let rf := set_VoteFor (decode_int data 1 (VoteFor rf)) rf in
  set_Log (decode_log data 2 (Log rf)) rf.

(** [BeFollower]. *)
Definition BeFollower (term : Z) rf : Raft Cmd :=
  set_VoteFor (-1)%Z (set_State Follower (set_CurrentTerm term rf)).

(** [BeCandidate], without the [go raft.startElection()] it ends with. *)
Definition BeCandidate rf : Raft Cmd :=
  set_VoteFor (Z.of_nat (me rf))
    (set_State Candidate (set_CurrentTerm (CurrentTerm rf + 1) rf)).

(** [BeLeader]. *)
Definition BeLeader rf : Raft Cmd :=
  let rf := set_State Leader rf in
  let rf := set_NextIndex (replicate (peers rf) 0%Z) rf in
  let rf := set_MatchIndex (replicate (peers rf) 0%Z) rf in
  set_NextIndex ((λ _, zlen (Log rf)) <$> NextIndex rf) rf.

(** [GetLastLogIndex]. *)
Definition GetLastLogIndex rf : Z := zlen (Log rf) - 1.

(** [updateLastApplied]: deliver [LastApplied+1 .. CommitIndex] in order. *)
Fixpoint updateLastApplied_loop (fuel : nat) rf : option (Raft Cmd) :=
  if (LastApplied rf <? CommitIndex rf)%Z then
    match fuel with
    | O => None
    | S fuel =>
        let rf := set_LastApplied (LastApplied rf + 1) rf in
        curLog ← zget (Log rf) (LastApplied rf);
        let applyMsg :=
          mkApplyMsg (LastApplied rf) (Log_Command curLog) false [] in
        updateLastApplied_loop fuel (set_applyCh (applyCh rf ++ [applyMsg]) rf)
    end
  else Some rf.

Definition updateLastApplied rf : option (Raft Cmd) :=
  updateLastApplied_loop (Z.to_nat (CommitIndex rf - LastApplied rf)) rf.

(** [InstallSnapshot] RPC handler. *)
Definition InstallSnapshot (args : InstallSnapshotArgs) rf
    : Raft Cmd * InstallSnapshotReply :=
  let reply := mkISReply (CurrentTerm rf) in
  if (IS_Term args <? CurrentTerm rf)%Z then (rf, reply)
  else if (CurrentTerm rf <? IS_Term args)%Z
       then (BeFollower (IS_Term args) rf, reply)
       else (rf, reply).

(** [RequestVote] RPC handler. *)
Definition RequestVote (args : RequestVoteArgs) rf
    : option (Raft Cmd * RequestVoteReply) :=
  let rf := if (CurrentTerm rf <? RV_Term args)%Z
            then BeFollower (RV_Term args) rf else rf in
  let reply := mkRVReply (CurrentTerm rf) false in
  if (RV_Term args <? CurrentTerm rf)%Z then Some (rf, reply)
  else if negb (VoteFor rf =? -1)%Z
          && negb (VoteFor rf =? RV_CandidateId args)%Z
  then Some (rf, reply)
  else
    last ← zget (Log rf) (zlen (Log rf) - 1);
    if (RV_LastLogTerm args <? Log_Term last)%Z
       || ((RV_LastLogTerm args =? Log_Term last)%Z
           && (RV_LastLogIndex args <? zlen (Log rf) - 1)%Z)
    then Some (rf, reply)
    else
      let rf := set_VoteFor (RV_CandidateId args) rf in
      ch ← send (voteCh rf);
      let rf := set_voteCh ch rf in
      Some (persist rf, mkRVReply (RVR_Term reply) true).

(** [AppendEntries] RPC handler. *)
Definition AppendEntries (args : AppendEntriesArgs Cmd) rf
    : option (Raft Cmd * AppendEntriesReply) :=
  let rf := if (CurrentTerm rf <? AE_Term args)%Z
            then BeFollower (AE_Term args) rf else rf in
  ch ← send (appendLogCh rf);
  let rf := set_appendLogCh ch rf in
  let reply := mkAEReply (CurrentTerm rf) false in
  if (AE_Term args <? CurrentTerm rf)%Z then Some (rf, reply)
  else if (zlen (Log rf) <=? AE_PrevLogIndex args)%Z then Some (rf, reply)
  else
    preLog ← zget (Log rf) (AE_PrevLogIndex args);
    if negb (Log_Term preLog =? AE_PrevLogTerm args)%Z then Some (rf, reply)
    else
      kept ← slice_to (Log rf) (AE_PrevLogIndex args + 1);
      let rf := set_Log (kept ++ AE_Entries args) rf in
      rf ← (if (CommitIndex rf <? AE_LeaderCommit args)%Z
            then updateLastApplied
                   (set_CommitIndex
                      (min (AE_LeaderCommit args) (zlen (Log rf) - 1)) rf)
            else Some rf);
      Some (persist rf, mkAEReply (AER_Term reply) true).

(** [Start]. *)
Definition Start (command : option Cmd) rf : Raft Cmd * (Z * Z * bool) :=
  let term := CurrentTerm rf in
  let isLeader := bool_decide (State rf = Leader) in
  if isLeader then
    let index := (GetLastLogIndex rf + 1)%Z in
    let newLog := mkLog (CurrentTerm rf) command in
    (persist (set_Log (Log rf ++ [newLog]) rf), (index, term, isLeader))
  else (rf, ((-1)%Z, term, isLeader)).

(** [Kill] does nothing. *)
Definition Kill rf : Raft Cmd := rf.

(** The peers a goroutine is started for: all but [raft.me]. *)
Definition others rf : list nat :=
  filter (λ i, i ≠ me rf) (seq 0 (peers rf)).

(** [startElection], the argument it sends to every other peer.  The code
    reads the state without the mutex, so the term it saw may be older than
    the log it sees.  The log is read three times, for [LastLogIndex] once and
    for [LastLogTerm] twice; these reads are one here, so runs in which another
    goroutine changes the log between them, a data race, are not modelled. *)
Definition startElection_args (term : Z) rf : option RequestVoteArgs :=
  last ← zget (Log rf) (zlen (Log rf) - 1);
  Some (mkRVArgs term (Z.of_nat (me rf)) (zlen (Log rf) - 1) (Log_Term last)).

(** [startElection], what its goroutine for one peer does with the reply.
    [count] is the variable the goroutines of one election share. *)
Definition startElection_reply (arg : RequestVoteArgs)
    (reply : RequestVoteReply) (count : Z) rf : option (Raft Cmd * Z) :=
  if (CurrentTerm rf <? RVR_Term reply)%Z
  then Some (BeFollower (RVR_Term reply) rf, count)
  else if negb (bool_decide (State rf = Candidate))
          || negb (CurrentTerm rf =? RV_Term arg)%Z
  then Some (rf, count)
  else
    let count := if RVR_VoteGranted reply then (count + 1)%Z else count in
    if (Z.of_nat (peers rf) / 2 <? count)%Z then
      let rf := BeLeader rf in
      ch ← send (voteCh rf);
      Some (set_voteCh ch rf, count)
    else Some (rf, count).

(** [StartAppendLog], the first critical section of its goroutine for peer
    [id]: no argument when the peer is no longer leader. *)
Definition StartAppendLog_args (id : nat) rf
    : option (option (AppendEntriesArgs Cmd)) :=
  if negb (bool_decide (State rf = Leader)) then Some None
  else
    next ← zget (NextIndex rf) (Z.of_nat id);
    prev ← zget (Log rf) (next - 1);
    entries ← (if (next <=? zlen (Log rf) - 1)%Z
               then slice_from (Log rf) next else Some []);
    Some (Some (mkAEArgs (CurrentTerm rf) (Z.of_nat (me rf)) (next - 1)
                  (Log_Term prev) entries (CommitIndex rf))).

(** The commit rule at the end of a successful reply. *)
Definition advanceCommit rf : option (Raft Cmd) :=
  let copyMatchIndex := sort_desc (MatchIndex rf) in
  N ← zget copyMatchIndex (zlen copyMatchIndex / 2);
  if (CommitIndex rf <? N)%Z then
    entry ← zget (Log rf) N;
    if (Log_Term entry =? CurrentTerm rf)%Z
    then updateLastApplied (set_CommitIndex N rf)
    else Some rf
  else Some rf.

(** [StartAppendLog], the second critical section, on a reply of peer [id];
    the boolean says whether the goroutine goes round its loop again. *)
Definition StartAppendLog_reply (id : nat) (reply : AppendEntriesReply) rf
    : option (Raft Cmd * bool) :=
  if (CurrentTerm rf <? AER_Term reply)%Z
  then Some (BeFollower (AER_Term reply) rf, false)
  else if AER_Success reply then
    match1 ← zset (MatchIndex rf) (Z.of_nat id) (zlen (Log rf) - 1)%Z;
    let rf := set_MatchIndex match1 rf in
    matched ← zget (MatchIndex rf) (Z.of_nat id);
    next1 ← zset (NextIndex rf) (Z.of_nat id) (matched + 1)%Z;
    let rf := set_NextIndex next1 rf in
    match2 ← zset (MatchIndex rf) (Z.of_nat (me rf)) (zlen (Log rf) - 1)%Z;
    let rf := set_MatchIndex match2 rf in
    rf ← advanceCommit rf;
    Some (rf, false)
  else
    next ← zget (NextIndex rf) (Z.of_nat id);
    next1 ← zset (NextIndex rf) (Z.of_nat id) (next - 1)%Z;
    Some (set_NextIndex next1 rf, true).

(** [Make], up to the start of the main goroutine: a zeroed struct, the
    persisted state read once before and once after the initialisation. *)
Definition Make (npeers : nat) (i : nat) (ps : Persister) : Raft Cmd :=
  let rf := mkRaft i npeers ps Follower 0 0 [] 0 0 [] [] false false [] in
  let rf := readPersist (ReadRaftState ps) rf in
  let rf := set_VoteFor (-1)%Z (set_CurrentTerm 1%Z (set_State Follower rf)) in
  let rf := set_appendLogCh false (set_voteCh false rf) in
  let rf := set_applyCh [] rf in
  let rf := set_LastApplied 0%Z (set_CommitIndex 0%Z rf) in
  let rf := set_Log [mkLog (-1)%Z None] rf in
  readPersist (ReadRaftState ps) rf.
End operations.
