(* ===== verification/RaftSystem.v ===== *)
(** * A cluster of Raft peers: raft.go's goroutines and their RPCs

    The peers of raft.go run four kinds of goroutines: the loop that [Make]
    starts, one [startElection] per election with one goroutine per peer
    under it, and one goroutine per peer and heartbeat of [StartAppendLog].
    A [world] holds the peers, the program counter of each main loop, the
    pool of the other goroutines and the shared vote counters.  [act] runs
    one atomic piece: a critical section, an RPC handler, an unlocked read.
    Which piece comes next is the [action]: every interleaving and every
    delay or loss of a message is a sequence of actions.  [Panicked] is a Go
    panic (or a goroutine stuck on a channel with the mutex held). *)

From S2P Require Import Prelude GoBase Persister Raft.

(** An RPC that has been issued, or whose handler has run. *)
Inductive rpc (R : Type) :=
| Sent
| Replied (r : R).
Arguments Sent {R}.
Arguments Replied {R} _.

Inductive goroutine (Cmd : Type) :=
| GElect (i : nat)
| GElectTerm (i : nat) (term : Z)
| GVote (i eid id : nat) (arg : RequestVoteArgs) (st : rpc RequestVoteReply)
| GAppend (i id : nat)
| GAppendRPC (i id : nat) (arg : AppendEntriesArgs Cmd)
    (st : rpc AppendEntriesReply).
Arguments GElect {Cmd} _.
Arguments GElectTerm {Cmd} _ _.
Arguments GVote {Cmd} _ _ _ _ _.
Arguments GAppend {Cmd} _ _.
Arguments GAppendRPC {Cmd} _ _ _ _.

(** Where a peer's main loop stands: about to read the state, in the
    [select], after [time.After] fired, in the leader branch. *)
Inductive loop_pc := AtTop | AtSelect | AtTimeout | AtLeader.

Record world (Cmd : Type) := mkWorld {
  nodes : list (Raft Cmd);
  pcs : list loop_pc;
  pool : list (goroutine Cmd);
  counts : list Z;
}.
Arguments mkWorld {Cmd} _ _ _ _.
Arguments nodes {Cmd} _.
Arguments pcs {Cmd} _.
Arguments pool {Cmd} _.
Arguments counts {Cmd} _.

Inductive outcome (Cmd : Type) :=
| Next (w : world Cmd)
| Disabled
| Panicked.
Arguments Next {Cmd} _.
Arguments Disabled {Cmd}.
Arguments Panicked {Cmd}.

Inductive action (Cmd : Type) :=
| ATop (i : nat)
| AVoteCh (i : nat)
| AAppendCh (i : nat)
| ATimeout (i : nat)
| AElection (i : nat)
| AHeartbeat (i : nat)
| AStart (i : nat) (command : option Cmd)
| ARun (k : nat)
| ADrop (k : nat).
Arguments ATop {Cmd} _.
Arguments AVoteCh {Cmd} _.
Arguments AAppendCh {Cmd} _.
Arguments ATimeout {Cmd} _.
Arguments AElection {Cmd} _.
Arguments AHeartbeat {Cmd} _.
Arguments AStart {Cmd} _ _.
Arguments ARun {Cmd} _.
Arguments ADrop {Cmd} _.

Section system.
Context {Cmd : Type} `{!Gob (gval Cmd)}.
Implicit Types w : world Cmd.

(** Needed for the action to be possible at all. *)
Definition need {A} (o : option A) (k : A → outcome Cmd) : outcome Cmd :=
  match o with Some a => k a | None => Disabled end.

(** The result of a handler. *)
Definition ret {A} (o : option A) (k : A → outcome Cmd) : outcome Cmd :=
  match o with Some a => k a | None => Panicked end.

Definition upd_node (i : nat) (rf : Raft Cmd) w : world Cmd :=
  mkWorld (<[i := rf]> (nodes w)) (pcs w) (pool w) (counts w).

Definition upd_pc (i : nat) (pc : loop_pc) w : world Cmd :=
  mkWorld (nodes w) (<[i := pc]> (pcs w)) (pool w) (counts w).

Definition upd_pool (p : list (goroutine Cmd)) w : world Cmd :=
  mkWorld (nodes w) (pcs w) p (counts w).

Definition upd_counts (c : list Z) w : world Cmd :=
  mkWorld (nodes w) (pcs w) (pool w) c.

(** One turn of goroutine [k] of the pool. *)
Definition run_goroutine w (k : nat) (g : goroutine Cmd) : outcome Cmd :=
  match g with
  | GElect i =>
      need (nodes w !! i) (λ rf,
      Next (upd_pool (<[k := GElectTerm i (CurrentTerm rf)]> (pool w)) w))
  | GElectTerm i term =>
      need (nodes w !! i) (λ rf,
      ret (startElection_args term rf) (λ arg,
      let eid := length (counts w) in
      Next (upd_counts (counts w ++ [1%Z])
              (upd_pool (delete k (pool w)
                           ++ ((λ id, GVote i eid id arg Sent) <$> others rf))
                 w))))
  | GVote i eid id arg Sent =>
      need (nodes w !! id) (λ rf,
      ret (RequestVote arg rf) (λ '(rf', reply),
      Next (upd_node id rf'
              (upd_pool (<[k := GVote i eid id arg (Replied reply)]> (pool w))
                 w))))
  | GVote i eid id arg (Replied reply) =>
      need (nodes w !! i) (λ rf,
      need (counts w !! eid) (λ count,
      ret (startElection_reply arg reply count rf) (λ '(rf', count'),
      Next (upd_counts (<[eid := count']> (counts w))
              (upd_node i rf' (upd_pool (delete k (pool w)) w))))))
  | GAppend i id =>
      need (nodes w !! i) (λ rf,
      ret (StartAppendLog_args id rf) (λ oarg,
      match oarg with
      | None => Next (upd_pool (delete k (pool w)) w)
      | Some arg =>
          Next (upd_pool (<[k := GAppendRPC i id arg Sent]> (pool w)) w)
      end))
  | GAppendRPC i id arg Sent =>
      need (nodes w !! id) (λ rf,
      ret (AppendEntries arg rf) (λ '(rf', reply),
      Next (upd_node id rf'
              (upd_pool (<[k := GAppendRPC i id arg (Replied reply)]> (pool w))
                 w))))
  | GAppendRPC i id arg (Replied reply) =>
      need (nodes w !! i) (λ rf,
      ret (StartAppendLog_reply id reply rf) (λ '(rf', again),
      Next (upd_node i rf'
              (upd_pool (if (again : bool)
                         then <[k := GAppend i id]> (pool w)
                         else delete k (pool w)) w))))
  end.

(** [raft.peers[server].Call] returned false: both kinds of goroutine end. *)
Definition rpc_failed w (k : nat) (g : goroutine Cmd) : outcome Cmd :=
  match g with
  | GVote _ _ _ _ _ | GAppendRPC _ _ _ _ => Next (upd_pool (delete k (pool w)) w)
  | _ => Disabled
  end.

(** The main goroutine of [Make], one turn at each program counter. *)
Definition main_loop w (a : action Cmd) (i : nat) : outcome Cmd :=
  need (nodes w !! i) (λ rf,
  need (pcs w !! i) (λ pc,
  match pc, a with
  | AtTop, ATop _ =>
      match State rf with
      | Leader => Next (upd_pc i AtLeader w)
      | _ => Next (upd_pc i AtSelect w)
      end
  | AtSelect, AVoteCh _ =>
      if voteCh rf
      then Next (upd_pc i AtTop (upd_node i (set_voteCh false rf) w))
      else Disabled
  | AtSelect, AAppendCh _ =>
      if appendLogCh rf
      then Next (upd_pc i AtTop (upd_node i (set_appendLogCh false rf) w))
      else Disabled
  | AtSelect, ATimeout _ => Next (upd_pc i AtTimeout w)
  | AtTimeout, AElection _ =>
      Next (upd_pc i AtTop (upd_pool (pool w ++ [GElect i])
              (upd_node i (BeCandidate rf) w)))
  | AtLeader, AHeartbeat _ =>
      Next (upd_pc i AtTop (upd_pool (pool w ++ (GAppend i <$> others rf)) w))
  | _, _ => Disabled
  end)).

(** One action of the cluster. *)
Definition act w (a : action Cmd) : outcome Cmd :=
  match a with
  | ATop i | AVoteCh i | AAppendCh i | ATimeout i | AElection i
  | AHeartbeat i => main_loop w a i
  | AStart i command =>
      need (nodes w !! i) (λ rf, Next (upd_node i (Start command rf).1 w))
  | ARun k => need (pool w !! k) (run_goroutine w k)
  | ADrop k => need (pool w !! k) (rpc_failed w k)
  end.

(** A cluster of [n] fresh peers. *)
Definition init (n : nat) : world Cmd :=
  mkWorld ((λ i, Make n i MakePersister) <$> seq 0 n) (replicate n AtTop) [] [].

Inductive reachable (n : nat) : world Cmd → Prop :=
| reach_init : reachable n (init n)
| reach_act w a w' : reachable n w → act w a = Next w' → reachable n w'.

(** A schedule: a sequence of actions. *)
Fixpoint exec w (acts : list (action Cmd)) : outcome Cmd :=
  match acts with
  | [] => Next w
  | a :: acts =>
      match act w a with Next w' => exec w' acts | o => o end
  end.

Lemma exec_reachable n w acts w' :
  reachable n w → exec w acts = Next w' → reachable n w'.
Proof.
  revert w. induction acts as [|a acts IH]; intros w Hr; simpl.
  - by intros [= <-].
  - destruct (act w a) eqn:Ha; [|done..]. eauto using reach_act.
Qed.

(** ** The same transitions as a relation, for case analysis *)

Inductive step w : world Cmd → Prop :=
| step_quiet pcs' : step w (mkWorld (nodes w) pcs' (pool w) (counts w))
| step_chan i rf rf' pcs' :
    nodes w !! i = Some rf →
    rf' = set_voteCh false rf ∨ rf' = set_appendLogCh false rf →
    step w (mkWorld (<[i := rf']> (nodes w)) pcs' (pool w) (counts w))
| step_candidate i rf pcs' :
    nodes w !! i = Some rf →
    step w (mkWorld (<[i := BeCandidate rf]> (nodes w)) pcs'
              (pool w ++ [GElect i]) (counts w))
| step_heartbeat i rf pcs' :
    nodes w !! i = Some rf →
    step w (mkWorld (nodes w) pcs' (pool w ++ (GAppend i <$> others rf))
              (counts w))
| step_start i rf command :
    nodes w !! i = Some rf →
    step w (upd_node i (Start command rf).1 w)
| step_elect_term k i rf :
    pool w !! k = Some (GElect i) → nodes w !! i = Some rf →
    step w (upd_pool (<[k := GElectTerm i (CurrentTerm rf)]> (pool w)) w)
| step_elect_send k i term rf arg :
    pool w !! k = Some (GElectTerm i term) → nodes w !! i = Some rf →
    startElection_args term rf = Some arg →
    step w (mkWorld (nodes w) (pcs w)
              (delete k (pool w)
                 ++ ((λ id, GVote i (length (counts w)) id arg Sent)
                       <$> others rf))
              (counts w ++ [1%Z]))
| step_vote_request k i eid id arg rf rf' reply :
    pool w !! k = Some (GVote i eid id arg Sent) → nodes w !! id = Some rf →
    RequestVote arg rf = Some (rf', reply) →
    step w (mkWorld (<[id := rf']> (nodes w)) (pcs w)
              (<[k := GVote i eid id arg (Replied reply)]> (pool w))
              (counts w))
| step_vote_reply k i eid id arg reply rf rf' count count' :
    pool w !! k = Some (GVote i eid id arg (Replied reply)) →
    nodes w !! i = Some rf → counts w !! eid = Some count →
    startElection_reply arg reply count rf = Some (rf', count') →
    step w (mkWorld (<[i := rf']> (nodes w)) (pcs w) (delete k (pool w))
              (<[eid := count']> (counts w)))
| step_append_stop k i id rf :
    pool w !! k = Some (GAppend i id) → nodes w !! i = Some rf →
    step w (upd_pool (delete k (pool w)) w)
| step_append_send k i id rf arg :
    pool w !! k = Some (GAppend i id) → nodes w !! i = Some rf →
    StartAppendLog_args id rf = Some (Some arg) →
    step w (upd_pool (<[k := GAppendRPC i id arg Sent]> (pool w)) w)
| step_append_request k i id arg rf rf' reply :
    pool w !! k = Some (GAppendRPC i id arg Sent) → nodes w !! id = Some rf →
    AppendEntries arg rf = Some (rf', reply) →
    step w (mkWorld (<[id := rf']> (nodes w)) (pcs w)
              (<[k := GAppendRPC i id arg (Replied reply)]> (pool w))
              (counts w))
| step_append_reply k i id arg reply rf rf' again :
    pool w !! k = Some (GAppendRPC i id arg (Replied reply)) →
    nodes w !! i = Some rf →
    StartAppendLog_reply id reply rf = Some (rf', again) →
    step w (mkWorld (<[i := rf']> (nodes w)) (pcs w)
              (if again : bool then <[k := GAppend i id]> (pool w)
               else delete k (pool w)) (counts w))
| step_drop k g :
    pool w !! k = Some g → step w (upd_pool (delete k (pool w)) w).

Lemma need_Next {A} (o : option A) k w :
  need o k = Next w ↔ ∃ a, o = Some a ∧ k a = Next w.
Proof. destruct o; simpl; naive_solver. Qed.

Lemma ret_Next {A} (o : option A) k w :
  ret o k = Next w ↔ ∃ a, o = Some a ∧ k a = Next w.
Proof. destruct o; simpl; naive_solver. Qed.
End system.

(** Split an action that succeeded into its guards. *)
Ltac split_act :=
  repeat match goal with
  | H : need _ _ = Next _ |- _ => apply need_Next in H as (? & ? & H)
  | H : ret _ _ = Next _ |- _ => apply ret_Next in H as (? & ? & H)
  | p : _ * _ |- _ => destruct p
  | H : Next _ = Next _ |- _ => injection H as <-
  | H : Disabled = Next _ |- _ => discriminate H
  | H : Panicked = Next _ |- _ => discriminate H
  end.

Section transitions.
Context {Cmd : Type} `{!Gob (gval Cmd)}.
Implicit Types w : world Cmd.

Lemma run_goroutine_step w k g w' :
  pool w !! k = Some g → run_goroutine w k g = Next w' → step w w'.
Proof.
  intros Hk Hrun. destruct g as [i|i term|i eid id arg []|i id|i id arg []];
    simpl in Hrun; split_act.
  - by eapply (step_elect_term w).
  - by eapply (step_elect_send w).
  - by eapply (step_vote_request w).
  - by eapply (step_vote_reply w).
  - case_match; split_act;
      [by eapply (step_append_send w) | by eapply (step_append_stop w)].
  - by eapply (step_append_request w).
  - by eapply (step_append_reply w).
Qed.

Lemma main_loop_step w a i w' : main_loop w a i = Next w' → step w w'.
Proof.
  unfold main_loop. intros Hm. split_act.
  destruct x0, a; try discriminate.
  - destruct (State x); split_act; apply (step_quiet w).
  - destruct (voteCh x); split_act. eapply (step_chan w); eauto.
  - destruct (appendLogCh x); split_act. eapply (step_chan w); eauto.
  - split_act. apply (step_quiet w).
  - split_act. eapply (step_candidate w); eauto.
  - split_act. eapply (step_heartbeat w); eauto.
Qed.

Lemma act_step w a w' : act w a = Next w' → step w w'.
Proof.
  destruct a; simpl; try apply main_loop_step; intros Ha; split_act.
  - eapply (step_start w); eauto.
  - eapply run_goroutine_step; eauto.
  - destruct x; simpl in Ha; split_act; eauto using step_drop.
Qed.

(** Rule induction: a property of the initial world that every transition
    preserves holds of every reachable world. *)
Lemma reachable_inv n (P : world Cmd → Prop) :
  P (init n) → (∀ w w', reachable n w → P w → step w w' → P w') →
  ∀ w, reachable n w → P w.
Proof.
  intros H0 HS w Hr. induction Hr; eauto using act_step.
Qed.
End transitions.

#[export] Hint Constructors reachable : raft.
