(* ===== verification/RaftNode.v ===== *)
(** * Facts on one Raft peer

    Frame lemmas (which fields each handler of Raft.v leaves alone), the
    behaviour of each handler on its branches, and the peer's own invariant.
    The cluster proofs of RaftElection.v and RaftLogs.v use them. *)

From S2P Require Import Prelude GoBase Persister Raft.

Section node.
Context {Cmd : Type} `{!Gob (gval Cmd)}.
Implicit Types rf : Raft Cmd.

(** The fields that decide elections. *)
Definition core rf : nat * nat * RState * Z * Z :=
  (me rf, peers rf, State rf, CurrentTerm rf, VoteFor rf).

(** The step down that opens [RequestVote], [AppendEntries] and both reply
    handlers: a larger term makes the peer a follower of that term. *)
Definition seen_term (term : Z) rf : Raft Cmd :=
  if (CurrentTerm rf <? term)%Z then BeFollower term rf else rf.

Lemma send_ok ch : send ch = Some true.
Proof. done. Qed.

Lemma seen_term_Log term rf : Log (seen_term term rf) = Log rf.
Proof. unfold seen_term. by destruct (_ <? _)%Z. Qed.

Lemma seen_term_CommitIndex term rf :
  CommitIndex (seen_term term rf) = CommitIndex rf.
Proof. unfold seen_term. by destruct (_ <? _)%Z. Qed.

Lemma seen_term_LastApplied term rf :
  LastApplied (seen_term term rf) = LastApplied rf.
Proof. unfold seen_term. by destruct (_ <? _)%Z. Qed.

Lemma seen_term_me term rf : me (seen_term term rf) = me rf.
Proof. unfold seen_term. by destruct (_ <? _)%Z. Qed.

Lemma seen_term_CurrentTerm term rf :
  CurrentTerm (seen_term term rf) = Z.max (CurrentTerm rf) term.
Proof.
  unfold seen_term. destruct (Z.ltb_spec (CurrentTerm rf) term); simpl; lia.
Qed.

(** ** [updateLastApplied] *)

(** The messages for the log positions [from+1 .. from+n]. *)
Fixpoint apply_msgs (log : list (LogEntry Cmd)) (from : Z) (n : nat)
    : list (ApplyMsg Cmd) :=
  match n with
  | O => []
  | S n =>
      match zget log (from + 1) with
      | Some e => mkApplyMsg (from + 1) (Log_Command e) false []
                    :: apply_msgs log (from + 1) n
      | None => []
      end
  end.

Lemma updateLastApplied_loop_spec fuel rf :
  (0 ≤ LastApplied rf)%Z → (CommitIndex rf < zlen (Log rf))%Z →
  fuel = Z.to_nat (CommitIndex rf - LastApplied rf) →
  updateLastApplied_loop fuel rf =
    Some (set_applyCh (applyCh rf ++ apply_msgs (Log rf) (LastApplied rf) fuel)
            (set_LastApplied (LastApplied rf + Z.of_nat fuel) rf)).
Proof.
  revert rf. induction fuel as [|fuel IH]; intros rf Hla Hci Hf.
  - simpl. destruct (Z.ltb_spec (LastApplied rf) (CommitIndex rf)); [lia|].
    destruct rf; unfold set_applyCh, set_LastApplied; simpl.
    rewrite app_nil_r, Z.add_0_r. done.
  - destruct (zget_is_Some (Log rf) (LastApplied rf + 1)) as [e He]; [lia|].
    simpl. destruct (Z.ltb_spec (LastApplied rf) (CommitIndex rf)); [|lia].
    rewrite He; simpl. rewrite IH; simpl; [|lia..].
    unfold set_applyCh, set_LastApplied; simpl.
    rewrite <-app_assoc. simpl. f_equal. f_equal. lia.
Qed.

Lemma updateLastApplied_spec rf :
  (0 ≤ LastApplied rf)%Z → (CommitIndex rf < zlen (Log rf))%Z →
  updateLastApplied rf =
    Some (set_applyCh
            (applyCh rf ++ apply_msgs (Log rf) (LastApplied rf)
               (Z.to_nat (CommitIndex rf - LastApplied rf)))
            (set_LastApplied (Z.max (LastApplied rf) (CommitIndex rf)) rf)).
Proof.
  intros Hla Hci. unfold updateLastApplied.
  rewrite updateLastApplied_loop_spec by (done || lia).
  do 4 f_equal. lia.
Qed.

(** Whatever it does, the loop changes [LastApplied] and [applyCh] only. *)
Lemma updateLastApplied_frame rf rf' :
  updateLastApplied rf = Some rf' →
  ∃ a l, rf' = set_applyCh a (set_LastApplied l rf).
Proof.
  unfold updateLastApplied. generalize (Z.to_nat (CommitIndex rf - LastApplied rf)).
  intros fuel. revert rf rf'.
  induction fuel as [|fuel IH]; intros rf rf'; cbn [updateLastApplied_loop];
    case_match; intros Hl; run_opt; subst;
    try (exists (applyCh rf'), (LastApplied rf'); by destruct rf').
  apply IH in Hl as (a & l & ->). exists a, l. done.
Qed.

(** ** Which fields each handler changes *)

Lemma core_persist rf : core (persist rf) = core rf.
Proof. done. Qed.

Lemma updateLastApplied_core rf rf' :
  updateLastApplied rf = Some rf' → core rf' = core rf.
Proof. by intros (a & l & ->)%updateLastApplied_frame. Qed.

Lemma updateLastApplied_Log rf rf' :
  updateLastApplied rf = Some rf' → Log rf' = Log rf.
Proof. by intros (a & l & ->)%updateLastApplied_frame. Qed.

(** [AppendEntries], rewritten over [seen_term]. *)
Lemma AppendEntries_inv args rf rf' reply :
  AppendEntries args rf = Some (rf', reply) →
  let rf1 := set_appendLogCh true (seen_term (AE_Term args) rf) in
  AER_Term reply = CurrentTerm rf1 ∧
  ((AER_Success reply = false ∧ rf' = rf1) ∨
   (AER_Success reply = true ∧
    CurrentTerm rf1 = AE_Term args ∧
    ∃ pre rf2,
      zget (Log rf) (AE_PrevLogIndex args) = Some pre ∧
      Log_Term pre = AE_PrevLogTerm args ∧
      rf2 = set_Log (take (Z.to_nat (AE_PrevLogIndex args + 1)) (Log rf)
                       ++ AE_Entries args) rf1 ∧
      ((CommitIndex rf < AE_LeaderCommit args)%Z ∧
       (∃ rf3, updateLastApplied
                 (set_CommitIndex
                    (min (AE_LeaderCommit args) (zlen (Log rf2) - 1)) rf2)
               = Some rf3 ∧ rf' = persist rf3)
       ∨ (AE_LeaderCommit args ≤ CommitIndex rf)%Z ∧ rf' = persist rf2))).
Proof.
  intros Ha rf1. unfold AppendEntries in Ha.
  fold (seen_term (AE_Term args) rf) in Ha.
  rewrite send_ok in Ha. simpl in Ha. fold rf1 in Ha.
  pose proof (seen_term_CurrentTerm (AE_Term args) rf) as Hct.
  rewrite seen_term_Log, seen_term_CommitIndex in Ha.
  case_match eqn:E1; [run_opt; subst; naive_solver|].
  case_match eqn:E2; [run_opt; subst; naive_solver|].
  apply bind_Some in Ha as (pre & Hpre & Ha).
  case_match eqn:E3; [run_opt; subst; naive_solver|].
  apply bind_Some in Ha as (kept & Hkept & Ha).
  apply slice_to_Some in Hkept as [_ ->].
  apply bind_Some in Ha as (rf3 & Hrf3 & Ha). run_opt; subst.
  norm_hyps; zbool. split; [done|]. right. split; [done|].
  split; [simpl; lia|].
  exists pre. eexists. split; [done|]. split; [done|]. split; [done|].
  simpl in Hrf3 |- *. case_match eqn:E4; zbool.
  - left. split; [done|]. eauto.
  - right. run_opt; subst. done.
Qed.

(** When the consistency check passes. *)
Lemma AppendEntries_success_iff args rf rf' reply :
  AppendEntries args rf = Some (rf', reply) →
  AER_Success reply = true ↔
    (CurrentTerm rf ≤ AE_Term args)%Z ∧
    ∃ pre, zget (Log rf) (AE_PrevLogIndex args) = Some pre ∧
           Log_Term pre = AE_PrevLogTerm args.
Proof.
  intros Ha. unfold AppendEntries in Ha.
  fold (seen_term (AE_Term args) rf) in Ha.
  rewrite send_ok in Ha. simpl in Ha.
  pose proof (seen_term_CurrentTerm (AE_Term args) rf) as Hct.
  rewrite seen_term_Log, seen_term_CommitIndex, Hct in Ha.
  destruct (Z.ltb_spec (AE_Term args) (Z.max (CurrentTerm rf) (AE_Term args))).
  { run_opt; subst. simpl. split; [done|]. intros [? _]. lia. }
  destruct (Z.leb_spec (zlen (Log rf)) (AE_PrevLogIndex args)).
  { run_opt; subst. simpl. split; [done|].
    intros (_ & pre & Hpre%zget_lt & _). lia. }
  apply bind_Some in Ha as (pre & Hpre & Ha).
  destruct (Z.eqb_spec (Log_Term pre) (AE_PrevLogTerm args)) as [Ht|Ht];
    simpl in Ha; run_opt; subst; simpl; rewrite ?Hpre.
  - split; [|done]. intros _. split; [lia|]. eauto.
  - split; [done|]. naive_solver.
Qed.

Lemma AppendEntries_core args rf rf' reply :
  AppendEntries args rf = Some (rf', reply) →
  core rf' = core (seen_term (AE_Term args) rf).
Proof.
  intros [_ [[_ ->]|(_ & _ & pre & rf2 & _ & _ & -> & Hc)]]%AppendEntries_inv;
    [done|].
  destruct Hc as [(_ & rf3 & Hu & ->)|[_ ->]]; [|done].
  by apply updateLastApplied_core in Hu.
Qed.

(** Success or not, the log after [AppendEntries]. *)
Lemma AppendEntries_Log args rf rf' reply :
  AppendEntries args rf = Some (rf', reply) →
  Log rf' = (if AER_Success reply
             then take (Z.to_nat (AE_PrevLogIndex args + 1)) (Log rf)
                    ++ AE_Entries args
             else Log rf).
Proof.
  intros [_ [[-> ->]|(-> & _ & pre & rf2 & _ & _ & -> & Hc)]]%AppendEntries_inv.
  - apply seen_term_Log.
  - destruct Hc as [(_ & rf3 & Hu & ->)|[_ ->]]; [|done].
    by apply updateLastApplied_Log in Hu.
Qed.

Lemma advanceCommit_inv rf rf' :
  advanceCommit rf = Some rf' →
  ∃ c a l, rf' = set_CommitIndex c (set_applyCh a (set_LastApplied l rf)).
Proof.
  unfold advanceCommit. intros H. apply bind_Some in H as (N & HN & H).
  case_match; [apply bind_Some in H as (e & He & H); case_match|]; run_opt;
    subst; try (exists (CommitIndex rf'), (applyCh rf'), (LastApplied rf');
                by destruct rf').
  apply updateLastApplied_frame in H as (a & l & ->). eexists _, _, _. done.
Qed.

Lemma StartAppendLog_reply_inv id reply rf rf' again :
  StartAppendLog_reply id reply rf = Some (rf', again) →
  core rf' = core (seen_term (AER_Term reply) rf) ∧ Log rf' = Log rf.
Proof.
  unfold StartAppendLog_reply, seen_term.
  case_match eqn:E1; [intros; run_opt; by subst|].
  case_match eqn:E2; intros H; run_opt; subst; [|done].
  match goal with
  | Ha : advanceCommit _ = Some _ |- _ =>
      apply advanceCommit_inv in Ha as (c & a & l & ->); done
  end.
Qed.

(** [RequestVote], rewritten over [seen_term]. *)
Lemma RequestVote_inv args rf rf' reply :
  RequestVote args rf = Some (rf', reply) →
  let rf1 := seen_term (RV_Term args) rf in
  RVR_Term reply = CurrentTerm rf1 ∧
  ((RVR_VoteGranted reply = false ∧ rf' = rf1) ∨
   (RVR_VoteGranted reply = true ∧
    CurrentTerm rf1 = RV_Term args ∧
    (VoteFor rf1 = (-1)%Z ∨ VoteFor rf1 = RV_CandidateId args) ∧
    rf' = persist (set_voteCh true (set_VoteFor (RV_CandidateId args) rf1)))).
Proof.
  intros Ha rf1. unfold RequestVote in Ha.
  fold (seen_term (RV_Term args) rf) in Ha. fold rf1 in Ha.
  assert (CurrentTerm rf1 = Z.max (CurrentTerm rf) (RV_Term args)) as Hct
    by apply seen_term_CurrentTerm.
  case_match eqn:E1; [run_opt; subst; naive_solver|].
  case_match eqn:E2; [run_opt; subst; naive_solver|].
  apply bind_Some in Ha as (last & Hlast & Ha).
  case_match eqn:E3; [run_opt; subst; naive_solver|].
  rewrite send_ok in Ha. simpl in Ha. run_opt; subst. zbool.
  split; [done|]. right. split; [done|]. split; [lia|].
  split; [|done].
  apply andb_false_iff in E2 as [E2|E2]; apply negb_false_iff in E2; zbool; auto.
Qed.

Lemma RequestVote_Log args rf rf' reply :
  RequestVote args rf = Some (rf', reply) → Log rf' = Log rf.
Proof.
  intros [_ [[_ ->]|(_ & _ & _ & ->)]]%RequestVote_inv; apply seen_term_Log.
Qed.

(** [startElection_reply]: step down, ignore, count, or become leader. *)
Lemma startElection_reply_inv arg reply count rf rf' count' :
  startElection_reply arg reply count rf = Some (rf', count') →
  (CurrentTerm rf < RVR_Term reply ∧ rf' = BeFollower (RVR_Term reply) rf ∧
     count' = count)%Z ∨
  (rf' = rf ∧ count' = count) ∨
  (State rf = Candidate ∧ CurrentTerm rf = RV_Term arg ∧
   count' = (if RVR_VoteGranted reply then (count + 1)%Z else count) ∧
   ((rf' = rf) ∨
    (Z.of_nat (peers rf) / 2 < count')%Z ∧
    rf' = set_voteCh true (BeLeader rf))).
Proof.
  unfold startElection_reply.
  case_match eqn:E1; [intros; run_opt; subst; zbool; auto|].
  case_match eqn:E2; [intros; run_opt; subst; auto|].
  apply orb_false_iff in E2 as [E2 E3]. norm_hyps. zbool.
  generalize (if RVR_VoteGranted reply then (count + 1)%Z else count).
  intros c'. case_match eqn:E4; intros; run_opt; subst; zbool.
  - right. right. repeat split; auto. right. split; [done|].
    by rewrite send_ok in *; simplify_eq.
  - right. right. auto.
Qed.

Lemma Start_core command rf : core (Start command rf).1 = core rf.
Proof. unfold Start. by case_match. Qed.

Lemma Start_Log command rf :
  Log (Start command rf).1 =
    if bool_decide (State rf = Leader)
    then Log rf ++ [mkLog (CurrentTerm rf) command] else Log rf.
Proof. unfold Start. by case_match. Qed.

Lemma elem_of_others rf i : i ∈ others rf ↔ i < peers rf ∧ i ≠ me rf.
Proof.
  unfold others. rewrite list_elem_of_filter, elem_of_seq. lia.
Qed.

Lemma NoDup_others rf : NoDup (others rf).
Proof. apply NoDup_filter, NoDup_seq. Qed.
(** ** Terms and votes move forward

    A peer's term never decreases; within a term a vote once given stays, and
    a peer that is no candidate does not become one. *)

Definition later rf rf' : Prop :=
  (CurrentTerm rf < CurrentTerm rf')%Z ∨
  (CurrentTerm rf' = CurrentTerm rf ∧
   (VoteFor rf ≠ (-1)%Z → VoteFor rf' = VoteFor rf) ∧
   (State rf' = Candidate → State rf = Candidate)).

Lemma later_refl rf : later rf rf.
Proof. right. naive_solver. Qed.

Lemma later_core rf rf' rf'' :
  core rf'' = core rf' → later rf rf' → later rf rf''.
Proof.
  unfold core, later. intros [= _ _ Hs Hc Hv]. by rewrite Hs, Hc, Hv.
Qed.

Lemma later_seen t rf : later rf (seen_term t rf).
Proof.
  unfold seen_term. destruct (Z.ltb_spec (CurrentTerm rf) t);
    [by left|apply later_refl].
Qed.

Lemma BeCandidate_later rf : later rf (BeCandidate rf).
Proof. left. simpl. lia. Qed.

Lemma RequestVote_later args rf rf' reply :
  RequestVote args rf = Some (rf', reply) → later rf rf'.
Proof.
  intros [_ [[_ ->]|(_ & Ht & Hv & ->)]]%RequestVote_inv; [apply later_seen|].
  unfold later; simpl.
  destruct (later_seen (RV_Term args) rf) as [?|(Hc & Hsame & Hst)]; [by left|].
  right. split; [done|]. split; [|done]. intros Hne.
  specialize (Hsame Hne). destruct Hv; congruence.
Qed.

Lemma startElection_reply_later arg reply count rf rf' count' :
  startElection_reply arg reply count rf = Some (rf', count') → later rf rf'.
Proof.
  intros [(? & -> & _)|[[-> _]|(Hst & _ & _ & [->|[_ ->]])]]%startElection_reply_inv;
    try apply later_refl; [by left|right]. simpl. naive_solver.
Qed.
End node.

#[export] Hint Resolve later_refl later_seen BeCandidate_later
  RequestVote_later startElection_reply_later : raft.
#[export] Hint Rewrite @seen_term_Log @seen_term_me @Start_core
  @core_persist : raft.
