(* ===== verification/RaftDemo.v ===== *)
(** * Concrete runs of a three-peer cluster

    Schedules for the cluster of RaftSystem.v, with commands in [nat] and the
    bit codec of GoBase.v in place of gob.  The theorems on the cluster are
    applied to the worlds they reach. *)

From S2P Require Import Prelude GoBase Persister Raft RaftSystem.

#[export] Instance demo_gob : Gob (gval nat) := bits_gob (gval nat).

#[export] Instance demo_gob_laws : GobLaws (gval nat) := bits_gob_laws _.

(** The world a schedule reaches from a fresh cluster. *)
Definition run_from (w : world nat) (acts : list (action nat)) : world nat :=
  match exec w acts with Next w' => w' | _ => w end.

(** Did the schedule run to its end? *)
Definition runs_from (w : world nat) (acts : list (action nat)) : bool :=
  match exec w acts with Next _ => true | _ => false end.

Lemma run_from_reachable n w acts :
  reachable n w → reachable n (run_from w acts).
Proof.
  intros Hr. unfold run_from. destruct (exec w acts) eqn:He; try done.
  by eapply exec_reachable.
Qed.

(** Peer 0 times out and is elected with the vote of peer 1. *)
Definition elect_0 : list (action nat) :=
  [ATop 0; ATimeout 0; AElection 0; ARun 0; ARun 0; ARun 0; ARun 0; ADrop 0].

(** Peer 0, then leader, appends a command and replicates it to peer 1. *)
Definition replicate_0 : list (action nat) :=
  [ATop 0; AStart 0 (Some 7); AHeartbeat 0; ARun 0; ARun 0; ARun 0].

Definition world_leader : world nat := run_from (init 3) elect_0.

Definition world_replicated : world nat := run_from world_leader replicate_0.

Lemma world_leader_reachable : reachable 3 world_leader.
Proof. apply run_from_reachable, reach_init. Defined.

Lemma world_replicated_reachable : reachable 3 world_replicated.
Proof. apply run_from_reachable, world_leader_reachable. Defined.

Example elect_0_runs : runs_from (init 3) elect_0 = true.
Proof. by vm_compute. Qed.

Example replicate_0_runs : runs_from world_leader replicate_0 = true.
Proof. by vm_compute. Qed.
