(* ===== verification/RaftElection.v ===== *)
(** * Election safety

    At most one leader per term, in every interleaving of the cluster of
    RaftSystem.v: messages delayed, lost and reordered at will, elections
    overlapping, the unlocked reads of [startElection] as late as they like.
    Peers do not crash here; RaftFindings.v shows what a restart breaks.

    The proof keeps two ghost tables: [V] maps a voter and a term to the
    candidate that got the vote, and [E] gives every election its owner, its
    term and the set of peers whose grant has been counted. *)

From S2P Require Import Prelude.
From S2P Require Import GoBase.
From S2P Require Import Persister.
From S2P Require Import Raft.
From S2P Require Import RaftSystem.
From S2P Require Import RaftNode.
From S2P Require Import RaftDemo.

Record election := mkElection {
  el_owner : nat;
  el_term : Z;
  el_yes : gset nat;
}.

Section election.
Context {Cmd : Type} `{!Gob (gval Cmd)}.
Context (n : nat).
Implicit Types (w : world Cmd) (rf : Raft Cmd).
Implicit Types (V : gmap (nat * Z) nat) (E : list election).

(** A majority of the cluster voted for [i] in term [t]. *)
Definition elected V (i : nat) (t : Z) : Prop :=
  ∃ Q, majority n Q ∧ ∀ q, q ∈ Q → V !! (q, t) = Some i.

Record vote_node V (i : nat) rf : Prop := {
  vn_me : me rf = i;
  vn_peers : peers rf = n;
  vn_old t c : V !! (i, t) = Some c →
    (t ≤ CurrentTerm rf)%Z ∧ (t = CurrentTerm rf → VoteFor rf = Z.of_nat c);
  vn_cur : VoteFor rf ≠ (-1)%Z →
    ∃ c, VoteFor rf = Z.of_nat c ∧ V !! (i, CurrentTerm rf) = Some c;
  vn_self : State rf ≠ Follower → VoteFor rf = Z.of_nat i;
  vn_lead : State rf = Leader → elected V i (CurrentTerm rf);
}.

Definition vote_g V E (g : goroutine Cmd) : Prop :=
  match g with
  | GVote i eid id arg st =>
      RV_CandidateId arg = Z.of_nat i ∧ id < n ∧ id ≠ i ∧
      (∃ e, E !! eid = Some e ∧ el_owner e = i ∧ el_term e = RV_Term arg ∧
            id ∉ el_yes e) ∧
      (∀ r, st = Replied r → RVR_VoteGranted r = true →
            V !! (id, RV_Term arg) = Some i)
  | _ => True
  end.

Definition el_ok V (count : Z) (e : election) : Prop :=
  count = (1 + Z.of_nat (size (el_yes e)))%Z ∧
  el_yes e ⊆ set_seq 0 n ∧ el_owner e ∉ el_yes e ∧
  ∀ s, s ∈ el_yes e → V !! (s, el_term e) = Some (el_owner e).

Definition vote_key (g : goroutine Cmd) : option (nat * nat) :=
  match g with GVote _ eid id _ _ => Some (eid, id) | _ => None end.

Record einv V E w : Prop := {
  ei_len : length (nodes w) = n;
  ei_nodes i rf : nodes w !! i = Some rf → vote_node V i rf;
  ei_pool : Forall (vote_g V E) (pool w);
  ei_counts : Forall2 (el_ok V) (counts w) E;
  ei_nodup : NoDup (omap vote_key (pool w));
}.

(** ** The ghost tables only grow *)

Lemma elected_grow V V' i t : V ⊆ V' → elected V i t → elected V' i t.
Proof.
  intros Hsub (Q & HQ & Hq). exists Q. split; [done|].
  intros q Hin. eapply lookup_weaken; eauto.
Qed.

Lemma vote_node_grow V V' i rf :
  V ⊆ V' → (∀ t, V' !! (i, t) = V !! (i, t)) →
  vote_node V i rf → vote_node V' i rf.
Proof.
  intros Hsub Hi [??? Hcur ? Hl]. split; auto.
  - intros t c. rewrite Hi. auto.
  - intros Hv. destruct (Hcur Hv) as (c & ? & ?). exists c. by rewrite Hi.
  - intros. eapply elected_grow; eauto.
Qed.

Lemma vote_g_grow V V' E g : V ⊆ V' → vote_g V E g → vote_g V' E g.
Proof.
  intros Hsub. destruct g; simpl; try done.
  intros (? & ? & ? & ? & Hr). repeat split; auto.
  intros r Hst Hg. eapply lookup_weaken; eauto.
Qed.

Lemma el_ok_grow V V' c e : V ⊆ V' → el_ok V c e → el_ok V' c e.
Proof.
  intros Hsub (? & ? & ? & Hy). repeat split; auto.
  intros s Hs. eapply lookup_weaken; eauto.
Qed.

(** Only [core] matters to [vote_node]. *)
Lemma vote_node_core V i rf rf' :
  core rf' = core rf → vote_node V i rf → vote_node V i rf'.
Proof.
  unfold core. intros [= Hme Hp Hs Hc Hv] [].
  split; rewrite ?Hme, ?Hp, ?Hs, ?Hc, ?Hv; auto.
Qed.

(** Moving to a later term without a vote. *)
Lemma vote_node_seen V i rf t :
  vote_node V i rf → vote_node V i (seen_term t rf).
Proof.
  intros HV. unfold seen_term. destruct (Z.ltb_spec (CurrentTerm rf) t); [|done].
  destruct HV as [?? Hold ???]. split; simpl; try done.
  intros t' c Hc. apply Hold in Hc as [? _]. lia.
Qed.

(** Every peer of the next world is [later] than it was. *)
Lemma step_later w w' i rf rf' :
  step w w' → nodes w !! i = Some rf → nodes w' !! i = Some rf' → later rf rf'.
Proof.
  intros Hs Hi Hi'.
  destruct Hs as [pcs'|j rf0 rf0' pcs' Hj Hrf0|j rf0 pcs' Hj|j rf0 pcs' Hj
    |j rf0 command Hj|k j rf0 Hk Hj|k j term rf0 arg Hk Hj Harg
    |k j eid id arg rf0 rf0' reply Hk Hj Hr
    |k j eid id arg reply rf0 rf0' count count' Hk Hj Hcnt Hr|k j id rf0 Hk Hj
    |k j id rf0 arg Hk Hj Harg|k j id arg rf0 rf0' reply Hk Hj Hr
    |k j id arg reply rf0 rf0' again Hk Hj Hr|k g Hk]; simpl in Hi';
    try (apply list_lookup_insert_Some in Hi' as [(-> & <- & _)|[_ Hi']]);
    simplify_eq; eauto with raft.
  - destruct Hrf0 as [->| ->]; (eapply later_core; [|apply later_refl]; done).
  - eapply later_core; [apply Start_core|apply later_refl].
  - eapply later_core; [by eapply AppendEntries_core|apply later_seen].
  - eapply later_core; [by eapply StartAppendLog_reply_inv|apply later_seen].
Qed.

(** ** Building the invariant of the next world *)

(** Peer [i] changes and, with it, possibly the votes of [i]. *)
Lemma einv_node V V' E w i rf rf' pcs' :
  einv V E w → nodes w !! i = Some rf →
  V ⊆ V' → (∀ j t, j ≠ i → V' !! (j, t) = V !! (j, t)) →
  vote_node V' i rf' →
  einv V' E (mkWorld (<[i := rf']> (nodes w)) pcs' (pool w) (counts w)).
Proof.
  intros [Hlen Hn Hp Hc Hnd] Hi Hsub Hoth Hrf'. split; simpl; auto.
  - by rewrite length_insert.
  - intros j rfj Hj. apply list_lookup_insert_Some in Hj
      as [(-> & <- & _)|[Hne Hj]]; [done|].
    eapply vote_node_grow; eauto.
  - eapply Forall_impl; [done|]. eauto using vote_g_grow.
  - eapply Forall2_impl; [done|]. eauto using el_ok_grow.
Qed.

Lemma einv_node_same V E w i rf rf' pcs' :
  einv V E w → nodes w !! i = Some rf → vote_node V i rf' →
  einv V E (mkWorld (<[i := rf']> (nodes w)) pcs' (pool w) (counts w)).
Proof. intros. eapply einv_node; eauto. Qed.

Lemma einv_pool V E w p pcs' :
  einv V E w → Forall (vote_g V E) p → NoDup (omap vote_key p) →
  einv V E (mkWorld (nodes w) pcs' p (counts w)).
Proof. intros [] ??. by split. Qed.

(** Goroutine [k] is replaced by one with the same vote, or ends. *)
Lemma einv_pool_insert V E w k g g' pcs' :
  einv V E w → pool w !! k = Some g → vote_g V E g' →
  vote_key g = vote_key g' →
  einv V E (mkWorld (nodes w) pcs' (<[k := g']> (pool w)) (counts w)).
Proof.
  intros HI Hk Hg Hkey. apply einv_pool; auto.
  - apply Forall_insert; [apply HI|done].
  - erewrite omap_insert_same by eauto. apply HI.
Qed.

Lemma einv_pool_delete V E w k pcs' :
  einv V E w →
  einv V E (mkWorld (nodes w) pcs' (delete k (pool w)) (counts w)).
Proof.
  intros HI. apply einv_pool; auto.
  - apply Forall_delete, HI.
  - apply NoDup_omap_delete, HI.
Qed.

Lemma einv_pool_app V E w p pcs' :
  einv V E w → Forall (λ g, vote_key g = None) p →
  einv V E (mkWorld (nodes w) pcs' (pool w ++ p) (counts w)).
Proof.
  intros HI Hp. apply einv_pool; auto.
  - apply Forall_app. split; [apply HI|].
    eapply Forall_impl; [done|]. by intros [].
  - rewrite omap_app. replace (omap vote_key p) with (@nil (nat * nat)).
    + rewrite app_nil_r. apply HI.
    + induction Hp as [|g p Hg Hp IH]; simpl; [done|]. by rewrite Hg.
Qed.

(** ** Every transition keeps the invariant *)

(** Recording a vote of [i] in a term where it had none. *)
Lemma insert_vote V i t c :
  V !! (i, t) = None →
  V ⊆ <[(i, t) := c]> V ∧
  ∀ j u, j ≠ i → <[(i, t) := c]> V !! (j, u) = V !! (j, u).
Proof.
  intros HN. split; [by apply insert_subseteq|].
  intros j u Hne. apply lookup_insert_ne. congruence.
Qed.

Lemma vote_none V i rf t :
  vote_node V i rf → (CurrentTerm rf < t)%Z → V !! (i, t) = None.
Proof.
  intros HV Hlt. destruct (V !! (i, t)) as [c|] eqn:HVi; [|done].
  apply (vn_old _ _ _ HV) in HVi as [? _]. lia.
Qed.

Lemma BeCandidate_votes V i rf :
  vote_node V i rf →
  vote_node (<[(i, CurrentTerm rf + 1)%Z := i]> V) i (BeCandidate rf).
Proof.
  intros HV. destruct HV as [Hme ? Hold ???]. split; simpl; try done.
  - intros t c. destruct (decide (t = CurrentTerm rf + 1)%Z) as [->|Hne].
    + rewrite lookup_insert_eq. intros [= <-]. by rewrite Hme.
    + rewrite lookup_insert_ne by congruence. intros [? _]%Hold. split; lia.
  - intros _. exists i. by rewrite Hme, lookup_insert_eq.
  - intros _. by rewrite Hme.
Qed.

Lemma RequestVote_votes V i rf rf' arg reply c :
  vote_node V i rf → RequestVote arg rf = Some (rf', reply) →
  RV_CandidateId arg = Z.of_nat c → c ≠ i →
  ∃ V', V ⊆ V' ∧ (∀ j t, j ≠ i → V' !! (j, t) = V !! (j, t)) ∧
    vote_node V' i rf' ∧
    (RVR_VoteGranted reply = true → V' !! (i, RV_Term arg) = Some c) ∧
    (∀ t c', V' !! (i, t) = Some c' → V !! (i, t) = Some c' ∨
       t = CurrentTerm rf' ∧ VoteFor rf' = Z.of_nat c').
Proof.
  intros HV Hrv Hc Hne. apply (vote_node_seen _ _ _ (RV_Term arg)) in HV.
  apply RequestVote_inv in Hrv as [_ [[Hg ->]|(Hg & Ht & Hvf & ->)]].
  { exists V. rewrite Hg. naive_solver. }
  set (rf1 := seen_term (RV_Term arg) rf) in *.
  exists (<[(i, RV_Term arg) := c]> V).
  assert (V !! (i, RV_Term arg) = None ∨ V !! (i, RV_Term arg) = Some c)
    as HVi.
  { destruct (V !! (i, RV_Term arg)) as [c'|] eqn:HVi; [right|by left].
    pose proof (vn_old _ _ _ HV _ _ HVi) as [_ Hv]. rewrite Hv in Hvf by done.
    f_equal. lia. }
  assert (V ⊆ <[(i, RV_Term arg) := c]> V ∧
          ∀ j u, j ≠ i → <[(i, RV_Term arg) := c]> V !! (j, u) = V !! (j, u))
    as [Hsub Hoth].
  { destruct HVi as [HN|HS]; [by apply insert_vote|]. by rewrite insert_id. }
  split_and!; [done|done| |intros _; apply lookup_insert_eq|]; last first.
  { intros t c'. rewrite lookup_insert_Some. simpl. rewrite Ht.
    intros [[[= <-] <-]|[_ ?]]; auto. }
  destruct HV as [Hme ? Hold Hcur Hself Hlead]. split; simpl; try done.
  - intros t c'. destruct (decide (t = RV_Term arg)) as [->|Hnt].
    + rewrite lookup_insert_eq. intros [= <-]. split; [lia|done].
    + rewrite lookup_insert_ne by congruence. intros [? _]%Hold. split; lia.
  - intros _. exists c. rewrite Ht. by rewrite lookup_insert_eq.
  - intros Hst. specialize (Hself Hst). lia.
  - intros Hst. eapply elected_grow; [done|]. auto.
Qed.

(** A peer that wins its election has a majority of the votes. *)
Lemma elected_of_count V i rf e count :
  vote_node V i rf → State rf = Candidate →
  el_ok V count e → el_owner e = i → el_term e = CurrentTerm rf → i < n →
  (Z.of_nat n / 2 < count)%Z → elected V i (CurrentTerm rf).
Proof.
  intros HV Hst (-> & Hsub & Hni & Hyes) <- Hterm Hlt Hmaj.
  exists ({[el_owner e]} ∪ el_yes e). split; [split|].
  - apply union_subseteq. split; [|done].
    apply singleton_subseteq_l, elem_of_set_seq. lia.
  - rewrite size_union by set_solver. rewrite size_singleton.
    pose proof (Z.mul_succ_div_gt (Z.of_nat n) 2). lia.
  - intros q [->%elem_of_singleton|Hq]%elem_of_union.
    + assert (VoteFor rf = Z.of_nat (el_owner e)) as Hv
        by (apply (vn_self _ _ _ HV); congruence).
      destruct (vn_cur _ _ _ HV) as (c & Hc & ?); [lia|].
      rewrite Hv in Hc. apply Nat2Z.inj in Hc. by subst.
    + rewrite <-Hterm. auto.
Qed.

Lemma startElection_reply_votes V i rf rf' arg reply e count count' :
  vote_node V i rf →
  startElection_reply arg reply count rf = Some (rf', count') →
  el_owner e = i → el_term e = RV_Term arg → el_ok V count' e → i < n →
  vote_node V i rf'.
Proof.
  intros HV Hr Ho Ht He Hi.
  apply startElection_reply_inv in Hr
    as [(Hlt & -> & ->)|[[-> ->]|(Hst & Hct & Hcount & [->|[Hmaj ->]])]]; auto.
  - pose proof (vote_node_seen _ _ _ (RVR_Term reply) HV) as HV'.
    unfold seen_term in HV'. destruct (Z.ltb_spec (CurrentTerm rf) (RVR_Term reply));
      [done|lia].
  - assert (elected V i (CurrentTerm rf)) as Hel.
    { eapply elected_of_count; eauto; [congruence|].
      by rewrite <-(vn_peers _ _ _ HV). }
    destruct HV as [???? Hself _]. split; simpl; try done.
    intros _. apply Hself. by rewrite Hst.
Qed.

(** The election table after the reply of [id] has been counted. *)
Definition count_reply (reply : RequestVoteReply) (counted : bool) (id : nat)
    (e : election) : election :=
  if RVR_VoteGranted reply && counted
  then mkElection (el_owner e) (el_term e) ({[id]} ∪ el_yes e) else e.

Lemma el_ok_count V e count id reply counted :
  el_ok V count e → id < n → id ≠ el_owner e → id ∉ el_yes e →
  (RVR_VoteGranted reply = true → V !! (id, el_term e) = Some (el_owner e)) →
  el_ok V (if RVR_VoteGranted reply && counted then (count + 1)%Z else count)
    (count_reply reply counted id e).
Proof.
  intros (Hc & Hsub & Hni & Hy) Hid Hne Hnin Hg. unfold count_reply.
  destruct (RVR_VoteGranted reply), counted; simpl; try done.
  split_and!; simpl.
  - rewrite size_union by set_solver. rewrite size_singleton. lia.
  - apply union_subseteq. split; [|done].
    apply singleton_subseteq_l, elem_of_set_seq. lia.
  - set_solver.
  - intros s [->%elem_of_singleton|Hs]%elem_of_union; auto.
Qed.

(** Goroutines of the same election wait for other peers. *)
Lemma vote_g_counted V E p eid id e reply counted :
  Forall (vote_g V E) p → E !! eid = Some e →
  (eid, id) ∉ omap vote_key p →
  Forall (vote_g V (<[eid := count_reply reply counted id e]> E)) p.
Proof.
  intros Hp He Hnin. apply Forall_forall. intros g Hg.
  rewrite Forall_forall in Hp. specialize (Hp g Hg).
  destruct g as [| |j eid' id' arg st| |]; try done. simpl in *.
  destruct Hp as (? & ? & ? & (e' & He' & ? & ? & Hni) & ?).
  split_and!; auto.
  destruct (decide (eid = eid')) as [<-|Hne].
  - simplify_eq. exists (count_reply reply counted id e').
    rewrite list_lookup_insert_eq by eauto using lookup_lt_Some.
    unfold count_reply. destruct (_ && _); simpl; split_and!; auto.
    assert (id' ≠ id); [|set_solver]. intros ->. apply Hnin.
    apply list_elem_of_omap. by eexists _.
  - exists e'. by rewrite list_lookup_insert_ne.
Qed.

(** Votes that are new in [V'] are the current votes of their voters. *)
Definition votes_from V V' w' : Prop :=
  ∀ p t c, V' !! (p, t) = Some c → V !! (p, t) = Some c ∨
    ∃ rf', nodes w' !! p = Some rf' ∧ CurrentTerm rf' = t ∧ VoteFor rf' = Z.of_nat c.

Lemma votes_from_refl V w' : votes_from V V w'.
Proof. intros p t c. auto. Qed.

Lemma einv_candidate V E w i rf pcs' :
  einv V E w → nodes w !! i = Some rf →
  ∃ V', V ⊆ V' ∧
    votes_from V V' (mkWorld (<[i := BeCandidate rf]> (nodes w)) pcs'
                       (pool w ++ [GElect i]) (counts w)) ∧
    einv V' E (mkWorld (<[i := BeCandidate rf]> (nodes w)) pcs'
                 (pool w ++ [GElect i]) (counts w)).
Proof.
  intros HI Hi. pose proof (ei_nodes _ _ _ HI _ _ Hi) as HV.
  destruct (insert_vote V i (CurrentTerm rf + 1)%Z i) as [Hsub Hoth].
  { eapply vote_none; eauto. lia. }
  eexists. split; [exact Hsub|]. split.
  { intros p t c. rewrite lookup_insert_Some. intros [[[= <- <-] <-]|[_ ?]]; [right|by left].
    exists (BeCandidate rf). simpl. rewrite (vn_me _ _ _ HV).
    by rewrite list_lookup_insert_eq by eauto using lookup_lt_Some. }
  eapply (einv_pool_app _ _
    (mkWorld (<[i := BeCandidate rf]> (nodes w)) pcs' (pool w) (counts w))).
  - eapply einv_node; eauto using BeCandidate_votes.
  - repeat constructor.
Qed.

Lemma einv_elect_send V E w k i term rf arg :
  einv V E w → nodes w !! i = Some rf →
  startElection_args term rf = Some arg →
  einv V (E ++ [mkElection i (RV_Term arg) ∅])
    (mkWorld (nodes w) (pcs w)
       (delete k (pool w)
          ++ ((λ id, GVote i (length (counts w)) id arg Sent) <$> others rf))
       (counts w ++ [1%Z])).
Proof.
  intros HI Hi Harg. pose proof (ei_nodes _ _ _ HI _ _ Hi) as HV.
  pose proof (Forall2_length _ _ _ (ei_counts _ _ _ HI)) as Hlen.
  unfold startElection_args in Harg. run_opt; subst arg. simpl.
  rewrite (vn_me _ _ _ HV).
  assert (i < n) as Hin by (rewrite <-(ei_len _ _ _ HI); eauto using lookup_lt_Some).
  split; simpl; try apply HI.
  - apply Forall_app. split.
    + apply Forall_delete. eapply Forall_impl; [apply HI|]. intros [] Hg; try done.
      destruct Hg as (? & ? & ? & (e & He & ?) & ?). split_and!; auto.
      exists e. by rewrite lookup_app_l by eauto using lookup_lt_Some.
    + apply Forall_fmap, Forall_forall. intros id Hid.
      apply elem_of_others in Hid as [Hid Hne].
      rewrite (vn_peers _ _ _ HV), (vn_me _ _ _ HV) in *.
      split_and!; simpl; try done. eexists. rewrite lookup_app_r by lia.
      rewrite Hlen, Nat.sub_diag. split; [done|]. simpl. set_solver.
  - apply Forall2_app; [apply HI|]. constructor; [|constructor].
    split_and!; simpl; set_solver.
  - rewrite omap_app. apply NoDup_app. split_and!.
    + apply NoDup_omap_delete, HI.
    + intros [eid id] Hold Hnew.
      apply list_elem_of_omap in Hnew as (g & Hg & Hkey).
      apply list_elem_of_fmap in Hg as (id' & -> & _). simpl in Hkey. simplify_eq.
      apply list_elem_of_omap in Hold as (g & Hg%elem_of_delete_subset & Hkey).
      pose proof (ei_pool _ _ _ HI) as Hp. rewrite Forall_forall in Hp.
      specialize (Hp g Hg). destruct g; simplify_eq/=.
      destruct Hp as (_ & _ & _ & (e & He & _) & _).
      apply lookup_lt_Some in He. lia.
    + pose proof (NoDup_others rf) as Hnd. induction Hnd as [|id l Hni Hnd IH];
        simpl; [constructor|]. constructor; [|done].
      rewrite list_elem_of_omap. intros (g & Hg & Hkey).
      apply list_elem_of_fmap in Hg as (id' & -> & Hid'). simplify_eq/=. done.
Qed.

Lemma einv_vote_reply V E w k i eid id arg reply rf rf' count count' :
  einv V E w →
  pool w !! k = Some (GVote i eid id arg (Replied reply)) →
  nodes w !! i = Some rf → counts w !! eid = Some count →
  startElection_reply arg reply count rf = Some (rf', count') →
  ∃ E', einv V E' (mkWorld (<[i := rf']> (nodes w)) (pcs w)
                     (delete k (pool w)) (<[eid := count']> (counts w))).
Proof.
  intros HI Hk Hi Hcnt Hr. pose proof (ei_nodes _ _ _ HI _ _ Hi) as HV.
  pose proof (Forall_lookup_1 _ _ _ _ (ei_pool _ _ _ HI) Hk)
    as (_ & Hid & Hne & (e & He & Ho & Ht & Hni) & Hgr).
  pose proof (Forall2_lookup_lr _ _ _ _ _ _ (ei_counts _ _ _ HI) Hcnt He) as Hok.
  assert (i < n) as Hin by (rewrite <-(ei_len _ _ _ HI); eauto using lookup_lt_Some).
  assert (∃ counted, count' =
    if RVR_VoteGranted reply && counted then (count + 1)%Z else count)
    as [counted Hcount].
  { apply startElection_reply_inv in Hr
      as [(_ & _ & ->)|[[_ ->]|(_ & _ & -> & _)]];
      [exists false|exists false|exists true]; by destruct (RVR_VoteGranted reply). }
  assert (el_ok V count' (count_reply reply counted id e)) as Hok'.
  { rewrite Hcount. apply el_ok_count; auto; [congruence|].
    rewrite Ht, Ho. eauto. }
  exists (<[eid := count_reply reply counted id e]> E).
  assert (el_owner (count_reply reply counted id e) = i ∧
          el_term (count_reply reply counted id e) = RV_Term arg) as [Ho' Ht'].
  { unfold count_reply. by destruct (_ && _). }
  pose proof (omap_delete_perm vote_key (pool w) k _ Hk) as Hperm. simpl in Hperm.
  pose proof (ei_nodup _ _ _ HI) as Hnd. rewrite Hperm in Hnd.
  apply NoDup_cons in Hnd as [Hnk Hnd].
  split; simpl; auto.
  - rewrite length_insert. apply HI.
  - intros j rfj Hj. apply list_lookup_insert_Some in Hj
      as [(-> & <- & _)|[_ Hj]]; [|by apply HI].
    eapply startElection_reply_votes; eauto.
  - apply vote_g_counted; auto. apply Forall_delete, HI.
  - apply Forall2_insert; [apply HI|done].
Qed.

Lemma einv_vote_request V E w k i eid id arg rf rf' reply :
  einv V E w →
  pool w !! k = Some (GVote i eid id arg Sent) → nodes w !! id = Some rf →
  RequestVote arg rf = Some (rf', reply) →
  let w' := mkWorld (<[id := rf']> (nodes w)) (pcs w)
       (<[k := GVote i eid id arg (Replied reply)]> (pool w)) (counts w) in
  ∃ V', V ⊆ V' ∧ votes_from V V' w' ∧ einv V' E w'.
Proof.
  intros HI Hk Hid Hrv w'.
  pose proof (Forall_lookup_1 _ _ _ _ (ei_pool _ _ _ HI) Hk)
    as (Hc & Hlt & Hne & He & _).
  destruct (RequestVote_votes V id rf rf' arg reply i) as
    (V' & Hsub & Hoth & HV' & Hg & Hnew); auto; [by apply HI|].
  exists V'. split; [done|]. split.
  { intros p t c Hp. destruct (decide (p = id)) as [->|Hpid];
      [|left; by rewrite <-Hoth]. destruct (Hnew _ _ Hp) as [?|[? ?]]; [by left|right].
    exists rf'. simpl. by rewrite list_lookup_insert_eq by eauto using lookup_lt_Some. }
  eapply (einv_pool_insert _ _
    (mkWorld (<[id := rf']> (nodes w)) (pcs w) (pool w) (counts w)));
    [eapply einv_node; eauto|done| |done].
  split_and!; auto. intros r [= <-]. auto.
Qed.

(** A step in which nobody votes. *)
Ltac same_votes V E := exists V, E; split; [done|]; split; [apply votes_from_refl|].

Lemma einv_step_votes V E w w' :
  einv V E w → step w w' →
  ∃ V' E', V ⊆ V' ∧ votes_from V V' w' ∧ einv V' E' w'.
Proof.
  intros HI Hs. destruct Hs as
    [pcs'|i rf rf' pcs' Hi Hrf'|i rf pcs' Hi|i rf pcs' Hi|i rf command Hi
    |k i rf Hk Hi|k i term rf arg Hk Hi Harg|k i eid id arg rf rf' reply Hk Hi Hr
    |k i eid id arg reply rf rf' count count' Hk Hi Hcnt Hr|k i id rf Hk Hi
    |k i id rf arg Hk Hi Harg|k i id arg rf rf' reply Hk Hi Hr
    |k i id arg reply rf rf' again Hk Hi Hr|k g Hk];
    try (pose proof (ei_nodes _ _ _ HI _ _ Hi) as HV).
  - same_votes V E. eapply einv_pool; apply HI.
  - same_votes V E. eapply einv_node_same; eauto.
    destruct Hrf' as [->| ->]; by apply (vote_node_core _ _ rf).
  - edestruct einv_candidate as (V' & ? & ? & ?); eauto.
  - same_votes V E. apply einv_pool_app; auto.
    apply Forall_fmap, Forall_true. done.
  - same_votes V E. eapply einv_node_same; eauto.
    eapply vote_node_core; [apply Start_core|done].
  - same_votes V E. by eapply einv_pool_insert.
  - eexists _, _. split; [done|]. split; [apply votes_from_refl|]. eapply einv_elect_send; eauto.
  - edestruct einv_vote_request as (V' & ? & ? & ?); eauto.
  - edestruct einv_vote_reply; eauto using votes_from_refl.
  - same_votes V E. by apply einv_pool_delete.
  - same_votes V E. by eapply einv_pool_insert.
  - same_votes V E. eapply (einv_pool_insert _ _
      (mkWorld (<[id := rf']> (nodes w)) (pcs w) (pool w) (counts w))); eauto.
    + eapply einv_node_same; eauto.
      eapply vote_node_core; [by eapply AppendEntries_core|].
      by apply vote_node_seen.
    + done.
  - same_votes V E.
    assert (einv V E (mkWorld (<[i := rf']> (nodes w)) (pcs w) (pool w)
              (counts w))) as HI'.
    { eapply einv_node_same; eauto.
      eapply vote_node_core; [by eapply StartAppendLog_reply_inv|].
      by apply vote_node_seen. }
    destruct again.
    + by eapply (einv_pool_insert _ _ _ _ _ _ _ HI').
    + apply (einv_pool_delete _ _ _ k (pcs w) HI').
  - same_votes V E. by apply einv_pool_delete.
Qed.

Lemma einv_step V E w w' :
  einv V E w → step w w' → ∃ V' E', V ⊆ V' ∧ einv V' E' w'.
Proof.
  intros HI Hs. destruct (einv_step_votes _ _ _ _ HI Hs) as (V' & E' & ? & _ & ?). eauto.
Qed.

Lemma Make_fresh (laws : GobLaws (gval Cmd)) i rf :
  rf = Make n i MakePersister →
  me rf = i ∧ peers rf = n ∧ State rf = Follower ∧ CurrentTerm rf = 1%Z ∧
  VoteFor rf = (-1)%Z ∧ Log rf = [mkLog (-1)%Z None].
Proof.
  intros ->. unfold Make, readPersist, decode_int, decode_log. simpl.
  by rewrite !gob_decode_eof.
Qed.

Lemma lookup_init i rf :
  nodes (init (Cmd:=Cmd) n) !! i = Some rf → i < n ∧ rf = Make n i MakePersister.
Proof.
  simpl. rewrite list_lookup_fmap. intros (j & Hj & ->)%fmap_Some.
  by apply lookup_seq in Hj as [-> ?].
Qed.

Lemma einv_init (laws : GobLaws (gval Cmd)) : einv ∅ [] (init n).
Proof.
  split; [..|constructor|constructor|constructor].
  - simpl. by rewrite length_fmap, length_seq.
  - intros i rf [_ Hrf]%lookup_init.
    apply (Make_fresh laws) in Hrf as (? & ? & Hst & ? & Hv & _).
    split; auto; rewrite ?Hst, ?Hv; naive_solver.
Qed.

Lemma reachable_einv (laws : GobLaws (gval Cmd)) w :
  reachable n w → ∃ V E, einv V E w.
Proof.
  revert w. apply (reachable_inv n (λ w, ∃ V E, einv V E w)).
  - exists ∅, []. by apply einv_init.
  - intros w w' _ (V & E & HI) Hs.
    destruct (einv_step _ _ _ _ HI Hs) as (V' & E' & _ & ?). eauto.
Qed.

(** Votes are never taken back along a schedule. *)
Lemma einv_exec V E w acts w' :
  einv V E w → exec w acts = Next w' → ∃ V' E', V ⊆ V' ∧ einv V' E' w'.
Proof.
  revert V E w. induction acts as [|a acts IH]; intros V E w HI He; simpl in He.
  - injection He as <-. eauto.
  - destruct (act w a) as [w1| |] eqn:Ha; [|done..].
    destruct (einv_step _ _ _ _ HI (act_step _ _ _ Ha)) as (V1 & E1 & HV1 & HI1).
    destruct (IH _ _ _ HI1 He) as (V' & E' & HV' & HI').
    exists V', E'. split; [by etrans|done].
Qed.

(** Votes of one term never elect two peers. *)
Lemma elected_unique V i j t : elected V i t → elected V j t → i = j.
Proof.
  intros (Q1 & HQ1 & H1) (Q2 & HQ2 & H2).
  destruct (majority_overlap n Q1 Q2 HQ1 HQ2) as (q & Hq1 & Hq2).
  specialize (H1 q Hq1). specialize (H2 q Hq2). congruence.
Qed.
End election.

Section theorems.
Context {Cmd : Type} `{!Gob (gval Cmd)} (laws : GobLaws (gval Cmd)).

(** Two leaders of one term, at the same or at different times. *)
Lemma leader_unique (n : nat) (w w' : world Cmd) acts i j rfi rfj :
  reachable n w → exec w acts = Next w' →
  nodes w !! i = Some rfi → nodes w' !! j = Some rfj →
  State rfi = Leader → State rfj = Leader →
  CurrentTerm rfi = CurrentTerm rfj → i = j.
Proof.
  intros Hr He Hi Hj Hli Hlj Ht.
  destruct (reachable_einv n laws w Hr) as (V & E & HI).
  destruct (einv_exec n V E w acts w' HI He) as (V' & E' & HV & HI').
  pose proof (vn_lead _ _ _ _ (ei_nodes _ _ _ _ HI _ _ Hi) Hli) as Hei.
  pose proof (vn_lead _ _ _ _ (ei_nodes _ _ _ _ HI' _ _ Hj) Hlj) as Hej.
  rewrite <-Ht in Hej. eapply (elected_unique n V'); [|done].
  by eapply elected_grow.
Qed.

(** C1. Election safety: in every run of a cluster of [n] peers, whatever the
    interleaving of goroutines and however messages are delayed, lost or
    reordered, a peer that is leader of a term at some point and a peer that
    is leader of the same term then or at any later point are the same
    peer. *)
Theorem election_safety (n : nat) (w w' : world Cmd) acts (i j : nat)
    (rfi rfj : Raft Cmd) :
  reachable n w → exec w acts = Next w' →
  nodes w !! i = Some rfi → nodes w' !! j = Some rfj →
  State rfi = Leader → State rfj = Leader →
  CurrentTerm rfi = CurrentTerm rfj → i = j.
Proof. apply leader_unique. Qed.

(** Terms and votes are stable: across any action of any world, a peer's
    term does not decrease, and as long as it stays in its term the peer
    keeps the vote it has given. *)
Theorem vote_stable (w w' : world Cmd) (a : action Cmd) (i : nat)
    (rf rf' : Raft Cmd) :
  act w a = Next w' → nodes w !! i = Some rf → nodes w' !! i = Some rf' →
  (CurrentTerm rf ≤ CurrentTerm rf')%Z ∧
  (CurrentTerm rf' = CurrentTerm rf → VoteFor rf ≠ (-1)%Z →
   VoteFor rf' = VoteFor rf).
Proof.
  intros Ha%act_step Hi Hi'.
  destruct (step_later _ _ _ _ _ Ha Hi Hi') as [?|(? & ? & _)];
    split; naive_solver lia.
Qed.
End theorems.

Lemma vote_stable_witness :
  ∃ w' rf rf', act world_leader (AStart 0 (Some 7)) = Next w' ∧
    nodes world_leader !! 0 = Some rf ∧ nodes w' !! 0 = Some rf' ∧
    VoteFor rf = 0%Z ∧ (CurrentTerm rf ≤ CurrentTerm rf')%Z.
Proof.
  do 3 eexists. split; [by vm_compute|]. split; [by vm_compute|].
  split; [by vm_compute|]. split; [by vm_compute|].
  eapply (vote_stable world_leader _ (AStart 0 (Some 7)) 0); by vm_compute.
Defined.

Lemma election_safety_witness :
  ∃ w' rf, exec world_leader [AStart 0 (Some 7)] = Next w' ∧
    nodes world_leader !! 0 = Some rf ∧ State rf = Leader ∧
    ∀ j rfj, nodes w' !! j = Some rfj → State rfj = Leader →
      CurrentTerm rf = CurrentTerm rfj → 0 = j.
Proof.
  destruct (exec world_leader [AStart 0 (Some 7)]) as [w'| |] eqn:He;
    [|by vm_compute in He..].
  destruct (nodes world_leader !! 0) as [rf|] eqn:Hrf; [|by vm_compute in Hrf].
  assert (State rf = Leader) as Hl.
  { vm_compute in Hrf. by injection Hrf as <-. }
  exists w', rf. split_and!; [done..|]. intros j rfj Hj Hlj Ht.
  by eapply (election_safety demo_gob_laws 3 world_leader w' [AStart 0 (Some 7)]
    0 j rf rfj); [apply world_leader_reachable|..].
Defined.
