(* ===== verification/RaftLogs.v ===== *)
(** * Log matching and leader append-only

    In every reachable world, two logs that hold an entry of the same term at
    the same position agree up to that position; and the log of a leader
    grows only at its end while its term lasts.  The proof keeps a ghost
    table [L] that gives every term that has had a leader that leader and the
    log it had last in the term: every log of the cluster is, up to each of
    its entries, a prefix of the log of the entry's term. *)

From S2P Require Import Prelude.
From S2P Require Import GoBase.
From S2P Require Import Persister.
From S2P Require Import Raft.
From S2P Require Import RaftSystem.
From S2P Require Import RaftNode.
From S2P Require Import RaftDemo.
From S2P Require Import RaftElection.

Section logs.
Context {Cmd : Type} `{!Gob (gval Cmd)}.
Context (n : nat).
Implicit Types (w : world Cmd) (rf : Raft Cmd) (l : list (LogEntry Cmd)).
Implicit Types (V : gmap (nat * Z) nat) (E : list election).
Implicit Types (L : gmap Z (nat * list (LogEntry Cmd))).

Definition sentinel : LogEntry Cmd := mkLog (-1)%Z None.

(** Position 0 holds the sentinel; up to any later entry the log is the log
    of the leader of that entry's term. *)
Definition coherent L l : Prop :=
  l !! 0 = Some sentinel ∧
  ∀ k e, l !! S k = Some e →
    ∃ i l', L !! Log_Term e = Some (i, l') ∧
            take (S (S k)) l = take (S (S k)) l'.

(** The table only gains terms, and the logs in it only grow. *)
Definition table_grows L L' : Prop :=
  ∀ t i l, L !! t = Some (i, l) →
    ∃ l', L' !! t = Some (i, l') ∧ l `prefix_of` l'.

(** A message carries a piece of its leader's log. *)
Definition log_g L (g : goroutine Cmd) : Prop :=
  match g with
  | GAppend i id => id ≠ i
  | GAppendRPC i id arg _ =>
      id ≠ i ∧ ∃ l p e,
        L !! AE_Term arg = Some (i, l) ∧ AE_PrevLogIndex arg = Z.of_nat p ∧
        l !! p = Some e ∧ Log_Term e = AE_PrevLogTerm arg ∧
        take (S p) l ++ AE_Entries arg `prefix_of` l
  | _ => True
  end.

Record log_inv V L w : Prop := {
  li_term i rf : nodes w !! i = Some rf → (1 ≤ CurrentTerm rf)%Z;
  li_node i rf : nodes w !! i = Some rf → coherent L (Log rf);
  li_lead i rf : nodes w !! i = Some rf → State rf = Leader →
    L !! CurrentTerm rf = Some (i, Log rf);
  li_elected t i l : L !! t = Some (i, l) → elected n V i t;
  li_table t i l : L !! t = Some (i, l) → (1 ≤ t)%Z ∧ coherent L l;
  li_owner t i l rf : L !! t = Some (i, l) → nodes w !! i = Some rf →
    (t ≤ CurrentTerm rf)%Z ∧ (t = CurrentTerm rf → State rf ≠ Candidate);
  li_pool : Forall (log_g L) (pool w);
}.

(** ** Coherent logs *)

Lemma table_grows_refl L : table_grows L L.
Proof. intros t i l. eauto. Qed.

Lemma coherent_grow L L' l : table_grows L L' → coherent L l → coherent L' l.
Proof.
  intros Hg [H0 Hl]. split; [done|]. intros k e Hk.
  destruct (Hl k e Hk) as (i & l1 & HL & Htake).
  destruct (Hg _ _ _ HL) as (l2 & HL' & Hpre).
  exists i, l2. split; [done|]. rewrite Htake. symmetry.
  apply prefix_take_eq; [done|].
  apply lookup_lt_Some in Hk. apply (f_equal length) in Htake.
  rewrite !length_take in Htake. lia.
Qed.

Lemma coherent_prefix L l1 l :
  l1 `prefix_of` l → 0 < length l1 → coherent L l → coherent L l1.
Proof.
  intros Hpre Hlen [H0 Hl]. split.
  - destruct Hpre as [r ->]. by rewrite lookup_app_l in H0.
  - intros k e Hk. pose proof (lookup_lt_Some _ _ _ Hk).
    destruct (Hl k e) as (i & l2 & HL & Htake).
    { by eapply prefix_lookup_Some. }
    exists i, l2. split; [done|]. rewrite <-Htake. symmetry.
    by apply prefix_take_eq.
Qed.

(** The heart of log matching: same position, same term, same prefix. *)
Lemma coherent_match L l1 l2 k e1 e2 :
  coherent L l1 → coherent L l2 →
  l1 !! k = Some e1 → l2 !! k = Some e2 → Log_Term e1 = Log_Term e2 →
  take (S k) l1 = take (S k) l2.
Proof.
  intros [H01 H1] [H02 H2] He1 He2 Ht. destruct k as [|k].
  - destruct l1, l2; simplify_eq/=. done.
  - destruct (H1 k e1 He1) as (i & l & HL & ->).
    destruct (H2 k e2 He2) as (i' & l' & HL' & ->).
    rewrite Ht in HL. simplify_eq. done.
Qed.

Lemma coherent_snoc L l t c i :
  coherent L l → L !! t = Some (i, l ++ [mkLog t c]) →
  coherent L (l ++ [mkLog t c]).
Proof.
  intros [H0 Hl] HL. split.
  { by apply lookup_app_l_Some. }
  intros k e Hk. destruct (decide (S k < length l)).
  - rewrite lookup_app_l in Hk by done.
    destruct (Hl k e Hk) as (j & l' & ? & Htake). exists j, l'.
    split; [done|]. by rewrite take_app_le by lia.
  - rewrite lookup_app_r in Hk by lia.
    apply list_lookup_singleton_Some in Hk as [_ <-]. eauto.
Qed.

(** The log a follower gets from a message is a prefix of the leader's. *)
Lemma append_prefix L l l1 p e pre (entries : list (LogEntry Cmd)) :
  coherent L l → coherent L l1 →
  l !! p = Some e → l1 !! p = Some pre → Log_Term pre = Log_Term e →
  take (S p) l ++ entries `prefix_of` l →
  take (S p) l1 ++ entries `prefix_of` l.
Proof.
  intros Hl Hl1 He Hpre Ht Hp.
  by rewrite (coherent_match L l1 l p pre e).
Qed.

Lemma log_g_grow L L' g : table_grows L L' → log_g L g → log_g L' g.
Proof.
  intros Hg. destruct g as [| | | |i id arg st]; simpl; try done.
  intros (Hne & l & p & e & HL & Hp & He & Ht & Hpre). split; [done|].
  destruct (Hg _ _ _ HL) as (l' & HL' & Hl'). exists l', p, e.
  pose proof (lookup_lt_Some _ _ _ He).
  split_and!; auto.
  - by eapply prefix_lookup_Some.
  - rewrite (prefix_take_eq l l') by (done || lia). by etrans.
Qed.

(** ** Building the invariant of the next world *)

Lemma log_inv_votes V V' L w : V ⊆ V' → log_inv V L w → log_inv V' L w.
Proof.
  intros Hsub []. split; auto. intros. eapply elected_grow; eauto.
Qed.

Lemma log_inv_pool V L w p pcs' counts' :
  log_inv V L w → Forall (log_g L) p →
  log_inv V L (mkWorld (nodes w) pcs' p counts').
Proof. intros [] ?. split; auto. Qed.

(** Peer [i] changes and, with it, possibly the log of its current term. *)
Lemma log_inv_node V L L' w i rf rf' pcs' :
  log_inv V L w → nodes w !! i = Some rf → later rf rf' →
  table_grows L L' →
  (∀ t j l, L' !! t = Some (j, l) → L !! t = Some (j, l) ∨
     (j = i ∧ t = CurrentTerm rf' ∧ State rf' = Leader ∧ elected n V i t)) →
  coherent L' (Log rf') →
  (State rf' = Leader → L' !! CurrentTerm rf' = Some (i, Log rf')) →
  log_inv V L' (mkWorld (<[i := rf']> (nodes w)) pcs' (pool w) (counts w)).
Proof.
  intros HI Hi Hlat Hg HL' Hcoh Hlead.
  pose proof (li_term _ _ _ HI _ _ Hi) as Ht.
  assert (CurrentTerm rf ≤ CurrentTerm rf')%Z as Hle
    by (destruct Hlat as [?|[-> _]]; lia).
  split; simpl.
  - intros j rfj [(-> & <- & _)|[_ Hj]]%list_lookup_insert_Some; [lia|].
    by eapply HI.
  - intros j rfj [(-> & <- & _)|[_ Hj]]%list_lookup_insert_Some; [done|].
    eapply coherent_grow; [done|]. by eapply HI.
  - intros j rfj [(-> & <- & _)|[Hne Hj]]%list_lookup_insert_Some Hst; [auto|].
    pose proof (li_lead _ _ _ HI _ _ Hj Hst) as HL.
    destruct (Hg _ _ _ HL) as (l' & HL1 & _).
    destruct (HL' _ _ _ HL1) as [?|(-> & _)]; [congruence|done].
  - intros t j l [HL|(-> & _ & _ & ?)]%HL'; [by eapply HI|done].
  - intros t j l HL. destruct (HL' _ _ _ HL) as [HL0|(-> & -> & Hst & _)].
    + destruct (li_table _ _ _ HI _ _ _ HL0). eauto using coherent_grow.
    + split; [lia|]. specialize (Hlead Hst). by simplify_eq.
  - intros t j l rfj HL [(-> & <- & _)|[Hne Hj]]%list_lookup_insert_Some.
    + destruct (HL' _ _ _ HL) as [HL0|(_ & -> & Hst & _)].
      * destruct (li_owner _ _ _ HI _ _ _ _ HL0 Hi) as [? Hnc]. split; [lia|].
        intros -> Hcand. destruct Hlat as [?|(? & _ & Hc)]; [lia|].
        by apply Hnc, Hc.
      * split; [lia|]. by rewrite Hst.
    + destruct (HL' _ _ _ HL) as [HL0|(-> & _)]; [|done]. by eapply HI.
  - eapply Forall_impl; [apply HI|]. eauto using log_g_grow.
Qed.

(** The common case: the table stays, and no peer becomes leader. *)
Lemma log_inv_node_same V L w i rf rf' pcs' :
  log_inv V L w → nodes w !! i = Some rf → later rf rf' →
  coherent L (Log rf') →
  (State rf' = Leader →
     State rf = Leader ∧ CurrentTerm rf' = CurrentTerm rf ∧ Log rf' = Log rf) →
  log_inv V L (mkWorld (<[i := rf']> (nodes w)) pcs' (pool w) (counts w)).
Proof.
  intros HI Hi Hlat Hcoh Hl. eapply log_inv_node; eauto using table_grows_refl.
  intros Hst. destruct (Hl Hst) as (? & -> & ->). by eapply HI.
Qed.

(** Goroutine [k] is replaced, or ends. *)
Lemma log_inv_pool_insert V L w k g pcs' :
  log_inv V L w → log_g L g →
  log_inv V L (mkWorld (nodes w) pcs' (<[k := g]> (pool w)) (counts w)).
Proof. intros HI Hg. apply log_inv_pool, Forall_insert; auto. apply HI. Qed.

Lemma log_inv_pool_delete V L w k pcs' :
  log_inv V L w →
  log_inv V L (mkWorld (nodes w) pcs' (delete k (pool w)) (counts w)).
Proof. intros HI. apply log_inv_pool, Forall_delete; auto. apply HI. Qed.

(** ** Every transition keeps the invariant *)

(** What is new in the table [L'] belongs to leaders among the peers [ns]. *)
Definition table_from L L' (ns : list (Raft Cmd)) : Prop :=
  ∀ t j l, L' !! t = Some (j, l) → L !! t = Some (j, l) ∨
    ∃ rf, ns !! j = Some rf ∧ State rf = Leader ∧ CurrentTerm rf = t.

Lemma table_from_refl L ns : table_from L L ns.
Proof. intros t j l. auto. Qed.

(** A step that creates no entry keeps the table of the leaders' entries. *)
Ltac keep_table L :=
  exists L; split; [apply table_grows_refl|]; split; [apply table_from_refl|].

Lemma log_inv_start V L w i rf command :
  log_inv V L w → nodes w !! i = Some rf →
  ∃ L', table_grows L L' ∧ table_from L L' (<[i := (Start command rf).1]> (nodes w)) ∧
    log_inv V L' (upd_node i (Start command rf).1 w).
Proof.
  intros HI Hi. pose proof (Start_core command rf) as Hcore.
  pose proof (Start_Log command rf) as Hlog. unfold core in Hcore.
  set (rf' := (Start command rf).1) in *. injection Hcore as Hme Hp Hst Hct Hv.
  assert (later rf rf') as Hlat.
  { apply (later_core rf rf); [unfold core; congruence|apply later_refl]. }
  destruct (decide (State rf = Leader)) as [Hl|Hl]; last first.
  { rewrite bool_decide_false in Hlog by done. keep_table L.
    eapply log_inv_node_same; eauto; [|congruence].
    rewrite Hlog. by eapply HI. }
  rewrite bool_decide_true in Hlog by done.
  pose proof (li_lead _ _ _ HI _ _ Hi Hl) as HL.
  set (L' := <[CurrentTerm rf := (i, Log rf')]> L).
  assert (table_grows L L') as Hg.
  { intros t j l Hj. destruct (decide (t = CurrentTerm rf)) as [->|Hne].
    - simplify_eq. exists (Log rf'). unfold L'. rewrite lookup_insert_eq, Hlog.
      split; [done|]. by apply prefix_app_r.
    - exists l. unfold L'. by rewrite lookup_insert_ne. }
  exists L'. split; [done|]. split.
  { intros t j l. unfold L'. rewrite lookup_insert_Some.
    intros [[<- [= <- <-]]|[_ ?]]; [right|by left]. exists rf'.
    rewrite list_lookup_insert_eq by eauto using lookup_lt_Some. split_and!; congruence. }
  eapply log_inv_node; eauto.
  - intros t j l. unfold L'. rewrite lookup_insert_Some.
    intros [[<- [= <- <-]]|[_ ?]]; [right|by left].
    split_and!; auto; [congruence|]. by eapply HI.
  - rewrite Hlog. eapply coherent_snoc.
    + eapply coherent_grow; [done|]. by eapply HI.
    + unfold L'. by rewrite lookup_insert_eq, Hlog.
  - intros _. unfold L'. by rewrite Hct, lookup_insert_eq.
Qed.

(** A newly elected leader opens a new term in the table. *)
Lemma log_inv_elected V L w i rf rf' pcs' :
  log_inv V L w → nodes w !! i = Some rf → State rf = Candidate →
  later rf rf' → CurrentTerm rf' = CurrentTerm rf → Log rf' = Log rf →
  State rf' = Leader → elected n V i (CurrentTerm rf') →
  ∃ L', table_grows L L' ∧ table_from L L' (<[i := rf']> (nodes w)) ∧ log_inv V L'
    (mkWorld (<[i := rf']> (nodes w)) pcs' (pool w) (counts w)).
Proof.
  intros HI Hi Hst Hlat Hct Hlog Hst' Hel.
  assert (L !! CurrentTerm rf' = None) as HN.
  { destruct (L !! CurrentTerm rf') as [[j l]|] eqn:HL; [exfalso|done].
    assert (j = i) as ->.
    { eapply elected_unique; [by eapply (li_elected _ _ _ HI)|done]. }
    destruct (li_owner _ _ _ HI _ _ _ _ HL Hi) as [_ Hnc].
    by apply Hnc. }
  exists (<[CurrentTerm rf' := (i, Log rf')]> L).
  assert (table_grows L (<[CurrentTerm rf' := (i, Log rf')]> L)) as Hg.
  { intros t j l Hj. exists l. rewrite lookup_insert_ne by congruence. done. }
  split; [done|]. split.
  { intros t j l. rewrite lookup_insert_Some.
    intros [[<- [= <- <-]]|[_ ?]]; [right|by left]. exists rf'.
    by rewrite list_lookup_insert_eq by eauto using lookup_lt_Some. }
  eapply log_inv_node; eauto.
  - intros t j l. rewrite lookup_insert_Some.
    intros [[<- [= <- <-]]|[_ ?]]; [right|by left]. auto.
  - eapply coherent_grow; [done|]. rewrite Hlog. by eapply HI.
  - intros _. by rewrite lookup_insert_eq.
Qed.

Lemma log_inv_vote_reply V L w i rf rf' arg reply count count' pcs' :
  log_inv V L w → nodes w !! i = Some rf →
  startElection_reply arg reply count rf = Some (rf', count') →
  (State rf' = Leader → elected n V i (CurrentTerm rf')) →
  ∃ L', table_grows L L' ∧ table_from L L' (<[i := rf']> (nodes w)) ∧ log_inv V L'
    (mkWorld (<[i := rf']> (nodes w)) pcs' (pool w) (counts w)).
Proof.
  intros HI Hi Hr Hel. pose proof (startElection_reply_later _ _ _ _ _ _ Hr).
  apply startElection_reply_inv in Hr
    as [(? & -> & _)|[[-> _]|(Hst & _ & _ & [->|[_ ->]])]].
  - keep_table L. eapply log_inv_node_same; eauto; [|done]. exact (li_node _ _ _ HI _ _ Hi).
  - keep_table L. eapply log_inv_node_same; eauto. by eapply HI.
  - keep_table L. eapply log_inv_node_same; eauto. by eapply HI.
  - eapply log_inv_elected; eauto.
Qed.

Lemma log_inv_append_request V L w i id arg rf rf' reply st :
  log_inv V L w → log_g L (GAppendRPC i id arg st) →
  nodes w !! id = Some rf → AppendEntries arg rf = Some (rf', reply) →
  log_inv V L (mkWorld (<[id := rf']> (nodes w)) (pcs w) (pool w) (counts w)).
Proof.
  intros HI (Hne & l & p & e & HL & Hp & He & Ht & Hpre) Hid Ha.
  pose proof (AppendEntries_core _ _ _ _ Ha) as Hcore.
  pose proof (AppendEntries_Log _ _ _ _ Ha) as Hlog.
  pose proof (li_node _ _ _ HI _ _ Hid) as Hcoh.
  assert (later rf rf') as Hlat by (eapply later_core; eauto with raft).
  apply AppendEntries_inv in Ha as [_ [[Hs ->]|(Hs & Hct & pre & rf2 & Hget & Hpt & _)]];
    rewrite Hs in Hlog.
  { eapply log_inv_node_same; eauto; [by rewrite Hlog|].
    intros Hst. unfold seen_term in *. by destruct (_ <? _)%Z. }
  rewrite Hp in Hget, Hlog. rewrite zget_nat in Hget.
  replace (Z.to_nat (Z.of_nat p + 1)) with (S p) in Hlog by lia.
  destruct (li_table _ _ _ HI _ _ _ HL) as [_ Hl].
  eapply log_inv_node_same; eauto.
  - rewrite Hlog. eapply coherent_prefix; [| |exact Hl].
    + eapply append_prefix; eauto. congruence.
    + apply lookup_lt_Some in Hget. rewrite length_app, length_take. lia.
  - (* a leader of the message's term would be its sender *)
    intros Hst. exfalso. unfold core in Hcore. injection Hcore as _ _ Hst' Hct' _.
    rewrite Hst in Hst'. simpl in Hct. unfold seen_term in *.
    destruct (Z.ltb_spec (CurrentTerm rf) (AE_Term arg)); [done|].
    pose proof (li_lead _ _ _ HI _ _ Hid (eq_sym Hst')) as HL'.
    rewrite Hct in HL'. congruence.
Qed.

Lemma log_g_args V L w i rf id arg st :
  log_inv V L w → nodes w !! i = Some rf → id ≠ i →
  StartAppendLog_args id rf = Some (Some arg) →
  log_g L (GAppendRPC i id arg st).
Proof.
  intros HI Hi Hne. unfold StartAppendLog_args.
  destruct (decide (State rf = Leader)) as [Hl|Hl];
    [rewrite bool_decide_true by done|by rewrite bool_decide_false by done].
  simpl. intros H. apply bind_Some in H as (next & Hnext & H).
  apply bind_Some in H as (prev & Hprev & H).
  apply bind_Some in H as (entries & Hent & H). run_opt; subst arg.
  split; [done|]. exists (Log rf), (Z.to_nat (next - 1)), prev. simpl.
  apply zget_Some in Hprev as [Hpos Hprev].
  split_and!; auto; [by eapply HI|lia|].
  case_match; zbool; run_opt; subst.
  - apply slice_from_Some in Hent as [Hr ->].
    replace (S (Z.to_nat (next - 1))) with (Z.to_nat next) by lia.
    by rewrite take_drop.
  - rewrite app_nil_r. apply prefix_take.
Qed.

(** Answering a vote request and handling the reply to an append change no
    log. *)
Lemma log_inv_vote_request V L w id rf rf' arg reply :
  log_inv V L w → nodes w !! id = Some rf → RequestVote arg rf = Some (rf', reply) →
  log_inv V L (mkWorld (<[id := rf']> (nodes w)) (pcs w) (pool w) (counts w)).
Proof.
  intros HI Hi Hr. pose proof (RequestVote_Log _ _ _ _ Hr) as Hlog.
  pose proof (li_node _ _ _ HI _ _ Hi). eapply log_inv_node_same; eauto with raft.
  - by rewrite Hlog.
  - apply RequestVote_inv in Hr as [_ [[_ ->]|(_ & _ & _ & ->)]]; simpl;
      unfold seen_term in *; by destruct (_ <? _)%Z.
Qed.

Lemma log_inv_append_reply V L w i id reply rf rf' again :
  log_inv V L w → nodes w !! i = Some rf → StartAppendLog_reply id reply rf = Some (rf', again) →
  log_inv V L (mkWorld (<[i := rf']> (nodes w)) (pcs w) (pool w) (counts w)).
Proof.
  intros HI Hi Hr. destruct (StartAppendLog_reply_inv _ _ _ _ _ Hr) as [Hcore Hlog].
  pose proof (li_node _ _ _ HI _ _ Hi). eapply log_inv_node_same; eauto.
  - eapply later_core; eauto with raft.
  - by rewrite Hlog.
  - unfold core in Hcore. injection Hcore as _ _ -> -> _.
    unfold seen_term. by destruct (_ <? _)%Z.
Qed.

Lemma log_inv_step_table V V' E E' L w w' :
  V ⊆ V' → einv n V E w → einv n V' E' w' → log_inv V L w → step w w' →
  ∃ L', table_grows L L' ∧ table_from L L' (nodes w') ∧ log_inv V' L' w'.
Proof.
  intros Hsub HE HE' HI Hs. apply (log_inv_votes V V') in HI; [|done].
  destruct Hs as
    [pcs'|i rf rf' pcs' Hi Hrf'|i rf pcs' Hi|i rf pcs' Hi|i rf command Hi
    |k i rf Hk Hi|k i term rf arg Hk Hi Harg|k i eid id arg rf rf' reply Hk Hi Hr
    |k i eid id arg reply rf rf' count count' Hk Hi Hcnt Hr|k i id rf Hk Hi
    |k i id rf arg Hk Hi Harg|k i id arg rf rf' reply Hk Hi Hr
    |k i id arg reply rf rf' again Hk Hi Hr|k g Hk];
    try (pose proof (Forall_lookup_1 _ _ _ _ (li_pool _ _ _ HI) Hk) as Hg);
    try (pose proof (li_node _ _ _ HI _ _ Hi) as Hcoh).
  - keep_table L. by apply log_inv_pool; [|apply HI].
  - keep_table L. eapply log_inv_node_same; eauto.
    + destruct Hrf' as [->| ->]; (eapply later_core; [|apply later_refl]; done).
    + by destruct Hrf' as [->| ->].
    + by destruct Hrf' as [->| ->].
  - keep_table L. eapply (log_inv_pool _ _
      (mkWorld (<[i := BeCandidate rf]> (nodes w)) pcs' (pool w) (counts w))).
    + eapply log_inv_node_same; eauto with raft. done.
    + apply Forall_app. split; [apply HI|repeat constructor].
  - keep_table L. apply log_inv_pool; [done|]. apply Forall_app.
    split; [apply HI|]. apply Forall_fmap, Forall_forall. intros id Hid.
    apply elem_of_others in Hid as [_ Hne]. simpl.
    by rewrite (vn_me _ _ _ _ (ei_nodes _ _ _ _ HE' _ _ Hi)) in Hne.
  - eapply log_inv_start; eauto.
  - keep_table L. by apply log_inv_pool_insert.
  - keep_table L. apply log_inv_pool; [done|]. apply Forall_app.
    split; [apply Forall_delete, HI|]. by apply Forall_fmap, Forall_true.
  - keep_table L. eapply (log_inv_pool_insert _ _
      (mkWorld (<[id := rf']> (nodes w)) (pcs w) (pool w) (counts w))); [|done].
    by eapply log_inv_vote_request.
  - destruct (log_inv_vote_reply V' L w i rf rf' arg reply count count' (pcs w))
      as (L' & Hgr & Hfrom & HI'); eauto.
    { intros Hst. eapply vn_lead; [|done]. eapply HE'. simpl.
      apply list_lookup_insert_eq. eauto using lookup_lt_Some. }
    exists L'. split; [done|]. split; [done|]. eapply (log_inv_pool _ _ _ _ (pcs w) _ HI').
    apply Forall_delete, (li_pool _ _ _ HI').
  - keep_table L. by apply log_inv_pool_delete.
  - keep_table L. apply log_inv_pool_insert; [done|]. by eapply log_g_args.
  - keep_table L. eapply (log_inv_pool_insert _ _
      (mkWorld (<[id := rf']> (nodes w)) (pcs w) (pool w) (counts w)));
      [by eapply log_inv_append_request|done].
  - keep_table L. pose proof (log_inv_append_reply _ _ _ _ _ _ _ _ _ HI Hi Hr) as HI'.
    destruct again.
    + apply (log_inv_pool_insert _ _ _ _ _ (pcs w) HI'). by destruct Hg.
    + apply (log_inv_pool_delete _ _ _ k (pcs w) HI').
  - keep_table L. by apply log_inv_pool_delete.
Qed.

Lemma log_inv_step V V' E E' L w w' :
  V ⊆ V' → einv n V E w → einv n V' E' w' → log_inv V L w → step w w' →
  ∃ L', table_grows L L' ∧ log_inv V' L' w'.
Proof.
  intros Hsub HE HE' HI Hs.
  destruct (log_inv_step_table _ _ _ _ _ _ _ Hsub HE HE' HI Hs) as (L' & ? & _ & ?). eauto.
Qed.

Lemma log_inv_init (laws : GobLaws (gval Cmd)) : log_inv ∅ ∅ (init n).
Proof.
  split; try (intros ????; rewrite lookup_empty; done);
    try (intros ???; rewrite lookup_empty; done); [..|constructor].
  - intros i rf [_ Hrf]%lookup_init.
    apply (Make_fresh n laws) in Hrf as (_ & _ & _ & -> & _). done.
  - intros i rf [_ Hrf]%lookup_init.
    apply (Make_fresh n laws) in Hrf as (_ & _ & _ & _ & _ & ->). done.
  - intros i rf [_ Hrf]%lookup_init.
    apply (Make_fresh n laws) in Hrf as (_ & _ & -> & _). done.
Qed.

Lemma reachable_logs (laws : GobLaws (gval Cmd)) w :
  reachable n w → ∃ V E L, einv n V E w ∧ log_inv V L w.
Proof.
  revert w. apply (reachable_inv n (λ w, ∃ V E L, einv n V E w ∧ log_inv V L w)).
  - exists ∅, [], ∅. split; [by apply einv_init|by apply log_inv_init].
  - intros w w' _ (V & E & L & HE & HI) Hs.
    destruct (einv_step _ _ _ _ _ HE Hs) as (V' & E' & Hsub & HE').
    destruct (log_inv_step _ _ _ _ _ _ _ Hsub HE HE' HI Hs) as (L' & _ & HI').
    eauto 6.
Qed.
End logs.

Section theorems.
Context {Cmd : Type} `{!Gob (gval Cmd)} (laws : GobLaws (gval Cmd)).

(** C2. Log matching: in every reachable world, if the logs of two peers hold
    entries of the same term at the same index, the two logs are identical
    up to and including that index. *)
Theorem log_matching (n : nat) (w : world Cmd) (i j k : nat)
    (rfi rfj : Raft Cmd) (ei ej : LogEntry Cmd) :
  reachable n w →
  nodes w !! i = Some rfi → nodes w !! j = Some rfj →
  Log rfi !! k = Some ei → Log rfj !! k = Some ej →
  Log_Term ei = Log_Term ej →
  take (S k) (Log rfi) = take (S k) (Log rfj).
Proof.
  intros Hr Hi Hj Hei Hej Ht.
  destruct (reachable_logs n laws w Hr) as (V & E & L & _ & HI).
  eapply (coherent_match L); eauto; by eapply HI.
Qed.

(** Leader append-only: in a reachable world, no action removes or
    overwrites an entry in the log of a peer that is leader before and after
    it in the same term; the log only grows at its end. *)
Theorem leader_append_only (n : nat) (w w' : world Cmd) (a : action Cmd)
    (i : nat) (rf rf' : Raft Cmd) :
  reachable n w → act w a = Next w' →
  nodes w !! i = Some rf → nodes w' !! i = Some rf' →
  State rf = Leader → State rf' = Leader → CurrentTerm rf' = CurrentTerm rf →
  Log rf `prefix_of` Log rf'.
Proof.
  intros Hr Ha%act_step Hi Hi' Hl Hl' Ht.
  destruct (reachable_logs n laws w Hr) as (V & E & L & HE & HI).
  destruct (einv_step _ _ _ _ _ HE Ha) as (V' & E' & Hsub & HE').
  destruct (log_inv_step n _ _ _ _ _ _ _ Hsub HE HE' HI Ha) as (L' & Hg & HI').
  destruct (Hg _ _ _ (li_lead _ _ _ _ HI _ _ Hi Hl)) as (l' & HL' & Hpre).
  pose proof (li_lead _ _ _ _ HI' _ _ Hi' Hl') as HL''.
  rewrite Ht in HL''. by simplify_eq.
Qed.
End theorems.

Lemma log_matching_witness :
  ∃ rf0 rf1 e0 e1,
    nodes world_replicated !! 0 = Some rf0 ∧
    nodes world_replicated !! 1 = Some rf1 ∧
    Log rf0 !! 1 = Some e0 ∧ Log rf1 !! 1 = Some e1 ∧
    Log_Term e0 = Log_Term e1 ∧ Log_Command e0 = Some 7 ∧
    take 2 (Log rf0) = take 2 (Log rf1).
Proof.
  do 4 eexists. split; [by vm_compute|]. split; [by vm_compute|].
  split; [by vm_compute|]. split; [by vm_compute|]. split; [by vm_compute|].
  split; [by vm_compute|].
  eapply (log_matching demo_gob_laws 3 world_replicated 0 1 1);
    [apply world_replicated_reachable|by vm_compute..].
Defined.

Lemma leader_append_only_witness :
  ∃ w' rf rf', act world_leader (AStart 0 (Some 7)) = Next w' ∧
    nodes world_leader !! 0 = Some rf ∧ nodes w' !! 0 = Some rf' ∧
    State rf' = Leader ∧ length (Log rf') = 2 ∧ Log rf `prefix_of` Log rf'.
Proof.
  do 3 eexists. split; [by vm_compute|]. split; [by vm_compute|].
  split; [by vm_compute|]. split; [by vm_compute|]. split; [by vm_compute|].
  eapply (leader_append_only demo_gob_laws 3 world_leader _ (AStart 0 (Some 7)) 0);
    [apply world_leader_reachable|by vm_compute..].
Defined.
