(* ===== verification/RaftCommit.v ===== *)
(** * The commit rule of a leader

    [advanceCommit] takes the median of a sorted copy of [MatchIndex]: it is
    the largest index that a majority of the peers is recorded to have. *)

From S2P Require Import Prelude.
From S2P Require Import GoBase.
From S2P Require Import Persister.
From S2P Require Import Raft.
From S2P Require Import RaftSystem.
From S2P Require Import RaftNode.
From S2P Require Import RaftDemo.
From S2P Require Import RaftElection.
From S2P Require Import RaftLogs.

(** ** The median of [MatchIndex] *)

(** How many entries of [l] are at least [x]. *)
Definition count_ge (x : Z) (l : list Z) : nat :=
  length (filter (λ y, (x ≤ y)%Z) l).

Lemma count_ge_perm x l l' : l ≡ₚ l' → count_ge x l = count_ge x l'.
Proof. intros Hp. unfold count_ge. by rewrite Hp. Qed.

Lemma count_ge_app x l l' : count_ge x (l ++ l') = count_ge x l + count_ge x l'.
Proof. unfold count_ge. by rewrite filter_app, length_app. Qed.

Lemma count_ge_le x l : count_ge x l ≤ length l.
Proof. unfold count_ge. apply length_filter. Qed.

Lemma count_ge_all x l : Forall (λ y, (x ≤ y)%Z) l → count_ge x l = length l.
Proof.
  unfold count_ge. induction 1 as [|y l Hy Hl IH]; [done|].
  rewrite filter_cons_True by done. simpl. by rewrite IH.
Qed.

Lemma count_ge_none x l : Forall (λ y, (y < x)%Z) l → count_ge x l = 0.
Proof.
  unfold count_ge. induction 1 as [|y l Hy Hl IH]; [done|].
  by rewrite filter_cons_False by lia.
Qed.

(** [N] is reached by a majority of [l], and no larger index is. *)
Definition majority_index (l : list Z) (N : Z) : Prop :=
  length l < 2 * count_ge N l ∧
  ∀ M, (N < M)%Z → 2 * count_ge M l ≤ length l.

Lemma median_majority (l : list Z) (N : Z) :
  sort_desc l !! (length l / 2) = Some N → majority_index l N.
Proof.
  intros HN. set (h := length l / 2) in *.
  pose proof (sort_desc_length l) as Hlen.
  assert (∀ M, count_ge M l =
    count_ge M (take (S h) (sort_desc l)) + count_ge M (drop (S h) (sort_desc l)))
    as Hsplit.
  { intros M. rewrite <-count_ge_app, take_drop.
    apply count_ge_perm. by rewrite sort_desc_perm. }
  assert (length l = 2 * h + length l mod 2) as Hdiv
    by apply Nat.div_mod_eq.
  pose proof (Nat.mod_upper_bound (length l) 2 ltac:(lia)) as Hmod.
  pose proof (lookup_lt_Some _ _ _ HN) as Hh. split.
  - rewrite Hsplit, count_ge_all.
    + rewrite length_take. lia.
    + apply Forall_forall. intros y (i & Hi)%list_elem_of_lookup.
      apply lookup_take_Some in Hi as [Hi Hlt].
      eapply sort_desc_lookup_ge; eauto. lia.
  - intros M HM. rewrite (count_ge_perm M l (sort_desc l)) by
      (by rewrite sort_desc_perm).
    rewrite <-(take_drop h (sort_desc l)), count_ge_app.
    rewrite (count_ge_none M (drop h _)).
    + pose proof (count_ge_le M (take h (sort_desc l))).
      rewrite length_take in *. lia.
    + apply Forall_forall. intros y (i & Hi)%list_elem_of_lookup.
      rewrite lookup_drop in Hi.
      assert (y ≤ N)%Z; [|lia].
      eapply (sort_desc_lookup_ge l h (h + i)); eauto. lia.
Qed.

Lemma zget_median (l : list Z) :
  zget (sort_desc l) (zlen (sort_desc l) / 2) = sort_desc l !! (length l / 2).
Proof.
  unfold zlen. rewrite sort_desc_length.
  replace (Z.of_nat (length l) / 2)%Z with (Z.of_nat (length l / 2)).
  - apply zget_nat.
  - apply Nat2Z.inj_div.
Qed.

Section commit.
Context {Cmd : Type} `{!Gob (gval Cmd)}.
Implicit Types rf : Raft Cmd.

(** The term of the entry at index [N]. *)
Definition term_at (N : Z) rf : option Z := Log_Term <$> zget (Log rf) N.

(** C10. The commit rule: after a successful reply the leader looks at the
    largest index [N] that a majority of [MatchIndex] has reached; it sets
    [CommitIndex] to [N] exactly when [N] is beyond [CommitIndex] and the
    entry at [N] is of the current term, and otherwise leaves it. *)
Theorem advanceCommit_majority rf rf' :
  advanceCommit rf = Some rf' →
  ∃ N, majority_index (MatchIndex rf) N ∧
    CommitIndex rf' =
      (if decide ((CommitIndex rf < N)%Z ∧ term_at N rf = Some (CurrentTerm rf))
       then N else CommitIndex rf).
Proof.
  unfold advanceCommit, term_at. intros H.
  apply bind_Some in H as (N & HN & H). rewrite zget_median in HN.
  exists N. split; [by apply median_majority|].
  destruct (Z.ltb_spec (CommitIndex rf) N).
  - apply bind_Some in H as (e & He & H). rewrite He. simpl.
    destruct (Z.eqb_spec (Log_Term e) (CurrentTerm rf)) as [Ht|Ht].
    + rewrite decide_True by (split; [done|congruence]).
      by apply updateLastApplied_frame in H as (a & l & ->).
    + rewrite decide_False by naive_solver. congruence.
  - rewrite decide_False by lia. congruence.
Qed.
End commit.

(** A leader of three peers whose second entry has just reached peer 1. *)
Definition commit_example : Raft nat :=
  mkRaft 0 3 MakePersister Leader 2 0
    [mkLog (-1)%Z None; mkLog 2%Z (Some 7); mkLog 2%Z (Some 8)] 0 0
    [3; 3; 1]%Z [2; 2; 0]%Z false false [].

Lemma advanceCommit_majority_witness :
  ∃ rf', advanceCommit commit_example = Some rf' ∧ CommitIndex rf' = 2%Z ∧
    ∃ N, majority_index (MatchIndex commit_example) N ∧
      CommitIndex rf' =
        (if decide ((CommitIndex commit_example < N)%Z ∧
             term_at N commit_example = Some (CurrentTerm commit_example))
         then N else CommitIndex commit_example).
Proof.
  eexists. split; [by vm_compute|]. split; [by vm_compute|].
  apply (advanceCommit_majority commit_example). by vm_compute.
Defined.
