(* ===== verification/RaftApply.v ===== *)
(** * The apply channel and the panics of a cluster

    Every peer delivers the indices 1, 2, 3, ... in order on its apply
    channel, and in a reachable world neither RPC handler panics: only the
    leader's own replication goroutines can. *)

From S2P Require Import Prelude.
From S2P Require Import GoBase.
From S2P Require Import Persister.
From S2P Require Import Raft.
From S2P Require Import RaftSystem.
From S2P Require Import RaftNode.
From S2P Require Import RaftDemo.
From S2P Require Import RaftElection.
From S2P Require Import RaftLogs.

Section apply.
Context {Cmd : Type} `{!Gob (gval Cmd)}.
Implicit Types (w : world Cmd) (rf : Raft Cmd).

(** What the service has received so far: the indices [1 .. LastApplied]. *)
Definition applied_ok rf : Prop :=
  (0 ≤ LastApplied rf)%Z ∧ AM_Index <$> applyCh rf = seqZ 1 (LastApplied rf).

Lemma applied_ok_eq rf rf' :
  LastApplied rf' = LastApplied rf → applyCh rf' = applyCh rf →
  applied_ok rf → applied_ok rf'.
Proof. unfold applied_ok. by intros -> ->. Qed.

Lemma seen_term_applied t rf : applied_ok rf → applied_ok (seen_term t rf).
Proof. unfold seen_term. by destruct (_ <? _)%Z. Qed.

Lemma updateLastApplied_applied rf rf' :
  applied_ok rf → updateLastApplied rf = Some rf' → applied_ok rf'.
Proof.
  unfold updateLastApplied.
  generalize (Z.to_nat (CommitIndex rf - LastApplied rf)) as fuel.
  intros fuel. revert rf. induction fuel as [|fuel IH]; intros rf Hok;
    cbn [updateLastApplied_loop]; case_match; intros Hu; run_opt; subst; auto.
  eapply IH, Hu. destruct Hok as [Hla Happ]. split; simpl; [lia|].
  rewrite fmap_app, Happ. simpl.
  rewrite seqZ_app by lia. f_equal. rewrite Z.add_comm. by vm_compute.
Qed.

Lemma AppendEntries_applied args rf rf' reply :
  applied_ok rf → AppendEntries args rf = Some (rf', reply) → applied_ok rf'.
Proof.
  intros Hok [_ [[_ ->]|(_ & _ & pre & rf2 & _ & _ & -> & Hc)]]%AppendEntries_inv.
  - by apply (seen_term_applied (AE_Term args)) in Hok.
  - apply (seen_term_applied (AE_Term args)) in Hok.
    destruct Hc as [(_ & rf3 & Hu & ->)|[_ ->]]; [|done].
    apply updateLastApplied_applied in Hu; [|done]. done.
Qed.

Lemma advanceCommit_applied rf rf' :
  applied_ok rf → advanceCommit rf = Some rf' → applied_ok rf'.
Proof.
  unfold advanceCommit. intros Hok H. apply bind_Some in H as (N & HN & H).
  case_match; [apply bind_Some in H as (e & He & H); case_match|]; run_opt;
    subst; auto.
  by eapply (updateLastApplied_applied (set_CommitIndex N rf)).
Qed.

Lemma StartAppendLog_reply_applied id reply rf rf' again :
  applied_ok rf → StartAppendLog_reply id reply rf = Some (rf', again) →
  applied_ok rf'.
Proof.
  unfold StartAppendLog_reply. intros Hok.
  case_match; [intros; run_opt; by subst|].
  case_match; intros Hu; run_opt; subst; [|done].
  match goal with
  | Ha : advanceCommit ?r = Some _ |- _ =>
      by apply (advanceCommit_applied r) in Ha
  end.
Qed.

Lemma RequestVote_applied args rf rf' reply :
  applied_ok rf → RequestVote args rf = Some (rf', reply) → applied_ok rf'.
Proof.
  intros Hok [_ [[_ ->]|(_ & _ & _ & ->)]]%RequestVote_inv;
    by apply (seen_term_applied (RV_Term args)) in Hok.
Qed.

Lemma startElection_reply_applied arg reply count rf rf' count' :
  applied_ok rf → startElection_reply arg reply count rf = Some (rf', count') →
  applied_ok rf'.
Proof.
  intros Hok [(_ & -> & _)|[[-> _]|(_ & _ & _ & [->|[_ ->]])]]%startElection_reply_inv;
    done.
Qed.

Lemma Start_applied command rf : applied_ok rf → applied_ok (Start command rf).1.
Proof. unfold Start. by case_match. Qed.
End apply.

#[export] Hint Resolve AppendEntries_applied RequestVote_applied
  StartAppendLog_reply_applied startElection_reply_applied Start_applied : raft.

Section reach.
Context {Cmd : Type} `{!Gob (gval Cmd)} (laws : GobLaws (gval Cmd)).
Implicit Types (w : world Cmd) (rf : Raft Cmd).

Lemma step_applied w w' :
  (∀ i rf, nodes w !! i = Some rf → applied_ok rf) → step w w' →
  ∀ i rf, nodes w' !! i = Some rf → applied_ok rf.
Proof.
  intros Hw Hs i rf Hi. destruct Hs; simpl in Hi;
    try (apply list_lookup_insert_Some in Hi as [(-> & <- & _)|[_ Hi]]);
    eauto with raft.
  - specialize (Hw _ _ H). by destruct H0 as [->| ->].
  - exact (Hw _ _ H).
Qed.

Lemma reachable_applied n w i rf :
  reachable n w → nodes w !! i = Some rf → applied_ok rf.
Proof.
  intros Hr. revert i rf.
  apply (reachable_inv n (λ w, ∀ i rf, nodes w !! i = Some rf → applied_ok rf));
    [| |done].
  - intros i rf [_ ->]%lookup_init. done.
  - intros w1 w2 _ Hw Hs. by eapply step_applied.
Qed.

(** C11. In-order delivery: in every reachable world, the messages a peer has
    sent on its apply channel carry the indices 1, 2, ..., [LastApplied], in
    this order and without gaps. *)
Theorem apply_in_order (n : nat) w (i : nat) rf :
  reachable n w → nodes w !! i = Some rf →
  AM_Index <$> applyCh rf = seqZ 1 (LastApplied rf).
Proof. intros Hr Hi. by destruct (reachable_applied n w i rf Hr Hi). Qed.

(** ** Which handlers can panic *)

Lemma last_entry rf :
  Log rf ≠ [] → ∃ e, zget (Log rf) (zlen (Log rf) - 1) = Some e.
Proof.
  intros Hne. apply zget_is_Some. unfold zlen.
  destruct (Log rf); [done|]. simpl. lia.
Qed.

Lemma RequestVote_total args rf :
  Log rf ≠ [] → ∃ rf' reply, RequestVote args rf = Some (rf', reply).
Proof.
  intros Hne. unfold RequestVote. fold (seen_term (RV_Term args) rf).
  destruct (last_entry (seen_term (RV_Term args) rf)) as [e He].
  { by rewrite seen_term_Log. }
  case_match; [eauto|]. case_match; [eauto|]. rewrite He. simpl.
  case_match; eauto.
Qed.

Lemma AppendEntries_total args rf :
  (0 ≤ AE_PrevLogIndex args)%Z → (0 ≤ LastApplied rf)%Z →
  ∃ rf' reply, AppendEntries args rf = Some (rf', reply).
Proof.
  intros Hp Hla. unfold AppendEntries. fold (seen_term (AE_Term args) rf).
  rewrite send_ok. simpl. rewrite seen_term_Log, seen_term_CommitIndex.
  case_match; [eauto|]. case_match eqn:Hlen; [eauto|]. zbool.
  destruct (zget_is_Some (Log rf) (AE_PrevLogIndex args)) as [e He]; [lia|].
  rewrite He. simpl. case_match; [eauto|].
  destruct (slice_to (Log rf) (AE_PrevLogIndex args + 1)) as [kept|] eqn:Hk;
    simpl; last first.
  { unfold slice_to in Hk. case_match eqn:Hb; [|done].
    apply orb_true_iff in Hb as [Hb|Hb]; zbool; lia. }
  case_match; simpl; [|eauto].
  rewrite updateLastApplied_spec; [simpl; eauto| |]; simpl.
  - by rewrite seen_term_LastApplied.
  - unfold min. destruct (Z.ltb_spec (AE_LeaderCommit args)
      (zlen (kept ++ AE_Entries args) - 1)); lia.
Qed.

Lemma startElection_reply_total arg reply count rf :
  ∃ rf' count', startElection_reply arg reply count rf = Some (rf', count').
Proof.
  unfold startElection_reply. case_match; [eauto|]. case_match; [eauto|].
  rewrite send_ok. simpl.
  match goal with |- context [(?x <? ?y)%Z] => destruct (x <? y)%Z end; eauto.
Qed.

Lemma ret_Panicked {A} (o : option A) (k : A → outcome Cmd) :
  ret o k = Panicked → (∀ a, k a ≠ Panicked) → o = None.
Proof. destruct o; simpl; naive_solver. Qed.

(** The goroutines of [StartAppendLog] at the points where they index
    [NextIndex], [MatchIndex] and the leader's log. *)
Definition leader_goroutine (g : goroutine Cmd) : Prop :=
  match g with
  | GAppend _ _ | GAppendRPC _ _ _ (Replied _) => True
  | _ => False
  end.

Lemma run_goroutine_panic n w k g :
  reachable n w → pool w !! k = Some g → run_goroutine w k g = Panicked →
  leader_goroutine g.
Proof.
  intros Hr Hk Hrun.
  destruct (reachable_logs n laws w Hr) as (V & E & L & _ & HI).
  assert (∀ i rf, nodes w !! i = Some rf → Log rf ≠ []) as Hne.
  { intros i rf Hi Hnil. destruct (li_node _ _ _ _ HI _ _ Hi) as [H0 _].
    by rewrite Hnil in H0. }
  pose proof (Forall_lookup_1 _ _ _ _ (li_pool _ _ _ _ HI) Hk) as Hg.
  destruct g as [i|i term|i eid id arg [|r]|i id|i id arg [|r]]; try done;
    simpl in Hrun;
    match type of Hrun with
    | need ?o _ = _ => destruct o as [rf|] eqn:Hi; simpl in Hrun; [|done]
    end; try done.
  - unfold startElection_args in Hrun.
    destruct (last_entry rf (Hne _ _ Hi)) as [e He]. by rewrite He in Hrun.
  - destruct (RequestVote_total arg rf (Hne _ _ Hi)) as (? & ? & Hv).
    by rewrite Hv in Hrun.
  - destruct (counts w !! eid) as [c|]; simpl in Hrun; [|done].
    destruct (startElection_reply_total arg r c rf) as (? & ? & Hv).
    by rewrite Hv in Hrun.
  - destruct Hg as (_ & l & p & e & _ & Hp & _).
    destruct (AppendEntries_total arg rf) as (? & ? & Hv); [lia| |].
    + by destruct (reachable_applied n w id rf Hr Hi).
    + by rewrite Hv in Hrun.
Qed.

(** C23. The RPC handlers do not panic: an action that panics in a reachable
    world is a turn of a [StartAppendLog] goroutine, before it sends or after
    a reply; requesting votes, counting them, handling [RequestVote] and
    [AppendEntries], and the main loop never index out of range and never
    block on a channel. *)
Theorem panic_only_in_leader_goroutine (n : nat) w (a : action Cmd) :
  reachable n w → act w a = Panicked →
  ∃ k g, a = ARun k ∧ pool w !! k = Some g ∧ leader_goroutine g.
Proof.
  intros Hr Ha. destruct a as [i|i|i|i|i|i|i command|k|k]; simpl in Ha;
    try (unfold main_loop in Ha; destruct (nodes w !! i) as [rf|]; [|done];
         destruct (pcs w !! i) as [[]|]; simpl in Ha; try done;
         repeat case_match; done).
  - destruct (pool w !! k) as [g|] eqn:Hk; [|done]. simpl in Ha.
    exists k, g. split_and!; [done|done|]. by eapply run_goroutine_panic.
  - destruct (pool w !! k) as [[]|]; done.
Qed.
End reach.

Lemma apply_in_order_witness :
  ∃ rf, nodes world_replicated !! 0 = Some rf ∧ LastApplied rf = 1%Z ∧
    AM_Index <$> applyCh rf = [1%Z].
Proof.
  eexists. split; [by vm_compute|]. split; [by vm_compute|].
  rewrite (apply_in_order 3 world_replicated 0);
    [by vm_compute|apply world_replicated_reachable|by vm_compute].
Defined.
