(* ===== verification/RaftFindings.v ===== *)
(** * What the cluster of RaftSystem.v does not guarantee

    Concrete schedules, run by evaluation, that reach worlds the Raft paper
    rules out.  Each is a short sequence of critical sections and message
    deliveries of raft.go, without message loss or duplication.  The first
    needs only that a client calls [Start] while a heartbeat is in flight. *)

From S2P Require Import Prelude.
From S2P Require Import GoBase.
From S2P Require Import Persister.
From S2P Require Import Raft.
From S2P Require Import RaftSystem.
From S2P Require Import RaftDemo.
From S2P Require Import RaftElection.
From S2P Require Import RaftApply.

(** ** A reply is taken for the entries appended since the request

    [StartAppendLog_reply] sets [MatchIndex] from the length the log has when
    the reply arrives.  Peer 0 sends an empty heartbeat, then appends 1, then
    gets the heartbeat's reply and commits index 1, which nobody else has.
    Peer 1 is elected by peer 2, appends 2 at index 1 and commits it. *)

Definition early_commit : list (action nat) :=
  [ATop 0; AHeartbeat 0; ARun 0; ARun 0; AStart 0 (Some 1); ARun 0].

Definition second_leader : list (action nat) :=
  [ATop 1; ATimeout 1; AElection 1; ARun 1; ARun 1; ARun 2; ARun 2; ADrop 1;
   AStart 1 (Some 2); ATop 1; AHeartbeat 1; ARun 2; ARun 2; ARun 2].

Definition world_diverged : world nat :=
  run_from world_leader (early_commit ++ second_leader).

Lemma world_diverged_reachable : reachable 3 world_diverged.
Proof. apply run_from_reachable, world_leader_reachable. Qed.

(** C24. State machine safety fails: there is a reachable world of three peers
    in which two peers have delivered different commands for the same
    index on their apply channels. *)
Theorem state_machine_safety_fails :
  ∃ (w : world nat) rf0 rf1 m0 m1,
    reachable 3 w ∧ nodes w !! 0 = Some rf0 ∧ nodes w !! 1 = Some rf1 ∧
    m0 ∈ applyCh rf0 ∧ m1 ∈ applyCh rf1 ∧
    AM_Index m0 = AM_Index m1 ∧ AM_Command m0 ≠ AM_Command m1.
Proof.
  exists world_diverged. do 4 eexists.
  split; [apply world_diverged_reachable|].
  split; [by vm_compute|]. split; [by vm_compute|].
  split; [by vm_compute; constructor|]. split; [by vm_compute; constructor|].
  by vm_compute.
Qed.

(** ** An old heartbeat erases entries that were applied

    [AppendEntries] cuts the log behind [PrevLogIndex] whatever the message
    holds.  Peer 0 sends an empty heartbeat to peer 1 that stays in the
    network while it replicates and commits 7 at index 1 and peer 1 applies
    it; then the heartbeat arrives. *)

Definition delayed_heartbeat : list (action nat) :=
  [ATop 0; AHeartbeat 0; ARun 0; AStart 0 (Some 7);
   ATop 0; AHeartbeat 0; ARun 2; ARun 2; ARun 2;
   ATop 0; AHeartbeat 0; ARun 3; ARun 3].

Definition world_applied : world nat := run_from world_leader delayed_heartbeat.

Lemma world_applied_reachable : reachable 3 world_applied.
Proof. apply run_from_reachable, world_leader_reachable. Qed.

(** C25. Applied entries can be lost: there is a reachable world and a message
    delivery in it that removes from a peer's log an entry the peer has
    already applied. *)
Theorem applied_entry_erased :
  ∃ (w w' : world nat) k rf rf' e,
    reachable 3 w ∧ act w (ARun k) = Next w' ∧
    nodes w !! 1 = Some rf ∧ nodes w' !! 1 = Some rf' ∧
    LastApplied rf = 1%Z ∧ Log rf !! 1 = Some e ∧ Log_Command e = Some 7 ∧
    LastApplied rf' = 1%Z ∧ Log rf' !! 1 = None.
Proof.
  exists world_applied. eexists _, 0. do 3 eexists.
  split; [apply world_applied_reachable|].
  split; [by vm_compute|]. split; [by vm_compute|]. split; [by vm_compute|].
  split; [by vm_compute|]. split; [by vm_compute|]. by vm_compute.
Qed.

(** ** Two refusals of one probe drive [NextIndex] below 1

    Peer 0 appends an entry as leader of term 2, campaigns again because its
    election timer fired before it saw the vote channel, and wins term 3 with
    a log of length 2, so [NextIndex] is 2 everywhere.  Two heartbeats to
    peer 1 are refused; each refusal decrements [NextIndex]; the next turn of
    the goroutine reads [Log[-1]]. *)

Definition elect_twice : list (action nat) :=
  [ATop 0; ATimeout 0; AElection 0; ATop 0; ARun 0; ARun 0; ARun 0; ARun 0;
   ADrop 0; AStart 0 (Some 7);
   ATimeout 0; AElection 0; ARun 0; ARun 0; ARun 0; ARun 0; ADrop 0].

(** Two heartbeats, and both requests to peer 1 are sent. *)
Definition two_probes : list (action nat) :=
  [ATop 0; AHeartbeat 0; ATop 0; AHeartbeat 0; ARun 0; ARun 2].

(** Peer 1 refuses both, and the leader takes both refusals. *)
Definition two_refusals : list (action nat) := [ARun 0; ARun 2; ARun 0; ARun 2].

Definition world_probing : world nat :=
  run_from (init 3) (elect_twice ++ two_probes).

Definition world_probed : world nat := run_from world_probing two_refusals.

Lemma world_probing_reachable : reachable 3 world_probing.
Proof. apply run_from_reachable, reach_init. Defined.

Lemma world_probed_reachable : reachable 3 world_probed.
Proof. apply run_from_reachable, world_probing_reachable. Defined.

(** C26. Two refused probes make the leader panic.  There is a reachable world of
    three peers in which peer 0 is leader with [NextIndex[1]] = 2 and two of its
    goroutines have a request to peer 1 on the way; peer 1 refuses both requests,
    and the leader takes both refusals; then peer 0 is still leader with
    [NextIndex[1]] = 0, and the first of the two goroutines, back at the top of
    its loop, reads entry -1 of the leader's log, so its next turn panics. *)
Theorem leader_panic_reachable :
  ∃ (w0 w : world nat) rf0 arg rf,
    reachable 3 w0 ∧
    nodes w0 !! 0 = Some rf0 ∧ State rf0 = Leader ∧ NextIndex rf0 !! 1 = Some 2%Z ∧
    pool w0 !! 0 = Some (GAppendRPC 0 1 arg Sent) ∧
    pool w0 !! 2 = Some (GAppendRPC 0 1 arg Sent) ∧
    exec w0 [ARun 0; ARun 2; ARun 0; ARun 2] = Next w ∧
    nodes w !! 0 = Some rf ∧ State rf = Leader ∧ NextIndex rf !! 1 = Some 0%Z ∧
    pool w !! 0 = Some (GAppend 0 1) ∧
    zget (Log rf) (0 - 1) = None ∧ StartAppendLog_args 1 rf = None ∧
    act w (ARun 0) = Panicked.
Proof.
  exists world_probing, world_probed. do 3 eexists.
  split; [apply world_probing_reachable|].
  do 12 (split; [by vm_compute|]). by vm_compute.
Qed.

Lemma panic_only_in_leader_goroutine_witness :
  act world_probed (ARun 0) = Panicked ∧
  ∃ k g, ARun 0 = ARun (Cmd:=nat) k ∧ pool world_probed !! k = Some g ∧
    leader_goroutine g.
Proof.
  split; [by vm_compute|].
  apply (panic_only_in_leader_goroutine demo_gob_laws 3 world_probed (ARun 0));
    [apply world_probed_reachable|by vm_compute].
Defined.

(** ** A candidate's own vote is not persisted

    [BeCandidate] changes the term and the vote without calling [persist].
    config.go restarts a peer from a copy of what it saved: the old
    instance's goroutines can no longer communicate, and a new instance
    starts from the saved state. *)

Definition saved_after_crash (saved : Persister) : Persister :=
  SaveRaftState MakePersister (ReadRaftState (Copy saved)).

Definition restarted_peer (n i : nat) (saved : Persister) : Raft nat :=
  Make n i (Copy (saved_after_crash saved)).

Definition goroutine_of (g : goroutine nat) : nat :=
  match g with
  | GElect i | GElectTerm i _ | GVote i _ _ _ _ | GAppend i _
  | GAppendRPC i _ _ _ => i
  end.

Definition restart (n i : nat) (w : world nat) : outcome nat :=
  need (nodes w !! i) (λ rf,
  Next (mkWorld (<[i := restarted_peer n i (persister rf)]> (nodes w))
          (<[i := AtTop]> (pcs w))
          (filter (λ g, goroutine_of g ≠ i) (pool w)) (counts w))).

(** Peer 2 times out and asks peer 0, then peer 0 answers. *)
Definition elect_2 : list (action nat) :=
  [ATop 2; ATimeout 2; AElection 2; ARun 0; ARun 0; ARun 0; ARun 0].

(** C27. A restart forgets the vote a candidate gave itself: peer 0 is leader
    of term 2 in a reachable world; after it is restarted from its saved
    state, the cluster elects peer 2 as leader of the same term 2, with the
    vote of peer 0. *)
Theorem restart_elects_second_leader :
  ∃ w0 w1 w2 rf0 rf0' rf2,
    reachable 3 w0 ∧ nodes w0 !! 0 = Some rf0 ∧
    State rf0 = Leader ∧ CurrentTerm rf0 = 2%Z ∧
    restart 3 0 w0 = Next w1 ∧ exec w1 elect_2 = Next w2 ∧
    nodes w2 !! 2 = Some rf2 ∧ State rf2 = Leader ∧ CurrentTerm rf2 = 2%Z ∧
    nodes w2 !! 0 = Some rf0' ∧ VoteFor rf0' = 2%Z.
Proof.
  exists world_leader. do 5 eexists.
  split; [apply world_leader_reachable|].
  split; [by vm_compute|]. split; [by vm_compute|]. split; [by vm_compute|].
  split; [by vm_compute|]. split; [by vm_compute|]. split; [by vm_compute|].
  split; [by vm_compute|]. split; [by vm_compute|]. split; by vm_compute.
Qed.
