(* ===== verification/RaftSpec.v ===== *)
(** * What one Raft peer promises: the RPC handlers and stable storage

    Complete input/output specifications of [RequestVote] and
    [AppendEntries], the round trip of [persist] through a restart, and the
    durability of positive replies. *)

From S2P Require Import Prelude.
From S2P Require Import GoBase.
From S2P Require Import Persister.
From S2P Require Import Raft.
From S2P Require Import RaftNode.
From S2P Require Import RaftDemo.
From S2P Require Import RaftApply.

Section specs.
Context {Cmd : Type} `{!Gob (gval Cmd)}.
Implicit Types rf : Raft Cmd.

(** The candidate's log is at least as up to date as one that ends with
    [last] at index [index]: a later last term, or the same and no shorter. *)
Definition up_to_date (args : RequestVoteArgs) (last : LogEntry Cmd)
    (index : Z) : Prop :=
  (Log_Term last < RV_LastLogTerm args)%Z ∨
  (Log_Term last = RV_LastLogTerm args ∧ index ≤ RV_LastLogIndex args)%Z.

(** May the peer give its vote of the request's term to the candidate? *)
Definition free_to_vote (args : RequestVoteArgs) rf : Prop :=
  (CurrentTerm rf < RV_Term args)%Z ∨
  (CurrentTerm rf = RV_Term args ∧
   (VoteFor rf = (-1)%Z ∨ VoteFor rf = RV_CandidateId args)).

Lemma free_to_vote_seen args rf :
  free_to_vote args rf ↔
  let rf1 := seen_term (RV_Term args) rf in
  (CurrentTerm rf1 ≤ RV_Term args)%Z ∧
  (VoteFor rf1 = (-1)%Z ∨ VoteFor rf1 = RV_CandidateId args).
Proof.
  unfold free_to_vote, seen_term.
  destruct (Z.ltb_spec (CurrentTerm rf) (RV_Term args)); simpl; naive_solver lia.
Qed.

(** What a request of a term has done to the role and the vote when it is newer
    than the peer's. *)
Definition newer_state (term : Z) rf : RState :=
  if (CurrentTerm rf <? term)%Z then Follower else State rf.
Definition newer_vote (term : Z) rf : Z :=
  if (CurrentTerm rf <? term)%Z then (-1)%Z else VoteFor rf.

(** Storage [ps] after a save of a term, a vote and a log. *)
Definition saved (term vote : Z) (log : list (LogEntry Cmd)) (ps : Persister) : Persister :=
  SaveRaftState ps (gob_encode [GInt term; GInt vote; GLog log]).

(** A peer that has seen a term differs in role, term and vote. *)
Lemma seen_term_fields term rf :
  seen_term term rf =
    mkRaft (me rf) (peers rf) (persister rf) (newer_state term rf)
      (Z.max (CurrentTerm rf) term) (newer_vote term rf) (Log rf) (CommitIndex rf)
      (LastApplied rf) (NextIndex rf) (MatchIndex rf) (appendLogCh rf) (voteCh rf)
      (applyCh rf).
Proof.
  unfold seen_term, newer_state, newer_vote. destruct rf as [? ? ? ? ct]; simpl.
  destruct (Z.ltb_spec ct term).
  - by rewrite Z.max_r by lia.
  - by rewrite Z.max_l by lia.
Qed.

(** [RequestVote] on a peer whose log ends with [last] returns, and grants the
    vote exactly to a candidate that may have it. *)
Lemma RequestVote_decides args rf last :
  zget (Log rf) (zlen (Log rf) - 1) = Some last →
  ∃ rf' reply, RequestVote args rf = Some (rf', reply) ∧
    (RVR_VoteGranted reply = true ↔
       free_to_vote args rf ∧ up_to_date args last (zlen (Log rf) - 1)).
Proof.
  intros Hlast. unfold RequestVote. fold (seen_term (RV_Term args) rf).
  pose proof (free_to_vote_seen args rf) as Hfree. cbv zeta in Hfree.
  pose proof (seen_term_Log (RV_Term args) rf) as Hlog.
  set (rf1 := seen_term (RV_Term args) rf) in *. rewrite Hlog, Hlast. simpl.
  destruct (Z.ltb_spec (RV_Term args) (CurrentTerm rf1)).
  { do 2 eexists. split; [done|]. simpl. rewrite Hfree. split; [done|]. intros [[? _] _]. lia. }
  destruct (Z.eqb_spec (VoteFor rf1) (-1)) as [Hv|Hv];
    destruct (Z.eqb_spec (VoteFor rf1) (RV_CandidateId args)) as [Hc|Hc];
    simpl.
  4: { do 2 eexists. split; [done|]. simpl. rewrite Hfree. split; [done|]. naive_solver. }
  all: destruct (Z.ltb_spec (RV_LastLogTerm args) (Log_Term last)); simpl;
    [|destruct (Z.eqb_spec (RV_LastLogTerm args) (Log_Term last)); simpl;
      [destruct (Z.ltb_spec (RV_LastLogIndex args) (zlen (Log rf) - 1))|]];
    do 2 eexists; (split; [done|]); simpl; rewrite Hfree; unfold up_to_date;
    (split; [first [done | intros _; split; [auto|lia]]
            |first [done | intros [_ [?|[??]]]; lia]]).
Qed.

(** C20. [RequestVote], completely: on a peer whose log is not empty the handler
    returns.  It grants the vote exactly when the request's term is newer, or is
    the peer's term and the peer has not voted for another candidate, and the
    candidate's log is at least as up to date.  The reply carries the larger of
    the two terms, which becomes the peer's; a newer term makes it a follower
    and clears its vote.  When the vote is granted it is the candidate, voteCh is
    signalled, and term, vote and log are in stable storage; otherwise storage
    and voteCh are as before, also when the term is new.  No other field of the
    peer changes. *)
Theorem RequestVote_spec args rf last :
  zget (Log rf) (zlen (Log rf) - 1) = Some last →
  ∃ granted,
    (granted = true ↔ free_to_vote args rf ∧ up_to_date args last (zlen (Log rf) - 1)) ∧
    let term := Z.max (CurrentTerm rf) (RV_Term args) in
    let vote := if granted : bool then RV_CandidateId args
                else newer_vote (RV_Term args) rf in
    RequestVote args rf =
      Some (mkRaft (me rf) (peers rf)
              (if granted then saved term vote (Log rf) (persister rf) else persister rf)
              (newer_state (RV_Term args) rf) term vote (Log rf) (CommitIndex rf)
              (LastApplied rf) (NextIndex rf) (MatchIndex rf) (appendLogCh rf)
              (granted || voteCh rf) (applyCh rf),
            mkRVReply term granted).
Proof.
  intros Hlast. destruct (RequestVote_decides args rf last Hlast) as (rf' & reply & Hr & Hiff).
  exists (RVR_VoteGranted reply). split; [done|]. cbv zeta. rewrite Hr.
  apply RequestVote_inv in Hr as [Ht Hr]. rewrite seen_term_fields in Ht, Hr.
  destruct reply as [t g]. simpl in Ht. subst t. simpl in Hr |- *.
  by destruct Hr as [[-> ->]|(-> & _ & _ & ->)].
Qed.

(** The log and the commit index a successful [AppendEntries] leaves. *)
Definition appended (args : AppendEntriesArgs Cmd) rf : list (LogEntry Cmd) :=
  take (Z.to_nat (AE_PrevLogIndex args + 1)) (Log rf) ++ AE_Entries args.

Definition committed (args : AppendEntriesArgs Cmd) rf : Z :=
  if (CommitIndex rf <? AE_LeaderCommit args)%Z
  then Z.min (AE_LeaderCommit args) (zlen (appended args rf) - 1)
  else CommitIndex rf.

Lemma min_Z x y : min x y = Z.min x y.
Proof. unfold min. destruct (Z.ltb_spec x y); lia. Qed.

(** The commit index advances. *)
Definition advances (args : AppendEntriesArgs Cmd) rf : bool :=
  (CommitIndex rf <? AE_LeaderCommit args)%Z.

(** What a successful [AppendEntries] delivers to the service. *)
Definition delivered (args : AppendEntriesArgs Cmd) rf : list (ApplyMsg Cmd) :=
  apply_msgs (appended args rf) (LastApplied rf)
    (Z.to_nat (committed args rf - LastApplied rf)).

(** C21. [AppendEntries], completely: for a message with a previous index that is
    not negative, on a peer whose applied index is not negative, the handler
    returns.  It succeeds exactly when the message's term is not older than the
    peer's and the peer's log has an entry of the given term at the previous
    index.  The reply carries the larger of the two terms, which becomes the
    peer's; a newer term makes it a follower and clears its vote; appendLogCh is
    signalled in any case.  On success the log is the old one cut after the
    previous index, whether or not what follows conflicts with the message (the
    comments 3 and 4 in the code say that only conflicting entries are deleted),
    followed by the message's entries; the commit index follows the leader's up to
    the last entry, and then the entries up to it that were not yet applied are
    delivered in order; and term, vote and the new log are in stable storage.  On
    failure log, commit index, applied index, deliveries and storage are as
    before.  No other field of the peer changes. *)
Theorem AppendEntries_spec args rf :
  (0 ≤ AE_PrevLogIndex args)%Z → (0 ≤ LastApplied rf)%Z →
  ∃ success,
    (success = true ↔
       (CurrentTerm rf ≤ AE_Term args)%Z ∧
       ∃ pre, zget (Log rf) (AE_PrevLogIndex args) = Some pre ∧
              Log_Term pre = AE_PrevLogTerm args) ∧
    let term := Z.max (CurrentTerm rf) (AE_Term args) in
    let vote := newer_vote (AE_Term args) rf in
    let log := if success : bool then appended args rf else Log rf in
    AppendEntries args rf =
      Some (mkRaft (me rf) (peers rf)
              (if success then saved term vote log (persister rf) else persister rf)
              (newer_state (AE_Term args) rf) term vote log
              (if success then committed args rf else CommitIndex rf)
              (if success && advances args rf
               then Z.max (LastApplied rf) (committed args rf) else LastApplied rf)
              (NextIndex rf) (MatchIndex rf) true (voteCh rf)
              (applyCh rf ++ if success && advances args rf then delivered args rf else []),
            mkAEReply term success).
Proof.
  intros Hp Hla. destruct (AppendEntries_total args rf Hp Hla) as (rf' & reply & Ha).
  exists (AER_Success reply).
  split; [exact (AppendEntries_success_iff args rf rf' reply Ha)|]. cbv zeta. rewrite Ha.
  apply AppendEntries_inv in Ha as [Ht Ha]. cbv zeta in Ha. rewrite seen_term_fields in Ht, Ha.
  destruct reply as [t ok]. simpl in Ht. subst t. simpl in Ha |- *.
  destruct Ha as [[-> ->]|(-> & _ & pre & rf2 & _ & _ & -> & Hc)]; [by rewrite app_nil_r|].
  unfold advances, delivered, committed. fold (appended args rf) in Hc. simpl in Hc |- *.
  destruct Hc as [(Hlt & rf3 & Hu & ->)|[Hge ->]].
  - destruct (Z.ltb_spec (CommitIndex rf) (AE_LeaderCommit args)); [|lia].
    rewrite updateLastApplied_spec in Hu; simpl in *; rewrite ?min_Z in *; [|lia|lia].
    by injection Hu as <-.
  - destruct (Z.ltb_spec (CommitIndex rf) (AE_LeaderCommit args)); [lia|].
    by rewrite app_nil_r.
Qed.
End specs.

Section durability.
Context {Cmd : Type} `{!Gob (gval Cmd)} (laws : GobLaws (gval Cmd)).
Implicit Types rf : Raft Cmd.

(** What a peer started again from storage [ps] remembers. *)
Definition recovered (n i : nat) (ps : Persister)
    : Z * Z * list (LogEntry Cmd) :=
  let rf := Make n i ps in (CurrentTerm rf, VoteFor rf, Log rf).

Lemma recovered_persist n i rf :
  recovered n i (persister (persist rf)) = (CurrentTerm rf, VoteFor rf, Log rf).
Proof.
  unfold recovered, Make, readPersist, decode_int, decode_log, persist. simpl.
  by rewrite !gob_decode_encode.
Qed.

(** C22. Round trip of the persisted state: a peer restarted from a copy of
    what [persist] saved has the term, the vote and the log of the peer that
    saved it, and starts as a follower with nothing committed or applied. *)
Theorem persist_restart (n i : nat) rf :
  let rf' := Make n i (Copy (persister (persist rf))) in
  CurrentTerm rf' = CurrentTerm rf ∧ VoteFor rf' = VoteFor rf ∧
  Log rf' = Log rf ∧ State rf' = Follower ∧
  CommitIndex rf' = 0%Z ∧ LastApplied rf' = 0%Z.
Proof.
  pose proof (recovered_persist n i rf) as Hr. unfold recovered in Hr.
  injection Hr as Hc Hv Hl. split_and!; done.
Qed.

(** Positive replies are durable: a peer that granted its vote, or that
    accepted entries, and then crashes before doing anything else, comes back
    with that term and vote, or with that log. *)
Theorem positive_replies_durable (n i : nat) rf rf' :
  (∀ args reply, RequestVote args rf = Some (rf', reply) →
     RVR_VoteGranted reply = true →
     recovered n i (persister rf') = (RV_Term args, RV_CandidateId args, Log rf)) ∧
  (∀ args reply, AppendEntries args rf = Some (rf', reply) →
     AER_Success reply = true →
     recovered n i (persister rf') =
       (AE_Term args, VoteFor rf', appended args rf)).
Proof.
  split; intros args reply Ha Hs.
  - apply RequestVote_inv in Ha as [_ [[? _]|(_ & Ht & _ & ->)]]; [congruence|].
    rewrite recovered_persist. simpl. by rewrite Ht, seen_term_Log.
  - pose proof (AppendEntries_Log _ _ _ _ Ha) as Hlog. rewrite Hs in Hlog.
    pose proof (AppendEntries_core _ _ _ _ Ha) as Hcore.
    apply AppendEntries_inv in Ha
      as [_ [[? _]|(_ & Ht & pre & rf2 & _ & _ & -> & Hc)]]; [congruence|].
    unfold core in Hcore. injection Hcore as _ _ _ Hct _. simpl in Ht.
    destruct Hc as [(_ & rf3 & _ & ->)|[_ ->]]; rewrite recovered_persist;
      simpl in *; unfold appended; congruence.
Qed.
End durability.

(** A follower of term 2 with one entry. *)
Definition follower_example : Raft nat :=
  mkRaft 1 3 MakePersister Follower 2 (-1)
    [mkLog (-1)%Z None; mkLog 2%Z (Some 7)] 0 0 [] [] false false [].

Lemma RequestVote_spec_witness :
  ∃ rf' reply,
    RequestVote (mkRVArgs 3 0 1 2) follower_example = Some (rf', reply) ∧
    RVR_VoteGranted reply = true ∧ RVR_Term reply = 3%Z ∧
    persister rf' = saved 3 0 (Log follower_example) MakePersister.
Proof.
  destruct (RequestVote_spec (mkRVArgs 3 0 1 2) follower_example
              (mkLog 2%Z (Some 7)) ltac:(by vm_compute)) as (granted & Hiff & Hr).
  assert (granted = true) as ->.
  { apply Hiff. unfold free_to_vote, up_to_date, zlen. simpl. lia. }
  do 2 eexists. split; [exact Hr|]. split; [done|]. split; done.
Defined.

Lemma AppendEntries_spec_witness :
  ∃ rf' reply,
    AppendEntries (mkAEArgs 2 0 1 2 [mkLog 2%Z (Some 8)] 2) follower_example
      = Some (rf', reply) ∧
    AER_Success reply = true ∧ LastApplied rf' = 2%Z ∧
    AM_Command <$> applyCh rf' = [Some 7; Some 8].
Proof.
  destruct (AppendEntries_spec (mkAEArgs 2 0 1 2 [mkLog 2%Z (Some 8)] 2)
              follower_example ltac:(simpl; lia) ltac:(simpl; lia)) as (success & Hiff & Hr).
  assert (success = true) as ->.
  { apply Hiff. split; [simpl; lia|]. by eexists. }
  do 2 eexists. split; [exact Hr|]. split; [done|]. split; by vm_compute.
Defined.

Lemma persist_restart_witness :
  Log (Make 3 1 (Copy (persister (persist follower_example))))
    = Log follower_example.
Proof. apply (persist_restart demo_gob_laws 3 1 follower_example). Defined.

Lemma positive_replies_durable_witness :
  ∃ rf' reply,
    RequestVote (mkRVArgs 3 0 1 2) follower_example = Some (rf', reply) ∧
    recovered 3 1 (persister rf') = (3%Z, 0%Z, Log follower_example).
Proof.
  do 2 eexists. split; [by vm_compute|].
  eapply (positive_replies_durable demo_gob_laws 3 1 follower_example _)
    with (args := mkRVArgs 3 0 1 2); by vm_compute.
Defined.
