(* ===== verification/RaftSafety.v ===== *)
(** * Leader completeness, over the tables of a run

    The argument behind Raft's safety, apart from the transitions: a table of
    the leaders' logs [tab], the length [base] of the log that each leader was
    elected with, and [acks], how much of a term's log each peer is known to
    have held.  An entry that its own leader has seen on a majority is in the
    log of every later leader, because a voter of that leader held it and
    voted for a log that was at least as up to date as its own. *)

From S2P Require Import Prelude GoBase Persister Raft RaftSystem RaftNode.
From S2P Require Import RaftElection RaftLogs.

Record ghost (Cmd : Type) := mkGhost {
  tab : gmap Z (nat * list (LogEntry Cmd));
  base : gmap Z nat;
  acks : gmap (Z * nat) nat;
}.
Arguments mkGhost {Cmd} _ _ _.
Arguments tab {Cmd} _.
Arguments base {Cmd} _.
Arguments acks {Cmd} _.

Section ghost.
Context {Cmd : Type} (n : nat).
Implicit Types (G : ghost Cmd) (V : gmap (nat * Z) nat) (l s K : list (LogEntry Cmd)).

(** The first [e] entries of term [T]'s log end with an entry of that term. *)
Definition own G (T : Z) (e : nat) : Prop := ∃ c, base G !! T = Some c ∧ c < e.

(** If there is a leader of term [U], it was elected with the first [e] entries
    of term [T]'s log. *)
Definition contains G (T : Z) (e : nat) (U : Z) : Prop :=
  ∀ i l j m c, tab G !! T = Some (i, l) → tab G !! U = Some (j, m) →
    base G !! U = Some c → take e l `prefix_of` take c m.

Definition acked G (T : Z) (p e : nat) : Prop :=
  ∃ a, acks G !! (T, p) = Some a ∧ e ≤ a.

(** A majority has held the first [e] entries of term [T]'s log in term [T]. *)
Definition chosen G (T : Z) (e : nat) : Prop :=
  own G T e ∧ ∃ Q, majority n Q ∧ ∀ q, q ∈ Q → acked G T q e.

(** The comparison of [RequestVote]: log [K] is at least as up to date as [s]. *)
Definition at_least K s : Prop :=
  ∃ x y, last K = Some x ∧ last s = Some y ∧
    ((Log_Term y < Log_Term x)%Z ∨ Log_Term y = Log_Term x ∧ length s ≤ length K).

(** What the vote of [p] for the log [K] in term [U] tells about what [p] had
    held before: unless a leader in between did without it, it was in the log
    [p] had when it voted. *)
Definition voted_ok G (p : nat) (U : Z) K : Prop :=
  ∀ T e i l, (T < U)%Z → acked G T p e → own G T e → tab G !! T = Some (i, l) →
    (∀ U', (T < U' < U)%Z → contains G T e U') →
    ∃ s, coherent (tab G) s ∧ take e l `prefix_of` s ∧ at_least K s.

(** A leader's log: what it was elected with is of earlier terms, the rest of
    its own. *)
Definition split_at (t : Z) (c : nat) l : Prop :=
  0 < c ≤ length l ∧
  (∀ k x, l !! k = Some x → k < c → (Log_Term x < t)%Z) ∧
  (∀ k x, l !! k = Some x → c ≤ k → Log_Term x = t).

Record tables_ok V G : Prop := {
  to_base t i l : tab G !! t = Some (i, l) →
    ∃ c, base G !! t = Some c ∧ split_at t c l;
  to_log t i l : tab G !! t = Some (i, l) → (1 ≤ t)%Z ∧ coherent (tab G) l;
  to_dom t c : base G !! t = Some c → is_Some (tab G !! t);
  to_acks T p a : acks G !! (T, p) = Some a →
    ∃ i l, tab G !! T = Some (i, l) ∧ a ≤ length l;
  to_elect U j m c : tab G !! U = Some (j, m) → base G !! U = Some c →
    ∃ Q, majority n Q ∧ ∀ p, p ∈ Q → V !! (p, U) = Some j ∧ voted_ok G p U (take c m);
}.

(** ** Terms along a log *)

Section tables.
Context {V : gmap (nat * Z) nat} {G : ghost Cmd} (HG : tables_ok V G).

Lemma acked_table T p e :
  acked G T p e → ∃ i l, tab G !! T = Some (i, l) ∧ e ≤ length l.
Proof using HG.
  intros (a & Ha & He). destruct (to_acks _ _ HG _ _ _ Ha) as (i & l & ? & ?).
  exists i, l. split; [done|lia].
Qed.

Lemma table_term_le t i l k x :
  tab G !! t = Some (i, l) → l !! k = Some x → (Log_Term x ≤ t)%Z.
Proof using HG.
  intros Ht Hk. destruct (to_base _ _ HG _ _ _ Ht) as (c & _ & _ & Hlo & Hhi).
  destruct (decide (k < c)) as [Hlt|Hge].
  - specialize (Hlo _ _ Hk Hlt). lia.
  - rewrite (Hhi _ _ Hk); lia.
Qed.

Lemma coherent_terms s k k' x y :
  coherent (tab G) s → s !! k = Some x → s !! k' = Some y → k ≤ k' →
  (Log_Term x ≤ Log_Term y)%Z.
Proof using HG.
  intros [H0 Hs] Hx Hy Hle. destruct k' as [|k'].
  { assert (k = 0) as -> by lia. by simplify_eq. }
  destruct (Hs k' y Hy) as (i & l & Ht & Htake).
  rewrite (lookup_take_eq _ _ _ k Htake) in Hx by lia.
  by eapply table_term_le.
Qed.

(** The last entry of a coherent log tells which table log it is a part of. *)
Lemma coherent_last s y :
  coherent (tab G) s → last s = Some y → (1 ≤ Log_Term y)%Z →
  ∃ i l c, tab G !! Log_Term y = Some (i, l) ∧ base G !! Log_Term y = Some c ∧
    c < length s ∧ s = take (length s) l.
Proof using HG.
  intros [H0 Hs] Hy Ht. rewrite last_lookup in Hy.
  destruct (length s) as [|[|k]] eqn:Hlen; simpl in Hy.
  - by apply nil_length_inv in Hlen as ->.
  - rewrite H0 in Hy. injection Hy as <-. simpl in Ht. lia.
  - destruct (Hs k y Hy) as (i & l & HL & Htake). exists i, l.
    destruct (to_base _ _ HG _ _ _ HL) as (c & Hc & _ & Hlo & _). exists c.
    split_and!; [done..| |].
    + destruct (decide (c < S (S k))); [done|]. exfalso.
      rewrite (lookup_take_eq _ _ _ (S k) Htake) in Hy by lia.
      specialize (Hlo _ _ Hy ltac:(lia)). lia.
    + rewrite <-Htake. by rewrite take_ge by lia.
Qed.

(** The last entry of what is held of the own entries of a term. *)
Lemma own_last T e i l :
  own G T e → tab G !! T = Some (i, l) → e ≤ length l →
  ∃ x, l !! (e - 1) = Some x ∧ Log_Term x = T ∧ 0 < e.
Proof using HG.
  intros (c & Hc & Hlt) Ht He. destruct (to_base _ _ HG _ _ _ Ht) as (c' & Hc' & _ & _ & Hhi).
  simplify_eq. destruct (lookup_lt_is_Some_2 l (e - 1)) as [x Hx]; [lia|].
  exists x. split_and!; [done| |lia]. apply (Hhi _ _ Hx). lia.
Qed.

(** ** Leader completeness *)

(** One step of the induction over terms: a log at least as up to date as one
    that holds the entries holds them too. *)
Lemma at_least_contains T e i l s K U :
  own G T e → tab G !! T = Some (i, l) → e ≤ length l →
  coherent (tab G) s → take e l `prefix_of` s →
  coherent (tab G) K → (∀ x, last K = Some x → (Log_Term x < U)%Z) → at_least K s →
  (∀ U', (T < U' < U)%Z → contains G T e U') →
  take e l `prefix_of` K.
Proof using HG.
  intros Ho Ht He Hs Hpre HK HU (x & y & Hx & Hy & Hcmp) HIH.
  destruct (own_last _ _ _ _ Ho Ht He) as (z & Hz & Hzt & Hpos).
  destruct (to_log _ _ HG _ _ _ Ht) as [HT _].
  assert (e ≤ length s) as Hes.
  { apply prefix_length in Hpre. rewrite length_take in Hpre. lia. }
  assert (T ≤ Log_Term y)%Z as HTy.
  { rewrite <-Hzt. rewrite last_lookup in Hy.
    eapply (coherent_terms s (e - 1) (pred (length s)) z y); [done| |done|lia].
    eapply prefix_lookup_Some; [|done]. by rewrite lookup_take_lt by lia. }
  destruct (coherent_last K x HK Hx) as (j & m & c & Hm & Hc & Hlt & HKm); [lia|].
  rewrite HKm. destruct (decide (Log_Term x = T)) as [Hw|Hw].
  - rewrite Hw, Ht in Hm. injection Hm as <- <-.
    destruct Hcmp as [?|[_ Hlen]]; [lia|].
    apply take_prefix_le. lia.
  - specialize (HU _ Hx). trans (take c m).
    + eapply (HIH (Log_Term x)); eauto. lia.
    + apply take_prefix_le. lia.
Qed.

Theorem completeness T e U : chosen G T e → (T < U)%Z → contains G T e U.
Proof using HG.
  intros (Ho & Q & HQ & Hacks). remember (Z.to_nat (U - T)) as d eqn:Hd.
  revert U Hd. induction (lt_wf d) as [d _ IH]. intros U -> HTU i l j m c Ht Hm Hc.
  assert (∀ U', (T < U' < U)%Z → contains G T e U') as HIH.
  { intros U' HU'. eapply (IH (Z.to_nat (U' - T))); [lia|done|lia]. }
  destruct (to_elect _ _ HG _ _ _ _ Hm Hc) as (Q' & HQ' & Hvotes).
  destruct (majority_overlap n Q Q' HQ HQ') as (p & Hp & Hp').
  destruct (Hvotes p Hp') as [_ Hok].
  destruct (Hok T e i l HTU (Hacks p Hp) Ho Ht HIH) as (s & Hs & Hpre & Hal).
  destruct (acked_table _ _ _ (Hacks p Hp)) as (i' & l' & Ht' & He). simplify_eq.
  destruct (to_base _ _ HG _ _ _ Hm) as (c' & Hc' & [Hpos Hle] & Hlo & _). simplify_eq.
  destruct (to_log _ _ HG _ _ _ Hm) as [_ Hcoh].
  eapply (at_least_contains T e i l s (take c m) U); eauto.
  - eapply coherent_prefix; [apply prefix_take| |done]. rewrite length_take. lia.
  - intros x Hx. rewrite last_lookup in Hx. apply lookup_take_Some in Hx as [Hx Hlt].
    by eapply Hlo.
Qed.

(** Two chosen prefixes agree where both have an entry. *)
Lemma chosen_agree T e i l T' e' i' l' k x x' :
  chosen G T e → tab G !! T = Some (i, l) → k < e → l !! k = Some x →
  chosen G T' e' → tab G !! T' = Some (i', l') → k < e' → l' !! k = Some x' →
  x = x'.
Proof using HG.
  assert (∀ T e i l T' i' l' x x', (T < T')%Z → chosen G T e → tab G !! T = Some (i, l) →
    k < e → l !! k = Some x → tab G !! T' = Some (i', l') → l' !! k = Some x' →
    x = x') as Hwlog.
  { clear x x'. intros T1 e1 i1 l1 T2 i2 l2 x x' Hlt Hch Ht1 Hk Hx Ht2 Hx'.
    destruct (to_base _ _ HG _ _ _ Ht2) as (c & Hc & _).
    pose proof (completeness _ _ _ Hch Hlt _ _ _ _ _ Ht1 Ht2 Hc) as Hpre.
    assert (l2 !! k = Some x); [|congruence].
    eapply prefix_lookup_Some; [|apply prefix_take].
    eapply prefix_lookup_Some; [|done]. by rewrite lookup_take_lt. }
  intros. destruct (Z.lt_total T T') as [?|[->|?]]; [by eapply Hwlog| |].
  - congruence.
  - symmetry. eapply (Hwlog T' e' i' l' T i l); eauto.
Qed.
End tables.

(** ** The tables grow *)

Record grows G G' : Prop := {
  gr_tab : table_grows (tab G) (tab G');
  gr_base : base G ⊆ base G';
  gr_acks x a : acks G !! x = Some a → ∃ a', acks G' !! x = Some a' ∧ a ≤ a';
}.

Lemma grows_refl G : grows G G.
Proof. split; [apply table_grows_refl|done|eauto]. Qed.

Lemma acked_grow G G' T p e : grows G G' → acked G T p e → acked G' T p e.
Proof.
  intros HG (a & Ha & He). destruct (gr_acks _ _ HG _ _ Ha) as (a' & ? & ?).
  exists a'. split; [done|lia].
Qed.

Lemma own_grow G G' T e : grows G G' → own G T e → own G' T e.
Proof.
  intros HG (c & Hc & He). exists c. split; [|done].
  by eapply lookup_weaken, gr_base.
Qed.

Lemma chosen_grow G G' T e : grows G G' → chosen G T e → chosen G' T e.
Proof.
  intros HG (Ho & Q & HQ & Hq). split; [by eapply own_grow|].
  exists Q. eauto using acked_grow.
Qed.

Section growing.
Context {V : gmap (nat * Z) nat} {G G' : ghost Cmd}.
Context (HG : tables_ok V G) (Hgr : grows G G').

Lemma own_back T e i l : tab G !! T = Some (i, l) → own G' T e → own G T e.
Proof using HG Hgr.
  intros Ht (c & Hc & He). destruct (to_base _ _ HG _ _ _ Ht) as (c' & Hc' & _).
  exists c. split; [|done]. pose proof (lookup_weaken _ _ _ _ Hc' (gr_base _ _ Hgr)).
  congruence.
Qed.

(** A table log after growth starts as before. *)
Lemma tab_back T i l i' l' :
  tab G !! T = Some (i, l) → tab G' !! T = Some (i', l') → i' = i ∧ l `prefix_of` l'.
Proof using Hgr.
  intros Ht Ht'. destruct (gr_tab _ _ Hgr _ _ _ Ht) as (l2 & Ht2 & Hp). by simplify_eq.
Qed.

Lemma contains_back T e i l U :
  tab G !! T = Some (i, l) → e ≤ length l → contains G' T e U → contains G T e U.
Proof using HG Hgr.
  intros Ht He Hc i1 l1 j m c Ht1 Hm Hb. simplify_eq.
  destruct (gr_tab _ _ Hgr _ _ _ Ht) as (l' & Ht' & Hl).
  destruct (gr_tab _ _ Hgr _ _ _ Hm) as (m' & Hm' & Hp).
  destruct (to_base _ _ HG _ _ _ Hm) as (c' & Hc' & [_ Hle] & _). simplify_eq.
  specialize (Hc _ _ _ _ _ Ht' Hm' (lookup_weaken _ _ _ _ Hb (gr_base _ _ Hgr))).
  by rewrite (prefix_take_eq l l'), (prefix_take_eq m m') in Hc by done.
Qed.

Lemma voted_ok_grow p U K :
  (∀ T, (T < U)%Z → acks G' !! (T, p) = acks G !! (T, p)) →
  voted_ok G p U K → voted_ok G' p U K.
Proof using HG Hgr.
  intros Hfr Hok T e i' l' HTU Ha Ho Ht' HU.
  assert (acked G T p e) as Ha0.
  { destruct Ha as (a & Ha & He). rewrite Hfr in Ha by done. by exists a. }
  destruct (acked_table HG _ _ _ Ha0) as (i & l & Ht & He).
  destruct (tab_back _ _ _ _ _ Ht Ht') as [-> Hp].
  destruct (Hok T e i l) as (s & Hs & Hpre & Hal); [done..|by eapply own_back|done| |].
  { intros U' HU'. eapply contains_back; eauto. }
  exists s. rewrite (prefix_take_eq l l') by done. split_and!; [|done..].
  eapply coherent_grow; [by apply gr_tab|done].
Qed.

(** The conditions on new rows of the tables. *)
Lemma tables_ok_grow V' :
  V ⊆ V' →
  (∀ t i l, tab G' !! t = Some (i, l) →
     (1 ≤ t)%Z ∧ coherent (tab G') l ∧ ∃ c, base G' !! t = Some c ∧ split_at t c l) →
  (∀ t c, base G' !! t = Some c → is_Some (tab G' !! t)) →
  (∀ T p a, acks G' !! (T, p) = Some a →
     ∃ i l, tab G' !! T = Some (i, l) ∧ a ≤ length l) →
  (∀ q U j T, V !! (q, U) = Some j → (T < U)%Z → acks G' !! (T, q) = acks G !! (T, q)) →
  (∀ U j m c, tab G' !! U = Some (j, m) → base G' !! U = Some c → tab G !! U = None →
     ∃ Q, majority n Q ∧ ∀ p, p ∈ Q → V' !! (p, U) = Some j ∧ voted_ok G' p U (take c m)) →
  tables_ok V' G'.
Proof using HG Hgr.
  intros HV Hrow Hdom Hacks Hfr Hnew. split; [| |done|done|].
  - intros t i l Ht. by destruct (Hrow _ _ _ Ht) as (_ & _ & ?).
  - intros t i l Ht. by destruct (Hrow _ _ _ Ht) as (? & ? & _).
  - intros U j m c Hm Hc. destruct (tab G !! U) as [[j0 m0]|] eqn:Hm0; [|eauto].
    destruct (tab_back _ _ _ _ _ Hm0 Hm) as [-> Hp].
    destruct (to_base _ _ HG _ _ _ Hm0) as (c0 & Hc0 & [_ Hle] & _).
    pose proof (lookup_weaken _ _ _ _ Hc0 (gr_base _ _ Hgr)). simplify_eq.
    destruct (to_elect _ _ HG _ _ _ _ Hm0 Hc0) as (Q & HQ & Hq). exists Q. split; [done|].
    intros p Hp'. destruct (Hq p Hp') as [Hv Hok]. split; [by eapply lookup_weaken|].
    rewrite (prefix_take_eq m0 m) by done. eapply voted_ok_grow; eauto.
Qed.
End growing.
End ghost.
