(* ===== verification/RaftCommitted.v ===== *)
(** * Committed entries: what a peer's commit index and apply channel stand for

    The invariant that ties the peers and the messages of a cluster to the
    tables of RaftSafety.v: what a peer has acknowledged it still holds, votes
    went to logs that are as up to date, what a leader counts in [MatchIndex]
    was acknowledged, and everything at or below a commit index is chosen. *)

From S2P Require Import Prelude GoBase Persister Raft RaftSystem RaftNode.
From S2P Require Import RaftElection RaftLogs RaftCommit RaftApply RaftSafety.

Section committed.
Context {Cmd : Type} `{!Gob (gval Cmd)} (n : nat).
Implicit Types (G : ghost Cmd) (V : gmap (nat * Z) nat) (l : list (LogEntry Cmd)).
Implicit Types (rf : Raft Cmd) (w : world Cmd) (arg : AppendEntriesArgs Cmd).

(** The length of the log after a request has been accepted. *)
Definition arg_end arg : nat :=
  Z.to_nat (AE_PrevLogIndex arg + 1) + length (AE_Entries arg).

(** The log [l] holds all that commit index [c] covers, and it is chosen. *)
Definition safe_upto G (t : Z) l (c : Z) : Prop :=
  (c ≤ 0)%Z ∨ ∃ T e i m, (T ≤ t)%Z ∧ chosen n G T e ∧ tab G !! T = Some (i, m) ∧
    (c < Z.of_nat e)%Z ∧ take (S (Z.to_nat c)) m `prefix_of` l.

(** A delivered message carries a chosen entry. *)
Definition applied_from G (m : ApplyMsg Cmd) : Prop :=
  ∃ T e i l x, chosen n G T e ∧ tab G !! T = Some (i, l) ∧
    (AM_Index m < Z.of_nat e)%Z ∧ zget l (AM_Index m) = Some x ∧
    AM_Command m = Log_Command x.

Record node_ok V G (p : nat) rf : Prop := {
  no_ack T e i l : acked G T p e → own G T e → tab G !! T = Some (i, l) →
    (∀ U, (T < U ≤ CurrentTerm rf)%Z → contains G T e U) →
    take e l `prefix_of` Log rf;
  no_ack_term T a : acks G !! (T, p) = Some a → (T ≤ CurrentTerm rf)%Z;
  no_terms k x : Log rf !! k = Some x → (Log_Term x ≤ CurrentTerm rf)%Z;
  no_lead : State rf = Leader → acked G (CurrentTerm rf) p (length (Log rf));
  no_peers : State rf = Leader → length (MatchIndex rf) = n;
  no_match j m : State rf = Leader → MatchIndex rf !! j = Some m →
    own G (CurrentTerm rf) (S (Z.to_nat m)) →
    acked G (CurrentTerm rf) j (S (Z.to_nat m));
  no_votes q U : V !! (q, U) = Some p → (U ≤ CurrentTerm rf)%Z;
  no_cand q : State rf = Candidate → tab G !! CurrentTerm rf = None →
    V !! (q, CurrentTerm rf) = Some p → voted_ok G q (CurrentTerm rf) (Log rf);
  no_commit : safe_upto G (CurrentTerm rf) (Log rf) (CommitIndex rf);
  no_apply m : m ∈ applyCh rf → applied_from G m;
}.

Definition g_ok G (ns : list (Raft Cmd)) (g : goroutine Cmd) : Prop :=
  match g with
  | GElectTerm i term =>
      ∀ rf, ns !! i = Some rf → (term ≤ CurrentTerm rf)%Z
  | GVote i _ _ arg _ =>
      ∀ rf, ns !! i = Some rf → (RV_Term arg ≤ CurrentTerm rf)%Z ∧
        (RV_Term arg = CurrentTerm rf → State rf = Candidate →
         tab G !! CurrentTerm rf = None →
         ∃ x, last (Log rf) = Some x ∧ RV_LastLogTerm arg = Log_Term x ∧
           RV_LastLogIndex arg = (zlen (Log rf) - 1)%Z)
  | GAppendRPC i id arg st =>
      (∃ c, base G !! AE_Term arg = Some c ∧ c ≤ arg_end arg) ∧
      (∃ l, tab G !! AE_Term arg = Some (i, l) ∧
         safe_upto G (AE_Term arg) l (AE_LeaderCommit arg)) ∧
      (∀ r, st = Replied r → AER_Success r = true →
         acked G (AE_Term arg) id (arg_end arg))
  | _ => True
  end.

Record safe_inv V G w : Prop := {
  si_tables : tables_ok n V G;
  si_nodes p rf : nodes w !! p = Some rf → node_ok V G p rf;
  si_pool : Forall (g_ok G (nodes w)) (pool w);
}.

(** ** Growing tables *)

Lemma chosen_table V G T e :
  tables_ok n V G → chosen n G T e → ∃ i l, tab G !! T = Some (i, l) ∧ e ≤ length l.
Proof.
  intros HG (_ & Q & HQ & Hq). destruct (majority_nonempty n Q HQ) as [q Hin].
  eapply acked_table; eauto.
Qed.

Lemma safe_upto_prefix G t t' l l' c :
  (t ≤ t')%Z → l `prefix_of` l' → safe_upto G t l c → safe_upto G t' l' c.
Proof.
  intros Ht Hl [?|(T & e & i & m & ? & ? & ? & ? & ?)]; [by left|right].
  exists T, e, i, m. split_and!; [lia|done..|by etrans].
Qed.

Lemma safe_upto_less G t l c c' :
  (c' ≤ c)%Z → safe_upto G t l c → safe_upto G t l c'.
Proof.
  intros Hc [?|(T & e & i & m & ? & ? & ? & ? & ?)]; [left; lia|right].
  exists T, e, i, m. split_and!; [done..|lia|]. etrans; [|done].
  apply take_prefix_le. lia.
Qed.

Section grow.
Context {V : gmap (nat * Z) nat} {G G' : ghost Cmd}.
Context (HG : tables_ok n V G) (Hgr : grows G G').

Lemma safe_upto_grow t l c : safe_upto G t l c → safe_upto G' t l c.
Proof using HG Hgr.
  intros [?|(T & e & i & m & ? & Hch & Ht & Hc & Hp)]; [by left|].
  destruct (decide (c ≤ 0)%Z) as [?|Hpos]; [by left|right].
  destruct (gr_tab _ _ Hgr _ _ _ Ht) as (m' & Ht' & Hm).
  destruct (chosen_table _ _ _ _ HG Hch) as (i1 & m1 & ? & He). simplify_eq.
  exists T, e, i, m'. split_and!; [done|by eapply chosen_grow|done..|].
  rewrite (prefix_take_eq m m') by (done || lia). done.
Qed.

Lemma applied_from_grow m : applied_from G m → applied_from G' m.
Proof using HG Hgr.
  intros (T & e & i & l & x & Hch & Ht & Hlt & Hx & Hc).
  destruct (gr_tab _ _ Hgr _ _ _ Ht) as (l' & Ht' & Hl).
  exists T, e, i, l', x. split_and!; [by eapply chosen_grow|done..| |done].
  apply zget_Some in Hx as [? Hx]. apply zget_Some. split; [done|].
  by eapply prefix_lookup_Some.
Qed.

(** A peer that a step leaves alone. *)
Lemma node_ok_grow V' p rf :
  (∀ T, acks G' !! (T, p) = acks G !! (T, p)) →
  (∀ q U j T, V !! (q, U) = Some j → (T < U)%Z → acks G' !! (T, q) = acks G !! (T, q)) →
  (∀ q U, V' !! (q, U) = Some p → V !! (q, U) = Some p ∨
     (U ≤ CurrentTerm rf)%Z ∧
     (U = CurrentTerm rf → State rf = Candidate → tab G' !! CurrentTerm rf = None →
      voted_ok G' q U (Log rf))) →
  node_ok V G p rf → node_ok V' G' p rf.
Proof using HG Hgr.
  intros Hacks Hfr Hnew [A1 A2 AT A3 AP A4 A5 A6 A7 A8].
  assert (∀ T e, acked G' T p e → acked G T p e) as Hback.
  { intros T e (a & Ha & He). exists a. by rewrite <-Hacks. }
  split.
  - intros T e i' l' Ha Ho Ht' HU. apply Hback in Ha as Ha0.
    destruct (acked_table n HG _ _ _ Ha0) as (i & l & Ht & He).
    destruct (tab_back Hgr _ _ _ _ _ Ht Ht') as [-> Hp].
    rewrite (prefix_take_eq l l') by done.
    eapply A1; eauto using own_back, contains_back.
  - intros T a. rewrite Hacks. apply A2.
  - done.
  - intros Hl. eapply acked_grow; eauto.
  - done.
  - intros j m Hl Hm Ho. eapply acked_grow; [done|]. apply (A4 j m Hl Hm).
    destruct (acked_table n HG _ _ _ (A3 Hl)) as (i & l & Ht & _). by eapply own_back.
  - intros q U [?|[? _]]%Hnew; [by eapply A5|done].
  - intros q Hst HN Hv. assert (tab G !! CurrentTerm rf = None) as HN0.
    { destruct (tab G !! CurrentTerm rf) as [[i l]|] eqn:Ht; [|done].
      destruct (gr_tab _ _ Hgr _ _ _ Ht) as (? & ? & _). congruence. }
    destruct (Hnew _ _ Hv) as [Hv0|[_ Hok]]; [|by apply Hok].
    eapply voted_ok_grow; eauto.
  - by apply safe_upto_grow.
  - intros m Hm. by apply applied_from_grow, A8.
Qed.

(** The peer behind a goroutine may move on, but a candidate that is still one
    has its log. *)
Definition cand_keeps G' rf rf' : Prop :=
  (CurrentTerm rf ≤ CurrentTerm rf')%Z ∧
  (CurrentTerm rf' = CurrentTerm rf → State rf' = Candidate →
   tab G' !! CurrentTerm rf' = None → State rf = Candidate ∧ Log rf' = Log rf).

Lemma cand_keeps_refl G0 rf : cand_keeps G0 rf rf.
Proof. split; [done|auto]. Qed.

Lemma g_ok_grow ns ns' g :
  (∀ i rf', ns' !! i = Some rf' → ∃ rf, ns !! i = Some rf ∧ cand_keeps G' rf rf') →
  g_ok G ns g → g_ok G' ns' g.
Proof using HG Hgr.
  intros Hns. destruct g as [|i term|i eid id arg st| |i id arg st]; simpl; try done.
  - intros Hg rf' Hi. destruct (Hns _ _ Hi) as (rf & Hrf & Hle & _).
    specialize (Hg _ Hrf). lia.
  - intros Hg rf' Hi. destruct (Hns _ _ Hi) as (rf & Hrf & Hle & Hk).
    destruct (Hg _ Hrf) as [Hle' Harg]. split; [lia|]. intros Ht Hst HN.
    destruct Hk as [Hst0 ->]; [lia|done..|]. apply Harg; [lia|done|].
    destruct (tab G !! CurrentTerm rf) as [[j l]|] eqn:HL; [|done].
    destruct (gr_tab _ _ Hgr _ _ _ HL) as (l' & HL' & _).
    replace (CurrentTerm rf) with (CurrentTerm rf') in HL' by lia. congruence.
  - intros ((c & Hc & Hle) & (l & Ht & Hs) & Hr). split_and!.
    + exists c. split; [|done]. by eapply lookup_weaken, gr_base.
    + destruct (gr_tab _ _ Hgr _ _ _ Ht) as (l' & Ht' & Hp). exists l'. split; [done|].
      eapply safe_upto_prefix; [done|exact Hp|]. by apply safe_upto_grow.
    + intros r Hst Hsu. eapply acked_grow; eauto.
Qed.
End grow.
End committed.
