(* ===== verification/RaftCommittedSteps.v ===== *)
(** * Committed entries: the transitions

    Each kind of transition of a cluster keeps the invariant of
    RaftCommitted.v.  Two of them need the message to come in time: handling a
    request must erase no entry of the request's own term, and a positive
    reply must find the leader with the term and the log of the request. *)

From S2P Require Import Prelude GoBase Persister Raft RaftSystem RaftNode.
From S2P Require Import RaftElection RaftLogs RaftCommit RaftApply RaftSafety RaftCommitted.

Section steps.
Context {Cmd : Type} `{!Gob (gval Cmd)} (n : nat).
Implicit Types (G : ghost Cmd) (V : gmap (nat * Z) nat) (E : list election).
Implicit Types (rf : Raft Cmd) (w : world Cmd) (arg : AppendEntriesArgs Cmd).
Implicit Types (L : gmap Z (nat * list (LogEntry Cmd))) (l : list (LogEntry Cmd)).

(** ** What is new in the tables after a step of peer [p] *)

Lemma votes_new V V' E w w' p rf' q U c :
  einv n V E w → votes_from V V' w' → nodes w' = <[p := rf']> (nodes w) →
  V' !! (q, U) = Some c →
  V !! (q, U) = Some c ∨ q = p ∧ U = CurrentTerm rf' ∧ VoteFor rf' = Z.of_nat c.
Proof.
  intros HE Hfrom Hns Hv. destruct (Hfrom _ _ _ Hv) as [?|(rfq & Hq & Ht & Hvf)]; [by left|].
  rewrite Hns in Hq. apply list_lookup_insert_Some in Hq as [(-> & <- & _)|[_ Hq]]; [by right|].
  left. destruct (vn_cur _ _ _ _ (ei_nodes _ _ _ _ HE _ _ Hq)) as (c' & Hc & HV); [lia|].
  assert (c' = c) as -> by lia. by rewrite <-Ht.
Qed.

Lemma votes_same V V' E w w' p rf rf' :
  einv n V E w → V ⊆ V' → votes_from V V' w' → nodes w !! p = Some rf →
  nodes w' = <[p := rf']> (nodes w) →
  VoteFor rf' = (-1)%Z ∨ CurrentTerm rf' = CurrentTerm rf ∧ VoteFor rf' = VoteFor rf →
  V' = V.
Proof.
  intros HE Hsub Hfrom Hp Hns Hvf. apply (anti_symm (⊆)); [|done].
  apply map_subseteq_spec. intros [q U] c Hv.
  destruct (votes_new _ _ _ _ _ _ _ _ _ _ HE Hfrom Hns Hv) as [?|(-> & -> & Hc)]; [done|].
  destruct Hvf as [?|[Ht Hvf]]; [lia|].
  destruct (vn_cur _ _ _ _ (ei_nodes _ _ _ _ HE _ _ Hp)) as (c' & Hc' & HV); [lia|].
  assert (c' = c) as -> by lia. by rewrite Ht.
Qed.

Lemma votes_same_nodes V V' E w w' :
  einv n V E w → V ⊆ V' → votes_from V V' w' → nodes w' = nodes w → V' = V.
Proof.
  intros HE Hsub Hfrom Hns. apply (anti_symm (⊆)); [|done].
  apply map_subseteq_spec. intros [q U] c Hv.
  destruct (Hfrom _ _ _ Hv) as [?|(rfq & Hq & Ht & Hvf)]; [done|]. rewrite Hns in Hq.
  destruct (vn_cur _ _ _ _ (ei_nodes _ _ _ _ HE _ _ Hq)) as (c' & Hc & HV); [lia|].
  assert (c' = c) as -> by lia. by rewrite <-Ht.
Qed.

Lemma table_new V V' L L' w w' p rf' t j l :
  log_inv n V L w → log_inv n V' L' w' → table_grows L L' →
  table_from L L' (nodes w') → nodes w' = <[p := rf']> (nodes w) →
  L' !! t = Some (j, l) →
  L !! t = Some (j, l) ∨ j = p ∧ State rf' = Leader ∧ t = CurrentTerm rf' ∧ l = Log rf'.
Proof.
  intros HI HI' Hg Hfrom Hns HL.
  destruct (Hfrom _ _ _ HL) as [?|(rfj & Hj & Hst & Ht)]; [by left|].
  pose proof (li_lead _ _ _ _ HI' _ _ Hj Hst) as HL'. rewrite Ht in HL'.
  rewrite HL in HL'. injection HL' as ->. rewrite Hns in Hj.
  apply list_lookup_insert_Some in Hj as [(-> & <- & _)|[_ Hj]]; [by right|left].
  rewrite <-Ht. by eapply HI.
Qed.

Lemma table_eq L L' :
  table_grows L L' → (∀ t j l, L' !! t = Some (j, l) → L !! t = Some (j, l)) → L' = L.
Proof.
  intros Hg Hb. apply map_eq. intros t. destruct (L !! t) as [[j l]|] eqn:HL.
  - destruct (Hg _ _ _ HL) as (l' & HL' & _). pose proof (Hb _ _ _ HL'). congruence.
  - destruct (L' !! t) as [[j l]|] eqn:HL'; [|done]. apply Hb in HL'. congruence.
Qed.

Lemma table_same V V' L L' w w' p rf rf' :
  log_inv n V L w → log_inv n V' L' w' → table_grows L L' →
  table_from L L' (nodes w') → nodes w !! p = Some rf →
  nodes w' = <[p := rf']> (nodes w) →
  (State rf' = Leader →
     State rf = Leader ∧ CurrentTerm rf' = CurrentTerm rf ∧ Log rf' = Log rf) →
  L' = L.
Proof.
  intros HI HI' Hg Hfrom Hp Hns Hl. apply table_eq; [done|]. intros t j l HL.
  destruct (table_new _ _ _ _ _ _ _ _ _ _ _ HI HI' Hg Hfrom Hns HL)
    as [?|(-> & Hst & -> & ->)]; [done|].
  destruct (Hl Hst) as (Hst' & -> & ->). by eapply HI.
Qed.

Lemma table_same_nodes V V' L L' w w' :
  log_inv n V L w → log_inv n V' L' w' → table_grows L L' →
  table_from L L' (nodes w') → nodes w' = nodes w → L' = L.
Proof.
  intros HI HI' Hg Hfrom Hns. apply table_eq; [done|]. intros t j l HL.
  destruct (Hfrom _ _ _ HL) as [?|(rfj & Hj & Hst & Ht)]; [done|].
  pose proof (li_lead _ _ _ _ HI' _ _ Hj Hst) as HL'. rewrite Ht, HL in HL'.
  injection HL' as ->. rewrite Hns in Hj. rewrite <-Ht. by eapply HI.
Qed.

(** ** Building the invariant of the next world *)

Lemma safe_pool V G w pcs' pl cs :
  safe_inv n V G w → Forall (g_ok n G (nodes w)) pl →
  safe_inv n V G (mkWorld (nodes w) pcs' pl cs).
Proof. intros [] ?. by split. Qed.

Lemma safe_pool_insert V G w pcs' k g cs :
  safe_inv n V G w → g_ok n G (nodes w) g →
  safe_inv n V G (mkWorld (nodes w) pcs' (<[k := g]> (pool w)) cs).
Proof. intros HI Hg. apply safe_pool, Forall_insert; auto. apply HI. Qed.

Lemma safe_pool_delete V G w pcs' k cs :
  safe_inv n V G w → safe_inv n V G (mkWorld (nodes w) pcs' (delete k (pool w)) cs).
Proof. intros HI. apply safe_pool, Forall_delete; auto. apply HI. Qed.

(** Peer [p] changes, and with it its rows of the tables. *)
Lemma safe_upd V V' G G' w p rf rf' pcs' cs :
  safe_inv n V G w → nodes w !! p = Some rf → grows G G' → tables_ok n V' G' →
  (∀ q T, q ≠ p → acks G' !! (T, q) = acks G !! (T, q)) →
  (∀ q U j T, V !! (q, U) = Some j → (T < U)%Z → acks G' !! (T, q) = acks G !! (T, q)) →
  (∀ q U c rfc, V' !! (q, U) = Some c → c ≠ p → nodes w !! c = Some rfc →
     V !! (q, U) = Some c ∨ (U ≤ CurrentTerm rfc)%Z ∧
       (U = CurrentTerm rfc → State rfc = Candidate → tab G' !! CurrentTerm rfc = None →
        voted_ok G' q U (Log rfc))) →
  cand_keeps G' rf rf' → node_ok n V' G' p rf' →
  safe_inv n V' G' (mkWorld (<[p := rf']> (nodes w)) pcs' (pool w) cs).
Proof.
  intros [HT Hn Hpool] Hp Hgr HT' Hacks Hfr Hnew Hcand Hok. split; simpl; [done| |].
  - intros q rfq [(-> & <- & _)|[Hne Hq]]%list_lookup_insert_Some; [done|].
    eapply (node_ok_grow n HT Hgr); eauto.
  - eapply Forall_impl; [exact Hpool|]. intros g. apply (g_ok_grow n HT Hgr).
    intros i rfi [(-> & <- & _)|[Hne Hi]]%list_lookup_insert_Some; [by eauto|].
    exists rfi. split; [done|apply cand_keeps_refl].
Qed.

(** The tables stay. *)
Lemma safe_upd_same V G w p rf rf' pcs' cs :
  safe_inv n V G w → nodes w !! p = Some rf → cand_keeps G rf rf' →
  node_ok n V G p rf' →
  safe_inv n V G (mkWorld (<[p := rf']> (nodes w)) pcs' (pool w) cs).
Proof.
  intros HI Hp Hc Hok. eapply safe_upd; eauto using grows_refl. apply HI.
Qed.

(** A change that affects no log, commit index or delivery and makes nobody
    candidate or leader. *)
Definition neutral rf rf' : Prop :=
  (CurrentTerm rf ≤ CurrentTerm rf')%Z ∧ Log rf' = Log rf ∧
  CommitIndex rf' = CommitIndex rf ∧ applyCh rf' = applyCh rf ∧
  (State rf' = Follower ∨
   State rf' = State rf ∧ CurrentTerm rf' = CurrentTerm rf ∧ MatchIndex rf' = MatchIndex rf).

Lemma neutral_seen t rf : neutral rf (seen_term t rf).
Proof.
  unfold seen_term. destruct (Z.ltb_spec (CurrentTerm rf) t); split_and!; simpl; auto; lia.
Qed.

Lemma node_ok_neutral V G p rf rf' :
  neutral rf rf' → node_ok n V G p rf → node_ok n V G p rf'.
Proof.
  intros (Ht & Hl & Hc & Ha & Hst) [A1 A2 AT A3 AP A4 A5 A6 A7 A8].
  assert (∀ st, st ≠ Follower → State rf' = st →
    State rf = st ∧ CurrentTerm rf' = CurrentTerm rf ∧ MatchIndex rf' = MatchIndex rf) as Hkeep.
  { intros st Hne Hst'. destruct Hst as [?|(? & ? & ?)]; [congruence|].
    split_and!; congruence. }
  split; rewrite ?Hl, ?Ha, ?Hc; auto.
  - intros T e i l Hack Ho HT HU. eapply A1; eauto. intros U HU'. apply HU. lia.
  - intros T a Hack. apply A2 in Hack. lia.
  - intros k x Hk. apply AT in Hk. lia.
  - intros Hld. destruct (Hkeep Leader ltac:(done) Hld) as (? & -> & _). auto.
  - intros Hld. destruct (Hkeep Leader ltac:(done) Hld) as (? & _ & ->). auto.
  - intros j m Hld. destruct (Hkeep Leader ltac:(done) Hld) as (? & -> & ->). auto.
  - intros q U Hv. apply A5 in Hv. lia.
  - intros q Hcd. destruct (Hkeep Candidate ltac:(done) Hcd) as (? & -> & _). auto.
  - eapply safe_upto_prefix; [exact Ht|done|exact A7].
Qed.

Lemma neutral_keeps G rf rf' : neutral rf rf' → cand_keeps G rf rf'.
Proof.
  intros (Ht & Hl & _ & _ & Hst). split; [done|]. intros _ Hc _.
  destruct Hst as [?|[? _]]; [congruence|]. split; congruence.
Qed.

Lemma safe_neutral V G w p rf rf' pcs' cs :
  safe_inv n V G w → nodes w !! p = Some rf → neutral rf rf' →
  safe_inv n V G (mkWorld (<[p := rf']> (nodes w)) pcs' (pool w) cs).
Proof.
  intros HI Hp Hn. eapply safe_upd_same; eauto using neutral_keeps.
  eapply node_ok_neutral; [done|by apply HI].
Qed.
(** ** Elections *)

Lemma tables_ok_votes V V' G : V ⊆ V' → tables_ok n V G → tables_ok n V' G.
Proof.
  intros Hsub [T1 T2 T3 TD T4]. split; auto. intros U j m c Hm Hc.
  destruct (T4 _ _ _ _ Hm Hc) as (Q & HQ & Hq). exists Q. split; [done|].
  intros q Hin. destruct (Hq q Hin). split; [by eapply lookup_weaken|done].
Qed.

Lemma coherent_nonempty L l : coherent L l → ∃ x, last l = Some x.
Proof.
  intros [H0 _]. destruct (last l) as [x|] eqn:Hx; [eauto|].
  by apply last_None in Hx as ->.
Qed.

(** What a peer holds of its acknowledgements when it votes in term [U]. *)
Lemma voted_ok_now V G p rf U K :
  node_ok n V G p rf → coherent (tab G) (Log rf) → at_least K (Log rf) →
  (CurrentTerm rf ≤ U)%Z → (CurrentTerm rf = U → tab G !! U = None) →
  voted_ok G p U K.
Proof.
  intros Hok Hcoh Hal Hle HN T e i l HTU Ha Ho Ht HU. exists (Log rf).
  split_and!; [done| |done]. eapply no_ack; eauto. intros U' HU'.
  destruct (decide (U' = U)) as [->|Hne]; [|apply HU; lia].
  intros i1 l1 j m c _ Hm _. rewrite HN in Hm by lia. done.
Qed.

Lemma safe_candidate V V' E G w i rf pcs' cs :
  einv n V E w → log_inv n V (tab G) w → safe_inv n V G w → nodes w !! i = Some rf →
  V ⊆ V' →
  (∀ q U c, V' !! (q, U) = Some c → V !! (q, U) = Some c ∨
     q = i ∧ U = (CurrentTerm rf + 1)%Z ∧ c = i) →
  safe_inv n V' G (mkWorld (<[i := BeCandidate rf]> (nodes w)) pcs' (pool w) cs).
Proof.
  intros HE HI HS Hi Hsub Hnew. pose proof (si_nodes _ _ _ _ HS _ _ Hi) as Hok.
  pose proof (li_node _ _ _ _ HI _ _ Hi) as Hcoh.
  eapply safe_upd; [done|done|apply grows_refl|by eapply tables_ok_votes, HS|done|done|..].
  - intros q U c rfc Hv Hne _. destruct (Hnew _ _ _ Hv) as [?|(_ & _ & ?)]; [by left|done].
  - split; simpl; [lia|]. intros. lia.
  - pose proof Hok as [A1 A2 AT A3 AP A4 A5 A6 A7 A8]. split; simpl; try done.
    + intros T e i' l Ha Ho Ht HU. eapply A1; eauto. intros U ?. apply HU. lia.
    + intros T a Ha%A2. lia.
    + intros k x Hk%AT. lia.
    + intros q U Hv. destruct (Hnew _ _ _ Hv) as [Hv0|(_ & -> & _)]; [|lia].
      apply A5 in Hv0. lia.
    + intros q _ HN Hv. destruct (Hnew _ _ _ Hv) as [Hv0|(-> & _ & _)].
      { apply A5 in Hv0. lia. }
      eapply voted_ok_now; [exact Hok|done| |lia|lia].
      destruct (coherent_nonempty _ _ Hcoh) as [x Hx]. exists x, x. auto.
    + eapply safe_upto_prefix; [|done|exact A7]. simpl. lia.
Qed.

(** What [RequestVote] checks before it grants a vote. *)
Lemma RequestVote_granted (arg : RequestVoteArgs) rf rf' reply x :
  RequestVote arg rf = Some (rf', reply) → RVR_VoteGranted reply = true →
  last (Log rf) = Some x →
  (Log_Term x < RV_LastLogTerm arg)%Z ∨
  Log_Term x = RV_LastLogTerm arg ∧ (zlen (Log rf) - 1 ≤ RV_LastLogIndex arg)%Z.
Proof.
  unfold RequestVote. fold (seen_term (RV_Term arg) rf). intros Hr Hg Hx.
  rewrite seen_term_Log in Hr.
  case_match; [run_opt; by subst|]. case_match; [run_opt; by subst|].
  apply bind_Some in Hr as (y & Hy & Hr).
  assert (y = x) as ->.
  { apply zget_Some in Hy as [Hpos Hy]. rewrite last_lookup in Hx. unfold zlen in *.
    replace (Z.to_nat (Z.of_nat (length (Log rf)) - 1)) with (pred (length (Log rf))) in Hy
      by lia. congruence. }
  case_match eqn:Hcmp; [run_opt; by subst|].
  apply orb_false_iff in Hcmp as [H1 H2]. zbool.
  apply andb_false_iff in H2 as [H2|H2]; zbool; lia.
Qed.

Lemma RequestVote_neutral (arg : RequestVoteArgs) rf rf' reply :
  RequestVote arg rf = Some (rf', reply) → neutral rf rf'.
Proof.
  intros [_ [[_ ->]|(_ & _ & _ & ->)]]%RequestVote_inv;
    destruct (neutral_seen (RV_Term arg) rf) as (? & ? & ? & ? & ?); by split_and!.
Qed.

Lemma safe_vote_request V V' E E' G w w' k i eid id (arg : RequestVoteArgs) rf rf' reply :
  einv n V E w → einv n V' E' w' → log_inv n V (tab G) w → safe_inv n V G w →
  V ⊆ V' → votes_from V V' w' →
  pool w !! k = Some (GVote i eid id arg Sent) → nodes w !! id = Some rf →
  RequestVote arg rf = Some (rf', reply) →
  w' = mkWorld (<[id := rf']> (nodes w)) (pcs w)
         (<[k := GVote i eid id arg (Replied reply)]> (pool w)) (counts w) →
  safe_inv n V' G w'.
Proof.
  intros HE HE' HI HS Hsub Hfrom Hk Hid Hr ->.
  pose proof (Forall_lookup_1 _ _ _ _ (si_pool _ _ _ _ HS) Hk) as Hg. simpl in Hg.
  pose proof (Forall_lookup_1 _ _ _ _ (ei_pool _ _ _ _ HE) Hk) as (Hcid & _ & Hne & _).
  pose proof (RequestVote_neutral _ _ _ _ Hr) as Hneu.
  pose proof (si_nodes _ _ _ _ HS _ _ Hid) as Hok.
  pose proof (li_node _ _ _ _ HI _ _ Hid) as Hcoh.
  assert (∀ q U c, V' !! (q, U) = Some c → V !! (q, U) = Some c ∨
    q = id ∧ c = i ∧ U = RV_Term arg ∧ RVR_VoteGranted reply = true ∧
    (CurrentTerm rf ≤ U)%Z) as Hnew.
  { intros q U c Hv.
    destruct (votes_new _ _ _ _ _ _ _ _ _ _ HE Hfrom eq_refl Hv) as [?|(-> & -> & Hc)];
      [by left|].
    apply RequestVote_inv in Hr as [_ [[_ ->]|(Hgr & Ht & _ & ->)]].
    - left. unfold seen_term in *. case_match; simpl in *; [lia|].
      destruct (vn_cur _ _ _ _ (ei_nodes _ _ _ _ HE _ _ Hid)) as (c' & Hc' & HV); [lia|].
      by assert (c' = c) as -> by lia.
    - right. simpl in *. rewrite Ht. split_and!; [done|lia|done|done|].
      rewrite <-Ht, seen_term_CurrentTerm. lia. }
  apply (safe_pool_insert _ _
    (mkWorld (<[id := rf']> (nodes w)) (pcs w) (pool w) (counts w))).
  - eapply (safe_upd V V' G G w id); [done|done|apply grows_refl|by eapply tables_ok_votes, HS
      |done|done| |by apply neutral_keeps|].
    + intros q U c rfc Hv _ Hc. destruct (Hnew _ _ _ Hv) as [?|(-> & -> & -> & Hgr & Hle)];
        [by left|right].
      destruct (Hg _ Hc) as [Hle' Harg]. split; [done|]. intros Ht Hst HN.
      destruct (Harg Ht Hst HN) as (x & Hx & Hlt & Hli).
      destruct (coherent_nonempty _ _ Hcoh) as [y Hy].
      eapply voted_ok_now; [exact Hok|done| |done|by intros _; rewrite Ht].
      pose proof (RequestVote_granted _ _ _ _ _ Hr Hgr Hy) as Hcmp.
      exists x, y. split_and!; [done..|]. unfold zlen in *. lia.
    + apply (node_ok_neutral V' G id rf rf' Hneu).
      eapply (node_ok_grow n (si_tables _ _ _ _ HS) (grows_refl G) V' id rf);
        [done|done| |done].
      intros q U Hv. destruct (Hnew _ _ _ Hv) as [?|(_ & Hc & _)]; [by left|done].
  - simpl. intros rfi [(-> & <- & _)|[_ Hi]]%list_lookup_insert_Some; [done|]. by apply Hg.
Qed.
(** ** New entries and new leaders *)

(** The acknowledgement of [p] for the first [a] entries of term [T]. *)
Definition add_ack (T : Z) (p a : nat) (A : gmap (Z * nat) nat) : gmap (Z * nat) nat :=
  <[(T, p) := default 0 (A !! (T, p)) `max` a]> A.

Lemma add_ack_grows T p a A x b :
  A !! x = Some b → ∃ b', add_ack T p a A !! x = Some b' ∧ b ≤ b'.
Proof.
  intros Hx. unfold add_ack. destruct (decide (x = (T, p))) as [->|Hne].
  - rewrite lookup_insert_eq, Hx. eexists. split; [done|]. simpl. lia.
  - rewrite lookup_insert_ne by done. eauto.
Qed.

Lemma add_ack_other T p a A U q :
  (U, q) ≠ (T, p) → add_ack T p a A !! (U, q) = A !! (U, q).
Proof. intros Hne. by apply lookup_insert_ne. Qed.

Lemma add_ack_acked L b T p a A e :
  e ≤ a → acked (mkGhost L b (add_ack T p a A)) T p e.
Proof.
  intros He. exists (default 0 (A !! (T, p)) `max` a). simpl. unfold add_ack.
  rewrite lookup_insert_eq. split; [done|lia].
Qed.

(** Acknowledgements of the current term do not touch the votes of the past. *)
Lemma add_ack_frozen V E w p rf a A q U j T :
  einv n V E w → nodes w !! p = Some rf →
  V !! (q, U) = Some j → (T < U)%Z →
  add_ack (CurrentTerm rf) p a A !! (T, q) = A !! (T, q).
Proof.
  intros HE Hp Hv HTU. apply add_ack_other. intros [= -> ->].
  apply (vn_old _ _ _ _ (ei_nodes _ _ _ _ HE _ _ Hp)) in Hv as [? _]. lia.
Qed.

Lemma add_ack_bound V G T p a L b i l :
  tables_ok n V G → table_grows (tab G) L → L !! T = Some (i, l) → a ≤ length l →
  ∀ T' p' a', acks (mkGhost L b (add_ack T p a (acks G))) !! (T', p') = Some a' →
  ∃ i' l', L !! T' = Some (i', l') ∧ a' ≤ length l'.
Proof.
  intros HT Hg HL Ha T' p' a' Hack. simpl in Hack.
  assert (∀ a0, acks G !! (T', p') = Some a0 →
    ∃ i' l', L !! T' = Some (i', l') ∧ a0 ≤ length l') as Hold.
  { intros a0 Ha0. destruct (to_acks _ _ _ HT _ _ _ Ha0) as (i0 & l0 & Ht0 & Hle).
    destruct (Hg _ _ _ Ht0) as (l1 & HL1 & Hp). exists i0, l1. split; [done|].
    apply prefix_length in Hp. lia. }
  unfold add_ack in Hack. apply lookup_insert_Some in Hack as [[[= <- <-] <-]|[_ ?]]; [|eauto].
  exists i, l. split; [done|]. destruct (acks G !! (T, p)) as [a0|] eqn:Ha0; simpl; [|lia].
  destruct (Hold _ eq_refl) as (i' & l' & ? & ?). simplify_eq. lia.
Qed.

Lemma split_at_snoc t c l x :
  split_at t c l → Log_Term x = t → split_at t c (l ++ [x]).
Proof.
  intros ([Hpos Hle] & Hlo & Hhi) Hx. split_and!; [done|rewrite length_app; simpl; lia|..];
    intros k y Hk Hc.
  - apply (Hlo k); [|done]. by rewrite lookup_app_l in Hk by lia.
  - apply lookup_app_Some in Hk as [Hk|[_ Hk]]; [by eapply Hhi|].
    apply list_lookup_singleton_Some in Hk as [_ <-]. done.
Qed.
(** What [p] still holds when its log has grown and it has acknowledged more
    of its current term. *)
Lemma no_ack_grow V G G' p rf rf' :
  tables_ok n V G → grows G G' → node_ok n V G p rf →
  (∀ T, T ≠ CurrentTerm rf' → acks G' !! (T, p) = acks G !! (T, p)) →
  (CurrentTerm rf ≤ CurrentTerm rf')%Z → Log rf `prefix_of` Log rf' →
  (∀ e i l, acked G' (CurrentTerm rf') p e → own G' (CurrentTerm rf') e →
     tab G' !! CurrentTerm rf' = Some (i, l) → take e l `prefix_of` Log rf') →
  ∀ T e i l, acked G' T p e → own G' T e → tab G' !! T = Some (i, l) →
    (∀ U, (T < U ≤ CurrentTerm rf')%Z → contains G' T e U) → take e l `prefix_of` Log rf'.
Proof.
  intros HT Hgr Hok Hacks Hle Hpre Hcur T e i l Ha Ho Ht HU.
  destruct (decide (T = CurrentTerm rf')) as [->|Hne]; [eauto|].
  assert (acked G T p e) as Ha0.
  { destruct Ha as (a & Ha & He). exists a. by rewrite <-Hacks. }
  destruct (acked_table n HT _ _ _ Ha0) as (i0 & l0' & Ht0 & He).
  destruct (tab_back Hgr _ _ _ _ _ Ht0 Ht) as [-> Hp].
  rewrite (prefix_take_eq l0' l) by done. etrans; [|exact Hpre].
  eapply (no_ack _ _ _ _ _ Hok); eauto using own_back.
  intros U HU'. eapply (contains_back n HT Hgr); [done..|]. apply HU. lia.
Qed.

Lemma safe_start V E G L' w i rf command pcs' cs :
  let rf' := (Start command rf).1 in
  let G' := mkGhost L' (base G)
              (add_ack (CurrentTerm rf) i (length (Log rf')) (acks G)) in
  einv n V E w → log_inv n V (tab G) w → safe_inv n V G w → nodes w !! i = Some rf →
  State rf = Leader → table_grows (tab G) L' →
  (∀ t j l, L' !! t = Some (j, l) → (1 ≤ t)%Z ∧ coherent L' l) →
  (∀ t j l, L' !! t = Some (j, l) → tab G !! t = Some (j, l) ∨
     j = i ∧ t = CurrentTerm rf ∧ l = Log rf') →
  L' !! CurrentTerm rf = Some (i, Log rf') →
  safe_inv n V G' (mkWorld (<[i := rf']> (nodes w)) pcs' (pool w) cs).
Proof.
  intros rf' G' HE HI HS Hi Hl Hg Hrows Hnew HL'.
  pose proof (si_nodes _ _ _ _ HS _ _ Hi) as Hok. pose proof (si_tables _ _ _ _ HS) as HT.
  pose proof (li_lead _ _ _ _ HI _ _ Hi Hl) as HL.
  assert (rf' = persist (set_Log (Log rf ++ [mkLog (CurrentTerm rf) command]) rf)) as Hrf'.
  { unfold rf', Start. by rewrite bool_decide_true. }
  assert (grows G G') as Hgr.
  { split; [done|done|]. intros x a Ha. by apply add_ack_grows. }
  assert (Log rf `prefix_of` Log rf') as Hpre by (rewrite Hrf'; by apply prefix_app_r).
  eapply safe_upd; [done|done|exact Hgr| | | |by left| |].
  - eapply (tables_ok_grow n HT Hgr); [done| | | | |].
    + intros t j l Ht. destruct (Hrows _ _ _ Ht) as [? ?]. split_and!; [done..|].
      destruct (Hnew _ _ _ Ht) as [Ht0|(-> & -> & ->)].
      * by apply (to_base _ _ _ HT) in Ht0.
      * destruct (to_base _ _ _ HT _ _ _ HL) as (c & Hc & Hsp). exists c. split; [done|].
        rewrite Hrf'. by apply split_at_snoc.
    + intros t c [[j l] Ht]%(to_dom _ _ _ HT). destruct (Hg _ _ _ Ht) as (l' & ? & _). eauto.
    + by eapply add_ack_bound.
    + intros. by eapply add_ack_frozen.
    + intros U j m c Hm _ HN. destruct (Hnew _ _ _ Hm) as [?|(_ & -> & _)]; congruence.
  - intros q T Hq. apply add_ack_other. congruence.
  - intros. by eapply add_ack_frozen.
  - rewrite Hrf'. split; simpl; [done|congruence].
  - assert (CurrentTerm rf' = CurrentTerm rf) as Hct by by rewrite Hrf'.
    pose proof Hok as [A1 A2 AT A3 AP A4 A5 A6 A7 A8]. split.
    + eapply (no_ack_grow V G G' i rf); [done|done|exact Hok| |by rewrite Hct|done|].
      * intros T HTne. apply add_ack_other. congruence.
      * rewrite Hct. intros e j l _ _ Ht. simpl in Ht. rewrite HL' in Ht. injection Ht as <- <-.
        apply prefix_take.
    + intros T a Ha. rewrite Hct. simpl in Ha. unfold add_ack in Ha.
      apply lookup_insert_Some in Ha as [[[= <-] _]|[_ ?]]; [done|by eapply A2].
    + rewrite Hct, Hrf'. simpl. intros k x [Hk|[_ Hk]]%lookup_app_Some; [by eapply AT|].
      by apply list_lookup_singleton_Some in Hk as [_ <-].
    + intros _. rewrite Hct. by apply add_ack_acked.
    + intros _. rewrite Hrf'. by apply AP.
    + rewrite Hct. intros j m _ Hm Ho. rewrite Hrf' in Hm. simpl in Hm.
      eapply acked_grow; [done|]. apply (A4 j m Hl Hm). by eapply (own_back n HT Hgr).
    + intros q U Hv. rewrite Hct. by eapply A5.
    + intros q Hst. rewrite Hrf' in Hst. simpl in Hst. congruence.
    + rewrite Hct. replace (CommitIndex rf') with (CommitIndex rf) by by rewrite Hrf'.
      eapply safe_upto_prefix; [done|exact Hpre|]. by eapply (safe_upto_grow n HT Hgr).
    + intros m Hm. rewrite Hrf' in Hm. eapply (applied_from_grow n HT Hgr). by apply A8.
Qed.

(** The election adds a row to the tables: the winner's log, which its voters
    vouch for. *)
Lemma elected_tables V E G L' w i rf :
  let G' := mkGhost L' (<[CurrentTerm rf := length (Log rf)]> (base G))
              (add_ack (CurrentTerm rf) i (length (Log rf)) (acks G)) in
  einv n V E w → log_inv n V (tab G) w → safe_inv n V G w → nodes w !! i = Some rf →
  State rf = Candidate → elected n V i (CurrentTerm rf) → table_grows (tab G) L' →
  (∀ t j l, L' !! t = Some (j, l) → (1 ≤ t)%Z ∧ coherent L' l) →
  (∀ t j l, L' !! t = Some (j, l) → tab G !! t = Some (j, l) ∨
     j = i ∧ t = CurrentTerm rf ∧ l = Log rf) →
  L' !! CurrentTerm rf = Some (i, Log rf) →
  grows G G' ∧ tables_ok n V G'.
Proof.
  intros G' HE HI HS Hi Hst Hel Hg Hrows Hnew HL'.
  pose proof (si_nodes _ _ _ _ HS _ _ Hi) as Hok. pose proof (si_tables _ _ _ _ HS) as HT.
  pose proof Hok as [A1 A2 AT A3 AP A4 A5 A6 A7 A8].
  assert (tab G !! CurrentTerm rf = None) as HN.
  { destruct (tab G !! CurrentTerm rf) as [[j l]|] eqn:HL; [exfalso|done].
    assert (j = i) as -> by (eapply elected_unique; [by eapply (li_elected _ _ _ _ HI)|done]).
    by eapply (li_owner _ _ _ _ HI). }
  assert (base G !! CurrentTerm rf = None) as HbN.
  { destruct (base G !! CurrentTerm rf) as [c|] eqn:Hc; [|done].
    apply (to_dom _ _ _ HT) in Hc as [? ?]. congruence. }
  assert (grows G G') as Hgr.
  { split; [done|by apply insert_subseteq|]. intros x a Ha. by apply add_ack_grows. }
  split; [exact Hgr|].
  eapply (tables_ok_grow n HT Hgr); [done| | | | |].
  - intros t j l Ht. destruct (Hrows _ _ _ Ht) as [? ?]. split_and!; [done..|].
    destruct (Hnew _ _ _ Ht) as [Ht0|(-> & -> & ->)].
    + apply (to_base _ _ _ HT) in Ht0 as (c & Hc & ?). exists c.
      simpl. by rewrite lookup_insert_ne by congruence.
    + exists (length (Log rf)). simpl. rewrite lookup_insert_eq. split; [done|].
      destruct (li_node _ _ _ _ HI _ _ Hi) as [Hs0 Hcoh]. split_and!.
      * apply lookup_lt_Some in Hs0. lia.
      * done.
      * intros [|k] x Hx _; [rewrite Hs0 in Hx; injection Hx as <-; simpl; lia|].
         destruct (Hcoh _ _ Hx) as (j & l & Hj & _). apply AT in Hx.
         assert (Log_Term x ≠ CurrentTerm rf) by congruence. lia.
      * intros k x Hx%lookup_lt_Some. lia.
  - simpl. intros t c [[<- _]|[_ Hc]]%lookup_insert_Some; [eauto|].
    apply (to_dom _ _ _ HT) in Hc as [[j l] Ht].
    destruct (Hg _ _ _ Ht) as (l' & ? & _). eauto.
  - by eapply add_ack_bound.
  - intros. by eapply add_ack_frozen.
  - intros U j m c Hm Hc HUN. destruct (Hnew _ _ _ Hm) as [?|(-> & -> & ->)]; [congruence|].
    simpl in Hc. rewrite lookup_insert_eq in Hc. injection Hc as <-.
    destruct Hel as (Q & HQ & Hq). exists Q. split; [done|]. intros q Hin.
    split; [auto|]. rewrite take_ge by done. eapply (voted_ok_grow n HT Hgr).
    + intros T HTU. apply add_ack_other. intros [= -> _]. lia.
    + apply A6; auto.
Qed.

Lemma safe_elected V E G L' w i rf pcs' cs :
  let rf' := set_voteCh true (BeLeader rf) in
  let G' := mkGhost L' (<[CurrentTerm rf := length (Log rf)]> (base G))
              (add_ack (CurrentTerm rf) i (length (Log rf)) (acks G)) in
  einv n V E w → log_inv n V (tab G) w → safe_inv n V G w → nodes w !! i = Some rf →
  State rf = Candidate → elected n V i (CurrentTerm rf) → table_grows (tab G) L' →
  (∀ t j l, L' !! t = Some (j, l) → (1 ≤ t)%Z ∧ coherent L' l) →
  (∀ t j l, L' !! t = Some (j, l) → tab G !! t = Some (j, l) ∨
     j = i ∧ t = CurrentTerm rf ∧ l = Log rf) →
  L' !! CurrentTerm rf = Some (i, Log rf) →
  safe_inv n V G' (mkWorld (<[i := rf']> (nodes w)) pcs' (pool w) cs).
Proof.
  intros rf' G' HE HI HS Hi Hst Hel Hg Hrows Hnew HL'.
  destruct (elected_tables V E G L' w i rf HE HI HS Hi Hst Hel Hg Hrows Hnew HL') as [Hgr HT'].
  fold G' in Hgr, HT'. pose proof (si_nodes _ _ _ _ HS _ _ Hi) as Hok.
  pose proof (si_tables _ _ _ _ HS) as HT. pose proof Hok as [A1 A2 AT A3 AP A4 A5 A6 A7 A8].
  eapply safe_upd; [done|done|exact Hgr|exact HT'| | |by left|by split|].
  - intros q T Hq. apply add_ack_other. congruence.
  - intros. by eapply add_ack_frozen.
  - split; simpl.
    + eapply (no_ack_grow V G G' i rf rf'); [done|done|exact Hok| |done|done|].
      * intros T HTne. apply add_ack_other. simpl in HTne. congruence.
      * simpl. intros e j l _ _ Ht. simpl in Ht. rewrite HL' in Ht. injection Ht as <- <-.
        apply prefix_take.
    + intros T a Ha. unfold add_ack in Ha.
      apply lookup_insert_Some in Ha as [[[= <-] _]|[_ ?]]; [done|by eapply A2].
    + done.
    + intros _. by apply add_ack_acked.
    + intros _. rewrite length_replicate. apply (ei_nodes _ _ _ _ HE _ _ Hi).
    + intros j m _ Hm (c & Hc & Hlt). apply lookup_replicate in Hm as [-> _].
      simpl in Hc. rewrite lookup_insert_eq in Hc. injection Hc as <-.
      destruct (li_node _ _ _ _ HI _ _ Hi) as [Hs0%lookup_lt_Some _]. simpl in Hlt. lia.
    + done.
    + done.
    + by eapply (safe_upto_grow n HT Hgr).
    + intros m Hm. eapply (applied_from_grow n HT Hgr). by apply A8.
Qed.
End steps.
