(* ===== verification/RaftCommittedAppend.v ===== *)
(** * Committed entries: replication

    The transitions of RaftCommittedSteps.v that send, accept and acknowledge
    entries, and the commit rule. *)

From S2P Require Import Prelude GoBase Persister Raft RaftSystem RaftNode.
From S2P Require Import RaftElection RaftLogs RaftCommit RaftApply.
From S2P Require Import RaftSafety RaftCommitted RaftCommittedSteps.

Section append.
Context {Cmd : Type} `{!Gob (gval Cmd)} (n : nat).
Implicit Types (G : ghost Cmd) (V : gmap (nat * Z) nat) (E : list election).
Implicit Types (rf : Raft Cmd) (w : world Cmd) (arg : AppendEntriesArgs Cmd).
Implicit Types (l : list (LogEntry Cmd)).

(** ** Requests *)

(** A request carries the leader's log to its end. *)
Lemma args_end id rf arg :
  StartAppendLog_args id rf = Some (Some arg) →
  State rf = Leader ∧ AE_Term arg = CurrentTerm rf ∧
  AE_LeaderCommit arg = CommitIndex rf ∧ arg_end arg = length (Log rf).
Proof.
  unfold StartAppendLog_args. destruct (decide (State rf = Leader)) as [Hl|Hl];
    [rewrite bool_decide_true by done|by rewrite bool_decide_false by done].
  simpl. intros H. apply bind_Some in H as (next & Hnext & H).
  apply bind_Some in H as (prev & Hprev & H). apply zget_lt in Hprev.
  apply bind_Some in H as (entries & Hent & H). run_opt; subst arg.
  split_and!; [done..|]. unfold arg_end. simpl. unfold zlen in *.
  case_match; zbool; run_opt; subst.
  - apply slice_from_Some in Hent as [Hr ->]. rewrite length_drop. unfold zlen in *. lia.
  - simpl. lia.
Qed.

Lemma args_ok V G w ns i id rf arg :
  log_inv n V (tab G) w → safe_inv n V G w → nodes w !! i = Some rf →
  StartAppendLog_args id rf = Some (Some arg) →
  g_ok n G ns (GAppendRPC i id arg Sent).
Proof.
  intros HI HS Hi Harg. apply args_end in Harg as (Hl & Ht & Hc & Hend).
  pose proof (li_lead _ _ _ _ HI _ _ Hi Hl) as HL.
  destruct (to_base _ _ _ (si_tables _ _ _ _ HS) _ _ _ HL) as (c & Hb & [_ Hle] & _).
  simpl. rewrite Ht, Hc, Hend. split_and!; [by exists c| |done].
  exists (Log rf). split; [done|]. by apply (no_commit _ _ _ _ _ (si_nodes _ _ _ _ HS _ _ Hi)).
Qed.

(** ** Deliveries *)

Lemma updateLastApplied_msgs rf rf' m :
  (0 ≤ LastApplied rf)%Z → updateLastApplied rf = Some rf' → m ∈ applyCh rf' →
  m ∈ applyCh rf ∨ (1 ≤ AM_Index m ≤ CommitIndex rf)%Z ∧
    ∃ x, zget (Log rf) (AM_Index m) = Some x ∧ AM_Command m = Log_Command x.
Proof.
  unfold updateLastApplied.
  generalize (Z.to_nat (CommitIndex rf - LastApplied rf)) as fuel.
  intros fuel. revert rf. induction fuel as [|fuel IH]; intros rf Hla;
    cbn [updateLastApplied_loop]; case_match eqn:Hlt; intros Hu Hm; run_opt; subst;
    try (by left). zbool.
  apply IH in Hu; [|simpl; lia|done]. simpl in Hu.
  destruct Hu as [Hin|Hu]; [|by right].
  apply elem_of_app in Hin as [?|Hin]; [by left|right].
  apply list_elem_of_singleton in Hin as ->. simpl. split; [lia|]. eauto.
Qed.

(** What a peer delivers up to a safe commit index is chosen. *)
Lemma applied_new V G t rf rf' m :
  tables_ok n V G → (0 ≤ LastApplied rf)%Z → updateLastApplied rf = Some rf' →
  safe_upto n G t (Log rf) (CommitIndex rf) →
  (∀ m, m ∈ applyCh rf → applied_from n G m) → m ∈ applyCh rf' → applied_from n G m.
Proof.
  intros HT Hla Hu Hs Hold Hm.
  destruct (updateLastApplied_msgs _ _ _ Hla Hu Hm) as [?|(Hr & x & Hx & Hc)]; [auto|].
  destruct Hs as [?|(T & e & i & l & _ & Hch & Ht & Hlt & Hpre)]; [lia|].
  exists T, e, i, l, x. split_and!; [done..|lia| |done].
  destruct (chosen_table _ _ _ _ _ HT Hch) as (i' & l' & Ht' & He). simplify_eq.
  apply zget_Some in Hx as [? Hx]. apply zget_Some. split; [done|].
  destruct (lookup_lt_is_Some_2 l (Z.to_nat (AM_Index m))) as [y Hy]; [lia|].
  assert (Log rf !! Z.to_nat (AM_Index m) = Some y); [|congruence].
  eapply prefix_lookup_Some; [|exact Hpre]. by rewrite lookup_take_lt by lia.
Qed.

(** ** Accepting a request *)

(** Handling the request erases no entry of the request's term. *)
Definition keeps_term arg rf : bool :=
  match AppendEntries arg rf with
  | Some (rf', _) =>
      forallb (λ e, negb (Log_Term e =? AE_Term arg)%Z) (drop (length (Log rf')) (Log rf))
  | None => true
  end.

(** The log after an accepted request. *)
Lemma accepted_log V G w i id arg rf rf' reply st :
  log_inv n V (tab G) w → log_g (tab G) (GAppendRPC i id arg st) →
  nodes w !! id = Some rf → AppendEntries arg rf = Some (rf', reply) →
  AER_Success reply = true →
  ∃ l, tab G !! AE_Term arg = Some (i, l) ∧ Log rf' = take (arg_end arg) l ∧
    length (Log rf') = arg_end arg ∧ CurrentTerm rf' = AE_Term arg ∧
    (CurrentTerm rf ≤ AE_Term arg)%Z ∧ State rf' ≠ Leader.
Proof.
  intros HI (Hne & l & p & e & HL & Hp & He & Ht & Hpre) Hid Ha Hs.
  pose proof (AppendEntries_core _ _ _ _ Ha) as Hcore.
  pose proof (AppendEntries_Log _ _ _ _ Ha) as Hlog. rewrite Hs in Hlog.
  pose proof (li_node _ _ _ _ HI _ _ Hid) as Hcoh.
  destruct (li_table _ _ _ _ HI _ _ _ HL) as [_ Hl].
  apply AppendEntries_inv in Ha as [_ [[? _]|(_ & Hct & pre & rf2 & Hget & Hpt & _)]];
    [congruence|].
  rewrite Hp, zget_nat in Hget. rewrite Hp in Hlog.
  replace (Z.to_nat (Z.of_nat p + 1)) with (S p) in Hlog by lia.
  assert (take (S p) (Log rf) ++ AE_Entries arg `prefix_of` l) as Hpl
    by (eapply append_prefix; eauto; congruence).
  pose proof (lookup_lt_Some _ _ _ Hget) as Hlt.
  assert (length (Log rf') = arg_end arg) as Hlen.
  { rewrite Hlog, length_app, length_take. unfold arg_end. rewrite Hp. lia. }
  unfold core in Hcore. injection Hcore as _ _ Hst Hct' _. simpl in Hct.
  rewrite Hct in Hct'. rewrite <-Hlog in Hpl.
  exists l. split_and!; [done| |done|done| |].
  - rewrite <-Hlen, (prefix_take_eq (Log rf') l) by done. by rewrite take_ge.
  - rewrite <-Hct, seen_term_CurrentTerm. lia.
  - rewrite Hst. unfold seen_term in *.
    destruct (Z.ltb_spec (CurrentTerm rf) (AE_Term arg)); [done|]. intros Hl'.
    pose proof (li_lead _ _ _ _ HI _ _ Hid Hl') as HL'. congruence.
Qed.

(** What the handler does to the commit index and the apply channel. *)
Lemma accepted_commit arg rf rf' reply :
  AppendEntries arg rf = Some (rf', reply) → AER_Success reply = true →
  (CommitIndex rf' = CommitIndex rf ∧ applyCh rf' = applyCh rf) ∨
  (CommitIndex rf' = min (AE_LeaderCommit arg) (zlen (Log rf') - 1) ∧
   ∃ rf3, Log rf3 = Log rf' ∧ CommitIndex rf3 = CommitIndex rf' ∧
     applyCh rf3 = applyCh rf ∧ LastApplied rf3 = LastApplied rf ∧
     ∃ rf4, updateLastApplied rf3 = Some rf4 ∧ applyCh rf4 = applyCh rf').
Proof.
  intros Ha Hs.
  apply AppendEntries_inv in Ha
    as [_ [[? _]|(_ & _ & pre & rf2 & _ & _ & Hrf2 & Hc)]]; [congruence|].
  destruct (neutral_seen (AE_Term arg) rf) as (_ & _ & Hci & Hap & _).
  destruct Hc as [(_ & rf3 & Hu & ->)|[_ ->]]; [right|left; by subst rf2].
  pose proof (updateLastApplied_frame _ _ Hu) as (a & la & Hrf3).
  assert (CommitIndex rf3 = min (AE_LeaderCommit arg) (zlen (Log rf2) - 1) ∧
          Log rf3 = Log rf2) as [Hci3 Hlog3] by (by rewrite Hrf3).
  split; [simpl; by rewrite Hci3, Hlog3|]. eexists. split_and!; [..|exists rf3; by split].
  - simpl. done.
  - simpl. by rewrite Hci3.
  - by subst rf2.
  - subst rf2. simpl. apply seen_term_LastApplied.
Qed.
Lemma keeps_term_lookup arg rf rf' reply k x :
  keeps_term arg rf = true → AppendEntries arg rf = Some (rf', reply) →
  Log rf !! k = Some x → Log_Term x = AE_Term arg → k < length (Log rf').
Proof.
  unfold keeps_term. intros Hk Ha Hx Ht. rewrite Ha in Hk.
  destruct (decide (k < length (Log rf'))) as [|Hge]; [done|exfalso].
  rewrite forallb_forall in Hk. specialize (Hk x).
  rewrite Ht, Z.eqb_refl in Hk. enough (negb true = true) by done. apply Hk.
  apply list_elem_of_In, list_elem_of_lookup. exists (k - length (Log rf')).
  rewrite lookup_drop. by replace (length (Log rf') + (k - length (Log rf'))) with k by lia.
Qed.

Lemma prefix_of_take l k m : k `prefix_of` l → length k ≤ m → k `prefix_of` take m l.
Proof.
  intros Hp Hm. rewrite <-(take_ge k (length k)) by done.
  rewrite <-(prefix_take_eq k l) by done. by apply take_prefix_le.
Qed.

Section accept.
Context (V : gmap (nat * Z) nat) (G : ghost Cmd) (w : world Cmd).
Context (i id : nat) (arg : AppendEntriesArgs Cmd) (rf rf' : Raft Cmd).
Context (reply : AppendEntriesReply) (l : list (LogEntry Cmd)) (c : nat).
Context (HT : tables_ok n V G) (Hok : node_ok n V G id rf).
Context (Ha : AppendEntries arg rf = Some (rf', reply)).
Context (Hkeep : keeps_term arg rf = true).
Context (Htab : tab G !! AE_Term arg = Some (i, l)).
Context (Hbase : base G !! AE_Term arg = Some c) (Hc : c ≤ arg_end arg).
Context (Hlog : Log rf' = take (arg_end arg) l) (Hlen : length (Log rf') = arg_end arg).
Context (Hct : CurrentTerm rf' = AE_Term arg) (Hle : (CurrentTerm rf ≤ AE_Term arg)%Z).

(** What an earlier leader got acknowledged is in the new log if the leader of
    the request has it, and entries of the request's term are not erased. *)
Lemma accept_keeps T e j m :
  (T ≤ AE_Term arg)%Z → tab G !! T = Some (j, m) → e ≤ length m →
  ((T < AE_Term arg)%Z → contains G T e (AE_Term arg)) →
  (T = AE_Term arg → take e m `prefix_of` Log rf) →
  take e m `prefix_of` Log rf'.
Proof using HT Ha Hkeep Htab Hbase Hc Hlog Hlen.
  intros HTle Ht He Hcon Hcur. destruct (decide (T = AE_Term arg)) as [->|Hne].
  - rewrite Htab in Ht. injection Ht as <- <-. rewrite Hlog. apply take_prefix_le.
    destruct (decide (e ≤ c)) as [|Hec]; [lia|].
    destruct (own_last n HT (AE_Term arg) e i l) as (x & Hx & Hxt & Hpos);
      [exists c; split; [done|lia]|done|done|].
    rewrite <-Hlen. enough (e - 1 < length (Log rf')) by lia.
    eapply (keeps_term_lookup _ _ _ _ _ x Hkeep Ha); [|done].
    eapply prefix_lookup_Some; [|by apply Hcur]. by rewrite lookup_take_lt by lia.
  - etrans; [eapply Hcon; eauto; lia|]. rewrite Hlog. by apply take_prefix_le.
Qed.

Lemma accept_ack T e j m :
  let G' := mkGhost (tab G) (base G) (add_ack (AE_Term arg) id (arg_end arg) (acks G)) in
  acked G' T id e → own G T e → tab G !! T = Some (j, m) →
  (∀ U, (T < U ≤ AE_Term arg)%Z → contains G T e U) → take e m `prefix_of` Log rf'.
Proof using HT Hok Ha Hkeep Htab Hbase Hc Hlog Hlen Hle.
  intros G' (a & Hack & Hea) Ho Ht HU. simpl in Hack. unfold add_ack in Hack.
  assert (∀ a0, acks G !! (T, id) = Some a0 → e ≤ a0 → take e m `prefix_of` Log rf') as Hold.
  { intros a0 Ha0 He0. pose proof (no_ack_term _ _ _ _ _ Hok _ _ Ha0).
    destruct (to_acks _ _ _ HT _ _ _ Ha0) as (j' & m' & ? & ?). simplify_eq.
    eapply (accept_keeps T); [lia|done|lia|intros; apply HU; lia|].
    intros ->. eapply (no_ack _ _ _ _ _ Hok); [by exists a0|done|done|]. intros U HU'. lia. }
  apply lookup_insert_Some in Hack as [[[= <-] <-]|[_ Hack]]; [|by eapply Hold].
  rewrite Htab in Ht. injection Ht as <- <-.
  destruct (decide (e ≤ arg_end arg)) as [He|He].
  - rewrite Hlog. by apply take_prefix_le.
  - destruct (acks G !! (AE_Term arg, id)) as [a0|] eqn:Ha0; simpl in Hea; [|lia].
    apply (Hold a0); [done|lia].
Qed.

(** The commit index stays safe, and so do deliveries. *)
Lemma accept_commit_kept :
  safe_upto n G (AE_Term arg) (Log rf') (CommitIndex rf).
Proof using HT Hok Ha Hkeep Htab Hbase Hc Hlog Hlen Hle.
  destruct (no_commit _ _ _ _ _ Hok) as [?|(T & e & j & m & HTt & Hch & Ht & Hlt & Hpre)];
    [by left|].
  destruct (decide (CommitIndex rf ≤ 0)%Z) as [|Hpos]; [by left|right].
  destruct (chosen_table _ _ _ _ _ HT Hch) as (j' & m' & ? & Hem). simplify_eq.
  eexists T, e, _, _. split_and!; [lia|done..|].
  eapply (accept_keeps T); [lia|done|lia| |done].
  intros HTU j1 l1 j2 l2 c2 Ht1 Ht2 Hc2. simplify_eq. etrans; [|eapply (completeness n HT); eauto].
  apply take_prefix_le. lia.
Qed.

Lemma accept_commit_new lc :
  safe_upto n G (AE_Term arg) l lc →
  safe_upto n G (AE_Term arg) (Log rf') (min lc (zlen (Log rf') - 1)).
Proof using Hlog Hlen.
  clear c Hbase Hc. intros Hs. set (c' := min lc (zlen (Log rf') - 1)).
  assert (c' ≤ lc ∧ c' ≤ zlen (Log rf') - 1)%Z as [H1 H2].
  { unfold c', min. destruct (Z.ltb_spec lc (zlen (Log rf') - 1)); lia. }
  apply (safe_upto_less n _ _ _ _ c') in Hs; [|done].
  destruct Hs as [?|(T & e & j & m & ? & ? & ? & ? & Hpre)]; [by left|].
  destruct (decide (c' ≤ 0)%Z) as [|Hpos]; [by left|right].
  exists T, e, j, m. split_and!; [done..|]. rewrite Hlog. apply prefix_of_take; [done|].
  rewrite length_take. unfold zlen in *. lia.
Qed.
End accept.

Lemma safe_accept V E G w i id arg rf rf' reply pcs' cs :
  let G' := mkGhost (tab G) (base G) (add_ack (AE_Term arg) id (arg_end arg) (acks G)) in
  log_inv n V (tab G) w → safe_inv n V G w → vote_node n V id rf' →
  log_g (tab G) (GAppendRPC i id arg Sent) → g_ok n G (nodes w) (GAppendRPC i id arg Sent) →
  nodes w !! id = Some rf → AppendEntries arg rf = Some (rf', reply) →
  AER_Success reply = true → keeps_term arg rf = true → (0 ≤ LastApplied rf)%Z →
  safe_inv n V G' (mkWorld (<[id := rf']> (nodes w)) pcs' (pool w) cs).
Proof.
  intros G' HI HS HV Hlg ((c & Hb & Hc) & (l & Ht & Hcs) & _) Hid Ha Hs Hkeep Hla.
  pose proof (si_nodes _ _ _ _ HS _ _ Hid) as Hok. pose proof (si_tables _ _ _ _ HS) as HT.
  destruct (accepted_log _ _ _ _ _ _ _ _ _ _ HI Hlg Hid Ha Hs)
    as (l' & Ht' & Hlog & Hlen & Hct & Hle & Hnl).
  rewrite Ht in Ht'. injection Ht' as <-.
  assert (grows G G') as Hgr.
  { split; [apply table_grows_refl|done|]. intros x a Hx. by apply add_ack_grows. }
  assert (∀ q U j T, V !! (q, U) = Some j → (T < U)%Z →
    acks G' !! (T, q) = acks G !! (T, q)) as Hfr.
  { intros q U j T Hv HTU. apply add_ack_other. intros [= -> ->].
    apply (vn_old _ _ _ _ HV) in Hv as [? _]. lia. }
  assert (arg_end arg ≤ length l) as Hel.
  { apply (f_equal length) in Hlog. rewrite length_take in Hlog. lia. }
  eapply safe_upd; [done|done|exact Hgr| | |exact Hfr|by left| |].
  - eapply (tables_ok_grow n HT Hgr); [done| |exact (to_dom _ _ _ HT)| |exact Hfr|].
    + intros t j m Hm. destruct (to_log _ _ _ HT _ _ _ Hm). split_and!; [done..|].
      by apply (to_base _ _ _ HT) in Hm.
    + by eapply (add_ack_bound n V G); [|apply table_grows_refl|..].
    + intros U j m c' Hm _ HN. simpl in Hm. congruence.
  - intros q T Hq. apply add_ack_other. congruence.
  - split; [by rewrite Hct|]. rewrite Hct. simpl. congruence.
  - pose proof Hok as [A1 A2 AT A3 AP A4 A5 A6 A7 A8]. split; rewrite ?Hct.
    + intros. eapply (accept_ack V G i id arg rf rf' reply l c); eauto.
    + intros T a Hack. simpl in Hack. unfold add_ack in Hack.
      apply lookup_insert_Some in Hack as [[[= <-] _]|[_ Hack]]; [done|].
      apply A2 in Hack. lia.
    + intros k x Hx. rewrite Hlog in Hx. apply lookup_take_Some in Hx as [Hx _].
      by eapply (table_term_le n HT).
    + done.
    + done.
    + done.
    + intros q U Hv. apply A5 in Hv. lia.
    + simpl. congruence.
    + eapply (safe_upto_grow n HT Hgr).
      destruct (accepted_commit _ _ _ _ Ha Hs) as [[-> _]|[-> _]].
      * by eapply (accept_commit_kept V G i id arg rf rf' reply l c).
      * by eapply (accept_commit_new G arg rf' l).
    + intros m Hm. eapply (applied_from_grow n HT Hgr).
      destruct (accepted_commit _ _ _ _ Ha Hs) as [[_ Heq]|(Hci & rf3 & Hl3 & Hc3 & Ha3 & Hla3 &
        rf4 & Hu & Ha4)]; [rewrite Heq in Hm; by apply A8|].
      rewrite <-Ha4 in Hm. eapply (applied_new V G (AE_Term arg) rf3 rf4 m HT); [|done|..].
      * by rewrite Hla3.
      * rewrite Hl3, Hc3, Hci. by eapply (accept_commit_new G arg rf' l).
      * by rewrite Ha3.
      * done.
Qed.
(** ** Committing *)

(** The places of a list whose values reach [x]. *)
Lemma count_ge_set (x : Z) (l : list Z) :
  ∃ Q : gset nat, size Q = count_ge x l ∧ Q ⊆ set_seq 0 (length l) ∧
    ∀ j, j ∈ Q → ∃ y, l !! j = Some y ∧ (x ≤ y)%Z.
Proof.
  induction l as [|y l (Q & Hsz & Hsub & Hq)] using rev_ind.
  { exists ∅. split_and!; [done|set_solver..]. }
  assert (∀ j, j ∈ Q → ∃ z, (l ++ [y]) !! j = Some z ∧ (x ≤ z)%Z) as Hq'.
  { intros j Hj. destruct (Hq j Hj) as (z & Hz & ?). exists z.
    by rewrite lookup_app_l by eauto using lookup_lt_Some. }
  rewrite count_ge_app, length_app. destruct (decide (x ≤ y)%Z) as [Hy|Hy].
  - exists (Q ∪ {[length l]}). split_and!.
    + rewrite size_union, size_singleton, Hsz.
      * by rewrite (count_ge_all x [y]) by (by constructor).
      * intros j Hj ->%elem_of_singleton. apply Hsub, elem_of_set_seq in Hj. lia.
    + intros j [Hj| ->%elem_of_singleton]%elem_of_union; apply elem_of_set_seq; simpl; [|lia].
      apply Hsub, elem_of_set_seq in Hj. lia.
    + intros j [Hj| ->%elem_of_singleton]%elem_of_union; [auto|]. exists y.
      by rewrite lookup_app_r, Nat.sub_diag by lia.
  - exists Q. split_and!; [|intros j Hj%Hsub%elem_of_set_seq; apply elem_of_set_seq; lia|done].
    rewrite (count_ge_none x [y]) by (constructor; [lia|done]). lia.
Qed.

Lemma advanceCommit_cases rf rf' :
  advanceCommit rf = Some rf' →
  rf' = rf ∨ ∃ N x, majority_index (MatchIndex rf) N ∧ (CommitIndex rf < N)%Z ∧
    zget (Log rf) N = Some x ∧ Log_Term x = CurrentTerm rf ∧
    updateLastApplied (set_CommitIndex N rf) = Some rf'.
Proof.
  unfold advanceCommit. intros H. apply bind_Some in H as (N & HN & H).
  rewrite zget_median in HN. apply median_majority in HN.
  case_match; zbool; [|run_opt; by left].
  apply bind_Some in H as (x & Hx & H). case_match; zbool; [|run_opt; by left].
  right. by exists N, x.
Qed.

(** An entry of the leader's term that a majority of [MatchIndex] reaches is
    chosen. *)
Lemma match_chosen V G p rf N x :
  tables_ok n V G → node_ok n V G p rf → State rf = Leader →
  tab G !! CurrentTerm rf = Some (p, Log rf) →
  majority_index (MatchIndex rf) N → zget (Log rf) N = Some x →
  Log_Term x = CurrentTerm rf → chosen n G (CurrentTerm rf) (S (Z.to_nat N)).
Proof.
  intros HT Hok Hl Ht [Hmaj _] Hx Hxt. apply zget_Some in Hx as [HN Hx].
  destruct (to_base _ _ _ HT _ _ _ Ht) as (c & Hc & _ & Hlo & _).
  assert (∀ k, Z.to_nat N ≤ k → own G (CurrentTerm rf) (S k)) as Hown.
  { intros k Hk. exists c. split; [done|].
    destruct (decide (Z.to_nat N < c)) as [Hlt|]; [|lia].
    specialize (Hlo _ _ Hx Hlt). lia. }
  split; [by apply Hown|].
  destruct (count_ge_set N (MatchIndex rf)) as (Q & Hsz & Hsub & Hq).
  pose proof (no_peers _ _ _ _ _ Hok Hl) as Hlen. exists Q. split.
  - split; [by rewrite <-Hlen|]. rewrite Hsz. lia.
  - intros q Hin. destruct (Hq q Hin) as (y & Hy & Hle).
    destruct (no_match _ _ _ _ _ Hok q y Hl Hy) as (a & Ha & Hea); [apply Hown; lia|].
    exists a. split; [done|lia].
Qed.

Lemma node_ok_commit V G p rf rf' :
  tables_ok n V G → node_ok n V G p rf → State rf = Leader → (0 ≤ LastApplied rf)%Z →
  tab G !! CurrentTerm rf = Some (p, Log rf) →
  advanceCommit rf = Some rf' → node_ok n V G p rf'.
Proof.
  intros HT Hok Hl Hla Ht [->|(N & x & Hmaj & Hlt & Hx & Hxt & Hu)]%advanceCommit_cases; [done|].
  pose proof (match_chosen _ _ _ _ _ _ HT Hok Hl Ht Hmaj Hx Hxt) as Hch.
  assert (safe_upto n G (CurrentTerm rf) (Log rf) N) as Hsafe.
  { right. exists (CurrentTerm rf), (S (Z.to_nat N)), p, (Log rf).
    split_and!; [done..|lia|apply prefix_take]. }
  pose proof (updateLastApplied_frame _ _ Hu) as (a & la & Hrf').
  pose proof Hok as [A1 A2 AT A3 AP A4 A5 A6 A7 A8].
  split; try (by rewrite Hrf').
  intros m Hm. eapply (applied_new V G (CurrentTerm rf) (set_CommitIndex N rf) rf' m HT);
    done.
Qed.

(** A positive reply finds the leader as it was when it sent the request. *)
Definition prompt_reply arg (r : AppendEntriesReply) rf : bool :=
  negb (AER_Success r) || (CurrentTerm rf <? AER_Term r)%Z ||
  (bool_decide (State rf = Leader) && (CurrentTerm rf =? AE_Term arg)%Z &&
   (length (Log rf) =? arg_end arg)).

Lemma safe_reply V E G w i id arg r rf rf' again pcs' cs :
  einv n V E w → log_inv n V (tab G) w → safe_inv n V G w → nodes w !! i = Some rf →
  g_ok n G (nodes w) (GAppendRPC i id arg (Replied r)) → (0 ≤ LastApplied rf)%Z →
  StartAppendLog_reply id r rf = Some (rf', again) → prompt_reply arg r rf = true →
  safe_inv n V G (mkWorld (<[i := rf']> (nodes w)) pcs' (pool w) cs).
Proof.
  intros HE HI HS Hi (_ & _ & Hack) Hla Hr Hpr. unfold StartAppendLog_reply in Hr.
  destruct (Z.ltb_spec (CurrentTerm rf) (AER_Term r)) as [Hlt|Hge].
  { run_opt; subst. eapply safe_neutral; [done..|]. split_and!; simpl; auto. lia. }
  destruct (AER_Success r) eqn:Hs; last first.
  { apply bind_Some in Hr as (nx & _ & Hr). apply bind_Some in Hr as (nx1 & _ & Hr).
    run_opt; subst. eapply safe_neutral; [done..|]. split_and!; simpl; auto; lia. }
  unfold prompt_reply in Hpr. rewrite Hs in Hpr. simpl in Hpr.
  destruct (Z.ltb_spec (CurrentTerm rf) (AER_Term r)); [lia|]. simpl in Hpr.
  apply andb_true_iff in Hpr as [[Hl Ht]%andb_true_iff Hlen].
  apply bool_decide_eq_true in Hl. apply Z.eqb_eq in Ht. apply Nat.eqb_eq in Hlen.
  pose proof (si_nodes _ _ _ _ HS _ _ Hi) as Hok. pose proof (si_tables _ _ _ _ HS) as HT.
  pose proof (li_lead _ _ _ _ HI _ _ Hi Hl) as HL.
  apply bind_Some in Hr as (match1 & Hm1 & Hr). apply bind_Some in Hr as (mt & Hmt & Hr).
  apply bind_Some in Hr as (next1 & Hn1 & Hr). apply bind_Some in Hr as (match2 & Hm2 & Hr).
  apply bind_Some in Hr as (rf2 & Hadv & Hr). injection Hr as -> <-.
  apply zset_Some in Hm1 as [_ ->]. simpl in Hm2. apply zset_Some in Hm2 as [_ ->].
  set (rf1 := set_MatchIndex _ _) in Hadv.
  assert (node_ok n V G i rf1) as Hok1.
  { pose proof Hok as [A1 A2 AT A3 AP A4 A5 A6 A7 A8]. split; try done.
    - intros _. simpl. rewrite !length_insert. by apply AP.
    - simpl. rewrite (vn_me _ _ _ _ (ei_nodes _ _ _ _ HE _ _ Hi)), !Nat2Z.id.
      assert (S (Z.to_nat (zlen (Log rf) - 1)) = length (Log rf)) as Hz.
      { destruct (li_node _ _ _ _ HI _ _ Hi) as [Hs0%lookup_lt_Some _]. unfold zlen. lia. }
      intros j m _ [(-> & <- & _)|[_ [(-> & <- & _)|[_ Hm]]%list_lookup_insert_Some]]%list_lookup_insert_Some Ho.
      + rewrite Hz. by apply A3.
      + rewrite Hz, Hlen, Ht. by eapply Hack.
      + by eapply A4. }
  eapply safe_upd_same; [done|done| |by eapply (node_ok_commit V G i rf1)].
  apply advanceCommit_inv in Hadv as (c & a & la & ->). split; simpl; [done|]. auto.
Qed.
End append.
