(* ===== verification/RaftStateMachine.v ===== *)
(** * State machine safety of timely runs

    RaftFindings.v shows two ways in which commands get lost: a positive reply
    that arrives after the leader's log or term has changed, and a request
    that arrives so late that it erases entries of its own term.  Here it is
    shown that there is no other: in every run in which neither happens, with
    any interleaving, message loss and delay otherwise, what is committed is
    in the log of every later leader, and no two peers deliver different
    commands at an index. *)

From S2P Require Import Prelude GoBase Persister Raft RaftSystem RaftNode RaftDemo.
From S2P Require Import RaftElection RaftLogs RaftCommit RaftApply RaftFindings.
From S2P Require Import RaftSafety RaftCommitted RaftCommittedSteps RaftCommittedAppend.

Section timely.
Context {Cmd : Type} `{!Gob (gval Cmd)}.
Implicit Types w : world Cmd.

(** The action does not run into one of the two defects. *)
Definition timely w (a : action Cmd) : bool :=
  match a with
  | ARun k =>
      match pool w !! k with
      | Some (GAppendRPC i id arg Sent) =>
          match nodes w !! id with Some rf => keeps_term arg rf | None => true end
      | Some (GAppendRPC i id arg (Replied r)) =>
          match nodes w !! i with Some rf => prompt_reply arg r rf | None => true end
      | _ => true
      end
  | _ => true
  end.

Inductive timely_run (n : nat) : world Cmd → Prop :=
| timely_init : timely_run n (init n)
| timely_act w a w' :
    timely_run n w → act w a = Next w' → timely w a = true → timely_run n w'.

Lemma timely_reachable n w : timely_run n w → reachable n w.
Proof. induction 1; eauto with raft. Qed.

(** The worlds of a schedule, with the check of every action. *)
Fixpoint timely_exec w (acts : list (action Cmd)) : option (world Cmd) :=
  match acts with
  | [] => Some w
  | a :: acts =>
      match act w a with
      | Next w' => if timely w a then timely_exec w' acts else None
      | _ => None
      end
  end.

Lemma timely_exec_run n w acts w' :
  timely_run n w → timely_exec w acts = Some w' → timely_run n w'.
Proof.
  revert w. induction acts as [|a acts IH]; intros w Hr; simpl; [by intros [= <-]|].
  destruct (act w a) as [w1| |] eqn:Ha; [|done..].
  destruct (timely w a) eqn:Ht; [|done]. eauto using timely_act.
Qed.

Lemma timely_exec_app w acts acts' w' :
  timely_exec w acts = Some w' →
  timely_exec w (acts ++ acts') = timely_exec w' acts'.
Proof.
  revert w. induction acts as [|a acts IH]; intros w; simpl; [by intros [= ->]|].
  destruct (act w a); [|done..]. destruct (timely w a); [apply IH|done].
Qed.
End timely.

(** ** Every timely action keeps the invariant *)

Section invariant.
Context {Cmd : Type} `{!Gob (gval Cmd)} (n : nat).
Implicit Types w : world Cmd.

Definition safe_world w : Prop :=
  ∃ V E G, einv n V E w ∧ log_inv n V (tab G) w ∧ safe_inv n V G w.

Section next.
Context (V V' : gmap (nat * Z) nat) (E E' : list election) (G : ghost Cmd).
Context (L' : gmap Z (nat * list (LogEntry Cmd))) (w w' : world Cmd).
Context (HE : einv n V E w) (HI : log_inv n V (tab G) w) (HS : safe_inv n V G w).
Context (Hsub : V ⊆ V') (Hvf : votes_from V V' w') (HE' : einv n V' E' w').
Context (Hg : table_grows (tab G) L') (Htf : table_from (tab G) L' (nodes w')).
Context (HI' : log_inv n V' L' w').

(** No peer changes. *)
Lemma next_nodes : nodes w' = nodes w → safe_inv n V G w' → safe_world w'.
Proof using HE HI Hsub Hvf HE' Hg Htf HI'.
  intros Hns HS'. pose proof (votes_same_nodes n _ _ _ _ _ HE Hsub Hvf Hns) as ->.
  pose proof (table_same_nodes n _ _ _ _ _ _ HI HI' Hg Htf Hns) as ->.
  by exists V, E', G.
Qed.

(** Peer [p] changes neutrally and does not vote. *)
Lemma next_neutral p rf rf' :
  nodes w !! p = Some rf → nodes w' = <[p := rf']> (nodes w) → neutral rf rf' →
  VoteFor rf' = (-1)%Z ∨ CurrentTerm rf' = CurrentTerm rf ∧ VoteFor rf' = VoteFor rf →
  Forall (g_ok n G (nodes w')) (pool w') → safe_world w'.
Proof using HE HI HS Hsub Hvf HE' Hg Htf HI'.
  intros Hp Hns Hneu Hv Hpool.
  pose proof (votes_same n _ _ _ _ _ _ _ _ HE Hsub Hvf Hp Hns Hv) as ->.
  assert (L' = tab G) as ->.
  { eapply (table_same n _ _ _ _ _ _ _ _ _ HI HI' Hg Htf Hp Hns). intros Hl.
    destruct Hneu as (_ & ? & _ & _ & [?|(? & ? & _)]); [congruence|].
    split_and!; congruence. }
  exists V, E', G. split_and!; [done..|].
  pose proof (safe_neutral n V G w p rf rf' (pcs w') (counts w') HS Hp Hneu) as [HT Hn _].
  simpl in Hn. rewrite <-Hns in Hn. by split.
Qed.

(** The same, for the pool that a step of one goroutine leaves. *)
Lemma pool_neutral p rf rf' :
  nodes w !! p = Some rf → neutral rf rf' →
  Forall (g_ok n G (<[p := rf']> (nodes w))) (pool w).
Proof using HS.
  intros Hp Hneu. exact (si_pool _ _ _ _ (safe_neutral n V G w p rf rf' [] [] HS Hp Hneu)).
Qed.

Lemma next_candidate i rf :
  nodes w !! i = Some rf → nodes w' = <[i := BeCandidate rf]> (nodes w) →
  Forall (g_ok n G (nodes w')) (pool w') → safe_world w'.
Proof using HE HI HS Hsub Hvf HE' Hg Htf HI'.
  intros Hi Hns Hpool.
  assert (L' = tab G) as ->.
  { by eapply (table_same n _ _ _ _ _ _ _ rf (BeCandidate rf) HI HI' Hg Htf). }
  exists V', E', G. split_and!; [done..|].
  destruct (safe_candidate n V V' E G w i rf (pcs w') (counts w') HE HI HS Hi Hsub)
    as [HT Hn _].
  - intros q U c Hv.
    destruct (votes_new n _ _ _ _ _ _ _ _ _ _ HE Hvf Hns Hv) as [?|(-> & -> & Hc)]; [by left|].
    right. simpl in *. rewrite (vn_me _ _ _ _ (ei_nodes _ _ _ _ HE _ _ Hi)) in Hc.
    split_and!; [done..|lia].
  - simpl in Hn. rewrite <-Hns in Hn. by split.
Qed.

Lemma next_start i rf command :
  nodes w !! i = Some rf → w' = upd_node i (Start command rf).1 w → safe_world w'.
Proof using HE HI HS Hsub Hvf HE' Hg Htf HI'.
  intros Hi Hw'. destruct (decide (State rf = Leader)) as [Hl|Hl]; last first.
  { assert ((Start command rf).1 = rf) as Heq by (unfold Start; by rewrite bool_decide_false).
    rewrite Heq in Hw'. eapply (next_neutral i rf rf); [done|by rewrite Hw'| |by right|].
    - split_and!; auto; lia.
    - rewrite Hw'. simpl. rewrite list_insert_id by done. apply HS. }
  set (rf' := (Start command rf).1) in *.
  assert (State rf' = Leader ∧ CurrentTerm rf' = CurrentTerm rf ∧ VoteFor rf' = VoteFor rf)
    as (Hl' & Hct & Hvf').
  { unfold rf', Start. by rewrite bool_decide_true. }
  assert (nodes w' = <[i := rf']> (nodes w)) as Hns by by rewrite Hw'.
  assert (V' = V) as -> by (eapply (votes_same n _ _ _ _ _ i rf rf'); eauto).
  eexists V, E', _. split_and!; [done| |].
  2: { rewrite Hw'. eapply (safe_start n V E G L' w i rf command); eauto; [by apply (li_table _ _ _ _ HI')|..].
       - intros t j l HL. rewrite <-Hct.
         destruct (table_new n _ _ _ _ _ _ _ _ _ _ _ HI HI' Hg Htf Hns HL)
           as [?|(? & _ & ? & ?)]; auto.
       - rewrite <-Hct. eapply (li_lead _ _ _ _ HI'); [|done]. rewrite Hns.
         apply list_lookup_insert_eq. by eapply lookup_lt_Some. }
  done.
Qed.

Lemma next_elected i rf pl cs :
  nodes w !! i = Some rf → State rf = Candidate →
  w' = mkWorld (<[i := set_voteCh true (BeLeader rf)]> (nodes w)) (pcs w) (delete pl (pool w)) cs →
  safe_world w'.
Proof using HE HI HS Hsub Hvf HE' Hg Htf HI'.
  intros Hi Hst Hw'. set (rf' := set_voteCh true (BeLeader rf)) in *.
  assert (nodes w' = <[i := rf']> (nodes w)) as Hns by by rewrite Hw'.
  assert (V' = V) as -> by (eapply (votes_same n _ _ _ _ _ i rf rf'); eauto).
  assert (nodes w' !! i = Some rf') as Hi'.
  { rewrite Hns. apply list_lookup_insert_eq. by eapply lookup_lt_Some. }
  eexists V, E', _. split_and!; [done| |].
  2: { rewrite Hw'. apply (safe_pool_delete n _ _
         (mkWorld (<[i := rf']> (nodes w)) (pcs w) (pool w) cs)).
       eapply (safe_elected n V E G L' w i rf); eauto.
       - exact (vn_lead _ _ _ _ (ei_nodes _ _ _ _ HE' _ _ Hi') eq_refl).
       - apply (li_table _ _ _ _ HI').
       - intros t j l HL.
         destruct (table_new n _ _ _ _ _ _ _ _ _ _ _ HI HI' Hg Htf Hns HL)
           as [?|(? & _ & ? & ?)]; auto.
       - exact (li_lead _ _ _ _ HI' _ _ Hi' eq_refl). }
  done.
Qed.

Lemma AppendEntries_refused (arg : AppendEntriesArgs Cmd) rf rf' reply :
  AppendEntries arg rf = Some (rf', reply) → AER_Success reply = false → neutral rf rf'.
Proof.
  intros [_ [[_ ->]|(? & _)]]%AppendEntries_inv ?; [|congruence].
  destruct (neutral_seen (AE_Term arg) rf) as (? & ? & ? & ? & ?). by split_and!.
Qed.

Lemma next_append k i id arg rf rf' reply :
  (0 ≤ LastApplied rf)%Z → pool w !! k = Some (GAppendRPC i id arg Sent) →
  nodes w !! id = Some rf → AppendEntries arg rf = Some (rf', reply) →
  keeps_term arg rf = true →
  w' = mkWorld (<[id := rf']> (nodes w)) (pcs w)
         (<[k := GAppendRPC i id arg (Replied reply)]> (pool w)) (counts w) →
  safe_world w'.
Proof using HE HI HS Hsub Hvf HE' Hg Htf HI'.
  intros Hla Hk Hid Ha Hkeep Hw'.
  assert (nodes w' = <[id := rf']> (nodes w)) as Hns by by rewrite Hw'.
  pose proof (Forall_lookup_1 _ _ _ _ (si_pool _ _ _ _ HS) Hk) as Hgk.
  pose proof (Forall_lookup_1 _ _ _ _ (li_pool _ _ _ _ HI) Hk) as Hlk.
  pose proof (AppendEntries_core _ _ _ _ Ha) as Hcore. unfold core in Hcore.
  injection Hcore as _ _ Hst Hct Hv.
  assert (VoteFor rf' = (-1)%Z ∨ CurrentTerm rf' = CurrentTerm rf ∧ VoteFor rf' = VoteFor rf)
    as Hvote.
  { rewrite Hct, Hv. unfold seen_term. destruct (_ <? _)%Z; auto. }
  destruct (AER_Success reply) eqn:Hs; last first.
  { pose proof (AppendEntries_refused _ _ _ _ Ha Hs) as Hneu.
    eapply next_neutral; [done..|]. rewrite Hw'. simpl.
    apply Forall_insert; [by eapply pool_neutral|].
    destruct Hgk as (? & ? & _). split_and!; [done..|]. intros r [= <-]. congruence. }
  pose proof (votes_same n _ _ _ _ _ _ _ _ HE Hsub Hvf Hid Hns Hvote) as ->.
  destruct (accepted_log n _ _ _ _ _ _ _ _ _ _ HI Hlk Hid Ha Hs)
    as (l & _ & _ & _ & _ & _ & Hnl).
  assert (L' = tab G) as ->.
  { by eapply (table_same n _ _ _ _ _ _ _ _ _ HI HI' Hg Htf Hid Hns). }
  eexists V, E', _. split_and!; [done| |].
  2: { rewrite Hw'. apply (safe_pool_insert n _ _
         (mkWorld (<[id := rf']> (nodes w)) (pcs w) (pool w) (counts w))).
       - eapply (safe_accept n V E G w i id arg rf rf' reply); eauto.
         eapply (ei_nodes _ _ _ _ HE'). rewrite Hns.
         apply list_lookup_insert_eq. by eapply lookup_lt_Some.
       - destruct Hgk as (Hb & (l' & Ht & Hsafe) & _). split_and!; [done| |].
         + exists l'. split; [done|]. eapply (safe_upto_grow n (si_tables _ _ _ _ HS)); [|done].
           split; [apply table_grows_refl|done|]. intros x a Hx. by apply add_ack_grows.
         + intros r _ _. by apply add_ack_acked. }
  done.
Qed.

Lemma next_vote k i eid id arg rf rf' reply :
  pool w !! k = Some (GVote i eid id arg Sent) → nodes w !! id = Some rf →
  RequestVote arg rf = Some (rf', reply) →
  w' = mkWorld (<[id := rf']> (nodes w)) (pcs w)
         (<[k := GVote i eid id arg (Replied reply)]> (pool w)) (counts w) →
  safe_world w'.
Proof using HE HI HS Hsub Hvf HE' Hg Htf HI'.
  intros Hk Hid Hr Hw'. assert (nodes w' = <[id := rf']> (nodes w)) as Hns by by rewrite Hw'.
  pose proof (RequestVote_neutral _ _ _ _ Hr) as (_ & Hl & _ & _ & Hst).
  assert (L' = tab G) as ->.
  { eapply (table_same n _ _ _ _ _ _ _ _ _ HI HI' Hg Htf Hid Hns). intros Hld.
    destruct Hst as [?|(? & ? & _)]; [congruence|]. split_and!; congruence. }
  exists V', E', G. split_and!; [done..|]. by eapply (safe_vote_request n V V' E E').
Qed.

Lemma next_vote_reply k i eid id arg reply rf rf' count count' :
  pool w !! k = Some (GVote i eid id arg (Replied reply)) → nodes w !! i = Some rf →
  startElection_reply arg reply count rf = Some (rf', count') →
  w' = mkWorld (<[i := rf']> (nodes w)) (pcs w) (delete k (pool w))
         (<[eid := count']> (counts w)) →
  safe_world w'.
Proof using HE HI HS Hsub Hvf HE' Hg Htf HI'.
  intros Hk Hi Hr Hw'. assert (nodes w' = <[i := rf']> (nodes w)) as Hns by by rewrite Hw'.
  assert (neutral rf rf → neutral rf rf' →
    VoteFor rf' = (-1)%Z ∨ CurrentTerm rf' = CurrentTerm rf ∧ VoteFor rf' = VoteFor rf →
    safe_world w') as Hneutral.
  { intros _ Hneu Hv. eapply next_neutral; [done..|]. rewrite Hw'. simpl.
    by eapply Forall_delete, pool_neutral. }
  assert (neutral rf rf) as Hrefl by (split_and!; auto; lia).
  apply startElection_reply_inv in Hr
    as [(Hlt & -> & _)|[[-> _]|(Hst & _ & _ & [->|[_ ->]])]]; auto.
  - apply Hneutral; [done| |by left]. split_and!; simpl; auto. lia.
  - by eapply next_elected.
Qed.

Lemma next_reply k i id arg r rf rf' again :
  (0 ≤ LastApplied rf)%Z → pool w !! k = Some (GAppendRPC i id arg (Replied r)) →
  nodes w !! i = Some rf → StartAppendLog_reply id r rf = Some (rf', again) →
  prompt_reply arg r rf = true →
  w' = mkWorld (<[i := rf']> (nodes w)) (pcs w)
         (if again : bool then <[k := GAppend i id]> (pool w) else delete k (pool w))
         (counts w) →
  safe_world w'.
Proof using HE HI HS Hsub Hvf HE' Hg Htf HI'.
  intros Hla Hk Hi Hr Hpr Hw'.
  assert (nodes w' = <[i := rf']> (nodes w)) as Hns by by rewrite Hw'.
  pose proof (Forall_lookup_1 _ _ _ _ (si_pool _ _ _ _ HS) Hk) as Hgk.
  destruct (StartAppendLog_reply_inv _ _ _ _ _ Hr) as [Hcore Hlog]. unfold core in Hcore.
  injection Hcore as _ _ Hst Hct Hv.
  assert (V' = V) as ->.
  { eapply (votes_same n _ _ _ _ _ i rf rf'); [done..|]. rewrite Hct, Hv. unfold seen_term.
    destruct (_ <? _)%Z; auto. }
  assert (L' = tab G) as ->.
  { eapply (table_same n _ _ _ _ _ _ _ _ _ HI HI' Hg Htf Hi Hns). rewrite Hst, Hct.
    unfold seen_term. by destruct (_ <? _)%Z. }
  pose proof (safe_reply n V E G w i id arg r rf rf' again (pcs w) (counts w)
    HE HI HS Hi Hgk Hla Hr Hpr) as HS'.
  exists V, E', G. split_and!; [done..|]. rewrite Hw'. destruct again.
  - by apply (safe_pool_insert n _ _ _ _ _ _ _ HS').
  - by apply (safe_pool_delete n _ _ _ (pcs w) k (counts w) HS').
Qed.

(** The goroutines that only read. *)
Lemma next_quiet pl cs pcs' :
  w' = mkWorld (nodes w) pcs' pl cs → Forall (g_ok n G (nodes w)) pl → safe_world w'.
Proof using HE HI HS Hsub Hvf HE' Hg Htf HI'.
  intros Hw' Hpl. eapply next_nodes; [by rewrite Hw'|]. rewrite Hw'. by apply safe_pool.
Qed.

Lemma vote_args_ok i id eid term rf arg :
  nodes w !! i = Some rf → (term ≤ CurrentTerm rf)%Z →
  startElection_args term rf = Some arg → g_ok n G (nodes w) (GVote i eid id arg Sent).
Proof.
  unfold startElection_args. intros Hi Hle Harg. apply bind_Some in Harg as (x & Hx & [= <-]).
  simpl. intros rf0 Hi0. simplify_eq. split; [done|]. intros _ _ _. exists x.
  split_and!; [|done..]. apply zget_Some in Hx as [? Hx]. rewrite last_lookup.
  unfold zlen in *. rewrite <-Hx. f_equal. lia.
Qed.

Lemma next_goroutine k g :
  (∀ i rf, nodes w !! i = Some rf → (0 ≤ LastApplied rf)%Z) →
  pool w !! k = Some g → run_goroutine w k g = Next w' → timely w (ARun k) = true →
  safe_world w'.
Proof using HE HI HS Hsub Hvf HE' Hg Htf HI'.
  intros Hla Hk Hrun Ht. simpl in Ht. rewrite Hk in Ht.
  pose proof (Forall_lookup_1 _ _ _ _ (si_pool _ _ _ _ HS) Hk) as Hgk.
  destruct g as [i|i term|i eid id arg [|r]|i id|i id arg [|r]]; simpl in Hrun;
    apply need_Next in Hrun as (rf & Hi & Hrun).
  - injection Hrun as Hw. eapply next_quiet; [by rewrite <-Hw|].
    apply Forall_insert; [apply HS|]. simpl. intros rf0 Hi0. by simplify_eq.
  - apply ret_Next in Hrun as (arg & Harg & [= Hw]). eapply next_quiet; [by rewrite <-Hw|].
    apply Forall_app. split; [apply Forall_delete, HS|]. apply Forall_fmap, Forall_true.
    intros id. by eapply vote_args_ok; [|apply Hgk|].
  - apply ret_Next in Hrun as ([rf' reply] & Hr & [= Hw]). by eapply next_vote.
  - apply need_Next in Hrun as (count & Hcnt & Hrun).
    apply ret_Next in Hrun as ([rf' count'] & Hr & [= Hw]). by eapply next_vote_reply.
  - apply ret_Next in Hrun as ([arg|] & Harg & [= Hw]); (eapply next_quiet; [by rewrite <-Hw|]).
    + apply Forall_insert; [apply HS|]. by eapply args_ok.
    + apply Forall_delete, HS.
  - apply ret_Next in Hrun as ([rf' reply] & Hr & [= Hw]). rewrite Hi in Ht.
    eapply next_append; eauto.
  - apply ret_Next in Hrun as ([rf' again] & Hr & [= Hw]). rewrite Hi in Ht.
    eapply next_reply; eauto.
Qed.

Lemma next_main a i : main_loop w a i = Next w' → safe_world w'.
Proof using HE HI HS Hsub Hvf HE' Hg Htf HI'.
  unfold main_loop. intros Hm. apply need_Next in Hm as (rf & Hi & Hm).
  apply need_Next in Hm as (pc & Hpc & Hm).
  assert (∀ pcs', Next (mkWorld (nodes w) pcs' (pool w) (counts w)) = Next w' → safe_world w')
    as Hquiet.
  { intros pcs' [= Hw]. eapply next_quiet; [by rewrite <-Hw|apply HS]. }
  assert (∀ rf' pcs', Next (mkWorld (<[i := rf']> (nodes w)) pcs' (pool w) (counts w)) = Next w' →
    rf' = set_voteCh false rf ∨ rf' = set_appendLogCh false rf → safe_world w') as Hchan.
  { intros rf' pcs' [= Hw] Hrf'.
    assert (neutral rf rf') as Hneu by (destruct Hrf' as [->| ->]; split_and!; simpl; auto; lia).
    eapply (next_neutral i rf rf'); [done|by rewrite <-Hw|done| |].
    - destruct Hrf' as [->| ->]; by right.
    - rewrite <-Hw. simpl. by eapply pool_neutral. }
  destruct pc, a; try discriminate.
  - destruct (State rf); by eapply Hquiet.
  - destruct (voteCh rf); [|done]. eapply Hchan; [exact Hm|by left].
  - destruct (appendLogCh rf); [|done]. eapply Hchan; [exact Hm|by right].
  - by eapply Hquiet.
  - injection Hm as Hw. eapply (next_candidate i rf); [done|by rewrite <-Hw|].
    rewrite <-Hw. simpl. apply Forall_app. split; [|by repeat constructor].
    eapply Forall_impl; [apply HS|]. intros g.
    apply (g_ok_grow n (si_tables _ _ _ _ HS) (grows_refl G)).
    intros j rfj [(-> & <- & _)|[_ Hj]]%list_lookup_insert_Some.
    + exists rf. split; [done|]. split; simpl; [lia|]. intros; lia.
    + exists rfj. split; [done|apply cand_keeps_refl].
  - injection Hm as Hw. eapply next_quiet; [by rewrite <-Hw|]. apply Forall_app.
    split; [apply HS|]. by apply Forall_fmap, Forall_true.
Qed.
End next.

Lemma safe_act w a w' :
  safe_world w → (∀ i rf, nodes w !! i = Some rf → (0 ≤ LastApplied rf)%Z) →
  act w a = Next w' → timely w a = true → safe_world w'.
Proof.
  intros (V & E & G & HE & HI & HS) Hla Ha Ht. pose proof (act_step _ _ _ Ha) as Hstep.
  destruct (einv_step_votes n _ _ _ _ HE Hstep) as (V' & E' & Hsub & Hvf & HE').
  destruct (log_inv_step_table n _ _ _ _ _ _ _ Hsub HE HE' HI Hstep) as (L' & Hg & Htf & HI').
  destruct a as [i|i|i|i|i|i|i command|k|k]; simpl in Ha;
    try (by eapply (next_main V V' E E' G L' w w')).
  - apply need_Next in Ha as (rf & Hi & [= Hw]). by eapply (next_start V V' E E' G L' w w').
  - apply need_Next in Ha as (g & Hk & Hrun).
    by eapply (next_goroutine V V' E E' G L' w w').
  - apply need_Next in Ha as (g & Hk & Hrun).
    assert (w' = mkWorld (nodes w) (pcs w) (delete k (pool w)) (counts w)) as Hw.
    { destruct g; try done; by injection Hrun as <-. }
    eapply (next_quiet V V' E E' G L' w w'); [done..|]. apply Forall_delete, HS.
Qed.

Lemma safe_init (laws : GobLaws (gval Cmd)) : safe_world (init n).
Proof.
  exists ∅, [], (mkGhost ∅ ∅ ∅).
  split_and!; [by apply einv_init|by apply log_inv_init|]. split; [|..|constructor].
  - split; simpl; intros *; by rewrite lookup_empty.
  - intros p rf [_ Hrf]%lookup_init. pose proof Hrf as Hrf'.
    apply (Make_fresh n laws) in Hrf as (_ & _ & Hst & Ht & _ & Hl).
    split; rewrite ?Hst, ?Hl; try done.
    + intros k x [-> <-]%list_lookup_singleton_Some. simpl. lia.
    + left. by rewrite Hrf'.
    + rewrite Hrf'. simpl. set_solver.
Qed.

Lemma timely_safe (laws : GobLaws (gval Cmd)) w : timely_run n w → safe_world w.
Proof.
  induction 1 as [|w a w' Hr IH Ha Ht]; [by apply safe_init|].
  eapply safe_act; eauto. intros i rf Hi.
  by destruct (reachable_applied n w i rf (timely_reachable _ _ Hr) Hi).
Qed.
End invariant.

(** ** Safety *)

Section safe_worlds.
Context {Cmd : Type} `{!Gob (gval Cmd)} (n : nat).
Implicit Types (w : world Cmd) (rf : Raft Cmd).

Lemma safe_apply_agree w (i j : nat) rfi rfj mi mj :
  safe_world n w → nodes w !! i = Some rfi → nodes w !! j = Some rfj →
  mi ∈ applyCh rfi → mj ∈ applyCh rfj → AM_Index mi = AM_Index mj →
  AM_Command mi = AM_Command mj.
Proof.
  intros (V & E & G & _ & _ & [HT Hn _]) Hi Hj Hmi Hmj Heq.
  destruct (no_apply _ _ _ _ _ (Hn _ _ Hi) _ Hmi)
    as (T & e & k & l & x & Hch & Ht & Hlt & [Hp Hx]%zget_Some & ->).
  destruct (no_apply _ _ _ _ _ (Hn _ _ Hj) _ Hmj)
    as (T' & e' & k' & l' & x' & Hch' & Ht' & Hlt' & [_ Hx']%zget_Some & ->).
  rewrite <-Heq in Hlt', Hx'. f_equal.
  eapply (chosen_agree n HT T e k l T' e' k' l'); eauto; lia.
Qed.

Lemma safe_leader_complete w (p j : nat) rfp rfj (k : nat) x :
  safe_world n w → nodes w !! p = Some rfp → nodes w !! j = Some rfj →
  State rfj = Leader → (CurrentTerm rfp ≤ CurrentTerm rfj)%Z →
  1 ≤ k → (Z.of_nat k ≤ CommitIndex rfp)%Z → Log rfp !! k = Some x →
  Log rfj !! k = Some x.
Proof.
  intros (V & E & G & _ & HI & [HT Hn _]) Hp Hj Hl Hle Hk Hc Hx.
  destruct (no_commit _ _ _ _ _ (Hn _ _ Hp))
    as [?|(T & e & i & m & HTp & Hch & Ht & Hlt & Hpre)]; [lia|].
  pose proof (li_lead _ _ _ _ HI _ _ Hj Hl) as HL.
  destruct (chosen_table _ _ _ _ _ HT Hch) as (i' & m' & Ht' & He). rewrite Ht in Ht'.
  injection Ht' as <- <-.
  assert (m !! k = Some x) as Hm.
  { destruct (lookup_lt_is_Some_2 m k) as [y Hy]; [lia|].
    assert (Log rfp !! k = Some y); [|congruence].
    eapply prefix_lookup_Some; [|exact Hpre]. by rewrite lookup_take_lt by lia. }
  destruct (decide (T = CurrentTerm rfj)) as [->|Hne]; [by simplify_eq|].
  destruct (to_base _ _ _ HT _ _ _ HL) as (c & Hb & _).
  eapply prefix_lookup_Some; [|apply prefix_take].
  eapply prefix_lookup_Some; [|eapply (completeness n HT T e); eauto; lia].
  by rewrite lookup_take_lt by lia.
Qed.
End safe_worlds.

Section theorems.
Context {Cmd : Type} `{!Gob (gval Cmd)} (laws : GobLaws (gval Cmd)).
Implicit Types (w : world Cmd) (rf : Raft Cmd).

(** C3. State machine safety: in every world of a timely run, two messages that
    peers have delivered for the same index carry the same command, whoever
    the leaders were and whatever else the schedule and the network did. *)
Theorem timely_state_machine_safety (n : nat) w (i j : nat) rfi rfj mi mj :
  timely_run n w → nodes w !! i = Some rfi → nodes w !! j = Some rfj →
  mi ∈ applyCh rfi → mj ∈ applyCh rfj → AM_Index mi = AM_Index mj →
  AM_Command mi = AM_Command mj.
Proof using laws. intros Hw%(timely_safe n laws). by eapply safe_apply_agree. Qed.

(** C4. Leader completeness: in every world of a timely run, a leader whose term
    is at least that of some peer holds, at the same index, every entry that
    the peer has committed. *)
Theorem timely_leader_completeness (n : nat) w (p j : nat) rfp rfj (k : nat) x :
  timely_run n w → nodes w !! p = Some rfp → nodes w !! j = Some rfj →
  State rfj = Leader → (CurrentTerm rfp ≤ CurrentTerm rfj)%Z →
  1 ≤ k → (Z.of_nat k ≤ CommitIndex rfp)%Z → Log rfp !! k = Some x →
  Log rfj !! k = Some x.
Proof using laws. intros Hw%(timely_safe n laws). by eapply safe_leader_complete. Qed.
End theorems.

(** ** A timely run *)

(** Peer 0 is elected, commits 7 with peer 1, and tells peer 1; then peer 1 is
    elected with the vote of peer 2. *)
Definition timely_schedule : list (action nat) :=
  elect_0 ++ replicate_0 ++ [ATop 0; AHeartbeat 0; ARun 1; ARun 1; ARun 1] ++
  [ATop 1; ATimeout 1; AElection 1; ARun 2; ARun 2; ARun 3; ARun 3].

Definition timely_world : world nat :=
  default (init 3) (timely_exec (init 3) timely_schedule).

Lemma timely_world_run : timely_run 3 timely_world.
Proof.
  unfold timely_world. destruct (timely_exec (init 3) timely_schedule) as [w|] eqn:He;
    [|apply timely_init].
  eapply timely_exec_run; [apply timely_init|exact He].
Qed.

(** The runs of RaftFindings.v that lose commands are not timely. *)
Example findings_not_timely :
  timely_exec world_leader early_commit = None ∧
  timely_exec world_applied [ARun 0] = None.
Proof. by vm_compute. Qed.

Lemma timely_state_machine_safety_witness :
  ∃ rf0 rf1 m0 m1, nodes timely_world !! 0 = Some rf0 ∧ nodes timely_world !! 1 = Some rf1 ∧
    m0 ∈ applyCh rf0 ∧ m1 ∈ applyCh rf1 ∧ AM_Index m0 = 1%Z ∧ AM_Command m0 = Some 7 ∧
    AM_Command m0 = AM_Command m1.
Proof.
  do 4 eexists. split; [by vm_compute|]. split; [by vm_compute|].
  split; [by vm_compute; constructor|]. split; [by vm_compute; constructor|].
  split; [by vm_compute|]. split; [by vm_compute|].
  eapply (timely_state_machine_safety demo_gob_laws 3 timely_world 0 1);
    [apply timely_world_run|by vm_compute|by vm_compute
    |by vm_compute; constructor|by vm_compute; constructor|by vm_compute].
Defined.

Lemma timely_leader_completeness_witness :
  ∃ rf0 rf1 x, nodes timely_world !! 0 = Some rf0 ∧ nodes timely_world !! 1 = Some rf1 ∧
    State rf1 = Leader ∧ CurrentTerm rf0 = 2%Z ∧ CurrentTerm rf1 = 3%Z ∧
    CommitIndex rf0 = 1%Z ∧ Log rf0 !! 1 = Some x ∧ Log rf1 !! 1 = Some x.
Proof.
  do 3 eexists. split; [by vm_compute|]. split; [by vm_compute|]. split; [by vm_compute|].
  split; [by vm_compute|]. split; [by vm_compute|]. split; [by vm_compute|].
  split; [by vm_compute|].
  eapply (timely_leader_completeness demo_gob_laws 3 timely_world 0 1);
    [apply timely_world_run|by vm_compute|by vm_compute|by vm_compute|by vm_compute
    |lia|by vm_compute|by vm_compute].
Defined.
