(* ===== verification/RaftLive.v ===== *)
(** * Elections can succeed

    In every reachable world of at least two peers some schedule elects a
    leader: the peer with the most recent log times out until its term is
    beyond every other, and then collects the votes.  A cluster of one peer
    never gets a leader, because votes are only counted when a reply arrives.

    The schedules used here run no replication goroutine, so they are timely
    in the sense of RaftStateMachine.v. *)

From S2P Require Import Prelude GoBase Persister Raft RaftSystem RaftNode RaftDemo.
From S2P Require Import RaftElection RaftLogs RaftApply RaftSpec RaftCommittedAppend RaftStateMachine.

(** ** Reachability by timely schedules *)

Section can.
Context {Cmd : Type} `{!Gob (gval Cmd)}.
Implicit Types (w : world Cmd) (rf : Raft Cmd).

Definition can w w' : Prop := ∃ acts, timely_exec w acts = Some w'.

#[export] Instance can_preorder : PreOrder can.
Proof.
  split; [by exists []|]. intros w1 w2 w3 [l1 H1] [l2 H2]. exists (l1 ++ l2).
  by rewrite (timely_exec_app _ _ _ _ H1).
Qed.

Lemma can_act w a w' w'' :
  act w a = Next w' → timely w a = true → can w' w'' → can w w''.
Proof. intros Ha Ht [l Hl]. exists (a :: l). simpl. by rewrite Ha, Ht. Qed.

Lemma can_exec w w' : can w w' → ∃ acts, exec w acts = Next w'.
Proof.
  intros [acts He]. exists acts. revert w He.
  induction acts as [|a acts IH]; intros w; simpl; [by intros [= ->]|].
  destruct (act w a); [|done..]. destruct (timely w a); [apply IH|done].
Qed.

Lemma can_reachable n w w' : reachable n w → can w w' → reachable n w'.
Proof. intros Hr [acts He]%can_exec. by eapply exec_reachable. Qed.

Lemma can_timely_run n w w' : timely_run n w → can w w' → timely_run n w'.
Proof. intros Hr [acts He]. by eapply timely_exec_run. Qed.

(** ** What an election does not touch *)

Definition data rf :=
  (me rf, peers rf, Log rf, (CommitIndex rf, LastApplied rf, applyCh rf)).

Lemma data_insert (ns : list (Raft Cmd)) i rf rf' :
  ns !! i = Some rf → data rf' = data rf → data <$> <[i := rf']> ns = data <$> ns.
Proof.
  intros Hi Hd. rewrite list_fmap_insert, Hd. apply list_insert_id.
  by rewrite list_lookup_fmap, Hi.
Qed.

Lemma data_lookup (ns ns' : list (Raft Cmd)) i rf' :
  data <$> ns' = data <$> ns → ns' !! i = Some rf' →
  ∃ rf, ns !! i = Some rf ∧ data rf' = data rf.
Proof.
  intros Hd Hi. assert ((data <$> ns) !! i = Some (data rf')) as Hl.
  { by rewrite <-Hd, list_lookup_fmap, Hi. }
  rewrite list_lookup_fmap in Hl. apply fmap_Some in Hl as (rf & ? & ?). by exists rf.
Qed.

(** ** Collecting the votes *)

Lemma RequestVote_grants args rf last :
  (CurrentTerm rf < RV_Term args)%Z → zget (Log rf) (zlen (Log rf) - 1) = Some last →
  up_to_date args last (zlen (Log rf) - 1) →
  ∃ rf', RequestVote args rf = Some (rf', mkRVReply (RV_Term args) true) ∧
    data rf' = data rf ∧ CurrentTerm rf' = RV_Term args.
Proof.
  intros Hlt Hlast Hup. unfold RequestVote. rewrite (proj2 (Z.ltb_lt _ _) Hlt). simpl.
  rewrite Z.ltb_irrefl, Hlast. simpl.
  replace (_ || _) with false; [by eexists|]. symmetry. apply orb_false_iff.
  destruct Hup as [?|[-> ?]].
  - split; [apply Z.ltb_ge; lia|]. apply andb_false_iff. left. apply Z.eqb_neq. lia.
  - split; [apply Z.ltb_irrefl|]. apply andb_false_iff. right. apply Z.ltb_ge. lia.
Qed.

Lemma startElection_reply_granted arg count rf :
  State rf = Candidate → CurrentTerm rf = RV_Term arg →
  startElection_reply arg (mkRVReply (RV_Term arg) true) count rf =
    Some (if (Z.of_nat (peers rf) / 2 <? count + 1)%Z
          then set_voteCh true (BeLeader rf) else rf, (count + 1)%Z).
Proof.
  intros Hc Ht. unfold startElection_reply. simpl.
  rewrite Ht, Z.ltb_irrefl, (bool_decide_true _ Hc), Z.eqb_refl. simpl.
  by destruct (_ <? _)%Z.
Qed.

(** Peer [i] leads term [t] and nothing has been replicated. *)
Record fresh_leader w (i : nat) (t : Z) : Prop := {
  fl_leader : ∃ rf, nodes w !! i = Some rf ∧ State rf = Leader ∧ CurrentTerm rf = t ∧
    NextIndex rf = replicate (peers rf) (zlen (Log rf)) ∧
    MatchIndex rf = replicate (peers rf) 0%Z;
  fl_terms : Forall (λ rf, (CurrentTerm rf ≤ t)%Z) (nodes w);
}.

(** Peer [i] is a candidate whose requests to [ids] are on their way, and whose
    votes will do. *)
Record canvass w (i eid : nat) arg (P : list (goroutine Cmd)) (ids : list nat) : Prop := {
  cv_cand : ∃ rf count, nodes w !! i = Some rf ∧ State rf = Candidate ∧
    CurrentTerm rf = RV_Term arg ∧ counts w !! eid = Some count ∧
    (count ≤ Z.of_nat (peers rf) / 2 < count + Z.of_nat (length ids))%Z;
  cv_pool : pool w = P ++ ((λ id, GVote i eid id arg Sent) <$> ids);
  cv_nodup : NoDup ids;
  cv_ids id : id ∈ ids → id ≠ i ∧ ∃ rf last, nodes w !! id = Some rf ∧
    (CurrentTerm rf < RV_Term arg)%Z ∧
    zget (Log rf) (zlen (Log rf) - 1) = Some last ∧
    up_to_date arg last (zlen (Log rf) - 1);
  cv_terms : Forall (λ rf, (CurrentTerm rf ≤ RV_Term arg)%Z) (nodes w);
}.

(** The handler of peer [id] grants its vote and the candidate counts it. *)
Lemma run_granted w i eid id arg P Q rf rfd rfd' count :
  id ≠ i → pool w = P ++ GVote i eid id arg Sent :: Q →
  nodes w !! i = Some rf → State rf = Candidate → CurrentTerm rf = RV_Term arg →
  counts w !! eid = Some count → nodes w !! id = Some rfd →
  RequestVote arg rfd = Some (rfd', mkRVReply (RV_Term arg) true) →
  can w (mkWorld
    (<[i := if (Z.of_nat (peers rf) / 2 <? count + 1)%Z
            then set_voteCh true (BeLeader rf) else rf]> (<[id := rfd']> (nodes w)))
    (pcs w) (P ++ Q) (<[eid := (count + 1)%Z]> (counts w))).
Proof.
  intros Hne Hpool Hi Hst Hct Hcnt Hid Hvote.
  assert (pool w !! length P = Some (GVote i eid id arg Sent)) as Hk.
  { rewrite Hpool. by apply list_lookup_middle. }
  apply (can_act _ (ARun (length P)) (mkWorld (<[id := rfd']> (nodes w)) (pcs w)
    (P ++ GVote i eid id arg (Replied (mkRVReply (RV_Term arg) true)) :: Q) (counts w))).
  { simpl. rewrite Hk. simpl. rewrite Hid. simpl. rewrite Hvote. simpl. unfold upd_node. simpl.
    rewrite Hpool. simpl. by rewrite insert_app_r_alt, Nat.sub_diag by done. }
  { simpl. by rewrite Hk. }
  eapply (can_act _ (ARun (length P))); [| |reflexivity]; simpl;
    rewrite list_lookup_middle by done; simpl; [|done].
  rewrite list_lookup_insert_ne, Hi by done. simpl. rewrite Hcnt. simpl.
  rewrite startElection_reply_granted by done. simpl.
  unfold upd_counts, upd_node. simpl. by rewrite delete_middle.
Qed.

(** One more vote: the requests to the rest are still on their way, or the
    candidate has won. *)
Lemma canvass_one w i eid arg P id ids :
  canvass w i eid arg P (id :: ids) →
  ∃ w', can w w' ∧ data <$> nodes w' = data <$> nodes w ∧ pcs w' = pcs w ∧
    (fresh_leader w' i (RV_Term arg) ∨ canvass w' i eid arg P ids).
Proof.
  intros [(rf & count & Hi & Hst & Hct & Hcnt & Hmaj) Hpool Hnd Hids Hterms].
  apply NoDup_cons in Hnd as [Hnotin Hnd].
  destruct (Hids id) as (Hne & rfd & last & Hid & Hlt & Hlast & Hup); [by left|].
  destruct (RequestVote_grants arg rfd last Hlt Hlast Hup) as (rfd' & Hvote & Hd & Hct').
  pose proof (run_granted _ _ _ _ _ _ _ _ _ _ _ Hne Hpool Hi Hst Hct Hcnt Hid Hvote) as Hcan.
  eexists. split; [exact Hcan|]. clear Hcan. simpl.
  assert (<[id := rfd']> (nodes w) !! i = Some rf) as Hi1 by by rewrite list_lookup_insert_ne.
  assert (Forall (λ rf, (CurrentTerm rf ≤ RV_Term arg)%Z) (<[id := rfd']> (nodes w))) as Hterms1.
  { apply Forall_insert; [done|lia]. }
  split; [|split; [done|]].
  { rewrite (data_insert _ i rf); [by eapply data_insert|done|]. by case_match. }
  destruct (Z.ltb_spec (Z.of_nat (peers rf) / 2) (count + 1)).
  - left. split; simpl; [|apply Forall_insert; [done|simpl; lia]].
    rewrite list_lookup_insert_eq by (by eapply lookup_lt_Some).
    eexists. split; [done|]. simpl. split_and!; [done..| |done].
    by rewrite fmap_replicate.
  - right. split; simpl; [|done|done| |apply Forall_insert; [done|lia]].
    + exists rf, (count + 1)%Z. cbn [length] in Hmaj.
      rewrite !list_lookup_insert_eq by (by eapply lookup_lt_Some).
      split_and!; [done..|lia|lia].
    + intros id' Hin. destruct (Hids id') as (? & Hx); [by right|]. split; [done|].
      assert (id ≠ id') by (by intros ->).
      by rewrite !list_lookup_insert_ne by congruence.
Qed.

Lemma canvass_wins w i eid arg P ids :
  canvass w i eid arg P ids →
  ∃ w', can w w' ∧ data <$> nodes w' = data <$> nodes w ∧ pcs w' = pcs w ∧
    fresh_leader w' i (RV_Term arg).
Proof.
  revert w. induction ids as [|id ids IH]; intros w Hc.
  { destruct Hc as [(rf & count & _ & _ & _ & _ & ?) _ _ _ _]. simpl in *. lia. }
  destruct (canvass_one _ _ _ _ _ _ _ Hc) as (w1 & Hcan & Hd & Hpcs & [Hl|Hc1]).
  - by exists w1.
  - destruct (IH _ Hc1) as (w2 & Hcan2 & Hd2 & Hpcs2 & Hl). exists w2.
    split_and!; [by etrans|congruence..|done].
Qed.

(** ** Starting an election *)

(** The log of [rf] is at least as recent as that of [rf']. *)
Definition last_term rf : Z := default 0%Z (Log_Term <$> last (Log rf)).

Definition recent rf' rf : Prop :=
  (last_term rf' < last_term rf)%Z ∨
  last_term rf' = last_term rf ∧ length (Log rf') ≤ length (Log rf).

Lemma last_zget (l : list (LogEntry Cmd)) :
  l ≠ [] → zget l (zlen l - 1) = last l.
Proof.
  intros Hne. rewrite last_lookup. unfold zlen. destruct l as [|x l]; [done|].
  rewrite <-zget_nat. f_equal. simpl. lia.
Qed.

Lemma length_others rf : me rf < peers rf → S (length (others rf)) = peers rf.
Proof.
  intros Hlt. rewrite <-(length_seq (peers rf) 0). change (S (length (others rf)))
    with (length (me rf :: others rf)).
  apply Permutation_length, NoDup_Permutation; [|apply NoDup_seq|].
  - apply NoDup_cons. split; [|apply NoDup_others]. rewrite elem_of_others. by intros [_ []].
  - intros j. rewrite elem_of_cons, elem_of_others, elem_of_seq.
    split; [intros [->|[? _]]; lia|]. intros [_ ?].
    destruct (decide (j = me rf)); [by left|right; split; [lia|done]].
Qed.

(** The goroutine of an election sends its requests. *)
Lemma requests_sent w i rf P x :
  pool w = P ++ [GElect i] → nodes w !! i = Some rf → last (Log rf) = Some x →
  let arg := mkRVArgs (CurrentTerm rf) (Z.of_nat (me rf)) (zlen (Log rf) - 1) (Log_Term x) in
  ∃ w' eid, can w w' ∧ nodes w' = nodes w ∧ pcs w' = pcs w ∧ counts w' !! eid = Some 1%Z ∧
    pool w' = P ++ ((λ id, GVote i eid id arg Sent) <$> others rf).
Proof.
  intros Hpool Hi Hx arg. set (eid := length (counts w)).
  exists (mkWorld (nodes w) (pcs w) (P ++ ((λ id, GVote i eid id arg Sent) <$> others rf))
            (counts w ++ [1%Z])), eid.
  split_and!; [|done|done|by apply list_lookup_middle|done].
  apply (can_act _ (ARun (length P)) (mkWorld (nodes w) (pcs w)
    (P ++ [GElectTerm i (CurrentTerm rf)]) (counts w))); simpl;
    [|by rewrite Hpool, list_lookup_middle|].
  { rewrite Hpool, list_lookup_middle by done. simpl. rewrite Hi. simpl.
    unfold upd_pool. by rewrite Hpool, insert_app_r_alt, Nat.sub_diag by done. }
  eapply (can_act _ (ARun (length P))); [| |reflexivity]; simpl;
    rewrite list_lookup_middle by done; simpl; [|done].
  rewrite Hi. simpl. unfold startElection_args.
  rewrite last_zget, Hx by (by intros Hnil; rewrite Hnil in Hx). simpl.
  unfold upd_counts, upd_pool. simpl. by rewrite delete_middle, app_nil_r.
Qed.

Lemma election_starts n w i rf P :
  2 ≤ n → length (nodes w) = n → pool w = P ++ [GElect i] → nodes w !! i = Some rf →
  State rf = Candidate → me rf = i → peers rf = n →
  (∀ j rfj, nodes w !! j = Some rfj → Log rfj ≠ [] ∧ recent rfj rf ∧
     (j ≠ i → CurrentTerm rfj < CurrentTerm rf)%Z) →
  ∃ w' eid arg, can w w' ∧ nodes w' = nodes w ∧ pcs w' = pcs w ∧
    canvass w' i eid arg P (others rf) ∧ RV_Term arg = CurrentTerm rf.
Proof.
  intros Hn Hlen Hpool Hi Hst Hme Hpeers Hall.
  destruct (proj2 (last_is_Some (Log rf)) (proj1 (Hall i rf Hi))) as [x Hx].
  destruct (requests_sent w i rf P x Hpool Hi Hx) as (w' & eid & Hcan & Hns & Hpcs & Hcnt & Hpl).
  exists w', eid, (mkRVArgs (CurrentTerm rf) (Z.of_nat (me rf)) (zlen (Log rf) - 1) (Log_Term x)).
  split_and!; [done..| |done].
  split; simpl; rewrite ?Hns; [|exact Hpl|apply NoDup_others| |].
  - exists rf, 1%Z. split_and!; [done..| |].
    + rewrite Hpeers. apply Z.div_le_lower_bound; lia.
    + pose proof (length_others rf) as Hl. rewrite Hpeers, Hme in *.
      apply Z.div_lt_upper_bound; [lia|].
      pose proof (lookup_lt_Some _ _ _ Hi). lia.
  - intros id [Hid Hne]%elem_of_others. split; [congruence|].
    destruct (lookup_lt_is_Some_2 (nodes w) id) as [rfd Hd]; [lia|].
    destruct (Hall id rfd Hd) as (Hnil & Hrec & Hlt).
    destruct (proj2 (last_is_Some (Log rfd)) Hnil) as [y Hy].
    exists rfd, y. rewrite last_zget by done. split_and!; [done|apply Hlt; congruence|done|].
    unfold recent, last_term in Hrec. rewrite Hx, Hy in Hrec. simpl in Hrec.
    unfold up_to_date. simpl. unfold zlen. lia.
  - apply Forall_lookup. intros j rfj Hj. destruct (decide (j = i)) as [->|Hne].
    + simplify_eq. simpl. lia.
    + destruct (Hall j rfj Hj) as (_ & _ & Hlt). specialize (Hlt Hne). simpl. lia.
Qed.

(** ** Timing out *)

(** The main loop of a peer that does not lead comes to its next election,
    wherever it stands. *)
Lemma times_out_selecting w i rf :
  nodes w !! i = Some rf → pcs w !! i = Some AtSelect →
  can w (mkWorld (<[i := BeCandidate rf]> (nodes w)) (<[i := AtTop]> (pcs w))
           (pool w ++ [GElect i]) (counts w)).
Proof.
  intros Hi Hpc. pose proof (lookup_lt_Some _ _ _ Hpc) as Hlt.
  eapply (can_act _ (ATimeout i)); [|done|].
  { unfold act, main_loop. simpl. rewrite Hi. simpl. by rewrite Hpc. }
  eapply (can_act _ (AElection i)); [|done|reflexivity].
  unfold act, main_loop. simpl. rewrite Hi. simpl. rewrite list_lookup_insert_eq by done.
  simpl. unfold upd_pc, upd_pool, upd_node. simpl. by rewrite list_insert_insert_eq.
Qed.

(** The main loop of a peer that does not lead can come to its next election,
    wherever it stands. *)
Lemma times_out w i rf pc :
  nodes w !! i = Some rf → pcs w !! i = Some pc → State rf ≠ Leader →
  ∃ w' P, can w w' ∧ nodes w' = <[i := BeCandidate rf]> (nodes w) ∧
    pool w' = P ++ [GElect i] ∧ pcs w' !! i = Some AtTop.
Proof.
  intros Hi Hpc Hst. pose proof (lookup_lt_Some _ _ _ Hpc) as Hlt.
  assert (∀ w0, nodes w0 = nodes w → pcs w0 !! i = Some AtSelect → can w w0 →
    ∃ w' P, can w w' ∧ nodes w' = <[i := BeCandidate rf]> (nodes w) ∧
      pool w' = P ++ [GElect i] ∧ pcs w' !! i = Some AtTop) as Hselect.
  { intros w0 Hn Hp Hcan. rewrite <-Hn in Hi. eexists _, (pool w0). split.
    - etrans; [exact Hcan|]. by apply (times_out_selecting w0 i rf).
    - rewrite Hn. split_and!; [done..|]. simpl.
      rewrite list_lookup_insert_eq by (by eapply lookup_lt_Some). done. }
  assert (∀ w0, nodes w0 = nodes w → pcs w0 !! i = Some AtTop → can w w0 →
    ∃ w' P, can w w' ∧ nodes w' = <[i := BeCandidate rf]> (nodes w) ∧
      pool w' = P ++ [GElect i] ∧ pcs w' !! i = Some AtTop) as Htop.
  { intros w0 Hn Hp Hcan. apply (Hselect (upd_pc i AtSelect w0)); [done| |].
    - simpl. rewrite list_lookup_insert_eq by (by eapply lookup_lt_Some). done.
    - etrans; [exact Hcan|]. eapply (can_act _ (ATop i)); [|done|reflexivity].
      unfold act, main_loop. rewrite Hn, Hi. simpl. rewrite Hp. simpl. by destruct (State rf). }
  destruct pc.
  - by apply (Htop w).
  - by apply (Hselect w).
  - eexists _, (pool w). split; [|split_and!].
    + eapply (can_act _ (AElection i)); [|done|reflexivity].
      unfold act, main_loop. rewrite Hi. simpl. by rewrite Hpc.
    + done.
    + done.
    + simpl. by rewrite list_lookup_insert_eq.
  - apply (Htop (upd_pc i AtTop (upd_pool (pool w ++ (GAppend i <$> others rf)) w))); [done| |].
    + simpl. by rewrite list_lookup_insert_eq.
    + eapply (can_act _ (AHeartbeat i)); [|done|reflexivity].
      unfold act, main_loop. rewrite Hi. simpl. by rewrite Hpc.
Qed.

(** It can do so until its term is as large as one likes. *)
Lemma times_out_often m w i rf pc :
  nodes w !! i = Some rf → pcs w !! i = Some pc → State rf ≠ Leader →
  ∃ w' P rf', can w w' ∧ nodes w' = <[i := rf']> (nodes w) ∧ State rf' = Candidate ∧
    CurrentTerm rf' = (CurrentTerm rf + 1 + Z.of_nat m)%Z ∧ data rf' = data rf ∧
    pool w' = P ++ [GElect i] ∧ pcs w' !! i = Some AtTop.
Proof.
  revert w rf pc. induction m as [|m IH]; intros w rf pc Hi Hpc Hst;
    destruct (times_out w i rf pc Hi Hpc Hst) as (w1 & P & Hcan & Hns & Hpool & Hpc1).
  - exists w1, P, (BeCandidate rf). split_and!; try done. simpl. lia.
  - destruct (IH w1 (BeCandidate rf) AtTop) as (w2 & P2 & rf2 & Hcan2 & Hns2 & ? & Ht & Hd & ? & ?);
      [|done|done|].
    + rewrite Hns. apply list_lookup_insert_eq. by eapply lookup_lt_Some.
    + exists w2, P2, rf2. split_and!; try done.
      * by etrans.
      * by rewrite Hns2, Hns, list_insert_insert_eq.
      * rewrite Ht. simpl. lia.
Qed.

(** ** Deposing leaders *)

Lemma RequestVote_deposes args rf rf' reply :
  (CurrentTerm rf < RV_Term args)%Z → RequestVote args rf = Some (rf', reply) →
  State rf' = Follower ∧ data rf' = data rf.
Proof.
  unfold RequestVote. intros Hlt. rewrite (proj2 (Z.ltb_lt _ _) Hlt). simpl.
  rewrite Z.ltb_irrefl. destruct (zget _ _) as [x|]; simpl; [|done].
  case_match; simpl; by intros [= <- <-].
Qed.

(** The requests of a candidate with a larger term turn every peer that they
    reach into a follower. *)
Lemma requests_depose w j eid arg P ids :
  pool w = P ++ ((λ id, GVote j eid id arg Sent) <$> ids) → NoDup ids →
  (∀ id, id ∈ ids → ∃ rf, nodes w !! id = Some rf ∧ Log rf ≠ [] ∧
     (CurrentTerm rf < RV_Term arg)%Z) →
  ∃ w', can w w' ∧ data <$> nodes w' = data <$> nodes w ∧ pcs w' = pcs w ∧
    (∀ k, k ∉ ids → nodes w' !! k = nodes w !! k) ∧
    (∀ id, id ∈ ids → ∃ rf, nodes w' !! id = Some rf ∧ State rf = Follower).
Proof.
  revert w P. induction ids as [|id ids IH]; intros w P Hpool Hnd Hall.
  { exists w. split_and!; [done..|]. intros id Hid. by apply not_elem_of_nil in Hid. }
  apply NoDup_cons in Hnd as [Hnotin Hnd]. simpl in Hpool.
  destruct (Hall id) as (rf & Hid & Hnil & Hlt); [by left|].
  destruct (RequestVote_total arg rf Hnil) as (rf' & reply & Hvote).
  destruct (RequestVote_deposes _ _ _ _ Hlt Hvote) as [Hf Hd].
  destruct (IH (mkWorld (<[id := rf']> (nodes w)) (pcs w)
    ((P ++ [GVote j eid id arg (Replied reply)]) ++
       ((λ id, GVote j eid id arg Sent) <$> ids)) (counts w))
    (P ++ [GVote j eid id arg (Replied reply)])) as (w' & Hcan & Hd' & Hpcs & Hout & Hin);
    [done|done| |].
  { intros k Hk. simpl. rewrite list_lookup_insert_ne by (by intros ->).
    apply Hall. by right. }
  exists w'. split_and!; [|by rewrite Hd'; eapply data_insert|done|..].
  - eapply (can_act _ (ARun (length P))); [|by simpl; rewrite Hpool, list_lookup_middle|exact Hcan].
    simpl. rewrite Hpool, list_lookup_middle by done. simpl. rewrite Hid. simpl.
    rewrite Hvote. simpl. unfold upd_node, upd_pool. simpl.
    rewrite Hpool, insert_app_r_alt, Nat.sub_diag by done. by rewrite <-app_assoc.
  - intros k [Hne Hk]%not_elem_of_cons. rewrite (Hout k Hk). simpl.
    by rewrite list_lookup_insert_ne.
  - intros k [->|Hk]%elem_of_cons; [|by apply Hin]. exists rf'. split; [|done].
    rewrite (Hout _ Hnotin). simpl. apply list_lookup_insert_eq. by eapply lookup_lt_Some.
Qed.

(** ** The peer to elect *)

Lemma recent_total rf rf' : recent rf rf' ∨ recent rf' rf.
Proof. unfold recent. lia. Qed.

Lemma recent_trans rf1 rf2 rf3 : recent rf1 rf2 → recent rf2 rf3 → recent rf1 rf3.
Proof. unfold recent. lia. Qed.

Lemma most_recent (ns : list (Raft Cmd)) :
  ns ≠ [] → ∃ i rf, ns !! i = Some rf ∧ Forall (λ rf', recent rf' rf) ns.
Proof.
  assert (∀ rf, recent rf rf) as Hrefl by (intros rf; by destruct (recent_total rf rf)).
  induction ns as [|rf [|rf1 ns] IH]; intros Hne; [done| |].
  { exists 0, rf. split; [done|]. apply list.Forall_singleton, Hrefl. }
  destruct IH as (i & rf' & Hi & Hall); [done|].
  destruct (recent_total rf rf') as [Hr|Hr].
  - exists (S i), rf'. split; [done|]. by constructor.
  - exists 0, rf. split; [done|]. constructor; [done|].
    eapply Forall_impl; [exact Hall|]. intros rf2 Hrf2. exact (recent_trans _ _ _ Hrf2 Hr).
Qed.

Lemma max_term (ns : list (Raft Cmd)) :
  ∃ t, Forall (λ rf, (CurrentTerm rf ≤ t)%Z) ns.
Proof.
  induction ns as [|rf ns [t IH]]; [by exists 0%Z|]. exists (Z.max t (CurrentTerm rf)).
  constructor; [lia|]. eapply Forall_impl; [exact IH|]. simpl. lia.
Qed.
End can.

(** ** The theorem *)

Section live.
Context {Cmd : Type} `{!Gob (gval Cmd)} (laws : GobLaws (gval Cmd)) (n : nat).
Implicit Types (w : world Cmd) (rf : Raft Cmd).

Lemma act_pcs w a w' : act w a = Next w' → length (pcs w') = length (pcs w).
Proof.
  assert (∀ i, main_loop w a i = Next w' → length (pcs w') = length (pcs w)) as Hm.
  { intros i. unfold main_loop. intros Ha. split_act.
    destruct x0, a; try discriminate; repeat case_match; split_act; simpl;
      by rewrite ?length_insert. }
  destruct a; simpl; try apply Hm; intros Ha; split_act; [done| |].
  - destruct x as [| |? ? ? ? []| |? ? ? []]; simpl in Ha; split_act; try done.
    by destruct x0; split_act.
  - by destruct x; simpl in Ha; split_act.
Qed.

Lemma reachable_pcs w : reachable n w → length (pcs w) = n.
Proof.
  induction 1 as [|w a w' _ IH Ha]; simpl; [apply length_replicate|].
  by rewrite (act_pcs _ _ _ Ha).
Qed.

Lemma reachable_nodes w : reachable n w → length (nodes w) = n.
Proof using laws.
  intros Hr. destruct (reachable_einv n laws w Hr) as (V & E & HI). by eapply ei_len.
Qed.

Lemma reachable_peer w i rf :
  reachable n w → nodes w !! i = Some rf → me rf = i ∧ peers rf = n ∧ Log rf ≠ [].
Proof using laws.
  intros Hr Hi. destruct (reachable_logs n laws w Hr) as (V & E & L & HE & HI).
  destruct (ei_nodes _ _ _ _ HE _ _ Hi) as [Hme Hp _ _ _ _]. split_and!; [done..|].
  intros Hnil. destruct (li_node _ _ _ _ HI _ _ Hi) as [H0 _]. by rewrite Hnil in H0.
Qed.

Lemma reachable_pc w i rf :
  reachable n w → nodes w !! i = Some rf → ∃ pc, pcs w !! i = Some pc.
Proof using laws.
  intros Hr Hi. apply lookup_lt_is_Some_2. rewrite (reachable_pcs w Hr), <-(reachable_nodes w Hr).
  by eapply lookup_lt_Some.
Qed.

(** A peer that does not lead can depose all leaders. *)
Lemma can_depose w j rfj :
  reachable n w → nodes w !! j = Some rfj → State rfj ≠ Leader →
  ∃ w', can w w' ∧ data <$> nodes w' = data <$> nodes w ∧
    ∀ i rf, nodes w' !! i = Some rf → State rf ≠ Leader.
Proof using laws.
  intros Hr Hj Hst. destruct (reachable_pc w j rfj Hr Hj) as [pc Hpc].
  destruct (reachable_peer w j rfj Hr Hj) as (Hme & Hpeers & Hnil).
  destruct (max_term (nodes w)) as [t Ht].
  destruct (times_out_often (Z.to_nat (t - CurrentTerm rfj)) w j rfj pc Hj Hpc Hst)
    as (w1 & P & rf1 & Hcan1 & Hns1 & Hst1 & Ht1 & Hd1 & Hpool1 & _).
  assert (nodes w1 !! j = Some rf1) as Hj1.
  { rewrite Hns1. apply list_lookup_insert_eq. by eapply lookup_lt_Some. }
  pose proof Hd1 as [= Hme1 Hpeers1 Hlog1 _ _ _].
  destruct (proj2 (last_is_Some (Log rf1))) as [x Hx]; [by rewrite Hlog1|].
  destruct (requests_sent w1 j rf1 P x Hpool1 Hj1 Hx)
    as (w2 & eid & Hcan2 & Hns2 & _ & _ & Hpool2).
  destruct (requests_depose _ _ _ _ _ _ Hpool2 (NoDup_others rf1))
    as (w3 & Hcan3 & Hd3 & _ & Hout & Hin); rewrite ?Hns2, ?Hns1 in *.
  { intros id [Hid Hne]%elem_of_others.
    assert (id ≠ j) by congruence. rewrite list_lookup_insert_ne by done.
    destruct (lookup_lt_is_Some_2 (nodes w) id) as [rf Hrf].
    { rewrite (reachable_nodes w Hr). lia. }
    exists rf. split_and!; [done|by eapply reachable_peer|]. simpl.
    pose proof (Forall_lookup_1 _ _ _ _ Ht Hrf). simpl in *. lia. }
  exists w3. split_and!; [by etrans; [exact Hcan1|etrans]| |].
  - rewrite Hd3. apply (data_insert _ j rfj); [done|exact Hd1].
  - intros i rf Hi. destruct (decide (i ∈ others rf1)) as [Hio|Hio].
    + destruct (Hin i Hio) as (rf' & Hi' & Hf). congruence.
    + rewrite (Hout i Hio) in Hi.
      apply list_lookup_insert_Some in Hi as [(_ & <- & _)|[Hne Hi]]; [congruence|].
      destruct Hio. apply elem_of_others. split; [|congruence].
      rewrite Hpeers1, Hpeers, <-(reachable_nodes w Hr). by eapply lookup_lt_Some.
Qed.

(** Without leaders, the peer with the most recent log can be elected. *)
Lemma can_elect w :
  2 ≤ n → reachable n w → (∀ i rf, nodes w !! i = Some rf → State rf ≠ Leader) →
  ∃ w' i t, can w w' ∧ data <$> nodes w' = data <$> nodes w ∧
    pcs w' !! i = Some AtTop ∧ fresh_leader w' i t ∧
    Forall (λ rf, (CurrentTerm rf < t)%Z) (nodes w).
Proof using laws.
  intros Hn Hr Hst. pose proof (reachable_nodes w Hr) as Hlen.
  destruct (most_recent (nodes w)) as (i & rf & Hi & Hrec); [by intros Hnil; rewrite Hnil in Hlen; simpl in Hlen; lia|].
  destruct (reachable_pc w i rf Hr Hi) as [pc Hpc].
  destruct (max_term (nodes w)) as [t Ht].
  destruct (times_out_often (Z.to_nat (t - CurrentTerm rf)) w i rf pc Hi Hpc (Hst _ _ Hi))
    as (w1 & P & rf1 & Hcan1 & Hns1 & Hst1 & Ht1 & Hd1 & Hpool1 & Hpc1).
  pose proof Hd1 as [= Hme1 Hpeers1 Hlog1 _ _ _].
  destruct (reachable_peer w i rf Hr Hi) as (Hme & Hpeers & Hnil).
  assert (nodes w1 !! i = Some rf1) as Hi1.
  { rewrite Hns1. apply list_lookup_insert_eq. by eapply lookup_lt_Some. }
  assert (recent rf rf1) as Hself by (right; unfold last_term; by rewrite Hlog1).
  destruct (election_starts n w1 i rf1 P) as (w2 & eid & arg & Hcan2 & Hns2 & Hpcs2 & Hcv & Harg);
    [done|by rewrite Hns1, length_insert|done|done|done|congruence|congruence| |].
  { intros j rfj Hj. rewrite Hns1 in Hj.
    apply list_lookup_insert_Some in Hj as [(<- & <- & _)|[Hne Hj]].
    - split_and!; [by rewrite Hlog1|right; by auto|done].
    - pose proof (Forall_lookup_1 _ _ _ _ Ht Hj) as Htj. simpl in Htj.
      split_and!; [by eapply reachable_peer| |lia].
      eapply recent_trans; [|exact Hself]. exact (Forall_lookup_1 _ _ _ _ Hrec Hj). }
  destruct (canvass_wins _ _ _ _ _ _ Hcv) as (w3 & Hcan3 & Hd3 & Hpcs3 & Hl).
  exists w3, i, (RV_Term arg). split_and!; [by etrans; [exact Hcan1|etrans]| | |done|].
  - rewrite Hd3, Hns2, Hns1. by apply (data_insert _ i rf).
  - by rewrite Hpcs3, Hpcs2.
  - rewrite Harg. eapply Forall_impl; [exact Ht|]. simpl. lia.
Qed.

(** C9. Elections can succeed: from every reachable world of two or more peers,
    whatever messages are on their way and whatever the peers' terms, logs and
    votes are, there is a schedule after which some peer is leader. *)
Theorem leader_can_be_elected w :
  2 ≤ n → reachable n w →
  ∃ acts w' i rf, exec w acts = Next w' ∧ nodes w' !! i = Some rf ∧ State rf = Leader.
Proof using laws.
  intros Hn Hr. destruct (lookup_lt_is_Some_2 (nodes w) 0) as [rf0 H0].
  { rewrite (reachable_nodes w Hr). lia. }
  destruct (decide (State rf0 = Leader)) as [Hl|Hl]; [by exists [], w, 0, rf0|].
  destruct (can_depose w 0 rf0 Hr H0 Hl) as (w1 & Hc1 & _ & Hst1).
  destruct (can_elect w1 Hn (can_reachable n w w1 Hr Hc1) Hst1)
    as (w2 & i & t & Hc2 & _ & _ & [(rf & Hi & Hlead & _) _] & _).
  destruct (can_exec w w2) as [acts He]; [by etrans|]. by exists acts, w2, i, rf.
Qed.
End live.

(** ** A cluster of one peer *)

Section single.
Context {Cmd : Type} `{!Gob (gval Cmd)} (laws : GobLaws (gval Cmd)).
Implicit Types (w : world Cmd) (rf : Raft Cmd).

Lemma seen_not_leader t rf : State rf ≠ Leader → State (seen_term t rf) ≠ Leader.
Proof. unfold seen_term. by destruct (_ <? _)%Z. Qed.

(** A step that makes no leader of a peer that was none, unless it is the reply
    to a vote request. *)
Lemma step_no_leader w w' :
  step w w' → (∀ i rf, nodes w !! i = Some rf → State rf ≠ Leader) →
  (∀ k i eid id arg r, pool w !! k = Some (GVote i eid id arg (Replied r)) →
     nodes w !! i = None) →
  ∀ i rf, nodes w' !! i = Some rf → State rf ≠ Leader.
Proof.
  intros Hs Hst Hvote.
  assert (∀ i rf rf', nodes w !! i = Some rf → State rf' ≠ Leader →
    ∀ j rfj, <[i := rf']> (nodes w) !! j = Some rfj → State rfj ≠ Leader) as Hins.
  { intros i rf rf' Hi Hn j rfj [(_ & <- & _)|[_ Hj]]%list_lookup_insert_Some; eauto. }
  destruct Hs as [ | i rf rf' pcs' Hi Hor | i rf pcs' Hi | | i rf c Hi | | |
    k i eid id arg rf rf' r Hk Hi Hv | k i eid id arg r rf rf' c c' Hk Hi | | |
    k i id arg rf rf' r Hk Hi Ha | k i id arg r rf rf' again Hk Hi Ha | ];
    simpl; try exact Hst; eapply Hins; try done.
  - destruct Hor as [->| ->]; simpl; eauto.
  - pose proof (Start_core c rf) as [= _ _ -> _ _]. eauto.
  - apply RequestVote_inv in Hv as [_ [[_ ->]|(_ & _ & _ & ->)]]; simpl;
      apply seen_not_leader; eauto.
  - by rewrite (Hvote _ _ _ _ _ _ Hk) in Hi.
  - pose proof (AppendEntries_core _ _ _ _ Ha) as [= _ _ -> _ _].
    apply seen_not_leader; eauto.
  - pose proof (proj1 (StartAppendLog_reply_inv _ _ _ _ _ Ha)) as [= _ _ -> _ _].
    apply seen_not_leader; eauto.
Qed.

(** A cluster of one peer never has a leader, in any schedule: the votes are
    counted only when a reply arrives, and the candidate's own vote, which
    would be a majority, is never looked at. *)
Theorem single_peer_never_leads w (i : nat) rf :
  reachable 1 w → nodes w !! i = Some rf → State rf ≠ Leader.
Proof using laws.
  intros Hr. revert i rf. induction Hr as [|w a w' Hr IH Ha].
  - intros i rf [_ Hrf]%lookup_init. apply (Make_fresh 1 laws) in Hrf as (_ & _ & Hst & _).
    by rewrite Hst.
  - eapply step_no_leader; [by eapply act_step|done|]. intros k i eid id arg r Hk.
    destruct (reachable_einv 1 laws w Hr) as (V & E & HI).
    destruct (Forall_lookup_1 _ _ _ _ (ei_pool _ _ _ _ HI) Hk) as (_ & Hid & Hne & _).
    apply lookup_ge_None_2. rewrite (ei_len _ _ _ _ HI). lia.
Qed.
End single.

(** ** Witnesses *)

(** All three peers of a cluster have timed out and voted for themselves. *)
Definition world_split : world nat :=
  run_from (init 3)
    [ATop 0; ATimeout 0; AElection 0; ATop 1; ATimeout 1; AElection 1;
     ATop 2; ATimeout 2; AElection 2].

Lemma leader_can_be_elected_witness :
  State <$> nodes world_split = [Candidate; Candidate; Candidate] ∧
  VoteFor <$> nodes world_split = [0; 1; 2]%Z ∧
  ∃ acts w' i rf, exec world_split acts = Next w' ∧ nodes w' !! i = Some rf ∧
    State rf = Leader.
Proof.
  split; [by vm_compute|]. split; [by vm_compute|].
  apply (leader_can_be_elected demo_gob_laws 3 world_split); [lia|].
  apply run_from_reachable, reach_init.
Defined.

(** A peer alone times out twice and stays a candidate. *)
Definition world_alone : world nat :=
  run_from (init 1)
    [ATop 0; ATimeout 0; AElection 0; ARun 0; ARun 0; ATop 0; ATimeout 0; AElection 0].

Lemma single_peer_never_leads_witness :
  ∃ rf, nodes world_alone !! 0 = Some rf ∧ CurrentTerm rf = 3%Z ∧ VoteFor rf = 0%Z ∧
    State rf ≠ Leader.
Proof.
  eexists. split; [by vm_compute|]. split; [by vm_compute|]. split; [by vm_compute|].
  eapply (single_peer_never_leads demo_gob_laws world_alone 0);
    [apply run_from_reachable, reach_init|by vm_compute].
Defined.
