(* ===== verification/RaftProgress.v ===== *)
(** * Commands can be committed

    From every world of a timely run in which not all peers believe to lead,
    any command can be committed: the leaders are deposed, the peer with the
    most recent log is elected (RaftLive.v), it takes the command, and its
    heartbeat brings the logs of the others in line, however far back it has
    to go in each of them.  The schedule is timely, so what RaftStateMachine.v
    promises continues to hold. *)

From S2P Require Import Prelude GoBase Persister Raft RaftSystem RaftNode RaftDemo.
From S2P Require Import RaftElection RaftLogs RaftCommit RaftApply RaftSafety RaftCommitted.
From S2P Require Import RaftCommittedAppend RaftStateMachine RaftLive.

Section replication.
Context {Cmd : Type} `{!Gob (gval Cmd)}.
Implicit Types (w : world Cmd) (rf : Raft Cmd).

(** Peer [i] leads term [t] of [n] peers and has appended command [c] to the
    log [l0]. *)
Context (n i : nat) (t : Z) (l0 : list (LogEntry Cmd)) (c : option Cmd).
Context (Hsent : l0 !! 0 = Some sentinel) (Ht : (1 ≤ t)%Z).
Abbreviation l := (l0 ++ [mkLog t c]).
Abbreviation L := (zlen l0).

Record leading rf : Prop := {
  ld_state : State rf = Leader;
  ld_term : CurrentTerm rf = t;
  ld_me : me rf = i;
  ld_log : Log rf = l;
  ld_next : length (NextIndex rf) = n;
  ld_match : length (MatchIndex rf) = n;
  ld_matched : Forall (λ m, m = 0%Z ∨ m = L) (MatchIndex rf);
  ld_applied : (0 ≤ LastApplied rf < L)%Z;
  ld_commit : (CommitIndex rf < L)%Z;
}.

(** A peer that does not know of the term, or nothing but the leader's name. *)
Record behind rf : Prop := {
  bh_term : (CurrentTerm rf ≤ t)%Z;
  bh_first : Log rf !! 0 = Some sentinel;
  bh_terms : Forall (λ e, (Log_Term e < t)%Z) (Log rf);
  bh_applied : (0 ≤ LastApplied rf)%Z;
}.

Lemma leading_next rf nx : leading rf → length nx = n → leading (set_NextIndex nx rf).
Proof. by intros [] ?; split. Qed.

Lemma set_NextIndex_id rf : set_NextIndex (NextIndex rf) rf = rf.
Proof. by destruct rf. Qed.

(** ** One request *)

Lemma request_at rf id k :
  leading rf → NextIndex rf !! id = Some (Z.of_nat (S k)) → k < length l0 →
  ∃ arg e, StartAppendLog_args id rf = Some (Some arg) ∧ AE_Term arg = t ∧
    arg_end arg = length l ∧ AE_PrevLogIndex arg = Z.of_nat k ∧
    l0 !! k = Some e ∧ AE_PrevLogTerm arg = Log_Term e.
Proof.
  intros [Hst Hct Hme Hlog _ _ _ _ _] Hnext Hk.
  destruct (lookup_lt_is_Some_2 l0 k Hk) as [e He].
  assert (∃ arg, StartAppendLog_args id rf = Some (Some arg) ∧
    AE_PrevLogIndex arg = Z.of_nat k ∧ AE_PrevLogTerm arg = Log_Term e) as (arg & Harg & Hp & Hpt).
  { unfold StartAppendLog_args. rewrite bool_decide_true by done. simpl.
    rewrite zget_nat, Hnext. cbn [mbind option_bind].
    replace (Z.of_nat (S k) - 1)%Z with (Z.of_nat k) by lia.
    rewrite Hlog, zget_nat, lookup_app_l, He by done. cbn [mbind option_bind].
    destruct (_ <=? _)%Z eqn:Hle; zbool; [|by eexists].
    assert (slice_from l (Z.of_nat (S k)) = Some (drop (Z.to_nat (Z.of_nat (S k))) l)) as ->.
    { apply slice_from_Some. split; [|done]. split; [lia|]. lia. }
    by eexists. }
  destruct (args_end _ _ _ Harg) as (_ & Hat & _ & Hend).
  exists arg, e. rewrite Hat, Hend, Hlog, Hct. by split_and!.
Qed.

Lemma request_answered arg rf k e :
  behind rf → AE_Term arg = t → AE_PrevLogIndex arg = Z.of_nat k → l0 !! k = Some e →
  AE_PrevLogTerm arg = Log_Term e →
  ∃ rf' reply, AppendEntries arg rf = Some (rf', reply) ∧ AER_Term reply = t ∧
    keeps_term arg rf = true ∧
    (AER_Success reply = false → behind rf' ∧ k ≠ 0).
Proof.
  intros [Hct H0 Hterms Hla] Hat Hp He Hpt.
  destruct (AppendEntries_total arg rf) as (rf' & reply & Ha); [lia|done|].
  exists rf', reply. split; [done|]. destruct (AppendEntries_inv _ _ _ _ Ha) as [Hr Hcase].
  simpl in Hr. rewrite seen_term_CurrentTerm, Hat in Hr. split; [lia|]. split.
  { unfold keeps_term. rewrite Ha, Hat. apply forallb_forall. intros x Hx%list_elem_of_In.
    apply negb_true_iff, Z.eqb_neq. apply list_elem_of_lookup in Hx as [m Hm].
    rewrite lookup_drop in Hm. pose proof (Forall_lookup_1 _ _ _ _ Hterms Hm). simpl in *. lia. }
  intros Hno. destruct Hcase as [[_ ->]|[? _]]; [|congruence]. split.
  - split; simpl; rewrite ?seen_term_CurrentTerm, ?seen_term_Log, ?seen_term_LastApplied;
      [lia|done..].
  - intros ->. assert (AER_Success reply = true); [|congruence].
    apply (AppendEntries_success_iff _ _ _ _ Ha). split; [lia|]. rewrite Hp, zget_nat.
    exists sentinel. split; [done|]. congruence.
Qed.

(** Goroutine [length P] of the pool sends its request and gets the answer. *)
Lemma probe w P Q id k rf rfd :
  pool w = P ++ GAppend i id :: Q → nodes w !! i = Some rf → leading rf → id ≠ i →
  nodes w !! id = Some rfd → behind rfd →
  NextIndex rf !! id = Some (Z.of_nat (S k)) → k < length l0 →
  ∃ arg rfd' reply, can w (mkWorld (<[id := rfd']> (nodes w)) (pcs w)
      (P ++ GAppendRPC i id arg (Replied reply) :: Q) (counts w)) ∧
    AE_Term arg = t ∧ arg_end arg = length l ∧ AER_Term reply = t ∧
    (AER_Success reply = false → behind rfd' ∧ k ≠ 0).
Proof using Hsent.
  intros Hpool Hi Hlead Hne Hid Hb Hnext Hk.
  destruct (request_at rf id k Hlead Hnext Hk) as (arg & e & Harg & Hat & Hend & Hp & He & Hpt).
  destruct (request_answered arg rfd k e Hb Hat Hp He Hpt) as (rfd' & reply & Ha & Hr & Hkeep & Hno).
  exists arg, rfd', reply. split_and!; [|done..].
  apply (can_act _ (ARun (length P)) (mkWorld (nodes w) (pcs w)
    (P ++ GAppendRPC i id arg Sent :: Q) (counts w))); simpl;
    [|by rewrite Hpool, list_lookup_middle|].
  { rewrite Hpool, list_lookup_middle by done. simpl. rewrite Hi. simpl. rewrite Harg. simpl.
    unfold upd_pool. by rewrite Hpool, insert_app_r_alt, Nat.sub_diag by done. }
  eapply (can_act _ (ARun (length P))); [| |reflexivity]; simpl;
    rewrite list_lookup_middle by done; simpl; rewrite Hid; simpl; [|done].
  rewrite Ha. simpl. unfold upd_pool, upd_node. simpl.
  by rewrite insert_app_r_alt, Nat.sub_diag by done.
Qed.

(** A refusal moves [NextIndex] back by one. *)
Lemma refused rf id k reply :
  leading rf → NextIndex rf !! id = Some (Z.of_nat (S k)) → AER_Term reply = t →
  AER_Success reply = false →
  StartAppendLog_reply id reply rf =
    Some (set_NextIndex (<[id := Z.of_nat k]> (NextIndex rf)) rf, true).
Proof.
  intros [_ Hct _ _ _ _ _ _ _] Hnext Hr Hs. unfold StartAppendLog_reply.
  rewrite Hct, Hr, Z.ltb_irrefl, Hs, zget_nat, Hnext. cbn [mbind option_bind].
  assert (zset (NextIndex rf) (Z.of_nat id) (Z.of_nat (S k) - 1)%Z =
    Some (<[id := Z.of_nat k]> (NextIndex rf))) as ->; [|done].
  apply zset_Some. apply lookup_lt_Some in Hnext. unfold zlen. split; [lia|].
  f_equal; lia.
Qed.

(** The leader goes back in its log until the other peer accepts. *)
Lemma accepted_at_last k w P Q id rf rfd :
  pool w = P ++ GAppend i id :: Q → nodes w !! i = Some rf → leading rf → id ≠ i →
  nodes w !! id = Some rfd → behind rfd →
  NextIndex rf !! id = Some (Z.of_nat (S k)) → k < length l0 →
  ∃ w' arg reply rfd' nx, can w w' ∧
    nodes w' = <[id := rfd']> (<[i := set_NextIndex nx rf]> (nodes w)) ∧
    pool w' = P ++ GAppendRPC i id arg (Replied reply) :: Q ∧
    AE_Term arg = t ∧ arg_end arg = length l ∧ AER_Term reply = t ∧
    AER_Success reply = true ∧ length nx = n ∧
    (∀ j, j ≠ id → nx !! j = NextIndex rf !! j).
Proof using Hsent.
  revert w rf rfd. induction k as [|k IH]; intros w rf rfd Hpool Hi Hlead Hne Hid Hb Hnext Hk;
    destruct (probe w P Q id _ rf rfd Hpool Hi Hlead Hne Hid Hb Hnext Hk)
      as (arg & rfd' & reply & Hcan & Hat & Hend & Hr & Hno);
    pose proof (ld_next _ Hlead) as Hnl;
    (destruct (AER_Success reply) eqn:Hs;
      [eexists _, arg, reply, rfd', (NextIndex rf); split; [exact Hcan|];
       split_and!; try done; simpl; by rewrite set_NextIndex_id, (list_insert_id _ i rf)|]).
  { by destruct (Hno eq_refl). }
  destruct (Hno eq_refl) as [Hb' _].
  set (nx := <[id := Z.of_nat (S k)]> (NextIndex rf)).
  assert (length nx = n) as Hnx by by (unfold nx; rewrite length_insert).
  set (w1 := mkWorld (<[i := set_NextIndex nx rf]> (<[id := rfd']> (nodes w))) (pcs w)
               (P ++ GAppend i id :: Q) (counts w)).
  assert (can w w1) as Hcan1.
  { etrans; [exact Hcan|]. eapply (can_act _ (ARun (length P))); [| |reflexivity]; simpl;
      rewrite list_lookup_middle by done; simpl; rewrite list_lookup_insert_ne, Hi by done; simpl.
    - rewrite (refused _ _ _ _ Hlead Hnext Hr Hs). simpl. unfold upd_node, upd_pool. simpl.
      rewrite insert_app_r_alt, Nat.sub_diag by done. done.
    - unfold prompt_reply. by rewrite Hs. }
  destruct (IH w1 (set_NextIndex nx rf) rfd')
    as (w2 & arg2 & reply2 & rfd2 & nx2 & Hcan2 & Hns2 & Hpool2 & ? & ? & ? & ? & ? & Hnx2);
    [done| |by apply leading_next|done| |done| |lia|].
  - simpl. rewrite list_lookup_insert_eq; [done|]. rewrite length_insert.
    by eapply lookup_lt_Some.
  - simpl. rewrite list_lookup_insert_ne by done. rewrite list_lookup_insert_eq; [done|].
    by eapply lookup_lt_Some.
  - simpl. unfold nx. rewrite list_lookup_insert_eq; [done|]. by eapply lookup_lt_Some.
  - exists w2, arg2, reply2, rfd2, nx2. split_and!; try done.
    + by etrans.
    + rewrite Hns2. simpl. rewrite list_insert_insert_eq, (list_insert_insert_ne _ i id) by done.
      by rewrite list_insert_insert_eq.
    + intros j Hj. rewrite Hnx2 by done. simpl. unfold nx. by rewrite list_lookup_insert_ne.
Qed.

(** ** The commit *)

(** The command has been delivered, at the end of the log. *)
Definition delivered_by rf : Prop :=
  State rf = Leader ∧ CurrentTerm rf = t ∧ Log rf = l ∧
  last (applyCh rf) = Some (mkApplyMsg L c false []).

Lemma last_apply_msgs (log : list (LogEntry Cmd)) from m e :
  (0 ≤ from)%Z → zget log (from + Z.of_nat (S m))%Z = Some e →
  last (apply_msgs log from (S m)) =
    Some (mkApplyMsg (from + Z.of_nat (S m))%Z (Log_Command e) false []).
Proof.
  revert from. induction m as [|m IH]; intros from Hf He.
  - change (Z.of_nat 1) with 1%Z in *. simpl. by rewrite He.
  - pose proof (zget_lt _ _ _ He) as Hlt.
    destruct (zget_is_Some log (from + 1)%Z) as [e1 H1]; [lia|].
    change (apply_msgs log from (S (S m))) with
      (match zget log (from + 1)%Z with
       | Some e => mkApplyMsg (from + 1)%Z (Log_Command e) false []
                     :: apply_msgs log (from + 1)%Z (S m)
       | None => []
       end).
    rewrite H1, last_cons.
    rewrite IH; [|lia|replace (from + 1 + Z.of_nat (S m))%Z with (from + Z.of_nat (S (S m)))%Z by lia; done].
    do 2 f_equal. lia.
Qed.

Lemma at_end : zget l L = Some (mkLog t c).
Proof. unfold zlen. rewrite zget_nat. by apply list_lookup_middle. Qed.

Lemma L_pos : (1 ≤ L)%Z.
Proof using Hsent. apply lookup_lt_Some in Hsent. unfold zlen. lia. Qed.

(** The commit rule commits the last entry unless the median is still 0. *)
Lemma advanceCommit_leading rf :
  0 < n → leading rf →
  ∃ rf', advanceCommit rf = Some rf' ∧
    (delivered_by rf' ∨ rf' = rf ∧ 0%Z ∈ MatchIndex rf).
Proof using Hsent Ht.
  intros Hn [Hst Hct Hme Hlog _ Hlen Hall Hla Hci]. unfold advanceCommit.
  rewrite zget_median.
  destruct (lookup_lt_is_Some_2 (sort_desc (MatchIndex rf)) (length (MatchIndex rf) / 2)) as [N HN].
  { rewrite sort_desc_length, Hlen. apply Nat.div_lt; lia. }
  rewrite HN. cbn [mbind option_bind].
  assert (N ∈ MatchIndex rf) as Hin.
  { rewrite <-sort_desc_perm. by eapply list_elem_of_lookup_2. }
  rewrite list.Forall_forall in Hall. destruct (Hall N Hin) as [->| ->].
  - exists rf. split; [|by right]. destruct (_ <? _)%Z; [|done]. rewrite Hlog.
    change 0%Z with (Z.of_nat 0). rewrite zget_nat, lookup_app_l by (by eapply lookup_lt_Some).
    rewrite Hsent. cbn [mbind option_bind]. rewrite Hct, (proj2 (Z.eqb_neq _ _)); [done|]. cbn. lia.
  - rewrite (proj2 (Z.ltb_lt _ _) Hci), Hlog, at_end. simpl. rewrite Hct, Z.eqb_refl.
    rewrite updateLastApplied_spec; simpl; [|lia|rewrite Hlog, zlen_app; unfold zlen; simpl; lia].
    eexists. split; [done|]. left. split_and!; [done..|]. simpl. rewrite Hlog.
    destruct (Z.to_nat (L - LastApplied rf)) as [|m] eqn:Hm; [lia|].
    assert (LastApplied rf + Z.of_nat (S m) = L)%Z as Hsum by lia.
    rewrite last_app, (last_apply_msgs _ _ _ (mkLog t c)); [|lia|].
    + by rewrite Hsum.
    + rewrite Hsum. apply at_end.
Qed.

Lemma accepted_reply rf id reply :
  leading rf → i < n → id < n → AER_Term reply = t → AER_Success reply = true →
  ∃ rf', StartAppendLog_reply id reply rf = Some (rf', false) ∧
    (delivered_by rf' ∨
     leading rf' ∧ NextIndex rf' = <[id := (L + 1)%Z]> (NextIndex rf) ∧
     MatchIndex rf' = <[i := L]> (<[id := L]> (MatchIndex rf)) ∧ 0%Z ∈ MatchIndex rf').
Proof using Hsent Ht.
  intros Hlead Hi Hid Hr Hs. destruct (Hlead) as [Hst Hct Hme Hlog Hnl Hml Hall Hla Hci].
  set (rf1 := set_MatchIndex (<[i := L]> (<[id := L]> (MatchIndex rf)))
    (set_NextIndex (<[id := (L + 1)%Z]> (NextIndex rf)) rf)).
  assert (leading rf1) as Hlead1.
  { split; simpl; rewrite ?length_insert; try done.
    do 2 (apply Forall_insert; [|by right]). done. }
  destruct (advanceCommit_leading rf1) as (rf' & Ha & Hor); [lia|done|].
  exists rf'. split; [|by destruct Hor as [?|[-> ?]]; [left|right]].
  unfold StartAppendLog_reply. rewrite Hct, Hr, Z.ltb_irrefl, Hs, Hlog.
  replace (zlen l - 1)%Z with L by (rewrite zlen_app; unfold zlen; simpl; lia).
  assert (zset (MatchIndex rf) (Z.of_nat id) L = Some (<[id := L]> (MatchIndex rf))) as ->.
  { apply zset_Some. unfold zlen. rewrite Nat2Z.id. split; [lia|done]. }
  cbn [mbind option_bind]. simpl MatchIndex. rewrite zget_nat, list_lookup_insert_eq by lia.
  cbn [mbind option_bind]. simpl NextIndex.
  assert (zset (NextIndex rf) (Z.of_nat id) (L + 1)%Z =
    Some (<[id := (L + 1)%Z]> (NextIndex rf))) as ->.
  { apply zset_Some. unfold zlen. rewrite Nat2Z.id. split; [lia|done]. }
  cbn [mbind option_bind]. simpl. rewrite Hme, Hlog.
  replace (zlen l - 1)%Z with L by (rewrite zlen_app; unfold zlen; simpl; lia).
  assert (zset (<[id := L]> (MatchIndex rf)) (Z.of_nat i) L =
    Some (<[i := L]> (<[id := L]> (MatchIndex rf)))) as ->.
  { apply zset_Some. unfold zlen. rewrite Nat2Z.id, length_insert. split; [lia|done]. }
  cbn [mbind option_bind]. change (advanceCommit _) with (advanceCommit rf1) at 1. by rewrite Ha.
Qed.

(** The goroutine hands a positive reply over. *)
Lemma run_accepted w P Q id arg reply rf rf' :
  pool w = P ++ GAppendRPC i id arg (Replied reply) :: Q → nodes w !! i = Some rf →
  leading rf → AE_Term arg = t → arg_end arg = length l → AER_Term reply = t →
  AER_Success reply = true → StartAppendLog_reply id reply rf = Some (rf', false) →
  can w (mkWorld (<[i := rf']> (nodes w)) (pcs w) (P ++ Q) (counts w)).
Proof.
  intros Hpl Hi [Hst Hct _ Hlog _ _ _ _ _] Hat Hend Hr Hs Hreply.
  eapply (can_act _ (ARun (length P))); [| |reflexivity]; simpl;
    rewrite Hpl, list_lookup_middle by done; simpl; rewrite Hi; simpl.
  - rewrite Hreply. simpl. unfold upd_node, upd_pool. simpl. by rewrite Hpl, delete_middle.
  - unfold prompt_reply.
    rewrite Hs, bool_decide_true, Hct, Hat, Hr, Z.ltb_irrefl, Z.eqb_refl, Hlog, Hend by done.
    simpl. by rewrite Nat.eqb_refl.
Qed.

(** ** All the other peers *)

(** The goroutines for [ids] are still to run; the rest is recorded to have the
    whole log. *)
Record replicating w (P : list (goroutine Cmd)) (ids : list nat) : Prop := {
  rp_lead : ∃ rf, nodes w !! i = Some rf ∧ leading rf ∧
    (∀ id, id ∈ ids → NextIndex rf !! id = Some L) ∧
    (∀ j, j < n → j ∉ ids → j ≠ i → MatchIndex rf !! j = Some L);
  rp_pool : pool w = P ++ (GAppend i <$> ids);
  rp_nodup : NoDup ids;
  rp_ids id : id ∈ ids → id ≠ i ∧ id < n ∧ ∃ rfd, nodes w !! id = Some rfd ∧ behind rfd;
}.

Lemma matched_insert (ms : list Z) id ids j :
  length ms = n → i < n → id < n →
  (∀ j, j < n → j ∉ id :: ids → j ≠ i → ms !! j = Some L) →
  j < n → j ∉ ids → <[i := L]> (<[id := L]> ms) !! j = Some L.
Proof.
  intros Hlen Hi Hid Hms Hj Hjn.
  destruct (decide (j = i)) as [->|Hji];
    [by rewrite list_lookup_insert_eq by (rewrite length_insert; lia)|].
  rewrite list_lookup_insert_ne by done.
  destruct (decide (j = id)) as [->|Hjd]; [by rewrite list_lookup_insert_eq by lia|].
  rewrite list_lookup_insert_ne by done. apply Hms; [done| |done].
  by apply not_elem_of_cons.
Qed.

(** One more peer: the last entry is committed, or there are peers left. *)
Lemma replicate_one w P id ids :
  i < n → replicating w P (id :: ids) →
  ∃ w', can w w' ∧
    ((∃ rf, nodes w' !! i = Some rf ∧ delivered_by rf) ∨
     replicating w' P ids ∧ ids ≠ []).
Proof using Hsent Ht.
  intros Hin [(rf & Hi & Hlead & Hnext & Hmatch) Hpool Hnd Hids]. simpl in Hpool.
  apply NoDup_cons in Hnd as [Hnotin Hnd].
  destruct (Hids id) as (Hne & Hidn & rfd & Hid & Hb); [by left|].
  pose proof L_pos as HL. pose proof (lookup_lt_Some _ _ _ Hi) as Hil.
  destruct (accepted_at_last (length l0 - 1) w P (GAppend i <$> ids) id rf rfd)
    as (w1 & arg & reply & rfd' & nx & Hcan & Hns & Hpl & Hat & Hend & Hr & Hs & Hnxl & Hnx);
    [done..| |unfold zlen in HL; lia|].
  { rewrite (Hnext id) by (by left). unfold zlen in *. do 2 f_equal. lia. }
  pose proof (leading_next rf nx Hlead Hnxl) as Hlead1.
  destruct (accepted_reply _ id reply Hlead1 Hin Hidn Hr Hs) as (rf' & Hreply & Hor).
  assert (nodes w1 !! i = Some (set_NextIndex nx rf)) as Hi1.
  { rewrite Hns, list_lookup_insert_ne, list_lookup_insert_eq by done. done. }
  pose proof (run_accepted w1 P _ id arg reply _ rf' Hpl Hi1 Hlead1 Hat Hend Hr Hs Hreply) as Hcan2.
  eexists. split; [by etrans|]. simpl.
  rewrite list_lookup_insert_eq by (by eapply lookup_lt_Some).
  destruct Hor as [?|(Hlead2 & Hnx2 & Hmt2 & H0)]; [left; by exists rf'|right].
  simpl in Hnx2, Hmt2.
  assert (∀ j, j < n → j ∉ ids → MatchIndex rf' !! j = Some L) as Hmatch2.
  { intros j. rewrite Hmt2. apply matched_insert; [apply Hlead|done..]. }
  split; [split; [| |done|]|].
  - exists rf'. simpl. rewrite list_lookup_insert_eq by (by eapply lookup_lt_Some).
    split_and!; [done..| |auto]. intros id' Hid'. rewrite Hnx2.
    assert (id ≠ id') by (by intros ->). rewrite list_lookup_insert_ne, Hnx by done.
    apply Hnext. by right.
  - done.
  - intros id' Hid'. destruct (Hids id') as (? & ? & Hrest); [by right|].
    assert (id ≠ id') by (by intros ->). split_and!; [done..|]. simpl.
    by rewrite Hns, !list_lookup_insert_ne by congruence.
  - intros ->. apply list_elem_of_lookup in H0 as [j Hj].
    rewrite Hmatch2 in Hj; [injection Hj; lia| |by apply not_elem_of_nil].
    apply lookup_lt_Some in Hj. by rewrite (ld_match _ Hlead2) in Hj.
Qed.

Lemma replicate_all w P ids :
  i < n → replicating w P ids → ids ≠ [] →
  ∃ w' rf, can w w' ∧ nodes w' !! i = Some rf ∧ delivered_by rf.
Proof using Hsent Ht.
  intros Hin. revert w. induction ids as [|id ids IH]; intros w Hw Hne; [done|].
  destruct (replicate_one w P id ids Hin Hw) as (w1 & Hcan & [(rf & ? & ?)|[Hw1 Hne1]]).
  - by exists w1, rf.
  - destruct (IH w1 Hw1 Hne1) as (w2 & rf & ? & ? & ?). exists w2, rf.
    split_and!; [by etrans|done..].
Qed.
End replication.

(** ** The theorem *)

Section progress.
Context {Cmd : Type} `{!Gob (gval Cmd)} (laws : GobLaws (gval Cmd)) (n : nat).
Implicit Types (w : world Cmd) (rf : Raft Cmd).

(** A leader of the largest term holds all that is chosen. *)
Lemma chosen_within V E G w i rf T e :
  einv n V E w → log_inv n V (tab G) w → safe_inv n V G w →
  nodes w !! i = Some rf → State rf = Leader →
  Forall (λ rf', (CurrentTerm rf' ≤ CurrentTerm rf)%Z) (nodes w) →
  chosen n G T e → e ≤ length (Log rf).
Proof.
  intros HE HI [HT Hn _] Hi Hl Hterms Hch. pose proof (li_lead _ _ _ _ HI _ _ Hi Hl) as HL.
  destruct (chosen_table _ _ _ _ _ HT Hch) as (j & m & Hm & He).
  assert (T ≤ CurrentTerm rf)%Z as Hle.
  { destruct Hch as (_ & Q & HQ & Hq). destruct (majority_nonempty n Q HQ) as [q Hin].
    destruct (Hq q Hin) as (a & Ha & _).
    destruct (lookup_lt_is_Some_2 (nodes w) q) as [rfq Hrfq].
    { rewrite (ei_len _ _ _ _ HE). apply HQ in Hin. set_solver. }
    pose proof (no_ack_term _ _ _ _ _ (Hn _ _ Hrfq) _ _ Ha).
    pose proof (Forall_lookup_1 _ _ _ _ Hterms Hrfq). simpl in *. lia. }
  destruct (decide (T = CurrentTerm rf)) as [->|Hne]; [by simplify_eq|].
  destruct (to_base _ _ _ HT _ _ _ HL) as (b & Hb & _).
  assert (take e m `prefix_of` take b (Log rf)) as Hpre%prefix_length.
  { eapply (completeness n HT T e); eauto; lia. }
  rewrite !length_take in Hpre. lia.
Qed.

Lemma leader_ahead w i rf :
  timely_run n w → nodes w !! i = Some rf → State rf = Leader →
  Forall (λ rf', (CurrentTerm rf' ≤ CurrentTerm rf)%Z) (nodes w) →
  (CommitIndex rf < zlen (Log rf))%Z ∧ (0 ≤ LastApplied rf < zlen (Log rf))%Z.
Proof using laws.
  intros Hw Hi Hl Hterms.
  destruct (timely_safe n laws w Hw) as (V & E & G & HE & HI & HS).
  pose proof (si_nodes _ _ _ _ HS _ _ Hi) as Hn.
  assert (∀ T e, chosen n G T e → (Z.of_nat e ≤ zlen (Log rf))%Z) as Hwithin.
  { intros T e Hch. unfold zlen. apply inj_le. by eapply chosen_within. }
  assert (0 < zlen (Log rf))%Z as Hpos.
  { destruct (li_node _ _ _ _ HI _ _ Hi) as [H0%lookup_lt_Some _]. unfold zlen. lia. }
  destruct (reachable_applied n w i rf (timely_reachable _ _ Hw) Hi) as [Hla Hidx].
  split.
  - destruct (no_commit _ _ _ _ _ Hn) as [?|(T & e & j & m & _ & Hch%Hwithin & _ & ? & _)]; lia.
  - split; [done|]. destruct (decide (LastApplied rf = 0%Z)) as [->|Hne]; [done|].
    assert (LastApplied rf ∈ AM_Index <$> applyCh rf) as (m & Hm & Hin)%list_elem_of_fmap.
    { rewrite Hidx. apply elem_of_seqZ. lia. }
    destruct (no_apply _ _ _ _ _ Hn m Hin) as (T & e & j & k & x & Hch%Hwithin & _ & ? & _). lia.
Qed.

(** The logs of an election's voters have no entry of the new term. *)
Lemma voters_behind w w' i t :
  timely_run n w → timely_run n w' → data <$> nodes w' = data <$> nodes w →
  Forall (λ rf, (CurrentTerm rf < t)%Z) (nodes w) →
  Forall (λ rf, (CurrentTerm rf ≤ t)%Z) (nodes w') →
  ∀ rf, nodes w' !! i = Some rf → behind t rf.
Proof using laws.
  intros Hw Hw' Hd Hlt Hle rf Hi.
  destruct (data_lookup _ _ _ _ Hd Hi) as (rf0 & Hi0 & [= _ _ Hlog _ _ _]).
  destruct (timely_safe n laws w Hw) as (V & E & G & HE & HI & HS).
  pose proof (si_nodes _ _ _ _ HS _ _ Hi0) as Hn. split.
  - exact (Forall_lookup_1 _ _ _ _ Hle Hi).
  - rewrite Hlog. by destruct (li_node _ _ _ _ HI _ _ Hi0).
  - rewrite Hlog. apply Forall_lookup. intros k e He.
    pose proof (no_terms _ _ _ _ _ Hn _ _ He).
    pose proof (Forall_lookup_1 _ _ _ _ Hlt Hi0). simpl in *. lia.
  - by destruct (reachable_applied n w' i rf (timely_reachable _ _ Hw') Hi).
Qed.

(** The new leader takes a command and sends its heartbeat. *)
Lemma heartbeat_sent w i rf c :
  nodes w !! i = Some rf → State rf = Leader → pcs w !! i = Some AtTop →
  can w (mkWorld (<[i := (Start c rf).1]> (nodes w)) (<[i := AtTop]> (pcs w))
           (pool w ++ (GAppend i <$> others rf)) (counts w)).
Proof.
  intros Hi Hl Hpc. pose proof (Start_core c rf) as [= Hme Hpe Hst _ _].
  assert (∀ rf', <[i := rf']> (nodes w) !! i = Some rf') as Hi1.
  { intros rf'. apply list_lookup_insert_eq. by eapply lookup_lt_Some. }
  assert (∀ pc, <[i := pc]> (pcs w) !! i = Some pc) as Hpc1.
  { intros pc. apply list_lookup_insert_eq. by eapply lookup_lt_Some. }
  eapply (can_act _ (AStart i c)); [by simpl; rewrite Hi|done|].
  eapply (can_act _ (ATop i)); [|done|].
  { unfold act, main_loop. simpl. rewrite Hi1. simpl. rewrite Hpc. by rewrite Hst, Hl. }
  eapply (can_act _ (AHeartbeat i)); [|done|reflexivity].
  unfold act, main_loop. simpl. rewrite Hi1. simpl. rewrite Hpc1. simpl.
  unfold upd_pc, upd_pool. simpl. rewrite list_insert_insert_eq.
  unfold others. by rewrite Hme, Hpe.
Qed.

Lemma heartbeat_replicating w i rf c pcs' :
  length (nodes w) = n → nodes w !! i = Some rf → State rf = Leader → me rf = i → peers rf = n →
  NextIndex rf = replicate n (zlen (Log rf)) → MatchIndex rf = replicate n 0%Z →
  (CommitIndex rf < zlen (Log rf))%Z → (0 ≤ LastApplied rf < zlen (Log rf))%Z →
  (∀ j rfj, nodes w !! j = Some rfj → j ≠ i → behind (CurrentTerm rf) rfj) →
  replicating n i (CurrentTerm rf) (Log rf) c
    (mkWorld (<[i := (Start c rf).1]> (nodes w)) pcs' (pool w ++ (GAppend i <$> others rf))
       (counts w)) (pool w) (others rf).
Proof.
  intros Hlen Hi Hl Hme Hpeers Hnext Hmatch Hci Hla Hothers.
  split; simpl; [|done|apply NoDup_others|].
  - exists (Start c rf).1. rewrite list_lookup_insert_eq by (by eapply lookup_lt_Some).
    split; [done|]. unfold Start. rewrite bool_decide_true by done. simpl. split_and!.
    + split; simpl; rewrite ?Hnext, ?Hmatch, ?length_replicate; try done.
      apply Forall_replicate. by left.
    + intros id [? _]%elem_of_others. rewrite Hnext. apply lookup_replicate_2. lia.
    + intros j Hj Hno Hji. destruct Hno. apply elem_of_others. lia.
  - intros id [Hid Hne]%elem_of_others. rewrite Hme, Hpeers in *. split_and!; [done..|].
    destruct (lookup_lt_is_Some_2 (nodes w) id) as [rfd Hd]; [lia|].
    exists rfd. rewrite list_lookup_insert_ne by done. split; [done|]. by eapply Hothers.
Qed.

Lemma fresh_leader_commits w i t c :
  2 ≤ n → timely_run n w → fresh_leader w i t → pcs w !! i = Some AtTop →
  (∀ j rf, nodes w !! j = Some rf → j ≠ i → behind t rf) →
  ∃ w' rf rf', can w w' ∧ nodes w !! i = Some rf ∧ nodes w' !! i = Some rf' ∧
    delivered_by t (Log rf) c rf'.
Proof using laws.
  intros Hn Hw [(rf & Hi & Hl & <- & Hnext & Hmatch) Hterms] Hpc Hothers.
  pose proof (timely_reachable _ _ Hw) as Hr. pose proof (reachable_nodes laws n w Hr) as Hlen.
  destruct (reachable_peer laws n w i rf Hr Hi) as (Hme & Hpeers & _).
  destruct (reachable_logs n laws w Hr) as (V & E & T & _ & HI).
  destruct (li_node _ _ _ _ HI _ _ Hi) as [Hsent _]. pose proof (li_term _ _ _ _ HI _ _ Hi) as Ht.
  destruct (leader_ahead w i rf Hw Hi Hl Hterms) as [Hci Hla].
  assert (i < n) as Hin by (rewrite <-Hlen; by eapply lookup_lt_Some).
  rewrite Hpeers in *.
  pose proof (heartbeat_sent w i rf c Hi Hl Hpc) as Hcan.
  pose proof (heartbeat_replicating w i rf c (<[i := AtTop]> (pcs w))
    Hlen Hi Hl Hme Hpeers Hnext Hmatch Hci Hla Hothers) as Hrep.
  destruct (replicate_all _ _ _ _ _ Hsent Ht _ _ _ Hin Hrep) as (w' & rf' & Hcan' & Hi' & Hd).
  - intros Hnil. pose proof (length_others rf) as Hlo. rewrite Hnil in Hlo. simpl in Hlo. lia.
  - exists w', rf, rf'. split_and!; [by etrans|done..].
Qed.

(** C8. Commands can be committed: from every world of a timely run of two or
    more peers, if not all of them believe to lead, then for every command
    there is a timely schedule after which some leader has appended it to its
    log, has committed it and has delivered it as its last message. *)
Theorem command_can_be_committed w j rfj (c : option Cmd) :
  2 ≤ n → timely_run n w → nodes w !! j = Some rfj → State rfj ≠ Leader →
  ∃ acts w' i rf rf', timely_exec w acts = Some w' ∧
    nodes w !! i = Some rf ∧ nodes w' !! i = Some rf' ∧ State rf' = Leader ∧
    Log rf' = Log rf ++ [mkLog (CurrentTerm rf') c] ∧
    last (applyCh rf') = Some (mkApplyMsg (zlen (Log rf)) c false []).
Proof using laws.
  intros Hn Hw Hj Hst. pose proof (timely_reachable _ _ Hw) as Hr.
  destruct (can_depose laws n w j rfj Hr Hj Hst) as (w1 & Hc1 & Hd1 & Hst1).
  pose proof (can_timely_run _ _ _ Hw Hc1) as Hw1.
  destruct (can_elect laws n w1 Hn (timely_reachable _ _ Hw1) Hst1)
    as (w2 & i & t & Hc2 & Hd2 & Hpc & Hfl & Hlt).
  pose proof (can_timely_run _ _ _ Hw1 Hc2) as Hw2.
  destruct (fresh_leader_commits w2 i t c Hn Hw2 Hfl Hpc)
    as (w3 & rf2 & rf3 & Hc3 & Hi2 & Hi3 & Hlead & <- & Hlog & Hlast).
  { intros k rf Hk _. eapply voters_behind; [exact Hw1|exact Hw2|done..|apply Hfl|exact Hk]. }
  destruct (data_lookup (nodes w) (nodes w2) i rf2) as (rf & Hi & [= _ _ Heq _ _ _]);
    [congruence|done|].
  assert (can w w3) as [acts He] by (by etrans; [exact Hc1|etrans]).
  exists acts, w3, i, rf, rf3. rewrite <-Heq. by split_and!.
Qed.
End progress.

(** The witness starts from a world with leaders of two terms, logs of different
    lengths and goroutines under way. *)
Lemma command_can_be_committed_witness :
  ∃ acts w' i rf rf', timely_exec timely_world acts = Some w' ∧
    nodes timely_world !! i = Some rf ∧ nodes w' !! i = Some rf' ∧ State rf' = Leader ∧
    Log rf' = Log rf ++ [mkLog (CurrentTerm rf') (Some 9)] ∧
    last (applyCh rf') = Some (mkApplyMsg (zlen (Log rf)) (Some 9) false []).
Proof.
  eapply (command_can_be_committed demo_gob_laws 3 timely_world 2);
    [lia|apply timely_world_run|by vm_compute|by vm_compute].
Defined.
