(* ===== verification/LabRpc.v ===== *)
(** * The simulated network: labrpc/labrpc.go

    The channel-based RPC package of the labs.  A [Server] is a collection
    of [Service]s; a [Network] maps the names of client end-points to servers
    and can lose requests and replies, reorder replies and cut a server off.

    Every [ClientEnd.Call] is one [call]: the state of the goroutine that
    runs [ProcessReq] for it ([ppc]), of the goroutine that runs the handler
    ([hpc]), and the caller's result.  Goroutines interleave at the points
    where the source blocks or takes the network's lock; the values drawn
    from [math/rand] are arguments of the actions, sleeps only let other
    actions happen.  A handler runs in one step.  A [reflect.Type] is
    represented by its zero value, which is what [reflect.New] makes of it;
    servers and receivers are objects behind pointers, so two servers are
    compared by identity, as in the source. *)

From Stdlib Require Import Ascii.
From stdpp Require Export functions.
From S2P Require Import Prelude GoBase.

(** ** strings.LastIndex(s, ".") and slices of strings *)

Fixpoint LastIndex_from (s : string) (c : Ascii.ascii) (i acc : Z) : Z :=
  match s with
  | EmptyString => acc
  | String a s' =>
      LastIndex_from s' c (i + 1) (if Ascii.eqb a c then i else acc)
  end.

Definition LastIndex (s : string) (c : Ascii.ascii) : Z :=
  LastIndex_from s c 0 (-1).

Definition str_to (s : string) (i : Z) : option string :=
  if Z.ltb i 0 || Z.ltb (Z.of_nat (String.length s)) i then None
  else Some (String.substring 0 (Z.to_nat i) s).

Definition str_from (s : string) (i : Z) : option string :=
  if Z.ltb i 0 || Z.ltb (Z.of_nat (String.length s)) i then None
  else Some (String.substring (Z.to_nat i)
               (String.length s - Z.to_nat i) s).

Section labrpc.
Context {Name V St : Type} `{Countable Name} `{!Gob V}.

(** ** Messages *)

Record reqMsg := mkReq {
  endname : Name;
  svcMeth : string;
  argsType : V;
  args : list byte;
}.

Record replyMsg := mkReply { ok : bool; reply : list byte }.

(** ** Services and servers *)

Record Method := mkMethod {
  m_Name : string;
  m_PkgPath : string;
  m_NumIn : Z;
  m_In2_Ptr : bool;
  m_NumOut : Z;
  m_replyType : V;
  m_Func : St → V → V → St * V;
}.

Record Service := mkService {
  svc_name : string;
  svc_rcvr : nat;
  svc_methods : gmap string Method;
}.

(** The method looks like a handler. *)
Definition suitable (m : Method) : bool :=
  negb (negb (bool_decide (m_PkgPath m = "")) ||
        negb (Z.eqb (m_NumIn m) 3) ||
        negb (m_In2_Ptr m) ||
        negb (Z.eqb (m_NumOut m) 0)).

Definition MakeService (name : string) (rcvr : nat) (typ : list Method)
    : Service :=
  mkService name rcvr
    (fold_left (λ ms m, if suitable m then <[m_Name m := m]> ms else ms)
       typ ∅).

Record Server := mkServer {
  services : gmap string Service;
  count : Z;
}.

Definition MakeServer : Server := mkServer ∅ 0.

Definition AddService (svc : Service) (rs : Server) : Server :=
  mkServer (<[svc_name svc := svc]> (services rs)) (count rs).

Definition Server_GetCount (rs : Server) : Z := count rs.

(** [Service.dispatch]: the receivers' states afterwards, the reply, and the
    argument and reply values of the handler call. *)
Definition Service_dispatch (svc : Service) (methname : string) (req : reqMsg)
    (objs : nat → St) : result ((nat → St) * replyMsg * (V * V)) :=
  match svc_methods svc !! methname with
  | Some method =>
      let arg := default (argsType req) (gob_decode (args req) 0) in
      let '(st, replyv) :=
        m_Func method (objs (svc_rcvr svc)) arg (m_replyType method) in
      Ok (<[svc_rcvr svc := st]> objs,
          mkReply true (gob_encode [replyv]), (arg, replyv))
  | None => Fatal
  end.

(** [Server.dispatch]. *)
Definition Server_dispatch (rs : Server) (req : reqMsg) (objs : nat → St)
    : result (Server * ((nat → St) * replyMsg * (V * V))) :=
  let rs' := mkServer (services rs) (count rs + 1) in
  let dot := LastIndex (svcMeth req) "."%char in
  rbind (oget (str_to (svcMeth req) dot) Panic) (λ serviceName,
  rbind (oget (str_from (svcMeth req) (dot + 1)) Panic) (λ methodName,
  match services rs !! serviceName with
  | Some service =>
      rbind (Service_dispatch service methodName req objs) (λ r, Ok (rs', r))
  | None => Fatal
  end)).

(** ** The network *)

Record ClientEnd := mkEnd { ce_endname : Name }.

Record Network := mkNetwork {
  reliable : bool;
  longDelays : bool;
  longReordering : bool;
  ends : gmap Name ClientEnd;
  enabled : gmap Name bool;
  servers : gmap Name (option nat);
  connections : gmap Name (option Name);
}.

Definition MakeNetwork : Network := mkNetwork true false false ∅ ∅ ∅ ∅.

Definition Reliable (yes : bool) (rn : Network) : Network :=
  mkNetwork yes (longDelays rn) (longReordering rn) (ends rn) (enabled rn)
    (servers rn) (connections rn).

Definition LongReordering (yes : bool) (rn : Network) : Network :=
  mkNetwork (reliable rn) (longDelays rn) yes (ends rn) (enabled rn)
    (servers rn) (connections rn).

Definition LongDelays (yes : bool) (rn : Network) : Network :=
  mkNetwork (reliable rn) yes (longReordering rn) (ends rn) (enabled rn)
    (servers rn) (connections rn).

(** Reading a Go map at a missing key gives the zero value. *)
Definition is_enabled (rn : Network) (e : Name) : bool :=
  default false (enabled rn !! e).
Definition connection (rn : Network) (e : Name) : option Name :=
  mjoin (connections rn !! e).
Definition server (rn : Network) (s : Name) : option nat :=
  mjoin (servers rn !! s).

Definition ReadEndnameInfo (e : Name) (rn : Network)
    : bool * option Name * option nat * bool * bool :=
  let servername := connection rn e in
  (is_enabled rn e, servername, servername ≫= server rn,
   reliable rn, longReordering rn).

Definition IsServerDead (e servername : Name) (p : nat) (rn : Network)
    : bool :=
  negb (is_enabled rn e) || negb (bool_decide (server rn servername = Some p)).

Definition MakeEnd (e : Name) (rn : Network) : result (Network * ClientEnd) :=
  match ends rn !! e with
  | Some _ => Fatal
  | None =>
      let ce := mkEnd e in
      Ok (mkNetwork (reliable rn) (longDelays rn) (longReordering rn)
            (<[e := ce]> (ends rn)) (<[e := false]> (enabled rn))
            (servers rn) (<[e := None]> (connections rn)), ce)
  end.

Definition set_servers (s : gmap Name (option nat)) (rn : Network) : Network :=
  mkNetwork (reliable rn) (longDelays rn) (longReordering rn) (ends rn)
    (enabled rn) s (connections rn).

Definition AddServer (s : Name) (p : nat) (rn : Network) : Network :=
  set_servers (<[s := Some p]> (servers rn)) rn.

Definition DeleteServer (s : Name) (rn : Network) : Network :=
  set_servers (<[s := None]> (servers rn)) rn.

Definition Connect (e s : Name) (rn : Network) : Network :=
  mkNetwork (reliable rn) (longDelays rn) (longReordering rn) (ends rn)
    (enabled rn) (servers rn) (<[e := Some s]> (connections rn)).

Definition Enable (e : Name) (b : bool) (rn : Network) : Network :=
  mkNetwork (reliable rn) (longDelays rn) (longReordering rn) (ends rn)
    (<[e := b]> (enabled rn)) (servers rn) (connections rn).

(** [GetCount] of a server that was deleted dereferences nil. *)
Definition GetCount (s : Name) (heap : nat → Server) (rn : Network)
    : result Z :=
  rbind (oget (server rn s) Panic) (λ p, Ok (Server_GetCount (heap p))).

(** ** One call

    What the goroutine of [ProcessReq] does next: read the end-point's entry;
    wait in the [select] loop; look whether the server is dead and choose the
    reply, with the reply received, if any; send on [replyCh]; nothing. *)
Inductive ppc :=
| PStart
| PWait (servername : Name) (p : nat) (rel longre : bool)
| PCheck (servername : Name) (p : nat) (rel longre : bool)
    (received : option replyMsg)
| PReply (r : replyMsg)
| PDone.

(** The goroutine of the handler: not started, about to run [dispatch] on a
    server, about to send the reply on [ech], finished. *)
Inductive hpc :=
| HNone
| HRun (p : nat)
| HSend (r : replyMsg)
| HDone.

Record call := mkCall {
  c_req : reqMsg;
  c_args : V;
  c_pc : ppc;
  c_h : hpc;
  c_res : option (option V);
}.

Definition set_pc (pc : ppc) (c : call) : call :=
  mkCall (c_req c) (c_args c) pc (c_h c) (c_res c).
Definition set_h (h : hpc) (c : call) : call :=
  mkCall (c_req c) (c_args c) (c_pc c) h (c_res c).
Definition set_res (r : option V) (c : call) : call :=
  mkCall (c_req c) (c_args c) (c_pc c) (c_h c) (Some r).

(** [rand.Int()%1000 < 100]. *)
Definition lost (rand : Z) : bool := Z.ltb (rand mod 1000) 100.

(** [ProcessReq] up to the [select] loop. *)
Definition ProcessReq_start (rn : Network) (rand : Z) (c : call) : call :=
  let '(en, servername, srv, rel, longre) :=
    ReadEndnameInfo (endname (c_req c)) rn in
  match en, servername, srv with
  | true, Some sn, Some p =>
      if negb rel && lost rand then set_pc (PReply (mkReply false [])) c
      else set_h (HRun p) (set_pc (PWait sn p rel longre) c)
  | _, _, _ => set_pc (PReply (mkReply false [])) c
  end.

(** [ProcessReq] after the loop.  The branch that delays the reply sends the
    same message as the last one. *)
Definition ProcessReq_finish (rn : Network) (rand randn : Z) (sn : Name)
    (p : nat) (rel longre : bool) (received : option replyMsg) (c : call)
    : call :=
  let serverDead := IsServerDead (endname (c_req c)) sn p rn in
  match received with
  | None => set_pc (PReply (mkReply false [])) c
  | Some r =>
      if serverDead then set_pc (PReply (mkReply false [])) c
      else if negb rel && lost rand then set_pc (PReply (mkReply false [])) c
      else if longre && Z.ltb (randn mod 900) 600 then set_pc (PReply r) c
      else set_pc (PReply r) c
  end.

(** The first half of [ClientEnd.Call]: the request it sends. *)
Definition Call_request (ce : ClientEnd) (meth : string) (typ a : V) : reqMsg :=
  mkReq (ce_endname ce) meth typ (gob_encode [a]).

(** The second half: what [Call] returns for a reply message. *)
Definition Call_return (rep : replyMsg) : result (option V) :=
  if ok rep then
    rbind (oget (gob_decode (reply rep) 0) Fatal) (λ v, Ok (Some v))
  else Ok None.

(** ** The system

    [history] lists the handler calls made so far: the call, the server, the
    argument and the reply. *)
Record world := mkWorld {
  net : Network;
  heap : nat → Server;
  objs : nat → St;
  calls : list call;
  history : list (nat * nat * V * V);
}.

Inductive action :=
| AReliable (b : bool)
| ALongReordering (b : bool)
| ALongDelays (b : bool)
| AMakeEnd (e : Name)
| AAddServer (s : Name) (p : nat)
| ADeleteServer (s : Name)
| AConnect (e s : Name)
| AEnable (e : Name) (b : bool)
| AAddService (p : nat) (svc : Service)
| ACall (e : Name) (meth : string) (typ a : V)
| AProcess (i : nat) (rand : Z)
| ADispatch (i : nat)
| ARecv (i : nat)
| ATimeout (i : nat)
| AFinish (i : nat) (rand randn : Z)
| AReturn (i : nat).

Definition upd_net (f : Network → Network) (w : world) : result world :=
  Ok (mkWorld (f (net w)) (heap w) (objs w) (calls w) (history w)).
Definition upd_call (i : nat) (c : call) (w : world) : result world :=
  Ok (mkWorld (net w) (heap w) (objs w) (<[i := c]> (calls w)) (history w)).

(** The handler goroutine of call [i]. *)
Definition run_dispatch (i : nat) (c : call) (p : nat) (w : world)
    : result world :=
  rbind (Server_dispatch (heap w p) (c_req c) (objs w))
    (λ '(rs, (objs', r, (a, v))),
    Ok (mkWorld (net w) (<[p := rs]> (heap w)) objs'
          (<[i := set_h (HSend r) c]> (calls w))
          (history w ++ [(i, p, a, v)]))).

Definition act (a : action) (w : world) : result world :=
  match a with
  | AReliable b => upd_net (Reliable b) w
  | ALongReordering b => upd_net (LongReordering b) w
  | ALongDelays b => upd_net (LongDelays b) w
  | AMakeEnd e => rbind (MakeEnd e (net w)) (λ '(rn, _), upd_net (λ _, rn) w)
  | AAddServer s p => upd_net (AddServer s p) w
  | ADeleteServer s => upd_net (DeleteServer s) w
  | AConnect e s => upd_net (Connect e s) w
  | AEnable e b => upd_net (Enable e b) w
  | AAddService p svc =>
      Ok (mkWorld (net w) (<[p := AddService svc (heap w p)]> (heap w))
            (objs w) (calls w) (history w))
  | ACall e meth typ a =>
      rbind (oget (ends (net w) !! e) Blocked) (λ ce,
      Ok (mkWorld (net w) (heap w) (objs w)
            (calls w ++ [mkCall (Call_request ce meth typ a) a PStart HNone None])
            (history w)))
  | AProcess i rand =>
      rbind (oget (calls w !! i) Blocked) (λ c,
      match c_pc c with
      | PStart => upd_call i (ProcessReq_start (net w) rand c) w
      | _ => Blocked
      end)
  | ADispatch i =>
      rbind (oget (calls w !! i) Blocked) (λ c,
      match c_h c with
      | HRun p => run_dispatch i c p w
      | _ => Blocked
      end)
  | ARecv i =>
      rbind (oget (calls w !! i) Blocked) (λ c,
      match c_pc c, c_h c with
      | PWait sn p rel longre, HSend r =>
          upd_call i (set_h HDone (set_pc (PCheck sn p rel longre (Some r)) c)) w
      | _, _ => Blocked
      end)
  | ATimeout i =>
      rbind (oget (calls w !! i) Blocked) (λ c,
      match c_pc c with
      | PWait sn p rel longre =>
          if IsServerDead (endname (c_req c)) sn p (net w)
          then upd_call i (set_pc (PCheck sn p rel longre None) c) w
          else Ok w
      | _ => Blocked
      end)
  | AFinish i rand randn =>
      rbind (oget (calls w !! i) Blocked) (λ c,
      match c_pc c with
      | PCheck sn p rel longre received =>
          upd_call i
            (ProcessReq_finish (net w) rand randn sn p rel longre received c) w
      | _ => Blocked
      end)
  | AReturn i =>
      rbind (oget (calls w !! i) Blocked) (λ c,
      match c_pc c with
      | PReply r =>
          rbind (Call_return r) (λ res,
          upd_call i (set_res res (set_pc PDone c)) w)
      | _ => Blocked
      end)
  end.

Definition init (objs0 : nat → St) : world :=
  mkWorld MakeNetwork (λ _, MakeServer) objs0 [] [].

Fixpoint exec (tr : list action) (w : world) : result world :=
  match tr with
  | [] => Ok w
  | a :: tr => rbind (act a w) (exec tr)
  end.

Inductive reachable (objs0 : nat → St) : world → Prop :=
| reachable_init : reachable objs0 (init objs0)
| reachable_act w a w' :
    reachable objs0 w → act a w = Ok w' → reachable objs0 w'.
End labrpc.
