(* ===== verification/LabRpcSafety.v ===== *)
(** * What labrpc promises to its callers

    A call that returns true had its handler run exactly once, on the
    caller's argument, and returns the handler's reply; no handler runs twice
    for one call; a server that was deleted never answers again; a reliable
    network with a live server delivers; [GetCount] counts handler runs. *)

From Stdlib Require Import Ascii.
From S2P Require Import Prelude GoBase GoStrings LabRpc.

(** ** Service and method names *)

Fixpoint dot_free (s : string) : bool :=
  match s with
  | EmptyString => true
  | String a s' => negb (Ascii.eqb a "."%char) && dot_free s'
  end.

Lemma LastIndex_from_app s1 s2 c i acc :
  LastIndex_from (s1 +:+ s2) c i acc =
  LastIndex_from s2 c (i + Z.of_nat (String.length s1))
    (LastIndex_from s1 c i acc).
Proof.
  revert i acc. induction s1 as [|a s1 IH]; intros i acc.
  - cbn. f_equal. lia.
  - change (String a s1 +:+ s2) with (String a (s1 +:+ s2)).
    cbn [LastIndex_from String.length]. rewrite IH. f_equal. lia.
Qed.

Lemma LastIndex_from_free s i acc :
  dot_free s = true → LastIndex_from s "."%char i acc = acc.
Proof.
  revert i acc. induction s as [|a s IH]; intros i acc Hf; [done|].
  cbn [dot_free] in Hf. apply andb_true_iff in Hf as [Ha Hf].
  apply negb_true_iff in Ha. cbn. rewrite Ha. by apply IH.
Qed.

Lemma LastIndex_dot s m :
  dot_free m = true →
  LastIndex (s +:+ "." +:+ m) "."%char = Z.of_nat (String.length s).
Proof.
  intros Hm. unfold LastIndex. rewrite LastIndex_from_app.
  change ("." +:+ m) with (String "."%char m). cbn [LastIndex_from].
  rewrite LastIndex_from_free by done. cbn. lia.
Qed.

Lemma split_name s m :
  dot_free m = true →
  let sm := s +:+ "." +:+ m in
  str_to sm (LastIndex sm "."%char) = Some s ∧
  str_from sm (LastIndex sm "."%char + 1) = Some m.
Proof.
  intros Hm sm. unfold sm. rewrite LastIndex_dot by done.
  unfold str_to, str_from. rewrite !length_string_app. cbn [String.length].
  pose proof (substring_suffix (s +:+ ".") m) as Hsuf.
  rewrite length_string_app in Hsuf. cbn [String.length] in Hsuf.
  destruct (Z.ltb_spec (Z.of_nat (String.length s)) 0); [lia|].
  destruct (Z.ltb_spec (Z.of_nat (String.length s) + 1) 0); [lia|].
  repeat match goal with |- context [Z.ltb ?a ?b] =>
    destruct (Z.ltb_spec a b); [lia|] end. simpl.
  split; f_equal.
  - rewrite Nat2Z.id. apply substring_prefix.
  - replace (Z.to_nat (Z.of_nat (String.length s) + 1))
      with (String.length s + 1) by lia.
    etrans; [|exact Hsuf]. rewrite <-string_app_assoc. f_equal.
    change ("." +:+ m) with (String "."%char m). cbn [String.length]. lia.
Qed.

Section safety.
Context {Name V St : Type} `{Countable Name} `{!Gob V}.
Notation world := (@world Name V St _ _).
Notation call := (@call Name V).
Notation action := (@action Name V St).
Implicit Types w : world.
Implicit Types c : call.
Implicit Types hist : list (nat * nat * V * V).

(** ** At most one handler run per call *)

(** The handler runs made for call [i]. *)
Definition runs (i : nat) hist : list (nat * nat * V * V) :=
  filter (λ r, r.1.1.1 = i) hist.

(** [r] is the reply of the one handler run made for the call. *)
Definition answered hist (i : nat) c (r : replyMsg) : Prop :=
  ∃ p v, runs i hist = [(i, p, c_args c, v)] ∧ r = mkReply true (gob_encode [v]).

Record call_inv hist (i : nat) c : Prop := {
  ci_args : args (c_req c) = gob_encode [c_args c];
  ci_handler :
    match c_h c with
    | HNone | HRun _ => runs i hist = []
    | HSend r => answered hist i c r
    | HDone => ∃ r, answered hist i c r
    end;
  ci_pc :
    match c_pc c with
    | PStart => c_h c = HNone
    | PCheck _ _ _ _ (Some r) => answered hist i c r
    | PReply r => ok r = true → answered hist i c r
    | _ => True
    end;
  ci_res v : c_res c = Some (Some v) → ∃ p, runs i hist = [(i, p, c_args c, v)];
}.

Record inv w : Prop := {
  inv_calls i c : calls w !! i = Some c → call_inv (history w) i c;
  inv_fresh i : length (calls w) ≤ i → runs i (history w) = [];
}.

Lemma runs_app_ne i j p a v hist :
  i ≠ j → runs i (hist ++ [(j, p, a, v)]) = runs i hist.
Proof.
  intros Hne. unfold runs. rewrite list.filter_app, filter_cons_False by (simpl; done).
  by rewrite filter_nil, app_nil_r.
Qed.

Lemma runs_app_eq i p a v hist :
  runs i (hist ++ [(i, p, a, v)]) = runs i hist ++ [(i, p, a, v)].
Proof. unfold runs. by rewrite list.filter_app, filter_cons_True. Qed.

(** The invariant of a call only looks at its own runs. *)
Lemma call_inv_ext hist hist' i c :
  runs i hist' = runs i hist → call_inv hist i c → call_inv hist' i c.
Proof.
  intros Hr [Ha Hh Hp Hres]. unfold answered in *.
  split; unfold answered; rewrite ?Hr; eauto.
Qed.

Lemma inv_upd w i c c' :
  inv w → calls w !! i = Some c →
  (call_inv (history w) i c → call_inv (history w) i c') →
  inv (mkWorld (net w) (heap w) (objs w) (<[i := c']> (calls w)) (history w)).
Proof.
  intros [Hc Hf] Hi Hc'. split; simpl.
  - intros j d. destruct (decide (i = j)) as [<-|Hne].
    + rewrite list_lookup_insert_eq by (by eapply lookup_lt_Some).
      intros [= <-]. eauto.
    + rewrite list_lookup_insert_ne by done. eauto.
  - intros j. rewrite length_insert. eauto.
Qed.

Lemma ProcessReq_start_inv rn rand hist i c :
  c_pc c = PStart → call_inv hist i c →
  call_inv hist i (ProcessReq_start rn rand c).
Proof.
  intros Hpc [Ha Hh Hp Hr]. rewrite Hpc in Hp. rewrite Hp in Hh.
  unfold ProcessReq_start. simpl.
  set (e := endname (c_req c)).
  destruct (is_enabled rn e), (connection rn e) as [sn|]; simpl;
    [destruct (server rn sn); [destruct (negb _ && _)|]|..];
    split; simpl; rewrite ?Hp; try done.
Qed.

Lemma ProcessReq_finish_inv rn rand randn sn p rel longre received hist i c :
  c_pc c = PCheck sn p rel longre received → call_inv hist i c →
  call_inv hist i (ProcessReq_finish rn rand randn sn p rel longre received c).
Proof.
  intros Hpc [Ha Hh Hp Hr]. rewrite Hpc in Hp. unfold ProcessReq_finish.
  destruct received as [r|]; [|split; done].
  destruct (IsServerDead _ _ _ _); [by split|].
  destruct (negb _ && _); [by split|]. by destruct (longre && _); split; simpl; auto.
Qed.

Lemma Server_dispatch_Ok rs (req : @reqMsg Name V) objs rs' objs' r a v :
  Server_dispatch (St:=St) rs req objs = Ok (rs', (objs', r, (a, v))) →
  r = mkReply true (gob_encode [v]) ∧
  a = default (argsType req) (gob_decode (args req) 0) ∧
  services rs' = services rs ∧ count rs' = (count rs + 1)%Z.
Proof.
  unfold Server_dispatch. intros Hd. run_result.
  destruct (services rs !! _) as [svc|]; run_result.
  unfold Service_dispatch in *.
  destruct (svc_methods svc !! _) as [m|]; run_result.
  destruct (m_Func m _ _ _) as [st v']. run_result.
  simplify_eq. done.
Qed.

(** The actions that only change the network's tables or the servers. *)
Lemma inv_net w rn hp :
  inv w → inv (mkWorld rn hp (objs w) (calls w) (history w)).
Proof. by intros [Hc Hf]. Qed.

Lemma run_dispatch_inv (laws : GobLaws V) w i c p w' :
  inv w → calls w !! i = Some c → c_h c = HRun p →
  run_dispatch i c p w = Ok w' → inv w'.
Proof.
  intros [Hc Hf] Hi Hh Hrun. unfold run_dispatch in Hrun.
  run_result. rename x into d. destruct d as [rs [[objs' r] [a v]]].
  run_result. subst w'.
  match goal with Hd : Server_dispatch _ _ _ = Ok _ |- _ =>
    apply Server_dispatch_Ok in Hd as (-> & -> & _ & _) end.
  destruct (Hc i c Hi) as [Ha Hr Hp Hres]. rewrite Hh in Hr.
  rewrite Ha, gob_decode_encode. simpl.
  assert (∀ r0, ¬ answered (history w) i c r0) as Hno.
  { intros r0 (q & u & Hq & _). congruence. }
  split; simpl.
  - intros j d. destruct (decide (j = i)) as [->|Hne].
    + rewrite list_lookup_insert_eq by (by eapply lookup_lt_Some).
      intros [= <-]. split; simpl; [done|..].
      * exists p, v. by rewrite runs_app_eq, Hr.
      * destruct (c_pc c) as [| |????[]| |]; try done; [congruence|naive_solver|].
        intros ?. naive_solver.
      * intros u Hu. destruct (Hres u Hu) as [q Hq]. congruence.
    + rewrite list_lookup_insert_ne by done. intros Hj.
      eapply call_inv_ext; [by apply runs_app_ne|eauto].
  - intros j. rewrite length_insert. intros Hj. rewrite runs_app_ne; [eauto|].
    apply lookup_lt_Some in Hi. lia.
Qed.

Lemma Call_return_inv (laws : GobLaws V) hist i c r res :
  c_pc c = PReply r → Call_return r = Ok res → call_inv hist i c →
  call_inv hist i (set_res res (set_pc PDone c)).
Proof.
  intros Hpc Hret [Ha Hr Hp Hres]. rewrite Hpc in Hp. split; simpl; [done..|].
  intros v [= ->]. unfold Call_return in *.
  destruct (ok r) eqn:Hok; run_result; [|done].
  destruct (Hp eq_refl) as (p & u & Hq & ->). simpl in *.
  rewrite gob_decode_encode in *. simplify_eq/=. eauto.
Qed.

Lemma act_inv (laws : GobLaws V) a w w' : inv w → act a w = Ok w' → inv w'.
Proof.
  intros Hinv Hact. destruct a; simpl in Hact; unfold upd_net, upd_call in *;
    run_result; subst; try (by apply inv_net); try done.
  - destruct x. run_result. subst. by apply inv_net.
  - destruct Hinv as [Hc Hf]. split; simpl.
    + intros i d [Hd|[Hge Hd]]%lookup_app_Some; [eauto|].
      apply list_lookup_singleton_Some in Hd as [Hz <-].
      split; simpl; try done. apply Hf. lia.
    + intros i. rewrite length_app. simpl. intros. apply Hf. lia.
  - destruct (c_pc x) eqn:Hpc; run_result. subst. eapply inv_upd; [done..|].
    by apply ProcessReq_start_inv.
  - destruct (c_h x) eqn:Hh; run_result. by eapply run_dispatch_inv.
  - destruct (c_pc x) eqn:Hpc; run_result. destruct (c_h x) eqn:Hh; run_result.
    subst. eapply inv_upd; [done..|]. intros [Ha Hr Hp Hres].
    rewrite Hh in Hr. split; simpl; eauto.
  - destruct (c_pc x) eqn:Hpc; run_result.
    destruct (IsServerDead _ _ _ _); run_result; subst; [|done].
    eapply inv_upd; [done..|]. intros [Ha Hr Hp Hres]. by split.
  - destruct (c_pc x) eqn:Hpc; run_result. subst. eapply inv_upd; [done..|].
    by apply ProcessReq_finish_inv.
  - destruct (c_pc x) eqn:Hpc; run_result. subst. eapply inv_upd; [done..|].
    by eapply Call_return_inv.
Qed.

Lemma lab_reachable_inv (laws : GobLaws V) objs0 w : reachable objs0 w → inv w.
Proof.
  induction 1 as [|w a w' _ IH Ha]; [by split|]. by eapply act_inv.
Qed.

(** C12. Calls run their handler at most once, and a true result is honest:
    in every run of the network, the handler runs made for a call number at
    most one, and a call that returned true with a value had its handler run
    on exactly the argument it was given, and got that run's reply. *)
Theorem call_at_most_once (laws : GobLaws V) objs0 w (i : nat) c :
  reachable objs0 w → calls w !! i = Some c →
  length (runs i (history w)) ≤ 1 ∧
  (∀ v, c_res c = Some (Some v) →
     ∃ p, runs i (history w) = [(i, p, c_args c, v)]).
Proof.
  intros Hw Hi. apply (lab_reachable_inv laws) in Hw as [Hc _].
  destruct (Hc i c Hi) as [_ Hh _ Hres]. split; [|done].
  destruct (c_h c); [rewrite Hh; simpl; lia..| |];
    [destruct Hh as (? & ? & -> & _)|destruct Hh as (? & ? & ? & -> & _)];
    simpl; lia.
Qed.

(** ** Deleted servers never answer *)

(** No server name stands for the server object [p]. *)
Definition not_installed (p : nat) w : Prop :=
  ∀ s, server (net w) s ≠ Some p.

(** The call was sent to server [p] and has not been answered. *)
Definition waits_for (p : nat) c : Prop :=
  c_res c = None ∧
  ∃ sn rel longre, c_pc c = PWait sn p rel longre ∨
    ∃ received, c_pc c = PCheck sn p rel longre received.

(** The call failed, or is about to. *)
Definition refused c : Prop :=
  c_res c = None ∧ c_pc c = PReply (mkReply false []) ∨
  c_res c = Some None ∧ c_pc c = PDone.

Definition doomed (p i : nat) w : Prop :=
  ∃ c, calls w !! i = Some c ∧ (waits_for p c ∨ refused c).

Definition adds (p : nat) (a : action) : bool :=
  match a with AAddServer _ q => bool_decide (q = p) | _ => false end.

Lemma act_servers (a : action) w w' :
  act a w = Ok w' →
  servers (net w') =
    match a with
    | AAddServer s q => <[s := Some q]> (servers (net w))
    | ADeleteServer s => <[s := None]> (servers (net w))
    | _ => servers (net w)
    end.
Proof.
  intros Hact.
  destruct a; simpl in Hact; unfold upd_net, upd_call, run_dispatch, MakeEnd in *;
    repeat (run_result; subst; case_match); run_result; simplify_eq/=; done.
Qed.

Lemma not_installed_act p a w w' :
  not_installed p w → adds p a = false → act a w = Ok w' → not_installed p w'.
Proof.
  intros Hn Ha Hact s. specialize (Hn s). unfold server in *.
  rewrite (act_servers _ _ _ Hact). destruct a; try done; simpl in *.
  all: match goal with |- context [<[?t := _]> _] =>
    destruct (decide (s = t)) as [->|Hne] end.
  all: rewrite ?lookup_insert_eq, ?lookup_insert_ne by done; try done.
  norm_hyps. simpl. congruence.
Qed.

Lemma IsServerDead_not_installed p w e sn :
  not_installed p w → IsServerDead e sn p (net w) = true.
Proof.
  intros Hn. unfold IsServerDead. rewrite bool_decide_eq_false_2 by apply Hn.
  apply orb_true_r.
Qed.

Lemma doomed_upd p i j c c' w rn hp ob h :
  calls w !! j = Some c → doomed p i w →
  (waits_for p c ∨ refused c → waits_for p c' ∨ refused c') →
  doomed p i (mkWorld rn hp ob (<[j := c']> (calls w)) h).
Proof.
  intros Hj (d & Hd & Hw) Hc. destruct (decide (j = i)) as [->|Hne].
  - exists c'. simpl. rewrite list_lookup_insert_eq by (by eapply lookup_lt_Some).
    simplify_eq. auto.
  - exists d. simpl. by rewrite list_lookup_insert_ne.
Qed.

Lemma doomed_act p i a w w' :
  not_installed p w → doomed p i w → act a w = Ok w' → doomed p i w'.
Proof.
  intros Hn Hd Hact. unfold doomed.
  destruct a; simpl in *; unfold upd_net, upd_call, run_dispatch in *;
    run_result; subst; try exact Hd.
  - destruct x. run_result. by subst.
  - destruct Hd as (d & Hd & Hw). exists d. simpl. split; [|done].
    by apply lookup_app_l_Some.
  - destruct (c_pc x) eqn:Hpc; run_result. subst. eapply doomed_upd; [done..|].
    unfold waits_for, refused. rewrite Hpc. naive_solver.
  - destruct (c_h x) eqn:Hh; run_result. destruct x0 as [rs [[ob r] [a v]]].
    run_result. subst. by eapply doomed_upd.
  - destruct (c_pc x) eqn:Hpc; run_result. destruct (c_h x) eqn:Hh; run_result.
    subst. eapply doomed_upd; [done..|].
    unfold waits_for, refused. simpl. rewrite Hpc. naive_solver.
  - destruct (c_pc x) eqn:Hpc; run_result.
    destruct (IsServerDead _ _ _ _); run_result; subst; [|done].
    eapply doomed_upd; [done..|]. unfold waits_for, refused. simpl. rewrite Hpc.
    naive_solver.
  - destruct (c_pc x) eqn:Hpc; run_result. subst. eapply doomed_upd; [done..|].
    intros [[Hres (? & ? & ? & [?|[? ?]])]|[[??]|[??]]]; try congruence.
    replace p0 with p in * by congruence. unfold ProcessReq_finish.
    rewrite IsServerDead_not_installed by done.
    right. left. destruct received; done.
  - destruct (c_pc x) eqn:Hpc; run_result. subst. eapply doomed_upd; [done..|].
    intros [[Hres (? & ? & ? & [?|[? ?]])]|[[??]|[??]]]; try congruence.
    replace r with (mkReply false []) in * by congruence.
    unfold Call_return in *. simpl in *. run_result. subst. right. by right.
Qed.

(** A deleted server is never heard of again: once no name stands for the
    server object [p], and as long as [p] is not added back, a call that was
    waiting for [p] never returns true, even when its handler has run or runs
    later, and even when another server is added under the same name. *)
Theorem deleted_server_silent (p i : nat) (tr : list action) w w' c c' :
  not_installed p w → forallb (λ a, negb (adds p a)) tr = true →
  calls w !! i = Some c → waits_for p c →
  exec tr w = Ok w' → calls w' !! i = Some c' →
  ∀ v, c_res c' ≠ Some (Some v).
Proof.
  intros Hn Htr Hi Hc Hex Hi' v.
  assert (doomed p i w) as Hd by (exists c; auto). clear c Hi Hc.
  revert w Hn Hd Hex. induction tr as [|a tr IH]; intros w Hn Hd Hex.
  - simpl in Hex. run_result. subst.
    destruct Hd as (d & Hd & [[? _]|[[? _]|[? _]]]); naive_solver.
  - simpl in *. run_result. norm_hyps.
    eapply IH;
      [done|by eapply not_installed_act|by eapply doomed_act|done].
Qed.

(** ** A reliable network delivers *)

(** End-point [e] is enabled and connected to the live server [p], and the
    network loses nothing. *)
Definition live (e : Name) (p : nat) w : Prop :=
  reliable (net w) = true ∧ is_enabled (net w) e = true ∧
  ∃ sn, connection (net w) e = Some sn ∧ server (net w) sn = Some p.

(** An action of the calls themselves, not of the test harness. *)
Definition traffic (a : action) : bool :=
  match a with
  | ACall _ _ _ _ | AProcess _ _ | ADispatch _ | ARecv _ | ATimeout _
  | AFinish _ _ _ | AReturn _ => true
  | _ => false
  end.

(** The call has not failed and cannot fail as long as the server lives. *)
Definition on_track (e : Name) (p : nat) w c : Prop :=
  endname (c_req c) = e →
  c_res c ≠ Some None ∧
  match c_h c with HRun q => q = p | HSend r => ok r = true | _ => True end ∧
  match c_pc c with
  | PWait sn q rel _ =>
      q = p ∧ rel = true ∧ server (net w) sn = Some p ∧ c_h c ≠ HNone ∧ c_h c ≠ HDone
  | PCheck sn q rel _ received =>
      q = p ∧ rel = true ∧ server (net w) sn = Some p ∧
      match received with Some r => ok r = true | None => False end
  | PReply r => ok r = true
  | PDone => c_res c ≠ None
  | PStart => True
  end.

Lemma traffic_net a w w' :
  traffic a = true → act a w = Ok w' → net w' = net w.
Proof.
  intros Ht Hact.
  destruct a; try done; simpl in Hact; unfold upd_net, upd_call, run_dispatch in *;
    repeat (run_result; subst; case_match); run_result; simplify_eq/=; done.
Qed.

Lemma start_on_track e p w c rand :
  live e p w → c_pc c = PStart → on_track e p w c →
  on_track e p w (ProcessReq_start (net w) rand c).
Proof.
  intros (Hrel & Hen & sn & Hcon & Hsrv) Hpc Hc He.
  assert (endname (c_req c) = e) as Hce.
  { revert He. unfold ProcessReq_start. repeat case_match; done. }
  destruct (Hc Hce) as (Hres & Hh & _).
  unfold ProcessReq_start. simpl. rewrite Hce, Hen, Hcon. simpl.
  by rewrite Hsrv, Hrel.
Qed.

Lemma finish_on_track e p w c rand randn sn q rel longre received :
  live e p w → c_pc c = PCheck sn q rel longre received → on_track e p w c →
  on_track e p w
    (ProcessReq_finish (net w) rand randn sn q rel longre received c).
Proof.
  intros (Hrel & Hen & _) Hpc Hc He.
  assert (endname (c_req c) = e) as Hce.
  { revert He. unfold ProcessReq_finish. repeat case_match; done. }
  destruct (Hc Hce) as (Hres & Hh & Hp). rewrite Hpc in Hp.
  destruct Hp as (-> & -> & Hsrv & Hr). destruct received as [r|]; [|done].
  unfold ProcessReq_finish, IsServerDead. rewrite Hce, Hen, Hsrv.
  rewrite bool_decide_eq_true_2 by done. simpl. by destruct (longre && _).
Qed.

Lemma on_track_act e p i a w w' :
  live e p w → traffic a = true → act a w = Ok w' →
  (∀ c, calls w !! i = Some c → on_track e p w c) →
  ∀ c, calls w' !! i = Some c → on_track e p w c.
Proof.
  intros Hlive Ht Hact Hc d Hd.
  assert (∀ j x y, calls w !! j = Some x → <[j := y]> (calls w) !! i = Some d →
    d = y ∧ on_track e p w x ∨ on_track e p w d) as Hupd.
  { intros j x y Hj. rewrite list_lookup_insert_Some.
    intros [(<- & -> & _)|[? ?]]; [|auto]. left. auto. }
  destruct a; try done; simpl in Hact; unfold upd_call, run_dispatch in *;
    run_result; subst; simpl in *.
  - apply lookup_app_Some in Hd as [Hd|[_ Hd]]; [by apply (Hc d Hd)|].
    by apply list_lookup_singleton_Some in Hd as [_ <-].
  - destruct (c_pc x) eqn:Hpc; run_result; subst; simpl in *.
    edestruct Hupd as [[-> Hx]|]; [done..| |done]. by apply start_on_track.
  - destruct (c_h x); run_result. destruct x0 as [rs [[ob r] [b v]]].
    run_result. subst. simpl in *.
    edestruct Hupd as [[-> Hx]|]; [done..| |done].
    intros He. destruct (Hx He) as (? & _ & ?).
    match goal with Hs : Server_dispatch _ _ _ = Ok _ |- _ =>
      apply Server_dispatch_Ok in Hs as (-> & _) end.
    split_and!; [done..|]. simpl. destruct (c_pc x); naive_solver.
  - destruct (c_pc x) eqn:Hpc, (c_h x) eqn:Hh; run_result; subst; simpl in *.
    edestruct Hupd as [[-> Hx]|]; [done..| |done].
    intros He. destruct (Hx He) as (? & Hr & Hw). rewrite Hpc in Hw.
    rewrite Hh in Hr. simpl. naive_solver.
  - destruct (c_pc x) eqn:Hpc; run_result; subst; simpl in *.
    destruct (IsServerDead _ _ _ _) eqn:Hdead; run_result; subst; [|by apply Hc].
    edestruct Hupd as [[-> Hx]|]; [done..| |done].
    intros He. destruct (Hx He) as (? & Hr & Hw). rewrite Hpc in Hw.
    destruct Hw as (-> & _ & Hsrv & _), Hlive as (_ & Hen & _). simpl in He.
    unfold IsServerDead in Hdead. rewrite He, Hen, Hsrv in Hdead.
    by rewrite bool_decide_eq_true_2 in Hdead.
  - destruct (c_pc x) eqn:Hpc; run_result; subst; simpl in *.
    edestruct Hupd as [[-> Hx]|]; [done..| |done]. by apply finish_on_track.
  - destruct (c_pc x) eqn:Hpc; run_result; subst; simpl in *.
    edestruct Hupd as [[-> Hx]|]; [done..| |done].
    intros He. destruct (Hx He) as (? & Hr & Hw). rewrite Hpc in Hw.
    unfold Call_return in *. rewrite Hw in *. run_result. subst. done.
Qed.

(** The handler runs for call [i] were made by server [p]. *)
Definition at_server (p i : nat) hist : Prop := ∀ x, x ∈ runs i hist → x.1.1.2 = p.

Lemma at_server_act e p i a w w' :
  traffic a = true → act a w = Ok w' →
  (∀ c, calls w !! i = Some c → endname (c_req c) = e ∧ on_track e p w c) →
  at_server p i (history w) → at_server p i (history w').
Proof.
  intros Ht Hact Hc Hs. destruct a; try done; simpl in Hact; unfold upd_call, run_dispatch in *;
    run_result; subst; try exact Hs.
  all: try (repeat case_match; run_result; subst; exact Hs).
  destruct (c_h x) as [|q| |] eqn:Hh; run_result. destruct x0 as [rs [[ob r] [b v]]].
  run_result. subst. simpl. destruct (decide (i = i0)) as [->|Hne].
  - destruct (Hc x) as [He Hx]; [done|]. destruct (Hx He) as (_ & Hq & _).
    rewrite Hh in Hq. subst q. intros y. rewrite runs_app_eq. intros [Hy|Hy]%elem_of_app; [auto|].
    by apply list_elem_of_singleton in Hy as ->.
  - intros y. rewrite runs_app_ne by done. apply Hs.
Qed.

(** What holds of call [i] over end-point [e] while [p] lives. *)
Record in_service (e : Name) (p i : nat) w : Prop := {
  is_inv : inv w;
  is_live : live e p w;
  is_track c : calls w !! i = Some c → endname (c_req c) = e → on_track e p w c;
  is_runs c : calls w !! i = Some c → endname (c_req c) = e → at_server p i (history w);
}.

Lemma act_endname a w w' i c c' :
  act a w = Ok w' → calls w !! i = Some c → calls w' !! i = Some c' →
  endname (c_req c') = endname (c_req c).
Proof.
  intros Hact Hc Hc'.
  assert (∀ j x y, calls w !! j = Some x → c_req y = c_req x →
    <[j := y]> (calls w) !! i = Some c' → endname (c_req c') = endname (c_req c)) as Hupd.
  { intros j x y Hj Hy [(<- & -> & _)|[_ ?]]%list_lookup_insert_Some; simplify_eq; congruence. }
  destruct a; simpl in Hact; unfold upd_net, upd_call, run_dispatch in *; run_result; subst;
    simpl in *; simplify_eq; try done.
  all: try (destruct x; run_result; subst; simpl in *; by simplify_eq).
  - apply lookup_app_Some in Hc' as [?|[? _]]; [by simplify_eq|].
    apply lookup_lt_Some in Hc. lia.
  - destruct (c_pc x); run_result; subst. eapply (Hupd _ x); [done| |exact Hc'].
    unfold ProcessReq_start. by repeat case_match.
  - destruct (c_h x); run_result. destruct x0 as [rs [[ob r] [b v]]]. run_result. subst.
    by eapply (Hupd _ x); [| |exact Hc'].
  - destruct (c_pc x), (c_h x); run_result; subst. by eapply (Hupd _ x); [| |exact Hc'].
  - destruct (c_pc x); run_result. case_match; run_result; subst; simplify_eq; [|done].
    by eapply (Hupd _ x); [| |exact Hc'].
  - destruct (c_pc x); run_result; subst. eapply (Hupd _ x); [done| |exact Hc'].
    unfold ProcessReq_finish. by repeat case_match.
  - destruct (c_pc x); run_result; subst. by eapply (Hupd _ x); [| |exact Hc'].
Qed.

Lemma in_service_act (laws : GobLaws V) e p i a w w' :
  in_service e p i w → traffic a = true → act a w = Ok w' → in_service e p i w'.
Proof.
  intros [Hinv Hlive Htr Hr] Ht Hact. pose proof (traffic_net _ _ _ Ht Hact) as Hnet.
  split; [by eapply act_inv|by unfold live; rewrite Hnet|..]; intros c Hc He.
  - assert (on_track e p w c) as Hon; [|by unfold on_track in *; rewrite Hnet].
    eapply on_track_act; [done..| |done]. intros d Hd.
    apply Htr; [done|]. rewrite <-He. symmetry. by eapply act_endname.
  - eapply at_server_act; [done..| |].
    + intros d Hd. assert (endname (c_req d) = e) as Hde.
      { rewrite <-He. symmetry. by eapply act_endname. }
      split; [done|]. by apply Htr.
    + destruct (calls w !! i) as [d|] eqn:Hd.
      * eapply Hr; [done|]. rewrite <-He. symmetry. by eapply act_endname.
      * intros x. rewrite (inv_fresh _ Hinv) by (by apply lookup_ge_None). set_solver.
Qed.

Lemma in_service_exec (laws : GobLaws V) e p i tr w w' :
  in_service e p i w → forallb traffic tr = true → exec tr w = Ok w' → in_service e p i w'.
Proof.
  revert w. induction tr as [|a tr IH]; intros w Hw Htr Hex; simpl in *; run_result.
  - by subst.
  - apply andb_true_iff in Htr as [Ha Htr]. eapply IH; [|done..]. by eapply in_service_act.
Qed.

(** Before a call is entered. *)
Lemma in_service_fresh e p i w :
  inv w → live e p w → length (calls w) ≤ i → in_service e p i w.
Proof.
  intros Hinv Hlive Hi. split; [done..| |]; intros c Hc%lookup_lt_Some; lia.
Qed.

(** *** The call is completed *)

Context (i p : nat) (svc : @Service V St) (m : @Method V St) (rand r1 r2 : Z).

(** The steps of the two goroutines of call [i], and its return, with the values
    they draw. *)
Definition step_of (a : action) : Prop :=
  a ∈ [AProcess i rand; ADispatch i; ARecv i; AFinish i r1 r2; AReturn i].

(** At most [n] steps of call [i] complete it: it returns true with the reply of
    the one run of its handler, by server [p], on its argument.  If that run has
    not been made, it is one of the method [m] of [svc]. *)
Definition delivers (n : nat) w c : Prop :=
  ∃ tr w' c' v,
    Forall step_of tr ∧ length tr ≤ n ∧ exec tr w = Ok w' ∧
    calls w' !! i = Some c' ∧ c_res c' = Some (Some v) ∧
    runs i (history w') = [(i, p, c_args c, v)] ∧
    match runs i (history w) with
    | [] =>
        let out := m_Func m (objs w (svc_rcvr svc)) (c_args c) (m_replyType m) in
        v = out.2 ∧ objs w' = <[svc_rcvr svc := out.1]> (objs w) ∧
        count (heap w' p) = (count (heap w p) + 1)%Z
    | rs => runs i (history w') = rs ∧ objs w' = objs w ∧ heap w' = heap w
    end.

Lemma delivers_step n a w c w1 c1 :
  step_of a → act a w = Ok w1 → c_args c1 = c_args c →
  runs i (history w1) = runs i (history w) → objs w1 = objs w → heap w1 = heap w →
  delivers n w1 c1 → delivers (S n) w c.
Proof.
  intros Ha H1 Hargs Hruns Ho Hh (tr & w' & c' & v & Hall & Hlen & Hex & Hi & Hres & Hr & Hm).
  exists (a :: tr), w', c', v. rewrite Hargs, Hruns, Ho, Hh in *.
  split_and!; [by constructor|simpl; lia|simpl; by rewrite H1|done..].
Qed.

Lemma delivers_mono n n' w c : n ≤ n' → delivers n w c → delivers n' w c.
Proof.
  intros Hn (tr & w' & c' & v & Hall & Hlen & Hrest). exists tr, w', c', v.
  split_and!; [done|lia|apply Hrest..].
Qed.

Lemma step_of_traffic a : step_of a → traffic a = true.
Proof.
  unfold step_of. intros Ha. by repeat (apply elem_of_cons in Ha as [->|Ha]); [..|apply elem_of_nil in Ha].
Qed.

Lemma upd_lookup c c' w : calls w !! i = Some c → <[i := c']> (calls w) !! i = Some c'.
Proof. intros Hi. rewrite list_lookup_insert_eq; [done|]. by eapply lookup_lt_Some. Qed.

Lemma delivers_done w c v :
  calls w !! i = Some c → c_res c = Some (Some v) →
  runs i (history w) = [(i, p, c_args c, v)] → delivers 0 w c.
Proof.
  intros Hi Hres Hr. exists [], w, c, v. rewrite Hr. by split_and!; [constructor|..].
Qed.

(** A run made for the call is at [p]. *)
Lemma answered_at e w c r :
  in_service e p i w → calls w !! i = Some c → endname (c_req c) = e →
  answered (history w) i c r →
  ∃ v, runs i (history w) = [(i, p, c_args c, v)] ∧ r = mkReply true (gob_encode [v]).
Proof.
  intros Hs Hi He (q & v & Hr & ->). exists v.
  pose proof (is_runs _ _ _ _ Hs _ Hi He (i, q, c_args c, v)) as Hq. rewrite Hr in Hq.
  by rewrite Hr, <-Hq by (by left).
Qed.

Lemma delivers_reply (laws : GobLaws V) e w c r :
  in_service e p i w → calls w !! i = Some c → endname (c_req c) = e →
  c_pc c = PReply r → delivers 1 w c.
Proof.
  intros Hs Hi He Hpc. destruct (is_track _ _ _ _ Hs _ Hi He He) as (_ & _ & Hok).
  pose proof (ci_pc _ _ _ (inv_calls _ (is_inv _ _ _ _ Hs) _ _ Hi)) as Ha.
  rewrite Hpc in Hok, Ha. destruct (answered_at e w c r) as (v & Hr & ->); auto.
  eapply (delivers_step _ (AReturn i) _ _
    (mkWorld (net w) (heap w) (objs w)
       (<[i := set_res (Some v) (set_pc PDone c)]> (calls w)) (history w))
    (set_res (Some v) (set_pc PDone c))); try done.
  - unfold step_of. set_solver.
  - simpl. rewrite Hi. simpl. rewrite Hpc. unfold Call_return. simpl.
    by rewrite gob_decode_encode.
  - by eapply delivers_done; [by eapply upd_lookup|..].
Qed.

Lemma delivers_check (laws : GobLaws V) e w c sn q rel longre received :
  in_service e p i w → calls w !! i = Some c → endname (c_req c) = e →
  c_pc c = PCheck sn q rel longre received → delivers 2 w c.
Proof.
  intros Hs Hi He Hpc.
  assert (∃ w1, act (AFinish i r1 r2) w = Ok w1 ∧ w1 = mkWorld (net w) (heap w) (objs w)
    (<[i := ProcessReq_finish (net w) r1 r2 sn q rel longre received c]> (calls w)) (history w))
    as (w1 & H1 & Hw1).
  { simpl. rewrite Hi. simpl. rewrite Hpc. by eexists. }
  assert (step_of (AFinish i r1 r2)) as Ha by (unfold step_of; set_solver).
  pose proof (in_service_act laws e p i _ _ _ Hs (step_of_traffic _ Ha) H1) as Hs1.
  destruct (is_track _ _ _ _ Hs _ Hi He He) as (_ & _ & Hp). rewrite Hpc in Hp.
  destruct Hp as (-> & -> & Hsrv & Hr). destruct received as [r|]; [|done].
  destruct (is_live _ _ _ _ Hs) as (_ & Hen & _).
  assert (ProcessReq_finish (net w) r1 r2 sn p true longre (Some r) c = set_pc (PReply r) c)
    as Hf.
  { unfold ProcessReq_finish, IsServerDead. rewrite He, Hen, Hsrv.
    rewrite bool_decide_eq_true_2 by done. simpl. by destruct (longre && _). }
  rewrite Hf in Hw1.
  eapply (delivers_step _ _ _ _ _ (set_pc (PReply r) c) Ha H1); try by subst w1.
  eapply (delivers_reply laws e); [done| |done|done]. subst w1. by eapply upd_lookup.
Qed.

(** The handler's reply is taken. *)
Lemma delivers_recv (laws : GobLaws V) e w c sn q rel longre r :
  in_service e p i w → calls w !! i = Some c → endname (c_req c) = e →
  c_pc c = PWait sn q rel longre → c_h c = HSend r → delivers 3 w c.
Proof.
  intros Hs Hi He Hpc Hh. set (c1 := set_h HDone (set_pc (PCheck sn q rel longre (Some r)) c)).
  assert (∃ w1, act (ARecv i) w = Ok w1 ∧ w1 = mkWorld (net w) (heap w) (objs w)
    (<[i := c1]> (calls w)) (history w)) as (w1 & H1 & Hw1).
  { simpl. rewrite Hi. simpl. rewrite Hpc, Hh. by eexists. }
  assert (step_of (ARecv i)) as Ha by (unfold step_of; set_solver).
  pose proof (in_service_act laws e p i _ _ _ Hs (step_of_traffic _ Ha) H1) as Hs1.
  eapply (delivers_step _ _ _ _ _ c1 Ha H1); try by subst w1.
  eapply (delivers_check laws e); [done| |done|done]. subst w1. by eapply upd_lookup.
Qed.

(** The service and the method the request names. *)
Definition serves w c : Prop :=
  ∃ sv mn, svcMeth (c_req c) = sv +:+ "." +:+ mn ∧ dot_free mn = true ∧
    services (heap w p) !! sv = Some svc ∧ svc_methods svc !! mn = Some m.

(** The handler runs. *)
Lemma delivers_dispatch (laws : GobLaws V) e w c sn q rel longre :
  in_service e p i w → calls w !! i = Some c → endname (c_req c) = e → serves w c →
  c_pc c = PWait sn q rel longre → c_h c = HRun p → delivers 4 w c.
Proof.
  intros Hs Hi He (sv & mn & Hname & Hmn & Hsvc & Hm) Hpc Hh.
  destruct (split_name sv mn Hmn) as [Hto Hfrom].
  destruct (inv_calls _ (is_inv _ _ _ _ Hs) _ _ Hi) as [Hargs Hruns _ _]. rewrite Hh in Hruns.
  set (out := m_Func m (objs w (svc_rcvr svc)) (c_args c) (m_replyType m)).
  set (c1 := set_h (HSend (mkReply true (gob_encode [out.2]))) c).
  assert (∃ w1, act (ADispatch i) w = Ok w1 ∧ calls w1 = <[i := c1]> (calls w) ∧
    objs w1 = <[svc_rcvr svc := out.1]> (objs w) ∧
    count (heap w1 p) = (count (heap w p) + 1)%Z ∧
    history w1 = history w ++ [(i, p, c_args c, out.2)])
    as (w1 & H1 & Hc1 & Ho1 & Hn1 & Hh1).
  { simpl. rewrite Hi. simpl. rewrite Hh. unfold run_dispatch, Server_dispatch.
    rewrite Hname, Hto, Hfrom. simpl. rewrite Hsvc. unfold Service_dispatch. rewrite Hm, Hargs.
    rewrite gob_decode_encode. simpl. fold out. subst c1. destruct out as [st v]. simpl.
    eexists. split; [done|]. simpl. by rewrite fn_lookup_insert. }
  assert (step_of (ADispatch i)) as Ha by (unfold step_of; set_solver).
  pose proof (in_service_act laws e p i _ _ _ Hs (step_of_traffic _ Ha) H1) as Hs1.
  destruct (delivers_recv laws e w1 c1 sn q rel longre (mkReply true (gob_encode [out.2])))
    as (tr & w' & c' & v & Hall & Hlen & Hex & Hi' & Hres & Hr & Hk);
    [done|by rewrite Hc1; eapply upd_lookup|done..|].
  rewrite Hh1, runs_app_eq, Hruns in Hk. simpl in Hk. destruct Hk as (Hr' & Ho' & Hp').
  exists (ADispatch i :: tr), w', c', v. rewrite Hruns.
  split_and!; [by constructor|simpl; lia|by simpl in *; rewrite H1|done..|].
  fold out. rewrite Hr in Hr'. split_and!; [congruence|congruence|by rewrite Hp'].
Qed.

(** The network takes the request. *)
Lemma delivers_start (laws : GobLaws V) e w c :
  in_service e p i w → calls w !! i = Some c → endname (c_req c) = e → serves w c →
  c_pc c = PStart → delivers 5 w c.
Proof.
  intros Hs Hi He Hsv Hpc.
  assert (∃ w1, act (AProcess i rand) w = Ok w1 ∧ w1 = mkWorld (net w) (heap w) (objs w)
    (<[i := ProcessReq_start (net w) rand c]> (calls w)) (history w)) as (w1 & H1 & Hw1).
  { simpl. rewrite Hi. simpl. rewrite Hpc. by eexists. }
  assert (step_of (AProcess i rand)) as Ha by (unfold step_of; set_solver).
  pose proof (in_service_act laws e p i _ _ _ Hs (step_of_traffic _ Ha) H1) as Hs1.
  destruct (is_live _ _ _ _ Hs) as (Hrel & Hen & sn & Hcon & Hsrv).
  set (c1 := set_h (HRun p) (set_pc (PWait sn p true (longReordering (net w))) c)).
  assert (ProcessReq_start (net w) rand c = c1) as Hst.
  { unfold ProcessReq_start. simpl. rewrite He, Hen, Hcon. simpl. by rewrite Hsrv, Hrel. }
  rewrite Hst in Hw1.
  eapply (delivers_step _ _ _ _ _ c1 Ha H1); try by subst w1.
  eapply (delivers_dispatch laws e); [done| |done| |done|done]; subst w1; [|exact Hsv].
  by eapply upd_lookup.
Qed.

(** C28. Delivery on a reliable network.  Start from any reachable world in which
    the network loses nothing and end-point [e] is enabled and connected to the
    live server [p], and let the goroutines of any number of calls run in any
    interleaving, expiring timers of the waiting loop included, without
    interference of the test harness.  Then a call over [e] that was made
    meanwhile, for a method that the server has, has not returned false; and
    whatever the random draws, at most five steps of its own goroutines complete
    it: it returns true with the reply of the one run of its handler, by server
    [p], on its argument.  If the handler had not run before, that run is one of
    the method on the receiver as it was, changes nothing but the receiver, and
    is counted by the server; otherwise nothing more is run. *)
Theorem reliable_delivery (laws : GobLaws V) objs0 e (tr : list action) w0 w c :
  reachable objs0 w0 → live e p w0 → forallb traffic tr = true → exec tr w0 = Ok w →
  length (calls w0) ≤ i → calls w !! i = Some c → endname (c_req c) = e → serves w c →
  c_res c ≠ Some None ∧ delivers 5 w c.
Proof.
  intros Hw0%(lab_reachable_inv laws) Hlive Htr Hex Hlen Hi He Hsv.
  pose proof (in_service_exec laws e p i tr w0 w
    (in_service_fresh _ _ _ _ Hw0 Hlive Hlen) Htr Hex) as Hs.
  destruct (is_track _ _ _ _ Hs _ Hi He He) as (Hres & Hh & Hp). split; [done|].
  destruct (c_pc c) as [|sn q rel longre|sn q rel longre received|r|] eqn:Hpc.
  - by eapply delivers_start.
  - destruct Hp as (_ & _ & _ & Hn & Hd). destruct (c_h c) as [|q'|r|] eqn:Hch; try done.
    + subst q'. eapply (delivers_mono 4); [lia|]. by eapply delivers_dispatch.
    + eapply (delivers_mono 3); [lia|]. by eapply delivers_recv.
  - eapply (delivers_mono 2); [lia|]. by eapply delivers_check.
  - eapply (delivers_mono 1); [lia|]. by eapply delivers_reply.
  - eapply (delivers_mono 0); [lia|]. destruct (c_res c) as [[v|]|] eqn:Hr; [|done..].
    eapply delivers_done; [done..|].
    destruct (ci_res _ _ _ (inv_calls _ (is_inv _ _ _ _ Hs) _ _ Hi) v Hr) as [q Hq].
    pose proof (is_runs _ _ _ _ Hs _ Hi He (i, q, c_args c, v)) as Hat.
    rewrite Hq in Hat. by rewrite Hq, <-Hat by (by left).
Qed.
End safety.

Section counting.
Context {Name V St : Type} `{Countable Name} `{!Gob V}.
Notation world := (@world Name V St _ _).
Implicit Types w : world.
Implicit Types hist : list (nat * nat * V * V).

(** ** Counting *)

(** The handler runs made by server [p]. *)
Definition server_runs (p : nat) hist : list (nat * nat * V * V) :=
  filter (λ r, r.1.1.2 = p) hist.

Lemma count_runs objs0 w p :
  reachable objs0 w →
  count (heap w p) = Z.of_nat (length (server_runs p (history w))).
Proof.
  induction 1 as [|w a w' _ IH Hact]; [done|].
  destruct a; simpl in Hact; unfold upd_net, upd_call in *; run_result; subst;
    simpl; try exact IH; try (repeat case_match; run_result; subst; exact IH).
  - destruct (decide (p = p0)) as [->|Hne].
    + by rewrite fn_lookup_insert.
    + by rewrite fn_lookup_insert_ne.
  - destruct (c_h x); run_result. unfold run_dispatch in *. run_result.
    destruct x0 as [rs [[ob r] [b v]]]. run_result. subst. simpl.
    match goal with Hs : Server_dispatch _ _ _ = Ok _ |- _ =>
      apply Server_dispatch_Ok in Hs as (_ & _ & _ & Hcnt) end.
    unfold server_runs in *. rewrite list.filter_app.
    destruct (decide (p = p0)) as [->|Hne].
    + rewrite fn_lookup_insert, Hcnt, IH, filter_cons_True by done.
      rewrite length_app. simpl. lia.
    + rewrite fn_lookup_insert_ne, filter_cons_False by done.
      by rewrite filter_nil, app_nil_r.
Qed.

(** [GetCount] is exact: in every run, the count of a server that is on
    the network is the number of handler runs it has made. *)
Theorem GetCount_exact objs0 w (s : Name) (p : nat) :
  reachable objs0 w → server (net w) s = Some p →
  GetCount s (heap w) (net w) =
    Ok (Z.of_nat (length (server_runs p (history w)))).
Proof.
  intros Hw Hs. unfold GetCount. rewrite Hs. simpl.
  by rewrite <-(count_runs _ _ _ Hw).
Qed.
End counting.

(** ** A run

    A server with one service [Acc], whose method [Add] adds its argument to
    the receiver and replies with the sum, called over end-point 7. *)

#[local] Instance lab_gob : Gob nat := bits_gob nat.

Lemma lab_gob_laws : GobLaws nat.
Proof. apply bits_gob_laws. Qed.

Definition Add_method : @Method nat nat :=
  mkMethod "Add" "" 3 true 0 0 (λ st a _, (st + a, st + a)).

Definition Acc_service : @Service nat nat :=
  MakeService "Acc" 0 [Add_method].

Definition setup : list (@action nat nat nat) :=
  [AMakeEnd 7; AAddServer 1 0; AAddService 0 Acc_service; AConnect 7 1;
   AEnable 7 true].

Definition run_setup (tr : list (@action nat nat nat)) : @world nat nat nat _ _ :=
  match exec (setup ++ tr) (init (λ _, 10)) with
  | Ok w => w
  | _ => init (λ _, 10)
  end.

Definition one_call : list (@action nat nat nat) :=
  [ACall 7 "Acc.Add" 0 5; AProcess 0 0; ADispatch 0; ARecv 0; AFinish 0 0 0;
   AReturn 0].

Lemma lab_exec_reachable {Name V St} `{Countable Name} `{!Gob V} objs0
    (tr : list (@action Name V St)) w w' :
  reachable objs0 w → exec tr w = Ok w' → reachable objs0 w'.
Proof.
  revert w. induction tr as [|a tr IH]; intros w Hw He; simpl in He; run_result.
  - by subst.
  - eapply IH; [|done]. by eapply reachable_act.
Qed.

Lemma run_setup_reachable tr : reachable (λ _, 10) (run_setup tr).
Proof.
  unfold run_setup. destruct (exec _ _) eqn:He;
    [eapply lab_exec_reachable; [|done]|..]; apply reachable_init.
Qed.

Lemma call_at_most_once_witness :
  ∃ p, runs 0 (history (run_setup one_call)) = [(0, p, 5, 15)].
Proof.
  assert ((λ c, (c_args c, c_res c)) <$> calls (run_setup one_call) !! 0
    = Some (5, Some (Some 15))) as Hc by (by vm_compute).
  apply fmap_Some in Hc as (c & Hc & [= -> Hres]).
  by apply (call_at_most_once lab_gob_laws (λ _, 10) (run_setup one_call) 0 c
    (run_setup_reachable one_call) Hc).
Defined.

(** The server is deleted while the handler's reply is on its way. *)
Definition late_delete : list (@action nat nat nat) :=
  [ACall 7 "Acc.Add" 0 5; AProcess 0 0; ADispatch 0; ADeleteServer 1].

Definition late_reply : list (@action nat nat nat) :=
  [AAddServer 1 9; ARecv 0; AFinish 0 0 0; AReturn 0].

Lemma deleted_server_silent_witness :
  ∃ w' c', exec late_reply (run_setup late_delete) = Ok w' ∧
    calls w' !! 0 = Some c' ∧ ∀ v, c_res c' ≠ Some (Some v).
Proof.
  assert (servers (net (run_setup late_delete)) = {[1 := None]}) as Hs
    by (by vm_compute).
  destruct (calls (run_setup late_delete) !! 0) as [c|] eqn:Hc; [|by vm_compute in Hc].
  destruct (exec late_reply (run_setup late_delete)) as [w'| | |] eqn:Hw;
    [|by vm_compute in Hw..].
  destruct (calls w' !! 0) as [c'|] eqn:Hc';
    [|vm_compute in Hw; injection Hw as <-; by vm_compute in Hc'].
  exists w', c'. split; [done|]. split; [done|].
  apply (deleted_server_silent 0 0 late_reply (run_setup late_delete) w' c c');
    [|by vm_compute|done| |done..].
  - intros s. unfold server. rewrite Hs.
    by destruct (decide (s = 1)) as [->|Hne];
      rewrite ?lookup_singleton_eq, ?lookup_singleton_ne.
  - vm_compute in Hc. injection Hc as <-. split; [done|].
    exists 1, true, false. by left.
Defined.

(** Two calls interleave; a timer of the first one expires while its handler
    runs. *)
Definition two_calls : list (@action nat nat nat) :=
  [ACall 7 "Acc.Add" 0 5; ACall 7 "Acc.Add" 0 6; AProcess 0 0; ATimeout 0; ADispatch 0;
   AProcess 1 0; ATimeout 0].

Lemma reliable_delivery_witness :
  ∃ w c, exec two_calls (run_setup []) = Ok w ∧ calls w !! 1 = Some c ∧
    delivers 1 0 Acc_service Add_method 1 2 3 5 w c.
Proof.
  assert (match exec two_calls (run_setup []) with
          | Ok w => (λ c, (endname (c_req c), svcMeth (c_req c))) <$> calls w !! 1 =
                      Some (7, "Acc.Add") ∧ services (heap w 0) !! "Acc" = Some Acc_service
          | _ => False
          end) as Hw by (by vm_compute).
  destruct (exec two_calls (run_setup [])) as [w| | |] eqn:Hex; [|done..].
  destruct Hw as [(c & Hc & [= He Hm])%fmap_Some Hs].
  exists w, c. split; [done|]. split; [done|].
  apply (reliable_delivery 1 0 Acc_service Add_method 1 2 3 lab_gob_laws (λ _, 10) 7 two_calls
    (run_setup []) w c);
    [apply run_setup_reachable| |by vm_compute|exact Hex|vm_compute; lia|exact Hc|done|].
  - split_and!; [by vm_compute..|]. exists 1. by vm_compute.
  - exists "Acc", "Add". split_and!; [by rewrite <-Hm|done|done|by vm_compute].
Defined.

Lemma GetCount_exact_witness :
  GetCount 1 (heap (run_setup one_call)) (net (run_setup one_call)) = Ok 1%Z.
Proof.
  apply (GetCount_exact (λ _, 10) (run_setup one_call) 1 0
    (run_setup_reachable one_call)). by vm_compute.
Defined.
