(* ===== verification/RaftConfig.v ===== *)
(** * The test network of Raft: raft/config.go (make_config, crash1, start1,
    connect, disconnect)

    The harness runs [n] peers over one labrpc network.  Every peer has its
    own end-points, one per peer, renewed each time it is started; a
    connection is made or cut by enabling or disabling end-points.  The names
    that [randstring] draws are inputs.  A [Persister] is shared between the
    harness and the running peer, so what [cfg.saved[i]] holds is what the
    peer has persisted. *)

From S2P Require Import Prelude GoBase LabRpc Persister Raft.

(** End-points are named by strings, servers by numbers. *)
Notation Name := (string + Z)%type.

Section config.
Context `{!Gob (gval Z)}.

(** [cfg_heap] numbers the server objects made so far. *)
Record config := mkConfig {
  cfg_net : @LabRpc.Network Name _ _;
  cfg_n : nat;
  cfg_rafts : list (option (Raft Z));
  cfg_connected : list bool;
  cfg_saved : list (option Persister);
  cfg_endnames : list (option (list string));
  cfg_heap : nat;
}.

Definition set_net rn (cfg : config) : config :=
  mkConfig rn (cfg_n cfg) (cfg_rafts cfg) (cfg_connected cfg) (cfg_saved cfg)
    (cfg_endnames cfg) (cfg_heap cfg).
Definition set_connected l (cfg : config) : config :=
  mkConfig (cfg_net cfg) (cfg_n cfg) (cfg_rafts cfg) l (cfg_saved cfg)
    (cfg_endnames cfg) (cfg_heap cfg).
Definition set_rafts_saved r s (cfg : config) : config :=
  mkConfig (cfg_net cfg) (cfg_n cfg) r (cfg_connected cfg) s
    (cfg_endnames cfg) (cfg_heap cfg).
Definition set_endnames e (cfg : config) : config :=
  mkConfig (cfg_net cfg) (cfg_n cfg) (cfg_rafts cfg) (cfg_connected cfg)
    (cfg_saved cfg) e (cfg_heap cfg).

(** [cfg.endnames[i][j]]. *)
Definition endname_of (cfg : config) (i j : nat) : option string :=
  es ← cfg_endnames cfg !! i; es ← es; es !! j.

Definition is_connected (cfg : config) (i : nat) : bool :=
  default false (cfg_connected cfg !! i).

(** Enable or disable a list of end-points. *)
Definition enable_all (names : list string) (b : bool)
    (rn : @LabRpc.Network Name _ _) : @LabRpc.Network Name _ _ :=
  fold_left (λ rn e, LabRpc.Enable (inl e) b rn) names rn.

(** The end-points [endnames[i][j]], then [endnames[j][i]], for the peers [j]
    that satisfy [p]; indexing a peer that was never started panics. *)
Definition wires (p : nat → bool) (cfg : config) (i : nat)
    : option (list string) :=
  let js := filter (λ j, Is_true (p j)) (seq 0 (cfg_n cfg)) in
  outs ← mapM (λ j, endname_of cfg i j) js;
  ins ← mapM (λ j, endname_of cfg j i) js;
  Some (outs ++ ins).

(** [connect]. *)
Definition connect (i : nat) (cfg : config) : result config :=
  let cfg := set_connected (<[i := true]> (cfg_connected cfg)) cfg in
  rbind (oget (wires (is_connected cfg) cfg i) Panic) (λ names,
  Ok (set_net (enable_all names true (cfg_net cfg)) cfg)).

(** The end-points of a peer that exist: those [disconnect] disables. *)
Definition existing_wires (cfg : config) (i : nat) : list string :=
  omap (λ j, endname_of cfg i j) (seq 0 (cfg_n cfg)) ++
  omap (λ j, endname_of cfg j i) (seq 0 (cfg_n cfg)).

(** [disconnect]; the loops skip a peer whose end-points are nil. *)
Definition disconnect (i : nat) (cfg : config) : config :=
  let cfg := set_connected (<[i := false]> (cfg_connected cfg)) cfg in
  set_net (enable_all (existing_wires cfg i) false (cfg_net cfg)) cfg.

(** The content of [*cfg.saved[i]]. *)
Definition saved_now (cfg : config) (i : nat) : option Persister :=
  match mjoin (cfg_rafts cfg !! i) with
  | Some rf => Some (persister rf)
  | None => mjoin (cfg_saved cfg !! i)
  end.

(** [crash1]. *)
Definition crash1 (i : nat) (cfg : config) : config :=
  let cfg := disconnect i cfg in
  let cfg := set_net (LabRpc.DeleteServer (inr (Z.of_nat i)) (cfg_net cfg)) cfg in
  let saved := Copy <$> saved_now cfg i in
  let saved := (λ ps, SaveRaftState (mkPersister [] []) (ReadRaftState ps)) <$> saved in
  set_rafts_saved (<[i := None]> (cfg_rafts cfg)) (<[i := saved]> (cfg_saved cfg))
    cfg.

(** The loop of [start1] that makes and connects the end-points [names], the
    first of them for peer [j]. *)
Fixpoint make_ends (names : list string) (j : nat)
    (rn : @LabRpc.Network Name _ _) : result (@LabRpc.Network Name _ _) :=
  match names with
  | [] => Ok rn
  | e :: names =>
      rbind (LabRpc.MakeEnd (inl e) rn) (λ '(rn, _),
      make_ends names (S j)
        (LabRpc.Connect (inl e) (inr (Z.of_nat j)) rn))
  end.

(** [start1], with the [n] names that [randstring] draws. *)
Definition start1 (i : nat) (names : list string) (cfg : config)
    : result config :=
  let cfg := crash1 i cfg in
  let cfg := set_endnames (<[i := Some names]> (cfg_endnames cfg)) cfg in
  rbind (make_ends names 0 (cfg_net cfg)) (λ rn,
  let ps := match saved_now cfg i with
            | Some ps => Copy ps
            | None => MakePersister
            end in
  let rf := Make (cfg_n cfg) i ps in
  let cfg := set_net rn cfg in
  let cfg := set_rafts_saved (<[i := Some rf]> (cfg_rafts cfg))
               (<[i := Some ps]> (cfg_saved cfg)) cfg in
  Ok (mkConfig (LabRpc.AddServer (inr (Z.of_nat i)) (cfg_heap cfg) (cfg_net cfg))
        (cfg_n cfg) (cfg_rafts cfg) (cfg_connected cfg) (cfg_saved cfg)
        (cfg_endnames cfg) (S (cfg_heap cfg)))).

(** [rpcCount]; [heap] are the server objects. *)
Definition rpcCount {V St : Type} (heap : nat → LabRpc.Server (V := V) (St := St)) (server : nat)
    (cfg : config) : result Z :=
  LabRpc.GetCount (inr (Z.of_nat server)) heap (cfg_net cfg).

Definition setunreliable (unrel : bool) (cfg : config) : config :=
  set_net (LabRpc.Reliable (negb unrel) (cfg_net cfg)) cfg.

Definition setlongreordering (longrel : bool) (cfg : config) : config :=
  set_net (LabRpc.LongReordering longrel (cfg_net cfg)) cfg.

Definition empty_config (n : nat) (unreliable : bool) : config :=
  let cfg := mkConfig LabRpc.MakeNetwork n (replicate n None)
    (replicate n false) (replicate n None) (replicate n None) 0 in
  let cfg := setunreliable unreliable cfg in
  set_net (LabRpc.LongDelays true (cfg_net cfg)) cfg.

Fixpoint start_all (names : list (list string)) (i : nat) (cfg : config)
    : result config :=
  match names with
  | [] => Ok cfg
  | ns :: names => rbind (start1 i ns cfg) (start_all names (S i))
  end.

Fixpoint connect_all (ids : list nat) (cfg : config) : result config :=
  match ids with
  | [] => Ok cfg
  | i :: ids => rbind (connect i cfg) (connect_all ids)
  end.

(** [make_config], with one list of names per peer. *)
Definition make_config (names : list (list string)) (unreliable : bool)
    : result config :=
  let n := length names in
  rbind (start_all names 0 (empty_config n unreliable)) (connect_all (seq 0 n)).
End config.
