(* ===== verification/RaftWiring.v ===== *)
(** * The test network is wired as the harness says

    In every state that the harness reaches, the end-point from peer [i] to
    peer [j] is enabled exactly when both are connected, leads to server [j],
    and a running peer's server is on the network: connecting, cutting off,
    crashing and restarting peers does to the RPCs what the tests rely on. *)

From S2P Require Import Prelude GoBase LabRpc Persister Raft RaftConfig RaftDemo.

Section wiring.
Context `{!Gob (gval Z)}.
Notation Network := (@LabRpc.Network Name _ _).
Implicit Types rn : Network.
Implicit Types cfg : config.

(** ** Enabling *)

Lemma enable_all_enabled names b rn e :
  is_enabled (enable_all names b rn) (inl e) =
    if decide (e ∈ names) then b else is_enabled rn (inl e).
Proof.
  revert rn. induction names as [|x names IH]; intros rn; [done|].
  cbn [enable_all fold_left]. change (fold_left _ names ?r) with (enable_all names b r).
  rewrite IH. unfold is_enabled, Enable. simpl.
  destruct (decide (e ∈ names)) as [Hin|Hin].
  - by rewrite decide_True by (apply elem_of_cons; auto).
  - destruct (decide (e = x)) as [->|Hne].
    + rewrite lookup_insert_eq. simpl.
      by rewrite decide_True by (apply elem_of_cons; auto).
    + rewrite lookup_insert_ne by congruence.
      by rewrite decide_False by (rewrite elem_of_cons; tauto).
Qed.

Lemma enable_all_frame names b rn :
  ends (enable_all names b rn) = ends rn ∧
  connections (enable_all names b rn) = connections rn ∧
  servers (enable_all names b rn) = servers rn.
Proof.
  revert rn. induction names as [|x names IH]; intros rn; [done|].
  cbn [enable_all fold_left]. change (fold_left _ names ?r) with (enable_all names b r).
  destruct (IH (Enable (inl x) b rn)) as (-> & -> & ->). done.
Qed.

(** ** Making end-points *)

Record ends_made (names : list string) (j : nat) rn rn' : Prop := {
  em_nodup : NoDup names;
  em_new k e : names !! k = Some e →
    ends rn !! inl e = None ∧ is_Some (ends rn' !! inl e) ∧
    is_enabled rn' (inl e) = false ∧
    connection rn' (inl e) = Some (inr (Z.of_nat (j + k)));
  em_old e : is_Some (ends rn !! inl e) →
    is_Some (ends rn' !! inl e) ∧
    is_enabled rn' (inl e) = is_enabled rn (inl e) ∧
    connection rn' (inl e) = connection rn (inl e);
  em_servers : servers rn' = servers rn;
}.

Lemma make_ends_made names j rn rn' :
  make_ends names j rn = Ok rn' → ends_made names j rn rn'.
Proof.
  revert j rn. induction names as [|e names IH]; intros j rn Hm; cbn [make_ends] in Hm.
  { run_result. subst. split; [constructor|done| |done]. eauto. }
  unfold MakeEnd in Hm. destruct (ends rn !! inl e) as [|] eqn:Hfresh; [done|].
  cbn [rbind] in Hm. apply IH in Hm as [Hnd Hnew Hold Hsrv].
  unfold is_enabled, connection, Connect in Hold. simpl in Hold, Hnew.
  destruct (Hold e) as (He1 & He2 & He3); [by rewrite lookup_insert_eq|].
  rewrite lookup_insert_eq in He2. rewrite lookup_insert_eq in He3.
  cbn in He2, He3.
  split.
  - constructor; [|done]. intros [k Hk]%list_elem_of_lookup.
    destruct (Hnew k e Hk) as [Hnone _]. by rewrite lookup_insert_eq in Hnone.
  - intros [|k] x Hk; simpl in Hk.
    + injection Hk as <-. rewrite Nat.add_0_r. unfold is_enabled, connection.
      by rewrite He2, He3.
    + destruct (Hnew k x Hk) as (Hx1 & Hx2 & Hx3 & Hx4).
      rewrite <-Nat.add_succ_comm. split; [|done].
      destruct (decide (x = e)) as [->|Hne]; [done|].
      by rewrite lookup_insert_ne in Hx1 by congruence.
  - intros x Hx. assert (x ≠ e) as Hne by (intros ->; by rewrite Hfresh in Hx; destruct Hx).
    destruct (Hold x) as (Hx1 & Hx2 & Hx3); [by rewrite lookup_insert_ne by congruence|].
    rewrite lookup_insert_ne in Hx2 by congruence.
    rewrite !lookup_insert_ne in Hx3 by congruence.
    unfold is_enabled, connection. by rewrite Hx2, Hx3.
  - done.
Qed.

(** ** The invariant *)

Record wired cfg : Prop := {
  wi_endnames : length (cfg_endnames cfg) = cfg_n cfg;
  wi_connected : length (cfg_connected cfg) = cfg_n cfg;
  wi_rafts : length (cfg_rafts cfg) = cfg_n cfg;
  wi_row i es : cfg_endnames cfg !! i = Some (Some es) → length es = cfg_n cfg;
  wi_inj i j i' j' e :
    endname_of cfg i j = Some e → endname_of cfg i' j' = Some e →
    i = i' ∧ j = j';
  wi_end i j e : endname_of cfg i j = Some e → is_Some (ends (cfg_net cfg) !! inl e);
  wi_enabled i j e : endname_of cfg i j = Some e →
    is_enabled (cfg_net cfg) (inl e) = is_connected cfg i && is_connected cfg j;
  wi_route i j e : endname_of cfg i j = Some e →
    connection (cfg_net cfg) (inl e) = Some (inr (Z.of_nat j));
  wi_server i rf : cfg_rafts cfg !! i = Some (Some rf) →
    is_Some (server (cfg_net cfg) (inr (Z.of_nat i)));
}.

Lemma endname_lt cfg i j e :
  wired cfg → endname_of cfg i j = Some e → i < cfg_n cfg ∧ j < cfg_n cfg.
Proof.
  intros Hw He. unfold endname_of in He.
  apply bind_Some in He as (o & Ho & He). apply bind_Some in He as (es & -> & He).
  split.
  - rewrite <-(wi_endnames _ Hw). by eapply lookup_lt_Some.
  - rewrite <-(wi_row _ Hw _ _ Ho). by eapply lookup_lt_Some.
Qed.

Lemma connected_insert cfg i j b :
  wired cfg → i < cfg_n cfg →
  default false (<[i := b]> (cfg_connected cfg) !! j) =
    if decide (i = j) then b else is_connected cfg j.
Proof.
  intros Hw Hi. unfold is_connected. case_decide as Heq.
  - subst. rewrite list_lookup_insert_eq; [done|]. by rewrite (wi_connected _ Hw).
  - by rewrite list_lookup_insert_ne.
Qed.

(** Which end-points [connect] and [disconnect] touch. *)
Lemma mapM_endnames (f : nat → option string) js names :
  mapM f js = Some names → ∀ e, e ∈ names ↔ ∃ j, j ∈ js ∧ f j = Some e.
Proof.
  intros Hm%mapM_Some. induction Hm as [|j e js names Hj _ IH]; intros x.
  - split; [by intros ?%elem_of_nil|]. intros (? & ?%elem_of_nil & _). done.
  - rewrite elem_of_cons, IH. setoid_rewrite elem_of_cons. naive_solver.
Qed.

Lemma elem_of_wires p cfg i names e :
  wires p cfg i = Some names →
  e ∈ names ↔ ∃ j, j < cfg_n cfg ∧ p j = true ∧
    (endname_of cfg i j = Some e ∨ endname_of cfg j i = Some e).
Proof.
  unfold wires. intros Hw. apply bind_Some in Hw as (outs & Ho & Hw).
  apply bind_Some in Hw as (ins & Hi & [= <-]).
  rewrite elem_of_app, (mapM_endnames _ _ _ Ho e), (mapM_endnames _ _ _ Hi e).
  setoid_rewrite list_elem_of_filter. setoid_rewrite elem_of_seq.
  setoid_rewrite Is_true_true. naive_solver lia.
Qed.

Lemma elem_of_existing cfg i e :
  wired cfg →
  e ∈ existing_wires cfg i ↔
  ∃ j, endname_of cfg i j = Some e ∨ endname_of cfg j i = Some e.
Proof.
  intros Hw. unfold existing_wires. rewrite elem_of_app, !list_elem_of_omap.
  setoid_rewrite elem_of_seq. split; [naive_solver|].
  intros (j & [Hj|Hj]); pose proof (endname_lt _ _ _ _ Hw Hj); [left|right];
    exists j; naive_solver lia.
Qed.

(** Changing only the set of connected peers and which end-points are
    enabled. *)
Lemma wired_enable cfg i b names :
  wired cfg → i < cfg_n cfg →
  (∀ a c e, endname_of cfg a c = Some e →
     (if decide (e ∈ names) then b
      else is_connected cfg a && is_connected cfg c) =
     (if decide (i = a) then b else is_connected cfg a) &&
     (if decide (i = c) then b else is_connected cfg c)) →
  wired (set_net (enable_all names b (cfg_net cfg))
           (set_connected (<[i := b]> (cfg_connected cfg)) cfg)).
Proof.
  intros Hw Hi Hb. pose proof Hw as [H1 H2 H3 H4 H5 H6 H7 H8 H9].
  destruct (enable_all_frame names b (cfg_net cfg)) as (He & Hc & Hs).
  split; simpl; try done.
  - by rewrite length_insert.
  - intros a c e Hace. rewrite He. by eapply H6.
  - intros a c e Hace. change (endname_of cfg a c = Some e) in Hace.
    rewrite enable_all_enabled, (H7 a c e Hace), (Hb a c e Hace).
    unfold is_connected at 3 4. simpl. by rewrite !connected_insert.
  - intros a c e Hace. unfold connection. rewrite Hc. by eapply (H8 a c e).
  - intros a rf Ha. unfold server. rewrite Hs. by eapply H9.
Qed.

Lemma connect_wired i cfg cfg' :
  wired cfg → i < cfg_n cfg → connect i cfg = Ok cfg' → wired cfg'.
Proof.
  intros Hw Hi Hc. unfold connect in Hc. run_result. rename x into names.
  subst cfg'.
  pose proof (λ e, elem_of_wires _ _ _ _ e H) as Hin.
  change (cfg_net (set_connected ?l cfg)) with (cfg_net cfg).
  apply wired_enable; [done|done|]. intros a c e Hace.
  pose proof (endname_lt _ _ _ _ Hw Hace) as [Ha Hc].
  assert (∀ j, is_connected (set_connected (<[i:=true]> (cfg_connected cfg)) cfg) j =
    if decide (i = j) then true else is_connected cfg j) as Hp.
  { intros j. by apply connected_insert. }
  destruct (decide (e ∈ names)) as [He|He].
  - apply Hin in He as (j & Hj & Hpj & Hor). rewrite Hp in Hpj.
    destruct Hor as [Hor|Hor]; change (endname_of cfg i j = Some e) in Hor ||
      change (endname_of cfg j i = Some e) in Hor;
      destruct (wi_inj _ Hw _ _ _ _ _ Hace Hor) as [-> ->];
      rewrite (decide_True (P:=i = i)) by done; by rewrite Hpj, ?andb_true_r.
  - destruct (decide (i = a)) as [<-|Hna], (decide (i = c)) as [<-|Hnc]; [..|done].
    + exfalso. apply He, Hin. exists i. rewrite Hp, decide_True by done. auto.
    + assert (is_connected cfg c = false) as ->; [|by rewrite andb_false_r].
      apply not_true_iff_false. intros Hcc. apply He, Hin. exists c.
      rewrite Hp, decide_False by done. auto.
    + assert (is_connected cfg a = false) as ->; [|done].
      apply not_true_iff_false. intros Hcc. apply He, Hin. exists a.
      rewrite Hp, decide_False by done. auto.
Qed.

Lemma disconnect_wired i cfg :
  wired cfg → i < cfg_n cfg → wired (disconnect i cfg).
Proof.
  intros Hw Hi. unfold disconnect.
  change (cfg_net (set_connected ?l cfg)) with (cfg_net cfg).
  change (existing_wires (set_connected ?l cfg) i) with (existing_wires cfg i).
  apply wired_enable; [done|done|]. intros a c e Hace.
  destruct (decide (e ∈ existing_wires cfg i)) as [He|He].
  - apply (elem_of_existing _ _ _ Hw) in He as (j & [Hor|Hor]);
      destruct (wi_inj _ Hw _ _ _ _ _ Hace Hor) as [-> ->];
      rewrite (decide_True (P:=i = i)) by done; by rewrite ?andb_false_r.
  - rewrite !decide_False; [done|..]; intros ->; apply He;
      apply (elem_of_existing _ _ _ Hw); eauto.
Qed.

Lemma crash1_wired i cfg : wired cfg → i < cfg_n cfg → wired (crash1 i cfg).
Proof.
  intros Hw Hi. unfold crash1.
  pose proof (disconnect_wired i cfg Hw Hi) as [H1 H2 H3 H4 H5 H6 H7 H8 H9].
  split; simpl; try done.
  - by rewrite length_insert.
  - intros j rf Hj. apply list_lookup_insert_Some in Hj as [(? & ? & ?)|[Hne Hj]];
      [done|]. unfold server, DeleteServer. simpl.
    rewrite lookup_insert_ne by (intros [= ?]; lia). by eapply H9.
Qed.

Lemma crash1_connected i cfg :
  wired cfg → i < cfg_n cfg → is_connected (crash1 i cfg) i = false.
Proof.
  intros Hw Hi. unfold is_connected. simpl.
  rewrite list_lookup_insert_eq; [done|]. by rewrite (wi_connected _ Hw).
Qed.

(** The end-points after peer [i] got new ones. *)
Lemma endname_insert cfg i names a c :
  length (cfg_endnames cfg) = cfg_n cfg → i < cfg_n cfg →
  endname_of (set_endnames (<[i := Some names]> (cfg_endnames cfg)) cfg) a c =
    if decide (i = a) then names !! c else endname_of cfg a c.
Proof.
  intros Hl Hi. unfold endname_of. simpl. case_decide as Heq.
  - subst. rewrite list_lookup_insert_eq by lia. done.
  - by rewrite list_lookup_insert_ne.
Qed.

Lemma start1_wired i names cfg cfg' :
  wired cfg → i < cfg_n cfg → length names = cfg_n cfg →
  start1 i names cfg = Ok cfg' → wired cfg'.
Proof.
  intros Hw0 Hi Hlen Hs. unfold start1 in Hs.
  pose proof (crash1_wired i cfg Hw0 Hi) as Hw.
  pose proof (crash1_connected i cfg Hw0 Hi) as Hdown.
  set (c := crash1 i cfg) in *.
  change (cfg_n cfg) with (cfg_n c) in *. run_result. rename x into rn.
  match goal with Hm : make_ends _ _ _ = Ok _ |- _ =>
    apply make_ends_made in Hm as [Hnd Hnew Hold Hsrv] end.
  subst cfg'. pose proof Hw as [H1 H2 H3 H4 H5 H6 H7 H8 H9].
  pose proof (λ a j, endname_insert c i names a j H1 Hi) as Hen.
  set (cn := set_endnames _ c) in *.
  change (cfg_net cn) with (cfg_net c) in *.
  assert (∀ a j e, endname_of cn a j = Some e →
    i = a ∧ names !! j = Some e ∨ i ≠ a ∧ endname_of c a j = Some e) as Hcase.
  { intros a j e. rewrite Hen. case_decide; auto. }
  split; simpl.
  - by rewrite length_insert.
  - done.
  - by rewrite length_insert.
  - intros a es [(_ & [= ->] & _)|[_ Ha]]%list_lookup_insert_Some; [done|].
    by eapply H4.
  - intros a j a' j' e He He'.
    apply Hcase in He as [[<- He]|[Ha He]], He' as [[<- He']|[Ha' He']].
    + split; [done|]. by eapply NoDup_lookup.
    + apply Hnew in He as (Hnone & _). apply H6 in He' as [? ?]. congruence.
    + apply Hnew in He' as (Hnone & _). apply H6 in He as [? ?]. congruence.
    + by eapply H5.
  - intros a j e [[_ He]|[_ He]]%Hcase; [by apply Hnew in He as (_ & ? & _)|].
    by apply H6, Hold in He as (? & _).
  - intros a j e [[<- He]|[_ He]]%Hcase.
    + apply Hnew in He as (_ & _ & Hf & _). change (is_enabled rn (inl e) = false) in Hf.
      match goal with |- _ = is_connected ?x i && _ =>
        change (is_connected x i) with (is_connected c i) end.
      by rewrite Hdown.
    + pose proof (H6 _ _ _ He) as Hin. apply Hold in Hin as (_ & Hf & _).
      specialize (H7 _ _ _ He).
      rewrite H7 in Hf. exact Hf.
  - intros a j e [[<- He]|[_ He]]%Hcase.
    + by apply Hnew in He as (_ & _ & _ & Hr).
    + pose proof (H6 _ _ _ He) as Hin. apply Hold in Hin as (_ & _ & Hr).
      specialize (H8 _ _ _ He).
      rewrite H8 in Hr. exact Hr.
  - intros a rf Ha. unfold server, AddServer. simpl.
    apply list_lookup_insert_Some in Ha as [(-> & _)|[Hne Ha]].
    + by rewrite lookup_insert_eq.
    + rewrite lookup_insert_ne by (intros [= ?]; lia). rewrite Hsrv. by eapply H9.
Qed.

(** ** Reachable states of the harness *)

Inductive cfg_reachable (n : nat) : config → Prop :=
| cr_empty u : cfg_reachable n (empty_config n u)
| cr_start i names cfg cfg' :
    cfg_reachable n cfg → i < n → length names = n →
    start1 i names cfg = Ok cfg' → cfg_reachable n cfg'
| cr_crash i cfg : cfg_reachable n cfg → i < n → cfg_reachable n (crash1 i cfg)
| cr_connect i cfg cfg' :
    cfg_reachable n cfg → i < n → connect i cfg = Ok cfg' → cfg_reachable n cfg'
| cr_disconnect i cfg :
    cfg_reachable n cfg → i < n → cfg_reachable n (disconnect i cfg).

Lemma empty_config_wired n u : wired (empty_config n u) ∧ cfg_n (empty_config n u) = n.
Proof.
  split; [|done].
  assert (∀ i j, endname_of (empty_config n u) i j = None) as Hno.
  { intros i j. unfold endname_of. simpl.
    destruct (replicate n None !! i) eqn:Hi; [|done].
    by apply lookup_replicate in Hi as [-> _]. }
  split; simpl; rewrite ?length_replicate; try done;
    try (intros *; rewrite Hno; done).
  - by intros i es [? _]%lookup_replicate.
  - by intros i rf [? _]%lookup_replicate.
Qed.

Lemma start1_n i names cfg cfg' : start1 i names cfg = Ok cfg' → cfg_n cfg' = cfg_n cfg.
Proof. unfold start1. intros Hs. run_result. by subst. Qed.

Lemma connect_n i cfg cfg' : connect i cfg = Ok cfg' → cfg_n cfg' = cfg_n cfg.
Proof. unfold connect. intros Hs. run_result. by subst. Qed.

Lemma cfg_reachable_wired n cfg :
  cfg_reachable n cfg → wired cfg ∧ cfg_n cfg = n.
Proof.
  induction 1 as [u|i names cfg cfg' _ [IH Hn] Hi Hl Hs|i cfg _ [IH Hn] Hi
                 |i cfg cfg' _ [IH Hn] Hi Hc|i cfg _ [IH Hn] Hi].
  - apply empty_config_wired.
  - split; [eapply start1_wired; eauto; lia|]. by rewrite (start1_n _ _ _ _ Hs).
  - split; [apply crash1_wired; [done|lia]|done].
  - split; [eapply connect_wired; eauto; lia|]. by rewrite (connect_n _ _ _ Hc).
  - split; [apply disconnect_wired; [done|lia]|done].
Qed.

(** The wiring is right: in every state the harness can reach by
    starting, crashing, connecting and disconnecting peers, the end-point
    that peer [i] uses to call peer [j] is enabled exactly when both are
    connected, it leads to server [j] and to no other, and server [j] is on
    the network if peer [j] runs, so that a request of a connected running
    peer to another one passes the network's first test. *)
Theorem wiring_correct n cfg (i j : nat) e :
  cfg_reachable n cfg → endname_of cfg i j = Some e →
  is_enabled (cfg_net cfg) (inl e) = is_connected cfg i && is_connected cfg j ∧
  connection (cfg_net cfg) (inl e) = Some (inr (Z.of_nat j)) ∧
  (is_Some (mjoin (cfg_rafts cfg !! j)) →
   is_Some (connection (cfg_net cfg) (inl e) ≫= server (cfg_net cfg))).
Proof.
  intros [Hw _]%cfg_reachable_wired He.
  pose proof (wi_route _ Hw _ _ _ He) as Hr.
  split; [by eapply wi_enabled|]. split; [done|].
  intros [rf Hrf]. rewrite Hr. simpl.
  apply (wi_server _ Hw j rf). by destruct (cfg_rafts cfg !! j) as [[|]|]; simplify_eq/=.
Qed.
End wiring.

(** A peer started again after a crash, with new end-points. *)
Definition int_gob : Gob (gval Z) := bits_gob (gval Z).

Definition two_peers : result config :=
  rbind (start1 (Gob0:=int_gob) 0 ["a"; "b"] (empty_config 2 false)) (λ cfg,
  rbind (start1 (Gob0:=int_gob) 1 ["c"; "d"] cfg) (λ cfg,
  rbind (connect 0 cfg) (λ cfg, connect 1 cfg))).

(** What is observed of a result below. *)
Definition observe (r : result config) : option string * bool * bool :=
  match r with
  | Ok cfg => (endname_of cfg 0 1, is_connected cfg 0, is_connected cfg 1)
  | _ => (None, false, false)
  end.

Lemma two_peers_observed : observe two_peers = (Some "b", true, true).
Proof. vm_compute. reflexivity. Qed.

Lemma two_peers_reachable cfg :
  two_peers = Ok cfg → cfg_reachable (Gob0:=int_gob) 2 cfg.
Proof.
  unfold two_peers. intros Hc. apply rbind_Ok in Hc as (c1 & H1 & Hc).
  apply rbind_Ok in Hc as (c2 & H2 & Hc). apply rbind_Ok in Hc as (c3 & H3 & H4).
  eapply cr_connect; [| |exact H4]; [|lia]. eapply cr_connect; [| |exact H3]; [|lia].
  eapply cr_start; [| | |exact H2]; [|lia|reflexivity].
  eapply cr_start; [| | |exact H1]; [|lia|reflexivity]. apply cr_empty.
Qed.

Lemma wiring_correct_witness :
  ∃ cfg, cfg_reachable (Gob0:=int_gob) 2 cfg ∧
    is_enabled (cfg_net cfg) (inl "b") = true ∧
    connection (cfg_net cfg) (inl "b") = Some (inr 1%Z).
Proof.
  pose proof two_peers_observed as Hobs. pose proof two_peers_reachable as Hr.
  destruct two_peers as [cfg| | |]; [|discriminate Hobs..].
  specialize (Hr cfg eq_refl). injection Hobs as Hb H0 H1.
  exists cfg. split; [exact Hr|].
  destruct (wiring_correct (Gob0:=int_gob) 2 cfg 0 1 "b" Hr Hb) as (He & Hcon & _).
  rewrite He, H0, H1. split; [reflexivity|exact Hcon].
Defined.
