(* ===== verification/RaftChecks.v ===== *)
(** * What the Raft tests check: raft/config.go (checkOneLeader, checkTerms,
    checkNoLeader, nCommitted, wait and the applyCh reader)

    The harness asks the connected peers for their state one after the other,
    while the peers go on running.  An observation is a peer with what
    [GetState] returned; a pass of a check is a list of observations made at
    increasing times.  [t.Fatalf] and [log.Fatalf] are [Fatal]. *)

From S2P Require Import Prelude.
From S2P Require Import GoBase.
From S2P Require Import Persister.
From S2P Require Import Raft.
From S2P Require Import RaftSystem.
From S2P Require Import RaftNode.
From S2P Require Import RaftDemo.
From S2P Require Import RaftElection.
From S2P Require Import RaftLogs.

(** ** The leader check *)

Definition observation : Type := nat * (Z * bool).

(** [leaders[t] = append(leaders[t], i)], for the peers that say they lead. *)
Definition add_leader (m : gmap Z (list nat)) (o : observation)
    : gmap Z (list nat) :=
  let '(i, (t, leader)) := o in
  if leader then <[t := default [] (m !! t) ++ [i]]> m else m.

Definition collect_leaders (obs : list observation) : gmap Z (list nat) :=
  fold_left add_leader obs ∅.

(** The loop over the map, for an iteration order [range]: the last term with
    a leader. *)
Fixpoint last_term (range : list (Z * list nat)) (last : Z) : result Z :=
  match range with
  | [] => Ok last
  | (t, ls) :: range =>
      if Nat.ltb 1 (length ls) then Fatal
      else last_term range (if Z.ltb last t then t else last)
  end.

(** One pass: [None] when no peer leads. *)
Definition checkOneLeader_pass (range : gmap Z (list nat) → list (Z * list nat))
    (obs : list observation) : result (option nat) :=
  let m := collect_leaders obs in
  rbind (last_term (range m) (-1)) (λ last,
  if bool_decide (m = ∅) then Ok None
  else
    rbind (oget (head (default [] (m !! last))) Panic) (λ i, Ok (Some i))).

(** [checkOneLeader]: at most ten passes. *)
Fixpoint checkOneLeader_loop (range : gmap Z (list nat) → list (Z * list nat))
    (passes : list (list observation)) : result nat :=
  match passes with
  | [] => Fatal
  | obs :: passes =>
      rbind (checkOneLeader_pass range obs) (λ o,
      match o with
      | Some i => Ok i
      | None => checkOneLeader_loop range passes
      end)
  end.

Definition checkOneLeader range (passes : list (list observation)) : result nat :=
  checkOneLeader_loop range (take 10 passes).

(** ** The other checks *)

Fixpoint checkTerms_loop (obs : list observation) (term : Z) : result Z :=
  match obs with
  | [] => Ok term
  | (_, (xterm, _)) :: obs =>
      if Z.eqb term (-1) then checkTerms_loop obs xterm
      else if negb (Z.eqb term xterm) then Fatal
      else checkTerms_loop obs term
  end.

Definition checkTerms (obs : list observation) : result Z :=
  checkTerms_loop obs (-1).

Fixpoint checkNoLeader (obs : list observation) : result unit :=
  match obs with
  | [] => Ok tt
  | (_, (_, is_leader)) :: obs => if is_leader then Fatal else checkNoLeader obs
  end.

(** [nCommitted]: how many servers have applied a command at [index], and
    which; a disagreement is fatal. *)
Fixpoint nCommitted_loop (index : Z) (logs : list (gmap Z Z)) (count cmd : Z)
    : result (Z * Z) :=
  match logs with
  | [] => Ok (count, cmd)
  | l :: logs =>
      match l !! index with
      | Some cmd1 =>
          if Z.ltb 0 count && negb (Z.eqb cmd cmd1) then Fatal
          else nCommitted_loop index logs (count + 1) cmd1
      | None => nCommitted_loop index logs count cmd
      end
  end.

Definition nCommitted (index : Z) (logs : list (gmap Z Z)) : result (Z * Z) :=
  nCommitted_loop index logs 0 (-1).

(** The reader of server [i]'s [applyCh]: record a committed command, unless
    another server has a different one at the index or the previous index is
    missing. *)
Definition read_apply (i : nat) (index cmd : Z) (logs : list (gmap Z Z))
    : result (list (gmap Z Z)) :=
  let conflict := existsb (λ l : gmap Z Z,
    match l !! index with Some old => negb (Z.eqb old cmd) | None => false end)
    logs in
  rbind (oget (logs !! i) Panic) (λ l,
  let prevok := bool_decide (is_Some (l !! (index - 1)%Z)) in
  let logs := <[i := <[index := cmd]> l]> logs in
  if conflict then Fatal
  else if Z.ltb 1 index && negb prevok then Fatal
  else Ok logs).

(** [wait]: [polls] are the logs at each of the thirty turns, with whether
    some peer was seen beyond [startTerm]; [final] the logs at the end. *)
Fixpoint wait_loop (index n startTerm : Z)
    (polls : list (list (gmap Z Z) * bool)) : result (option unit) :=
  match polls with
  | [] => Ok (Some tt)
  | (logs, moved_on) :: polls =>
      rbind (nCommitted index logs) (λ '(nd, _),
      if Z.leb n nd then Ok (Some tt)
      else if Z.ltb (-1) startTerm && moved_on then Ok None
      else wait_loop index n startTerm polls)
  end.

Definition wait (index n startTerm : Z)
    (polls : list (list (gmap Z Z) * bool)) (final : list (gmap Z Z)) : result Z :=
  rbind (wait_loop index n startTerm (take 30 polls)) (λ o,
  match o with
  | None => Ok (-1)%Z
  | Some _ =>
      rbind (nCommitted index final) (λ '(nd, cmd),
      if Z.ltb nd n then Fatal else Ok cmd)
  end).

(** ** The leader check is never set off *)

(** Who was seen to lead term [t]. *)
Definition seen_leading (t : Z) (obs : list observation) : list nat :=
  omap (λ '(i, (t', leader)), if (leader : bool) && Z.eqb t' t then Some i else None)
    obs.

Lemma seen_leading_cons t i t' leader obs :
  seen_leading t ((i, (t', leader)) :: obs) =
    (if leader && Z.eqb t' t then [i] else []) ++ seen_leading t obs.
Proof. unfold seen_leading. simpl. by destruct (leader && _). Qed.

Lemma elem_of_seen t i obs : i ∈ seen_leading t obs ↔ (i, (t, true)) ∈ obs.
Proof.
  induction obs as [|[j [t' leader]] obs IH]; [set_solver|].
  rewrite seen_leading_cons, elem_of_app, elem_of_cons, IH.
  destruct leader; simpl; [destruct (Z.eqb_spec t' t)|]; set_solver.
Qed.

Lemma collect_lookup_from obs m t :
  fold_left add_leader obs m !! t =
    match seen_leading t obs with
    | [] => m !! t
    | l => Some (default [] (m !! t) ++ l)
    end.
Proof.
  revert m. induction obs as [|[i [t' leader]] obs IH]; intros m; [done|].
  cbn [fold_left]. rewrite IH, seen_leading_cons. unfold add_leader.
  destruct leader; [|done]. simpl. destruct (Z.eqb_spec t' t) as [->|Hne].
  - rewrite lookup_insert_eq. simpl. destruct (seen_leading t obs); [done|].
    simpl. by rewrite <-(assoc_L (++)).
  - by rewrite lookup_insert_ne.
Qed.

Lemma collect_lookup obs t :
  collect_leaders obs !! t =
    match seen_leading t obs with [] => None | l => Some l end.
Proof. unfold collect_leaders. by rewrite collect_lookup_from, lookup_empty. Qed.

Lemma last_term_ok l last :
  Forall (λ x, length x.2 ≤ 1) l →
  ∃ t, last_term l last = Ok t ∧ (last ≤ t)%Z ∧
    (t = last ∨ t ∈ l.*1) ∧ Forall (λ x, (x.1 ≤ t)%Z) l.
Proof.
  revert last. induction l as [|[t ls] l IH]; intros last Hl; cbn [last_term].
  { exists last. split_and!; [done|lia|auto|done]. }
  apply Forall_cons in Hl as [Ht Hl]. simpl in Ht.
  destruct (Nat.ltb_spec 1 (length ls)); [lia|].
  destruct (IH (if (last <? t)%Z then t else last) Hl) as (u & Hu & Hle & Hor & Hall).
  exists u. split; [done|]. rewrite fmap_cons, elem_of_cons, Forall_cons. simpl.
  destruct (Z.ltb_spec last t); split_and!; try done; try lia; naive_solver.
Qed.

Section leader_check.
Context (range : gmap Z (list nat) → list (Z * list nat)).
Context (range_perm : ∀ m, range m ≡ₚ map_to_list m).

(** A pass in which no term has two leaders. *)
Lemma checkOneLeader_pass_ok obs :
  (∀ t, length (seen_leading t obs) ≤ 1) →
  (∀ i t, (i, (t, true)) ∈ obs → (0 ≤ t)%Z) →
  ∃ o, checkOneLeader_pass range obs = Ok o ∧
    match o with
    | None => ∀ i t, (i, (t, true)) ∉ obs
    | Some i => ∃ t, (i, (t, true)) ∈ obs ∧
        ∀ j t', (j, (t', true)) ∈ obs → (t' ≤ t)%Z
    end.
Proof.
  intros Hone Hpos. unfold checkOneLeader_pass.
  set (m := collect_leaders obs).
  assert (∀ t l, m !! t = Some l ↔ l = seen_leading t obs ∧ l ≠ []) as Hm.
  { intros t l. unfold m. rewrite collect_lookup.
    destruct (seen_leading t obs); naive_solver. }
  destruct (last_term_ok (range m) (-1)) as (t & -> & Hle & Hor & Hall).
  { rewrite range_perm. apply Forall_forall. intros [t l] Hl%elem_of_map_to_list.
    apply Hm in Hl as [-> _]. apply Hone. }
  simpl. destruct (decide (m = ∅)) as [He|Hne].
  - rewrite bool_decide_eq_true_2 by done. exists None. split; [done|].
    intros i t' Hin%elem_of_seen.
    assert (m !! t' = Some (seen_leading t' obs)) as Hl.
    { apply Hm. split; [done|]. intros Heq. rewrite Heq in Hin. set_solver. }
    by rewrite He, lookup_empty in Hl.
  - rewrite bool_decide_eq_false_2 by done.
    assert (∀ u l, m !! u = Some l → (u ≤ t)%Z) as Hmax.
    { intros u l Hul%elem_of_map_to_list. rewrite range_perm, Forall_forall in Hall.
      by apply (Hall (u, l)). }
    assert (∀ j u, (j, (u, true)) ∈ obs → m !! u = Some (seen_leading u obs)) as Hin.
    { intros j u Hj%elem_of_seen. apply Hm. split; [done|]. intros Heq.
      rewrite Heq in Hj. set_solver. }
    assert (∃ l, m !! t = Some l) as [l Hl].
    { destruct Hor as [->|Ht].
      - apply map_choose in Hne as (u & l & Hul). pose proof (Hmax u l Hul).
        apply Hm in Hul as [-> Hnil].
        destruct (seen_leading u obs) as [|x xs] eqn:Hs; [done|].
        assert ((x, (u, true)) ∈ obs) as Hx.
        { apply elem_of_seen. rewrite Hs. apply elem_of_cons. auto. }
        apply Hpos in Hx. lia.
      - rewrite range_perm in Ht. apply list_elem_of_fmap in Ht as ([u l] & -> & Hul).
        apply elem_of_map_to_list in Hul. eauto. }
    rewrite Hl. simpl. apply Hm in Hl as [-> Hnil].
    destruct (seen_leading t obs) as [|x xs] eqn:Hs; [done|]. simpl.
    exists (Some x). split; [done|]. exists t. split.
    + apply elem_of_seen. rewrite Hs. apply elem_of_cons. auto.
    + intros j t' Hj. eapply Hmax, Hin, Hj.
Qed.
End leader_check.

Section observed_runs.
Context {Cmd : Type} `{!Gob (gval Cmd)} (laws : GobLaws (gval Cmd)) (n : nat).
Implicit Types w : world Cmd.

(** Observations made one after the other while the cluster runs. *)
Inductive observed : world Cmd → list observation → world Cmd → Prop :=
| observed_nil w : observed w [] w
| observed_cons w acts w1 i rf obs w2 :
    exec w acts = Next w1 → nodes w1 !! i = Some rf → observed w1 obs w2 →
    observed w ((i, GetState rf) :: obs) w2.

Lemma exec_app w acts1 acts2 w1 :
  exec w acts1 = Next w1 → exec w (acts1 ++ acts2) = exec w1 acts2.
Proof.
  revert w. induction acts1 as [|a acts1 IH]; intros w He; simpl in *.
  - by injection He as <-.
  - destruct (act w a); [|done..]. by apply IH.
Qed.

(** Where an observed leader was one. *)
Lemma observed_leader w obs w' j t :
  observed w obs w' → (j, (t, true)) ∈ obs →
  ∃ acts wj rfj, exec w acts = Next wj ∧ nodes wj !! j = Some rfj ∧
    State rfj = Leader ∧ CurrentTerm rfj = t.
Proof.
  induction 1 as [|w acts w1 i rf obs w2 He Hi _ IH]; [by intros ?%elem_of_nil|].
  intros [Heq|Hin]%elem_of_cons.
  - unfold GetState in Heq. injection Heq as -> -> Hl. symmetry in Hl.
    apply bool_decide_eq_true in Hl. exists acts, w1, rf. done.
  - destruct (IH Hin) as (acts' & wj & rfj & He' & Hj & Hl & Ht).
    exists (acts ++ acts'), wj, rfj. by rewrite (exec_app _ _ _ _ He).
Qed.

Lemma observed_unique w obs w' i j t :
  reachable n w → observed w obs w' →
  (i, (t, true)) ∈ obs → (j, (t, true)) ∈ obs → i = j.
Proof.
  intros Hr Ho. induction Ho as [|w acts w1 k rf obs w2 He Hk Ho IH];
    [by intros ?%elem_of_nil|].
  assert (∀ x, (x, (t, true)) = (k, GetState rf) → ∀ y, (y, (t, true)) ∈ obs → x = y)
    as Hhead.
  { unfold GetState. intros x [= -> -> Hl] y Hy. symmetry in Hl.
    apply bool_decide_eq_true in Hl.
    destruct (observed_leader _ _ _ _ _ Ho Hy) as (acts' & wy & rfy & Hey & Hy' & Hly & Hty).
    eapply (leader_unique laws n w1 wy acts' k y); eauto.
    by eapply exec_reachable. }
  intros [Hi|Hi]%elem_of_cons [Hj|Hj]%elem_of_cons.
  - congruence.
  - eauto.
  - symmetry. eauto.
  - apply IH; [|done..]. by eapply exec_reachable.
Qed.

Lemma observed_term w obs w' i t :
  reachable n w → observed w obs w' → (i, (t, true)) ∈ obs → (1 ≤ t)%Z.
Proof.
  intros Hr Ho Hin.
  destruct (observed_leader _ _ _ _ _ Ho Hin) as (acts & wj & rf & He & Hi & _ & <-).
  destruct (reachable_logs n laws wj) as (V & E & L & _ & HI);
    [by eapply exec_reachable|]. by eapply li_term.
Qed.

Lemma seen_leading_sublist t obs : sublist (seen_leading t obs) obs.*1.
Proof.
  induction obs as [|[i [t' leader]] obs IH]; [constructor|].
  rewrite seen_leading_cons, fmap_cons. destruct (leader && _); by constructor.
Qed.

Lemma seen_one w obs w' t :
  reachable n w → observed w obs w' → NoDup obs.*1 →
  length (seen_leading t obs) ≤ 1.
Proof.
  intros Hr Ho Hnd.
  assert (NoDup (seen_leading t obs)) as Hnd'.
  { eapply sublist_NoDup; [exact Hnd|]. apply seen_leading_sublist. }
  destruct (seen_leading t obs) as [|x [|y l]] eqn:Hseen; simpl; [lia|lia|].
  assert (x = y) as ->.
  { eapply (observed_unique w obs w' x y t); [done|done|..];
      apply elem_of_seen; rewrite Hseen; set_solver. }
  apply NoDup_cons in Hnd' as [Hy _]. set_solver.
Qed.

(** The tests' leader check reports no false split: in every run, when
    the harness asks peers for their state one after the other while the
    cluster goes on running, a pass of [checkOneLeader] does not find a term
    with two leaders; it returns a peer that said it leads the highest term
    anyone said to lead, and finds none only when no peer said so. *)
Theorem checkOneLeader_sound
    (range : gmap Z (list nat) → list (Z * list nat)) w obs w' :
  (∀ m, range m ≡ₚ map_to_list m) →
  reachable n w → observed w obs w' → NoDup obs.*1 →
  ∃ o, checkOneLeader_pass range obs = Ok o ∧
    match o with
    | None => ∀ i t, (i, (t, true)) ∉ obs
    | Some i => ∃ t, (i, (t, true)) ∈ obs ∧
        ∀ j t', (j, (t', true)) ∈ obs → (t' ≤ t)%Z
    end.
Proof.
  intros Hrange Hr Ho Hnd. apply checkOneLeader_pass_ok; [done|..].
  - intros t. by eapply seen_one.
  - intros i t Hin. pose proof (observed_term _ _ _ _ _ Hr Ho Hin). lia.
Qed.
End observed_runs.

Definition states_of (w : world nat) : list (Z * bool) := GetState <$> nodes w.

Lemma world_leader_states :
  states_of world_leader = [(2%Z, true); (2%Z, false); (1%Z, false)].
Proof. vm_compute. reflexivity. Qed.

Lemma world_leader_peer i s :
  states_of world_leader !! i = Some s →
  ∃ rf, nodes world_leader !! i = Some rf ∧ GetState rf = s.
Proof.
  unfold states_of. rewrite list_lookup_fmap. intros (rf & ? & ?)%fmap_Some. eauto.
Qed.

Lemma world_leader_observed :
  observed world_leader [(0, (2%Z, true)); (1, (2%Z, false))] world_leader.
Proof.
  destruct (world_leader_peer 0 (2%Z, true)) as (rf0 & H0 & Hg0);
    [by rewrite world_leader_states|].
  destruct (world_leader_peer 1 (2%Z, false)) as (rf1 & H1 & Hg1);
    [by rewrite world_leader_states|].
  rewrite <-Hg0, <-Hg1.
  eapply (observed_cons _ [] _ _ _ _ _ eq_refl H0).
  eapply (observed_cons _ [] _ _ _ _ _ eq_refl H1). constructor.
Qed.

Lemma two_observations_nodup :
  NoDup ([(0, (2%Z, true)); (1, (2%Z, false))] : list observation).*1.
Proof. simpl. repeat constructor; set_solver. Qed.

Lemma checkOneLeader_sound_witness :
  ∃ o, checkOneLeader_pass map_to_list [(0, (2%Z, true)); (1, (2%Z, false))] = Ok o ∧
    match o with
    | None => ∀ i t, (i, (t, true)) ∉ [(0, (2%Z, true)); (1, (2%Z, false))]
    | Some i => ∃ t, (i, (t, true)) ∈ [(0, (2%Z, true)); (1, (2%Z, false))] ∧
        ∀ j t', (j, (t', true)) ∈ [(0, (2%Z, true)); (1, (2%Z, false))] →
          (t' ≤ t)%Z
    end.
Proof.
  exact (checkOneLeader_sound demo_gob_laws 3 map_to_list world_leader
    [(0, (2%Z, true)); (1, (2%Z, false))] world_leader (λ _, reflexivity _)
    world_leader_reachable world_leader_observed two_observations_nodup).
Defined.
