(* ===== verification/RaftOne.v ===== *)
(** * Submitting a command: raft/config.go (one, cleanup)

    [one] offers a command to the servers in turn until one of them says that
    it leads, and then polls what the servers have applied.  The cluster runs
    on meanwhile, so what [one] finds is its input: for each round the peer
    behind [cfg.rafts[i]] when it is the turn of server [i] (none when the
    server is not connected or not running), and the applied commands at each
    poll.  The clock decides how many rounds and polls there are.  Its effect
    on the peers, the calls of [Start], is part of its result. *)

From S2P Require Import Prelude GoBase Raft RaftConfig RaftChecks.

Section one.
Context `{!Gob (gval Z)} (n : nat) (cmd expectedServers : Z).

Record round := mkRound {
  r_peer : nat → option (Raft Z);
  r_polls : list (list (gmap Z Z));
}.

(** What one server's turn finds in the harness. *)
Definition peer_for (cfg : config) (i : nat) : option (Raft Z) :=
  if is_connected cfg i then mjoin (cfg_rafts cfg !! i) else None.

(** The loop over the servers, with [k] turns to go: where it stopped, the
    index or -1, and the peers after their [Start]. *)
Fixpoint try_servers (k starts : nat) (peer : nat → option (Raft Z))
    : nat * Z * list (nat * Raft Z) :=
  match k with
  | O => (starts, (-1)%Z, [])
  | S k =>
      let starts := (starts + 1) mod n in
      match peer starts with
      | Some rf =>
          let '(rf', (index1, _, ok)) := Start (Some cmd) rf in
          if ok then (starts, index1, [(starts, rf')])
          else
            let '(starts', index, calls) := try_servers k starts peer in
            (starts', index, (starts, rf') :: calls)
      | None => try_servers k starts peer
      end
  end.

(** The polls of a round: whether the command was agreed on. *)
Fixpoint await (index : Z) (polls : list (list (gmap Z Z))) : result bool :=
  match polls with
  | [] => Ok false
  | logs :: polls =>
      rbind (nCommitted index logs) (λ '(nd, cmd1),
      if Z.ltb 0 nd && Z.leb expectedServers nd && Z.eqb cmd1 cmd then Ok true
      else await index polls)
  end.

Fixpoint one_loop (starts : nat) (rounds : list round)
    : result (Z * list (nat * Raft Z)) :=
  match rounds with
  | [] => Fatal
  | r :: rounds =>
      let '(starts, index, calls) := try_servers n starts (r_peer r) in
      rbind (if Z.eqb index (-1) then Ok false else await index (r_polls r)) (λ agreed,
      if agreed then Ok (index, calls)
      else rbind (one_loop starts rounds) (λ '(index, calls'), Ok (index, calls ++ calls')))
  end.

Definition one (rounds : list round) : result (Z * list (nat * Raft Z)) :=
  one_loop 0 rounds.

(** [cleanup]: the peers after [Kill], and the flag [cfg.done]. *)
Definition cleanup (cfg : config) : list (option (Raft Z)) * Z :=
  ((λ o : option (Raft Z), option_map Kill o) <$> cfg_rafts cfg, 1%Z).

(** ** Whom a round asks *)

(** The turns of a round, in order. *)
Fixpoint turns (k starts : nat) : list nat :=
  match k with
  | O => []
  | S k => (starts + 1) mod n :: turns k ((starts + 1) mod n)
  end.

Lemma turns_mod k s : 0 < n → turns k s = (λ j, (s + 1 + j) mod n) <$> seq 0 k.
Proof.
  intros Hn. revert s. induction k as [|k IH]; intros s; [done|].
  cbn [turns seq fmap list_fmap]. rewrite IH, Nat.add_0_r. f_equal.
  rewrite <-fmap_S_seq, <-list_fmap_compose. apply list_fmap_ext. intros _ j _. simpl.
  rewrite <-Nat.add_assoc, Nat.Div0.add_mod_idemp_l. f_equal.
Qed.

(** A round asks every server exactly once, wherever the last one stopped. *)
Lemma turns_perm s : turns n s ≡ₚ seq 0 n.
Proof.
  destruct (decide (n = 0)) as [H0|H0]; [by rewrite H0|].
  assert (NoDup (turns n s)) as Hnd.
  { rewrite turns_mod by lia. apply NoDup_fmap_2_strong; [|apply NoDup_seq].
    intros j1 j2 H1%elem_of_seq H2%elem_of_seq Heq.
    rewrite <-(Nat.Div0.add_mod_idemp_l (s + 1) j1),
      <-(Nat.Div0.add_mod_idemp_l (s + 1) j2) in Heq.
    pose proof (Nat.mod_upper_bound (s + 1) n H0).
    assert (∀ a, a < 2 * n → a mod n = if decide (a < n) then a else a - n) as Hm.
    { intros a Ha. destruct (decide _); [by apply Nat.mod_small|].
      symmetry. apply (Nat.mod_unique _ _ 1); lia. }
    set (a := (s + 1) mod n) in *.
    rewrite (Hm (a + j1)), (Hm (a + j2)) in Heq by lia. repeat destruct (decide _); lia. }
  apply submseteq_length_Permutation.
  - apply NoDup_submseteq; [done|]. rewrite turns_mod by lia.
    intros x (j & -> & _)%list_elem_of_fmap. apply elem_of_seq.
    pose proof (Nat.mod_upper_bound (s + 1 + j) n H0). lia.
  - rewrite turns_mod, length_fmap, !length_seq by lia. done.
Qed.

(** A peer that takes the command. *)
Definition leads (o : option (Raft Z)) : Prop :=
  ∃ rf, o = Some rf ∧ State rf = Leader.

(** A round ends at the first leader in its order, with the index at which
    that leader appended the command. *)
Lemma try_servers_spec k s peer s' index calls :
  try_servers k s peer = (s', index, calls) →
  (index = (-1)%Z ∧ ∀ i, i ∈ turns k s → ¬ leads (peer i)) ∨
  (∃ rf, s' ∈ turns k s ∧ peer s' = Some rf ∧ State rf = Leader ∧
     index = zlen (Log rf) ∧ (s', (Start (Some cmd) rf).1) ∈ calls).
Proof.
  revert s s' index calls. induction k as [|k IH]; intros s s' index calls Ht; cbn in Ht.
  { injection Ht as <- <- <-. left. split; [done|]. by intros i ?%elem_of_nil. }
  cbn [turns]. set (i := (s + 1) mod n) in *.
  destruct (peer i) as [rf|] eqn:Hp.
  - unfold Start in *. destruct (bool_decide_reflect (State rf = Leader)) as [Hl|Hl]; simpl in Ht.
    + injection Ht as <- <- <-. right. exists rf. split_and!; [left|done|done| |].
      * unfold GetLastLogIndex. lia.
      * rewrite bool_decide_eq_true_2 by done. by left.
    + destruct (try_servers k i peer) as [[s1 ix] cs] eqn:E. injection Ht as <- <- <-.
      destruct (IH _ _ _ _ E) as [[-> Hno]|(rf' & Hin & H1 & H2 & H3 & H4)].
      * left. split; [done|]. intros j [->|Hj]%elem_of_cons; [|by apply Hno].
        intros (? & [= <-]%(eq_trans (eq_sym Hp)) & ?). done.
      * right. exists rf'. split_and!; [by right|done|done|done|by right].
  - destruct (IH _ _ _ _ Ht) as [[-> Hno]|(rf' & Hin & H)].
    + left. split; [done|]. intros j [->|Hj]%elem_of_cons; [|by apply Hno].
      intros (? & Hs & _). congruence.
    + right. exists rf'. split; [by right|done].
Qed.

(** ** What a poll counts *)

(** The servers that have applied a command at [index]. *)
Definition applied_at (index : Z) (logs : list (gmap Z Z)) : list Z :=
  omap (λ l, l !! index) logs.

Lemma applied_at_cons index l logs :
  applied_at index (l :: logs) = option_list (l !! index) ++ applied_at index logs.
Proof. unfold applied_at. simpl. by destruct (l !! index). Qed.

Lemma zlen_applied_cons c index logs :
  zlen ([c] ++ applied_at index logs) = (1 + zlen (applied_at index logs))%Z.
Proof. by rewrite zlen_app. Qed.

Lemma nCommitted_loop_spec index logs count c nd c' :
  (0 ≤ count)%Z → nCommitted_loop index logs count c = Ok (nd, c') →
  (nd = count + zlen (applied_at index logs))%Z ∧
  ((0 < count)%Z → c' = c) ∧
  ∀ x, x ∈ applied_at index logs → x = c'.
Proof.
  revert count c. induction logs as [|l logs IH]; intros count c Hc Hn; cbn in Hn.
  { injection Hn as <- <-. split_and!; [unfold zlen; simpl; lia|done|set_solver]. }
  rewrite applied_at_cons. destruct (l !! index) as [c1|]; [|by apply IH].
  change (option_list (Some c1)) with [c1]. rewrite zlen_applied_cons.
  destruct (Z.ltb_spec 0 count) as [Hp|Hp]; simpl in Hn.
  - destruct (Z.eqb_spec c c1) as [He|]; [|done]. subst c1.
    apply IH in Hn as (-> & Hk & Hall); [|lia]. specialize (Hk ltac:(lia)) as ->.
    split_and!; [lia|done|]. by intros x [->|Hx%Hall]%elem_of_cons.
  - apply IH in Hn as (-> & Hk & Hall); [|lia]. specialize (Hk ltac:(lia)) as ->.
    split_and!; [lia|lia|]. by intros x [->|Hx%Hall]%elem_of_cons.
Qed.

Lemma nCommitted_agree index logs c :
  (∀ x, x ∈ applied_at index logs → x = c) →
  ∃ c', nCommitted index logs = Ok (zlen (applied_at index logs), c') ∧
    (applied_at index logs ≠ [] → c' = c).
Proof.
  intros Hall. unfold nCommitted.
  assert (∀ count c0, (0 ≤ count)%Z → ((0 < count)%Z → c0 = c) →
    ∃ c', nCommitted_loop index logs count c0
          = Ok ((count + zlen (applied_at index logs))%Z, c') ∧
      ((0 < count)%Z ∨ applied_at index logs ≠ [] → c' = c)) as Hgen.
  { induction logs as [|l logs IH]; intros count c0 Hc Hc0.
    { exists c0. unfold zlen. simpl. rewrite Z.add_0_r. naive_solver. }
    rewrite applied_at_cons in *. simpl nCommitted_loop.
    destruct (l !! index) as [c1|]; [|by apply IH].
    change (option_list (Some c1)) with [c1] in *.
    rewrite zlen_applied_cons.
    assert (c1 = c) as -> by (apply Hall; left).
    assert (((0 <? count)%Z && negb (c0 =? c)%Z) = false) as ->.
    { destruct (Z.ltb_spec 0 count); [|done]. rewrite Hc0 by done. by rewrite Z.eqb_refl. }
    destruct (IH ltac:(intros; apply Hall; by right) (count + 1)%Z c) as (c' & -> & H');
      [lia|done|].
    exists c'. split; [f_equal; f_equal; lia|]. intros _. apply H'. lia. }
  destruct (Hgen 0%Z (-1)%Z) as (c' & Hn & H'); [lia|lia|].
  exists c'. split; [by rewrite Hn|]. auto.
Qed.

(** Agreement as a poll sees it: enough servers have the command at [index],
    and none has another. *)
Definition agreement (index : Z) (logs : list (gmap Z Z)) : Prop :=
  (1 ≤ zlen (applied_at index logs))%Z ∧
  (expectedServers ≤ zlen (applied_at index logs))%Z ∧
  ∀ x, x ∈ applied_at index logs → x = cmd.

Lemma await_sound index polls :
  await index polls = Ok true → ∃ logs, logs ∈ polls ∧ agreement index logs.
Proof.
  induction polls as [|logs polls IH]; [done|]. cbn [await].
  intros ([nd c1] & Hn & Ha)%rbind_Ok. simpl in Ha.
  unfold nCommitted in Hn. apply nCommitted_loop_spec in Hn as (-> & _ & Hall); [|lia].
  destruct (_ && _) eqn:E.
  - norm_hyps. zbool. subst. exists logs. split; [left|]. unfold agreement.
    split_and!; [lia|lia|done].
  - destruct (IH Ha) as (logs' & Hin & H'). exists logs'. split; [by right|done].
Qed.

(** Polls that never see another command at the index find an agreement when
    there is one. *)
Lemma await_complete index polls :
  Forall (λ logs, ∀ x, x ∈ applied_at index logs → x = cmd) polls →
  (∃ logs, logs ∈ polls ∧ agreement index logs) → await index polls = Ok true.
Proof.
  induction 1 as [|logs polls Hl _ IH]; [set_solver|]. intros (logs' & Hin & Hag).
  cbn [await]. destruct (nCommitted_agree index logs cmd Hl) as (c' & -> & Hc). simpl.
  destruct (_ && _) eqn:E; [done|]. apply IH.
  apply elem_of_cons in Hin as [->|Hin]; [|by exists logs'].
  destruct Hag as (H1 & H2 & _). exfalso. rewrite Hc in E.
  - rewrite Z.eqb_refl, andb_true_r in E. apply andb_false_iff in E as [E|E]; zbool; lia.
  - intros Hnil. rewrite Hnil in H1. unfold zlen in H1. simpl in H1. lia.
Qed.

(** ** What [one] promises *)

(** A test may rely on the result of [one]: a peer that was leader at its turn
    appended the command at the index that [one] returns, and at a poll of the
    same round at least the expected number of servers, and at least one, had
    applied the command at that index, and no server another command. *)
Theorem one_sound rounds index calls :
  one rounds = Ok (index, calls) →
  ∃ r i rf logs, r ∈ rounds ∧ i < n ∧ r_peer r i = Some rf ∧ State rf = Leader ∧
    index = zlen (Log rf) ∧ (i, (Start (Some cmd) rf).1) ∈ calls ∧
    logs ∈ r_polls r ∧ agreement index logs.
Proof.
  unfold one. generalize 0 at 1. revert index calls.
  induction rounds as [|r rounds IH]; intros index calls s; [done|]. cbn [one_loop].
  destruct (try_servers n s (r_peer r)) as [[s' ix] cs] eqn:E.
  intros (agreed & Ha & Ho)%rbind_Ok. destruct agreed.
  - injection Ho as <- <-. destruct (Z.eqb_spec ix (-1)) as [|Hne]; [done|].
    apply await_sound in Ha as (logs & Hin & Hag).
    destruct (try_servers_spec _ _ _ _ _ _ E) as [[? _]|(rf & Ht & H)]; [done|].
    rewrite turns_perm, elem_of_seq in Ht. exists r, s', rf, logs.
    destruct H as (? & ? & ? & ?). split_and!; [left|lia|done..].
  - apply rbind_Ok in Ho as ([ix' cs'] & Ho & [= <- <-]).
    destruct (IH _ _ _ Ho) as (r' & i & rf & logs & Hr & ? & ? & ? & ? & ? & ? & ?).
    exists r', i, rf, logs. split_and!; try done; [by right|]. apply elem_of_app. by right.
Qed.

(** [one] does not miss a leader: when in the first round some connected
    server leads at its turn, then a leader is chosen, and [one] returns the
    index it appended the command at as soon as a poll of the round finds an
    agreement there, provided no poll finds another command. *)
Theorem one_returns r rounds :
  (∃ i, i < n ∧ leads (r_peer r i)) →
  ∃ i rf, r_peer r i = Some rf ∧ State rf = Leader ∧
    (Forall (λ logs, ∀ x, x ∈ applied_at (zlen (Log rf)) logs → x = cmd) (r_polls r) →
     (∃ logs, logs ∈ r_polls r ∧ agreement (zlen (Log rf)) logs) →
     ∃ calls, one (r :: rounds) = Ok (zlen (Log rf), calls)).
Proof.
  intros (i & Hi & Hlead). unfold one. cbn [one_loop].
  destruct (try_servers n 0 (r_peer r)) as [[s' ix] cs] eqn:E.
  destruct (try_servers_spec _ _ _ _ _ _ E) as [[_ Hno]|(rf & Ht & Hp & Hl & -> & _)].
  { exfalso. apply (Hno i); [|done]. rewrite turns_perm. apply elem_of_seq. lia. }
  exists s', rf. split_and!; [done..|]. intros Hall Hex.
  assert (zlen (Log rf) ≠ -1)%Z as Hne by (unfold zlen; lia).
  rewrite (proj2 (Z.eqb_neq _ _) Hne), await_complete by done. by eexists.
Qed.

(** Without a leader in any round, or without rounds, the test fails. *)
Theorem one_gives_up rounds :
  Forall (λ r, ∀ i, i < n → ¬ leads (r_peer r i)) rounds → one rounds = Fatal.
Proof.
  unfold one. generalize 0 at 1. intros s Hall. revert s.
  induction Hall as [|r rounds Hr _ IH]; intros s; [done|]. cbn [one_loop].
  destruct (try_servers n s (r_peer r)) as [[s' ix] cs] eqn:E.
  destruct (try_servers_spec _ _ _ _ _ _ E) as [[-> _]|(rf & Ht & Hp & Hl & _)].
  - simpl. by rewrite IH.
  - rewrite turns_perm, elem_of_seq in Ht. exfalso. apply (Hr s'); [lia|]. by exists rf.
Qed.
End one.
