(* ===== verification/RaftNet.v ===== *)
(** * Raft peers over the simulated network

    The cluster of RaftSystem.v with its RPCs carried by labrpc: the peers are
    the receivers behind the servers of a LabRpc world, a goroutine of
    [startElection] or [StartAppendLog] that reaches [peers[id].Call] becomes
    the caller of a labrpc call, the handler runs when the network dispatches
    the request, and the goroutine goes on when [Call] returns.  Local steps
    are those of RaftSystem.v on the peers' current states.

    After the set-up the harness may enable and disable end-points, delete
    servers and change the network's modes at any time. *)

From S2P Require Import Prelude GoBase Persister Raft RaftSystem LabRpc.

(** What travels as arguments and replies.  gob sends the exported fields of a
    struct: [InstallSnapshotArgs] travels without its field [done]. *)
Inductive wire (Cmd : Type) :=
| WVoteArgs (a : RequestVoteArgs)
| WVoteReply (r : RequestVoteReply)
| WAppendArgs (a : AppendEntriesArgs Cmd)
| WAppendReply (r : AppendEntriesReply)
| WSnapArgs (Term LeaderId LastIncludedIndex LastIncludedTerm Offset : Z)
    (Data : list byte)
| WSnapReply (r : InstallSnapshotReply).
Arguments WVoteArgs {Cmd} _.
Arguments WVoteReply {Cmd} _.
Arguments WAppendArgs {Cmd} _.
Arguments WAppendReply {Cmd} _.
Arguments WSnapArgs {Cmd} _ _ _ _ _ _.
Arguments WSnapReply {Cmd} _.

Section raftnet.
Context {Name Cmd : Type} `{Countable Name} `{!Gob (gval Cmd)} `{!Gob (wire Cmd)}.
Notation lworld := (@LabRpc.world Name (wire Cmd) (Raft Cmd) _ _).
Notation laction := (@LabRpc.action Name (wire Cmd) (Raft Cmd)).
Notation Method := (@LabRpc.Method (wire Cmd) (Raft Cmd)).

(** ** The service *)

(** The handlers as methods that get the zero value of their reply.  A handler
    that panics ends the process; RaftNetRefines.v shows that it does not
    happen, so what stands for it here is immaterial. *)
Definition call_RequestVote (rf : Raft Cmd) (a r : wire Cmd) : Raft Cmd * wire Cmd :=
  match a with
  | WVoteArgs args =>
      match RequestVote args rf with
      | Some (rf', reply) => (rf', WVoteReply reply)
      | None => (rf, r)
      end
  | _ => (rf, r)
  end.

Definition call_AppendEntries (rf : Raft Cmd) (a r : wire Cmd)
    : Raft Cmd * wire Cmd :=
  match a with
  | WAppendArgs args =>
      match AppendEntries args rf with
      | Some (rf', reply) => (rf', WAppendReply reply)
      | None => (rf, r)
      end
  | _ => (rf, r)
  end.

Definition call_InstallSnapshot (rf : Raft Cmd) (a r : wire Cmd)
    : Raft Cmd * wire Cmd :=
  match a with
  | WSnapArgs term leader index lterm offset data =>
      let '(rf', reply) :=
        InstallSnapshot (mkISArgs term leader index lterm offset data false) rf in
      (rf', WSnapReply reply)
  | _ => (rf, r)
  end.

(** The methods of [*Raft] that look like handlers. *)
Definition raft_methods : list Method :=
  [LabRpc.mkMethod "AppendEntries" "" 3 true 0 (WAppendReply (mkAEReply 0 false))
     call_AppendEntries;
   LabRpc.mkMethod "InstallSnapshot" "" 3 true 0 (WSnapReply (mkISReply 0))
     call_InstallSnapshot;
   LabRpc.mkMethod "RequestVote" "" 3 true 0 (WVoteReply (mkRVReply 0 false))
     call_RequestVote].

(** [labrpc.MakeService(rf)] for peer [i], the server that offers it. *)
Definition raft_service (i : nat) := LabRpc.MakeService "Raft" i raft_methods.
Definition raft_server (i : nat) := LabRpc.AddService (raft_service i) LabRpc.MakeServer.

(** ** The composed system *)

(** [n_pool] are the goroutines outside of [Call]; [n_calls] has for every
    labrpc call the goroutine that made it and whether [Call] has returned to
    it. *)
Record world := mkNet {
  lab : lworld;
  n_pcs : list loop_pc;
  n_pool : list (goroutine Cmd);
  n_counts : list Z;
  n_calls : list (goroutine Cmd * bool);
}.

(** The peers, as RaftSystem.v sees them. *)
Definition nodes_of (n : nat) (w : lworld) : list (Raft Cmd) :=
  LabRpc.objs w <$> seq 0 n.

Definition put_nodes (nodes : list (Raft Cmd)) (w : lworld) : lworld :=
  LabRpc.mkWorld (LabRpc.net w) (LabRpc.heap w)
    (λ i, default (LabRpc.objs w i) (nodes !! i)) (LabRpc.calls w)
    (LabRpc.history w).

Definition local_view (n : nat) (pool : list (goroutine Cmd)) (s : world)
    : RaftSystem.world Cmd :=
  RaftSystem.mkWorld (nodes_of n (lab s)) (n_pcs s) pool (n_counts s).

(** After a local step: the peers, the main loops, the counters, and the pool
    [rest ++ pool w]. *)
Definition put_view (w : RaftSystem.world Cmd) (rest : list (goroutine Cmd))
    (s : world) : world :=
  mkNet (put_nodes (RaftSystem.nodes w) (lab s)) (RaftSystem.pcs w)
    (rest ++ RaftSystem.pool w) (RaftSystem.counts w) (n_calls s).

Definition of_outcome {A} (o : RaftSystem.outcome Cmd)
    (k : RaftSystem.world Cmd → result A) : result A :=
  match o with
  | RaftSystem.Next w => k w
  | RaftSystem.Disabled => Blocked
  | RaftSystem.Panicked => Panic
  end.

(** Goroutines that are about to enter [Call]. *)
Definition at_call (g : goroutine Cmd) : bool :=
  match g with GVote _ _ _ _ _ | GAppendRPC _ _ _ _ => true | _ => false end.

(** The local actions: all of RaftSystem.v but the RPCs. *)
Definition is_local (pool : list (goroutine Cmd)) (a : RaftSystem.action Cmd) : bool :=
  match a with
  | RaftSystem.ADrop _ => false
  | RaftSystem.ARun k =>
      match pool !! k with Some g => negb (at_call g) | None => false end
  | _ => true
  end.

(** What the network and the harness do by themselves. *)
Definition is_network (a : laction) : bool :=
  match a with
  | AReliable _ | ALongReordering _ | ALongDelays _ | AEnable _ _
  | ADeleteServer _ | AProcess _ _ | ADispatch _ | ARecv _ | ATimeout _
  | AFinish _ _ _ | AReturn _ => true
  | _ => false
  end.

Inductive action :=
| NLocal (a : RaftSystem.action Cmd)
| NCall (k : nat)
| NNet (a : laction)
| NReturn (c : nat).

(** [en i j] names the end-point that peer [i] uses to call peer [j]. *)
Context (n : nat) (en : nat → nat → Name).

Definition set_lab (w : lworld) (s : world) : world :=
  mkNet w (n_pcs s) (n_pool s) (n_counts s) (n_calls s).

(** Goroutine [k] enters [peers[id].Call]: [sendRequestVote],
    [sendAppendEntries]. *)
Definition send_rpc (k : nat) (g : goroutine Cmd) (s : world) : result world :=
  let enter e meth zero a :=
    rbind (LabRpc.act (ACall e meth zero a) (lab s)) (λ w,
    Ok (mkNet w (n_pcs s) (delete k (n_pool s)) (n_counts s)
          (n_calls s ++ [(g, false)]))) in
  match g with
  | GVote i _ id arg Sent =>
      enter (en i id) "Raft.RequestVote" (WVoteArgs (mkRVArgs 0 0 0 0))
        (WVoteArgs arg)
  | GAppendRPC i id arg Sent =>
      enter (en i id) "Raft.AppendEntries" (WAppendArgs (mkAEArgs 0 0 0 0 [] 0))
        (WAppendArgs arg)
  | _ => Blocked
  end.

(** The goroutine with the reply that [Call] left. *)
Definition with_reply (g : goroutine Cmd) (v : wire Cmd) : goroutine Cmd :=
  match g, v with
  | GVote i eid id arg _, WVoteReply r => GVote i eid id arg (Replied r)
  | GAppendRPC i id arg _, WAppendReply r => GAppendRPC i id arg (Replied r)
  | _, _ => g
  end.

(** [Call] returns to the goroutine of call [c]: with false it ends, with a
    reply it runs the code after the call. *)
Definition return_rpc (c : nat) (g : goroutine Cmd) (res : option (wire Cmd))
    (s : world) : result world :=
  let s := mkNet (lab s) (n_pcs s) (n_pool s) (n_counts s)
             (<[c := (g, true)]> (n_calls s)) in
  match res with
  | None => Ok s
  | Some v =>
      let g := with_reply g v in
      of_outcome (RaftSystem.run_goroutine (local_view n [g] s) 0 g) (λ w,
      Ok (put_view w (n_pool s) s))
  end.

Definition act (a : action) (s : world) : result world :=
  match a with
  | NLocal a =>
      if is_local (n_pool s) a then
        of_outcome (RaftSystem.act (local_view n (n_pool s) s) a)
          (λ w, Ok (put_view w [] s))
      else Blocked
  | NCall k =>
      rbind (oget (n_pool s !! k) Blocked) (λ g, send_rpc k g s)
  | NNet a =>
      if is_network a then
        rbind (LabRpc.act a (lab s)) (λ w, Ok (set_lab w s))
      else Blocked
  | NReturn c =>
      rbind (oget (n_calls s !! c) Blocked) (λ '(g, returned),
      rbind (oget (LabRpc.calls (lab s) !! c) Blocked) (λ cl,
      match returned, c_res cl with
      | false, Some res => return_rpc c g res s
      | _, _ => Blocked
      end))
  end.

(** What the harness does before the peers run, in any order: it makes and
    connects end-points, the one from peer [i] to peer [j] to server name
    [sn j], and puts servers on the network that offer the peers. *)
Definition sets_up (sn : nat → Name) (w : lworld) (a : laction) : Prop :=
  match a with
  | AReliable _ | ALongReordering _ | ALongDelays _ | AMakeEnd _ | AEnable _ _ => True
  | AConnect e s => ∃ i j, e = en i j ∧ s = sn j ∧ j < n
  | AAddService p svc => svc = raft_service p
  | AAddServer s p => s = sn p ∧ services (LabRpc.heap w p) = services (raft_server p)
  | _ => False
  end.

Inductive set_up (sn : nat → Name) : lworld → Prop :=
| su_init : set_up sn (LabRpc.init (λ i, Make n i MakePersister))
| su_act w a w' :
    set_up sn w → sets_up sn w a → LabRpc.act a w = Ok w' → set_up sn w'.

Definition start (w : lworld) : world := mkNet w (replicate n AtTop) [] [] [].

Fixpoint exec (acts : list action) (s : world) : result world :=
  match acts with
  | [] => Ok s
  | a :: acts => rbind (act a s) (exec acts)
  end.

Inductive reachable (sn : nat → Name) : world → Prop :=
| nr_start w : set_up sn w → reachable sn (start w)
| nr_act s a s' : reachable sn s → act a s = Ok s' → reachable sn s'.
End raftnet.
