(* ===== verification/RaftNetRefines.v ===== *)
(** * Raft over labrpc refines the abstract cluster

    RaftSystem.v lets any message be delayed or lost.  Here the RPCs go
    through labrpc, with its tables of end-points and servers, its losses, its
    at-most-once dispatch and its replies that come after the server was
    deleted or not at all; every run of that system is a run of RaftSystem.v
    with the same peers, so election safety and log matching hold over the
    simulated network.

    The simulation relates a goroutine inside [Call] to the abstract one that
    has sent its request, or has got its reply once the handler has run.  A
    caller that gives up leaves the abstract goroutine behind, because its
    request may still be dispatched later. *)

From S2P Require Import Prelude GoBase Persister Raft RaftSystem RaftElection RaftLogs RaftApply.
From S2P Require Import RaftCommittedAppend RaftStateMachine LabRpc LabRpcSafety RaftNet.

(** ** Positions in a pool that is known up to order *)

Section pools.
Context {A : Type}.
Implicit Types l F : list A.

Lemma insert_Permutation l i x y :
  l !! i = Some x → <[i := y]> l ≡ₚ y :: delete i l.
Proof.
  revert i. induction l as [|z l IH]; intros [|i] Hi; simpl in *; [done..|].
  rewrite (IH i Hi). constructor.
Qed.

(** An element of a part of [l'] can be changed or removed in [l']. *)
Lemma pool_position l l' F i x :
  l' ≡ₚ l ++ F → l !! i = Some x →
  ∃ j, l' !! j = Some x ∧ delete j l' ≡ₚ delete i l ++ F ∧
    ∀ y, <[j := y]> l' ≡ₚ <[i := y]> l ++ F.
Proof.
  intros Hp Hi. assert (x ∈ l') as [j Hj]%list_elem_of_lookup.
  { rewrite Hp. apply elem_of_app. left. by eapply list_elem_of_lookup_2. }
  assert (delete j l' ≡ₚ delete i l ++ F) as Hdel.
  { apply (Permutation_cons_inv (a:=x)).
    rewrite <-(delete_Permutation _ _ _ Hj), Hp.
    by rewrite (delete_Permutation _ _ _ Hi) at 1. }
  exists j. split_and!; [done..|]. intros y.
  by rewrite (insert_Permutation _ _ _ _ Hj), (insert_Permutation _ _ _ _ Hi), Hdel.
Qed.

(** Changing a function at one place changes one element of its values. *)
Lemma omap_seq_one (f : nat → option A) m c :
  c < m → ∃ rest, ∀ f', (∀ j, j ≠ c → f' j = f j) →
    omap f' (seq 0 m) ≡ₚ option_list (f' c) ++ rest.
Proof.
  intros Hc. exists (omap f (seq 0 c) ++ omap f (seq (S c) (m - S c))).
  intros f' Hf. replace m with (c + S (m - S c)) at 1 by lia.
  rewrite seq_app, omap_app, Nat.add_0_l. cbn [seq].
  rewrite (list_omap_ext f' f (seq 0 c) (seq 0 c)).
  2:{ apply Forall_Forall2_diag, list.Forall_forall. intros j Hj%elem_of_seq.
      apply Hf. lia. }
  assert (omap f' (seq (S c) (m - S c)) = omap f (seq (S c) (m - S c))) as Hs.
  { apply list_omap_ext, Forall_Forall2_diag, list.Forall_forall.
    intros j Hj%elem_of_seq. apply Hf. lia. }
  destruct (f' c) eqn:Hfc; simpl; rewrite Hfc.
  - etrans; [symmetry; apply Permutation_middle|]. constructor. by rewrite <-Hs.
  - by rewrite <-Hs.
Qed.
End pools.

(** ** Abstract steps on a part of the pool *)

Section frame.
Context {Cmd : Type} `{!Gob (gval Cmd)}.
Notation aworld := (RaftSystem.world Cmd).
Implicit Types w aw : aworld.

(** [aw] is [w] with more goroutines. *)
Record extends (F : list (goroutine Cmd)) w aw : Prop := {
  ex_nodes : RaftSystem.nodes aw = RaftSystem.nodes w;
  ex_pcs : RaftSystem.pcs aw = RaftSystem.pcs w;
  ex_counts : RaftSystem.counts aw = RaftSystem.counts w;
  ex_pool : RaftSystem.pool aw ≡ₚ RaftSystem.pool w ++ F;
}.

Ltac split_outcome :=
  repeat match goal with
  | H : RaftSystem.need _ _ = Next _ |- _ => apply need_Next in H as (? & ? & H)
  | H : RaftSystem.ret _ _ = Next _ |- _ => apply ret_Next in H as (? & ? & H)
  | p : _ * _ |- _ => destruct p
  | H : Next _ = Next _ |- _ => injection H as <-
  | H : Disabled = Next _ |- _ => discriminate H
  | H : Panicked = Next _ |- _ => discriminate H
  end.

Ltac ext := split; simpl; try congruence; auto.

Lemma run_goroutine_frame w w' aw F k g :
  extends F w aw → RaftSystem.pool w !! k = Some g →
  RaftSystem.run_goroutine w k g = Next w' →
  ∃ k' aw', RaftSystem.pool aw !! k' = Some g ∧
    RaftSystem.act aw (ARun k') = Next aw' ∧ extends F w' aw'.
Proof.
  intros [Hn Hp Hc Hpool] Hk Hrun.
  destruct (pool_position _ _ _ _ _ Hpool Hk) as (k' & Hk' & Hdel & Hins).
  exists k'. cut (∃ aw', RaftSystem.act aw (ARun k') = Next aw' ∧ extends F w' aw'); [naive_solver|].
  simpl. rewrite Hk'. simpl.
  destruct g as [i|i term|i eid id arg []|i id|i id arg []]; simpl in Hrun |- *;
    rewrite Hn, ?Hc; split_outcome;
    repeat match goal with H : _ = Some _ |- _ => rewrite H; simpl; clear H end.
  - eexists. split; [done|]. ext.
  - eexists. split; [done|]. split; simpl; [done..|].
    rewrite Hdel, <-!app_assoc. f_equiv. apply Permutation_app_comm.
  - eexists. split; [done|]. ext.
  - eexists. split; [done|]. ext.
  - destruct x0; split_outcome; eexists; (split; [done|]); ext.
  - eexists. split; [done|]. ext.
  - eexists. split; [done|]. destruct b; ext.
Qed.

Lemma act_frame w w' aw F a :
  extends F w aw → is_local (RaftSystem.pool w) a = true →
  RaftSystem.act w a = Next w' →
  ∃ a' aw', RaftSystem.act aw a' = Next aw' ∧ timely aw a' = true ∧ extends F w' aw'.
Proof.
  intros He Hl Ha. destruct (He) as [Hn Hp Hc Hpool].
  assert (∀ i, RaftSystem.main_loop w a i = Next w' →
    ∃ aw', RaftSystem.main_loop aw a i = Next aw' ∧ extends F w' aw') as Hmain.
  { intros i Hm. unfold main_loop in *. rewrite Hn, Hp. split_outcome.
    repeat match goal with H : _ !! _ = Some _ |- _ => rewrite H; simpl; clear H end.
    destruct x0, a; try discriminate; repeat case_match; split_outcome;
      eexists; (split; [done|]); split; simpl; rewrite ?Hn, ?Hp; try done;
      rewrite Hpool, <-!app_assoc; f_equiv; apply Permutation_app_comm. }
  destruct a as [i|i|i|i|i|i|i command|k|k]; simpl in Ha;
    try (destruct (Hmain i Ha) as (aw' & ? & ?); eexists; exists aw';
         split; [|split; [|done]]; [match goal with H : main_loop _ ?a _ = _ |- _ =>
           instantiate (1 := a) end; done|done]).
  - exists (AStart i command). simpl. rewrite Hn. split_outcome.
    match goal with H : _ = Some _ |- _ => rewrite H end. simpl.
    eexists. split; [done|]. split; [done|]. split; simpl; by rewrite ?Hn.
  - split_outcome.
    destruct (run_goroutine_frame _ _ _ _ _ _ He H Ha) as (k' & aw' & Hk' & ? & ?).
    exists (ARun k'), aw'. split_and!; [done| |done]. simpl in Hl |- *. rewrite H in Hl.
    rewrite Hk'. by destruct x.
  - done.
Qed.
End frame.

(** ** The simulation *)

Section simulation.
Context {Name Cmd : Type} `{Countable Name} `{!Gob (gval Cmd)} `{!Gob (wire Cmd)}.
Context (laws : GobLaws (gval Cmd)) (wlaws : GobLaws (wire Cmd)).
Context (n : nat) (en : nat → nat → Name) (sn : nat → Name).
Context (en_inj : ∀ i j i' j', en i j = en i' j' → i = i' ∧ j = j').
Context (sn_inj : ∀ j j', sn j = sn j' → j = j').
Notation lworld := (@LabRpc.world Name (wire Cmd) (Raft Cmd) _ _).
Notation lcall := (@LabRpc.call Name (wire Cmd)).
Notation nworld := (@RaftNet.world Name Cmd _ _).
Notation aworld := (RaftSystem.world Cmd).
Implicit Types s : nworld.
Implicit Types aw : aworld.
Implicit Types lw : lworld.

(** What a goroutine inside [Call] has asked for: end-point, method, argument
    and the peer that is to answer. *)
Definition request_of (g : goroutine Cmd) : option (Name * string * wire Cmd * nat) :=
  match g with
  | GVote i _ id arg Sent => Some (en i id, "Raft.RequestVote", WVoteArgs arg, id)
  | GAppendRPC i id arg Sent =>
      Some (en i id, "Raft.AppendEntries", WAppendArgs arg, id)
  | _ => None
  end.

(** The abstract goroutine that stands for call [c]: none once it has returned
    with a reply. *)
Definition live s (c : nat) : option (goroutine Cmd) :=
  '(g, returned) ← n_calls s !! c;
  cl ← LabRpc.calls (lab s) !! c;
  match returned, c_res cl with
  | true, Some (Some _) => None
  | _, _ =>
      Some (match runs c (LabRpc.history (lab s)) with
            | (_, _, _, v) :: _ => with_reply g v
            | [] => g
            end)
  end.

Definition inflight s : list (goroutine Cmd) :=
  omap (live s) (seq 0 (length (n_calls s))).

Record call_ok lw (g : goroutine Cmd) (returned : bool) (cl : lcall) : Prop := {
  co_req : ∃ id,
    request_of g = Some (endname (c_req cl), svcMeth (c_req cl), c_args cl, id) ∧
    ∀ p, c_h cl = HRun p →
      services (LabRpc.heap lw p) = services (raft_server id) ∧ id < n;
  co_returned : returned = true → is_Some (c_res cl);
  co_done : is_Some (c_res cl) → c_pc cl = PDone;
}.

(** What the set-up guarantees and no later action changes. *)
Record routed lw : Prop := {
  ro_ends e ce : ends (LabRpc.net lw) !! e = Some ce → ce_endname ce = e;
  ro_route i j x : connection (LabRpc.net lw) (en i j) = Some x → x = sn j ∧ j < n;
  ro_server j p : server (LabRpc.net lw) (sn j) = Some p →
    services (LabRpc.heap lw p) = services (raft_server j);
}.

Record sim s aw : Prop := {
  sm_reach : RaftSystem.reachable n aw;
  sm_ext : extends (inflight s) (local_view n (n_pool s) s) aw;
  sm_inv : LabRpcSafety.inv (lab s);
  sm_len : length (n_calls s) = length (LabRpc.calls (lab s));
  sm_calls c g b cl : n_calls s !! c = Some (g, b) →
    LabRpc.calls (lab s) !! c = Some cl → call_ok (lab s) g b cl;
  sm_routed : routed (lab s);
}.

(** ** Timely steps

    The two defects of RaftFindings.v, seen on the network: a request that is
    dispatched so late that it erases entries of its own term, and a positive
    reply that [Call] hands over after the leader's log or term has changed. *)

Definition prompt lw (g : goroutine Cmd) : bool :=
  match g with
  | GAppendRPC i id arg Sent => keeps_term arg (LabRpc.objs lw id)
  | GAppendRPC i id arg (Replied r) => prompt_reply arg r (LabRpc.objs lw i)
  | _ => true
  end.

Definition net_timely s (a : @RaftNet.action Name Cmd) : bool :=
  match a with
  | NNet (ADispatch c) =>
      match n_calls s !! c with Some (g, _) => prompt (lab s) g | None => true end
  | NReturn c =>
      match n_calls s !! c, LabRpc.calls (lab s) !! c ≫= c_res with
      | Some (g, _), Some (Some v) => prompt (lab s) (with_reply g v)
      | _, _ => true
      end
  | _ => true
  end.

(** The abstract cluster can go from [aw] to [aw'], by timely actions if
    [t]. *)
Definition follows (t : bool) aw aw' : Prop :=
  ∃ acts, RaftSystem.exec aw acts = Next aw' ∧
    (t = true → timely_exec aw acts = Some aw').

Lemma follows_refl t aw : follows t aw aw.
Proof. by exists []. Qed.

Lemma follows_one (t : bool) aw a aw' :
  RaftSystem.act aw a = Next aw' → (t = true → timely aw a = true) → follows t aw aw'.
Proof.
  intros Ha Ht. exists [a]. simpl. rewrite Ha. split; [done|]. intros Hb. by rewrite (Ht Hb).
Qed.

Lemma cluster_exec_app aw acts acts' aw' :
  RaftSystem.exec aw acts = Next aw' →
  RaftSystem.exec aw (acts ++ acts') = RaftSystem.exec aw' acts'.
Proof.
  revert aw. induction acts as [|a acts IH]; intros aw; simpl; [by intros [= ->]|].
  destruct (RaftSystem.act aw a); [apply IH|done..].
Qed.

Lemma follows_trans t t' aw aw1 aw2 :
  follows t aw aw1 → follows t' aw1 aw2 → follows (t && t') aw aw2.
Proof.
  intros (l1 & H1 & T1) (l2 & H2 & T2). exists (l1 ++ l2).
  rewrite (cluster_exec_app _ _ _ _ H1). split; [done|]. intros [Ht Ht']%andb_true_iff.
  rewrite (timely_exec_app _ _ _ _ (T1 Ht)). auto.
Qed.

Lemma prompt_timely lw aw k g :
  RaftSystem.nodes aw = nodes_of n lw → RaftSystem.pool aw !! k = Some g →
  prompt lw g = true → timely aw (ARun k) = true.
Proof.
  intros Hn Hk Hg. simpl. rewrite Hk, Hn. unfold nodes_of.
  destruct g as [| | | |i id arg []]; simpl in *; try done; rewrite list_lookup_fmap;
    match goal with |- context [seq 0 n !! ?j] => destruct (seq 0 n !! j) as [x|] eqn:Hx end;
    simpl; try done; apply lookup_seq in Hx as [-> _]; done.
Qed.

Lemma nodes_of_put nodes lw :
  length nodes = n → nodes_of n (put_nodes nodes lw) = nodes.
Proof.
  intros Hl. apply list_eq. intros i. unfold nodes_of. rewrite list_lookup_fmap.
  destruct (decide (i < n)) as [Hi|Hi].
  - rewrite lookup_seq_lt by done. simpl.
    by destruct (lookup_lt_is_Some_2 nodes i) as [rf ->]; [lia|].
  - rewrite lookup_seq_ge, lookup_ge_None_2 by lia. done.
Qed.

Lemma nodes_of_lookup lw i :
  i < n → nodes_of n lw !! i = Some (LabRpc.objs lw i).
Proof.
  intros Hi. unfold nodes_of. by rewrite list_lookup_fmap, lookup_seq_lt.
Qed.

Lemma nodes_of_insert lw lw' i rf :
  i < n → LabRpc.objs lw' = <[i := rf]> (LabRpc.objs lw) →
  nodes_of n lw' = <[i := rf]> (nodes_of n lw).
Proof.
  intros Hi Ho. unfold nodes_of at 1. rewrite Ho. apply list_eq. intros j. unfold nodes_of. rewrite list_lookup_fmap.
  destruct (decide (j < n)) as [Hj|Hj].
  - rewrite lookup_seq_lt by done. simpl.
    destruct (decide (i = j)) as [->|Hne].
    + rewrite list_lookup_insert_eq, fn_lookup_insert; [done|].
      by rewrite length_fmap, length_seq.
    + rewrite list_lookup_insert_ne, fn_lookup_insert_ne by done.
      by rewrite list_lookup_fmap, lookup_seq_lt.
  - rewrite lookup_seq_ge by lia.
    rewrite lookup_ge_None_2; [done|].
    rewrite length_insert, length_fmap, length_seq. lia.
Qed.

(** ** The set-up *)

Record ready lw : Prop := {
  rd_objs : LabRpc.objs lw = λ i, Make n i MakePersister;
  rd_calls : LabRpc.calls lw = [];
  rd_history : LabRpc.history lw = [];
  rd_heap p : services (LabRpc.heap lw p) = ∅ ∨
    services (LabRpc.heap lw p) = services (raft_server p);
  rd_routed : routed lw;
}.

Lemma sets_up_ready lw a lw' :
  ready lw → sets_up n en sn lw a → LabRpc.act a lw = Ok lw' → ready lw'.
Proof using en_inj sn_inj.
  intros [R1 R2 R3 R4 [R5 R6 R7]] Ha Hact.
  destruct a; simpl in Ha, Hact; unfold upd_net in Hact; try done; run_result;
    subst; try (split; [done..|]; by split).
  - destruct x as [rn ce]. unfold MakeEnd in *. repeat case_match; try done.
    simplify_eq. run_result. subst. split; [done..|]. split; simpl.
    + intros x ce [[<- <-]|[_ ?]]%lookup_insert_Some; [done|eauto].
    + intros i j x. unfold connection. simpl.
      destruct (decide (e = en i j)) as [->|Hne];
        [by rewrite lookup_insert_eq|by rewrite lookup_insert_ne; [apply R6|]].
    + done.
  - destruct Ha as [-> Hp]. split; [done..|]. split; simpl; [done..|].
    intros j q. unfold server. simpl. destruct (decide (p = j)) as [->|Hne].
    + rewrite lookup_insert_eq. by intros [= <-].
    + rewrite lookup_insert_ne by (by intros ?%sn_inj). apply R7.
  - destruct Ha as (i & j & -> & -> & Hj). split; [done..|]. split; simpl; [done| |done].
    intros i' j' x. unfold connection. simpl.
    destruct (decide (en i j = en i' j')) as [Heq|Hne].
    + rewrite Heq, lookup_insert_eq. apply en_inj in Heq as [-> ->]. by intros [= <-].
    + rewrite lookup_insert_ne by done. apply R6.
  - assert (∀ q, services (LabRpc.heap lw q) = services (raft_server q) →
      services (<[p := AddService (raft_service p) (LabRpc.heap lw p)]>
        (LabRpc.heap lw) q) = services (raft_server q)) as Hkeep.
    { intros q Hq. destruct (decide (p = q)) as [->|Hne];
        [|by rewrite fn_lookup_insert_ne]. rewrite fn_lookup_insert. simpl.
      rewrite Hq. simpl. by rewrite insert_insert_eq. }
    split; [done..| |].
    + intros q. simpl. destruct (decide (p = q)) as [->|Hne].
      * right. destruct (R4 q) as [Hq|Hq]; [|by apply Hkeep].
        rewrite fn_lookup_insert. simpl. by rewrite Hq.
      * rewrite fn_lookup_insert_ne by done. apply R4.
    + split; simpl; [done..|]. intros j q Hq.
      pose proof (R7 j q Hq) as Hs. destruct (decide (p = q)) as [->|Hne];
        [|by rewrite fn_lookup_insert_ne].
      rewrite fn_lookup_insert. simpl. destruct (R4 q) as [Hq0|Hq0].
      * rewrite Hq0 in Hs. by apply (f_equal (lookup "Raft")) in Hs.
      * rewrite Hq0 in Hs. rewrite Hq0. simpl in *. rewrite insert_insert_eq. done.
Qed.

Lemma set_up_ready lw : set_up n en sn lw → ready lw.
Proof using en_inj sn_inj.
  induction 1 as [|lw a lw' _ IH Ha Hact]; [|by eapply sets_up_ready].
  split; simpl; [done..|by auto|]. split; done.
Qed.

(** ** Steps that change no call and no peer *)

Lemma inflight_ext s s' :
  n_calls s' = n_calls s → LabRpc.calls (lab s') = LabRpc.calls (lab s) →
  LabRpc.history (lab s') = LabRpc.history (lab s) → inflight s' = inflight s.
Proof. intros Hn Hc Hh. unfold inflight, live. by rewrite Hn, Hc, Hh. Qed.

Lemma nodes_length aw : RaftSystem.reachable n aw → length (RaftSystem.nodes aw) = n.
Proof.
  intros Hr. destruct (reachable_einv n laws aw Hr) as (V & E & HI).
  by eapply ei_len.
Qed.

(** A local step of the goroutines and peers. *)
Lemma sim_put s aw pool0 w' rest :
  RaftSystem.reachable n aw → extends (rest ++ inflight s) w' aw →
  LabRpcSafety.inv (lab s) → length (n_calls s) = length (LabRpc.calls (lab s)) →
  (∀ c g b cl, n_calls s !! c = Some (g, b) →
     LabRpc.calls (lab s) !! c = Some cl → call_ok (lab s) g b cl) →
  routed (lab s) → pool0 = rest →
  sim (put_view w' pool0 s) aw.
Proof.
  intros Hr [He1 He2 He3 He4] [Hi1 Hi2] Hlen Hcalls [Hro1 Hro2 Hro3] ->.
  assert (length (RaftSystem.nodes w') = n) as Hn.
  { rewrite <-He1. by apply nodes_length. }
  split; [done| |by split|done| |by split].
  - split; simpl; [by rewrite nodes_of_put|done..|].
    rewrite He4, (inflight_ext s (put_view w' rest s)), app_assoc by done. f_equiv.
    apply Permutation_app_comm.
  - intros c g b cl Hg Hcl. destruct (Hcalls c g b cl Hg Hcl) as [(id & Hq & Hrun) ? ?].
    split; [|done..]. by exists id.
Qed.

Lemma sim_local s aw a s' :
  sim s aw → RaftNet.act n en (NLocal a) s = Ok s' →
  ∃ aw', follows true aw aw' ∧ sim s' aw'.
Proof.
  intros [Hr He Hi Hl Hc Hro] Ha. simpl in Ha.
  destruct (is_local (n_pool s) a) eqn:Hloc; [|done].
  destruct (RaftSystem.act _ a) as [w'| |] eqn:Hact; simpl in Ha; run_result; try done.
  destruct (act_frame _ _ _ _ _ He Hloc Hact) as (a' & aw' & Ha' & Ht & He').
  subst s'. exists aw'. split; [by eapply follows_one|].
  apply (sim_put s aw' [] w' []); [by eapply reach_act|done..].
Qed.

(** ** Entering a call *)

Lemma inflight_snoc s s' g cl :
  length (n_calls s) = length (LabRpc.calls (lab s)) →
  n_calls s' = n_calls s ++ [(g, false)] →
  LabRpc.calls (lab s') = LabRpc.calls (lab s) ++ [cl] →
  LabRpc.history (lab s') = LabRpc.history (lab s) →
  runs (length (n_calls s)) (LabRpc.history (lab s)) = [] →
  inflight s' = inflight s ++ [g].
Proof.
  intros Hl Hn Hc Hh Hr. unfold inflight. rewrite Hn, length_app. simpl.
  rewrite seq_app, omap_app. f_equal.
  - apply list_omap_ext, Forall_Forall2_diag, list.Forall_forall.
    intros j Hj%elem_of_seq. unfold live.
    by rewrite Hn, Hc, Hh, !lookup_app_l by lia.
  - assert (live s' (length (n_calls s)) = Some g) as Hg; [|by simpl; rewrite Hg].
    unfold live. rewrite Hn, Hc, Hh, list_lookup_middle by done. simpl.
    rewrite Hl at 1. rewrite list_lookup_middle by done. simpl. by rewrite Hr.
Qed.

Lemma sim_enter s aw k g e meth zero a lw' id :
  sim s aw → n_pool s !! k = Some g → request_of g = Some (e, meth, a, id) →
  LabRpc.act (ACall e meth zero a) (lab s) = Ok lw' →
  sim (mkNet lw' (n_pcs s) (delete k (n_pool s)) (n_counts s)
         (n_calls s ++ [(g, false)])) aw.
Proof.
  intros [Hr He Hi Hl Hc Hro] Hk Hreq Ha. pose proof (act_inv wlaws _ _ _ Hi Ha) as Hi'.
  simpl in Ha. run_result. rename x into ce. subst lw'.
  pose proof (ro_ends _ Hro _ _ H0) as Hce.
  set (cl := mkCall (Call_request ce meth zero a) a PStart HNone None) in *.
  split; [done| |done| | |].
  - destruct He as [He1 He2 He3 He4]. split; [done..|]. simpl. simpl in He4.
    rewrite (inflight_snoc s _ g cl); [|done..|].
    + rewrite He4. rewrite (delete_Permutation _ _ _ Hk) at 1.
      rewrite app_assoc. by rewrite <-Permutation_cons_append.
    + apply (inv_fresh _ Hi). lia.
  - simpl. rewrite !length_app. simpl. lia.
  - simpl. intros c g' b cl' [Hg|[Hge Hg]]%lookup_app_Some.
    + intros Hcl. rewrite lookup_app_l in Hcl.
      2:{ rewrite <-Hl. by eapply lookup_lt_Some. }
      destruct (Hc c g' b cl' Hg Hcl) as [(id' & Hq & Hrun) Hret Hdone].
      split; [by exists id'|done..].
    + apply list_lookup_singleton_Some in Hg as [Hz [= <- <-]].
      intros Hcl. rewrite lookup_app_r in Hcl by lia.
      apply list_lookup_singleton_Some in Hcl as [_ <-].
      split; [|done|by intros []]. exists id. simpl. by rewrite Hce.
  - by destruct Hro.
Qed.

Lemma sim_call s aw k s' :
  sim s aw → RaftNet.act n en (NCall k) s = Ok s' → sim s' aw.
Proof.
  intros Hs Ha. simpl in Ha. run_result. rename x into g.
  destruct g as [| |i eid id arg []| |i id arg []]; cbn [send_rpc] in Ha; try done;
    run_result; subst s'; by eapply sim_enter.
Qed.

(** ** The network on its own *)

Lemma sim_set_lab s aw lw' :
  sim s aw → LabRpcSafety.inv lw' → routed lw' →
  LabRpc.objs lw' = LabRpc.objs (lab s) →
  LabRpc.history lw' = LabRpc.history (lab s) →
  length (LabRpc.calls lw') = length (LabRpc.calls (lab s)) →
  (∀ c cl', LabRpc.calls lw' !! c = Some cl' →
     ∃ cl, LabRpc.calls (lab s) !! c = Some cl ∧
       ∀ g b, call_ok (lab s) g b cl →
         call_ok lw' g b cl' ∧ (b = true → c_res cl' = c_res cl)) →
  sim (set_lab lw' s) aw.
Proof.
  intros [Hr He Hi Hl Hc Hro] Hi' Hro' Ho Hh Hlen Hcalls.
  assert (inflight (set_lab lw' s) = inflight s) as Hinf.
  { unfold inflight. apply list_omap_ext, Forall_Forall2_diag, list.Forall_forall.
    intros c Hcn%elem_of_seq. unfold live. simpl. rewrite Hh.
    destruct (n_calls s !! c) as [[g b]|] eqn:Hg; [|done]. simpl.
    destruct (LabRpc.calls lw' !! c) as [cl'|] eqn:Hcl'; simpl; last first.
    { apply lookup_ge_None in Hcl'. lia. }
    destruct (Hcalls c cl' Hcl') as (cl & Hcl & Hok). rewrite Hcl. simpl.
    destruct (Hok g b (Hc _ _ _ _ Hg Hcl)) as [_ Hres].
    destruct b; [by rewrite Hres|done]. }
  split; [done| |done| | |done].
  - destruct He as [He1 He2 He3 He4]. split; [|done..|].
    + rewrite He1. unfold local_view, nodes_of. simpl. by rewrite Ho.
    + by rewrite Hinf.
  - simpl. congruence.
  - intros c g b cl' Hg Hcl'. destruct (Hcalls c cl' Hcl') as (cl & Hcl & Hok).
    by apply (Hok g b), (Hc _ _ _ _ Hg Hcl).
Qed.

(** The same, for a step of one call. *)
Lemma sim_one_call s aw c cl cl' :
  sim s aw → LabRpc.calls (lab s) !! c = Some cl →
  (LabRpcSafety.call_inv (LabRpc.history (lab s)) c cl →
   LabRpcSafety.call_inv (LabRpc.history (lab s)) c cl') →
  (∀ g b, call_ok (lab s) g b cl →
     call_ok (lab s) g b cl' ∧ (b = true → c_res cl' = c_res cl)) →
  sim (set_lab (LabRpc.mkWorld (LabRpc.net (lab s)) (LabRpc.heap (lab s))
    (LabRpc.objs (lab s)) (<[c := cl']> (LabRpc.calls (lab s)))
    (LabRpc.history (lab s))) s) aw.
Proof.
  intros Hs Hcl Hinv Hok. apply sim_set_lab; simpl; try done.
  - by eapply inv_upd; [apply Hs|..].
  - by destruct (sm_routed _ _ Hs).
  - by rewrite length_insert.
  - intros j d Hj. destruct (decide (c = j)) as [<-|Hne].
    + rewrite list_lookup_insert_eq in Hj by (by eapply lookup_lt_Some).
      injection Hj as <-. exists cl. split; [done|]. intros g b [Hq Hret Hdone].
      destruct (Hok g b) as [[Hq' Hret' Hdone'] Hres]; [by split|].
      split; [by split|done].
    + rewrite list_lookup_insert_ne in Hj by done. exists d. split; [done|].
      intros g b [Hq Hret Hdone]. by split; [split|].
Qed.

(** A change of the network's tables that keeps the routes. *)
Lemma sim_tables s aw rn :
  sim s aw → ends rn = ends (LabRpc.net (lab s)) →
  connections rn = connections (LabRpc.net (lab s)) →
  (∀ x p, server rn x = Some p → server (LabRpc.net (lab s)) x = Some p) →
  sim (set_lab (LabRpc.mkWorld rn (LabRpc.heap (lab s)) (LabRpc.objs (lab s))
    (LabRpc.calls (lab s)) (LabRpc.history (lab s))) s) aw.
Proof.
  intros Hs He Hc Hsrv. apply sim_set_lab; simpl; try done.
  - by apply inv_net, Hs.
  - destruct (sm_routed _ _ Hs) as [R1 R2 R3]. split; simpl.
    + intros e ce. rewrite He. apply R1.
    + intros i j x. unfold connection. rewrite Hc. apply R2.
    + intros j p Hp. by apply R3, Hsrv.
  - intros c cl Hcl. exists cl. split; [done|]. intros g b [Hq Hret Hdone]. by split; [split|].
Qed.

Lemma process_ok s aw g b rand cl :
  sim s aw → c_pc cl = PStart → call_ok (lab s) g b cl →
  call_ok (lab s) g b (ProcessReq_start (LabRpc.net (lab s)) rand cl) ∧
  (b = true → c_res (ProcessReq_start (LabRpc.net (lab s)) rand cl) = c_res cl).
Proof.
  intros Hs Hpc [(id & Hq & Hrun) Hret Hdone].
  assert (c_res cl = None) as Hnone.
  { apply eq_None_not_Some. intros Hr%Hdone. congruence. }
  assert (c_res (ProcessReq_start (LabRpc.net (lab s)) rand cl) = c_res cl) as Hsame.
  { unfold ProcessReq_start. repeat case_match; done. }
  split; [|done]. split; rewrite ?Hsame, ?Hnone; [|by rewrite Hnone in Hret|by intros []].
  exists id.
  destruct (sm_routed _ _ Hs) as [R1 R2 R3].
  assert (∃ i j, endname (c_req cl) = en i j ∧ j = id) as (i & j & He & ->).
  { destruct g as [| |? ? ? ? []| |? ? ? []]; simplify_eq/=; eauto. }
  unfold ProcessReq_start, ReadEndnameInfo. rewrite He.
  destruct (is_enabled _ _); [|by split].
  destruct (connection _ (en i id)) as [x|] eqn:Hx; [|by split]. simpl.
  destruct (R2 _ _ _ Hx) as [-> Hid].
  destruct (server _ (sn id)) as [p|] eqn:Hp; [|by split].
  destruct (negb _ && _); [by split|]. split; [done|].
  simpl. intros ? [= <-]. by split; [apply R3|].
Qed.

(** Steps of a call that leave its request and its handler as they are. *)
Lemma call_ok_same lw g b cl cl' :
  c_req cl' = c_req cl → c_args cl' = c_args cl →
  (∀ p, c_h cl' = HRun p → c_h cl = HRun p) → c_pc cl ≠ PDone →
  c_res cl' = c_res cl ∨ c_pc cl' = PDone →
  call_ok lw g b cl → call_ok lw g b cl' ∧ (b = true → c_res cl' = c_res cl).
Proof.
  intros Hreq Hargs Hh Hpc Hor [(id & Hq & Hrun) Hret Hdone].
  assert (b = false) as -> by (destruct b; [by destruct Hpc; auto|done]).
  split; [|done]. split; [|done|].
  - exists id. rewrite Hreq, Hargs. auto.
  - destruct Hor as [->|?]; [|done]. intros ?%Hdone. done.
Qed.

Lemma sim_net s aw a lw' :
  sim s aw → is_network a = true → (∀ c, a ≠ ADispatch c) →
  LabRpc.act a (lab s) = Ok lw' → sim (set_lab lw' s) aw.
Proof.
  intros Hs Hnet Hnd Ha. destruct a as [b|b|b| | |x| |e b| | |c rand|c|c|c|c rand randn|c];
    try done; simpl in Ha; unfold upd_net, upd_call in Ha; run_result; subst.
  - by apply sim_tables.
  - by apply sim_tables.
  - by apply sim_tables.
  - apply sim_tables; [done..|]. intros y p. unfold server. simpl.
    destruct (decide (x = y)) as [->|Hne];
      [by rewrite lookup_insert_eq|by rewrite lookup_insert_ne].
  - by apply sim_tables.
  - destruct (c_pc x) eqn:Hpc; run_result. subst.
    apply sim_one_call with x; [done|done|by apply ProcessReq_start_inv|].
    intros g b Hok. by eapply process_ok.
  - by destruct (Hnd c).
  - destruct (c_pc x) eqn:Hpc; run_result. destruct (c_h x) eqn:Hh; run_result. subst.
    apply sim_one_call with x; [done|done| |].
    + intros [Ha Hr Hp Hres]. rewrite Hh in Hr. split; simpl; eauto.
    + intros g b. apply call_ok_same; simpl; rewrite ?Hpc; first [done|by auto].
  - destruct (c_pc x) eqn:Hpc; run_result.
    destruct (IsServerDead _ _ _ _); run_result; subst; [|by destruct s].
    apply sim_one_call with x; [done|done| |].
    + intros [Ha Hr Hp Hres]. by split.
    + intros g b. apply call_ok_same; simpl; rewrite ?Hpc; first [done|by auto].
  - destruct (c_pc x) eqn:Hpc; run_result. subst.
    apply sim_one_call with x; [done|done|by apply ProcessReq_finish_inv|].
    intros g b. unfold ProcessReq_finish.
    repeat case_match; apply call_ok_same; simpl; rewrite ?Hpc; first [done|by auto].
  - destruct (c_pc x) eqn:Hpc; run_result. subst.
    apply sim_one_call with x; [done|done|by eapply Call_return_inv|].
    intros g b. apply call_ok_same; simpl; rewrite ?Hpc; first [done|by auto].
Qed.

(** ** The handler runs *)

(** What the handler asked for by [g] does at the other peer. *)
Definition answer (g : goroutine Cmd) (rf : Raft Cmd) : option (Raft Cmd * wire Cmd) :=
  match g with
  | GVote _ _ _ arg _ => '(rf', r) ← RequestVote arg rf; Some (rf', WVoteReply r)
  | GAppendRPC _ _ arg _ => '(rf', r) ← AppendEntries arg rf; Some (rf', WAppendReply r)
  | _ => None
  end.

Lemma dispatch_answer g e meth a id rs (req : @reqMsg Name (wire Cmd)) objs rf' v :
  request_of g = Some (e, meth, a, id) →
  services rs = services (raft_server id) → svcMeth req = meth →
  args req = gob_encode [a] → answer g (objs id) = Some (rf', v) →
  Server_dispatch rs req objs =
    Ok (mkServer (services rs) (count rs + 1),
        (<[id := rf']> objs, mkReply true (gob_encode [v]), (a, v))).
Proof.
  intros Hq Hs Hm Ha Hans.
  destruct g as [| |i eid id' arg []| |i id' arg []]; try discriminate Hq;
    injection Hq as <- <- <- <-; unfold Server_dispatch; rewrite Hm, Hs;
    cbn [answer] in Hans;
    [destruct (RequestVote arg (objs id')) as [[rf1 r]|] eqn:Hv
    |destruct (AppendEntries arg (objs id')) as [[rf1 r]|] eqn:Hv];
    try discriminate Hans; injection Hans as <- <-.
  - change (str_to _ _) with (Some "Raft").
    change (str_from _ _) with (Some "RequestVote"). cbn [oget rbind].
    change (services (raft_server id') !! _) with (Some (raft_service (Cmd:=Cmd) id')).
    cbn [rbind]. unfold Service_dispatch.
    change (svc_methods (raft_service id') !! _) with
      (Some (mkMethod "RequestVote" "" 3 true 0 (WVoteReply (mkRVReply 0 false))
        (call_RequestVote (Cmd:=Cmd)))).
    change (svc_rcvr (raft_service id')) with id'. rewrite Ha, gob_decode_encode.
    cbn [m_Func m_replyType lookup list_lookup default].
    unfold id, call_RequestVote. by rewrite Hv.
  - change (str_to _ _) with (Some "Raft").
    change (str_from _ _) with (Some "AppendEntries"). cbn [oget rbind].
    change (services (raft_server id') !! _) with (Some (raft_service (Cmd:=Cmd) id')).
    cbn [rbind]. unfold Service_dispatch.
    change (svc_methods (raft_service id') !! _) with
      (Some (mkMethod "AppendEntries" "" 3 true 0 (WAppendReply (mkAEReply 0 false))
        (call_AppendEntries (Cmd:=Cmd)))).
    change (svc_rcvr (raft_service id')) with id'. rewrite Ha, gob_decode_encode.
    cbn [m_Func m_replyType lookup list_lookup default].
    unfold id, call_AppendEntries. by rewrite Hv.
Qed.

(** In a reachable abstract world the handler returns. *)
Lemma abstract_answer aw k g e meth a id rf :
  RaftSystem.reachable n aw → RaftSystem.pool aw !! k = Some g →
  request_of g = Some (e, meth, a, id) → RaftSystem.nodes aw !! id = Some rf →
  ∃ rf' v, answer g rf = Some (rf', v) ∧
    RaftSystem.act aw (ARun k) = Next (RaftSystem.mkWorld
      (<[id := rf']> (RaftSystem.nodes aw)) (RaftSystem.pcs aw)
      (<[k := with_reply g v]> (RaftSystem.pool aw)) (RaftSystem.counts aw)).
Proof.
  intros Hr Hk Hq Hid. pose proof (run_goroutine_panic laws n aw k g Hr Hk) as Hnp.
  simpl. rewrite Hk.
  destruct g as [| |i eid id' arg []| |i id' arg []]; simplify_eq/=;
    rewrite Hid in Hnp |- *; simpl in *;
    [destruct (RequestVote arg rf) as [[rf1 r]|]
    |destruct (AppendEntries arg rf) as [[rf1 r]|]]; simpl in *;
    try (by destruct (Hnp eq_refl)); by do 2 eexists.
Qed.

(** A waiting call whose handler has not run stands for its goroutine. *)
Lemma live_waiting s c g b cl :
  LabRpcSafety.inv (lab s) → n_calls s !! c = Some (g, b) →
  LabRpc.calls (lab s) !! c = Some cl → runs c (LabRpc.history (lab s)) = [] →
  live s c = Some g.
Proof.
  intros Hi Hg Hcl Hr. unfold live. rewrite Hg. simpl. rewrite Hcl. simpl.
  destruct b; [|by rewrite Hr]. destruct (c_res cl) as [[v|]|] eqn:Hres; simpl;
    [|by rewrite Hr..].
  destruct (inv_calls _ Hi _ _ Hcl) as [_ _ _ Hv]. destruct (Hv v Hres). congruence.
Qed.

(** The world after server [p] has run the handler of call [c] at peer [id]. *)
Definition dispatched (c p id : nat) (cl : lcall) (rf' : Raft Cmd) (a v : wire Cmd) lw
    : lworld :=
  LabRpc.mkWorld (LabRpc.net lw)
    (<[p := mkServer (services (LabRpc.heap lw p)) (count (LabRpc.heap lw p) + 1)]>
       (LabRpc.heap lw))
    (<[id := rf']> (LabRpc.objs lw))
    (<[c := set_h (HSend (mkReply true (gob_encode [v]))) cl]> (LabRpc.calls lw))
    (LabRpc.history lw ++ [(c, p, a, v)]).

Section dispatched.
Context (s : nworld) (c p id : nat) (cl : lcall) (rf' : Raft Cmd) (a v : wire Cmd).
Context (Hcl : LabRpc.calls (lab s) !! c = Some cl).
Notation lw' := (dispatched c p id cl rf' a v (lab s)).

Lemma dispatched_services q :
  services (LabRpc.heap lw' q) = services (LabRpc.heap (lab s) q).
Proof.
  simpl. destruct (decide (p = q)) as [->|Hne];
    [by rewrite fn_lookup_insert|by rewrite fn_lookup_insert_ne].
Qed.

Lemma dispatched_calls_ok c' g' b' cl' :
  (∀ c g b cl, n_calls s !! c = Some (g, b) →
     LabRpc.calls (lab s) !! c = Some cl → call_ok (lab s) g b cl) →
  n_calls s !! c' = Some (g', b') → LabRpc.calls lw' !! c' = Some cl' →
  call_ok lw' g' b' cl'.
Proof using Hcl.
  intros Hc Hg' Hcl'. simpl in Hcl'.
  apply list_lookup_insert_Some in Hcl' as [(<- & <- & _)|[_ Hcl']].
  - destruct (Hc c g' b' cl Hg' Hcl) as [(id' & Hq & _) Hret Hdone].
    split; [|exact Hret|exact Hdone]. by exists id'.
  - destruct (Hc c' g' b' cl' Hg' Hcl') as [(id' & Hq & Hrun) Hret Hdone].
    split; [|done..]. exists id'. split; [done|]. intros q Hq0.
    rewrite dispatched_services. by apply Hrun.
Qed.

Lemma dispatched_routed : routed (lab s) → routed lw'.
Proof.
  intros [R1 R2 R3]. split; [done..|]. intros j q Hq.
  rewrite dispatched_services. by apply R3.
Qed.

(** The goroutine of the call has its reply, the others are as they were. *)
Lemma dispatched_inflight g b rest :
  n_calls s !! c = Some (g, b) → runs c (LabRpc.history (lab s)) = [] →
  (∀ u, c_res cl ≠ Some (Some u)) →
  (∀ f', (∀ j, j ≠ c → f' j = live s j) →
     omap f' (seq 0 (length (n_calls s))) ≡ₚ option_list (f' c) ++ rest) →
  inflight (set_lab lw' s) ≡ₚ with_reply g v :: rest.
Proof using Hcl.
  intros Hg Hruns Hres Hrest. unfold inflight. simpl. rewrite Hrest; last first.
  { intros j Hne. unfold live. simpl. rewrite runs_app_ne by done.
    by rewrite list_lookup_insert_ne by done. }
  unfold live. simpl. rewrite Hg. simpl.
  rewrite list_lookup_insert_eq by (by eapply lookup_lt_Some). simpl.
  rewrite runs_app_eq, Hruns. simpl.
  destruct b; [destruct (c_res cl) as [[u|]|] eqn:Hu|]; simpl; [by destruct (Hres u)|done..].
Qed.
End dispatched.

Lemma sim_dispatch s aw c lw' :
  sim s aw → LabRpc.act (ADispatch c) (lab s) = Ok lw' →
  ∃ aw', follows (net_timely s (NNet (ADispatch c))) aw aw' ∧ sim (set_lab lw' s) aw'.
Proof.
  intros [Hr He Hi Hl Hc Hro] Ha. pose proof (act_inv wlaws _ _ _ Hi Ha) as Hi'.
  simpl in Ha. run_result. rename x into cl.
  match goal with H : _ !! c = Some cl |- _ => rename H into Hcl end.
  destruct (c_h cl) as [|p| |] eqn:Hh; try done.
  destruct (lookup_lt_is_Some_2 (n_calls s) c) as [[g b] Hg].
  { rewrite Hl. by eapply lookup_lt_Some. }
  destruct (Hc c g b cl Hg Hcl) as [(id & Hq & Hrun) Hret Hdone].
  destruct (Hrun p Hh) as [Hsvc Hid].
  pose proof (inv_calls _ Hi _ _ Hcl) as [Hargs Hruns _ Hres]. rewrite Hh in Hruns.
  assert (c < length (n_calls s)) as Hlt by (by eapply lookup_lt_Some).
  destruct (omap_seq_one (live s) _ c Hlt) as [rest Hrest].
  destruct He as [He1 He2 He3 He4].
  assert (RaftSystem.pool aw ≡ₚ [g] ++ (n_pool s ++ rest)) as Hpool.
  { rewrite He4. simpl. unfold inflight. rewrite (Hrest (live s)) by done.
    rewrite (live_waiting s c g b cl) by done. simpl.
    by rewrite <-Permutation_middle. }
  destruct (pool_position _ _ _ 0 g Hpool eq_refl) as (k & Hk & _ & Hins).
  assert (RaftSystem.nodes aw !! id = Some (LabRpc.objs (lab s) id)) as Hnode.
  { rewrite He1. by apply nodes_of_lookup. }
  destruct (abstract_answer aw k g _ _ _ _ _ Hr Hk Hq Hnode)
    as (rf' & v & Hans & Hact).
  unfold run_dispatch in Ha.
  rewrite (dispatch_answer _ _ _ _ _ _ _ _ _ _ Hq Hsvc eq_refl Hargs Hans) in Ha.
  cbn [rbind] in Ha. injection Ha as <-.
  eexists. split.
  { eapply follows_one; [exact Hact|]. cbn [net_timely]. rewrite Hg. by apply prompt_timely. }
  split; [by eapply reach_act| |exact Hi'| | |by apply dispatched_routed].
  - split; simpl; [|done..|].
    + rewrite He1. symmetry. by apply (nodes_of_insert (lab s)).
    + rewrite (Hins (with_reply g v)). etrans; last first.
      { apply Permutation_app_head. symmetry.
        apply (dispatched_inflight s c p id cl rf' _ v Hcl g b rest Hg Hruns); [|exact Hrest].
        intros u Hu. destruct (Hres u Hu). congruence. }
      simpl. by rewrite Permutation_middle.
  - simpl. by rewrite length_insert.
  - intros c' g' b' cl' Hg' Hcl'. by eapply dispatched_calls_ok.
Qed.

(** ** Returning from a call *)

(** The caller of call [c] is told that it has returned. *)
Definition mark_returned (c : nat) (g : goroutine Cmd) s : nworld :=
  mkNet (lab s) (n_pcs s) (n_pool s) (n_counts s) (<[c := (g, true)]> (n_calls s)).

Lemma marked_calls_ok s aw c g cl res :
  sim s aw → n_calls s !! c = Some (g, false) →
  LabRpc.calls (lab s) !! c = Some cl → c_res cl = Some res →
  ∀ c' g' b' cl', n_calls (mark_returned c g s) !! c' = Some (g', b') →
    LabRpc.calls (lab s) !! c' = Some cl' → call_ok (lab s) g' b' cl'.
Proof.
  intros Hs Hg Hcl Hres c' g' b' cl' Hg' Hcl'.
  apply list_lookup_insert_Some in Hg' as [(<- & [= <- <-] & _)|[_ Hg']];
    [|by eapply (sm_calls _ _ Hs)].
  destruct (sm_calls _ _ Hs _ _ _ _ Hg Hcl) as [Hq _ Hdone]. simplify_eq.
  split; [done|by rewrite Hres|done].
Qed.

Lemma live_marked s c g j :
  j ≠ c → live (mark_returned c g s) j = live s j.
Proof. intros Hne. unfold live. simpl. by rewrite list_lookup_insert_ne. Qed.

Lemma sim_return_false s aw c g cl :
  sim s aw → n_calls s !! c = Some (g, false) →
  LabRpc.calls (lab s) !! c = Some cl → c_res cl = Some None →
  sim (mark_returned c g s) aw.
Proof.
  intros Hs Hg Hcl Hres.
  assert (inflight (mark_returned c g s) = inflight s) as Hinf.
  { unfold inflight. simpl. rewrite length_insert.
    apply list_omap_ext, Forall_Forall2_diag, list.Forall_forall. intros j _.
    destruct (decide (j = c)) as [->|Hne]; [|by apply live_marked].
    unfold live. simpl. rewrite list_lookup_insert_eq by (by eapply lookup_lt_Some).
    rewrite Hg. simpl. rewrite Hcl. simpl. by rewrite Hres. }
  pose proof (marked_calls_ok s aw c g cl None Hs Hg Hcl Hres) as Hok.
  destruct Hs as [Hr [He1 He2 He3 He4] Hi Hl Hc Hro].
  split; [done| |done| |exact Hok|done].
  - split; [done..|]. simpl. by rewrite Hinf.
  - simpl. by rewrite length_insert.
Qed.

Lemma sim_return_reply s aw c g cl v w' :
  sim s aw → n_calls s !! c = Some (g, false) →
  LabRpc.calls (lab s) !! c = Some cl → c_res cl = Some (Some v) →
  RaftSystem.run_goroutine (local_view n [with_reply g v] (mark_returned c g s)) 0
    (with_reply g v) = Next w' →
  ∃ aw', follows (prompt (lab s) (with_reply g v)) aw aw' ∧
    sim (put_view w' (n_pool s) (mark_returned c g s)) aw'.
Proof.
  intros Hs Hg Hcl Hres Hrun.
  pose proof (marked_calls_ok s aw c g cl (Some v) Hs Hg Hcl Hres) as Hok.
  destruct Hs as [Hr [He1 He2 He3 He4] Hi Hl Hc Hro].
  assert (c < length (n_calls s)) as Hlt by (by eapply lookup_lt_Some).
  destruct (omap_seq_one (live s) _ c Hlt) as [rest Hrest].
  assert (live s c = Some (with_reply g v)) as Hlive.
  { unfold live. rewrite Hg. simpl. rewrite Hcl. simpl.
    destruct (inv_calls _ Hi _ _ Hcl) as [_ _ _ Hv].
    destruct (Hv v Hres) as [p Hp]. by rewrite Hp. }
  assert (inflight (mark_returned c g s) ≡ₚ rest) as Hinf.
  { unfold inflight. simpl. rewrite length_insert, Hrest by (by intros; apply live_marked).
    unfold live. simpl. rewrite list_lookup_insert_eq by done. simpl.
    rewrite Hcl. simpl. by rewrite Hres. }
  assert (extends (n_pool s ++ rest)
    (local_view n [with_reply g v] (mark_returned c g s)) aw) as He.
  { split; [done..|]. rewrite He4. simpl. unfold inflight.
    rewrite (Hrest (live s)), Hlive by done. simpl. by rewrite <-Permutation_middle. }
  destruct (run_goroutine_frame _ w' _ _ 0 _ He eq_refl Hrun) as (k & aw' & Hk & Ha & He').
  exists aw'. split; [eapply follows_one; [done|by apply prompt_timely]|].
  apply (sim_put (mark_returned c g s) aw' _ w' (n_pool s));
    [by eapply reach_act| |done| |exact Hok|done|done].
  - destruct He' as [E1 E2 E3 E4]. split; [done..|]. by rewrite Hinf.
  - simpl. by rewrite length_insert.
Qed.

Lemma sim_return s aw c s' :
  sim s aw → RaftNet.act n en (NReturn c) s = Ok s' →
  ∃ aw', follows (net_timely s (NReturn c)) aw aw' ∧ sim s' aw'.
Proof.
  intros Hs Ha. simpl in Ha. run_result. destruct x as [g [|]]; run_result.
  destruct (c_res x) as [res|] eqn:Hres; [|done]. unfold return_rpc in Ha.
  cbn [net_timely].
  repeat match goal with H : _ = Some _ |- _ => rewrite H end. cbn [mbind option_bind].
  rewrite Hres.
  destruct res as [v|].
  - destruct (RaftSystem.run_goroutine _ _ _) as [w'| |] eqn:Hrun; simpl in Ha;
      try done. injection Ha as <-. by eapply sim_return_reply.
  - injection Ha as <-. exists aw. split; [apply follows_refl|]. by eapply sim_return_false.
Qed.

(** ** The refinement *)

Lemma sim_act s aw a s' :
  sim s aw → RaftNet.act n en a s = Ok s' →
  ∃ aw', follows (net_timely s a) aw aw' ∧ sim s' aw'.
Proof.
  intros Hs Ha. destruct a as [a|k|a|c].
  - by eapply sim_local.
  - exists aw. split; [apply follows_refl|]. by eapply sim_call.
  - simpl in Ha. destruct (is_network a) eqn:Hnet; [|done]. run_result. subst s'.
    destruct a; try (exists aw; split; [apply follows_refl|]; by eapply sim_net).
    by eapply sim_dispatch.
  - by eapply sim_return.
Qed.

(** The worlds of a run, with the check of every action. *)
Fixpoint net_timely_run (acts : list (@RaftNet.action Name Cmd)) s : bool :=
  match acts with
  | [] => true
  | a :: acts =>
      net_timely s a &&
      match RaftNet.act n en a s with Ok s' => net_timely_run acts s' | _ => true end
  end.

Lemma sim_exec s aw acts s' :
  sim s aw → RaftNet.exec n en acts s = Ok s' →
  ∃ aw', follows (net_timely_run acts s) aw aw' ∧ sim s' aw'.
Proof.
  revert s aw. induction acts as [|a acts IH]; intros s aw Hs He; cbn [RaftNet.exec] in He.
  { run_result. subst. exists aw. split; [apply follows_refl|done]. }
  run_result. rename x into s1.
  match goal with H : RaftNet.act _ _ a s = Ok _ |- _ => rename H into Ha end.
  destruct (sim_act s aw a s1 Hs Ha) as (aw1 & H1 & Hs1).
  destruct (IH _ _ Hs1 He) as (aw2 & H2 & Hs2).
  exists aw2. split; [|done]. cbn [net_timely_run]. rewrite Ha. by eapply follows_trans.
Qed.

Lemma sim_start w : set_up n en sn w → sim (start n w) (RaftSystem.init n).
Proof using en_inj sn_inj.
  intros [R1 R2 R3 R4 R5]%set_up_ready. split; [constructor| | | | |done].
  - split; simpl; [|done..]. unfold nodes_of. by rewrite R1.
  - split; simpl; rewrite ?R2, ?R3; [done|]. intros i _. done.
  - simpl. by rewrite R2.
  - done.
Qed.

Lemma net_exec_reachable s acts s' :
  RaftNet.reachable n en sn s → RaftNet.exec n en acts s = Ok s' →
  RaftNet.reachable n en sn s'.
Proof.
  revert s. induction acts as [|a acts IH]; intros s Hr He; cbn [RaftNet.exec] in He.
  - run_result. by subst.
  - run_result. eapply IH; [|done]. by eapply nr_act.
Qed.

Lemma reachable_sim s :
  RaftNet.reachable n en sn s → ∃ aw, sim s aw.
Proof using en_inj sn_inj laws wlaws.
  induction 1 as [w Hw|s a s' _ [aw IH] Ha].
  - exists (RaftSystem.init n). by apply sim_start.
  - destruct (sim_act _ _ _ _ IH Ha) as (aw' & _ & ?). by exists aw'.
Qed.

(** C5. The cluster over labrpc refines the abstract cluster: every run of Raft
    peers over the simulated network, with its losses, its modes, end-points
    that are cut and servers that are deleted at any time, is a run of the
    abstract system with the same peer states at its beginning and its end. *)
Theorem raft_over_labrpc_refines s acts s' :
  RaftNet.reachable n en sn s → RaftNet.exec n en acts s = Ok s' →
  ∃ aw aacts aw', RaftSystem.reachable n aw ∧
    RaftSystem.exec aw aacts = Next aw' ∧
    RaftSystem.nodes aw = nodes_of n (lab s) ∧
    RaftSystem.nodes aw' = nodes_of n (lab s').
Proof using en_inj sn_inj laws wlaws.
  intros [aw Hs]%reachable_sim He.
  destruct (sim_exec _ _ _ _ Hs He) as (aw' & (aacts & Hex & _) & Hs').
  exists aw, aacts, aw'. split; [apply Hs|]. split; [done|].
  by destruct (sm_ext _ _ Hs), (sm_ext _ _ Hs').
Qed.

Lemma sim_node s aw i :
  sim s aw → i < n → RaftSystem.nodes aw !! i = Some (LabRpc.objs (lab s) i).
Proof.
  intros [_ [He _ _ _] _ _ _ _] Hi. rewrite He. by apply nodes_of_lookup.
Qed.

(** C6. Raft is safe over labrpc: whatever the network does, two leaders of one
    term, at the same or at different times, are the same peer, and logs that
    hold an entry of the same term at an index agree up to that index. *)
Theorem raft_over_labrpc_safe s acts s' (i j : nat) :
  RaftNet.reachable n en sn s → RaftNet.exec n en acts s = Ok s' → i < n → j < n →
  let rfi := LabRpc.objs (lab s) i in
  let rfj := LabRpc.objs (lab s') j in
  (State rfi = Leader → State rfj = Leader →
   CurrentTerm rfi = CurrentTerm rfj → i = j) ∧
  (∀ k ei ek, Log (LabRpc.objs (lab s') i) !! k = Some ei → Log rfj !! k = Some ek →
     Log_Term ei = Log_Term ek →
     take (S k) (Log (LabRpc.objs (lab s') i)) = take (S k) (Log rfj)).
Proof using en_inj sn_inj laws wlaws.
  intros [aw Hs]%reachable_sim He Hi Hj rfi rfj.
  destruct (sim_exec _ _ _ _ Hs He) as (aw' & (aacts & Hex & _) & Hs').
  pose proof (sim_node _ _ i Hs Hi) as Hni. pose proof (sim_node _ _ j Hs' Hj) as Hnj.
  split.
  - intros Hli Hlj Ht. exact (leader_unique laws n aw aw' aacts i j _ _ (sm_reach _ _ Hs) Hex
      Hni Hnj Hli Hlj Ht).
  - intros k ei ek Hei Hek Ht.
    destruct (reachable_logs n laws aw' (sm_reach _ _ Hs')) as (V & E & L & _ & HI).
    pose proof (sim_node _ _ i Hs' Hi) as Hni'.
    eapply (coherent_match L); eauto; by eapply HI.
Qed.
End simulation.
