(* ===== verification/RaftNetDemo.v ===== *)
(** * Two peers over labrpc

    A codec for the RPC messages, the set-up of a network of two peers, and a
    run in which peer 0 is elected with the vote of peer 1, every step of it
    through labrpc. *)

From S2P Require Import Prelude GoBase Persister Raft RaftSystem RaftDemo LabRpc LabRpcSafety RaftNet RaftNetRefines.

(** ** A codec *)

#[export] Instance byte_eq_dec : EqDecision byte := Byte.byte_eq_dec.

#[export] Instance byte_countable : Countable byte.
Proof.
  refine (inj_countable Byte.to_nat Byte.of_nat _). apply Byte.of_to_nat.
Defined.

#[export] Instance RequestVoteArgs_eq_dec : EqDecision RequestVoteArgs.
Proof. solve_decision. Defined.
#[export] Instance RequestVoteReply_eq_dec : EqDecision RequestVoteReply.
Proof. solve_decision. Defined.
#[export] Instance AppendEntriesArgs_eq_dec : EqDecision (AppendEntriesArgs nat).
Proof. solve_decision. Defined.
#[export] Instance AppendEntriesReply_eq_dec : EqDecision AppendEntriesReply.
Proof. solve_decision. Defined.
#[export] Instance InstallSnapshotArgs_eq_dec : EqDecision InstallSnapshotArgs.
Proof. solve_decision. Defined.
#[export] Instance InstallSnapshotReply_eq_dec : EqDecision InstallSnapshotReply.
Proof. solve_decision. Defined.
#[export] Instance wire_eq_dec : EqDecision (wire nat).
Proof. solve_decision. Defined.

Definition tuple_of (m : wire nat) :=
  match m with
  | WVoteArgs a => inl (inl (RV_Term a, RV_CandidateId a, RV_LastLogIndex a, RV_LastLogTerm a))
  | WVoteReply r => inl (inr (inl (RVR_Term r, RVR_VoteGranted r)))
  | WAppendReply r => inl (inr (inr (AER_Term r, AER_Success r)))
  | WAppendArgs a =>
      inr (inl (AE_Term a, AE_LeaderId a, AE_PrevLogIndex a, AE_PrevLogTerm a,
                AE_Entries a, AE_LeaderCommit a))
  | WSnapArgs t i li lt o d => inr (inr (inl (t, i, li, lt, o, d)))
  | WSnapReply r => inr (inr (inr (ISR_Term r)))
  end.

#[export] Instance wire_countable : Countable (wire nat).
Proof.
  refine (inj_countable' tuple_of (λ t,
    match t with
    | inl (inl (t, c, i, l)) => WVoteArgs (mkRVArgs t c i l)
    | inl (inr (inl (t, g))) => WVoteReply (mkRVReply t g)
    | inl (inr (inr (t, b))) => WAppendReply (mkAEReply t b)
    | inr (inl (t, i, p, q, e, c)) => WAppendArgs (mkAEArgs t i p q e c)
    | inr (inr (inl (t, i, li, lt, o, d))) => WSnapArgs t i li lt o d
    | inr (inr (inr t)) => WSnapReply (mkISReply t)
    end) _); by intros [[]|[]|[]|[]|[]|[]].
Defined.

#[export] Instance wire_gob : Gob (wire nat) := bits_gob (wire nat).
#[export] Instance wire_gob_laws : GobLaws (wire nat) := bits_gob_laws _.

(** ** Set-up and run *)

(** End-points are named by their two peers, servers by their number. *)
Definition end_name (i j : nat) : nat * nat + nat := inl (i, j).
Definition server_name (j : nat) : nat * nat + nat := inr j.

Lemma end_name_inj i j i' j' : end_name i j = end_name i' j' → i = i' ∧ j = j'.
Proof. by intros [= -> ->]. Qed.

Lemma server_name_inj j j' : server_name j = server_name j' → j = j'.
Proof. by intros [= ->]. Qed.

Notation demo_action := (@LabRpc.action (nat * nat + nat) (wire nat) (Raft nat)).

Definition set_up_actions : list demo_action :=
  [AAddService 0 (raft_service 0); AAddService 1 (raft_service 1);
   AAddServer (server_name 0) 0; AAddServer (server_name 1) 1;
   AMakeEnd (end_name 0 1); AConnect (end_name 0 1) (server_name 1);
   AMakeEnd (end_name 1 0); AConnect (end_name 1 0) (server_name 0);
   AEnable (end_name 0 1) true; AEnable (end_name 1 0) true].

Definition elect_over_net : list (@RaftNet.action (nat * nat + nat) nat) :=
  [NLocal (ATop 0); NLocal (RaftSystem.ATimeout 0); NLocal (AElection 0);
   NLocal (ARun 0); NLocal (ARun 0); NCall 0;
   NNet (AProcess 0 5); NNet (ADispatch 0); NNet (ARecv 0); NNet (AFinish 0 7 9);
   NNet (AReturn 0); NReturn 0].

Notation demo_lab := (@LabRpc.world (nat * nat + nat) (wire nat) (Raft nat) _ _).

Definition fresh_lab : demo_lab := LabRpc.init (λ i, Make 2 i MakePersister).

Lemma set_up_exec (acts : list demo_action) (w w' : demo_lab) :
  set_up 2 end_name server_name w →
  (∀ k a wk, acts !! k = Some a → LabRpc.exec (take k acts) w = Ok wk →
     sets_up 2 end_name server_name wk a) →
  LabRpc.exec acts w = Ok w' → set_up 2 end_name server_name w'.
Proof.
  revert w. induction acts as [|a acts IH]; intros w Hw Hall He;
    cbn [LabRpc.exec] in He; run_result; [by subst|].
  apply (IH x); [|intros k b wk Hk Hx|done].
  - eapply su_act; [done|by apply (Hall 0 a w)|done].
  - apply (Hall (S k) b wk Hk). cbn [take LabRpc.exec].
    match goal with H : LabRpc.act a w = Ok x |- _ => by rewrite H end.
Qed.

Lemma set_up_actions_ok (w : demo_lab) :
  LabRpc.exec set_up_actions fresh_lab = Ok w → set_up 2 end_name server_name w.
Proof.
  apply set_up_exec; [apply su_init|]. intros k a wk Hk Hx.
  destruct k as [|[|[|[|[|[|[|[|[|[|k]]]]]]]]]]; try discriminate Hk;
    injection Hk as <-; try exact I; try reflexivity.
  - cbn in Hx. injection Hx as <-. by split.
  - cbn in Hx. injection Hx as <-. by split.
  - by exists 0, 1; auto with lia.
  - by exists 1, 0; auto with lia.
Qed.

Definition elected_run : result (@RaftNet.world (nat * nat + nat) nat _ _) :=
  rbind (LabRpc.exec set_up_actions fresh_lab) (λ w,
  RaftNet.exec 2 end_name elect_over_net (start 2 w)).

(** What is seen of the two peers and of the network. *)
Definition observed (r : result (@RaftNet.world (nat * nat + nat) nat _ _))
    : option (RState * Z * RState * Z * nat) :=
  match r with
  | Ok s =>
      let a := LabRpc.objs (lab s) 0 in
      let b := LabRpc.objs (lab s) 1 in
      Some (State a, CurrentTerm a, State b, VoteFor b, length (LabRpc.history (lab s)))
  | _ => None
  end.

Lemma elected_run_observed :
  observed elected_run = Some (Leader, 2%Z, Follower, 0%Z, 1).
Proof. vm_compute. reflexivity. Qed.

(** The run starts from a reachable state. *)
Lemma elected_run_split s' :
  elected_run = Ok s' →
  ∃ s, RaftNet.reachable 2 end_name server_name s ∧
    RaftNet.exec 2 end_name elect_over_net s = Ok s'.
Proof.
  unfold elected_run. intros (w & Hw & He)%rbind_Ok.
  exists (start 2 w). split; [|done]. by apply nr_start, set_up_actions_ok.
Qed.

Lemma elected_run_Ok : ∃ s', elected_run = Ok s'.
Proof.
  pose proof elected_run_observed as Hobs.
  destruct elected_run as [s'| | |]; [by exists s'|discriminate Hobs..].
Qed.

Lemma raft_over_labrpc_refines_witness :
  ∃ s', elected_run = Ok s' ∧
    ∃ aw, length (RaftSystem.nodes aw) = 2 ∧ RaftSystem.nodes aw = nodes_of 2 (lab s').
Proof.
  destruct elected_run_Ok as [s' Hs']. exists s'. split; [exact Hs'|].
  destruct (elected_run_split s' Hs') as (s & Hr & He).
  destruct (raft_over_labrpc_refines demo_gob_laws wire_gob_laws 2 end_name server_name
    end_name_inj server_name_inj s elect_over_net s' Hr He)
    as (aw & aacts & aw' & _ & _ & _ & Hn).
  exists aw'. split; [|exact Hn]. rewrite Hn. reflexivity.
Defined.

(** Had peer 1 led term 2 as well, it would have been peer 0. *)
Lemma raft_over_labrpc_safe_witness :
  ∃ s', elected_run = Ok s' ∧
    (State (LabRpc.objs (lab s') 1) = Leader →
     CurrentTerm (LabRpc.objs (lab s') 1) = 2%Z → 0 = 1).
Proof.
  destruct elected_run_Ok as [s' Hs']. exists s'. split; [exact Hs'|].
  pose proof elected_run_observed as Hobs. rewrite Hs' in Hobs.
  injection Hobs as Hlead Hterm _ _ _.
  destruct (elected_run_split s' Hs') as (s & Hr & He).
  pose proof (net_exec_reachable 2 end_name server_name s elect_over_net s' Hr He) as Hr'.
  intros H1 Ht.
  destruct (raft_over_labrpc_safe demo_gob_laws wire_gob_laws 2 end_name server_name
    end_name_inj server_name_inj s' [] s' 0 1 Hr' eq_refl) as [Hsafe _]; [lia|lia|].
  apply Hsafe; [exact Hlead|exact H1|]. rewrite Ht. exact Hterm.
Defined.
