(* ===== verification/RaftNetSafety.v ===== *)
(** * State machine safety over labrpc

    The timely runs of RaftStateMachine.v, on the simulated network: whatever
    labrpc loses, delays, reorders or cuts off, as long as no request is
    dispatched so late that it erases entries of its own term and no positive
    reply reaches a leader whose log or term has changed, no two peers deliver
    different commands at an index and every later leader holds what was
    committed. *)

From S2P Require Import Prelude GoBase Persister Raft RaftSystem RaftDemo RaftApply.
From S2P Require Import RaftStateMachine LabRpc LabRpcSafety RaftNet RaftNetRefines RaftNetDemo.

Section safety.
Context {Name Cmd : Type} `{Countable Name} `{!Gob (gval Cmd)} `{!Gob (wire Cmd)}.
Context (laws : GobLaws (gval Cmd)) (wlaws : GobLaws (wire Cmd)).
Context (n : nat) (en : nat → nat → Name) (sn : nat → Name).
Context (en_inj : ∀ i j i' j', en i j = en i' j' → i = i' ∧ j = j').
Context (sn_inj : ∀ j j', sn j = sn j' → j = j').
Implicit Types w : @LabRpc.world Name (wire Cmd) (Raft Cmd) _ _.
Implicit Types s : @RaftNet.world Name Cmd _ _.

(** The peers of a timely network run are those of a safe abstract world. *)
Lemma timely_net_safe w acts s :
  set_up n en sn w → RaftNet.exec n en acts (start n w) = Ok s →
  net_timely_run n en acts (start n w) = true →
  ∃ aw, safe_world n aw ∧
    ∀ i, i < n → RaftSystem.nodes aw !! i = Some (LabRpc.objs (lab s) i).
Proof using en_inj sn_inj laws wlaws.
  intros Hw He Ht.
  pose proof (sim_start n en sn en_inj sn_inj w Hw) as Hs.
  destruct (sim_exec laws wlaws n en sn _ _ _ _ Hs He) as (aw & (aacts & _ & Hex) & Hs').
  exists aw. split.
  - apply (timely_safe n laws). eapply timely_exec_run; [apply timely_init|by apply Hex].
  - intros i Hi. by eapply sim_node.
Qed.

(** C7. State machine safety over labrpc: in every timely run of the peers over
    the simulated network, whatever it loses, delays, reorders or cuts off,
    two messages that peers have delivered for the same index carry the same
    command, and a leader whose term is at least that of some peer holds every
    entry that the peer has committed. *)
Theorem raft_over_labrpc_state_machine_safe w acts s (i j : nat) :
  set_up n en sn w → RaftNet.exec n en acts (start n w) = Ok s →
  net_timely_run n en acts (start n w) = true → i < n → j < n →
  let rfi := LabRpc.objs (lab s) i in
  let rfj := LabRpc.objs (lab s) j in
  (∀ mi mj, mi ∈ applyCh rfi → mj ∈ applyCh rfj → AM_Index mi = AM_Index mj →
     AM_Command mi = AM_Command mj) ∧
  (State rfj = Leader → (CurrentTerm rfi ≤ CurrentTerm rfj)%Z →
   ∀ k x, 1 ≤ k → (Z.of_nat k ≤ CommitIndex rfi)%Z → Log rfi !! k = Some x →
     Log rfj !! k = Some x).
Proof using en_inj sn_inj laws wlaws.
  intros Hw He Ht Hi Hj rfi rfj.
  destruct (timely_net_safe w acts s Hw He Ht) as (aw & Hsafe & Hn).
  split; [intros mi mj|intros Hl Hle k x].
  - by apply (safe_apply_agree n aw i j); auto.
  - by apply (safe_leader_complete n aw i j); auto.
Qed.
End safety.

(** ** A run *)

(** A call over the network, from [Call] to its return. *)
Definition net_call (k c : nat) : list (@RaftNet.action (nat * nat + nat) nat) :=
  [NCall k; NNet (AProcess c 5); NNet (ADispatch c); NNet (ARecv c);
   NNet (AFinish c 7 9); NNet (AReturn c); NReturn c].

(** Peer 0 is elected, appends 7, replicates it and then tells peer 1 that it is
    committed. *)
Definition commit_over_net : list (@RaftNet.action (nat * nat + nat) nat) :=
  elect_over_net ++
  [NLocal (ATop 0); NLocal (AStart 0 (Some 7)); NLocal (AHeartbeat 0); NLocal (ARun 0)] ++
  net_call 0 1 ++
  [NLocal (ATop 0); NLocal (AHeartbeat 0); NLocal (ARun 0)] ++ net_call 0 2.

Definition fresh_net : demo_lab :=
  match LabRpc.exec set_up_actions fresh_lab with Ok w => w | _ => fresh_lab end.

Lemma fresh_net_set_up : set_up 2 end_name server_name fresh_net.
Proof.
  unfold fresh_net. destruct (LabRpc.exec set_up_actions fresh_lab) as [w| | |] eqn:Hw;
    [by apply set_up_actions_ok|apply su_init..].
Qed.

(** What is delivered by the two peers at the end of the run. *)
Definition delivered (r : result (@RaftNet.world (nat * nat + nat) nat _ _))
    : option (list (ApplyMsg nat) * list (ApplyMsg nat)) :=
  match r with
  | Ok s => Some (applyCh (LabRpc.objs (lab s) 0), applyCh (LabRpc.objs (lab s) 1))
  | _ => None
  end.

Definition delivered_7 : ApplyMsg nat := mkApplyMsg 1 (Some 7) false [].

Lemma commit_over_net_delivers :
  delivered (RaftNet.exec 2 end_name commit_over_net (start 2 fresh_net)) =
    Some ([delivered_7], [delivered_7]).
Proof. vm_compute. reflexivity. Qed.

Lemma commit_over_net_timely :
  net_timely_run 2 end_name commit_over_net (start 2 fresh_net) = true.
Proof. vm_compute. reflexivity. Qed.

(** At its end both peers have delivered 7 at index 1, and nothing else can have
    been delivered there. *)
Lemma raft_over_labrpc_state_machine_safe_witness :
  ∃ s, RaftNet.exec 2 end_name commit_over_net (start 2 fresh_net) = Ok s ∧
    delivered_7 ∈ applyCh (LabRpc.objs (lab s) 0) ∧
    ∀ m, m ∈ applyCh (LabRpc.objs (lab s) 1) → AM_Index m = 1%Z → AM_Command m = Some 7.
Proof.
  pose proof commit_over_net_delivers as Hd.
  destruct (RaftNet.exec 2 end_name commit_over_net (start 2 fresh_net)) as [s| | |] eqn:He;
    [|discriminate Hd..].
  injection Hd as H0 H1. exists s. split; [reflexivity|].
  assert (delivered_7 ∈ applyCh (LabRpc.objs (lab s) 0)) as Hm0.
  { rewrite H0. constructor. }
  split; [exact Hm0|]. intros m Hm Hidx. symmetry.
  destruct (raft_over_labrpc_state_machine_safe demo_gob_laws wire_gob_laws 2 end_name
    server_name end_name_inj server_name_inj fresh_net commit_over_net s 0 1
    fresh_net_set_up He commit_over_net_timely) as [Hsafe _]; [lia|lia|].
  apply (Hsafe delivered_7 m Hm0 Hm). rewrite Hidx. reflexivity.
Defined.
