(* ===== verification/Shuffle.v ===== *)
(** * random_handles: kvraft/config.go, shardmaster/config.go, shardkv/config.go

    The harnesses hand a clerk the servers in random order.  For the draws of
    [rand.Intn] as input, [random_handles] is a function; it is shown to be a
    bijection between draws and orders, so that uniform draws give every order
    the same chance. *)

From S2P Require Import Prelude GoBase.

Section shuffle.
Context {A : Type}.
Implicit Types l sa : list A.

(** [sa[i], sa[j] = sa[j], sa[i]]. *)
Definition swap (i j : nat) sa : option (list A) :=
  x ← sa !! i; y ← sa !! j; Some (<[j := x]> (<[i := y]> sa)).

(** The loop from index [i] on; [draws] are the values of [rand.Intn(i + 1)]. *)
Fixpoint shuffle_from (i : nat) (draws : list nat) sa : option (list A) :=
  match draws with
  | [] => Some sa
  | j :: draws => sa ← swap i j sa; shuffle_from (S i) draws sa
  end.

Definition random_handles (draws : list nat) (kvh : list A) : option (list A) :=
  let sa := kvh in shuffle_from 0 draws sa.

(** The copy of shardkv/config.go. *)
Definition shardkv_random_handles : list nat → list A → option (list A) := random_handles.

(** What [rand.Intn] may return: one value per index, below its argument. *)
Definition valid_draws (draws : list nat) : Prop :=
  ∀ i j, draws !! i = Some j → j < i + 1.

(** ** One more element *)

Lemma swap_app i j l t l' :
  swap i j l = Some l' → swap i j (l ++ t) = Some (l' ++ t).
Proof.
  unfold swap. intros (x & Hx & (y & Hy & [= <-])%bind_Some)%bind_Some.
  rewrite (lookup_app_l_Some _ _ _ _ Hx). simpl.
  rewrite (lookup_app_l_Some _ _ _ _ Hy). simpl.
  pose proof (lookup_lt_Some _ _ _ Hx). pose proof (lookup_lt_Some _ _ _ Hy).
  by rewrite !insert_app_l by (rewrite ?length_insert; done).
Qed.

Lemma swap_length i j l l' : swap i j l = Some l' → length l' = length l.
Proof.
  unfold swap. intros (x & Hx & (y & Hy & [= <-])%bind_Some)%bind_Some.
  by rewrite !length_insert.
Qed.

Lemma swap_is_Some i j l : i < length l → j < length l → is_Some (swap i j l).
Proof.
  intros [x Hx]%lookup_lt_is_Some [y Hy]%lookup_lt_is_Some. unfold swap.
  rewrite Hx. simpl. by rewrite Hy.
Qed.

Lemma shuffle_from_app i d1 d2 l :
  shuffle_from i (d1 ++ d2) l = l' ← shuffle_from i d1 l; shuffle_from (i + length d1) d2 l'.
Proof.
  revert i l. induction d1 as [|j d1 IH]; intros i l; simpl.
  { by rewrite Nat.add_0_r. }
  destruct (swap i j l) as [l'|]; [|done]. simpl. rewrite IH.
  destruct (shuffle_from (S i) d1 l'); [|done]. simpl. f_equal. lia.
Qed.

Lemma shuffle_from_frame i draws l t l' :
  shuffle_from i draws l = Some l' → shuffle_from i draws (l ++ t) = Some (l' ++ t).
Proof.
  revert i l. induction draws as [|j draws IH]; intros i l; simpl; [by intros [= ->]|].
  intros (l1 & Hs & Hr)%bind_Some. rewrite (swap_app _ _ _ _ _ Hs). simpl. by apply IH.
Qed.

Lemma shuffle_from_length i draws l l' :
  shuffle_from i draws l = Some l' → length l' = length l.
Proof.
  revert i l. induction draws as [|j draws IH]; intros i l; simpl; [by intros [= ->]|].
  intros (l1 & Hs & Hr)%bind_Some. rewrite (IH _ _ Hr). by eapply swap_length.
Qed.

(** Where the new element [x] goes: to position [j], whose element moves to the
    end. *)
Definition place (j : nat) (x : A) l : list A :=
  match l !! j with Some y => <[j := x]> l ++ [y] | None => l ++ [x] end.

Lemma swap_last j x l : j ≤ length l → swap (length l) j (l ++ [x]) = Some (place j x l).
Proof.
  intros Hj. unfold swap, place. rewrite (list_lookup_middle l [] x (length l)) by done. simpl.
  destruct (l !! j) as [y|] eqn:Hy.
  - rewrite (lookup_app_l_Some _ _ _ _ Hy). simpl.
    rewrite (insert_app_r_alt l) by lia. rewrite Nat.sub_diag. simpl.
    by rewrite insert_app_l by (by eapply lookup_lt_Some).
  - apply lookup_ge_None in Hy. replace j with (length l) by lia.
    rewrite (list_lookup_middle l [] x (length l)) by done. simpl.
    rewrite (insert_app_r_alt l [x]) by lia. rewrite Nat.sub_diag. simpl.
    by rewrite (insert_app_r_alt l [x]), Nat.sub_diag by lia.
Qed.

Lemma random_handles_snoc draws j l x p :
  random_handles draws l = Some p → length draws = length l → j ≤ length l →
  random_handles (draws ++ [j]) (l ++ [x]) = Some (place j x p).
Proof.
  intros Hp Hd Hj. unfold random_handles in *. rewrite shuffle_from_app.
  rewrite (shuffle_from_frame _ _ _ [x] _ Hp). simpl.
  rewrite Hd, <-(shuffle_from_length _ _ _ _ Hp), swap_last; [done|].
  by rewrite (shuffle_from_length _ _ _ _ Hp).
Qed.

Lemma place_perm j x l : place j x l ≡ₚ l ++ [x].
Proof.
  unfold place. destruct (l !! j) as [y|] eqn:Hy; [|done].
  rewrite <-(take_drop_middle _ _ _ Hy) at 2.
  rewrite insert_take_drop by (by eapply lookup_lt_Some).
  rewrite <-!app_assoc. f_equiv. simpl.
  rewrite <-!Permutation_cons_append. apply Permutation_swap.
Qed.

Lemma place_length j x l : length (place j x l) = S (length l).
Proof. rewrite place_perm, length_app. simpl. lia. Qed.

Lemma place_lookup j x l : j ≤ length l → place j x l !! j = Some x.
Proof.
  intros Hj. unfold place. destruct (l !! j) as [y|] eqn:Hy.
  - apply lookup_lt_Some in Hy. rewrite lookup_app_l by (by rewrite length_insert).
    by rewrite list_lookup_insert_eq.
  - apply lookup_ge_None in Hy. replace j with (length l) by lia.
    by rewrite (list_lookup_middle l [] x (length l)).
Qed.

(** Undoing the last step. *)
Lemma place_inj j x l l' :
  j ≤ length l → length l = length l' → place j x l = place j x l' → l = l'.
Proof.
  intros Hj Hl Heq. unfold place in Heq.
  destruct (l !! j) as [y|] eqn:Hy, (l' !! j) as [y'|] eqn:Hy'.
  - apply app_inj_tail in Heq as [Hi ->].
    rewrite <-(list_insert_id l j y') by done.
    rewrite <-(list_insert_id l' j y') by done.
    by rewrite <-(list_insert_insert_eq l j y' x), <-(list_insert_insert_eq l' j y' x), Hi.
  - apply lookup_lt_Some in Hy. apply lookup_ge_None in Hy'. lia.
  - apply lookup_lt_Some in Hy'. apply lookup_ge_None in Hy. lia.
  - by apply app_inj_tail in Heq as [-> _].
Qed.

Lemma place_surj x l' n :
  x ∈ l' → length l' = S n → ∃ j l, j ≤ n ∧ length l = n ∧ l' = place j x l.
Proof.
  intros [j Hj]%list_elem_of_lookup Hl.
  destruct l' as [|z l'] using rev_ind; [done|].
  rewrite length_app in Hl. simpl in Hl. destruct (decide (j < n)) as [Hlt|Hge].
  - rewrite lookup_app_l in Hj by lia. exists j, (<[j := z]> l').
    split; [lia|]. split; [rewrite length_insert; lia|]. unfold place.
    rewrite list_lookup_insert_eq by lia.
    by rewrite list_insert_insert_eq, list_insert_id.
  - assert (j = length l') as ->.
    { apply lookup_lt_Some in Hj. rewrite length_app in Hj. simpl in Hj. lia. }
    rewrite (list_lookup_middle l' [] z (length l')) in Hj by done. injection Hj as ->.
    exists (length l'), l'. split; [lia|]. split; [lia|]. unfold place.
    by rewrite lookup_ge_None_2.
Qed.

Lemma valid_draws_snoc draws j :
  valid_draws (draws ++ [j]) ↔ valid_draws draws ∧ j ≤ length draws.
Proof.
  unfold valid_draws. split.
  - intros Hv. split.
    + intros i k Hi. apply Hv. by apply lookup_app_l_Some.
    + specialize (Hv (length draws) j). rewrite list_lookup_middle in Hv by done.
      specialize (Hv eq_refl). lia.
  - intros [Hv Hj] i k [Hi|[Hi Hk]]%lookup_app_Some; [by apply Hv|].
    apply list_lookup_singleton_Some in Hk as [? <-]. lia.
Qed.

Lemma snoc_inv {B} (d : list B) m : length d = S m → ∃ d' j, d = d' ++ [j] ∧ length d' = m.
Proof.
  destruct d as [|j d _] using rev_ind; [done|]. rewrite length_app. simpl.
  intros. exists d, j. split; [done|lia].
Qed.

(** The loop never indexes out of range, and the result has the same elements. *)
Lemma random_handles_total draws l :
  valid_draws draws → length draws = length l →
  ∃ l', random_handles draws l = Some l' ∧ l' ≡ₚ l.
Proof.
  revert draws. induction l as [|x l IH] using rev_ind; intros draws Hv Hd.
  { destruct draws; [|done]. by exists []. }
  rewrite length_app, Nat.add_1_r in Hd.
  destruct (snoc_inv _ _ Hd) as (d & j & -> & Hd'). apply valid_draws_snoc in Hv as [Hv Hj].
  destruct (IH d Hv Hd') as (p & Hp & Hperm).
  exists (place j x p). split; [apply random_handles_snoc; [done|done|lia]|].
  by rewrite place_perm, Hperm.
Qed.

Lemma random_handles_reach l l' :
  l' ≡ₚ l → ∃ draws, length draws = length l ∧ valid_draws draws ∧
    random_handles draws l = Some l'.
Proof.
  revert l'. induction l as [|x l IH] using rev_ind; intros l' Hp.
  { apply Permutation_nil_r in Hp as ->. exists []. by split_and!. }
  destruct (place_surj x l' (length l)) as (j & p & Hj & Hlen & ->).
  { rewrite Hp. apply elem_of_app. right. by apply list_elem_of_singleton. }
  { rewrite Hp, length_app. simpl. lia. }
  rewrite place_perm in Hp. apply Permutation_app_inv_r in Hp.
  destruct (IH p Hp) as (d & Hd & Hv & Hr). exists (d ++ [j]). split_and!.
  - rewrite !length_app, Hd. done.
  - apply valid_draws_snoc. split; [done|lia].
  - apply random_handles_snoc; [done|done|lia].
Qed.

Lemma random_handles_unique l l' d1 d2 :
  NoDup l → length d1 = length l → length d2 = length l →
  valid_draws d1 → valid_draws d2 →
  random_handles d1 l = Some l' → random_handles d2 l = Some l' → d1 = d2.
Proof.
  revert l' d1 d2. induction l as [|x l IH] using rev_ind;
    intros l' d1 d2 Hnd H1 H2 Hv1 Hv2 Hr1 Hr2.
  { by destruct d1, d2. }
  rewrite length_app, Nat.add_1_r in H1, H2.
  destruct (snoc_inv _ _ H1) as (e1 & j1 & -> & He1), (snoc_inv _ _ H2) as (e2 & j2 & -> & He2).
  apply valid_draws_snoc in Hv1 as [Hv1 Hj1], Hv2 as [Hv2 Hj2].
  destruct (random_handles_total e1 l Hv1 He1) as (p1 & Hp1 & Hq1).
  destruct (random_handles_total e2 l Hv2 He2) as (p2 & Hp2 & Hq2).
  rewrite (random_handles_snoc _ _ _ _ _ Hp1 He1) in Hr1 by lia.
  rewrite (random_handles_snoc _ _ _ _ _ Hp2 He2) in Hr2 by lia.
  injection Hr1 as <-. injection Hr2 as Heq.
  assert (length p1 = length l) as Hl1 by (by rewrite Hq1).
  assert (length p2 = length l) as Hl2 by (by rewrite Hq2).
  assert (j1 = j2) as ->.
  { apply (NoDup_lookup (place j1 x p1) _ _ x).
    - by rewrite place_perm, Hq1.
    - apply place_lookup. lia.
    - rewrite <-Heq. apply place_lookup. lia. }
  apply place_inj in Heq as ->; [|lia..].
  apply NoDup_app in Hnd as (Hnd & _ & _).
  f_equal. by apply (IH p1 e1 e2).
Qed.

(** The shuffle is fair: for pairwise different servers, every order of
    them is the result of exactly one sequence of draws that [rand.Intn] can
    make, and every such sequence gives an order of the servers; so with
    uniform draws all orders are equally likely. *)
Theorem random_handles_bijective l :
  NoDup l →
  (∀ l', l' ≡ₚ l → exists! draws, (length draws = length l ∧ valid_draws draws) ∧
     random_handles draws l = Some l') ∧
  (∀ draws, length draws = length l → valid_draws draws →
     ∃ l', random_handles draws l = Some l' ∧ l' ≡ₚ l).
Proof.
  intros Hnd. split; [|intros; by apply random_handles_total].
  intros l' Hp. destruct (random_handles_reach l l' Hp) as (d & Hd & Hv & Hr).
  exists d. split; [done|]. intros d' [[Hd' Hv'] Hr'].
  by eapply (random_handles_unique l l').
Qed.
End shuffle.

Lemma three_handles_NoDup : NoDup ["a"; "b"; "c"].
Proof. repeat constructor; set_solver. Qed.

Lemma three_handles_perm : ["c"; "a"; "b"] ≡ₚ ["a"; "b"; "c"].
Proof. apply (Permutation_cons_append ["a"; "b"] "c"). Qed.

Lemma random_handles_bijective_witness :
  exists! draws, (length draws = 3 ∧ valid_draws draws) ∧
    random_handles draws ["a"; "b"; "c"] = Some ["c"; "a"; "b"].
Proof.
  apply (random_handles_bijective ["a"; "b"; "c"]).
  - exact three_handles_NoDup.
  - exact three_handles_perm.
Defined.
