(* ===== verification/MapReduce.v ===== *)
(** * MapReduce tasks: mapreduce/common.go, common_map.go, common_reduce.go,
    master_splitmerge.go, master.go (Sequential, run)

    The shared file system is a map from names to contents.  Reading a file
    that is not there fails; creating one fails when [can_create] says so
    (permissions, a full disk).  [log.Fatal] is [Fatal].  The order in which
    Go iterates over a map does not matter here, since the keys are sorted
    before they are used.  [doMap] writes through open files; each of its
    files has its own name, so a write appends to the file of that name. *)

From S2P Require Import Prelude GoBase GoStrings.

(** ** common.go *)

Inductive jobPhase := mapPhase | reducePhase.

Record KeyValue := mkKV { Key : string; Value : string }.

Definition reduceName (jobName : string) (mapTask reduceTask : Z) : string :=
  "mrtmp." +:+ jobName +:+ "-" +:+ Itoa mapTask +:+ "-" +:+ Itoa reduceTask.

Definition mergeName (jobName : string) (reduceTask : Z) : string :=
  "mrtmp." +:+ jobName +:+ "-res-" +:+ Itoa reduceTask.

(** ** encoding/json

    An [Encoder] writes one JSON value per [Encode] call, a [Decoder] reads
    one value per [Decode] call and leaves the rest of the stream.  The codec
    is a parameter; what the code relies on is that a [KeyValue] whose
    strings are valid UTF-8 is read back, whatever follows, and that an empty
    stream is an error (io.EOF). *)
Class Json := {
  json_encode : KeyValue → string;
  json_decode : string → option (KeyValue * string);
  utf8_ValidString : string → bool;
}.

Definition kv_valid `{Json} (kv : KeyValue) : Prop :=
  utf8_ValidString (Key kv) = true ∧ utf8_ValidString (Value kv) = true.

Class JsonLaws `{Json} : Prop := {
  json_decode_encode kv rest :
    kv_valid kv → json_decode (json_encode kv +:+ rest) = Some (kv, rest);
  json_decode_eof : json_decode "" = None;
}.

(** ** ihash: 32-bit FNV-1a *)

Definition fnv_step (h : Z) (b : ascii) : Z :=
  (Z.lxor h (Z.of_nat (nat_of_ascii b)) * 16777619) mod 2 ^ 32.

Fixpoint fnv_write (h : Z) (s : string) : Z :=
  match s with
  | EmptyString => h
  | String b s' => fnv_write (fnv_step h b) s'
  end.

Definition ihash (s : string) : Z := fnv_write 2166136261 s.

Section mapreduce.
Context `{Json} (can_create : string → bool).
Implicit Types fs : gmap string string.

(** ** Files *)

Definition os_Create (name : string) fs : result (gmap string string) :=
  if can_create name then Ok (<[name := ""]> fs) else Fatal.

(** A write through an open file whose offset is at the end. *)
Definition file_write (name data : string) fs : gmap string string :=
  <[name := default "" (fs !! name) +:+ data]> fs.

(** Decode values until [Decode] fails, at most [fuel] of them. *)
Fixpoint decode_stream (fuel : nat) (s : string) : list KeyValue :=
  match fuel with
  | O => []
  | S fuel =>
      match json_decode s with
      | Some (kv, rest) => kv :: decode_stream fuel rest
      | None => []
      end
  end.

(** All the values of a file.  Every value takes at least one byte, so the
    length of the file bounds their number. *)
Definition decode_all (s : string) : list KeyValue :=
  decode_stream (S (String.length s)) s.

(** ** doMap *)

(** [file[ihash(word.Key)%uint32(nReduce)]]. *)
Definition bucket (nReduce : Z) (kv : KeyValue) : result Z :=
  let d := (nReduce mod 2 ^ 32)%Z in
  if Z.eqb d 0 then Panic else Ok (ihash (Key kv) mod d)%Z.

Fixpoint create_all (jobName : string) (mapTask : Z) (i n : nat) fs
    : result (gmap string string) :=
  match n with
  | O => Ok fs
  | S n =>
      rbind (os_Create (reduceName jobName mapTask (Z.of_nat i)) fs)
        (create_all jobName mapTask (S i) n)
  end.

Fixpoint write_all (jobName : string) (mapTask nReduce : Z)
    (kvs : list KeyValue) fs : result (gmap string string) :=
  match kvs with
  | [] => Ok fs
  | word :: kvs =>
      rbind (bucket nReduce word) (λ r,
      write_all jobName mapTask nReduce kvs
        (file_write (reduceName jobName mapTask r) (json_encode word) fs))
  end.

Definition doMap (jobName : string) (mapTaskNumber : Z) (inFile : string)
    (nReduce : Z) (mapF : string → string → list KeyValue) fs
    : result (gmap string string) :=
  match fs !! inFile with
  | None => Ok fs
  | Some data =>
      let kvs := mapF inFile data in
      if Z.ltb nReduce 0 then Panic
      else
        rbind (create_all jobName mapTaskNumber 0 (Z.to_nat nReduce) fs)
          (write_all jobName mapTaskNumber nReduce kvs)
  end.

(** ** doReduce *)

(** [keyValues[kv.Key] = append(keyValues[kv.Key], kv.Value)]. *)
Definition group_one (kvm : gmap string (list string)) (kv : KeyValue)
    : gmap string (list string) :=
  <[Key kv := default [] (kvm !! Key kv) ++ [Value kv]]> kvm.

Fixpoint read_all (jobName : string) (reduceTask : Z) (i n : nat) fs
    (kvm : gmap string (list string)) : result (gmap string (list string)) :=
  match n with
  | O => Ok kvm
  | S n =>
      rbind (oget (fs !! reduceName jobName (Z.of_nat i) reduceTask) Fatal)
        (λ s, read_all jobName reduceTask (S i) n fs
                (fold_left group_one (decode_all s) kvm))
  end.

Definition sorted_keys {A} (m : gmap string A) : list string :=
  sort_Strings (map_to_list m).*1.

Fixpoint reduce_all (reduceF : string → list string → result string)
    (kvm : gmap string (list string)) (name : string) (keys : list string) fs
    : result (gmap string string) :=
  match keys with
  | [] => Ok fs
  | k :: keys =>
      rbind (reduceF k (default [] (kvm !! k))) (λ v,
      reduce_all reduceF kvm name keys
        (file_write name (json_encode (mkKV k v)) fs))
  end.

Definition doReduce (jobName : string) (reduceTaskNumber : Z) (nMap : Z)
    (reduceF : string → list string → result string) fs
    : result (gmap string string) :=
  rbind (read_all jobName reduceTaskNumber 0 (Z.to_nat nMap) fs ∅) (λ kvm,
  let outFile := mergeName jobName reduceTaskNumber in
  rbind (os_Create outFile fs)
    (reduce_all reduceF kvm outFile (sorted_keys kvm))).

(** ** The master *)

Record Master := mkMaster {
  address : string;
  workers : list string;
  jobName : string;
  files : list string;
  nReduce : Z;
  stats : list Z;
  done : bool;
}.

Definition newMaster (master : string) : Master :=
  mkMaster master [] "" [] 0 [] false.

(** [kvs[kv.Key] = kv.Value]. *)
Definition merge_one (kvs : gmap string string) (kv : KeyValue)
    : gmap string string := <[Key kv := Value kv]> kvs.

Fixpoint merge_read (job : string) (i n : nat) fs (kvs : gmap string string)
    : result (gmap string string) :=
  match n with
  | O => Ok kvs
  | S n =>
      rbind (oget (fs !! mergeName job (Z.of_nat i)) Fatal) (λ s,
      merge_read job (S i) n fs (fold_left merge_one (decode_all s) kvs))
  end.

(** [fmt.Fprintf(w, "%s: %s\n", k, kvs[k])]. *)
Definition output_line (k v : string) : string :=
  k +:+ ": " +:+ v +:+ String "010"%char "".

Definition merge (mr : Master) fs : result (gmap string string) :=
  rbind (merge_read (jobName mr) 0 (Z.to_nat (nReduce mr)) fs ∅) (λ kvs,
  let name := "mrtmp." +:+ jobName mr in
  rbind (os_Create name fs) (λ fs,
  Ok (file_write name
        (concat_strings
           ((λ k, output_line k (default "" (kvs !! k))) <$> sorted_keys kvs))
        fs))).

Definition removeFile (n : string) fs : result (gmap string string) :=
  match fs !! n with
  | Some _ => Ok (delete n fs)
  | None => Fatal
  end.

Fixpoint removeFiles (ns : list string) fs : result (gmap string string) :=
  match ns with
  | [] => Ok fs
  | n :: ns => rbind (removeFile n fs) (removeFiles ns)
  end.

(** The loop [for i := 0; i < n; i++]. *)
Definition upto (n : Z) : list Z := Z.of_nat <$> seq 0 (Z.to_nat n).

Definition CleanupFiles (mr : Master) fs : result (gmap string string) :=
  removeFiles
    ((i ← upto (zlen (files mr)); j ← upto (nReduce mr); [reduceName (jobName mr) i j])
     ++ ((λ i, mergeName (jobName mr) i) <$> upto (nReduce mr))
     ++ ["mrtmp." +:+ jobName mr]) fs.

(** [run], with the schedule and finish functions it is given: the phases in
    order, then the merge, then the message that releases [Wait]. *)
Definition run (job : string) (fls : list string) (nreduce : Z)
    (schedule : jobPhase → Master → gmap string string →
                result (gmap string string))
    (finish : Master → Master) (mr : Master) fs
    : result (Master * gmap string string) :=
  let mr := mkMaster (address mr) (workers mr) job fls nreduce (stats mr)
              (done mr) in
  rbind (schedule mapPhase mr fs) (λ fs,
  rbind (schedule reducePhase mr fs) (λ fs,
  let mr := finish mr in
  rbind (merge mr fs) (λ fs,
  Ok (mkMaster (address mr) (workers mr) (jobName mr) (files mr) (nReduce mr)
        (stats mr) true, fs)))).

Fixpoint map_tasks (job : string) (nreduce : Z)
    (mapF : string → string → list KeyValue) (i : nat) (fls : list string) fs
    : result (gmap string string) :=
  match fls with
  | [] => Ok fs
  | f :: fls =>
      rbind (doMap job (Z.of_nat i) f nreduce mapF fs)
        (map_tasks job nreduce mapF (S i) fls)
  end.

Fixpoint reduce_tasks (job : string) (nMap : Z)
    (reduceF : string → list string → result string) (i n : nat) fs
    : result (gmap string string) :=
  match n with
  | O => Ok fs
  | S n =>
      rbind (doReduce job (Z.of_nat i) nMap reduceF fs)
        (reduce_tasks job nMap reduceF (S i) n)
  end.

Definition Sequential (job : string) (fls : list string) (nreduce : Z)
    (mapF : string → string → list KeyValue)
    (reduceF : string → list string → result string) fs
    : result (Master * gmap string string) :=
  run job fls nreduce
    (λ phase mr fs,
      match phase with
      | mapPhase => map_tasks (jobName mr) (nReduce mr) mapF 0 (files mr) fs
      | reducePhase =>
          reduce_tasks (jobName mr) (zlen (files mr)) reduceF 0
            (Z.to_nat (nReduce mr)) fs
      end)
    (λ mr, mkMaster (address mr) (workers mr) (jobName mr) (files mr)
             (nReduce mr) [(zlen fls + nreduce)%Z] (done mr))
    (newMaster "master") fs.
End mapreduce.
