(* ===== verification/MapReduceNames.v ===== *)
(** * File names and record streams of MapReduce

    Every task of a job writes to files of its own: the names [reduceName]
    and [mergeName] give are pairwise different, and different from the name
    of the final output.  A stream of encoded records reads back as it was
    written. *)

From S2P Require Import Prelude GoBase GoStrings MapReduce.

(** ** Names *)

Lemma reduceName_inj job m r m' r' :
  (0 ≤ m)%Z → (0 ≤ m')%Z →
  reduceName job m r = reduceName job m' r' → m = m' ∧ r = r'.
Proof.
  intros Hm Hm' Heq. unfold reduceName in Heq.
  apply (inj (String.append _)), (inj (String.append _)),
    (inj (String.append _)) in Heq.
  apply (string_sep_inj "-"%char) in Heq as [H1 H2]; [|by apply Itoa_no_dash..].
  split; by apply (inj Itoa).
Qed.

Lemma mergeName_inj job r r' : mergeName job r = mergeName job r' → r = r'.
Proof.
  intros Heq. unfold mergeName in Heq.
  apply (inj (String.append _)), (inj (String.append _)),
    (inj (String.append _)) in Heq. by apply (inj Itoa).
Qed.

Lemma reduceName_mergeName job m r r' :
  (0 ≤ m)%Z → reduceName job m r ≠ mergeName job r'.
Proof.
  intros Hm Heq. unfold reduceName, mergeName in Heq.
  apply (inj (String.append _)), (inj (String.append _)) in Heq.
  change ("-res-" +:+ Itoa r') with ("-" +:+ ("res-" +:+ Itoa r')) in Heq.
  apply (inj (String.append _)) in Heq.
  change ("res-" +:+ Itoa r') with ("res" +:+ ("-" +:+ Itoa r')) in Heq.
  apply (string_sep_inj "-"%char (Itoa m) _ "res" _) in Heq as [Heq _];
    [|by apply Itoa_no_dash|done].
  pose proof (Itoa_digits m Hm) as Hd. by rewrite Heq in Hd.
Qed.

Lemma longer_name job s : s ≠ "" → "mrtmp." +:+ job +:+ s ≠ "mrtmp." +:+ job.
Proof.
  intros Hs Heq. apply (inj (String.append _)) in Heq.
  rewrite <-(string_app_nil_r job) in Heq at 2.
  by apply (inj (String.append _)) in Heq.
Qed.

Lemma reduceName_final job m r : reduceName job m r ≠ "mrtmp." +:+ job.
Proof. by apply longer_name. Qed.

Lemma mergeName_final job r : mergeName job r ≠ "mrtmp." +:+ job.
Proof. by apply longer_name. Qed.

(** ** ihash *)

Lemma fnv_write_range h s :
  (0 ≤ h < 2 ^ 32)%Z → (0 ≤ fnv_write h s < 2 ^ 32)%Z.
Proof.
  revert h. induction s as [|b s IH]; intros h Hh; [done|]. cbn [fnv_write].
  apply IH. unfold fnv_step. by apply Z.mod_pos_bound.
Qed.

Lemma ihash_range s : (0 ≤ ihash s < 2 ^ 32)%Z.
Proof. by apply fnv_write_range. Qed.

(** ** Streams *)

Section streams.
Context `{Json} {laws : JsonLaws}.

Definition stream (kvs : list KeyValue) : string :=
  concat_strings (json_encode <$> kvs).

Lemma stream_app kvs1 kvs2 : stream (kvs1 ++ kvs2) = stream kvs1 +:+ stream kvs2.
Proof. unfold stream. by rewrite fmap_app, concat_strings_app. Qed.

Lemma json_encode_nonempty kv : kv_valid kv → 1 ≤ String.length (json_encode kv).
Proof.
  intros Hv. pose proof (json_decode_encode kv "" Hv) as Hd.
  destruct (json_encode kv); [|cbn; lia].
  by rewrite string_app_nil_r, json_decode_eof in Hd.
Qed.

Lemma decode_stream_ok kvs fuel :
  Forall kv_valid kvs → length kvs < fuel → decode_stream fuel (stream kvs) = kvs.
Proof.
  revert fuel. induction kvs as [|kv kvs IH]; intros [|fuel] Hv Hf;
    simpl in Hf; try lia.
  - simpl. change (stream []) with "". by rewrite json_decode_eof.
  - apply Forall_cons in Hv as [Hv1 Hv]. simpl.
    change (stream (kv :: kvs)) with (json_encode kv +:+ stream kvs).
    rewrite json_decode_encode by done. by rewrite IH by (done || lia).
Qed.

Lemma stream_length kvs :
  Forall kv_valid kvs → length kvs ≤ String.length (stream kvs).
Proof.
  induction 1 as [|kv kvs Hv _ IH]; [simpl; lia|].
  change (stream (kv :: kvs)) with (json_encode kv +:+ stream kvs).
  rewrite length_string_app. pose proof (json_encode_nonempty kv Hv). simpl. lia.
Qed.

(** Reading a file of encoded records gives the records back. *)
Lemma decode_all_stream kvs : Forall kv_valid kvs → decode_all (stream kvs) = kvs.
Proof.
  intros Hv. apply decode_stream_ok; [done|].
  pose proof (stream_length kvs Hv). lia.
Qed.
End streams.
