(* ===== verification/MapReduceCorrect.v ===== *)
(** * A MapReduce job computes what it should

    The specification of a job: group the pairs that [mapF] gives for all the
    input files by key, reduce every group, and print one line per key in
    key order.  [Sequential] leaves exactly that in the output file. *)

From S2P Require Import Prelude GoBase GoStrings MapReduce MapReduceNames.

(** ** Specification *)

(** The values of key [k], in order. *)
Definition values_of (k : string) (kvs : list KeyValue) : list string :=
  Value <$> filter (λ kv, Key kv = k) kvs.

(** The pairs that go to reduce task [r] of [R]. *)
Definition part (R r : Z) (kvs : list KeyValue) : list KeyValue :=
  filter (λ kv, (ihash (Key kv) mod R)%Z = r) kvs.

Lemma values_of_app k l1 l2 :
  values_of k (l1 ++ l2) = values_of k l1 ++ values_of k l2.
Proof. unfold values_of. by rewrite list.filter_app, fmap_app. Qed.


Lemma part_app R r l1 l2 : part R r (l1 ++ l2) = part R r l1 ++ part R r l2.
Proof. apply list.filter_app. Qed.

(** A key's values all go to the reduce task of its hash. *)
Lemma values_of_part R r k kvs :
  values_of k (part R r kvs) =
    if decide ((ihash k mod R)%Z = r) then values_of k kvs else [].
Proof.
  induction kvs as [|kv kvs IH]; [by case_decide|].
  unfold values_of, part in *. rewrite !filter_cons.
  destruct (decide ((ihash (Key kv) mod R)%Z = r)) as [Hb|Hb].
  - rewrite filter_cons. destruct (decide (Key kv = k)) as [<-|]; [|done].
    rewrite !fmap_cons, IH. by rewrite !(decide_True _ _ Hb).
  - rewrite IH. destruct (decide (Key kv = k)) as [<-|]; [|done].
    by rewrite !(decide_False _ _ Hb).
Qed.

(** ** Grouping *)

Lemma group_lookup kvs m k :
  fold_left group_one kvs m !! k =
    match values_of k kvs with
    | [] => m !! k
    | vs => Some (default [] (m !! k) ++ vs)
    end.
Proof.
  revert m. induction kvs as [|kv kvs IH]; intros m; [done|]. simpl.
  rewrite IH. unfold values_of, group_one in *. rewrite filter_cons.
  destruct (decide (Key kv = k)) as [<-|Hne].
  - rewrite lookup_insert_eq, fmap_cons.
    destruct (Value <$> filter _ kvs); simpl; [done|].
    by rewrite <-(assoc_L (++)).
  - by rewrite lookup_insert_ne.
Qed.

Definition group (kvs : list KeyValue) : gmap string (list string) :=
  fold_left group_one kvs ∅.

Lemma lookup_group kvs k :
  group kvs !! k =
    match values_of k kvs with [] => None | vs => Some vs end.
Proof. unfold group. rewrite group_lookup, lookup_empty. done. Qed.

Lemma elem_of_sorted_keys {A} (m : gmap string A) k :
  k ∈ sorted_keys m ↔ is_Some (m !! k).
Proof.
  unfold sorted_keys. rewrite sort_Strings_Permutation, list_elem_of_fmap.
  split.
  - intros ([k' x] & -> & Hx%elem_of_map_to_list). by eexists.
  - intros [x Hx]. exists (k, x). split; [done|]. by apply elem_of_map_to_list.
Qed.

Lemma sorted_keys_unique {A} (m : gmap string A) (l : list string) :
  NoDup l → (∀ k, k ∈ l ↔ is_Some (m !! k)) → sorted_keys m = sort_Strings l.
Proof.
  intros Hnd Hl. apply sort_Strings_perm, NoDup_Permutation;
    [apply NoDup_fst_map_to_list|done|].
  intros k. rewrite Hl, <-elem_of_sorted_keys. unfold sorted_keys.
  by rewrite sort_Strings_Permutation.
Qed.

Lemma elem_of_keys kvs k : k ∈ Key <$> kvs ↔ values_of k kvs ≠ [].
Proof.
  induction kvs as [|kv kvs IH]; [split; [by intros ?%elem_of_nil|done]|].
  rewrite fmap_cons, elem_of_cons, IH. unfold values_of. rewrite filter_cons.
  case_decide; naive_solver.
Qed.

Lemma group_keys kvs k : is_Some (group kvs !! k) ↔ k ∈ Key <$> kvs.
Proof.
  rewrite lookup_group, elem_of_keys. destruct (values_of k kvs); split; try done.
Qed.

(** ** Tasks *)

Section tasks.
Context `{Json} {laws : JsonLaws} (can_create : string → bool).
Context (Hcreate : ∀ n, can_create n = true).
Context (job : string) (R : Z) (HR : (0 < R < 2 ^ 32)%Z).
Implicit Types fs : gmap string string.

Lemma os_Create_ok n fs : os_Create can_create n fs = Ok (<[n := ""]> fs).
Proof. unfold os_Create. by rewrite Hcreate. Qed.

Lemma create_all_ok (m : Z) (i n : nat) fs :
  (0 ≤ m)%Z →
  ∃ fs', create_all can_create job m i n fs = Ok fs' ∧
    (∀ r : nat, i ≤ r < i + n →
       fs' !! reduceName job m (Z.of_nat r) = Some "") ∧
    (∀ f, (∀ r : nat, i ≤ r < i + n → f ≠ reduceName job m (Z.of_nat r)) →
       fs' !! f = fs !! f).
Proof.
  intros Hm. revert i fs. induction n as [|n IH]; intros i fs; simpl.
  { exists fs. split_and!; [done|lia|done]. }
  rewrite os_Create_ok. simpl.
  destruct (IH (S i) (<[reduceName job m (Z.of_nat i) := ""]> fs))
    as (fs' & Hfs' & Hin & Hout).
  exists fs'. split; [done|]. split.
  - intros r Hr. destruct (decide (r = i)) as [->|Hne]; [|apply Hin; lia].
    rewrite Hout, lookup_insert_eq; [done|].
    intros r Hr' [_ ?]%reduceName_inj; lia.
  - intros f Hf. rewrite Hout; [|intros r Hr'; apply Hf; lia].
    rewrite lookup_insert_ne; [done|]. intros <-. by apply (Hf i); [lia|].
Qed.

Lemma bucket_ok kv : bucket R kv = Ok (ihash (Key kv) mod R)%Z.
Proof.
  unfold bucket. rewrite Z.mod_small by lia.
  by destruct (Z.eqb_spec R 0); [lia|].
Qed.

Lemma write_all_ok (m : Z) kvs fs :
  (0 ≤ m)%Z →
  ∃ fs', write_all job m R kvs fs = Ok fs' ∧
    (∀ r s, fs !! reduceName job m r = Some s →
       fs' !! reduceName job m r = Some (s +:+ stream (part R r kvs))) ∧
    (∀ f, (∀ r, (0 ≤ r < R)%Z → f ≠ reduceName job m r) → fs' !! f = fs !! f).
Proof.
  intros Hm. revert fs. induction kvs as [|kv kvs IH]; intros fs; simpl.
  { exists fs. split_and!; [done| |done]. intros r s Hs.
    by rewrite string_app_nil_r. }
  rewrite bucket_ok. simpl. set (b := (ihash (Key kv) mod R)%Z).
  assert (0 ≤ b < R)%Z as Hb by (by apply Z.mod_pos_bound; lia).
  destruct (IH (file_write (reduceName job m b) (json_encode kv) fs))
    as (fs' & Hfs' & Hin & Hout).
  exists fs'. split; [done|]. split.
  - intros r s Hs. unfold part. rewrite filter_cons. fold b.
    destruct (decide (b = r)) as [<-|Hne].
    + rewrite (Hin b (s +:+ json_encode kv)).
      * by rewrite <-string_app_assoc.
      * unfold file_write. by rewrite lookup_insert_eq, Hs.
    + apply Hin. unfold file_write. rewrite lookup_insert_ne; [done|].
      by intros [_ ?]%reduceName_inj.
  - intros f Hf. rewrite Hout by done. unfold file_write.
    rewrite lookup_insert_ne; [done|]. intros <-. by apply (Hf b).
Qed.

(** What one map task does. *)
Lemma doMap_ok (m : Z) f data mapF fs :
  (0 ≤ m)%Z → fs !! f = Some data →
  ∃ fs', doMap can_create job m f R mapF fs = Ok fs' ∧
    (∀ r, (0 ≤ r < R)%Z →
       fs' !! reduceName job m r = Some (stream (part R r (mapF f data)))) ∧
    (∀ n, (∀ r, (0 ≤ r < R)%Z → n ≠ reduceName job m r) → fs' !! n = fs !! n).
Proof.
  intros Hm Hf. unfold doMap. rewrite Hf.
  destruct (Z.ltb_spec R 0); [lia|].
  destruct (create_all_ok m 0 (Z.to_nat R) fs Hm) as (fs1 & -> & Hin1 & Hout1).
  simpl. destruct (write_all_ok m (mapF f data) fs1 Hm)
    as (fs2 & -> & Hin2 & Hout2).
  exists fs2. split; [done|]. split.
  - intros r Hr. rewrite (Hin2 r ""); [done|].
    rewrite <-(Z2Nat.id r) by lia. apply Hin1. lia.
  - intros n Hn. rewrite Hout2 by done. apply Hout1.
    intros r Hr. apply Hn. lia.
Qed.

(** What the map phase does, for the files from number [i] on. *)
Lemma map_tasks_ok mapF (i : nat) fls (datas : list string) fs :
  Forall2 (λ f d, fs !! f = Some d) fls datas →
  (∀ f m r, f ∈ fls → (0 ≤ m)%Z → (0 ≤ r)%Z → f ≠ reduceName job m r) →
  ∃ fs', map_tasks can_create job R mapF i fls fs = Ok fs' ∧
    (∀ (j : nat) f d r, fls !! j = Some f → datas !! j = Some d → (0 ≤ r < R)%Z →
       fs' !! reduceName job (Z.of_nat (i + j)) r =
         Some (stream (part R r (mapF f d)))) ∧
    (∀ n, (∀ m r, (Z.of_nat i ≤ m)%Z → (0 ≤ r < R)%Z → n ≠ reduceName job m r) →
       fs' !! n = fs !! n).
Proof.
  revert i datas fs. induction fls as [|f fls IH]; intros i datas fs Hds Hne; simpl.
  { exists fs. split_and!; [done|done|done]. }
  inversion Hds as [|? d ? ds Hd Hds']; subst.
  destruct (doMap_ok (Z.of_nat i) f d mapF fs) as (fs1 & -> & Hin1 & Hout1);
    [lia|done|]. simpl.
  assert (Forall2 (λ f d, fs1 !! f = Some d) fls ds) as Hds1.
  { apply Forall2_same_length_lookup in Hds' as [Hlen Hl].
    apply Forall2_same_length_lookup. split; [done|]. intros j g e Hg He.
    rewrite Hout1; [by eapply Hl|]. intros r Hr. apply Hne; [|lia..].
    apply elem_of_cons. right. by eapply list_elem_of_lookup_2. }
  destruct (IH (S i) ds fs1 Hds1) as (fs2 & -> & Hin2 & Hout2).
  { intros. apply Hne; [|done..]. apply elem_of_cons. by right. }
  exists fs2. split; [done|]. split.
  - intros [|j] g e r Hg He Hr; simpl in Hg, He.
    + injection Hg as <-. injection He as <-. rewrite Nat.add_0_r.
      rewrite Hout2; [by apply Hin1|].
      intros m r' Hm Hr' [? _]%reduceName_inj; lia.
    + replace (i + S j) with (S i + j) by lia. by apply Hin2.
  - intros n Hn. rewrite Hout2; [|intros; apply Hn; lia].
    apply Hout1. intros r Hr. apply Hn; lia.
Qed.

(** *** Reduce tasks *)

Lemma read_all_ok (r : Z) (kvss : list (list KeyValue)) (i : nat) fs m :
  Forall (Forall kv_valid) kvss →
  (∀ (j : nat) kvs, kvss !! j = Some kvs →
     fs !! reduceName job (Z.of_nat (i + j)) r = Some (stream kvs)) →
  read_all job r i (length kvss) fs m =
    Ok (fold_left group_one (concat kvss) m).
Proof.
  revert i m. induction kvss as [|kvs kvss IH]; intros i m Hv Hfs; simpl; [done|].
  apply Forall_cons in Hv as [Hv1 Hv].
  pose proof (Hfs 0 kvs eq_refl) as H0. rewrite Nat.add_0_r in H0.
  rewrite H0. simpl. rewrite decode_all_stream by done.
  rewrite IH; [by rewrite fold_left_app|done|].
  intros j kvs' Hj. rewrite <-(Hfs (S j) kvs' Hj). by rewrite <-Nat.add_succ_comm.
Qed.

Lemma reduce_all_ok reduceF kvm name (out : string → string) keys fs s :
  (∀ k, k ∈ keys → reduceF k (default [] (kvm !! k)) = Ok (out k)) →
  fs !! name = Some s →
  reduce_all reduceF kvm name keys fs =
    Ok (<[name := s +:+ stream ((λ k, mkKV k (out k)) <$> keys)]> fs).
Proof.
  revert fs s. induction keys as [|k keys IH]; intros fs s Hr Hs; simpl.
  { by rewrite string_app_nil_r, insert_id. }
  rewrite Hr by (apply elem_of_cons; auto). simpl.
  rewrite (IH _ (s +:+ json_encode (mkKV k (out k)))).
  - unfold file_write. by rewrite insert_insert_eq, <-string_app_assoc.
  - intros k' Hk'. apply Hr. apply elem_of_cons. auto.
  - unfold file_write. by rewrite lookup_insert_eq, Hs.
Qed.

(** The records a reduce task writes for the pairs it was given. *)
Definition reduced (out : string → string) (kvs : list KeyValue)
    : list KeyValue :=
  (λ k, mkKV k (out k)) <$> sorted_keys (group kvs).

Lemma doReduce_ok reduceF out (r : Z) kvss fs :
  Forall (Forall kv_valid) kvss →
  (∀ (j : nat) kvs, kvss !! j = Some kvs →
     fs !! reduceName job (Z.of_nat j) r = Some (stream kvs)) →
  (∀ k, k ∈ Key <$> concat kvss →
     reduceF k (values_of k (concat kvss)) = Ok (out k)) →
  doReduce can_create job r (zlen kvss) reduceF fs =
    Ok (<[mergeName job r := stream (reduced out (concat kvss))]> fs).
Proof.
  intros Hv Hfs Hr. unfold doReduce, zlen. rewrite Nat2Z.id.
  rewrite (read_all_ok r kvss 0 fs ∅) by done. simpl. fold (group (concat kvss)).
  rewrite os_Create_ok. simpl.
  rewrite (reduce_all_ok _ _ _ out _ _ "").
  - by rewrite insert_insert_eq.
  - intros k Hk%elem_of_sorted_keys%group_keys. rewrite <-(Hr k Hk).
    rewrite lookup_group. apply elem_of_keys in Hk.
    by destruct (values_of k (concat kvss)).
  - by rewrite lookup_insert_eq.
Qed.

(** *** The reduce phase and the merge *)

Context (kvss : list (list KeyValue)) (out : string → string).
Let all : list KeyValue := concat kvss.
Context (Hvalid : Forall (Forall kv_valid) kvss).
Context (Hout : ∀ k, k ∈ Key <$> all → utf8_ValidString (out k) = true).

Lemma concat_part r : concat (part R r <$> kvss) = part R r all.
Proof.
  unfold all. clear Hvalid Hout all. induction kvss as [|kvs l IH]; [done|].
  rewrite fmap_cons. cbn [concat]. by rewrite part_app, IH.
Qed.

Lemma part_valid r : Forall (Forall kv_valid) (part R r <$> kvss).
Proof.
  apply Forall_fmap. eapply Forall_impl; [done|]. intros kvs Hkvs.
  simpl. rewrite Forall_forall in *. unfold part.
  intros kv [_ Hkv]%list_elem_of_filter. by apply Hkvs.
Qed.

Lemma key_of_part r k :
  k ∈ Key <$> part R r all ↔ k ∈ Key <$> all ∧ (ihash k mod R)%Z = r.
Proof.
  rewrite !elem_of_keys, values_of_part. case_decide; naive_solver.
Qed.

Lemma reduced_valid r : Forall kv_valid (reduced out (part R r all)).
Proof.
  apply Forall_fmap, Forall_forall.
  intros k Hk%elem_of_sorted_keys%group_keys%key_of_part. destruct Hk as [Hk _].
  split; simpl; [|by apply Hout].
  apply list_elem_of_fmap in Hk as (kv & -> & Hkv).
  unfold all in Hkv. apply list_elem_of_In, in_concat in Hkv as (l & Hl & Hkv).
  rewrite Forall_forall in Hvalid.
  apply list_elem_of_In in Hl, Hkv. specialize (Hvalid l Hl).
  rewrite Forall_forall in Hvalid. by apply Hvalid.
Qed.

(** One reduce task of the job. *)
Lemma doReduce_part reduceF (r : Z) fs :
  (0 ≤ r < R)%Z →
  (∀ k, k ∈ Key <$> all → reduceF k (values_of k all) = Ok (out k)) →
  (∀ (j : nat) kvs r, kvss !! j = Some kvs → (0 ≤ r < R)%Z →
     fs !! reduceName job (Z.of_nat j) r = Some (stream (part R r kvs))) →
  doReduce can_create job r (zlen kvss) reduceF fs =
    Ok (<[mergeName job r := stream (reduced out (part R r all))]> fs).
Proof.
  intros Hr Hred Hfs. set (kr := part R r <$> kvss).
  assert (zlen kvss = zlen kr) as -> by (unfold zlen, kr; by rewrite length_fmap).
  rewrite (doReduce_ok reduceF out r kr fs (part_valid r)).
  - unfold kr. by rewrite concat_part.
  - intros j kvs Hj. unfold kr in Hj. rewrite list_lookup_fmap in Hj.
    apply fmap_Some in Hj as (kvs' & Hj & ->). by apply Hfs.
  - unfold kr. rewrite concat_part. intros k Hk. pose proof Hk as Hk'.
    apply key_of_part in Hk' as [Hk1 Hk2]. rewrite values_of_part.
    rewrite decide_True by done. by apply Hred.
Qed.

Lemma reduce_tasks_ok reduceF (i n : nat) fs :
  (Z.of_nat (i + n) ≤ R)%Z →
  (∀ k, k ∈ Key <$> all → reduceF k (values_of k all) = Ok (out k)) →
  (∀ (j : nat) kvs r, kvss !! j = Some kvs → (0 ≤ r < R)%Z →
     fs !! reduceName job (Z.of_nat j) r = Some (stream (part R r kvs))) →
  ∃ fs', reduce_tasks can_create job (zlen kvss) reduceF i n fs = Ok fs' ∧
    (∀ r : nat, i ≤ r < i + n →
       fs' !! mergeName job (Z.of_nat r) =
         Some (stream (reduced out (part R (Z.of_nat r) all)))) ∧
    (∀ f, (∀ r : nat, i ≤ r → f ≠ mergeName job (Z.of_nat r)) →
       fs' !! f = fs !! f).
Proof.
  intros Hn Hr. revert i Hn fs. induction n as [|n IH]; intros i Hn fs Hfs; simpl.
  { exists fs. split_and!; [done|lia|done]. }
  set (r := Z.of_nat i). rewrite (doReduce_part reduceF r fs); [|lia|done|done]. simpl.
  destruct (IH (S i) ltac:(lia)
    (<[mergeName job r := stream (reduced out (part R r all))]> fs))
    as (fs' & Hfs' & Hin & Hoth).
  { intros j kvs r' Hj Hr'. rewrite lookup_insert_ne; [by apply Hfs|].
    apply not_eq_sym, reduceName_mergeName. lia. }
  exists fs'. split; [done|]. split.
  - intros r' Hr'. destruct (decide (r' = i)) as [->|Hne]; [|apply Hin; lia].
    rewrite Hoth, lookup_insert_eq; [done|]. intros r'' ? ?%mergeName_inj. lia.
  - intros f Hf. rewrite Hoth; [|intros; apply Hf; lia].
    rewrite lookup_insert_ne; [done|]. intros <-. by apply (Hf i).
Qed.

Lemma merge_one_lookup (ks : list string) m k :
  fold_left merge_one ((λ k, mkKV k (out k)) <$> ks) m !! k =
    if decide (k ∈ ks) then Some (out k) else m !! k.
Proof.
  revert m. induction ks as [|k' ks IH]; intros m; simpl.
  { done. }
  rewrite IH. unfold merge_one. simpl.
  destruct (decide (k ∈ ks)) as [Hin|Hin],
    (decide (k ∈ k' :: ks)) as [Hin'|Hin']; rewrite elem_of_cons in Hin';
    [done|naive_solver|..].
  - destruct Hin' as [->|?]; [by rewrite lookup_insert_eq|done].
  - rewrite lookup_insert_ne; naive_solver.
Qed.

Lemma merge_read_ok (i n : nat) fs m :
  (∀ r : nat, i ≤ r < i + n →
     fs !! mergeName job (Z.of_nat r) =
       Some (stream (reduced out (part R (Z.of_nat r) all)))) →
  ∃ kvs, merge_read job i n fs m = Ok kvs ∧
    ∀ k, kvs !! k =
      if decide (k ∈ Key <$> all ∧
                 Z.of_nat i ≤ ihash k mod R < Z.of_nat (i + n))%Z
      then Some (out k) else m !! k.
Proof.
  revert i m. induction n as [|n IH]; intros i m Hfs; simpl.
  { exists m. split; [done|]. intros k. rewrite decide_False; [done|lia]. }
  rewrite Hfs by lia. simpl. rewrite decode_all_stream by apply reduced_valid.
  set (r := Z.of_nat i).
  destruct (IH (S i) (fold_left merge_one (reduced out (part R r all)) m))
    as (kvs & Hkvs & Hl); [intros; apply Hfs; lia|].
  exists kvs. split; [done|]. intros k. rewrite Hl. unfold reduced.
  rewrite merge_one_lookup.
  assert (k ∈ sorted_keys (group (part R r all)) ↔
    k ∈ Key <$> all ∧ (ihash k mod R)%Z = r) as Hk.
  { by rewrite elem_of_sorted_keys, group_keys, key_of_part. }
  clear Hl Hkvs IH. set (h := (ihash k mod R)%Z) in *. clearbody h.
  destruct (decide (k ∈ sorted_keys _)) as [Hs|Hs]; rewrite Hk in Hs;
    clear Hk; repeat case_decide; try done; exfalso; intuition lia.
Qed.
End tasks.

(** ** The whole job *)

(** The output of a job: one line per key, in key order. *)
Definition job_output (out : string → string) (kvs : list KeyValue) : string :=
  concat_strings
    ((λ k, output_line k (out k)) <$> sort_Strings (remove_dups (Key <$> kvs))).

Section job.
Context `{Json} (can_create : string → bool).
Context (Hcreate : ∀ n, can_create n = true).
Context (job : string) (R : Z) (HR : (0 < R < 2 ^ 32)%Z).
Implicit Types fs : gmap string string.

Lemma merge_ok {laws : JsonLaws} kvss out mr fs :
  jobName mr = job → nReduce mr = R →
  Forall (Forall kv_valid) kvss →
  (∀ k, k ∈ Key <$> concat kvss → utf8_ValidString (out k) = true) →
  (∀ r : nat, (Z.of_nat r < R)%Z →
     fs !! mergeName job (Z.of_nat r) =
       Some (stream (reduced out (part R (Z.of_nat r) (concat kvss))))) →
  merge can_create mr fs =
    Ok (<["mrtmp." +:+ job := job_output out (concat kvss)]> fs).
Proof.
  intros Hj Hn Hv Ho Hfs. unfold merge. rewrite Hj, Hn.
  destruct (merge_read_ok job R HR kvss out Hv Ho 0 (Z.to_nat R) fs ∅)
    as (kvs & -> & Hl).
  { intros r Hr. apply Hfs. lia. }
  simpl. rewrite (os_Create_ok can_create Hcreate). simpl. f_equal. unfold file_write.
  rewrite lookup_insert_eq, insert_insert_eq. simpl. f_equal. unfold job_output.
  assert (∀ k, kvs !! k = if decide (k ∈ Key <$> concat kvss)
                         then Some (out k) else None) as Hk.
  { intros k. rewrite Hl, lookup_empty.
    pose proof (Z.mod_pos_bound (ihash k) R ltac:(lia)).
    repeat case_decide; naive_solver lia. }
  rewrite (sorted_keys_unique kvs (remove_dups (Key <$> concat kvss)));
    [|apply NoDup_remove_dups|].
  - match goal with |- "" +:+ ?x = _ => change ("" +:+ x) with x end.
    f_equal. apply list_fmap_ext. intros i k Hi. f_equal. rewrite Hk.
    rewrite decide_True; [done|].
    apply elem_of_remove_dups. apply list_elem_of_lookup_2 in Hi.
    by rewrite sort_Strings_Permutation in Hi.
  - intros k. rewrite elem_of_remove_dups, Hk. case_decide; split; try done.
Qed.

Lemma Sequential_ok {laws : JsonLaws} mapF reduceF (out : string → string)
    fls datas fs :
  Forall2 (λ f d, fs !! f = Some d) fls datas →
  (∀ f m r, f ∈ fls → (0 ≤ m)%Z → (0 ≤ r)%Z → f ≠ reduceName job m r) →
  let kvss := zip_with mapF fls datas in
  Forall (Forall kv_valid) kvss →
  (∀ k, k ∈ Key <$> concat kvss →
     reduceF k (values_of k (concat kvss)) = Ok (out k) ∧
     utf8_ValidString (out k) = true) →
  ∃ mr fs',
    Sequential can_create job fls R mapF reduceF fs = Ok (mr, fs') ∧
    fs' !! ("mrtmp." +:+ job) = Some (job_output out (concat kvss)) ∧
    done mr = true ∧ stats mr = [(zlen fls + R)%Z].
Proof.
  intros Hds Hne kvss Hv Hout. unfold Sequential, run. simpl.
  destruct (map_tasks_ok can_create Hcreate job R HR mapF 0 fls datas fs Hds Hne)
    as (fs1 & -> & Hin1 & _). simpl.
  assert (zlen fls = zlen kvss) as Hlen.
  { unfold kvss, zlen. rewrite length_zip_with_l; [done|].
    by rewrite (Forall2_length _ _ _ Hds). }
  rewrite Hlen.
  destruct (reduce_tasks_ok can_create Hcreate job R HR kvss out Hv reduceF 0 (Z.to_nat R) fs1)
    as (fs2 & -> & Hin2 & _); [lia|naive_solver|..].
  { intros j kvs r Hj Hr. apply lookup_zip_with_Some in Hj as (f & d & -> & Hf & Hd).
    rewrite <-(Nat.add_0_l j). by apply Hin1. }
  simpl. rewrite (merge_ok kvss out _ fs2); [|done|done|done|naive_solver|].
  - simpl. do 2 eexists. split; [done|]. simpl. by rewrite lookup_insert_eq.
  - intros r Hr. apply Hin2. lia.
Qed.

(** C13. The sequential job is correct: for any map and reduce functions, if
    the input files are there and are not the job's own intermediate files,
    and the records are valid UTF-8, [Sequential] ends with the output file
    holding, for every key any [mapF] call produced, in key order, the line
    with the result of [reduceF] on all the key's values, in the order of the
    input files, whatever the number of reduce tasks. *)
Theorem Sequential_correct {laws : JsonLaws} mapF reduceF (out : string → string)
    fls datas fs :
  Forall2 (λ f d, fs !! f = Some d) fls datas →
  (∀ f m r, f ∈ fls → (0 ≤ m)%Z → (0 ≤ r)%Z → f ≠ reduceName job m r) →
  let kvss := zip_with mapF fls datas in
  Forall (Forall kv_valid) kvss →
  (∀ k, k ∈ Key <$> concat kvss →
     reduceF k (values_of k (concat kvss)) = Ok (out k) ∧
     utf8_ValidString (out k) = true) →
  ∃ mr fs',
    Sequential can_create job fls R mapF reduceF fs = Ok (mr, fs') ∧
    fs' !! ("mrtmp." +:+ job) = Some (job_output out (concat kvss)) ∧
    done mr = true ∧ stats mr = [(zlen fls + R)%Z].
Proof. apply Sequential_ok. Qed.

(** *** A missing input file *)

Lemma read_all_missing r (i n j : nat) fs m :
  j < n → fs !! reduceName job (Z.of_nat (i + j)) r = None →
  read_all job r i n fs m = Fatal.
Proof.
  revert i j m. induction n as [|n IH]; intros i j m Hj Hfs; [lia|]. simpl.
  destruct (fs !! reduceName job (Z.of_nat i) r) as [s|] eqn:Hs; [|done].
  simpl. destruct j as [|j]; [rewrite Nat.add_0_r in Hfs; congruence|].
  apply (IH (S i) j); [lia|]. by rewrite Nat.add_succ_comm.
Qed.

Lemma doMap_frame (m : Z) f mapF fs :
  (0 ≤ m)%Z →
  ∃ fs', doMap can_create job m f R mapF fs = Ok fs' ∧
    ∀ n, (∀ r, (0 ≤ r < R)%Z → n ≠ reduceName job m r) → fs' !! n = fs !! n.
Proof.
  intros Hm. destruct (fs !! f) as [d|] eqn:Hf.
  - destruct (doMap_ok can_create Hcreate job R HR m f d mapF fs Hm Hf)
      as (fs' & Hd & _ & Hout). eauto.
  - exists fs. split; [|done]. unfold doMap. by rewrite Hf.
Qed.

Lemma map_tasks_frame mapF (i : nat) fls fs :
  ∃ fs', map_tasks can_create job R mapF i fls fs = Ok fs' ∧
    ∀ n, (∀ m r, (Z.of_nat i ≤ m)%Z → (0 ≤ r < R)%Z → n ≠ reduceName job m r) →
      fs' !! n = fs !! n.
Proof.
  revert i fs. induction fls as [|f fls IH]; intros i fs; simpl; [eauto|].
  destruct (doMap_frame (Z.of_nat i) f mapF fs) as (fs1 & -> & Hout1); [lia|].
  simpl. destruct (IH (S i) fs1) as (fs2 & -> & Hout2).
  exists fs2. split; [done|]. intros n Hn.
  rewrite Hout2; [apply Hout1|]; intros; apply Hn; lia.
Qed.

(** A map task whose input is missing leaves its intermediate files as they
    were. *)
Lemma map_tasks_missing mapF (i j : nat) fls f fs r :
  fls !! j = Some f → fs !! f = None →
  (∀ m r, (0 ≤ m)%Z → (0 ≤ r)%Z → f ≠ reduceName job m r) →
  ∃ fs', map_tasks can_create job R mapF i fls fs = Ok fs' ∧
    fs' !! reduceName job (Z.of_nat (i + j)) r =
      fs !! reduceName job (Z.of_nat (i + j)) r.
Proof.
  revert i j fs. induction fls as [|g fls IH]; intros i j fs Hj Hf Hne;
    [done|]. simpl. destruct j as [|j]; simpl in Hj.
  - injection Hj as ->. unfold doMap. rewrite Hf. simpl. rewrite Nat.add_0_r.
    destruct (map_tasks_frame mapF (S i) fls fs) as (fs2 & -> & Hout).
    exists fs2. split; [done|]. apply Hout.
    intros m r' Hm Hr' [? _]%reduceName_inj; lia.
  - destruct (doMap_frame (Z.of_nat i) g mapF fs) as (fs1 & -> & Hout1); [lia|].
    simpl. destruct (IH (S i) j fs1 Hj) as (fs2 & -> & Hout2); [|done|].
    { rewrite Hout1; [done|]. intros. apply Hne; lia. }
    exists fs2. split; [done|]. replace (i + S j) with (S i + j) by lia.
    rewrite Hout2. apply Hout1. intros r' Hr' [? _]%reduceName_inj; lia.
Qed.

(** A missing input is not silently ignored: when an input file is
    missing, and no intermediate file of its map task is left over from an
    earlier run, [Sequential] ends the process instead of producing an
    output. *)
Theorem Sequential_missing_input mapF reduceF fls f (j : nat) fs :
  fls !! j = Some f → fs !! f = None →
  (∀ m r, (0 ≤ m)%Z → (0 ≤ r)%Z → f ≠ reduceName job m r) →
  fs !! reduceName job (Z.of_nat j) 0 = None →
  Sequential can_create job fls R mapF reduceF fs = Fatal.
Proof.
  intros Hj Hf Hne Hold. unfold Sequential, run. simpl.
  destruct (map_tasks_missing mapF 0 j fls f fs 0 Hj Hf Hne) as (fs1 & -> & Hfs1).
  simpl. destruct (Z.to_nat R) as [|n] eqn:Hn; [lia|]. simpl. unfold doReduce.
  rewrite (read_all_missing 0 0 _ j); [done| |].
  - unfold zlen. rewrite Nat2Z.id. by eapply lookup_lt_Some.
  - simpl in *. congruence.
Qed.
End job.
