(* ===== verification/MapReduceDemo.v ===== *)
(** * A JSON codec for the records, and a job that runs

    The codec writes [{"Key":"...","Value":"..."}] and a newline, with quotes
    and backslashes escaped by a backslash; it satisfies the laws that the
    development asks of encoding/json. *)

From S2P Require Import Prelude.
From S2P Require Import GoBase.
From S2P Require Import GoStrings.
From S2P Require Import MapReduce.
From S2P Require Import MapReduceNames.
From S2P Require Import MapReduceCorrect.

Definition quote_char : ascii := "034".
Definition backslash : ascii := "092".

(** The rest of a string literal, after its opening quote. *)
Fixpoint write_literal (s : string) (rest : string) : string :=
  match s with
  | EmptyString => String quote_char rest
  | String c s' =>
      if Ascii.eqb c quote_char || Ascii.eqb c backslash
      then String backslash (String c (write_literal s' rest))
      else String c (write_literal s' rest)
  end.

Fixpoint read_literal (t : string) : option (string * string) :=
  match t with
  | EmptyString => None
  | String c t' =>
      if Ascii.eqb c quote_char then Some ("", t')
      else if Ascii.eqb c backslash then
        match t' with
        | EmptyString => None
        | String d t'' => '(s, rest) ← read_literal t''; Some (String d s, rest)
        end
      else '(s, rest) ← read_literal t'; Some (String c s, rest)
  end.

(** Drop an expected prefix. *)
Fixpoint expect (p t : string) : option string :=
  match p, t with
  | EmptyString, _ => Some t
  | String a p', String b t' => if Ascii.eqb a b then expect p' t' else None
  | _, EmptyString => None
  end.

Definition open_key : string :=
  "{" +:+ String quote_char "Key" +:+ String quote_char ":" +:+ String quote_char "".
Definition open_value : string :=
  "," +:+ String quote_char "Value" +:+ String quote_char ":" +:+ String quote_char "".
Definition close_record : string := "}" +:+ String "010"%char "".

Fixpoint is_ascii (s : string) : bool :=
  match s with
  | EmptyString => true
  | String c s' => Nat.ltb (nat_of_ascii c) 128 && is_ascii s'
  end.

Definition demo_encode (kv : KeyValue) : string :=
  open_key +:+ write_literal (Key kv)
    (open_value +:+ write_literal (Value kv) close_record).

Definition demo_decode (t : string) : option (KeyValue * string) :=
  t ← expect open_key t;
  '(k, t) ← read_literal t;
  t ← expect open_value t;
  '(v, t) ← read_literal t;
  t ← expect close_record t;
  Some (mkKV k v, t).

#[export] Instance demo_json : Json := {|
  json_encode := demo_encode;
  json_decode := demo_decode;
  utf8_ValidString := is_ascii;
|}.

Lemma expect_app p t : expect p (p +:+ t) = Some t.
Proof.
  induction p as [|a p IH]; [by destruct t|].
  rewrite string_app_cons. cbn [expect]. by rewrite Ascii.eqb_refl.
Qed.

Lemma write_literal_app s t u :
  write_literal s t +:+ u = write_literal s (t +:+ u).
Proof.
  induction s as [|c s IH]; [done|]. cbn [write_literal].
  destruct (Ascii.eqb c quote_char || Ascii.eqb c backslash);
    rewrite !string_app_cons; by rewrite IH.
Qed.

Lemma read_write_literal s t : read_literal (write_literal s t) = Some (s, t).
Proof.
  induction s as [|c s IH]; [done|]. cbn [write_literal].
  destruct (Ascii.eqb c quote_char) eqn:Hq, (Ascii.eqb c backslash) eqn:Hb;
    cbn [orb]; cbn [read_literal]; rewrite ?Hq, ?Hb; simpl; by rewrite IH.
Qed.

Lemma demo_json_laws : JsonLaws.
Proof.
  split; [|done]. intros [k v] rest _. cbn [json_encode json_decode demo_json].
  unfold demo_encode, demo_decode. cbn [Key Value].
  rewrite <-string_app_assoc, expect_app. cbn [mbind option_bind].
  rewrite write_literal_app, read_write_literal. cbn [mbind option_bind].
  rewrite <-string_app_assoc, expect_app. cbn [mbind option_bind].
  rewrite write_literal_app, read_write_literal. cbn [mbind option_bind].
  by rewrite expect_app.
Qed.

(** ** A job

    Every file is split into its characters; the reduce function counts. *)

Fixpoint chars (file s : string) : list KeyValue :=
  match s with
  | EmptyString => []
  | String c s' => mkKV (String c "") file :: chars file s'
  end.

Definition count_values (k : string) (vs : list string) : result string :=
  Ok (Itoa (zlen vs)).

Definition demo_fs : gmap string string := {["f1" := "abca"; "f2" := "cb"]}.

Lemma not_reduceName job f m r : String.length f < 6 → f ≠ reduceName job m r.
Proof.
  intros Hf ->. unfold reduceName in Hf. rewrite length_string_app in Hf.
  cbn [String.length] in Hf. lia.
Qed.

Lemma Sequential_correct_witness :
  ∃ mr fs',
    Sequential (λ _, true) "j" ["f1"; "f2"] 3 chars count_values demo_fs
      = Ok (mr, fs') ∧
    fs' !! "mrtmp.j" =
      Some (output_line "a" "2" +:+ output_line "b" "2" +:+ output_line "c" "2").
Proof.
  destruct (Sequential_correct (laws:=demo_json_laws) (λ _, true) (λ _, eq_refl)
    "j" 3 ltac:(lia) chars count_values (λ _, "2")
    ["f1"; "f2"] ["abca"; "cb"] demo_fs) as (mr & fs' & Hs & Hout & _).
  - repeat constructor.
  - intros f m r Hf _ _. apply not_reduceName.
    repeat (apply elem_of_cons in Hf as [->|Hf]; [cbn; lia|]). set_solver.
  - repeat constructor.
  - intros k Hk. split; [|done].
    repeat (apply elem_of_cons in Hk as [->|Hk]; [by vm_compute|]). set_solver.
  - exists mr, fs'. split; [done|]. change ("mrtmp." +:+ "j") with "mrtmp.j" in Hout.
    rewrite Hout. by vm_compute.
Defined.

Lemma Sequential_missing_input_witness :
  Sequential (λ _, true) "j" ["f1"; "f3"] 3 chars count_values demo_fs = Fatal.
Proof.
  apply (Sequential_missing_input (λ _, true) (λ _, eq_refl) "j" 3 ltac:(lia)
    chars count_values ["f1"; "f3"] "f3" 1 demo_fs).
  - done.
  - by vm_compute.
  - intros m r _ _. apply not_reduceName. cbn. lia.
  - by vm_compute.
Defined.
