(* ===== verification/MRSchedule.v ===== *)
(** * Scheduling tasks on workers: mapreduce/schedule.go, worker.go,
    common_rpc.go, master.go (Register, killWorkers)

    [schedule] hands the tasks of a phase to workers that announce themselves
    on the unbuffered [registerChannel].  Its state is the loop counter, the
    wait group, the goroutines that run [execute] and the goroutines blocked
    in a send on the channel.  Every send, receive and RPC is one step; the
    result of an RPC is an argument of its step, so a worker may fail at any
    call, with or without having done the task. *)

From S2P Require Import Prelude GoBase GoStrings MapReduce.

(** ** RPC messages *)

Record DoTaskArgs := mkDoTask {
  JobName : string;
  File : string;
  Phase : jobPhase;
  TaskNumber : Z;
  NumOtherPhase : Z;
}.

Record ShutdownReply := mkShutdownReply { Ntasks : Z }.

Record RegisterArgs := mkRegister { RegWorker : string }.

(** ** The scheduler *)

(** A goroutine of [execute]: at its first line, in the RPC to the worker,
    or waiting for another worker after a failed RPC. *)
Inductive gor :=
| GStart (worker : string) (taskId : nat)
| GCall (worker : string) (args : DoTaskArgs) (taskId : nat)
| GRetry (worker : string) (taskId : nat).

Definition gor_task (g : gor) : nat :=
  match g with GStart _ t | GCall _ _ t | GRetry _ t => t end.

(** [finished] lists the successful RPCs, in order. *)
Record sched := mkSched {
  next : nat;
  wg : Z;
  gors : list gor;
  senders : list string;
  finished : list (string * DoTaskArgs * nat);
  returned : bool;
}.

Section schedule.
Context (mr : Master) (phase : jobPhase).

Definition ntasks : Z :=
  match phase with mapPhase => zlen (files mr) | reducePhase => nReduce mr end.
Definition nios : Z :=
  match phase with mapPhase => nReduce mr | reducePhase => zlen (files mr) end.

(** [schedule] up to its loop, with workers already waiting to be taken.
    [wg.Add] panics on a negative count. *)
Definition schedule_start (waiting : list string) : result sched :=
  if Z.ltb ntasks 0 then Panic else Ok (mkSched 0 ntasks [] waiting [] false).

(** [args := DoTaskArgs{mr.jobName, mr.files[taskId], phase, taskId, nios}]. *)
Definition execute_args (taskId : nat) : result DoTaskArgs :=
  rbind (oget (zget (files mr) (Z.of_nat taskId)) Panic) (λ f,
  Ok (mkDoTask (jobName mr) f phase (Z.of_nat taskId) nios)).

Inductive sstep :=
| SRegister (worker : string)
| SSpawn (k : nat)
| SExec (g : nat)
| SCall (g : nat) (ok : bool)
| SRetry (g k : nat)
| SReturn.

(** [Register]: the worker is recorded and a goroutine offers it. *)
Definition sched_register (worker : string) (s : sched) : sched :=
  mkSched (next s) (wg s) (gors s) (senders s ++ [worker]) (finished s)
    (returned s).

Definition sched_step (a : sstep) (s : sched) : result sched :=
  match a with
  | SRegister worker => Ok (sched_register worker s)
  | SSpawn k =>
      if Z.ltb (Z.of_nat (next s)) ntasks then
        rbind (oget (senders s !! k) Blocked) (λ worker,
        Ok (mkSched (S (next s)) (wg s) (gors s ++ [GStart worker (next s)])
              (delete k (senders s)) (finished s) (returned s)))
      else Blocked
  | SExec g =>
      match gors s !! g with
      | Some (GStart worker t) =>
          rbind (execute_args t) (λ args,
          Ok (mkSched (next s) (wg s) (<[g := GCall worker args t]> (gors s))
                (senders s) (finished s) (returned s)))
      | _ => Blocked
      end
  | SCall g ok =>
      match gors s !! g with
      | Some (GCall worker args t) =>
          if ok then
            if Z.ltb (wg s - 1) 0 then Panic
            else
              Ok (mkSched (next s) (wg s - 1) (delete g (gors s))
                    (senders s ++ [worker]) (finished s ++ [(worker, args, t)])
                    (returned s))
          else
            Ok (mkSched (next s) (wg s) (<[g := GRetry worker t]> (gors s))
                  (senders s) (finished s) (returned s))
      | _ => Blocked
      end
  | SRetry g k =>
      match gors s !! g with
      | Some (GRetry worker t) =>
          rbind (oget (senders s !! k) Blocked) (λ newWorker,
          Ok (mkSched (next s) (wg s) (<[g := GStart newWorker t]> (gors s))
                (delete k (senders s) ++ [worker]) (finished s) (returned s)))
      | _ => Blocked
      end
  | SReturn =>
      if Z.ltb (Z.of_nat (next s)) ntasks then Blocked
      else if Z.eqb (wg s) 0 then
        Ok (mkSched (next s) (wg s) (gors s) (senders s) (finished s) true)
      else Blocked
  end.

Fixpoint sched_exec (tr : list sstep) (s : sched) : result sched :=
  match tr with
  | [] => Ok s
  | a :: tr => rbind (sched_step a s) (sched_exec tr)
  end.

Inductive sched_reachable (waiting : list string) : sched → Prop :=
| sr_start s : schedule_start waiting = Ok s → sched_reachable waiting s
| sr_step s a s' :
    sched_reachable waiting s → sched_step a s = Ok s' →
    sched_reachable waiting s'.

(** ** All tasks, each exactly once *)

Definition done_tasks (s : sched) : list nat := (λ x, x.2) <$> finished s.

(** The tasks handed out so far are the running ones and the finished ones,
    with no repetition; the wait group counts what is not finished. *)
Record sched_inv (s : sched) : Prop := {
  si_tasks : (gor_task <$> gors s) ++ done_tasks s ≡ₚ seq 0 (next s);
  si_next : (Z.of_nat (next s) ≤ ntasks)%Z;
  si_wg : wg s = (ntasks - zlen (finished s))%Z;
  si_args w args t : (w, args, t) ∈ finished s → execute_args t = Ok args;
  si_calls w args t : GCall w args t ∈ gors s → execute_args t = Ok args;
  si_returned : returned s = true → next s = Z.to_nat ntasks ∧ wg s = 0%Z;
}.

Lemma task_insert (l : list gor) g x y :
  l !! g = Some x → gor_task x = gor_task y →
  gor_task <$> <[g := y]> l = gor_task <$> l.
Proof.
  intros Hg Hxy. rewrite list_fmap_insert. apply list_insert_id.
  by rewrite list_lookup_fmap, Hg, <-Hxy.
Qed.

Lemma elem_of_insert_call (l : list gor) g x w args t :
  GCall w args t ∈ <[g := x]> l → GCall w args t = x ∨ GCall w args t ∈ l.
Proof.
  intros [j Hj]%list_elem_of_lookup. apply list_lookup_insert_Some in Hj
    as [(_ & -> & _)|[_ Hj]]; [by left|right]. by eapply list_elem_of_lookup_2.
Qed.

Lemma sched_inv_step a s s' : sched_inv s → sched_step a s = Ok s' → sched_inv s'.
Proof.
  intros [Ht Hn Hw Ha Hc Hr] Hs. destruct a; simpl in Hs.
  - run_result. subst. by split.
  - destruct (Z.ltb_spec (Z.of_nat (next s)) ntasks); run_result. subst.
    split; simpl; try done; [|lia| |].
    + change (0 :: seq 1 (next s)) with (seq 0 (S (next s))).
      rewrite seq_S, <-Ht, fmap_app, <-!(assoc_L (++)). simpl.
      apply Permutation_app_head, (comm (++) [next s]).
    + intros w args t [?|[=]%list_elem_of_singleton]%elem_of_app. eauto.
    + intros Hret. destruct (Hr Hret). lia.
  - destruct (gors s !! g) as [[worker t| |]|] eqn:Hg; run_result. subst.
    split; simpl; try done; [by erewrite task_insert|].
    intros w args t' [Heq|?]%elem_of_insert_call; [|by eauto].
    injection Heq as -> -> ->. done.
  - destruct (gors s !! g) as [[|worker args t|]|] eqn:Hg; run_result.
    destruct ok; [destruct (Z.ltb_spec (wg s - 1) 0); run_result|run_result];
      subst.
    + split; simpl; try done.
      * assert (gor_task <$> gors s ≡ₚ t :: (gor_task <$> delete g (gors s)))
          as Hp by (by etrans;
            [apply fmap_Permutation, (delete_Permutation _ _ _ Hg)|]).
        rewrite <-Ht, Hp. unfold done_tasks. simpl. rewrite fmap_app. simpl.
        rewrite (assoc_L (++)). by rewrite (comm (++) _ [t]).
      * rewrite Hw, zlen_app. unfold zlen at 3. simpl. lia.
      * intros w args' t' [?|Heq%list_elem_of_singleton]%elem_of_app; [by eauto|].
        injection Heq as -> -> ->. eapply Hc. by eapply list_elem_of_lookup_2.
      * intros w args' t' Hin%elem_of_delete_subset. eauto.
      * intros Hret. destruct (Hr Hret). lia.
    + split; simpl; try done; [by erewrite task_insert|].
      intros w args' t' [Heq|?]%elem_of_insert_call; [done|by eauto].
  - destruct (gors s !! g) as [[| |worker t]|] eqn:Hg; run_result. subst.
    split; simpl; try done; [by erewrite task_insert|].
    intros w args t' [Heq|?]%elem_of_insert_call; [done|by eauto].
  - destruct (Z.ltb_spec (Z.of_nat (next s)) ntasks); run_result.
    destruct (Z.eqb_spec (wg s) 0); run_result. subst.
    split; simpl; try done. intros _. lia.
Qed.

Lemma sched_reachable_inv waiting s : sched_reachable waiting s → sched_inv s.
Proof.
  induction 1 as [s Hs|s a s' _ IH Hs]; [|by eapply sched_inv_step].
  unfold schedule_start in Hs.
  destruct (Z.ltb_spec ntasks 0); run_result. subst.
  split; unfold zlen; simpl; first [done|lia|set_solver].
Qed.

(** A running task was handed out and has its arguments. *)
Lemma gor_args s (g : nat) x :
  (ntasks ≤ zlen (files mr))%Z → sched_inv s → gors s !! g = Some x →
  ∃ args, execute_args (gor_task x) = Ok args.
Proof.
  intros Hle [Ht Hn _ _ _ _] Hg. apply list_elem_of_lookup_2 in Hg.
  assert (gor_task x ∈ seq 0 (next s)) as Hin.
  { rewrite <-Ht. apply elem_of_app. left. by apply list_elem_of_fmap_2. }
  apply elem_of_seq in Hin. unfold execute_args.
  destruct (zget_is_Some (files mr) (Z.of_nat (gor_task x))) as [f ->]; [lia|].
  by eexists.
Qed.

(** A running task is counted by the wait group. *)
Lemma wg_positive s (g : nat) x :
  sched_inv s → gors s !! g = Some x → (wg s - 1 <? 0)%Z = false.
Proof.
  intros [Ht Hn Hw _ _ _] Hg. apply Permutation_length in Ht.
  unfold done_tasks in Ht. rewrite length_app, !length_fmap, length_seq in Ht.
  apply lookup_lt_Some in Hg. unfold zlen in Hw. lia.
Qed.

(** C16. When [schedule] returns, every task of the phase has been done: in
    every run, whatever calls fail, the successful [DoTask] calls name each of
    the [ntasks] tasks exactly once, with the arguments the task must get, and
    the wait group is at zero. *)
Theorem schedule_complete waiting s :
  sched_reachable waiting s → returned s = true →
  done_tasks s ≡ₚ seq 0 (Z.to_nat ntasks) ∧ gors s = [] ∧
  ∀ w args t, (w, args, t) ∈ finished s → execute_args t = Ok args.
Proof.
  intros Hs Hr. apply sched_reachable_inv in Hs as [Ht Hn Hw Ha _ Hret].
  destruct (Hret Hr) as [Hnext Hwg]. rewrite Hnext in Ht.
  assert (length (done_tasks s) = Z.to_nat ntasks) as Hlen.
  { unfold done_tasks. rewrite length_fmap. unfold zlen in Hw. lia. }
  assert (gors s = []) as Hg.
  { apply Permutation_length in Ht.
    rewrite length_app, length_fmap, length_seq in Ht.
    apply nil_length_inv. lia. }
  rewrite Hg in Ht. done.
Qed.

(** [schedule] cannot panic when there are at least as many input files
    as tasks, which is always the case in the map phase: no step of any run
    indexes [mr.files] out of range or drives the wait group below zero. *)
Theorem schedule_no_panic waiting s a :
  (ntasks ≤ zlen (files mr))%Z → sched_reachable waiting s →
  sched_step a s ≠ Panic.
Proof.
  intros Hle Hs%sched_reachable_inv.
  destruct a; simpl; try (repeat case_match; done).
  - case_match; [|done]. by destruct (senders s !! k).
  - destruct (gors s !! g) as [[worker t| |]|] eqn:Hg; try done.
    destruct (gor_args _ _ _ Hle Hs Hg) as [args Ha]. simpl in Ha. by rewrite Ha.
  - destruct (gors s !! g) as [[|worker args t|]|] eqn:Hg; try done.
    by rewrite (wg_positive _ _ _ Hs Hg); destruct ok.
  - destruct (gors s !! g) as [[| |worker t]|]; try done.
    by destruct (senders s !! k).
Qed.

(** ** Never stuck *)

Definition gor_weight (g : gor) : nat :=
  match g with GStart _ _ => 2 | GCall _ _ _ => 1 | GRetry _ _ => 3 end.

(** Some worker is free, or at work. *)
Definition usable (s : sched) : Prop :=
  senders s ≠ [] ∨
  ∃ (g : nat) x, gors s !! g = Some x ∧ gor_weight x ≤ 2.

Definition work_left (s : sched) : nat :=
  4 * (Z.to_nat ntasks - next s) + sum_list_with gor_weight (gors s).

Lemma weight_insert (l : list gor) g x y :
  l !! g = Some x →
  sum_list_with gor_weight (<[g := y]> l) + gor_weight x =
  sum_list_with gor_weight l + gor_weight y.
Proof.
  revert g. induction l as [|z l IH]; intros [|g] Hg; simplify_eq/=; [lia|].
  specialize (IH g Hg). lia.
Qed.

Lemma weight_delete (l : list gor) g x :
  l !! g = Some x →
  sum_list_with gor_weight l =
  gor_weight x + sum_list_with gor_weight (delete g l).
Proof.
  revert g. induction l as [|z l IH]; intros [|g] Hg; simplify_eq/=; [lia|].
  specialize (IH g Hg). lia.
Qed.

(** With no task running, hand out the next one or return. *)
Lemma schedule_progress_idle s :
  sched_inv s → usable s → gors s = [] →
  ∃ a s', sched_step a s = Ok s' ∧
    (returned s' = true ∨ usable s' ∧ work_left s' < work_left s).
Proof.
  intros Hinv Hu Hgors.
  destruct (Z.ltb_spec (Z.of_nat (next s)) ntasks) as [Hlt|Hge].
  - destruct Hu as [Hu|(g & x & Hg & _)]; [|by rewrite Hgors in Hg].
    destruct (senders s) as [|w ws] eqn:Hs; [done|].
    exists (SSpawn 0). simpl. rewrite Hs.
    destruct (Z.ltb_spec (Z.of_nat (next s)) ntasks); [|lia].
    eexists. split; [done|]. right. split.
    + right. simpl. exists 0. eexists. rewrite Hgors. split; [done|simpl; lia].
    + unfold work_left. simpl. rewrite Hgors. simpl. lia.
  - destruct Hinv as [Ht Hn Hw _ _ _]. exists SReturn. simpl.
    destruct (Z.ltb_spec (Z.of_nat (next s)) ntasks); [lia|].
    rewrite Hgors in Ht. apply Permutation_length in Ht.
    unfold done_tasks in Ht. rewrite length_app, !length_fmap, length_seq in Ht.
    simpl in Ht. unfold zlen in Hw.
    destruct (Z.eqb_spec (wg s) 0); [|lia]. eexists. split; [done|]. by left.
Qed.

(** One step forward: less work is left and some worker is still usable, or
    the phase is over. *)
Lemma schedule_progress s :
  (ntasks ≤ zlen (files mr))%Z → sched_inv s → usable s →
  ∃ a s', sched_step a s = Ok s' ∧
    (returned s' = true ∨ usable s' ∧ work_left s' < work_left s).
Proof.
  intros Hle Hinv Hu.
  destruct (gors s) as [|x0 l0] eqn:Hgors; [by apply schedule_progress_idle|].
  assert (∃ (g : nat) x, gors s !! g = Some x ∧
    (gor_weight x ≤ 2 ∨ senders s ≠ [])) as (g & x & Hg & Hx).
  { destruct Hu as [Hu|(g & x & ? & ?)]; [|by eauto].
    exists 0, x0. by rewrite Hgors; auto. }
  pose proof (weight_insert (gors s) g x) as Hwi.
  pose proof (weight_delete (gors s) g x Hg) as Hwd.
  pose proof (lookup_lt_Some _ _ _ Hg) as Hlt.
  clear Hgors Hu x0 l0.
  destruct x as [w t|w args t|w t]; simpl in Hx.
  - destruct (gor_args _ _ _ Hle Hinv Hg) as [args He]. simpl in He.
    exists (SExec g). simpl. rewrite Hg, He. simpl. eexists. split; [done|].
    right. split.
    + right. exists g. eexists. simpl. rewrite list_lookup_insert_eq by done.
      split; [done|simpl; lia].
    + specialize (Hwi (GCall w args t) Hg). unfold work_left. simpl in *. lia.
  - exists (SCall g true). simpl. rewrite Hg.
    rewrite (wg_positive _ _ _ Hinv Hg).
    eexists. split; [done|]. right. split.
    + left. simpl. by destruct (senders s).
    + unfold work_left. simpl in *. lia.
  - destruct Hx as [Hx|Hx]; [lia|]. destruct (senders s) as [|w' ws] eqn:Hs; [done|].
    exists (SRetry g 0). simpl. rewrite Hg, Hs. simpl. eexists. split; [done|].
    right. split.
    + right. exists g. eexists. simpl. rewrite list_lookup_insert_eq by done.
      split; [done|simpl; lia].
    + specialize (Hwi (GStart w' t) Hg). unfold work_left. simpl in *. lia.
Qed.

(** C29. [schedule] never paints itself into a corner: in a phase with no more
    tasks than the master has input files, from every reachable state in which
    some worker is free or at work, there is a way for the phase to complete.
    The condition holds of every map phase; a reduce phase with more tasks than
    files panics ([schedule_reduce_panics] below). *)
Theorem schedule_can_finish waiting s :
  (ntasks ≤ zlen (files mr))%Z → sched_reachable waiting s → usable s →
  ∃ tr s', sched_exec tr s = Ok s' ∧ returned s' = true.
Proof.
  intros Hle Hs%sched_reachable_inv. remember (work_left s) as n eqn:Hn.
  revert s Hs Hn. induction (lt_wf n) as [n _ IH]; intros s Hs -> Hu.
  destruct (schedule_progress s Hle Hs Hu) as (a & s1 & Ha & [Hr|[Hu1 Hlt]]).
  - exists [a], s1. simpl. by rewrite Ha.
  - destruct (IH _ Hlt s1 (sched_inv_step _ _ _ Hs Ha) eq_refl Hu1)
      as (tr & s' & Htr & Hr).
    exists (a :: tr), s'. simpl. by rewrite Ha.
Qed.
End schedule.

(** ** Runs *)

Definition demo_master : Master := mkMaster "m" [] "job" ["a"] 2 [] false.

(** The reduce phase can panic: with more reduce tasks than input files,
    [execute] indexes [mr.files] with the number of a reduce task beyond its
    end. *)
Theorem schedule_reduce_panics :
  ∃ s, sched_reachable demo_master reducePhase ["w1"; "w2"] s ∧
    sched_step demo_master reducePhase (SExec 1) s = Panic.
Proof.
  exists (mkSched 2 2 [GStart "w1" 0; GStart "w2" 1] [] [] false). split; [|done].
  eapply (sr_step _ _ _ _ (SSpawn 0));
    [eapply (sr_step _ _ _ _ (SSpawn 0)); [by apply sr_start|]|]; by vm_compute.
Qed.

Definition two_files : Master := mkMaster "m" [] "job" ["a"; "b"] 2 [] false.

Lemma sched_exec_reachable mr phase waiting tr s s' :
  sched_reachable mr phase waiting s → sched_exec mr phase tr s = Ok s' →
  sched_reachable mr phase waiting s'.
Proof.
  revert s. induction tr as [|a tr IH]; intros s Hs He; simpl in He; run_result.
  - by subst.
  - eapply IH; [|done]. by eapply sr_step.
Qed.

(** Task 0 first goes to a worker whose call fails. *)
Definition failing_run : list sstep :=
  [SSpawn 0; SExec 0; SCall 0 false; SRetry 0 0; SExec 0; SCall 0 true;
   SSpawn 0; SExec 0; SCall 0 true; SReturn].

Definition run_two (tr : list sstep) : result sched :=
  rbind (schedule_start two_files mapPhase ["w1"; "w2"])
    (sched_exec two_files mapPhase tr).

Lemma run_two_reachable tr s :
  run_two tr = Ok s → sched_reachable two_files mapPhase ["w1"; "w2"] s.
Proof.
  unfold run_two. intros Hs. run_result.
  eapply sched_exec_reachable; [by apply sr_start|done].
Qed.

Lemma schedule_complete_witness :
  ∃ s, run_two failing_run = Ok s ∧ done_tasks s ≡ₚ [0; 1].
Proof.
  destruct (run_two failing_run) as [s| | |] eqn:Hs; [|by vm_compute in Hs..].
  exists s. split; [done|].
  apply (schedule_complete two_files mapPhase ["w1"; "w2"] s).
  - by apply (run_two_reachable failing_run).
  - vm_compute in Hs. by injection Hs as <-.
Defined.

Lemma schedule_no_panic_witness :
  ∃ s, run_two [SSpawn 0] = Ok s ∧
    sched_step two_files mapPhase (SExec 0) s ≠ Panic.
Proof.
  destruct (run_two [SSpawn 0]) as [s| | |] eqn:Hs; [|by vm_compute in Hs..].
  exists s. split; [done|].
  apply (schedule_no_panic two_files mapPhase ["w1"; "w2"] s);
    [by vm_compute|by apply (run_two_reachable [SSpawn 0])].
Defined.

Lemma schedule_can_finish_witness :
  ∃ s, run_two [SSpawn 0; SExec 0; SCall 0 false] = Ok s ∧
    ∃ tr s', sched_exec two_files mapPhase tr s = Ok s' ∧ returned s' = true.
Proof.
  destruct (run_two [SSpawn 0; SExec 0; SCall 0 false]) as [s| | |] eqn:Hs;
    [|by vm_compute in Hs..].
  exists s. split; [done|].
  apply (schedule_can_finish two_files mapPhase ["w1"; "w2"] s);
    [by vm_compute|by apply (run_two_reachable [SSpawn 0; SExec 0; SCall 0 false])|].
  left. vm_compute in Hs. by injection Hs as <-.
Defined.
