(* ===== verification/WordCount.v ===== *)
(** * The two applications: main/wc.go and main/ii.go

    Word count and inverted index, as map and reduce functions for the
    framework, and the proof that a sequential run of each prints what a
    direct definition over all the words of all the files says.

    The order in which Go iterates over a map is a parameter, [range], of
    which only the contents are known; unicode's letter table is a parameter
    too. *)

From S2P Require Import Prelude.
From S2P Require Import GoBase.
From S2P Require Import GoStrings.
From S2P Require Import MapReduce.
From S2P Require Import MapReduceNames.
From S2P Require Import MapReduceCorrect.
From S2P Require Import MapReduceDemo.

(** ** Runes *)

Definition byte_of (c : ascii) : Z := Z.of_nat (nat_of_ascii c).

Definition in_range (lo hi b : Z) : bool := Z.leb lo b && Z.leb b hi.

(** The number of continuation bytes a lead byte asks for and the range of the
    first of them; [None] for a byte that cannot lead. *)
Definition lead (b : Z) : option (nat * Z * Z) :=
  if in_range 194 223 b then Some (1, 128%Z, 191%Z)
  else if Z.eqb b 224 then Some (2, 160%Z, 191%Z)
  else if Z.eqb b 237 then Some (2, 128%Z, 159%Z)
  else if in_range 225 239 b then Some (2, 128%Z, 191%Z)
  else if Z.eqb b 240 then Some (3, 144%Z, 191%Z)
  else if Z.eqb b 244 then Some (3, 128%Z, 143%Z)
  else if in_range 241 243 b then Some (3, 128%Z, 191%Z)
  else None.

(** The continuation bytes that follow, with the bits they add. *)
Fixpoint continuation (n : nat) (lo hi : Z) (acc : Z) (s : string)
    : option (Z * string * string) :=
  match n with
  | O => Some (acc, "", s)
  | S n =>
      match s with
      | EmptyString => None
      | String c s' =>
          if in_range lo hi (byte_of c) then
            '(r, w, rest) ←
              continuation n 128 191 (acc * 64 + Z.land (byte_of c) 63) s';
            Some (r, String c w, rest)
          else None
      end
  end.

Definition RuneError : Z := 65533.

(** One step of [for _, r := range s]: the rune at the start of a non-empty
    string, its bytes, and the rest.  A malformed byte is [RuneError]. *)
Definition next_rune (c : ascii) (s : string) : Z * string * string :=
  let b := byte_of c in
  if Z.ltb b 128 then (b, String c "", s)
  else
    match lead b with
    | None => (RuneError, String c "", s)
    | Some (n, lo, hi) =>
        let bits := Z.land b (match n with 1 => 31 | 2 => 15 | _ => 7 end) in
        match continuation n lo hi bits s with
        | Some (r, w, rest) => (r, String c w, rest)
        | None => (RuneError, String c "", s)
        end
    end.

(** [strings.FieldsFunc]: the maximal runs of runes that do not satisfy [f],
    [cur] being the run so far. *)
Fixpoint fields_go (f : Z → bool) (fuel : nat) (cur : string) (s : string)
    : list string :=
  let flush := match cur with EmptyString => [] | _ => [cur] end in
  match fuel, s with
  | S fuel, String c s' =>
      let '(r, w, rest) := next_rune c s' in
      if f r then flush ++ fields_go f fuel "" rest
      else fields_go f fuel (cur +:+ w) rest
  | _, _ => flush
  end.

Definition FieldsFunc (s : string) (f : Z → bool) : list string :=
  fields_go f (String.length s) "" s.

(** A Go [map[string]int] counting the words of a list: [mp[word]++]. *)
Definition tally_one (mp : gmap string Z) (w : string) : gmap string Z :=
  <[w := (default 0 (mp !! w) + 1)%Z]> mp.

Definition tally (words : list string) : gmap string Z :=
  fold_left tally_one words ∅.

Section apps.
Context (IsLetter : Z → bool).
Context (range : gmap string Z → list (string * Z)).

Definition words (value : string) : list string :=
  FieldsFunc value (λ c, negb (IsLetter c)).

(** ** wc.go *)

Definition wc_mapF (document value : string) : list KeyValue :=
  (λ '(k, v), mkKV k (Itoa v)) <$> range (tally (words value)).

Fixpoint wc_sum (tot : Z) (values : list string) : result Z :=
  match values with
  | [] => Ok tot
  | value :: values =>
      rbind (oget (Atoi value) Fatal) (λ cur,
      wc_sum (wrap_int (tot + cur)) values)
  end.

Definition wc_reduceF (key : string) (values : list string) : result string :=
  rbind (wc_sum 0 values) (λ tot, Ok (Itoa tot)).

(** ** ii.go *)

Definition ii_mapF (document value : string) : list KeyValue :=
  (λ '(k, _), mkKV k document) <$> range (tally (words value)).

Definition ii_reduceF (key : string) (values : list string) : result string :=
  Ok (Itoa (zlen values) +:+ " " +:+ Join values ",").

(** ** What they compute *)

Context (range_perm : ∀ m, range m ≡ₚ map_to_list m).

(** How often [w] occurs. *)
Definition occurrences (w : string) (ws : list string) : Z :=
  zlen (filter (λ x, x = w) ws).

Lemma occurrences_cons x w ws :
  occurrences w (x :: ws) =
    ((if decide (x = w) then 1 else 0) + occurrences w ws)%Z.
Proof.
  unfold occurrences, zlen. rewrite filter_cons. case_decide; simpl; lia.
Qed.

Lemma occurrences_nonneg w ws : (0 ≤ occurrences w ws)%Z.
Proof. apply zlen_nonneg. Qed.

Lemma occurrences_app w ws1 ws2 :
  occurrences w (ws1 ++ ws2) = (occurrences w ws1 + occurrences w ws2)%Z.
Proof. unfold occurrences. by rewrite list.filter_app, zlen_app. Qed.

Lemma elem_of_occurrences w ws : w ∈ ws ↔ (0 < occurrences w ws)%Z.
Proof.
  induction ws as [|x ws IH].
  - split; [by intros ?%elem_of_nil|]. unfold occurrences, zlen. simpl. lia.
  - rewrite elem_of_cons, IH, occurrences_cons.
    pose proof (occurrences_nonneg w ws). case_decide; naive_solver lia.
Qed.

Lemma tally_lookup_from ws m w :
  fold_left tally_one ws m !! w =
    if decide (w ∈ ws) then Some (default 0 (m !! w) + occurrences w ws)%Z
    else m !! w.
Proof.
  revert m. induction ws as [|x ws IH]; intros m; [done|].
  cbn [fold_left]. rewrite IH, occurrences_cons. unfold tally_one.
  pose proof (elem_of_occurrences w ws) as Ho.
  pose proof (occurrences_nonneg w ws).
  destruct (decide (x = w)) as [->|Hne].
  - rewrite lookup_insert_eq, (decide_True (P:=w ∈ w :: ws)) by set_solver.
    simpl. case_decide; simpl; f_equal; [lia|].
    destruct (decide (0 < occurrences w ws)%Z); [naive_solver|lia].
  - rewrite lookup_insert_ne by done.
    destruct (decide (w ∈ ws)); [rewrite decide_True by set_solver|
      rewrite decide_False by set_solver]; done.
Qed.

Lemma tally_lookup ws w :
  tally ws !! w = if decide (w ∈ ws) then Some (occurrences w ws) else None.
Proof. unfold tally. rewrite tally_lookup_from, lookup_empty. done. Qed.

(** The values that a map function gives to one key. *)
Lemma values_of_pairs (f : string * Z → KeyValue) l w :
  (∀ x, Key (f x) = x.1) → NoDup l.*1 →
  values_of w (f <$> l) =
    match list_find (λ x, x.1 = w) l with
    | Some (_, x) => [Value (f x)]
    | None => []
    end.
Proof.
  intros Hf. induction l as [|[k v] l IH]; [done|].
  rewrite fmap_cons. intros [Hk Hl]%NoDup_cons. specialize (IH Hl).
  rewrite fmap_cons. unfold values_of in *. rewrite filter_cons, Hf. simpl.
  destruct (decide (k = w)) as [->|Hne].
  - rewrite fmap_cons, IH.
    destruct (list_find _ l) as [[i [k' v']]|] eqn:Hi; [|done].
    apply list_find_Some in Hi as (Hi & Heq & _). simpl in Heq. subst.
    exfalso. apply Hk. apply list_elem_of_lookup_2 in Hi.
    by apply (list_elem_of_fmap_2 fst) in Hi.
  - rewrite IH. by destruct (list_find _ l) as [[i x]|].
Qed.

Lemma values_of_range (f : string * Z → KeyValue) m w :
  (∀ x, Key (f x) = x.1) →
  values_of w (f <$> range m) =
    match m !! w with Some v => [Value (f (w, v))] | None => [] end.
Proof.
  intros Hf. rewrite values_of_pairs; [|done|].
  - destruct (list_find _ (range m)) as [[i [k v]]|] eqn:Hi.
    + apply list_find_Some in Hi as (Hi & Heq & _). simpl in Heq. subst k.
      apply list_elem_of_lookup_2 in Hi. rewrite range_perm in Hi.
      apply elem_of_map_to_list in Hi. by rewrite Hi.
    + apply list_find_None in Hi. destruct (m !! w) as [v|] eqn:Hv; [|done].
      apply elem_of_map_to_list in Hv. rewrite <-range_perm in Hv.
      rewrite Forall_forall in Hi. by destruct (Hi _ Hv).
  - rewrite range_perm. apply NoDup_fst_map_to_list.
Qed.

(** All the words of all the files. *)
Definition all_words (datas : list string) : list string :=
  concat (words <$> datas).

(** The output of word count: every word with its number of occurrences. *)
Definition wc_output (datas : list string) : string :=
  concat_strings
    ((λ w, output_line w (Itoa (occurrences w (all_words datas)))) <$>
       sort_Strings (remove_dups (all_words datas))).

(** The files that hold [w], in order. *)
Definition files_with (w : string) (fls datas : list string) : list string :=
  (zip fls datas) ≫= (λ '(f, d), if decide (w ∈ words d) then [f] else []).

(** The output of the inverted index: every word with the number of files it
    occurs in and their names. *)
Definition ii_output (fls datas : list string) : string :=
  concat_strings
    ((λ w, output_line w
       (Itoa (zlen (files_with w fls datas)) +:+ " " +:+
        Join (files_with w fls datas) ",")) <$>
       sort_Strings (remove_dups (all_words datas))).

Lemma wc_values f d w :
  values_of w (wc_mapF f d) =
    if decide (w ∈ words d) then [Itoa (occurrences w (words d))] else [].
Proof.
  unfold wc_mapF. rewrite values_of_range by (by intros []).
  rewrite tally_lookup. by case_decide.
Qed.

Lemma ii_values f d w :
  values_of w (ii_mapF f d) = if decide (w ∈ words d) then [f] else [].
Proof.
  unfold ii_mapF. rewrite values_of_range by (by intros []).
  rewrite tally_lookup. by case_decide.
Qed.

(** The keys of a job are the words of its files. *)
Lemma job_keys (mapF : string → string → list KeyValue) fls datas :
  (∀ f d w, values_of w (mapF f d) = [] ↔ w ∉ words d) →
  length fls = length datas →
  ∀ w, w ∈ Key <$> concat (zip_with mapF fls datas) ↔ w ∈ all_words datas.
Proof.
  intros Hm Hlen w. rewrite elem_of_keys. unfold all_words.
  revert datas Hlen. induction fls as [|f fls IH]; intros [|d datas] Hlen;
    simplify_eq/=; [set_solver|].
  rewrite elem_of_app, values_of_app, <-IH by done.
  specialize (Hm f d w). destruct (decide (w ∈ words d)) as [Hin|Hin].
  - split; [by left|]. intros _ [? _]%app_nil. naive_solver.
  - assert (values_of w (mapF f d) = []) as -> by naive_solver.
    simpl. naive_solver.
Qed.

Lemma job_output_words (mapF : string → string → list KeyValue) fls datas out :
  (∀ f d w, values_of w (mapF f d) = [] ↔ w ∉ words d) →
  length fls = length datas →
  job_output out (concat (zip_with mapF fls datas)) =
    concat_strings ((λ w, output_line w (out w)) <$>
      sort_Strings (remove_dups (all_words datas))).
Proof.
  intros Hm Hlen. unfold job_output. do 2 f_equal.
  apply sort_Strings_perm, NoDup_Permutation; [apply NoDup_remove_dups..|].
  intros w. rewrite !elem_of_remove_dups. by apply job_keys.
Qed.

Lemma wrap_int_small n : (0 ≤ n ≤ int_max)%Z → wrap_int n = n.
Proof.
  unfold int_max, wrap_int. intros Hn. rewrite Z.mod_small; lia.
Qed.

Lemma wc_total fls datas w tot :
  length fls = length datas → (0 ≤ tot)%Z →
  (tot + occurrences w (all_words datas) ≤ int_max)%Z →
  wc_sum tot (values_of w (concat (zip_with wc_mapF fls datas))) =
    Ok (tot + occurrences w (all_words datas))%Z.
Proof.
  revert datas tot. induction fls as [|f fls IH]; intros [|d datas] tot Hlen Ht Hm;
    simplify_eq/=.
  { unfold occurrences, zlen. simpl. by rewrite Z.add_0_r. }
  unfold all_words in *. rewrite fmap_cons in *. cbn [concat] in *.
  rewrite occurrences_app in *. rewrite values_of_app, wc_values.
  pose proof (occurrences_nonneg w (words d)).
  pose proof (occurrences_nonneg w (concat (words <$> datas))).
  destruct (decide (w ∈ words d)) as [Hin|Hin].
  - simpl. rewrite Atoi_Itoa by lia. simpl. rewrite wrap_int_small by lia.
    rewrite IH by (done || lia). f_equal. lia.
  - simpl. rewrite elem_of_occurrences in Hin. rewrite IH by (done || lia).
    f_equal. lia.
Qed.

Lemma ii_files fls datas w :
  values_of w (concat (zip_with ii_mapF fls datas)) = files_with w fls datas.
Proof.
  revert datas. induction fls as [|f fls IH]; intros [|d datas]; simpl; [done..|].
  rewrite values_of_app, ii_values, IH. done.
Qed.

(** ** The two jobs *)

Context `{Json} {laws : JsonLaws}.
Context (can_create : string → bool) (Hcreate : ∀ n, can_create n = true).
Context (job : string) (R : Z) (HR : (0 < R < 2 ^ 32)%Z).
Context (fls datas : list string) (fs : gmap string string).
Context (Hds : Forall2 (λ f d, fs !! f = Some d) fls datas).
Context (Hnames :
  ∀ f m r, f ∈ fls → (0 ≤ m)%Z → (0 ≤ r)%Z → f ≠ reduceName job m r).
Context (Hwords : ∀ w, w ∈ all_words datas → utf8_ValidString w = true).

Lemma job_valid (mapF : string → string → list KeyValue) :
  (∀ f d w, values_of w (mapF f d) = [] ↔ w ∉ words d) →
  (∀ f d kv, f ∈ fls → d ∈ datas → kv ∈ mapF f d →
     utf8_ValidString (Value kv) = true) →
  Forall (Forall kv_valid) (zip_with mapF fls datas).
Proof.
  intros Hm Hv. apply Forall_forall. intros kvs [j Hj]%list_elem_of_lookup.
  apply lookup_zip_with_Some in Hj as (f & d & -> & Hf & Hd).
  apply Forall_forall. intros kv Hkv.
  apply list_elem_of_lookup_2 in Hf, Hd. split; [|by eapply Hv].
  apply Hwords. unfold all_words.
  assert (Key kv ∈ words d) as Hk.
  { apply dec_stable. intros Hk. apply (Hm f d) in Hk.
    apply (list_elem_of_fmap_2 Key) in Hkv. by apply elem_of_keys in Hkv. }
  apply list_elem_of_In, in_concat. exists (words d).
  split; apply list_elem_of_In; [by apply list_elem_of_fmap_2|done].
Qed.

(** The job of wc.go: what the map function gives can be written as JSON, the
    reduce function counts, and the reference result is [wc_output]. *)
Lemma wc_job :
  (∀ n, (0 ≤ n)%Z → utf8_ValidString (Itoa n) = true) →
  (∀ w, w ∈ all_words datas → (occurrences w (all_words datas) ≤ int_max)%Z) →
  let kvss := zip_with wc_mapF fls datas in
  let out := λ w, Itoa (occurrences w (all_words datas)) in
  Forall (Forall kv_valid) kvss ∧
  (∀ k, k ∈ Key <$> concat kvss →
     wc_reduceF k (values_of k (concat kvss)) = Ok (out k) ∧ utf8_ValidString (out k) = true) ∧
  job_output out (concat kvss) = wc_output datas.
Proof.
  intros Hdig Hmax kvss out. subst kvss out. pose proof (Forall2_length _ _ _ Hds) as Hlen.
  assert (∀ f d w, values_of w (wc_mapF f d) = [] ↔ w ∉ words d) as Hm.
  { intros f d w. rewrite wc_values. case_decide; naive_solver. }
  split_and!.
  - apply job_valid; [done|]. intros f d kv _ _.
    unfold wc_mapF. intros ([k v] & -> & Hkv)%list_elem_of_fmap. simpl.
    apply Hdig. rewrite range_perm in Hkv. apply elem_of_map_to_list in Hkv.
    rewrite tally_lookup in Hkv. case_decide; simplify_eq.
    apply occurrences_nonneg.
  - intros w Hw. apply (job_keys wc_mapF) in Hw; [|done..].
    split; [|apply Hdig, occurrences_nonneg].
    unfold wc_reduceF. by rewrite wc_total by (done || by apply Hmax).
  - by apply job_output_words.
Qed.

(** Word count counts words: the output file of a sequential run of wc.go
    holds one line for every word that occurs in some input file, in
    alphabetical order, with the number of its occurrences in all the files
    together, as long as that number fits in an [int]; the order in which Go
    iterates over the maps does not matter. *)
Theorem wc_correct :
  (∀ n, (0 ≤ n)%Z → utf8_ValidString (Itoa n) = true) →
  (∀ w, w ∈ all_words datas → (occurrences w (all_words datas) ≤ int_max)%Z) →
  ∃ mr fs',
    Sequential can_create job fls R wc_mapF wc_reduceF fs = Ok (mr, fs') ∧
    fs' !! ("mrtmp." +:+ job) = Some (wc_output datas).
Proof.
  intros Hdig Hmax. destruct (wc_job Hdig Hmax) as (Hv & Hred & Hjo).
  destruct (Sequential_ok can_create Hcreate job R HR wc_mapF wc_reduceF
    (λ w, Itoa (occurrences w (all_words datas))) fls datas fs Hds Hnames Hv Hred)
    as (mr & fs' & Hs & Hout & _).
  exists mr, fs'. split; [done|]. by rewrite Hout, Hjo.
Qed.

(** The inverted index lists the files: the output file of a sequential
    run of ii.go holds one line for every word that occurs in some input
    file, in alphabetical order, with the number of files the word occurs in
    and their names in the order of the input. *)
Theorem ii_correct :
  (∀ f, f ∈ fls → utf8_ValidString f = true) →
  (∀ w, w ∈ all_words datas →
     utf8_ValidString (Itoa (zlen (files_with w fls datas)) +:+ " " +:+
       Join (files_with w fls datas) ",") = true) →
  ∃ mr fs',
    Sequential can_create job fls R ii_mapF ii_reduceF fs = Ok (mr, fs') ∧
    fs' !! ("mrtmp." +:+ job) = Some (ii_output fls datas).
Proof.
  intros Hf Hj. pose proof (Forall2_length _ _ _ Hds) as Hlen.
  assert (∀ f d w, values_of w (ii_mapF f d) = [] ↔ w ∉ words d) as Hm.
  { intros f d w. rewrite ii_values. case_decide; naive_solver. }
  destruct (Sequential_ok can_create Hcreate job R HR ii_mapF ii_reduceF
    (λ w, Itoa (zlen (files_with w fls datas)) +:+ " " +:+
          Join (files_with w fls datas) ",") fls datas fs Hds Hnames)
    as (mr & fs' & Hs & Hout & _).
  - apply job_valid; [done|]. intros f d kv Hf' _.
    unfold ii_mapF. intros ([k v] & -> & Hkv)%list_elem_of_fmap. by apply Hf.
  - intros w Hw. apply (job_keys ii_mapF) in Hw; [|done..].
    split; [|by apply Hj]. unfold ii_reduceF. by rewrite ii_files.
  - exists mr, fs'. split; [done|]. rewrite Hout. f_equal.
    by apply job_output_words.
Qed.
End apps.

(** ** Runs *)

Definition ascii_letter (r : Z) : bool := in_range 65 90 r || in_range 97 122 r.

Definition app_fs : gmap string string :=
  {["f1" := "to be, or not to be"; "f2" := "to do"]}.

Lemma digits_ascii s : all_digits s = true → is_ascii s = true.
Proof.
  induction s as [|c s IH]; [done|]. cbn [all_digits is_ascii].
  intros [Hc Hs]%andb_true_iff. rewrite (IH Hs), andb_true_r.
  unfold is_digit, digit_value in Hc. apply Nat.ltb_lt.
  destruct (Z.leb_spec 48 (Z.of_nat (nat_of_ascii c)));
    destruct (Z.leb_spec (Z.of_nat (nat_of_ascii c)) 57); simpl in Hc;
    try done; lia.
Qed.

Lemma app_files_ok :
  Forall2 (λ f d, app_fs !! f = Some d) ["f1"; "f2"]
    ["to be, or not to be"; "to do"].
Proof. repeat constructor. Qed.

Lemma app_names_ok f m r :
  f ∈ ["f1"; "f2"] → (0 ≤ m)%Z → (0 ≤ r)%Z → f ≠ reduceName "j" m r.
Proof.
  intros Hf _ _. apply not_reduceName.
  repeat (apply elem_of_cons in Hf as [->|Hf]; [cbn; lia|]). set_solver.
Qed.

(** A property of every word of the two files. *)
Lemma app_words (P : string → Prop) :
  Forall P ["to"; "be"; "or"; "not"; "do"] →
  ∀ w, w ∈ all_words ascii_letter ["to be, or not to be"; "to do"] → P w.
Proof.
  intros HP w Hw. rewrite Forall_forall in HP. apply HP.
  assert (all_words ascii_letter ["to be, or not to be"; "to do"] =
    ["to"; "be"; "or"; "not"; "to"; "be"; "to"; "do"]) as Heq by (by vm_compute).
  rewrite Heq in Hw. set_solver.
Qed.

Lemma wc_correct_witness :
  ∃ mr fs',
    Sequential (λ _, true) "j" ["f1"; "f2"] 3 (wc_mapF ascii_letter map_to_list)
      wc_reduceF app_fs = Ok (mr, fs') ∧
    fs' !! "mrtmp.j" =
      Some (output_line "be" "2" +:+ output_line "do" "1" +:+
            output_line "not" "1" +:+ output_line "or" "1" +:+
            output_line "to" "3").
Proof.
  apply (wc_correct ascii_letter map_to_list (λ _, reflexivity _)
    (laws:=demo_json_laws) (λ _, true) (λ _, eq_refl) "j" 3 ltac:(lia)
    ["f1"; "f2"] ["to be, or not to be"; "to do"] app_fs app_files_ok
    app_names_ok).
  - apply app_words. repeat constructor.
  - intros n Hn. by apply digits_ascii, Itoa_digits.
  - apply app_words. repeat constructor; by vm_compute.
Defined.

Lemma ii_correct_witness :
  ∃ mr fs',
    Sequential (λ _, true) "j" ["f1"; "f2"] 3 (ii_mapF ascii_letter map_to_list)
      ii_reduceF app_fs = Ok (mr, fs') ∧
    fs' !! "mrtmp.j" =
      Some (output_line "be" "1 f1" +:+ output_line "do" "1 f2" +:+
            output_line "not" "1 f1" +:+ output_line "or" "1 f1" +:+
            output_line "to" "2 f1,f2").
Proof.
  apply (ii_correct ascii_letter map_to_list (λ _, reflexivity _)
    (laws:=demo_json_laws) (λ _, true) (λ _, eq_refl) "j" 3 ltac:(lia)
    ["f1"; "f2"] ["to be, or not to be"; "to do"] app_fs app_files_ok
    app_names_ok).
  - apply app_words. repeat constructor.
  - intros f Hf.
    repeat (apply elem_of_cons in Hf as [->|Hf]; [done|]). set_solver.
  - apply app_words. repeat constructor; by vm_compute.
Defined.
