(* ===== verification/MRWorker.v ===== *)
(** * Workers and the distributed master: mapreduce/worker.go, common_rpc.go
    (call), master.go (Register, killWorkers)

    A worker accepts connections in a loop and serves each in a goroutine of
    its own.  The loop's steps are those between which the worker's lock is
    free, so that a [Shutdown] call can come in between. *)

From S2P Require Import Prelude GoBase GoStrings MapReduce MRSchedule.

Section worker.
Context `{Json} (can_create : string → bool).

Record Worker := mkWorker {
  wk_name : string;
  wk_Map : string → string → list KeyValue;
  wk_Reduce : string → list string → result string;
  nRPC : Z;
  nTasks : Z;
}.

Definition set_counters (rpc tasks : Z) (wk : Worker) : Worker :=
  mkWorker (wk_name wk) (wk_Map wk) (wk_Reduce wk) rpc tasks.

(** [Worker.DoTask]. *)
Definition DoTask (arg : DoTaskArgs) (wk : Worker) (fs : gmap string string)
    : result (gmap string string) :=
  match Phase arg with
  | mapPhase =>
      doMap can_create (JobName arg) (TaskNumber arg) (File arg)
        (NumOtherPhase arg) (wk_Map wk) fs
  | reducePhase =>
      doReduce can_create (JobName arg) (TaskNumber arg) (NumOtherPhase arg)
        (wk_Reduce wk) fs
  end.

(** [Worker.Shutdown]. *)
Definition Worker_Shutdown (wk : Worker) : Worker * ShutdownReply :=
  let res := mkShutdownReply (nTasks wk) in
  (set_counters 1 (nTasks wk - 1) wk, res).

(** [RunWorker]: the worker before its loop. *)
Definition RunWorker (me : string) (MapFunc : string → string → list KeyValue)
    (ReduceFunc : string → list string → result string) (n : Z) : Worker :=
  mkWorker me MapFunc ReduceFunc n 0.

(** Where the loop of [RunWorker] is: testing [nRPC], in [Accept], about to
    count the task, done. *)
Inductive wloop := LCheck | LAccept | LCount | LExit.

(** [accepted] counts the connections, [shut] tells whether [Shutdown] ran. *)
Record wstate := mkW {
  wk : Worker;
  pc : wloop;
  accepted : Z;
  shut : bool;
}.

Inductive waction :=
| WCheck
| WAccept (err : bool)
| WCount
| WShutdown.

Definition wstep (a : waction) (s : wstate) : option wstate :=
  match a, pc s with
  | WCheck, LCheck =>
      Some (mkW (wk s) (if Z.eqb (nRPC (wk s)) 0 then LExit else LAccept)
              (accepted s) (shut s))
  | WAccept err, LAccept =>
      if (err : bool) then Some (mkW (wk s) LExit (accepted s) (shut s))
      else
        Some (mkW (set_counters (nRPC (wk s) - 1) (nTasks (wk s)) (wk s)) LCount
                (accepted s + 1) (shut s))
  | WCount, LCount =>
      Some (mkW (set_counters (nRPC (wk s)) (nTasks (wk s) + 1) (wk s)) LCheck
              (accepted s) (shut s))
  | WShutdown, _ =>
      Some (mkW (Worker_Shutdown (wk s)).1 (pc s) (accepted s) true)
  | _, _ => None
  end.

Fixpoint wexec (tr : list waction) (s : wstate) : option wstate :=
  match tr with
  | [] => Some s
  | a :: tr => s ← wstep a s; wexec tr s
  end.

Definition wstart (w : Worker) : wstate := mkW w LCheck 0 false.

(** How many calls of [Shutdown] a run has. *)
Fixpoint shutdowns (tr : list waction) : Z :=
  match tr with
  | [] => 0
  | WShutdown :: tr => 1 + shutdowns tr
  | _ :: tr => shutdowns tr
  end.

Lemma shutdowns_nonneg tr : (0 ≤ shutdowns tr)%Z.
Proof. induction tr as [|[] tr IH]; simpl; lia. Qed.

Lemma shutdowns_app tr1 tr2 : shutdowns (tr1 ++ tr2) = (shutdowns tr1 + shutdowns tr2)%Z.
Proof. induction tr1 as [|[] tr1 IH]; simpl; lia. Qed.

Lemma wexec_app tr1 tr2 s : wexec (tr1 ++ tr2) s = wexec tr1 s ≫= wexec tr2.
Proof.
  revert s. induction tr1 as [|a tr1 IH]; intros s; [done|]. simpl.
  destruct (wstep a s); simpl; [apply IH|done].
Qed.

(** The connection accepted last is not counted yet. *)
Definition uncounted (s : wstate) : Z :=
  match pc s with LCount => 1 | _ => 0 end.

(** The worker may accept [b] connections in all, and was shut down [k] times. *)
Record worker_inv (b k : Z) (s : wstate) : Prop := {
  wi_rpc : nRPC (wk s) = (b - accepted s)%Z;
  wi_tasks : nTasks (wk s) = (accepted s - uncounted s - k)%Z;
  wi_pos : pc s = LAccept → nRPC (wk s) ≠ 0%Z;
}.

(** A step of the loop. *)
Lemma worker_inv_loop b k a s s' :
  a ≠ WShutdown → worker_inv b k s → wstep a s = Some s' →
  worker_inv b k s' ∧ (accepted s ≤ b → accepted s' ≤ b)%Z ∧ (accepted s ≤ accepted s')%Z.
Proof.
  intros Ha [Hr Ht Hp] Hs. destruct a, (pc s) eqn:Hpc; simpl in Hs; rewrite Hpc in Hs;
    try discriminate; try done; unfold uncounted in Ht; rewrite Hpc in Ht.
  - injection Hs as <-. destruct (Z.eqb_spec (nRPC (wk s)) 0);
      (split; [split; unfold uncounted; simpl; try done; lia|simpl; lia]).
  - specialize (Hp eq_refl). destruct err; injection Hs as <-;
      (split; [split; unfold uncounted; simpl; try done; lia|simpl; lia]).
  - injection Hs as <-. split; [split; unfold uncounted; simpl; try done; lia|simpl; lia].
Qed.

(** [Shutdown] leaves the worker one more connection. *)
Lemma worker_inv_shutdown b k s s' :
  worker_inv b k s → wstep WShutdown s = Some s' →
  worker_inv (accepted s + 1) (k + 1) s' ∧ accepted s' = accepted s.
Proof.
  intros [Hr Ht Hp] [= <-]. split; [|done]. split; unfold uncounted in *; simpl; [lia|lia|done].
Qed.

Lemma worker_inv_exec tr : ∀ b k s s',
  worker_inv b k s → wexec tr s = Some s' →
  ∃ b', worker_inv b' (k + shutdowns tr) s' ∧ (accepted s ≤ accepted s')%Z ∧
    (accepted s ≤ b → accepted s' ≤ b' ∧ b' ≤ b + shutdowns tr)%Z ∧
    (shutdowns tr = 0%Z → b' = b).
Proof.
  induction tr as [|a tr IH]; intros b k s s' Hi Hs; simpl in Hs.
  { injection Hs as <-. exists b. simpl. rewrite Z.add_0_r. split; [done|]. lia. }
  apply bind_Some in Hs as (s1 & H1 & Hs).
  assert (a = WShutdown ∨ a ≠ WShutdown) as [->|Ha] by (destruct a; by (left + right)).
  - destruct (worker_inv_shutdown _ _ _ _ Hi H1) as [Hi1 Hacc].
    destruct (IH _ _ _ _ Hi1 Hs) as (b' & Hi' & Hle & Hb & _). exists b'. simpl.
    pose proof (shutdowns_nonneg tr). split; [by rewrite Z.add_assoc|]. lia.
  - destruct (worker_inv_loop _ _ _ _ _ Ha Hi H1) as (Hi1 & Hb1 & Hle1).
    destruct (IH _ _ _ _ Hi1 Hs) as (b' & Hi' & Hle & Hb & Heq). exists b'.
    destruct a; try done; simpl; (split; [done|]); lia.
Qed.

Lemma worker_inv_start me mf rf n : worker_inv n 0 (wstart (RunWorker me mf rf n)).
Proof. split; unfold uncounted; simpl; lia || done. Qed.

(** The loop is about to end because the budget is used up. *)
Definition leaves (s : wstate) : Prop :=
  wstep WCheck s = Some (mkW (wk s) LExit (accepted s) (shut s)).

Lemma leaves_spent s : leaves s → nRPC (wk s) = 0%Z ∧ uncounted s = 0%Z.
Proof.
  unfold leaves, uncounted. simpl. destruct (pc s); try done.
  destruct (Z.eqb_spec (nRPC (wk s)) 0); by simplify_eq.
Qed.

(** C40. What a worker started for [n] RPCs accepts, in every interleaving of its
    loop with calls of [Shutdown].  If [n] is not negative it accepts at most [n]
    connections and one more for each [Shutdown], which resets its budget to one;
    the task counter is the number of connections, without the one that is not
    counted yet and without those of [Shutdown]; a worker that was not shut down
    leaves its loop without an error of [Accept] only after exactly [n]
    connections, and then replies [n] to a [Shutdown]; and for every [n], after the
    last [Shutdown], made in state [s1], at most one more connection is accepted,
    and exactly one if the loop ends without an error of [Accept]. *)
Theorem worker_budget me mf rf (n : Z) tr s :
  wexec tr (wstart (RunWorker me mf rf n)) = Some s →
  (0 ≤ n → accepted s ≤ n + shutdowns tr)%Z ∧
  nTasks (wk s) = (accepted s - uncounted s - shutdowns tr)%Z ∧
  (shutdowns tr = 0%Z → leaves s →
     accepted s = n ∧ Ntasks (Worker_Shutdown (wk s)).2 = n) ∧
  ∀ tr1 tr2 s1, tr = tr1 ++ WShutdown :: tr2 → shutdowns tr2 = 0%Z →
    wexec tr1 (wstart (RunWorker me mf rf n)) = Some s1 →
    (accepted s1 ≤ accepted s ≤ accepted s1 + 1)%Z ∧
    (leaves s → accepted s = accepted s1 + 1)%Z.
Proof.
  intros Hs. pose proof (worker_inv_start me mf rf n) as Hi.
  destruct (worker_inv_exec _ _ _ _ _ Hi Hs) as (b & [Hr Ht _] & _ & Hb & Heq). simpl in *.
  split_and!; [lia|lia| |].
  - intros H0 [Hz Hu]%leaves_spent. specialize (Heq H0). lia.
  - intros tr1 tr2 s1 -> H0 H1. rewrite wexec_app, H1 in Hs. simpl in Hs.
    destruct (worker_inv_exec _ _ _ _ _ Hi H1) as (b1 & Hi1 & _).
    destruct (worker_inv_shutdown _ _ _ _ Hi1 eq_refl) as [Hi2 Hacc].
    destruct (worker_inv_exec _ _ _ _ _ Hi2 Hs) as (b2 & [Hr2 _ _] & Hle & Hb2 & Heq2).
    specialize (Heq2 H0). simpl in *. split; [lia|]. intros [Hz _]%leaves_spent. lia.
Qed.

(** [Shutdown] does count its own RPC: a worker that has done [k] tasks
    and then counts the connection of the [Shutdown] call replies [k + 1],
    and its counter only drops back to [k] after the reply was taken; its
    loop then ends after exactly one more connection. *)
Theorem Shutdown_counts_itself (w : Worker) (k : Z) :
  nTasks w = k → nRPC w ≠ 0%Z →
  ∃ s1, wexec [WCheck; WAccept false; WCount] (wstart w) = Some s1 ∧
    let '(w', res) := Worker_Shutdown (wk s1) in
    Ntasks res = (k + 1)%Z ∧ nTasks w' = k ∧
    ∃ s2, wexec [WShutdown; WCheck; WAccept false; WCount; WCheck] s1 = Some s2 ∧
      pc s2 = LExit.
Proof.
  intros Hk Hr. unfold wstart. simpl.
  destruct (Z.eqb_spec (nRPC w) 0); [done|]. simpl.
  eexists. split; [done|]. simpl. split; [lia|]. split; [lia|].
  eexists. split; [done|]. done.
Qed.

(** ** The master's side *)

(** [call]: the RPC fails when the server cannot be dialled or the call
    returns an error. *)
Definition call {A} (dial : bool) (rpc : option A) : option A :=
  if dial then rpc else None.

(** [Worker.register]: what it prints when the RPC to the master fails. *)
Definition register (rpc : string → string → RegisterArgs → option unit) (master : string)
    (wk : Worker) : list string :=
  match rpc master "Master.Register" (mkRegister (wk_name wk)) with
  | Some _ => []
  | None => ["Register: RPC " +:+ master +:+ " register error"]
  end.

(** [Register] without the scheduler's channel. *)
Definition Register (args : RegisterArgs) (mr : Master) : Master :=
  mkMaster (address mr) (workers mr ++ [RegWorker args]) (jobName mr)
    (files mr) (nReduce mr) (stats mr) (done mr).

(** [killWorkers]: [reply w] is the answer of worker [w] to the [Shutdown]
    RPC, [None] when the RPC fails. *)
Fixpoint killWorkers_loop (reply : string → option ShutdownReply)
    (ws : list string) (ntasks : list Z) : list Z :=
  match ws with
  | [] => ntasks
  | w :: ws =>
      match reply w with
      | None => killWorkers_loop reply ws ntasks
      | Some r => killWorkers_loop reply ws (ntasks ++ [Ntasks r])
      end
  end.

Definition killWorkers (reply : string → option ShutdownReply) (mr : Master)
    : list Z :=
  killWorkers_loop reply (workers mr) [].

Lemma killWorkers_loop_omap reply ws ntasks :
  killWorkers_loop reply ws ntasks = ntasks ++ omap (λ w, Ntasks <$> reply w) ws.
Proof.
  revert ntasks. induction ws as [|w ws IH]; intros ntasks; simpl.
  - by rewrite app_nil_r.
  - destruct (reply w); simpl; rewrite IH; [|done].
    by rewrite <-(assoc_L (++)).
Qed.
End worker.

(** A worker with a budget of two is shut down by its second connection. *)
Definition shut_run : list waction :=
  [WCheck; WAccept false; WCount; WCheck; WAccept false; WCount].
Definition last_turn : list waction := [WCheck; WAccept false; WCount].
Definition shut_worker (rpc tasks : Z) : Worker :=
  mkWorker "w" (λ _ _, []) (λ _ _, Fatal) rpc tasks.

Lemma worker_budget_witness :
  wexec (shut_run ++ WShutdown :: last_turn) (wstart (shut_worker 2 0)) =
    Some (mkW (shut_worker 0 2) LCheck 3 true) ∧ (3 = 2 + 1)%Z.
Proof.
  assert (wexec (shut_run ++ WShutdown :: last_turn) (wstart (shut_worker 2 0)) =
    Some (mkW (shut_worker 0 2) LCheck 3 true)) as Hx by (by vm_compute).
  split; [exact Hx|].
  destruct (worker_budget "w" (λ _ _, []) (λ _ _, Fatal) 2 _ _ Hx) as (_ & _ & _ & Hl).
  apply (Hl shut_run last_turn (mkW (shut_worker 0 2) LCheck 2 false));
    [done|by vm_compute|by vm_compute|by vm_compute].
Defined.

Lemma Shutdown_counts_itself_witness :
  ∃ s1, wexec [WCheck; WAccept false; WCount]
          (wstart (mkWorker "w" (λ _ _, []) (λ _ _, Fatal) 100 7)) = Some s1 ∧
    Ntasks (Worker_Shutdown (wk s1)).2 = 8%Z.
Proof.
  destruct (Shutdown_counts_itself (mkWorker "w" (λ _ _, []) (λ _ _, Fatal) 100 7)
    7 eq_refl ltac:(done)) as (s1 & Hs & Hr & _).
  by exists s1.
Defined.
