(* ===== verification/MRDistributed.v ===== *)
(** * A distributed job: mapreduce/master.go (Distributed), schedule.go,
    worker.go, master_rpc.go

    The scheduler of MRSchedule.v with workers that run the tasks of
    MapReduce.v on the shared file system.  A successful [DoTask] call has run
    its task.  A failed one may have left anything in the files of its task,
    since the worker can have died at any point or its answer been lost.  Two
    limits: a failed call touches no file afterwards, so runs in which a worker
    that the master has given up goes on writing while another one repeats its
    task are not modelled; and a task runs in one step, at its call's return: the
    tasks of a phase write different files and read none that another task of the
    phase writes. *)

From S2P Require Import Prelude GoBase GoStrings MapReduce MapReduceNames MapReduceCorrect MapReduceDemo MRSchedule MRWorker.

Section distributed.
Context `{Json} (can_create : string → bool).
Implicit Types fs : gmap string string.

(** ** The files of a task *)

Definition task_files (arg : DoTaskArgs) : list string :=
  match Phase arg with
  | mapPhase =>
      (λ r, reduceName (JobName arg) (TaskNumber arg) r) <$> upto (NumOtherPhase arg)
  | reducePhase => [mergeName (JobName arg) (TaskNumber arg)]
  end.

(** The files [names] hold what [damage] says. *)
Definition overwrite (names : list string) (damage fs : gmap string string)
    : gmap string string :=
  fold_left (λ fs n, match damage !! n with
                     | Some d => <[n := d]> fs
                     | None => delete n fs
                     end) names fs.

(** ** A phase *)

Section phase.
Context (mr : Master) (phase : jobPhase) (wk : Worker).

(** Steps of the scheduler; a task whose call succeeds; a task whose call
    fails, with what it leaves in its files. *)
Inductive daction :=
| DSched (a : sstep)
| DDone (g : nat)
| DFail (g : nat) (damage : gmap string string).

Definition dstep (a : daction) (st : sched * gmap string string)
    : result (sched * gmap string string) :=
  let '(s, fs) := st in
  match a with
  | DSched (SCall _ _) => Blocked
  | DSched a => rbind (sched_step mr phase a s) (λ s, Ok (s, fs))
  | DDone g =>
      match gors s !! g with
      | Some (GCall _ args _) =>
          rbind (DoTask can_create args wk fs) (λ fs,
          rbind (sched_step mr phase (SCall g true) s) (λ s, Ok (s, fs)))
      | _ => Blocked
      end
  | DFail g damage =>
      match gors s !! g with
      | Some (GCall _ args _) =>
          rbind (sched_step mr phase (SCall g false) s) (λ s,
          Ok (s, overwrite (task_files args) damage fs))
      | _ => Blocked
      end
  end.

(** [mr.schedule(phase)] with the workers [waiting]: it has returned. *)
Definition schedule_run (waiting : list string) (tr : list daction) fs : result (gmap string string) :=
  rbind (schedule_start mr phase waiting) (λ s,
  rbind (rfor dstep tr (s, fs)) (λ '(s, fs), if returned s then Ok fs else Blocked)).

(** *** What a phase achieves *)

(** When the phase has returned all tasks are done. *)
Lemma all_tasks_done s t :
  sched_inv mr phase s → returned s = true → (Z.of_nat t < ntasks mr phase)%Z → t ∈ done_tasks s.
Proof.
  intros [Htasks _ Hw _ _ Hd] Hret Ht. destruct (Hd Hret) as [Hnext Hwg].
  rewrite Hnext in Htasks.
  assert (length (done_tasks s) = Z.to_nat (ntasks mr phase)) as Hlen.
  { unfold done_tasks. rewrite length_fmap. unfold zlen in Hw. lia. }
  assert (gors s = []) as Hg.
  { apply Permutation_length in Htasks.
    rewrite length_app, length_fmap, length_seq in Htasks. apply nil_length_inv. lia. }
  rewrite Hg in Htasks. simpl in Htasks. rewrite Htasks. apply elem_of_seq. lia.
Qed.

Lemma start_sched_inv waiting s : schedule_start mr phase waiting = Ok s → sched_inv mr phase s.
Proof. intros Hs. exact (sched_reachable_inv _ _ _ _ (sr_start _ _ waiting s Hs)). Qed.

Lemma dstep_sched_inv a st st' :
  sched_inv mr phase st.1 → dstep a st = Ok st' → sched_inv mr phase st'.1.
Proof.
  destruct st as [s fs]. intros Hsi Ha. destruct a as [a|g|g damage]; cbn [dstep] in Ha.
  - destruct a; try done; apply rbind_Ok in Ha as (s' & Hs & [= <-]);
      by eapply sched_inv_step.
  - destruct (gors s !! g) as [[]|]; try done. apply rbind_Ok in Ha as (fs' & _ & Ha).
    apply rbind_Ok in Ha as (s' & Hs & [= <-]). by eapply sched_inv_step.
  - destruct (gors s !! g) as [[]|]; try done. apply rbind_Ok in Ha as (s' & Hs & [= <-]).
    by eapply sched_inv_step.
Qed.

(** A phase that returns has found the arguments of every task. *)
Lemma schedule_run_args waiting tr fs fs' t :
  schedule_run waiting tr fs = Ok fs' → (Z.of_nat t < ntasks mr phase)%Z →
  ∃ args, execute_args mr phase t = Ok args.
Proof.
  unfold schedule_run. intros (s0 & H0 & ([s fs1] & Hx & Hr)%rbind_Ok)%rbind_Ok Ht.
  destruct (returned s) eqn:Hret; [|done].
  assert (sched_inv mr phase s) as Hsi.
  { change s with ((s, fs1).1).
    eapply (rfor_inv (λ st, sched_inv mr phase st.1)); [| |exact Hx].
    - intros a st st' _. apply dstep_sched_inv.
    - by eapply start_sched_inv. }
  pose proof (all_tasks_done s t Hsi Hret Ht) as ([[w args] t'] & -> & Hin)%list_elem_of_fmap.
  exists args. by eapply si_args.
Qed.

(** [good t fs]: the files of task [t] are right; [base fs]: so is what the
    tasks read. *)
Context (good : nat → gmap string string → Prop) (base : gmap string string → Prop).
Context (Hexec : ∀ t args fs fs', execute_args mr phase t = Ok args →
  (Z.of_nat t < ntasks mr phase)%Z → base fs →
  DoTask can_create args wk fs = Ok fs' →
  good t fs' ∧ ∀ n, n ∉ task_files args → fs' !! n = fs !! n).
Context (Hgood : ∀ t args fs fs', execute_args mr phase t = Ok args →
  (∀ n, n ∈ task_files args → fs' !! n = fs !! n) → good t fs → good t fs').
Context (Hdisj : ∀ t t' args args' n, execute_args mr phase t = Ok args →
  execute_args mr phase t' = Ok args' → t ≠ t' → n ∈ task_files args → n ∉ task_files args').
Context (Hbase : ∀ fs fs', base fs →
  (∀ n, (∀ t args, execute_args mr phase t = Ok args → n ∉ task_files args) →
     fs' !! n = fs !! n) → base fs').

Definition phase_inv (st : sched * gmap string string) : Prop :=
  sched_inv mr phase st.1 ∧ base st.2 ∧
  ∀ t, t ∈ done_tasks st.1 → good t st.2.

Lemma overwrite_other names damage fs n :
  n ∉ names → overwrite names damage fs !! n = fs !! n.
Proof.
  revert fs. induction names as [|m names IH]; intros fs Hn; [done|].
  apply not_elem_of_cons in Hn as [Hne Hn]. cbn [overwrite fold_left].
  change (fold_left _ names ?f) with (overwrite names damage f). rewrite IH by done.
  destruct (damage !! m); [by rewrite lookup_insert_ne|by rewrite lookup_delete_ne].
Qed.

(** Only the files of a running task change: the finished tasks keep theirs. *)
Lemma other_tasks_keep s fs fs' g w args t :
  phase_inv (s, fs) → gors s !! g = Some (GCall w args t) →
  (∀ n, n ∉ task_files args → fs' !! n = fs !! n) →
  base fs' ∧ (∀ t', t' ∈ done_tasks s → good t' fs').
Proof using Hbase Hdisj Hgood.
  intros (Hinv & Hb & Hdone) Hg Hout. pose proof Hinv as [Ht _ _ Ha Hc _]. simpl in *.
  pose proof (Hc _ _ _ (list_elem_of_lookup_2 _ _ _ Hg)) as Hargs. split.
  - eapply Hbase; [exact Hb|]. intros n Hn. apply Hout. by eapply Hn.
  - intros t' Ht'. assert (t ≠ t') as Hne.
    { intros <-. assert (NoDup ((gor_task <$> gors s) ++ done_tasks s)) as Hnd.
      { rewrite Ht. apply NoDup_seq. }
      apply list.NoDup_app in Hnd as (_ & Hd & _). apply (Hd t); [|done].
      apply list_elem_of_fmap. exists (GCall w args t). split; [done|].
      by eapply list_elem_of_lookup_2. }
    unfold done_tasks in Ht'. apply list_elem_of_fmap in Ht' as ([[w' args'] t''] & -> & Hin).
    simpl in *. pose proof (Ha _ _ _ Hin) as Hargs'.
    eapply Hgood; [exact Hargs'| |apply Hdone, list_elem_of_fmap; by exists (w', args', t'')].
    intros n Hn. apply Hout. intros Hn'. by eapply (Hdisj t t'').
Qed.

Lemma phase_inv_step a st st' : phase_inv st → dstep a st = Ok st' → phase_inv st'.
Proof using Hbase Hdisj Hexec Hgood.
  destruct st as [s fs]. intros Hinv Hs. pose proof Hinv as (Hsi & Hb & Hdone).
  cbn [fst snd] in Hsi, Hb, Hdone.
  destruct a as [a|g|g damage]; cbn [dstep] in Hs.
  - destruct a as [w|k|g|g ok|g k|]; try done; apply rbind_Ok in Hs as (s' & Hs & [= <-]);
      pose proof (sched_inv_step _ _ _ _ _ Hsi Hs) as Hsi'; (split; [done|split; [done|]]);
      simpl in *; unfold done_tasks in *;
      repeat (case_match; try done); run_result; subst; done.
  - destruct (gors s !! g) as [[|w args t|]|] eqn:Hg; try done.
    apply rbind_Ok in Hs as (fs' & Hd & Hs). apply rbind_Ok in Hs as (s' & Hs & [= <-]).
    pose proof (sched_inv_step _ _ _ _ _ Hsi Hs) as Hsi'.
    pose proof (si_calls _ _ _ Hsi _ _ _ (list_elem_of_lookup_2 _ _ _ Hg)) as Hargs.
    assert (Z.of_nat t < ntasks mr phase)%Z as Hlt.
    { assert (t ∈ seq 0 (next s)) as Hin.
      { rewrite <-(si_tasks _ _ _ Hsi). apply elem_of_app. left.
        change t with (gor_task (GCall w args t)).
        by eapply list_elem_of_fmap_2, list_elem_of_lookup_2. }
      apply elem_of_seq in Hin. pose proof (si_next _ _ _ Hsi). lia. }
    destruct (Hexec _ _ _ _ Hargs Hlt Hb Hd) as [Ht Hout].
    destruct (other_tasks_keep s fs fs' g w args t Hinv Hg Hout) as [Hb' Hdone'].
    split; [done|]. split; [done|]. cbn [fst snd]. cbn [sched_step] in Hs. rewrite Hg in Hs.
    destruct (Z.ltb _ _); [done|]. injection Hs as <-. unfold done_tasks. simpl.
    rewrite fmap_app. simpl. intros t' [Hin|Heq%list_elem_of_singleton]%elem_of_app; [by apply Hdone'|].
    by subst t'.
  - destruct (gors s !! g) as [[|w args t|]|] eqn:Hg; try done.
    apply rbind_Ok in Hs as (s' & Hs & [= <-]).
    pose proof (sched_inv_step _ _ _ _ _ Hsi Hs) as Hsi'.
    destruct (other_tasks_keep s fs (overwrite (task_files args) damage fs) g w args t Hinv Hg)
      as [Hb' Hdone']; [intros n; apply overwrite_other|].
    split; [done|]. split; [done|]. cbn [fst snd]. cbn [sched_step] in Hs. rewrite Hg in Hs.
    injection Hs as <-. exact Hdone'.
Qed.

(** When [schedule] returns, the files of every task are right. *)
Lemma schedule_run_good waiting tr fs fs' :
  base fs → schedule_run waiting tr fs = Ok fs' →
  base fs' ∧ ∀ t, (Z.of_nat t < ntasks mr phase)%Z → good t fs'.
Proof using Hbase Hdisj Hexec Hgood.
  intros Hb Hr. unfold schedule_run in Hr.
  apply rbind_Ok in Hr as (s0 & H0 & Hr). apply rbind_Ok in Hr as ([s fs1] & Hx & Hr).
  destruct (returned s) eqn:Hret; [|done]. injection Hr as <-.
  assert (phase_inv (s, fs1)) as (Hsi & Hb' & Hdone).
  { eapply (rfor_inv phase_inv); [| |exact Hx].
    - intros a st st' _. apply phase_inv_step.
    - pose proof (start_sched_inv _ _ H0) as Hs0.
      split_and!; [done|done|]. unfold schedule_start in H0.
      destruct (Z.ltb _ 0); [done|]. injection H0 as <-. by intros t ?%elem_of_nil. }
  split; [done|]. intros t Ht. apply Hdone. by apply all_tasks_done.
Qed.
End phase.

(** ** The job *)

(** [Distributed]: the tasks of each phase are handed out as [w1], [tr1] and
    [w2], [tr2] say; [registered] are the workers that have called [Register]
    and [reply] their answers to [Shutdown]. *)
Definition Distributed (job : string) (fls : list string) (nreduce : Z) (master : string)
    (wk : Worker) (w1 : list string) (tr1 : list daction) (w2 : list string)
    (tr2 : list daction) (registered : list string)
    (reply : string → option ShutdownReply) fs
    : result (Master * gmap string string) :=
  run can_create job fls nreduce
    (λ phase mr fs,
      match phase with
      | mapPhase => schedule_run mr mapPhase wk w1 tr1 fs
      | reducePhase => schedule_run mr reducePhase wk w2 tr2 fs
      end)
    (λ mr,
      let mr := fold_left (λ mr w, Register (mkRegister w) mr) registered mr in
      mkMaster (address mr) (workers mr) (jobName mr) (files mr) (nReduce mr)
        (killWorkers reply mr) (done mr))
    (newMaster master) fs.
End distributed.

Section correct.
Context `{Json} {laws : JsonLaws} (can_create : string → bool).
Context (Hcreate : ∀ n, can_create n = true).
Context (job : string) (R : Z) (HR : (0 < R < 2 ^ 32)%Z).
Context (mapF : string → string → list KeyValue)
  (reduceF : string → list string → result string) (wk : Worker).
Context (Hmap : wk_Map wk = mapF) (Hred : wk_Reduce wk = reduceF).
Context (fls datas : list string) (out : string → string).
Let kvss := zip_with mapF fls datas.
Context (Hlen : length fls = length datas).
Context (Hne : ∀ f m r, f ∈ fls → (0 ≤ m)%Z → (0 ≤ r)%Z → f ≠ reduceName job m r).
Context (Hvalid : Forall (Forall kv_valid) kvss).
Context (Hout : ∀ k, k ∈ Key <$> concat kvss →
  reduceF k (values_of k (concat kvss)) = Ok (out k) ∧ utf8_ValidString (out k) = true).
Context (mr : Master) (Hjob : jobName mr = job) (Hfiles : files mr = fls)
  (Hn : nReduce mr = R).
Implicit Types fs : gmap string string.

Lemma execute_args_inv phase t args :
  execute_args mr phase t = Ok args →
  ∃ f, fls !! t = Some f ∧ args = mkDoTask job f phase (Z.of_nat t) (nios mr phase).
Proof using Hfiles Hjob.
  unfold execute_args. intros Ha. apply rbind_Ok in Ha as (f & Hf & [= <-]).
  apply oget_Ok in Hf; [|done]. rewrite zget_nat, Hfiles in Hf. exists f.
  by rewrite Hjob.
Qed.

Definition map_good (t : nat) fs : Prop :=
  ∀ f d r, fls !! t = Some f → datas !! t = Some d → (0 ≤ r < R)%Z →
    fs !! reduceName job (Z.of_nat t) r = Some (stream (part R r (mapF f d))).

Definition inputs fs : Prop := Forall2 (λ f d, fs !! f = Some d) fls datas.

Lemma map_files t f n :
  n ∈ task_files (mkDoTask job f mapPhase (Z.of_nat t) (nios mr mapPhase)) ↔
  ∃ r, (0 ≤ r < R)%Z ∧ n = reduceName job (Z.of_nat t) r.
Proof using Hn HR Hlen.
  unfold task_files. simpl. rewrite Hn, list_elem_of_fmap. unfold upto.
  setoid_rewrite list_elem_of_fmap. setoid_rewrite elem_of_seq. split.
  - intros (r & -> & k & -> & Hk). exists (Z.of_nat k). split; [lia|done].
  - intros (r & Hr & ->). exists r. split; [done|]. exists (Z.to_nat r). lia.
Qed.

Lemma map_phase_ok waiting tr fs fs' :
  inputs fs → schedule_run can_create mr mapPhase wk waiting tr fs = Ok fs' →
  ∀ t, t < length fls → map_good t fs'.
Proof using All.
  intros Hin Hr t Ht.
  eapply (schedule_run_good can_create mr mapPhase wk map_good inputs); [..|exact Hin|exact Hr|].
  - intros u args g g' (f & Hf & ->)%execute_args_inv _ Hb Hd.
    destruct (lookup_lt_is_Some_2 datas u) as [d Hd'].
    { rewrite <-Hlen. by eapply lookup_lt_Some. }
    pose proof (Forall2_lookup_lr _ _ _ _ _ _ Hb Hf Hd') as Hfile.
    cbn [DoTask Phase JobName TaskNumber File NumOtherPhase nios] in Hd.
    rewrite Hn, Hmap in Hd.
    destruct (doMap_ok can_create Hcreate job R HR (Z.of_nat u) f d mapF g)
      as (g2 & Hg2 & Hgood & Hother); [lia|done|].
    rewrite Hg2 in Hd. injection Hd as <-. split.
    + intros f' d' r Hf' Hd'' Hr'. rewrite Hf in Hf'. rewrite Hd' in Hd''.
      injection Hf' as <-. injection Hd'' as <-. by apply Hgood.
    + intros n Hno. apply Hother. intros r Hr' ->. apply Hno, map_files. by exists r.
  - intros u args g g' (f & Hf & ->)%execute_args_inv Heq Hg f' d r Hf' Hd Hr'.
    rewrite Heq; [by apply Hg|]. apply map_files. by exists r.
  - intros u u' args args' n (f & _ & ->)%execute_args_inv (f' & _ & ->)%execute_args_inv Hu.
    intros (r & Hr1 & ->)%map_files (r' & Hr2 & Heq)%map_files.
    apply reduceName_inj in Heq; lia.
  - intros g g' Hb Hout'. unfold inputs in *.
    apply Forall2_same_length_lookup in Hb as [_ Hl]. apply Forall2_same_length_lookup.
    split; [done|]. intros j f d Hf Hd. rewrite Hout'; [by eapply Hl|].
    intros u args (f' & _ & ->)%execute_args_inv (r & Hr' & ->)%map_files.
    eapply (Hne _ (Z.of_nat u) r); [by eapply list_elem_of_lookup_2|lia|lia|done].
  - unfold ntasks. rewrite Hfiles. unfold zlen. lia.
Qed.

Definition reduce_good (t : nat) fs : Prop :=
  fs !! mergeName job (Z.of_nat t) =
    Some (stream (reduced out (part R (Z.of_nat t) (concat kvss)))).

Definition intermediate fs : Prop :=
  ∀ (j : nat) kvs r, kvss !! j = Some kvs → (0 ≤ r < R)%Z →
    fs !! reduceName job (Z.of_nat j) r = Some (stream (part R r kvs)).

Lemma reduce_phase_ok waiting tr fs fs' :
  intermediate fs → schedule_run can_create mr reducePhase wk waiting tr fs = Ok fs' →
  ∀ t : nat, (Z.of_nat t < R)%Z → reduce_good t fs'.
Proof using All.
  intros Hin Hr t Ht.
  assert (zlen fls = zlen kvss) as Hzl.
  { unfold kvss, zlen. rewrite length_zip_with_l; [done|]. lia. }
  eapply (schedule_run_good can_create mr reducePhase wk reduce_good intermediate);
    [..|exact Hin|exact Hr|].
  - intros u args g g' (f & Hf & ->)%execute_args_inv Hu Hb Hd.
    unfold ntasks in Hu. rewrite Hn in Hu.
    cbn [DoTask Phase JobName TaskNumber File NumOtherPhase nios] in Hd.
    rewrite Hfiles, Hred, Hzl in Hd.
    rewrite (doReduce_part can_create Hcreate job R HR kvss out Hvalid reduceF (Z.of_nat u) g)
      in Hd; [|lia|naive_solver|done].
    injection Hd as <-. split.
    + unfold reduce_good. by rewrite lookup_insert_eq.
    + intros n Hno. rewrite lookup_insert_ne; [done|]. intros <-. apply Hno.
      by apply list_elem_of_singleton.
  - intros u args g g' (f & Hf & ->)%execute_args_inv Heq Hg. unfold reduce_good in *.
    rewrite Heq; [done|]. by apply list_elem_of_singleton.
  - intros u u' args args' n (f & _ & ->)%execute_args_inv (f' & _ & ->)%execute_args_inv Hu.
    unfold task_files. simpl. intros ->%list_elem_of_singleton Heq%list_elem_of_singleton.
    apply mergeName_inj in Heq. lia.
  - intros g g' Hb Hout' j kvs r Hj Hr'. rewrite Hout'; [by apply Hb|].
    intros u args (f' & _ & ->)%execute_args_inv Heq%list_elem_of_singleton.
    simpl in Heq. apply reduceName_mergeName in Heq; [done|lia].
  - unfold ntasks. rewrite Hn. lia.
Qed.
End correct.

Section job.
Context `{Json} (can_create : string → bool).
Context (Hcreate : ∀ n, can_create n = true).
Context (job : string) (R : Z) (HR : (0 < R < 2 ^ 32)%Z).
Implicit Types fs : gmap string string.

Lemma registered_same (ws : list string) mr :
  let mr' := fold_left (λ mr w, Register (mkRegister w) mr) ws mr in
  jobName mr' = jobName mr ∧ files mr' = files mr ∧ nReduce mr' = nReduce mr.
Proof.
  revert mr. induction ws as [|w ws IH]; intros mr; [done|]. simpl.
  destruct (IH (Register (mkRegister w) mr)) as (-> & -> & ->). done.
Qed.

(** If both phases return, the job ends with the reference result. *)
Lemma Distributed_runs {laws : JsonLaws} wk (out : string → string) fls datas fs
    master w1 tr1 w2 tr2 registered reply fs1 fs2 :
  let kvss := zip_with (wk_Map wk) fls datas in
  let mr := mkMaster master [] job fls R [] false in
  Forall2 (λ f d, fs !! f = Some d) fls datas →
  (∀ f m r, f ∈ fls → (0 ≤ m)%Z → (0 ≤ r)%Z → f ≠ reduceName job m r) →
  Forall (Forall kv_valid) kvss →
  (∀ k, k ∈ Key <$> concat kvss →
     wk_Reduce wk k (values_of k (concat kvss)) = Ok (out k) ∧
     utf8_ValidString (out k) = true) →
  schedule_run can_create mr mapPhase wk w1 tr1 fs = Ok fs1 →
  schedule_run can_create mr reducePhase wk w2 tr2 fs1 = Ok fs2 →
  ∃ mrd fsd,
    Distributed can_create job fls R master wk w1 tr1 w2 tr2 registered reply fs
      = Ok (mrd, fsd) ∧
    fsd !! ("mrtmp." +:+ job) = Some (job_output out (concat kvss)) ∧ done mrd = true.
Proof.
  intros kvss mr Hin Hne Hv Hout H1 H2. pose proof (Forall2_length _ _ _ Hin) as Hlen.
  pose proof (map_phase_ok can_create Hcreate job R HR (wk_Map wk) (wk_Reduce wk) wk eq_refl
    eq_refl fls datas out Hlen Hne Hv Hout mr eq_refl eq_refl eq_refl w1 tr1 fs fs1 Hin H1) as Hm.
  pose proof (reduce_phase_ok can_create Hcreate job R HR (wk_Map wk) (wk_Reduce wk) wk eq_refl
    eq_refl fls datas out Hlen Hne Hv Hout mr eq_refl eq_refl eq_refl w2 tr2 fs1 fs2) as Hr.
  assert (intermediate job R (wk_Map wk) fls datas fs1) as Hint.
  { intros j kvs r Hj Hr'. apply lookup_zip_with_Some in Hj as (f & d & -> & Hf & Hd).
    eapply Hm; [by eapply lookup_lt_Some|done..]. }
  specialize (Hr Hint H2).
  unfold Distributed, run. fold mr. cbn [address workers stats done newMaster].
  fold mr. rewrite H1. cbn [rbind]. rewrite H2. cbn [rbind].
  destruct (registered_same registered mr) as (E1 & E2 & E3).
  set (mr' := fold_left _ registered mr) in *.
  rewrite (merge_ok can_create Hcreate job R HR kvss out); [|done|done|done|naive_solver|].
  - cbn [rbind]. do 2 eexists. split; [done|]. by rewrite lookup_insert_eq.
  - intros r Hr'. by apply Hr.
Qed.

(** A job that returns has run both phases. *)
Lemma Distributed_phases wk fls fs master w1 tr1 w2 tr2 registered reply mrd fsd :
  let mr := mkMaster master [] job fls R [] false in
  Distributed can_create job fls R master wk w1 tr1 w2 tr2 registered reply fs = Ok (mrd, fsd) →
  ∃ fs1 fs2, schedule_run can_create mr mapPhase wk w1 tr1 fs = Ok fs1 ∧
    schedule_run can_create mr reducePhase wk w2 tr2 fs1 = Ok fs2.
Proof.
  intros mr. unfold Distributed, run. cbn [address workers stats done newMaster]. fold mr.
  intros (fs1 & H1 & (fs2 & H2 & _)%rbind_Ok)%rbind_Ok. eauto.
Qed.

(** C14. A distributed job computes what a sequential one does: however the
    tasks are handed out, whichever calls fail, and whatever the failed ones
    leave in the files of their tasks, if both phases return, then the job ends
    with the same output file as [Sequential], which holds for every key, in
    key order, the result of the reduce function on all its values. *)
Theorem Distributed_equivalent {laws : JsonLaws} wk (out : string → string) fls datas fs
    master w1 tr1 w2 tr2 registered reply fs1 fs2 :
  let mapF := wk_Map wk in
  let reduceF := wk_Reduce wk in
  let kvss := zip_with mapF fls datas in
  let mr := mkMaster master [] job fls R [] false in
  Forall2 (λ f d, fs !! f = Some d) fls datas →
  (∀ f m r, f ∈ fls → (0 ≤ m)%Z → (0 ≤ r)%Z → f ≠ reduceName job m r) →
  Forall (Forall kv_valid) kvss →
  (∀ k, k ∈ Key <$> concat kvss →
     reduceF k (values_of k (concat kvss)) = Ok (out k) ∧
     utf8_ValidString (out k) = true) →
  schedule_run can_create mr mapPhase wk w1 tr1 fs = Ok fs1 →
  schedule_run can_create mr reducePhase wk w2 tr2 fs1 = Ok fs2 →
  ∃ mrd fsd mrs fss,
    Distributed can_create job fls R master wk w1 tr1 w2 tr2 registered reply fs
      = Ok (mrd, fsd) ∧
    Sequential can_create job fls R mapF reduceF fs = Ok (mrs, fss) ∧
    fsd !! ("mrtmp." +:+ job) = fss !! ("mrtmp." +:+ job) ∧
    fsd !! ("mrtmp." +:+ job) = Some (job_output out (concat kvss)) ∧
    done mrd = true.
Proof.
  intros mapF reduceF kvss mr Hin Hne Hv Hout H1 H2.
  destruct (Sequential_ok can_create Hcreate job R HR mapF reduceF out fls datas fs Hin Hne Hv Hout)
    as (mrs & fss & Hs & Hso & _).
  destruct (Distributed_runs wk out fls datas fs master w1 tr1 w2 tr2 registered reply fs1 fs2
    Hin Hne Hv Hout H1 H2) as (mrd & fsd & Hd & Hdo & Hdone).
  exists mrd, fsd, mrs, fss. by rewrite Hdo, Hso.
Qed.
End job.

(** ** A job in which a worker fails after having written garbage *)

Definition demo_worker : Worker := mkWorker "w" chars count_values 100 0.
Definition demo_master : Master := mkMaster "m" [] "j" ["f1"; "f2"] 2 [] false.

Definition demo_tr1 : list daction :=
  [DSched (SSpawn 0); DSched (SExec 0); DFail 0 {["mrtmp.j-0-0" := "garbage"]};
   DSched (SRegister "w2"); DSched (SRetry 0 0); DSched (SExec 0);
   DSched (SSpawn 0); DSched (SExec 1); DDone 1; DDone 0; DSched SReturn].
Definition demo_tr2 : list daction :=
  [DSched (SSpawn 0); DSched (SExec 0); DDone 0;
   DSched (SSpawn 0); DSched (SExec 0); DDone 0; DSched SReturn].

Definition demo_map_run : result (gmap string string) :=
  schedule_run (λ _, true) demo_master mapPhase demo_worker ["w1"] demo_tr1 demo_fs.
Definition demo_reduce_run (fs : gmap string string) : result (gmap string string) :=
  schedule_run (λ _, true) demo_master reducePhase demo_worker ["w1"] demo_tr2 fs.

Definition is_ok {A} (r : result A) : bool := match r with Ok _ => true | _ => false end.

Lemma demo_runs_ok : is_ok (rbind demo_map_run demo_reduce_run) = true.
Proof. vm_compute. reflexivity. Qed.

Lemma demo_runs : ∃ fs1 fs2, demo_map_run = Ok fs1 ∧ demo_reduce_run fs1 = Ok fs2.
Proof.
  pose proof demo_runs_ok as Hok. destruct demo_map_run as [fs1| | |]; try discriminate Hok.
  cbn [rbind] in Hok. exists fs1. destruct (demo_reduce_run fs1) as [fs2| | |];
    try discriminate Hok. by exists fs2.
Qed.

Lemma demo_inputs_ok f m r : f ∈ ["f1"; "f2"] → f ≠ reduceName "j" m r.
Proof.
  intros Hf. apply not_reduceName.
  repeat (apply elem_of_cons in Hf as [->|Hf]; [cbn; lia|]). set_solver.
Qed.

Lemma demo_counts k :
  k ∈ Key <$> concat (zip_with chars ["f1"; "f2"] ["abca"; "cb"]) →
  count_values k (values_of k (concat (zip_with chars ["f1"; "f2"] ["abca"; "cb"]))) = Ok "2" ∧
  utf8_ValidString "2" = true.
Proof.
  intros Hk. split; [|done].
  repeat (apply elem_of_cons in Hk as [->|Hk]; [by vm_compute|]). set_solver.
Qed.

Lemma Distributed_equivalent_witness :
  ∃ mrd fsd mrs fss,
    Distributed (λ _, true) "j" ["f1"; "f2"] 2 "m" demo_worker ["w1"] demo_tr1 ["w1"] demo_tr2
      ["w1"; "w2"] (λ _, None) demo_fs = Ok (mrd, fsd) ∧
    Sequential (λ _, true) "j" ["f1"; "f2"] 2 chars count_values demo_fs = Ok (mrs, fss) ∧
    fsd !! ("mrtmp." +:+ "j") = fss !! ("mrtmp." +:+ "j").
Proof.
  destruct demo_runs as (fs1 & fs2 & H1 & H2).
  destruct (Distributed_equivalent (laws:=demo_json_laws) (λ _, true) (λ _, eq_refl) "j" 2
    ltac:(lia) demo_worker (λ _, "2") ["f1"; "f2"] ["abca"; "cb"] demo_fs "m" ["w1"] demo_tr1
    ["w1"] demo_tr2 ["w1"; "w2"] (λ _, None) fs1 fs2)
    as (mrd & fsd & mrs & fss & E1 & E2 & E3 & _).
  - repeat constructor.
  - intros f m r Hf _ _. apply demo_inputs_ok. exact Hf.
  - repeat constructor.
  - exact demo_counts.
  - exact H1.
  - exact H2.
  - exists mrd, fsd, mrs, fss. split; [exact E1|split; [exact E2|exact E3]].
Defined.
