(* ===== verification/MRMaster.v ===== *)
(** * The master's RPC server: mapreduce/master_rpc.go

    The registration server accepts connections until the [shutdown] channel is
    closed or [Accept] fails; [stopRPCServer] reaches it by an RPC to itself,
    whose handler closes the channel and the listener. *)

From S2P Require Import Prelude GoBase.

(** Where the loop is: at the [select], in [Accept], done. *)
Inductive mpc := MSelect | MAccept | MExit.

(** [ms_shutdown] is whether the channel is closed, [ms_open] whether the
    listener is open, [ms_served] the number of connections served. *)
Record rpc_server := mkRpcServer {
  ms_shutdown : bool;
  ms_open : bool;
  ms_pc : mpc;
  ms_served : nat;
}.

(** [startRPCServer], if [net.Listen] succeeds. *)
Definition startRPCServer (listens : bool) : result rpc_server :=
  if listens then Ok (mkRpcServer false true MSelect 0) else Fatal.

(** [Shutdown]: closing a closed channel panics. *)
Definition Shutdown (mr : rpc_server) : result rpc_server :=
  if ms_shutdown mr then Panic else Ok (mkRpcServer true false (ms_pc mr) (ms_served mr)).

(** One step of the loop; [ok] is whether [Accept] returns a connection, which
    it does only from an open listener. *)
Definition rpc_loop_step (ok : bool) (mr : rpc_server) : result rpc_server :=
  match ms_pc mr with
  | MSelect =>
      Ok (mkRpcServer (ms_shutdown mr) (ms_open mr)
            (if ms_shutdown mr then MExit else MAccept) (ms_served mr))
  | MAccept =>
      if ok then
        if ms_open mr
        then Ok (mkRpcServer (ms_shutdown mr) (ms_open mr) MSelect (S (ms_served mr)))
        else Blocked
      else Ok (mkRpcServer (ms_shutdown mr) (ms_open mr) MExit (ms_served mr))
  | MExit => Blocked
  end.

(** [stopRPCServer]: whether the RPC got through makes no difference to the
    caller. *)
Definition stopRPCServer (reached : bool) (mr : rpc_server) : result rpc_server :=
  if reached then Shutdown mr else Ok mr.

Inductive mstep := MLoop (ok : bool) | MShutdown.

Definition mact (a : mstep) (mr : rpc_server) : result rpc_server :=
  match a with
  | MLoop ok => rpc_loop_step ok mr
  | MShutdown => stopRPCServer true mr
  end.

(** After a [Shutdown] the loop makes one more step, serves nothing, and is
    over; a second [Shutdown] panics. *)
Theorem master_rpc_stops mr mr' :
  stopRPCServer true mr = Ok mr' →
  (∀ tr mr2, rfor mact tr mr' = Ok mr2 →
     length tr ≤ 1 ∧ ms_served mr2 = ms_served mr') ∧
  stopRPCServer true mr' = Panic ∧
  (ms_pc mr ≠ MExit → ∃ mr2, rpc_loop_step false mr' = Ok mr2 ∧ ms_pc mr2 = MExit).
Proof.
  unfold stopRPCServer, Shutdown. destruct (ms_shutdown mr); [done|]. intros [= <-]. split_and!.
  - intros tr mr2 Hr. destruct tr as [|a tr]; [injection Hr as <-; simpl; lia|].
    cbn [rfor] in Hr. destruct a as [ok|]; [|done].
    cbn [mact] in Hr. unfold rpc_loop_step in Hr. cbn [ms_pc ms_shutdown ms_open ms_served] in Hr.
    destruct (ms_pc mr); [|destruct ok; [done|]|done]; cbn [rbind] in Hr;
      (destruct tr as [|b tr]; [injection Hr as <-; simpl; lia|]);
      cbn [rfor] in Hr; destruct b as [ok'|]; done.
  - done.
  - unfold rpc_loop_step. simpl. destruct (ms_pc mr); [..|done]; intros _; by eexists.
Qed.
