(* ===== verification/Base32.v ===== *)
(** * encoding/base32, standard alphabet

    A group of five bytes is one number of 40 bits, written as eight digits
    in base 32.  The last group may be shorter: it is filled up with zero
    bytes, the digits that carry no bits of it are dropped, and '=' signs
    take their place.  Decoding ignores line ends. *)

From S2P Require Import Prelude GoBase GoStrings.

(** ** Digits *)

Fixpoint to_digits (b : Z) (n : nat) (N : Z) : list Z :=
  match n with
  | O => []
  | S n => to_digits b n (N / b) ++ [(N mod b)%Z]
  end.

Definition from_digits (b : Z) (l : list Z) : Z :=
  fold_left (λ acc d, acc * b + d)%Z l 0%Z.

(** ** The alphabet *)

Definition alphabet : string := "ABCDEFGHIJKLMNOPQRSTUVWXYZ234567".
Definition padding : ascii := "=".

Definition digit_char (d : Z) : ascii :=
  default padding (String.get (Z.to_nat d) alphabet).

Definition char_digit (c : ascii) : option Z :=
  let v := Z.of_nat (nat_of_ascii c) in
  if Z.leb 65 v && Z.leb v 90 then Some (v - 65)%Z
  else if Z.leb 50 v && Z.leb v 55 then Some (v - 24)%Z
  else None.

(** ** Bytes *)

Fixpoint string_bytes (s : string) : list Z :=
  match s with
  | EmptyString => []
  | String c s' => Z.of_nat (nat_of_ascii c) :: string_bytes s'
  end.

Fixpoint bytes_string (l : list Z) : string :=
  match l with
  | [] => ""
  | b :: l' => String (ascii_of_nat (Z.to_nat b)) (bytes_string l')
  end.

Fixpoint chars_string (l : list ascii) : string :=
  match l with
  | [] => ""
  | c :: l' => String c (chars_string l')
  end.

Fixpoint string_chars (s : string) : list ascii :=
  match s with
  | EmptyString => []
  | String c s' => c :: string_chars s'
  end.

(** ** Encoding *)

(** The digits that a group of [m] bytes does not need. *)
Definition unused_digits (m : nat) : nat :=
  match m with 1 => 6 | 2 => 4 | 3 => 3 | 4 => 1 | _ => 0 end.

Definition encode_group (bs : list Z) : list ascii :=
  let m := length bs in
  let k := unused_digits m in
  let N := from_digits 256 (bs ++ replicate (5 - m) 0%Z) in
  (digit_char <$> take (8 - k) (to_digits 32 8 N)) ++ replicate k padding.

Fixpoint encode_bytes (bs : list Z) : list ascii :=
  match bs with
  | [] => []
  | b0 :: b1 :: b2 :: b3 :: b4 :: bs' =>
      encode_group [b0; b1; b2; b3; b4] ++ encode_bytes bs'
  | bs => encode_group bs
  end.

Definition EncodeToString (s : string) : string :=
  chars_string (encode_bytes (string_bytes s)).

(** ** Decoding *)

(** The bytes that a group with [k] padding characters holds. *)
Definition group_bytes (k : nat) : option nat :=
  match k with 0 => Some 5 | 1 => Some 4 | 3 => Some 3 | 4 => Some 2 | 6 => Some 1
  | _ => None end.

Fixpoint count_padding (cs : list ascii) : nat :=
  match cs with
  | [] => 0
  | c :: cs' =>
      if forallb (Ascii.eqb padding) cs then length cs else count_padding cs'
  end.

Definition decode_group (cs : list ascii) : option (list Z) :=
  let k := count_padding cs in
  m ← group_bytes k;
  ds ← mapM char_digit (take (8 - k) cs);
  Some (take m (to_digits 256 5 (from_digits 32 (ds ++ replicate k 0%Z)))).

(** Padding ends the text. *)
Fixpoint decode_chars (cs : list ascii) : option (list Z) :=
  match cs with
  | [] => Some []
  | c0 :: c1 :: c2 :: c3 :: c4 :: c5 :: c6 :: c7 :: cs' =>
      let g := [c0; c1; c2; c3; c4; c5; c6; c7] in
      bs ← decode_group g;
      if Nat.eqb (count_padding g) 0 then
        rest ← decode_chars cs'; Some (bs ++ rest)
      else match cs' with [] => Some bs | _ => None end
  | _ => None
  end.

Definition is_newline (c : ascii) : bool :=
  Ascii.eqb c "010"%char || Ascii.eqb c "013"%char.

Definition DecodeString (s : string) : option string :=
  bytes_string <$>
    decode_chars (List.filter (λ c, negb (is_newline c)) (string_chars s)).

(** ** Digits: lemmas *)

Lemma to_digits_length b n N : length (to_digits b n N) = n.
Proof.
  revert N. induction n as [|n IH]; intros N; [done|]. simpl.
  rewrite length_app, IH. simpl. lia.
Qed.

Lemma from_digits_snoc b l d :
  from_digits b (l ++ [d]) = (from_digits b l * b + d)%Z.
Proof. unfold from_digits. by rewrite fold_left_app. Qed.

Lemma from_to_digits b n N :
  (0 < b)%Z → (0 ≤ N < b ^ Z.of_nat n)%Z → from_digits b (to_digits b n N) = N.
Proof.
  intros Hb. revert N. induction n as [|n IH]; intros N HN.
  - simpl in *. unfold from_digits. simpl. lia.
  - simpl. rewrite from_digits_snoc, IH.
    + pose proof (Z.div_mod N b ltac:(lia)). lia.
    + rewrite Nat2Z.inj_succ, Z.pow_succ_r in HN by lia.
      split; [apply Z.div_pos; lia|]. apply Z.div_lt_upper_bound; lia.
Qed.

Lemma to_from_digits b l :
  (0 < b)%Z → Forall (λ d, 0 ≤ d < b)%Z l →
  to_digits b (length l) (from_digits b l) = l.
Proof.
  intros Hb. induction l as [|d l IH] using rev_ind; intros Hl; [done|].
  apply Forall_app in Hl as [Hl Hd]. apply Forall_cons in Hd as [Hd _].
  rewrite length_app, Nat.add_comm. simpl. rewrite from_digits_snoc.
  rewrite (Z.div_add_l _ b d), (Z.div_small d b), Z.add_0_r, IH by (done || lia).
  by rewrite Z.add_comm, Z.mod_add, Z.mod_small by lia.
Qed.

Lemma from_digits_range b l :
  (0 < b)%Z → Forall (λ d, 0 ≤ d < b)%Z l →
  (0 ≤ from_digits b l < b ^ Z.of_nat (length l))%Z.
Proof.
  intros Hb. induction l as [|d l IH] using rev_ind; intros Hl; [done|].
  apply Forall_app in Hl as [Hl Hd]. apply Forall_cons in Hd as [Hd _].
  rewrite length_app, Nat2Z.inj_add, Z.pow_add_r, from_digits_snoc by lia.
  change (b ^ Z.of_nat (length [d]))%Z with (b ^ 1)%Z. rewrite Z.pow_1_r.
  specialize (IH Hl). nia.
Qed.

Lemma to_digits_range b n N :
  (0 < b)%Z → Forall (λ d, 0 ≤ d < b)%Z (to_digits b n N).
Proof.
  intros Hb. revert N. induction n as [|n IH]; intros N; simpl; [done|].
  apply Forall_app. split; [done|]. apply Forall_singleton.
  by apply Z.mod_pos_bound.
Qed.

(** The low digits of a multiple of a power of the base are zero. *)
Lemma to_digits_mul b n k M :
  (0 < b)%Z →
  to_digits b (n + k) (M * b ^ Z.of_nat k) = to_digits b n M ++ replicate k 0%Z.
Proof.
  intros Hb. induction k as [|k IH].
  - by rewrite Nat.add_0_r, Z.mul_1_r, app_nil_r.
  - rewrite Nat.add_succ_r. cbn [to_digits].
    rewrite Nat2Z.inj_succ, Z.pow_succ_r by lia.
    replace (M * (b * b ^ Z.of_nat k))%Z with (M * b ^ Z.of_nat k * b)%Z by lia.
    rewrite Z.div_mul, Z.mod_mul, IH by lia.
    by rewrite <-(assoc_L (++)), replicate_S_end.
Qed.

Lemma from_digits_zeros b l k :
  from_digits b (l ++ replicate k 0%Z) = (from_digits b l * b ^ Z.of_nat k)%Z.
Proof.
  induction k as [|k IH].
  - simpl. by rewrite app_nil_r, Z.mul_1_r.
  - rewrite replicate_S_end, (assoc_L (++)), from_digits_snoc, IH.
    rewrite Nat2Z.inj_succ, Z.pow_succ_r by lia. lia.
Qed.

(** ** Round trip *)

Lemma char_digit_char d : (0 ≤ d < 32)%Z → char_digit (digit_char d) = Some d.
Proof.
  intros Hd. rewrite <-(Z2Nat.id d) by lia.
  assert (Z.to_nat d < 32) as Hn by lia. revert Hn.
  generalize (Z.to_nat d). intros n Hn. do 32 (destruct n as [|n]; [done|]). lia.
Qed.

Lemma mapM_char_digit ds :
  Forall (λ d, 0 ≤ d < 32)%Z ds → mapM char_digit (digit_char <$> ds) = Some ds.
Proof.
  induction 1 as [|d ds Hd _ IH]; [done|]. rewrite fmap_cons. cbn [mapM].
  unfold mbind, option_bind, mret, option_ret in *.
  by rewrite char_digit_char, IH by done.
Qed.

Lemma digit_not_special d c :
  (0 ≤ d < 32)%Z → char_digit c = None → Ascii.eqb c (digit_char d) = false.
Proof.
  intros Hd Hc. apply Ascii.eqb_neq. intros ->.
  by rewrite char_digit_char in Hc.
Qed.

Lemma count_padding_digits ds k :
  Forall (λ d, 0 ≤ d < 32)%Z ds →
  count_padding ((digit_char <$> ds) ++ replicate k padding) = k.
Proof.
  induction 1 as [|d ds Hd _ IH].
  - destruct k as [|k]; [done|]. simpl.
    assert (forallb (Ascii.eqb padding) (replicate k padding) = true) as ->.
    { by induction k. }
    by rewrite length_replicate.
  - rewrite fmap_cons. cbn [app count_padding forallb].
    by rewrite digit_not_special.
Qed.

(** The dropped digits hold no bits of the bytes. *)
Lemma unused_digits_ok m :
  1 ≤ m ≤ 5 →
  unused_digits m ≤ 8 ∧ group_bytes (unused_digits m) = Some m ∧
  (256 ^ Z.of_nat (5 - m) =
   256 ^ Z.of_nat (5 - m) / 32 ^ Z.of_nat (unused_digits m)
   * 32 ^ Z.of_nat (unused_digits m))%Z.
Proof.
  intros Hm. destruct m as [|[|[|[|[|[|m]]]]]]; [lia| | | | | |lia];
    (split_and!; [simpl; lia|done|by vm_compute]).
Qed.

(** A group of one to five bytes survives. *)
Lemma decode_encode_group bs :
  1 ≤ length bs ≤ 5 → Forall (λ b, 0 ≤ b < 256)%Z bs →
  count_padding (encode_group bs) = unused_digits (length bs) ∧
  length (encode_group bs) = 8 ∧
  decode_group (encode_group bs) = Some bs.
Proof.
  intros Hm Hbs. unfold encode_group.
  set (m := length bs) in *. set (k := unused_digits m).
  set (N := from_digits 256 (bs ++ replicate (5 - m) 0%Z)).
  destruct (unused_digits_ok m Hm) as (Hk & Hg & Hpow). fold k in Hk, Hg, Hpow.
  assert (length (bs ++ replicate (5 - m) 0%Z) = 5) as Hl5.
  { rewrite length_app, length_replicate. lia. }
  assert (Forall (λ b, 0 ≤ b < 256)%Z (bs ++ replicate (5 - m) 0%Z)) as Hall.
  { apply Forall_app. split; [done|]. apply Forall_replicate. lia. }
  assert (0 ≤ N < 256 ^ 5)%Z as HN.
  { change 5%Z with (Z.of_nat 5). rewrite <-Hl5. by apply from_digits_range. }
  assert (∃ M, N = (M * 32 ^ Z.of_nat k)%Z) as [M HM].
  { unfold N. rewrite from_digits_zeros, Hpow, Z.mul_assoc. by eexists. }
  set (ds := to_digits 32 (8 - k) M).
  assert (to_digits 32 8 N = ds ++ replicate k 0%Z) as Hds.
  { rewrite HM. replace 8 with (8 - k + k) at 1 by lia. by apply to_digits_mul. }
  assert (length ds = 8 - k) as Hlen by apply to_digits_length.
  rewrite Hds, take_app_le, take_ge by lia.
  assert (Forall (λ d, 0 ≤ d < 32)%Z ds) as Hr by (by apply to_digits_range).
  pose proof (count_padding_digits ds k Hr) as Hc.
  split; [done|]. split.
  { rewrite length_app, length_fmap, length_replicate. lia. }
  assert (to_digits 256 5 N = bs ++ replicate (5 - m) 0%Z) as HB.
  { unfold N. rewrite <-Hl5 at 1. by apply to_from_digits. }
  unfold decode_group. rewrite Hc, Hg. cbn [mbind option_bind].
  rewrite take_app_le, take_ge by (rewrite length_fmap; lia).
  rewrite mapM_char_digit by done. cbn [mbind option_bind]. f_equal.
  rewrite <-Hds, from_to_digits, HB by lia. by apply take_app_length.
Qed.

(** Decoding one whole group, with what follows. *)
Lemma decode_chars_group g cs bs :
  length g = 8 → decode_group g = Some bs →
  decode_chars (g ++ cs) =
    if Nat.eqb (count_padding g) 0 then
      rest ← decode_chars cs; Some (bs ++ rest)
    else match cs with [] => Some bs | _ => None end.
Proof.
  intros Hlen Hd.
  do 8 (destruct g as [|? g]; [simpl in Hlen; lia|]).
  destruct g; [|simpl in Hlen; lia].
  cbn [app decode_chars]. rewrite Hd. done.
Qed.

Lemma encode_bytes_short bs : length bs < 5 → bs ≠ [] → encode_bytes bs = encode_group bs.
Proof.
  intros Hlen Hne. do 5 (destruct bs as [|? bs]; [done|]). simpl in Hlen. lia.
Qed.

Lemma decode_encode_bytes bs :
  Forall (λ b, 0 ≤ b < 256)%Z bs → decode_chars (encode_bytes bs) = Some bs.
Proof.
  remember (length bs) as n eqn:Hn. revert bs Hn.
  induction (lt_wf n) as [n _ IH]; intros bs -> Hbs.
  destruct (decide (bs = [])) as [->|Hne]; [done|].
  destruct (decide (length bs < 5)) as [Hlt|Hge].
  - assert (1 ≤ length bs ≤ 5) as Hlen by (destruct bs; simpl in *; [done|lia]).
    destruct (decode_encode_group bs Hlen Hbs) as (Hc & Hl & Hd).
    rewrite encode_bytes_short, <-(app_nil_r (encode_group bs)) by done.
    rewrite (decode_chars_group _ _ bs Hl Hd), Hc.
    do 5 (destruct bs as [|? bs]; [done|]). simpl in Hlt. lia.
  - do 5 (destruct bs as [|? bs]; [simpl in Hge; lia|]).
    match goal with |- context [encode_bytes (?a :: ?b :: ?c :: ?d :: ?e :: bs)] =>
      set (g := [a; b; c; d; e]);
      change (a :: b :: c :: d :: e :: bs) with (g ++ bs);
      change (encode_bytes (g ++ bs)) with (encode_group g ++ encode_bytes bs);
      change (a :: b :: c :: d :: e :: bs) with (g ++ bs) in * end.
    apply Forall_app in Hbs as [Hg Hbs].
    destruct (decode_encode_group g ltac:(simpl; lia) Hg) as (Hc & Hl & Hd).
    rewrite (decode_chars_group _ _ g Hl Hd), Hc. simpl Nat.eqb.
    cbv iota. rewrite (IH (length bs)) by (done || (simpl; lia)). done.
Qed.

Lemma encode_group_clean bs c :
  char_digit c = None → c ≠ padding → c ∉ encode_group bs.
Proof.
  intros Hc Hp [Hin|Hin]%elem_of_app.
  - apply list_elem_of_fmap in Hin as (d & -> & Hd).
    rewrite char_digit_char in Hc; [done|].
    assert (Forall (λ d, 0 ≤ d < 32)%Z (take (8 - unused_digits (length bs))
      (to_digits 32 8 (from_digits 256 (bs ++ replicate (5 - length bs) 0%Z)))))
      as Hall by (by apply Forall_take, to_digits_range).
    rewrite Forall_forall in Hall. by apply Hall.
  - by apply elem_of_replicate in Hin as [-> _].
Qed.

(** No character outside the alphabet and the padding is written. *)
Lemma encode_bytes_clean bs c :
  char_digit c = None → c ≠ padding → c ∉ encode_bytes bs.
Proof.
  intros Hc Hp. remember (length bs) as n eqn:Hn. revert bs Hn.
  induction (lt_wf n) as [n _ IH]; intros bs ->.
  destruct (decide (bs = [])) as [->|Hne]; [apply not_elem_of_nil|].
  destruct (decide (length bs < 5)) as [Hlt|Hge].
  - rewrite encode_bytes_short by done. by apply encode_group_clean.
  - do 5 (destruct bs as [|? bs]; [simpl in Hge; lia|]).
    cbn [encode_bytes]. rewrite elem_of_app. intros [Hin|Hin]; [by apply encode_group_clean in Hin|].
    eapply (IH (length bs)); [simpl; lia|done|done].
Qed.

Lemma string_chars_string l : string_chars (chars_string l) = l.
Proof. induction l as [|c l IH]; [done|]. simpl. by rewrite IH. Qed.

Lemma bytes_string_bytes s : bytes_string (string_bytes s) = s.
Proof.
  induction s as [|c s IH]; [done|]. cbn [string_bytes bytes_string].
  rewrite IH, Nat2Z.id, Ascii.ascii_nat_embedding. done.
Qed.

Lemma string_bytes_range s : Forall (λ b, 0 ≤ b < 256)%Z (string_bytes s).
Proof.
  induction s as [|c s IH]; [constructor|]. cbn [string_bytes].
  constructor; [|done]. pose proof (Ascii.nat_ascii_bounded c). lia.
Qed.

Lemma filter_all {A} (f : A → bool) l :
  (∀ x, x ∈ l → f x = true) → List.filter f l = l.
Proof.
  induction l as [|x l IH]; intros Hf; [done|]. simpl.
  rewrite Hf by (apply elem_of_cons; auto). f_equal. apply IH.
  intros y Hy. apply Hf. apply elem_of_cons. auto.
Qed.

Lemma Decode_Encode s : DecodeString (EncodeToString s) = Some s.
Proof.
  unfold DecodeString, EncodeToString. rewrite string_chars_string, filter_all.
  - rewrite decode_encode_bytes by apply string_bytes_range. simpl.
    by rewrite bytes_string_bytes.
  - intros c Hc. apply negb_true_iff. unfold is_newline.
    destruct (Ascii.eqb_spec c "010"%char) as [->|];
      [by apply encode_bytes_clean in Hc|].
    destruct (Ascii.eqb_spec c "013"%char) as [->|];
      [by apply encode_bytes_clean in Hc|]. done.
Qed.
