(* ===== verification/RandString.v ===== *)
(** * randstring: raft/config.go, kvraft/config.go, shardmaster/config.go,
    shardkv/config.go

    The harnesses name end-points by random strings: the first [n] characters
    of the base64 encoding of [2 * n] random bytes.  For the bytes as input,
    [randstring] is a function; for the lengths the harnesses ask for it is
    shown to be a bijection from the bytes it uses to the strings over the
    alphabet, so that uniform bytes give every name the same chance. *)

From S2P Require Import Prelude GoBase GoStrings Base32.

(** ** encoding/base64, URL alphabet *)

Module Base64.

Definition alphabet : string :=
  "ABCDEFGHIJKLMNOPQRSTUVWXYZabcdefghijklmnopqrstuvwxyz0123456789-_".

Definition digit_char (d : Z) : ascii :=
  default padding (String.get (Z.to_nat d) alphabet).

Definition char_digit (c : ascii) : option Z :=
  let v := Z.of_nat (nat_of_ascii c) in
  if Z.leb 65 v && Z.leb v 90 then Some (v - 65)%Z
  else if Z.leb 97 v && Z.leb v 122 then Some (v - 71)%Z
  else if Z.leb 48 v && Z.leb v 57 then Some (v + 4)%Z
  else if Z.eqb v 45 then Some 62%Z
  else if Z.eqb v 95 then Some 63%Z
  else None.

(** A group of one to three bytes is a number of 24 bits, written as four
    digits, the last of them replaced by padding in a short group. *)
Definition encode_group (bs : list Z) : list ascii :=
  let k := 3 - length bs in
  let N := from_digits 256 (bs ++ replicate k 0%Z) in
  (digit_char <$> take (4 - k) (to_digits 64 4 N)) ++ replicate k padding.

Fixpoint encode_bytes (bs : list Z) : list ascii :=
  match bs with
  | [] => []
  | b0 :: b1 :: b2 :: bs' => encode_group [b0; b1; b2] ++ encode_bytes bs'
  | bs => encode_group bs
  end.

End Base64.

(** ** randstring *)

(** [b] is what [crand.Read] leaves in the slice of [2 * n] bytes. *)
Definition randstring (n : nat) (b : list Z) : result string :=
  let s := Base64.encode_bytes b in
  if Nat.leb n (length s) then Ok (chars_string (take n s)) else Panic.

(** The copies in the other harnesses. *)
Definition kvraft_randstring : nat → list Z → result string := randstring.
Definition shardmaster_randstring : nat → list Z → result string := randstring.
Definition shardkv_randstring : nat → list Z → result string := randstring.

(** ** Whole groups *)

#[local] Notation bytes := (Forall (λ b, 0 ≤ b < 256)%Z).

(** A character that stands for six bits. *)
Definition in_alphabet (c : ascii) : Prop := is_Some (Base64.char_digit c).

Lemma char_digit_char64 d :
  (0 ≤ d < 64)%Z → Base64.char_digit (Base64.digit_char d) = Some d.
Proof.
  intros Hd. rewrite <-(Z2Nat.id d) by lia.
  assert (Z.to_nat d < 64) as Hn by lia. revert Hn.
  generalize (Z.to_nat d). intros n Hn. do 64 (destruct n as [|n]; [done|]). lia.
Qed.

Lemma digit_char_digit c d :
  Base64.char_digit c = Some d → (0 ≤ d < 64)%Z ∧ Base64.digit_char d = c.
Proof.
  intros Hc.
  assert (forallb (λ c, match Base64.char_digit c with
     | Some d => Z.leb 0 d && Z.ltb d 64 && Ascii.eqb (Base64.digit_char d) c
     | None => true end) (ascii_of_nat <$> seq 0 256) = true) as Hall by by vm_compute.
  rewrite forallb_forall in Hall. specialize (Hall c). rewrite Hc in Hall.
  assert (In c (ascii_of_nat <$> seq 0 256)) as Hin.
  { apply list_elem_of_In, list_elem_of_fmap. exists (nat_of_ascii c).
    split; [by rewrite ascii_nat_embedding|]. apply elem_of_seq.
    pose proof (nat_ascii_bounded c). lia. }
  specialize (Hall Hin). norm_hyps. zbool. split; [lia|]. by apply Ascii.eqb_eq.
Qed.

(** The digits of a whole group determine it, and can be anything. *)
Lemma encode_group_whole bs :
  length bs = 3 →
  Base64.encode_group bs = Base64.digit_char <$> to_digits 64 4 (from_digits 256 bs).
Proof.
  intros Hl. unfold Base64.encode_group. rewrite Hl. simpl replicate.
  by rewrite !app_nil_r, take_ge by (rewrite to_digits_length; lia).
Qed.

Lemma group_length bs : length bs = 3 → length (Base64.encode_group bs) = 4.
Proof. intros Hl. by rewrite encode_group_whole, length_fmap, to_digits_length. Qed.

Lemma group_alphabet bs : length bs = 3 → Forall in_alphabet (Base64.encode_group bs).
Proof.
  intros Hl. rewrite encode_group_whole by done. apply Forall_fmap.
  eapply Forall_impl; [by apply (to_digits_range 64)|].
  intros d Hd. eexists. by apply char_digit_char64.
Qed.

Lemma digits_char_inj ds es :
  Forall (λ d, 0 ≤ d < 64)%Z ds → Forall (λ d, 0 ≤ d < 64)%Z es →
  Base64.digit_char <$> ds = Base64.digit_char <$> es → ds = es.
Proof.
  intros Hd. revert es. induction Hd as [|d ds Hd _ IH]; intros es He Heq.
  - by destruct es.
  - destruct es as [|e es]; [done|]. apply list.Forall_cons in He as [He Hes].
    rewrite !fmap_cons in Heq. injection Heq as Hc Heq. f_equal; [|by apply IH].
    apply (f_equal Base64.char_digit) in Hc.
    rewrite !char_digit_char64 in Hc by done. by injection Hc.
Qed.

Lemma group_inj bs cs :
  length bs = 3 → length cs = 3 → bytes bs → bytes cs →
  Base64.encode_group bs = Base64.encode_group cs → bs = cs.
Proof.
  intros Hb Hc Rb Rc. rewrite !encode_group_whole by done. intros Heq.
  apply digits_char_inj in Heq; [|by apply (to_digits_range 64)..].
  apply (f_equal (from_digits 64)) in Heq.
  pose proof (from_digits_range 256 bs ltac:(lia) Rb) as H1.
  pose proof (from_digits_range 256 cs ltac:(lia) Rc) as H2.
  rewrite Hb in H1. rewrite Hc in H2.
  rewrite !from_to_digits in Heq by (simpl in *; lia).
  rewrite <-(to_from_digits 256 bs), <-(to_from_digits 256 cs), Hb, Hc, Heq by (done || lia).
  done.
Qed.

Lemma group_onto cs :
  length cs = 4 → Forall in_alphabet cs →
  ∃ bs, length bs = 3 ∧ bytes bs ∧ Base64.encode_group bs = cs.
Proof.
  intros Hl Hcs.
  assert (∃ ds, Forall (λ d, 0 ≤ d < 64)%Z ds ∧ Base64.digit_char <$> ds = cs)
    as (ds & Hds & <-).
  { clear Hl. induction Hcs as [|c cs [d Hd] _ (ds & Hds & <-)]; [by exists []|].
    apply digit_char_digit in Hd as [Hd <-]. exists (d :: ds). by rewrite Forall_cons. }
  rewrite length_fmap in Hl.
  pose proof (from_digits_range 64 ds ltac:(lia) Hds) as HN. rewrite Hl in HN.
  exists (to_digits 256 3 (from_digits 64 ds)).
  split; [apply to_digits_length|]. split; [by apply to_digits_range|].
  rewrite encode_group_whole, from_to_digits by (done || (simpl in *; lia)).
  by rewrite <-Hl, to_from_digits by (done || lia).
Qed.

(** ** Strings and their characters *)

Lemma chars_string_of_chars s : chars_string (string_chars s) = s.
Proof. induction s as [|c s IH]; [done|]. simpl. by rewrite IH. Qed.

Lemma string_chars_length s : length (string_chars s) = String.length s.
Proof. induction s as [|c s IH]; [done|]. simpl. by rewrite IH. Qed.

Lemma chars_string_length l : String.length (chars_string l) = length l.
Proof. by rewrite <-string_chars_length, string_chars_string. Qed.

(** ** Many groups *)

Lemma encode_app m bs cs :
  length bs = 3 * m →
  Base64.encode_bytes (bs ++ cs) = Base64.encode_bytes bs ++ Base64.encode_bytes cs.
Proof.
  revert bs. induction m as [|m IH]; intros bs Hl.
  - by destruct bs.
  - destruct bs as [|b0 [|b1 [|b2 bs]]]; simpl in Hl; [lia..|].
    change (Base64.encode_group [b0; b1; b2] ++ Base64.encode_bytes (bs ++ cs) =
      (Base64.encode_group [b0; b1; b2] ++ Base64.encode_bytes bs) ++ Base64.encode_bytes cs).
    by rewrite IH, (assoc_L (++)) by lia.
Qed.

Lemma encode_whole m bs :
  length bs = 3 * m →
  length (Base64.encode_bytes bs) = 4 * m ∧ Forall in_alphabet (Base64.encode_bytes bs).
Proof.
  revert bs. induction m as [|m IH]; intros bs Hl.
  - by destruct bs.
  - destruct bs as [|b0 [|b1 [|b2 bs]]]; simpl in Hl; [lia..|].
    destruct (IH bs) as [H1 H2]; [lia|].
    change (Base64.encode_bytes (b0 :: b1 :: b2 :: bs))
      with (Base64.encode_group [b0; b1; b2] ++ Base64.encode_bytes bs).
    rewrite length_app, Forall_app, group_length, H1 by done.
    split; [lia|]. split; [by apply group_alphabet|done].
Qed.

Lemma encode_one g : length g = 3 → Base64.encode_bytes g = Base64.encode_group g.
Proof.
  intros Hl. destruct g as [|? [|? [|? [|]]]]; simpl in Hl; [lia..| |lia].
  exact (app_nil_r (Base64.encode_group _)).
Qed.

Lemma encode_inj m bs cs :
  length bs = 3 * m → length cs = 3 * m → bytes bs → bytes cs →
  Base64.encode_bytes bs = Base64.encode_bytes cs → bs = cs.
Proof.
  revert bs cs. induction m as [|m IH]; intros bs cs Hb Hc Rb Rc Heq.
  - by destruct bs, cs.
  - assert (length (take 3 bs) = 3 * 1) as Lb by (rewrite length_take; lia).
    assert (length (take 3 cs) = 3 * 1) as Lc by (rewrite length_take; lia).
    assert (length (drop 3 bs) = 3 * m ∧ length (drop 3 cs) = 3 * m) as [Lb' Lc']
      by (rewrite !length_drop; lia).
    rewrite <-(take_drop 3 bs) in Rb. rewrite <-(take_drop 3 cs) in Rc.
    rewrite <-(take_drop 3 bs), <-(take_drop 3 cs) in Heq |- *.
    apply Forall_app in Rb as [Rb Rb'], Rc as [Rc Rc'].
    rewrite !(encode_app 1) in Heq by done.
    apply app_inj_1 in Heq as [H1 H2].
    2: by rewrite (proj1 (encode_whole 1 _ Lb)), (proj1 (encode_whole 1 _ Lc)).
    f_equal; [|by apply IH].
    rewrite !encode_one in H1 by done. by apply group_inj.
Qed.

Lemma encode_onto m cs :
  length cs = 4 * m → Forall in_alphabet cs →
  ∃ bs, length bs = 3 * m ∧ bytes bs ∧ Base64.encode_bytes bs = cs.
Proof.
  revert cs. induction m as [|m IH]; intros cs Hl Ha.
  - exists []. by destruct cs.
  - rewrite <-(take_drop 4 cs) in Ha. apply Forall_app in Ha as [Ha Ha'].
    destruct (group_onto (take 4 cs)) as (g & Lg & Rg & Eg); [rewrite length_take; lia|done|].
    destruct (IH (drop 4 cs)) as (bs & Lb & Rb & Eb); [rewrite length_drop; lia|done|].
    exists (g ++ bs). rewrite length_app, Forall_app. split_and!; [lia|done|done|].
    by rewrite (encode_app 1), Eb, encode_one, Eg, take_drop by done.
Qed.

(** ** What the harnesses get *)

Lemma randstring_take n m b :
  n ≤ 4 * m → 3 * m ≤ length b →
  randstring n b = Ok (chars_string (take n (Base64.encode_bytes (take (3 * m) b)))).
Proof.
  intros Hn Hb. unfold randstring.
  assert (length (take (3 * m) b) = 3 * m) as Hl by (rewrite length_take; lia).
  destruct (encode_whole m _ Hl) as [He _].
  pose proof (encode_app m _ (drop (3 * m) b) Hl) as Hs. rewrite take_drop in Hs.
  rewrite Hs, length_app, He.
  destruct (Nat.leb_spec n (4 * m + length (Base64.encode_bytes (drop (3 * m) b)))); [|lia].
  by rewrite take_app_le by lia.
Qed.

(** A name has the length that was asked for and consists of letters, digits,
    dashes and underscores: the slice is never out of range, and padding never
    gets into a name. *)
Theorem randstring_name n b :
  2 ≤ n → length b = 2 * n →
  ∃ s, randstring n b = Ok s ∧ String.length s = n ∧ Forall in_alphabet (string_chars s).
Proof.
  intros Hn Hb. pose proof (Nat.div_mod_eq (n + 3) 4) as Hd.
  pose proof (Nat.mod_upper_bound (n + 3) 4 ltac:(lia)) as Hm.
  set (m := (n + 3) / 4) in *.
  assert (length (take (3 * m) b) = 3 * m) as Hl by (rewrite length_take; lia).
  destruct (encode_whole m _ Hl) as [He Ha].
  rewrite (randstring_take n m) by lia. eexists. split; [done|].
  rewrite string_chars_string. split; [|by apply Forall_take].
  rewrite chars_string_length, length_take. lia.
Qed.

(** For lengths that are a multiple of four, like the twenty characters of an
    end-point's name, [randstring] is a bijection from the bytes it uses, three
    for every four characters, to the strings over the alphabet. *)
Theorem randstring_uniform m :
  (∀ b b', length b = 2 * (4 * m) → length b' = 2 * (4 * m) → bytes b → bytes b' →
     randstring (4 * m) b = randstring (4 * m) b' ↔ take (3 * m) b = take (3 * m) b') ∧
  (∀ s, String.length s = 4 * m → Forall in_alphabet (string_chars s) →
     ∃ b, length b = 2 * (4 * m) ∧ bytes b ∧ randstring (4 * m) b = Ok s).
Proof.
  split.
  - intros b b' Hb Hb' Rb Rb'. rewrite !(randstring_take _ m) by lia.
    assert (∀ x : list Z, length x = 2 * (4 * m) → length (take (3 * m) x) = 3 * m) as Hl.
    { intros x Hx. rewrite length_take. lia. }
    rewrite !(take_ge (Base64.encode_bytes _))
      by (rewrite (proj1 (encode_whole m _ (Hl _ Hb))) ||
          rewrite (proj1 (encode_whole m _ (Hl _ Hb'))); lia).
    split; [|by intros ->]. intros [= Heq]. apply (f_equal string_chars) in Heq.
    rewrite !string_chars_string in Heq.
    apply (encode_inj m) in Heq; auto using Forall_take.
  - intros s Hs Ha. destruct (encode_onto m (string_chars s)) as (bs & Lb & Rb & Eb).
    { by rewrite <-Hs, string_chars_length. } { done. }
    exists (bs ++ replicate (5 * m) 0%Z). rewrite length_app, length_replicate, Forall_app.
    split_and!; [lia|done|apply Forall_replicate; lia|].
    rewrite (randstring_take _ m) by (rewrite ?length_app; lia).
    rewrite take_app_le, (take_ge bs) by lia. rewrite Eb, take_ge.
    + by rewrite chars_string_of_chars.
    + by rewrite <-Hs, string_chars_length.
Qed.
