(* ===== verification/FileSystem.v ===== *)
(** * Files, failing calls and crashes

    What diskv/server.go uses of the packages os and ioutil.  A disk maps
    directories to their files; a path is a directory with a name in it.  A
    computation of type [FS A] yields its result together with the set of
    disks that can be found when the process dies while it runs, so that one
    definition of an operation says both what it returns and what a crash
    leaves.  The crash is that of the process: what its system calls have done is
    kept, in their order.  The code calls no fsync, so after a power failure less
    than that may be on the medium; such crashes are not modelled.  The calls that
    can fail do so as a [faults] record says.

    The second half is a small Hoare logic for such computations: a triple has
    a condition for the normal end and one for every crash. *)

From S2P Require Import Prelude GoBase.

Notation disk := (gmap string (gmap string string)).
Notation path := (string * string)%type.

(** ** Computations *)

Definition FS (A : Type) : Type := disk → (disk → Prop) * result (disk * A).

Definition run {A} (m : FS A) (fs : disk) : result (disk * A) := (m fs).2.

(** [fs'] can be found after a crash of [m] started on [fs]. *)
Definition crash {A} (m : FS A) (fs fs' : disk) : Prop :=
  fs' = fs ∨ (m fs).1 fs'.

#[export] Instance FS_ret : MRet FS := λ A a fs, (λ _, False, Ok (fs, a)).

#[export] Instance FS_bind : MBind FS := λ A B k m fs,
  match m fs with
  | (during, Ok (fs1, a)) =>
      let '(during2, r) := k a fs1 in (λ fs', during fs' ∨ during2 fs', r)
  | (during, Fatal) => (during, Fatal)
  | (during, Panic) => (during, Panic)
  | (during, Blocked) => (during, Blocked)
  end.

(** A computation that does not touch the disk. *)
Definition lift {A} (r : result A) : FS A :=
  λ fs, (λ _, False, rbind r (λ a, Ok (fs, a))).

(** ** Calls of the operating system *)

(** [WriteFile] can fail when it opens the file, or after some bytes. *)
Inductive write_fault := OpenFails | WriteStops (n : nat).

(** [remove_stops d] are the names removed before [RemoveAll] fails. *)
Record faults := mkFaults {
  mkdir_fails : string → bool;
  write_fails : path → option write_fault;
  rename_fails : path → bool;
  read_fails : path → bool;
  readdir_fails : string → bool;
  remove_stops : string → option (list string);
}.

Definition no_faults : faults :=
  mkFaults (λ _, false) (λ _, None) (λ _, false) (λ _, false) (λ _, false)
    (λ _, None).

Definition read_file (p : path) (fs : disk) : option string :=
  files ← fs !! p.1; files !! p.2.

Definition put_file (p : path) (content : string) (fs : disk) : disk :=
  <[p.1 := <[p.2 := content]> (default ∅ (fs !! p.1))]> fs.

(** The first [n] bytes of a file's new content. *)
Definition part_of (n : nat) (content : string) : string :=
  String.substring 0 n content.

Section calls.
Context (fl : faults).

Definition Stat (d : string) : FS bool :=
  λ fs, (λ _, False, Ok (fs, bool_decide (is_Some (fs !! d)))).

(** The code calls [Mkdir] only on a directory that is not there. *)
Definition Mkdir (d : string) : FS bool :=
  λ fs,
    if mkdir_fails fl d then (λ _, False, Ok (fs, false))
    else (λ fs', fs' = <[d := ∅]> fs, Ok (<[d := ∅]> fs, true)).

Definition ReadFile (p : path) : FS (option string) :=
  λ fs, (λ _, False,
         Ok (fs, if read_fails fl p then None else read_file p fs)).

(** The names are listed in some order; [ReadDir] sorts them. *)
Definition ReadDir (d : string) : FS (option (gmap string string)) :=
  λ fs, (λ _, False, Ok (fs, if readdir_fails fl d then None else fs !! d)).

(** [WriteFile] creates or truncates the file and then writes its bytes; a crash
    of the process leaves those that were written. *)
Definition WriteFile (p : path) (content : string) : FS bool :=
  λ fs,
    match write_fails fl p with
    | Some OpenFails => (λ _, False, Ok (fs, false))
    | Some (WriteStops n) =>
        (λ fs', ∃ n', fs' = put_file p (part_of n' content) fs,
         Ok (put_file p (part_of n content) fs, false))
    | None =>
        (λ fs', (∃ n', fs' = put_file p (part_of n' content) fs) ∨
                fs' = put_file p content fs,
         Ok (put_file p content fs, true))
    end.

(** [Rename] takes effect in one step. *)
Definition Rename (old new : path) : FS bool :=
  λ fs,
    match read_file old fs with
    | None => (λ _, False, Ok (fs, false))
    | Some content =>
        if rename_fails fl old then (λ _, False, Ok (fs, false))
        else
          let fs1 :=
            put_file new content
              (alter (delete old.2) old.1 fs) in
          (λ fs', fs' = fs1, Ok (fs1, true))
    end.

(** [RemoveAll] removes the files one after the other, in any order, and then
    the directory.  The code ignores its error. *)
Definition RemoveAll (d : string) : FS bool :=
  λ fs,
    match fs !! d with
    | None => (λ _, False, Ok (fs, true))
    | Some files =>
        let during fs' := ∃ files', files' ⊆ files ∧ fs' = <[d := files']> fs in
        match remove_stops fl d with
        | Some names =>
            (during,
             Ok (<[d := filter (λ '(n, _), n ∉ names) files]> fs, false))
        | None =>
            (λ fs', during fs' ∨ fs' = delete d fs, Ok (delete d fs, true))
        end
    end.
End calls.

(** ** Running a sequence *)

Lemma run_ret {A} (a : A) fs : run (mret a) fs = Ok (fs, a).
Proof. done. Qed.

Lemma run_lift {A} (r : result A) fs :
  run (lift r) fs = rbind r (λ a, Ok (fs, a)).
Proof. done. Qed.

Lemma run_bind {A B} (m : FS A) (k : A → FS B) fs :
  run (m ≫= k) fs = rbind (run m fs) (λ '(fs1, a), run (k a) fs1).
Proof.
  unfold run, mbind, FS_bind. destruct (m fs) as [c [[fs1 a]| | |]]; [|done..].
  simpl. by destruct (k a fs1).
Qed.

Lemma run_bind_Ok {A B} (m : FS A) (k : A → FS B) fs fs' b :
  run (m ≫= k) fs = Ok (fs', b) →
  ∃ fs1 a, run m fs = Ok (fs1, a) ∧ run (k a) fs1 = Ok (fs', b).
Proof.
  rewrite run_bind. intros ([fs1 a] & Hm & Hk)%rbind_Ok. eauto.
Qed.

Lemma run_seq {A B} (m : FS A) (k : A → FS B) fs fs1 a :
  run m fs = Ok (fs1, a) → run (m ≫= k) fs = run (k a) fs1.
Proof. intros Hm. by rewrite run_bind, Hm. Qed.

Lemma crash_bind {A B} (m : FS A) (k : A → FS B) fs fs' :
  crash (m ≫= k) fs fs' →
  crash m fs fs' ∨ ∃ fs1 a, run m fs = Ok (fs1, a) ∧ crash (k a) fs1 fs'.
Proof.
  unfold crash, run, mbind, FS_bind.
  destruct (m fs) as [c [[fs1 a]| | |]] eqn:Hm; simpl; [|tauto..].
  destruct (k a fs1) as [c2 r] eqn:Hk. simpl. intros [?|[?|?]]; [tauto..|].
  right. exists fs1, a. rewrite Hk. auto.
Qed.

(** A sequence has the crashes of its parts. *)
Lemma during_bind_l {A B} (m : FS A) (k : A → FS B) fs fs' :
  (m fs).1 fs' → ((m ≫= k) fs).1 fs'.
Proof.
  unfold mbind, FS_bind. destruct (m fs) as [c [[fs1 a]| | |]]; simpl; try done.
  destruct (k a fs1). simpl. auto.
Qed.

Lemma during_bind_r {A B} (m : FS A) (k : A → FS B) fs fs1 a fs' :
  run m fs = Ok (fs1, a) → (k a fs1).1 fs' → ((m ≫= k) fs).1 fs'.
Proof.
  unfold run, mbind, FS_bind. destruct (m fs) as [c r]. simpl. intros -> Hk.
  destruct (k a fs1). simpl in *. auto.
Qed.

(** ** Triples with a crash condition *)

Definition triple {A} (P : disk → Prop) (m : FS A) (Q : A → disk → Prop)
    (C : disk → Prop) : Prop :=
  ∀ fs, P fs →
    (∀ fs', crash m fs fs' → C fs') ∧
    (∀ fs' a, run m fs = Ok (fs', a) → Q a fs').

Lemma triple_bind {A B} P (m : FS A) (k : A → FS B) Q R C :
  triple P m Q C → (∀ a, triple (Q a) (k a) R C) → triple P (m ≫= k) R C.
Proof.
  intros Hm Hk fs HP. destruct (Hm fs HP) as [Hc Hq]. split.
  - intros fs' [?|(fs1 & a & Hr & ?)]%crash_bind; [auto|].
    destruct (Hk a fs1 (Hq _ _ Hr)) as [Hc2 _]. auto.
  - intros fs' b (fs1 & a & Hr & ?)%run_bind_Ok.
    destruct (Hk a fs1 (Hq _ _ Hr)) as [_ Hq2]. auto.
Qed.

Lemma triple_ret {A} (P : disk → Prop) (a : A) (Q : A → disk → Prop)
    (C : disk → Prop) :
  (∀ fs, P fs → Q a fs ∧ C fs) → triple P (mret a) Q C.
Proof.
  intros HQ fs HP. destruct (HQ fs HP) as [??]. split.
  - by intros fs' [->|[]].
  - by intros fs' b [= <- <-].
Qed.

Lemma triple_lift {A} P (r : result A) (Q : A → disk → Prop) C :
  (∀ fs, P fs → C fs ∧ ∀ a, r = Ok a → Q a fs) → triple P (lift r) Q C.
Proof.
  intros HQ fs HP. destruct (HQ fs HP) as [? Ha]. split.
  - by intros fs' [->|[]].
  - intros fs' b. rewrite run_lift. intros (a & Hr & [= <- <-])%rbind_Ok. auto.
Qed.

Lemma triple_weaken {A} (P P' : disk → Prop) (m : FS A) (Q Q' : A → disk → Prop)
    (C C' : disk → Prop) :
  triple P' m Q' C' → (∀ fs, P fs → P' fs) → (∀ a fs, Q' a fs → Q a fs) →
  (∀ fs, C' fs → C fs) → triple P m Q C.
Proof.
  intros Hm HP HQ HC fs Hfs. destruct (Hm fs (HP fs Hfs)) as [Hc Hq].
  split; [eauto|]. intros fs' a Hr. by apply HQ, Hq.
Qed.

(** A precondition that does not depend on the disk. *)
Lemma triple_pure {A} (φ : Prop) P (m : FS A) Q C :
  (φ → triple P m Q C) → triple (λ fs, φ ∧ P fs) m Q C.
Proof. intros Hm fs [Hφ HP]. by apply Hm. Qed.

Ltac fs_step := eapply triple_bind; [|intros ?].

(** ** Triples of the calls, over a condition on single disks *)

Section rules.
Context (fl : faults) (P : disk → Prop).

Lemma Stat_triple d :
  triple P (Stat d) (λ b fs, P fs ∧ (b = true ↔ is_Some (fs !! d))) P.
Proof.
  intros fs HP. split; [by intros fs' [->|[]]|].
  intros fs' b [= <- <-]. by rewrite bool_decide_eq_true.
Qed.

Lemma Mkdir_triple d (Q : disk → Prop) :
  (∀ fs, Q fs → P fs ∧ P (<[d := ∅]> fs)) →
  triple Q (Mkdir fl d)
    (λ b fs, P fs ∧ (b = true → is_Some (fs !! d))) P.
Proof.
  intros HP fs HQ. destruct (HP fs HQ) as [H1 H2]. unfold crash, run, Mkdir.
  destruct (mkdir_fails fl d); simpl; (split; [naive_solver|]);
    intros fs' b [= <- <-]; [done|].
  by rewrite lookup_insert_eq.
Qed.

Lemma WriteFile_triple p c (Q : disk → Prop) :
  (∀ fs c', Q fs → P fs ∧ P (put_file p c' fs)) →
  triple Q (WriteFile fl p c)
    (λ b fs, P fs ∧ (b = true → read_file p fs = Some c)) P.
Proof.
  intros HP fs HQ. assert (P fs) by (by apply (HP fs "")).
  assert (∀ c', P (put_file p c' fs)) as Hput by (intros c'; by apply HP).
  assert (∀ c', read_file p (put_file p c' fs) = Some c') as Hread.
  { intros c'. unfold read_file, put_file. rewrite lookup_insert_eq. simpl.
    by rewrite lookup_insert_eq. }
  unfold crash, run, WriteFile.
  destruct (write_fails fl p) as [[|n]|]; simpl; split;
    try (intros fs' b [= <- <-]; auto; done); naive_solver.
Qed.

Lemma Rename_triple old new c (Q R : disk → Prop) :
  (∀ fs, Q fs → P fs ∧ read_file old fs = Some c) →
  (∀ fs, Q fs → R (put_file new c (alter (delete old.2) old.1 fs))) →
  triple Q (Rename fl old new) (λ b fs, if b then R fs else P fs)
    (λ fs, P fs ∨ R fs).
Proof.
  intros HP HR fs HQ. destruct (HP fs HQ) as [HPfs Hr]. specialize (HR fs HQ).
  unfold crash, run, Rename. rewrite Hr.
  destruct (rename_fails fl old); simpl;
    (split; [naive_solver|by intros fs' b [= <- <-]]).
Qed.

Lemma RemoveAll_triple d (Q : disk → Prop) :
  (∀ fs, Q fs → P fs ∧ P (delete d fs)) →
  (∀ fs files files', Q fs → fs !! d = Some files → files' ⊆ files →
     P (<[d := files']> fs)) →
  triple Q (RemoveAll fl d) (λ _, P) P.
Proof.
  intros HP Hsub fs HQ. destruct (HP fs HQ) as [HPfs Hdel].
  unfold crash, run, RemoveAll. destruct (fs !! d) as [files|] eqn:Hd; simpl;
    [|split; [naive_solver|by intros fs' b [= <- <-]]].
  assert (filter (λ '(n, _), n ∉ default [] (remove_stops fl d)) files ⊆ files)
    by apply map_filter_subseteq.
  destruct (remove_stops fl d) as [names|]; simpl in *;
    (split; [naive_solver|intros fs' b [= <- <-]; eauto]).
Qed.
End rules.
