(* ===== verification/DiskKV.v ===== *)
(** * Key/value files on disk: diskv/server.go (shardDir to fileReplaceShard)

    The helpers that keep the keys of each shard in a directory of their own,
    one file per key.  They are computations of FileSystem.v: what they return
    and what a crash leaves both follow from their text.  A path
    [d + "/" + name] is the pair [(d, name)]; base32 names hold no slash. *)

From S2P Require Import Prelude GoBase GoStrings MapReduce Base32 FileSystem.

Section diskv.
Context (dir : string) (fl : faults).

Definition shard_path (shard : Z) : string :=
  dir +:+ "/shard-" +:+ Itoa shard +:+ "/".

(** [shardDir]: the directory of a shard, created if needed. *)
Definition shardDir (shard : Z) : FS string :=
  let d := shard_path shard in
  there ← Stat d;
  if (there : bool) then mret d
  else
    ok ← Mkdir fl d;
    if (ok : bool) then mret d else lift Fatal.

Definition encodeKey (key : string) : string := EncodeToString key.
Definition decodeKey (filename : string) : option string := DecodeString filename.

Definition key_file (key : string) : string := "key-" +:+ encodeKey key.
Definition temp_file (key : string) : string := "temp-" +:+ encodeKey key.

(** [fileGet]: [None] is a read error. *)
Definition fileGet (shard : Z) (key : string) : FS (option string) :=
  d ← shardDir shard;
  let fullname := (d, key_file key) in
  ReadFile fl fullname.

(** [filePut]: [false] is an error. *)
Definition filePut (shard : Z) (key content : string) : FS bool :=
  d ← shardDir shard;
  let fullname := (d, key_file key) in
  d ← shardDir shard;
  let tempname := (d, temp_file key) in
  ok ← WriteFile fl tempname content;
  if negb ok then mret false
  else
    ok ← Rename fl tempname fullname;
    if negb ok then mret false
    else mret true.

(** [n1[0:4] == "key-"], then [n1[4:]]; the slice panics on a shorter name. *)
Definition key_name (n1 : string) : result (option string) :=
  if Nat.ltb (String.length n1) 4 then Panic
  else if bool_decide (String.substring 0 4 n1 = "key-")
  then Ok (Some (String.substring 4 (String.length n1 - 4) n1))
  else Ok None.

Fixpoint read_files (shard : Z) (names : list string) (m : gmap string string)
    : FS (gmap string string) :=
  match names with
  | [] => mret m
  | n1 :: names =>
      o ← lift (key_name n1);
      match o with
      | None => read_files shard names m
      | Some n =>
          key ← lift (oget (decodeKey n) Fatal);
          c ← fileGet shard key;
          content ← lift (oget c Fatal);
          read_files shard names (<[key := content]> m)
      end
  end.

(** [fileReadShard]; [ReadDir] lists the names in order. *)
Definition fileReadShard (shard : Z) : FS (gmap string string) :=
  d ← shardDir shard;
  o ← ReadDir fl d;
  files ← lift (oget o Fatal);
  read_files shard (sorted_keys files) ∅.

Fixpoint put_all (shard : Z) (kvs : list (string * string)) : FS unit :=
  match kvs with
  | [] => mret ()
  | (k, v) :: kvs => _ ← filePut shard k v; put_all shard kvs
  end.

(** [fileReplaceShard], for an iteration order [kvs] of the map; it ignores
    the errors of [RemoveAll] and [filePut]. *)
Definition fileReplaceShard (shard : Z) (kvs : list (string * string)) : FS unit :=
  d ← shardDir shard;
  _ ← RemoveAll fl d;
  put_all shard kvs.
End diskv.
