(* ===== verification/DiskKVSafety.v ===== *)
(** * What the disk helpers of diskv promise

    File names determine keys, a written file reads back, a crash during
    [filePut] leaves the old or the new content and nothing else changes, a
    replaced shard reads back as the map it was replaced with, and a crash in
    the middle of the replacement loses at most keys of that shard. *)

From S2P Require Import Prelude.
From S2P Require Import GoBase.
From S2P Require Import GoStrings.
From S2P Require Import MapReduce.
From S2P Require Import MapReduceCorrect.
From S2P Require Import Base32.
From S2P Require Import FileSystem.
From S2P Require Import DiskKV.

(** ** Names *)

Lemma encodeKey_inj k k' : encodeKey k = encodeKey k' → k = k'.
Proof.
  intros Heq. apply (f_equal decodeKey) in Heq. unfold decodeKey, encodeKey in Heq.
  rewrite !Decode_Encode in Heq. congruence.
Qed.

Lemma key_file_inj k k' : key_file k = key_file k' → k = k'.
Proof. intros Heq%(inj (String.append _)). by apply encodeKey_inj. Qed.

Lemma temp_key_file k k' : temp_file k ≠ key_file k'.
Proof. done. Qed.

Lemma string_app_char_inj s t c :
  s +:+ String c "" = t +:+ String c "" → s = t.
Proof.
  revert t. induction s as [|a s IH]; intros [|b t] Heq;
    rewrite ?string_app_cons in Heq; [done|..].
  - injection Heq as _ Heq. by destruct t.
  - injection Heq as _ Heq. by destruct s.
  - injection Heq as -> Heq. f_equal. by apply IH.
Qed.

Lemma shard_path_inj dir s s' : shard_path dir s = shard_path dir s' → s = s'.
Proof.
  intros Heq%(inj (String.append _))%(inj (String.append _)).
  apply string_app_char_inj in Heq. by apply (inj Itoa).
Qed.

(** File names are safe and lose nothing: decoding the file name of a key
    gives the key back, for every string of bytes, and an encoded name holds
    no slash. *)
Theorem encodeKey_roundtrip (key : string) :
  decodeKey (encodeKey key) = Some key ∧
  string_mem "/"%char (encodeKey key) = false.
Proof.
  split; [apply Decode_Encode|]. unfold encodeKey, EncodeToString.
  pose proof (encode_bytes_clean (string_bytes key) "/"%char eq_refl ltac:(done))
    as Hc.
  induction (encode_bytes (string_bytes key)) as [|a l IH]; [done|].
  apply not_elem_of_cons in Hc as [Ha Hl]. cbn [chars_string string_mem].
  rewrite IH by done. by destruct (Ascii.eqb_spec a "/"%char); [subst|].
Qed.

(** ** Contents *)

Section contents.
Context (dir : string) (fl : faults).
Implicit Types fs : disk.

(** What the disk holds for a key. *)
Definition content fs (shard : Z) (key : string) : option string :=
  read_file (shard_path dir shard, key_file key) fs.

(** The two disks hold the same for every key of every shard. *)
Definition same fs0 fs : Prop := ∀ s k, content fs s k = content fs0 s k.

(** [fs] holds what [fs0] does, but for one key, which has content [c]. *)
Definition updated (shard : Z) (key c : string) fs0 fs : Prop :=
  content fs shard key = Some c ∧
  ∀ s k, (s, k) ≠ (shard, key) → content fs s k = content fs0 s k.

Lemma content_other_dir d files fs s k :
  d ≠ shard_path dir s → content (<[d := files]> fs) s k = content fs s k.
Proof.
  intros Hne. unfold content, read_file. simpl. by rewrite lookup_insert_ne.
Qed.

Lemma mkdir_content shard fs s k :
  fs !! shard_path dir shard = None →
  content (<[shard_path dir shard := ∅]> fs) s k = content fs s k.
Proof.
  intros Hd. destruct (decide (shard_path dir shard = shard_path dir s)) as [Heq|];
    [|by apply content_other_dir].
  unfold content, read_file. simpl. by rewrite <-Heq, lookup_insert_eq, Hd.
Qed.

Lemma put_temp_content shard key c fs s k :
  content (put_file (shard_path dir shard, temp_file key) c fs) s k =
  content fs s k.
Proof.
  unfold put_file. simpl.
  destruct (decide (shard_path dir shard = shard_path dir s)) as [Heq|];
    [|by apply content_other_dir].
  unfold content, read_file. simpl. rewrite <-Heq, lookup_insert_eq. simpl.
  rewrite lookup_insert_ne by done. by destruct (fs !! _).
Qed.

Lemma rename_content shard key c fs s k :
  content (put_file (shard_path dir shard, key_file key) c
    (alter (delete (temp_file key)) (shard_path dir shard) fs)) s k =
  if decide ((s, k) = (shard, key)) then Some c else content fs s k.
Proof.
  unfold put_file. simpl. rewrite lookup_alter_eq.
  destruct (decide (shard_path dir shard = shard_path dir s)) as [Heq|Hd].
  - unfold content, read_file. simpl. rewrite <-Heq, lookup_insert_eq. simpl.
    apply shard_path_inj in Heq as <-. case_decide as Hk.
    + injection Hk as ->. by rewrite lookup_insert_eq.
    + rewrite lookup_insert_ne by (intros ->%key_file_inj; done).
      destruct (fs !! _); simpl; by rewrite ?lookup_delete_ne.
  - rewrite content_other_dir by done. rewrite decide_False by naive_solver.
    unfold content, read_file. simpl. by rewrite lookup_alter_ne.
Qed.

(** ** Triples of the helpers *)

Lemma shardDir_triple (P : disk → Prop) shard :
  (∀ fs, P fs → fs !! shard_path dir shard = None →
     P (<[shard_path dir shard := ∅]> fs)) →
  triple P (shardDir dir fl shard)
    (λ d fs, d = shard_path dir shard ∧ P fs ∧ is_Some (fs !! d)) P.
Proof.
  intros HP. unfold shardDir. fs_step; [apply Stat_triple|].
  destruct a.
  { apply triple_ret. naive_solver. }
  fs_step.
  { apply Mkdir_triple. intros fs [Hfs Hd]. split; [done|]. apply HP; [done|].
    apply eq_None_not_Some. intros ?. destruct Hd. naive_solver. }
  destruct a; [apply triple_ret|apply triple_lift]; naive_solver.
Qed.

(** [filePut] takes the disks of [P] to [R], with one step between the two, if
    [P] does not look at directories that are made and at temporary files. *)
Lemma filePut_triple (P R : disk → Prop) shard key c :
  (∀ fs, P fs → fs !! shard_path dir shard = None →
     P (<[shard_path dir shard := ∅]> fs)) →
  (∀ fs c', P fs → is_Some (fs !! shard_path dir shard) →
     P (put_file (shard_path dir shard, temp_file key) c' fs)) →
  (∀ fs, P fs → R (put_file (shard_path dir shard, key_file key) c
     (alter (delete (temp_file key)) (shard_path dir shard) fs))) →
  triple P (filePut dir fl shard key c) (λ ok fs, if ok then R fs else P fs)
    (λ fs, P fs ∨ R fs).
Proof.
  intros Hdir Htemp Hren. unfold filePut.
  assert (triple P (shardDir dir fl shard)
    (λ d fs, d = shard_path dir shard ∧ P fs ∧ is_Some (fs !! d))
    (λ fs, P fs ∨ R fs)) as Hs.
  { eapply triple_weaken; [by apply shardDir_triple|auto..]. }
  fs_step; [exact Hs|]. apply triple_pure. intros ->.
  fs_step; 
    [eapply triple_weaken; [exact Hs|naive_solver|intros ?? Hq; exact Hq|done]|].
  apply triple_pure. intros ->.
  fs_step; [eapply triple_weaken; [apply (WriteFile_triple _ P _ c
    (λ fs, P fs ∧ is_Some (fs !! shard_path dir shard)))|..]|].
  - intros fs c' [HP Hd]. split; [done|]. by apply Htemp.
  - done.
  - intros b fs Hb. exact Hb.
  - auto.
  - destruct a; simpl; [|apply triple_ret; naive_solver]. fs_step.
    + apply (Rename_triple _ P _ _ c _ R); naive_solver.
    + destruct a; apply triple_ret; naive_solver.
Qed.

Lemma filePut_content_triple shard key c fs0 :
  triple (same fs0) (filePut dir fl shard key c)
    (λ ok fs, if ok then updated shard key c fs0 fs else same fs0 fs)
    (λ fs, same fs0 fs ∨ updated shard key c fs0 fs).
Proof.
  apply filePut_triple; unfold same.
  - intros fs Hs Hd s k. by rewrite mkdir_content.
  - intros fs c' Hs _ s k. by rewrite put_temp_content.
  - intros fs Hs. split; [|intros s k Hne]; rewrite rename_content.
    + by rewrite decide_True.
    + by rewrite decide_False.
Qed.

Lemma shardDir_inv shard fs fs1 d :
  run (shardDir dir fl shard) fs = Ok (fs1, d) →
  d = shard_path dir shard ∧ is_Some (fs1 !! d) ∧ same fs fs1.
Proof.
  intros Hr. destruct (shardDir_triple (same fs) shard) with (fs := fs)
    as [_ Hq]; [|done|].
  - intros fs' Hs Hd s k. by rewrite mkdir_content.
  - destruct (Hq _ _ Hr) as (-> & ? & ?). auto.
Qed.

Lemma shardDir_there shard fs :
  is_Some (fs !! shard_path dir shard) →
  run (shardDir dir fl shard) fs = Ok (fs, shard_path dir shard).
Proof.
  intros Hd. unfold shardDir. rewrite run_bind. unfold run, Stat. simpl.
  by rewrite bool_decide_eq_true_2.
Qed.

(** ** Totality *)

Definition dirs_ok : Prop := ∀ d, mkdir_fails fl d = false.
Definition writes_ok : Prop :=
  (∀ p, write_fails fl p = None) ∧ (∀ p, rename_fails fl p = false).
Definition reads_ok : Prop :=
  (∀ p, read_fails fl p = false) ∧ (∀ d, readdir_fails fl d = false).

Lemma shardDir_total shard fs :
  dirs_ok →
  ∃ fs1, run (shardDir dir fl shard) fs = Ok (fs1, shard_path dir shard).
Proof.
  intros Hm. destruct (fs !! shard_path dir shard) as [files|] eqn:Hd.
  - exists fs. apply shardDir_there. by rewrite Hd.
  - eexists. unfold shardDir. rewrite run_bind. unfold run at 1, Stat. simpl.
    rewrite bool_decide_eq_false_2 by (rewrite Hd; by intros []).
    rewrite run_bind. unfold run at 1, Mkdir. by rewrite Hm.
Qed.

Lemma fileGet_total shard key fs :
  dirs_ok → reads_ok →
  ∃ fs1, run (fileGet dir fl shard key) fs = Ok (fs1, content fs shard key).
Proof.
  intros Hm [Hr _]. unfold fileGet.
  destruct (shardDir_total shard fs Hm) as [fs1 Hs].
  rewrite (run_seq _ _ _ _ _ Hs). apply shardDir_inv in Hs as (_ & _ & Hc).
  exists fs1. rewrite <-Hc. unfold run, ReadFile. simpl. by rewrite Hr.
Qed.

Lemma WriteFile_run p c fs :
  ∃ fs' ok, run (WriteFile fl p c) fs = Ok (fs', ok) ∧
    (write_fails fl p = None → ok = true) ∧
    (ok = true → read_file p fs' = Some c).
Proof.
  unfold run, WriteFile. destruct (write_fails fl p) as [[|n]|]; simpl;
    do 2 eexists; split_and!; try done.
  intros _. unfold read_file, put_file. rewrite lookup_insert_eq. simpl.
  by rewrite lookup_insert_eq.
Qed.

Lemma Rename_run old new c fs :
  read_file old fs = Some c →
  ∃ fs' ok, run (Rename fl old new) fs = Ok (fs', ok) ∧
    (rename_fails fl old = false → ok = true).
Proof.
  intros Hr. unfold run, Rename. rewrite Hr.
  destruct (rename_fails fl old); simpl; by do 2 eexists.
Qed.

Lemma filePut_total shard key c fs :
  dirs_ok →
  ∃ fs' ok, run (filePut dir fl shard key c) fs = Ok (fs', ok) ∧
    (writes_ok → ok = true).
Proof.
  intros Hm. unfold filePut. destruct (shardDir_total shard fs Hm) as [fs1 Hs].
  rewrite (run_seq _ _ _ _ _ Hs).
  destruct (shardDir_total shard fs1 Hm) as [fs2 Hs2].
  rewrite (run_seq _ _ _ _ _ Hs2).
  destruct (WriteFile_run (shard_path dir shard, temp_file key) c fs2)
    as (fs3 & ok & Hw & Hok & Hc). rewrite (run_seq _ _ _ _ _ Hw).
  destruct ok; simpl; [|by do 2 eexists; split; [done|intros []; auto]].
  destruct (Rename_run _ (shard_path dir shard, key_file key) _ _ (Hc eq_refl))
    as (fs4 & ok & Hr & Hok2). rewrite (run_seq _ _ _ _ _ Hr).
  destruct ok; simpl; do 2 eexists; (split; [done|]); [done|].
  intros []; auto.
Qed.

Lemma filePut_inv shard key c fs fs' ok :
  run (filePut dir fl shard key c) fs = Ok (fs', ok) →
  if ok then updated shard key c fs fs' else same fs fs'.
Proof.
  intros Hr. destruct (filePut_content_triple shard key c fs fs) as [_ Hq];
    [done|]. exact (Hq _ _ Hr).
Qed.

(** [filePut] is a put: as long as directories can be created it returns,
    with success when neither the write nor the rename fails; after a success
    [fileGet] reads the new content, after an error it still reads the old
    one, and for every other key of any shard it reads what it did before. *)
Theorem filePut_fileGet shard key c fs :
  dirs_ok → reads_ok →
  ∃ fs' ok, run (filePut dir fl shard key c) fs = Ok (fs', ok) ∧
    (writes_ok → ok = true) ∧
    (∃ fs1, run (fileGet dir fl shard key) fs' =
       Ok (fs1, if ok then Some c else content fs shard key)) ∧
    (∀ s k, (s, k) ≠ (shard, key) →
       ∃ fs1, run (fileGet dir fl s k) fs' = Ok (fs1, content fs s k)).
Proof.
  intros Hm Hr. destruct (filePut_total shard key c fs Hm) as (fs' & ok & Hp & Hok).
  exists fs', ok. split; [done|]. split; [done|]. apply filePut_inv in Hp.
  assert (∀ s k, (s, k) ≠ (shard, key) → content fs' s k = content fs s k) as Ho.
  { destruct ok; [by destruct Hp|by intros]. }
  split.
  - replace (if ok then Some c else content fs shard key)
      with (content fs' shard key); [by apply fileGet_total|].
    destruct ok; [by destruct Hp|done].
  - intros s k Hne. rewrite <-(Ho s k Hne). by apply fileGet_total.
Qed.

Lemma filePut_crash_inv shard key c fs fs' :
  crash (filePut dir fl shard key c) fs fs' →
  same fs fs' ∨ updated shard key c fs fs'.
Proof.
  intros Hc. destruct (filePut_content_triple shard key c fs fs) as [Hq _];
    [done|]. exact (Hq _ Hc).
Qed.

(** C17. [filePut] is atomic with respect to crashes: wherever a crash cuts it
    short, also in the middle of a write, either no key has changed, or the
    key has the new content and every other key of every shard is as it
    was. *)
Theorem filePut_crash_atomic shard key c fs fs' :
  crash (filePut dir fl shard key c) fs fs' →
  same fs fs' ∨ updated shard key c fs fs'.
Proof. apply filePut_crash_inv. Qed.
(** ** Whole shards *)

(** A shard directory holds only files that [filePut] makes. *)
Definition dir_ok (files : gmap string string) : Prop :=
  ∀ n c, files !! n = Some c → ∃ k, n = key_file k ∨ n = temp_file k.

Lemma key_name_key k : key_name (key_file k) = Ok (Some (encodeKey k)).
Proof.
  unfold key_name, key_file. rewrite length_string_app. cbn [String.length].
  destruct (Nat.ltb_spec (4 + String.length (encodeKey k)) 4); [lia|].
  pose proof (substring_prefix "key-" (encodeKey k)) as Hp.
  pose proof (substring_suffix "key-" (encodeKey k)) as Hs.
  cbn [String.length] in Hp, Hs. rewrite Hp, bool_decide_eq_true_2 by done.
  by replace (4 + String.length (encodeKey k) - 4)
    with (String.length (encodeKey k)) by lia; rewrite Hs.
Qed.

Lemma key_name_temp k : key_name (temp_file k) = Ok None.
Proof.
  unfold key_name, temp_file. rewrite length_string_app. cbn [String.length].
  destruct (Nat.ltb_spec (5 + String.length (encodeKey k)) 4); [lia|].
  rewrite bool_decide_eq_false_2; [done|].
  change ("temp-" +:+ encodeKey k) with ("temp" +:+ ("-" +:+ encodeKey k)).
  pose proof (substring_prefix "temp" ("-" +:+ encodeKey k)) as Hp.
  cbn [String.length] in Hp. by rewrite Hp.
Qed.

Lemma read_files_ok shard fs files names m :
  reads_ok → fs !! shard_path dir shard = Some files → dir_ok files →
  (∀ n, n ∈ names → is_Some (files !! n)) →
  ∃ m', run (read_files dir fl shard names m) fs = Ok (fs, m') ∧
    ∀ k, m' !! k =
      if decide (key_file k ∈ names) then files !! key_file k else m !! k.
Proof.
  intros [Hread _] Hd Hok. revert m.
  induction names as [|n names IH]; intros m Hn.
  { exists m. split; [done|]. intros k. done. }
  destruct (Hn n) as [c Hc]; [apply elem_of_cons; auto|].
  assert (∀ x, x ∈ names → is_Some (files !! x)) as Hn'.
  { intros x Hx. apply Hn. apply elem_of_cons. auto. }
  destruct (Hok n c Hc) as [k0 [->| ->]]; cbn [read_files]; rewrite run_bind, run_lift.
  - rewrite key_name_key. simpl. unfold decodeKey, encodeKey.
    rewrite run_bind, run_lift, Decode_Encode. simpl.
    assert (run (fileGet dir fl shard k0) fs = Ok (fs, Some c)) as Hg.
    { unfold fileGet.
      rewrite (run_seq _ _ _ _ _ (shardDir_there _ _ (mk_is_Some _ _ Hd))).
      unfold run, ReadFile, read_file. simpl. rewrite Hread, Hd. simpl.
      by rewrite Hc. }
    rewrite (run_seq _ _ _ _ _ Hg), run_bind, run_lift. simpl.
    destruct (IH (<[k0 := c]> m) Hn') as (m' & -> & Hm').
    exists m'. split; [done|]. intros k. rewrite Hm'.
    destruct (decide (key_file k ∈ names)) as [Hin|Hin].
    { by rewrite decide_True by (apply elem_of_cons; auto). }
    destruct (decide (k0 = k)) as [->|Hne].
    + rewrite lookup_insert_eq. by rewrite decide_True by (apply elem_of_cons; auto).
    + rewrite lookup_insert_ne by done. rewrite decide_False; [done|].
      rewrite elem_of_cons. intros [->%key_file_inj|?]; done.
  - rewrite key_name_temp. simpl. destruct (IH m Hn') as (m' & -> & Hm').
    exists m'. split; [done|]. intros k. rewrite Hm'.
    destruct (decide (key_file k ∈ names)) as [Hin|Hin].
    { by rewrite decide_True by (apply elem_of_cons; auto). }
    rewrite decide_False; [done|]. rewrite elem_of_cons. naive_solver.
Qed.

Definition shard_ok (shard : Z) fs : Prop :=
  ∀ files, fs !! shard_path dir shard = Some files → dir_ok files.

Lemma dir_ok_empty : dir_ok ∅.
Proof. intros n c. by rewrite lookup_empty. Qed.

Lemma dir_ok_insert files n c :
  dir_ok files → (∃ k, n = key_file k ∨ n = temp_file k) →
  dir_ok (<[n := c]> files).
Proof.
  intros Hok Hn n' c' [[<- _]|[_ Hc]]%lookup_insert_Some; [done|by eapply Hok].
Qed.

Lemma dir_ok_subseteq files files' : files' ⊆ files → dir_ok files → dir_ok files'.
Proof. intros Hsub Hok n c Hn. by eapply Hok, lookup_weaken. Qed.

Lemma shard_ok_insert shard files fs :
  dir_ok files → shard_ok shard (<[shard_path dir shard := files]> fs).
Proof. intros Hok files'. rewrite lookup_insert_eq. by intros [= <-]. Qed.

Lemma shard_ok_default shard fs :
  shard_ok shard fs → dir_ok (default ∅ (fs !! shard_path dir shard)).
Proof.
  intros Hok. destruct (fs !! _) eqn:Hd; simpl; [by apply Hok|apply dir_ok_empty].
Qed.

(** Every step of [filePut] keeps the directory in order. *)
Lemma filePut_shard_ok_triple shard key c :
  triple (shard_ok shard) (filePut dir fl shard key c) (λ _, shard_ok shard)
    (shard_ok shard).
Proof.
  eapply triple_weaken; [apply (filePut_triple (shard_ok shard) (shard_ok shard))|..].
  - intros fs _ _. apply shard_ok_insert, dir_ok_empty.
  - intros fs c' Hok _. apply shard_ok_insert, dir_ok_insert; [|eauto].
    by apply shard_ok_default.
  - intros fs Hok. apply shard_ok_insert, dir_ok_insert; [|eauto]. simpl.
    rewrite lookup_alter_eq. eapply dir_ok_subseteq; [|by apply shard_ok_default].
    destruct (fs !! _); simpl; [apply delete_subseteq|done].
  - done.
  - by intros [].
  - naive_solver.
Qed.

(** Reading a shard that only [filePut] has written to gives exactly the
    contents of the keys; files that a crash left behind do not matter. *)
Lemma fileReadShard_contents shard fs :
  dirs_ok → reads_ok → shard_ok shard fs →
  ∃ fs1 m, run (fileReadShard dir fl shard) fs = Ok (fs1, m) ∧
    ∀ k, m !! k = content fs shard k.
Proof.
  intros Hm Hrd Hok. destruct (shardDir_total shard fs Hm) as [fs1 Hs].
  destruct (shardDir_triple (shard_ok shard) shard) with (fs := fs) as [_ Hq];
    [intros; apply shard_ok_insert, dir_ok_empty|done|].
  destruct (Hq _ _ Hs) as (_ & Hok1 & [files Hf]).
  pose proof (shardDir_inv _ _ _ _ Hs) as (_ & _ & Hc).
  destruct (read_files_ok shard fs1 files (sorted_keys files) ∅ Hrd Hf)
    as (m & Hr & Hk); [by apply Hok1|by intros n ?%elem_of_sorted_keys|].
  exists fs1, m. split.
  - unfold fileReadShard. rewrite (run_seq _ _ _ _ _ Hs), run_bind.
    unfold run at 1, ReadDir. destruct Hrd as [_ Hrd]. simpl. rewrite Hrd, Hf.
    by rewrite run_bind, run_lift.
  - intros k. rewrite <-Hc, Hk. unfold content, read_file. simpl. rewrite Hf. simpl.
    case_decide as Hin; [done|]. rewrite elem_of_sorted_keys in Hin.
    by destruct (files !! key_file k); [destruct Hin|rewrite lookup_empty].
Qed.

(** Recovery after a crash: when [filePut] was cut short by a crash, also
    in the middle of a write, [fileReadShard] afterwards succeeds and returns
    the shard as it was before, except that the key may already have the new
    content; the temporary file left behind is not read as a key. *)
Theorem crash_then_fileReadShard shard key c fs fs' :
  dirs_ok → reads_ok → shard_ok shard fs →
  crash (filePut dir fl shard key c) fs fs' →
  ∃ fs1 m, run (fileReadShard dir fl shard) fs' = Ok (fs1, m) ∧
    (∀ k, k ≠ key → m !! k = content fs shard k) ∧
    (m !! key = content fs shard key ∨ m !! key = Some c).
Proof.
  intros Hm Hrd Hok Hc.
  destruct (filePut_shard_ok_triple shard key c fs Hok) as [Hok' _].
  destruct (fileReadShard_contents shard fs' Hm Hrd (Hok' _ Hc))
    as (fs1 & m & Hr & Hcont).
  exists fs1, m. split; [done|]. rewrite !Hcont.
  destruct (filePut_crash_inv _ _ _ _ _ Hc) as [Hs|[Hk Ho]]; (split; [|by auto]);
    intros k Hne; rewrite Hcont; [done|]. apply Ho. congruence.
Qed.

(** *** Replacing a shard *)

(** What a replacement that is under way can have left: a key of the shard has
    its old content, none, or a new one; the other shards are as they were. *)
Definition partly (shard : Z) (kvs : list (string * string)) fs0 fs : Prop :=
  (∀ k, content fs shard k = content fs0 shard k ∨ content fs shard k = None ∨
     ∃ v, (k, v) ∈ kvs ∧ content fs shard k = Some v) ∧
  (∀ s k, s ≠ shard → content fs s k = content fs0 s k).

Lemma partly_same shard kvs fs0 fs fs' :
  partly shard kvs fs0 fs → same fs fs' → partly shard kvs fs0 fs'.
Proof.
  intros [Hk Ho] Hs. split; [intros k; rewrite Hs; apply Hk|].
  intros s k Hne. rewrite Hs. by apply Ho.
Qed.

Lemma partly_removed shard kvs fs0 fs fs' :
  partly shard kvs fs0 fs →
  (∀ k, content fs' shard k = content fs shard k ∨ content fs' shard k = None) →
  (∀ s k, s ≠ shard → content fs' s k = content fs s k) →
  partly shard kvs fs0 fs'.
Proof.
  intros [Hk Ho] Hk' Ho'. split.
  - intros k. destruct (Hk' k) as [->| ->]; [apply Hk|auto].
  - intros s k Hne. rewrite Ho' by done. by apply Ho.
Qed.

Definition replacing (shard : Z) kvs fs0 fs : Prop :=
  partly shard kvs fs0 fs ∧ shard_ok shard fs.

Lemma put_all_triple shard kvs kvs' fs0 :
  (∀ kv, kv ∈ kvs' → kv ∈ kvs) →
  triple (replacing shard kvs fs0) (put_all dir fl shard kvs')
    (λ _, replacing shard kvs fs0) (replacing shard kvs fs0).
Proof.
  intros Hsub. induction kvs' as [|[k v] kvs' IH]; cbn [put_all].
  { apply triple_ret. auto. }
  fs_step; [|apply IH; intros kv Hkv; apply Hsub, elem_of_cons; auto].
  intros fs [Hp Hok].
  destruct (filePut_content_triple shard k v fs fs) as [Hc Hq]; [done|].
  destruct (filePut_shard_ok_triple shard k v fs Hok) as [Hc' Hq'].
  assert (∀ fs', updated shard k v fs fs' → partly shard kvs fs0 fs') as Hup.
  { intros fs' [Hk Ho]. destruct Hp as [Hpk Hpo]. split.
    - intros k'. destruct (decide (k' = k)) as [->|Hne].
      + right; right. exists v. split; [apply Hsub, elem_of_cons; auto|done].
      + rewrite Ho by congruence. apply Hpk.
    - intros s k' Hne. rewrite Ho by congruence. by apply Hpo. }
  split.
  - intros fs' Hcr. split; [|by apply Hc'].
    destruct (Hc _ Hcr); [by eapply partly_same|by apply Hup].
  - intros fs' ok Hr. split; [|by eapply Hq'].
    specialize (Hq _ _ Hr). destruct ok; [by apply Hup|by eapply partly_same].
Qed.

Lemma delete_content shard fs s k :
  content (delete (shard_path dir shard) fs) s k =
  if decide (s = shard) then None else content fs s k.
Proof.
  unfold content, read_file. simpl. case_decide as Hs.
  - subst. by rewrite lookup_delete_eq.
  - rewrite lookup_delete_ne; [done|]. intros Heq%shard_path_inj. done.
Qed.

Lemma fileReplaceShard_triple shard kvs fs0 :
  triple (replacing shard kvs fs0) (fileReplaceShard dir fl shard kvs)
    (λ _, replacing shard kvs fs0) (replacing shard kvs fs0).
Proof.
  unfold fileReplaceShard. fs_step; [apply shardDir_triple|].
  { intros fs [Hp Hok] Hd. split; [|apply shard_ok_insert, dir_ok_empty].
    eapply partly_same; [done|]. intros s k. by rewrite mkdir_content. }
  apply triple_pure. intros ->. fs_step; [|by apply put_all_triple].
  apply RemoveAll_triple.
  - intros fs [[Hp Hok] _]. split; [done|]. split.
    + eapply partly_removed; [done|..].
      * intros k. rewrite delete_content, decide_True by done. auto.
      * intros s k Hne. by rewrite delete_content, decide_False.
    + intros files. by rewrite lookup_delete_eq.
  - intros fs files files' [[Hp Hok] _] Hd Hsub. split.
    + eapply partly_removed; [done|..].
      * intros k. unfold content, read_file. simpl. rewrite lookup_insert_eq, Hd.
        simpl. destruct (files' !! key_file k) eqn:Hk; [left|by right].
        symmetry. by eapply lookup_weaken.
      * intros s k Hne. apply content_other_dir. intros ?%shard_path_inj. done.
    + apply shard_ok_insert. eapply dir_ok_subseteq; [done|]. by apply Hok.
Qed.

(** A crash while a shard is being replaced can lose keys of the shard, but
    [fileReadShard] afterwards succeeds and returns nothing but contents of
    the old and of the new map, and no other shard has changed. *)
Theorem fileReplaceShard_crash shard kvs fs fs' :
  dirs_ok → reads_ok → shard_ok shard fs →
  crash (fileReplaceShard dir fl shard kvs) fs fs' →
  (∃ fs1 m, run (fileReadShard dir fl shard) fs' = Ok (fs1, m) ∧
     ∀ k v, m !! k = Some v → content fs shard k = Some v ∨ (k, v) ∈ kvs) ∧
  (∀ s k, s ≠ shard → content fs' s k = content fs s k).
Proof.
  intros Hm Hrd Hok Hc.
  destruct (fileReplaceShard_triple shard kvs fs fs) as [Hcr _].
  { split; [|done]. split; [by auto|done]. }
  destruct (Hcr _ Hc) as [[Hk Ho] Hok']. split; [|done].
  destruct (fileReadShard_contents shard fs' Hm Hrd Hok') as (fs1 & m & Hr & Hcont).
  exists fs1, m. split; [done|]. intros k v. rewrite Hcont.
  destruct (Hk k) as [->|[->|(v' & Hv & ->)]]; [by auto|done|].
  intros [= <-]. auto.
Qed.

Lemma put_all_ok shard kvs fs :
  dirs_ok → writes_ok → NoDup kvs.*1 → shard_ok shard fs →
  ∃ fs', run (put_all dir fl shard kvs) fs = Ok (fs', ()) ∧ shard_ok shard fs' ∧
    (∀ k, content fs' shard k =
       match (list_to_map kvs : gmap string string) !! k with
       | Some v => Some v
       | None => content fs shard k
       end) ∧
    (∀ s k, s ≠ shard → content fs' s k = content fs s k).
Proof.
  intros Hm Hw. revert fs. induction kvs as [|[k v] kvs IH]; intros fs Hnd Hok.
  { exists fs. split_and!; [done|done| |done]. intros k. done. }
  rewrite fmap_cons in Hnd. apply NoDup_cons in Hnd as [Hk Hnd]. simpl in Hk.
  cbn [put_all].
  destruct (filePut_total shard k v fs Hm) as (fs1 & ok & Hp & Htrue).
  rewrite (Htrue Hw) in Hp. rewrite (run_seq _ _ _ _ _ Hp).
  destruct (filePut_shard_ok_triple shard k v fs Hok) as [_ Hok1].
  specialize (Hok1 _ _ Hp). apply filePut_inv in Hp as [Hkey Ho].
  destruct (IH fs1 Hnd Hok1) as (fs' & Hr & Hok' & Hc & Hs).
  exists fs'. split; [done|]. split; [done|]. split.
  - intros k'. rewrite Hc. cbn [list_to_map foldr uncurry].
    destruct (decide (k = k')) as [<-|Hne].
    + rewrite lookup_insert_eq. by rewrite (not_elem_of_list_to_map_1 _ _ Hk).
    + rewrite lookup_insert_ne by done.
      destruct (list_to_map _ !! k'); [done|]. apply Ho. congruence.
  - intros s k' Hne. rewrite Hs by done. apply Ho. congruence.
Qed.

(** C30. Replacing a shard and reading it back: on a disk without faults, for
    every order in which the map is iterated, [fileReplaceShard] returns and
    [fileReadShard] then reads exactly the map it was given, nothing of the
    shard's earlier contents; the other shards are as they were. *)
Theorem fileReplaceShard_roundtrip shard (m : gmap string string) kvs fs :
  dirs_ok → writes_ok → reads_ok → remove_stops fl (shard_path dir shard) = None →
  kvs ≡ₚ map_to_list m →
  ∃ fs' fs1, run (fileReplaceShard dir fl shard kvs) fs = Ok (fs', ()) ∧
    run (fileReadShard dir fl shard) fs' = Ok (fs1, m) ∧
    ∀ s k, s ≠ shard → content fs' s k = content fs s k.
Proof.
  intros Hm Hw Hrd Hrm Hkvs. unfold fileReplaceShard.
  destruct (shardDir_total shard fs Hm) as [fs1 Hs].
  rewrite (run_seq _ _ _ _ _ Hs). apply shardDir_inv in Hs as (_ & [files Hf] & Hc1).
  set (fs2 := delete (shard_path dir shard) fs1).
  assert (run (RemoveAll fl (shard_path dir shard)) fs1 = Ok (fs2, true)) as Hdel.
  { unfold run, RemoveAll. by rewrite Hf, Hrm. }
  rewrite (run_seq _ _ _ _ _ Hdel).
  assert (NoDup kvs.*1) as Hnd.
  { rewrite Hkvs. apply NoDup_fst_map_to_list. }
  destruct (put_all_ok shard kvs fs2 Hm Hw Hnd) as (fs' & Hp & Hok & Hc & Hoth).
  { intros files'. unfold fs2. by rewrite lookup_delete_eq. }
  destruct (fileReadShard_contents shard fs' Hm Hrd Hok) as (fs3 & m' & Hr & Hm').
  exists fs', fs3. split; [done|]. split.
  - rewrite Hr. do 2 f_equal. apply map_eq. intros k. rewrite Hm', Hc.
    rewrite (list_to_map_proper kvs (map_to_list m)) by done.
    rewrite list_to_map_to_list. destruct (m !! k); [done|].
    unfold fs2. by rewrite delete_content, decide_True.
  - intros s k Hne. rewrite Hoth by done. unfold fs2.
    by rewrite delete_content, decide_False, Hc1.
Qed.
End contents.

(** ** Runs *)

Lemma no_faults_dirs : dirs_ok no_faults.
Proof. done. Qed.

Lemma no_faults_writes : writes_ok no_faults.
Proof. done. Qed.

Lemma no_faults_reads : reads_ok no_faults.
Proof. done. Qed.

Lemma filePut_fileGet_witness :
  ∃ fs' ok, run (filePut "d" no_faults 3 "a/b" "v") ∅ = Ok (fs', ok) ∧ ok = true ∧
    ∃ fs1, run (fileGet "d" no_faults 3 "a/b") fs' = Ok (fs1, Some "v").
Proof.
  destruct (filePut_fileGet "d" no_faults 3 "a/b" "v" ∅ no_faults_dirs
    no_faults_reads) as (fs' & ok & Hp & Hok & Hget & _).
  rewrite (Hok no_faults_writes) in *. exists fs', true.
  split; [exact Hp|]. split; [reflexivity|exact Hget].
Defined.

Definition old_disk : disk := {["d/shard-3/" := {[key_file "k" := "old"]}]}.

(** A crash after two of three bytes were written. *)
Definition torn_disk : disk :=
  put_file ("d/shard-3/", temp_file "k") (part_of 2 "new") old_disk.

Lemma old_disk_dir :
  run (shardDir "d" no_faults 3) old_disk = Ok (old_disk, "d/shard-3/").
Proof. apply (shardDir_there "d" no_faults 3). by apply lookup_singleton_is_Some. Qed.

Lemma torn_disk_crash : crash (filePut "d" no_faults 3 "k" "new") old_disk torn_disk.
Proof.
  right. eapply during_bind_r; [apply old_disk_dir|].
  eapply during_bind_r; [apply old_disk_dir|]. apply during_bind_l. left. by exists 2.
Qed.

Lemma filePut_crash_atomic_witness :
  same "d" old_disk torn_disk ∨ updated "d" 3 "k" "new" old_disk torn_disk.
Proof.
  exact (filePut_crash_atomic "d" no_faults 3 "k" "new" old_disk torn_disk
    torn_disk_crash).
Defined.

Lemma old_disk_ok : shard_ok "d" 3 old_disk.
Proof.
  intros files. unfold old_disk.
  change (shard_path "d" 3) with "d/shard-3/". rewrite lookup_singleton_eq.
  intros [= <-] n c [<- _]%lookup_singleton_Some. exists "k". by left.
Qed.

Lemma old_disk_lookup : content "d" old_disk 3 "k" = Some "old".
Proof. by vm_compute. Qed.

Lemma crash_then_fileReadShard_witness :
  ∃ fs1 m, run (fileReadShard "d" no_faults 3) torn_disk = Ok (fs1, m) ∧
    (m !! "k" = Some "old" ∨ m !! "k" = Some "new").
Proof.
  destruct (crash_then_fileReadShard "d" no_faults 3 "k" "new" old_disk torn_disk
    no_faults_dirs no_faults_reads old_disk_ok torn_disk_crash)
    as (fs1 & m & Hr & _ & Hk).
  exists fs1, m. split; [exact Hr|]. by rewrite old_disk_lookup in Hk.
Defined.

Lemma two_keys_list :
  [("b", "2"); ("a", "1")] ≡ₚ map_to_list
    ({["a" := "1"; "b" := "2"]} : gmap string string).
Proof.
  rewrite map_to_list_insert, map_to_list_singleton by done. constructor.
Qed.

Lemma fileReplaceShard_roundtrip_witness :
  ∃ fs' fs1,
    run (fileReplaceShard "d" no_faults 3 [("b", "2"); ("a", "1")]) old_disk =
      Ok (fs', ()) ∧
    run (fileReadShard "d" no_faults 3) fs' =
      Ok (fs1, {["a" := "1"; "b" := "2"]}).
Proof.
  destruct (fileReplaceShard_roundtrip "d" no_faults 3 {["a" := "1"; "b" := "2"]}
    [("b", "2"); ("a", "1")] old_disk no_faults_dirs no_faults_writes
    no_faults_reads eq_refl two_keys_list) as (fs' & fs1 & Hp & Hr & _).
  exists fs', fs1. split; [exact Hp|exact Hr].
Defined.

(** The replacement is not atomic: a crash between [RemoveAll] and the first
    [filePut] leaves neither the old nor the new content of a key. *)
Definition emptied_disk : disk := delete "d/shard-3/" old_disk.

Lemma emptied_disk_crash :
  crash (fileReplaceShard "d" no_faults 3 [("k", "new")]) old_disk emptied_disk.
Proof.
  right. eapply during_bind_r; [apply old_disk_dir|]. apply during_bind_l. by right.
Qed.

Lemma fileReplaceShard_not_atomic : content "d" emptied_disk 3 "k" = None.
Proof. by vm_compute. Qed.

Lemma fileReplaceShard_crash_witness :
  ∃ fs1 m, run (fileReadShard "d" no_faults 3) emptied_disk = Ok (fs1, m) ∧
    ∀ k v, m !! k = Some v →
      content "d" old_disk 3 k = Some v ∨ (k, v) ∈ [("k", "new")].
Proof.
  destruct (fileReplaceShard_crash "d" no_faults 3 [("k", "new")] old_disk
    emptied_disk no_faults_dirs no_faults_reads old_disk_ok emptied_disk_crash)
    as [(fs1 & m & Hr & Hm) _].
  exists fs1, m. split; [exact Hr|exact Hm].
Defined.
