(* ===== verification/LockService.v ===== *)
(** * The lock service: lockservice/server.go, client.go, common.go

    The server's handlers, the clerk, and the loop that accepts connections,
    with the test hook that makes a dying primary process one more request
    without answering it. *)

From S2P Require Import Prelude GoBase GoStrings.

Record LockArgs := mkLockArgs { LA_Lockname : string }.
Record LockReply := mkLockReply { LR_OK : bool }.
Record UnlockArgs := mkUnlockArgs { UA_Lockname : string }.
Record UnlockReply := mkUnlockReply { UR_OK : bool }.

(** [listening] is whether the listener [l] is open. *)
Record LockServer := mkLockServer {
  dead : bool;
  dying : bool;
  listening : bool;
  am_primary : bool;
  backup : string;
  locks : gmap string bool;
}.

Definition set_locks (l : gmap string bool) (ls : LockServer) : LockServer :=
  mkLockServer (dead ls) (dying ls) (listening ls) (am_primary ls) (backup ls) l.

(** ** Handlers *)

Definition Lock (args : LockArgs) (ls : LockServer) : LockServer * LockReply :=
  let locked := default false (locks ls !! LA_Lockname args) in
  if locked then (ls, mkLockReply false)
  else (set_locks (<[LA_Lockname args := true]> (locks ls)) ls, mkLockReply true).

(** The handler is not written: the reply is the zero value. *)
Definition Unlock (args : UnlockArgs) (ls : LockServer)
    : LockServer * UnlockReply := (ls, mkUnlockReply false).

(** ** The server process *)

Definition StartServer (bk : string) (primary : bool) : LockServer :=
  mkLockServer false false true primary bk ∅.

Definition kill (ls : LockServer) : LockServer :=
  mkLockServer true (dying ls) false (am_primary ls) (backup ls) (locks ls).

(** What happens to an accepted connection: served, served with the replies
    thrown away ([DeafConn]), or closed. *)
Inductive conn_event := Serve | ServeDeaf | CloseConn.

#[export] Instance conn_event_eq_dec : EqDecision conn_event.
Proof. solve_decision. Defined.

(** [DeafConn.Write] reports that everything was written. *)
Definition DeafConn_Write (p : string) : Z * bool := (Z.of_nat (String.length p), true).

(** One turn of the accept loop: [ok] is whether [Accept] returned a
    connection, [killed] whether the server was killed meanwhile. *)
Definition accept_turn (ok killed : bool) (ls : LockServer)
    : LockServer * list conn_event :=
  let ok := ok && listening ls in
  let ls := if killed then kill ls else ls in
  if ok && negb (dead ls) then
    if dying ls then
      (mkLockServer true (dying ls) false (am_primary ls) (backup ls) (locks ls),
       [ServeDeaf])
    else (ls, [Serve])
  else if ok then (ls, [CloseConn])
  else if negb (dead ls) then (kill ls, [])
  else (ls, []).

Fixpoint accept_loop (accepts : list (bool * bool)) (ls : LockServer)
    : LockServer * list conn_event :=
  match accepts with
  | [] => (ls, [])
  | (ok, killed) :: accepts =>
      if dead ls then (ls, [])
      else
        let '(ls, ev) := accept_turn ok killed ls in
        let '(ls, evs) := accept_loop accepts ls in (ls, ev ++ evs)
  end.

(** ** The clerk *)

Record Clerk := mkClerk { servers : string * string }.

Definition MakeClerk (primary bk : string) : Clerk := mkClerk (primary, bk).

(** [call]: [None] when the server cannot be reached or the call returns an
    error. *)
Definition call {R} (dial : string → bool) (rpc : string → option R)
    (srv : string) : option R :=
  if dial srv then rpc srv else None.

(** [Clerk.Lock]: the clerk only asks the primary. *)
Definition Clerk_Lock (dial : string → bool)
    (rpc : string → LockArgs → option LockReply) (ck : Clerk) (lockname : string)
    : bool :=
  match call dial (λ srv, rpc srv (mkLockArgs lockname)) (servers ck).1 with
  | None => false
  | Some reply => LR_OK reply
  end.

Definition Clerk_Unlock (ck : Clerk) (lockname : string) : bool := false.

(** ** Mutual exclusion *)

Inductive request := RLock (name : string) | RUnlock (name : string).

(** The replies of a server to a sequence of requests, in the order in which
    it takes its lock for them. *)
Fixpoint serve_all (reqs : list request) (ls : LockServer)
    : LockServer * list bool :=
  match reqs with
  | [] => (ls, [])
  | RLock n :: reqs =>
      let '(ls, r) := Lock (mkLockArgs n) ls in
      let '(ls, rs) := serve_all reqs ls in (ls, LR_OK r :: rs)
  | RUnlock n :: reqs =>
      let '(ls, r) := Unlock (mkUnlockArgs n) ls in
      let '(ls, rs) := serve_all reqs ls in (ls, UR_OK r :: rs)
  end.

(** The specification the code implements: the first [Lock] of a name is
    granted, everything else is refused.  [held] are the names locked so
    far. *)
Fixpoint spec_replies (held : gset string) (reqs : list request) : list bool :=
  match reqs with
  | [] => []
  | RLock n :: reqs => bool_decide (n ∉ held) :: spec_replies ({[n]} ∪ held) reqs
  | RUnlock _ :: reqs => false :: spec_replies held reqs
  end.

Definition abs (ls : LockServer) (held : gset string) : Prop :=
  ∀ n, default false (locks ls !! n) = bool_decide (n ∈ held).

Lemma serve_all_spec reqs ls held :
  abs ls held → (serve_all reqs ls).2 = spec_replies held reqs.
Proof.
  revert ls held. induction reqs as [|[n|n] reqs IH]; intros ls held Habs;
    cbn [serve_all spec_replies]; [done|..].
  - unfold Lock. simpl. rewrite (Habs n).
    destruct (decide (n ∈ held)) as [Hin|Hin].
    + rewrite bool_decide_eq_true_2 by done.
      destruct (serve_all reqs ls) as [ls' rs] eqn:Hs. simpl.
      rewrite bool_decide_eq_false_2 by tauto. f_equal.
      change rs with ((ls', rs).2). rewrite <-Hs.
      replace ({[n]} ∪ held) with held by set_solver. by apply IH.
    + rewrite bool_decide_eq_false_2 by done.
      destruct (serve_all reqs _) as [ls' rs] eqn:Hs. simpl.
      rewrite bool_decide_eq_true_2 by done. f_equal.
      change rs with ((ls', rs).2). rewrite <-Hs. apply IH.
      intros m. simpl. destruct (decide (n = m)) as [->|Hne].
      * rewrite lookup_insert_eq. simpl. symmetry.
        apply bool_decide_eq_true_2. set_solver.
      * rewrite lookup_insert_ne by done. rewrite (Habs m).
        apply bool_decide_ext. set_solver.
  - unfold Unlock. destruct (serve_all reqs ls) as [ls' rs] eqn:Hs. simpl.
    f_equal. change rs with ((ls', rs).2). rewrite <-Hs. by apply IH.
Qed.

Lemma spec_replies_true held reqs i :
  spec_replies held reqs !! i = Some true ↔
  ∃ n, reqs !! i = Some (RLock n) ∧ n ∉ held ∧
    ∀ j, j < i → reqs !! j ≠ Some (RLock n).
Proof.
  revert held i. induction reqs as [|r reqs IH]; intros held [|i].
  - naive_solver.
  - naive_solver.
  - destruct r as [n|n]; simpl.
    + split.
      * intros [= Hn]. exists n. norm_hyps. split_and!; [done|done|lia].
      * intros (m & [= <-] & Hm & _). by rewrite bool_decide_eq_true_2.
    + naive_solver.
  - destruct r as [n|n]; simpl; rewrite IH; split.
    + intros (m & Hm & Hnin & Hj). exists m. split_and!; [done|set_solver|].
      intros [|j] Hlt; simpl; [intros [= ->]; set_solver|]. apply Hj. lia.
    + intros (m & Hm & Hnin & Hj). exists m. split; [done|]. split.
      * intros Hin. apply elem_of_union in Hin as [?%elem_of_singleton|?]; [|done].
        subst. by apply (Hj 0); [lia|].
      * intros j Hlt. apply (Hj (S j)). lia.
    + intros (m & Hm & Hnin & Hj). exists m. split_and!; [done..|].
      intros [|j] Hlt; simpl; [done|]. apply Hj. lia.
    + intros (m & Hm & Hnin & Hj). exists m. split_and!; [done..|].
      intros j Hlt. apply (Hj (S j)). lia.
Qed.

(** Mutual exclusion: whatever requests arrive in whatever order, a
    freshly started server grants exactly the first [Lock] of every name, so
    no lock is ever granted twice; every other request is refused, also an
    [Unlock] of a held lock, which does not make the lock free again. *)
Theorem lock_granted_once bk primary reqs (i : nat) :
  (serve_all reqs (StartServer bk primary)).2 !! i = Some true ↔
  ∃ n, reqs !! i = Some (RLock n) ∧ ∀ j, j < i → reqs !! j ≠ Some (RLock n).
Proof.
  rewrite (serve_all_spec reqs _ ∅), spec_replies_true.
  - split; intros (n & Hn & H); exists n; [naive_solver|].
    split_and!; [done|set_solver|done].
  - intros n. simpl. rewrite lookup_empty. symmetry.
    apply bool_decide_eq_false_2. set_solver.
Qed.

(** ** A dying primary *)

Lemma accept_loop_dead accepts ls :
  dead ls = true → accept_loop accepts ls = (ls, []).
Proof. intros Hd. destruct accepts as [|[ok killed] accepts]; simpl; by rewrite ?Hd. Qed.

(** A dying server is dead after every turn; a turn serves at most one
    connection, and that one deaf. *)
Lemma accept_turn_dying ok killed ls :
  dying ls = true →
  dead (accept_turn ok killed ls).1 = true ∧
  (accept_turn ok killed ls).2 ∈ [[]; [ServeDeaf]; [CloseConn]].
Proof.
  intros Hd. unfold accept_turn.
  destruct (ok && listening ls), killed; simpl; rewrite ?Hd;
    destruct (dead ls) eqn:Hdd; simpl; rewrite ?Hd, ?Hdd; simpl;
    (split; [done|set_solver]).
Qed.

(** A dying server processes at most one more request, and never answers
    it: with [dying] set, the accept loop serves no connection normally and
    at most one deaf one, whatever [Accept] returns, and is dead after it. *)
Theorem dying_serves_one_deaf accepts ls :
  dying ls = true →
  let '(ls', evs) := accept_loop accepts ls in
  Serve ∉ evs ∧ length (filter (λ e, e = ServeDeaf) evs) ≤ 1 ∧
  (accepts ≠ [] → dead ls' = true).
Proof.
  intros Hd. destruct accepts as [|[ok killed] accepts]; cbn [accept_loop].
  { split_and!; [apply not_elem_of_nil|simpl; lia|done]. }
  destruct (dead ls) eqn:Hdead.
  { split_and!; [apply not_elem_of_nil|simpl; lia|done]. }
  destruct (accept_turn_dying ok killed ls Hd) as [Hdead' Hev].
  destruct (accept_turn ok killed ls) as [ls1 ev]. simpl in *.
  rewrite accept_loop_dead, app_nil_r by done.
  repeat (apply elem_of_cons in Hev as [->|Hev];
    [split_and!; [set_solver|vm_compute; lia|done]|]). set_solver.
Qed.

Lemma dying_serves_one_deaf_witness :
  let ls := mkLockServer false true true true "b" ∅ in
  (accept_loop [(true, false); (true, false)] ls).2 = [ServeDeaf] ∧
  Serve ∉ (accept_loop [(true, false); (true, false)] ls).2.
Proof.
  split; [done|].
  exact (proj1 (dying_serves_one_deaf [(true, false); (true, false)]
    (mkLockServer false true true true "b" ∅) eq_refl)).
Defined.
