(* ===== verification/Clerks.v ===== *)
(** * Clerks of the sharded services: shardmaster/client.go, shardkv/client.go,
    paxos-shardmaster/client.go, paxos-shardkv/client.go, diskv/client.go, and
    the clerk of the view service

    A clerk tries servers one after the other until one gives a usable reply.
    The outside world is a pair of streams: [rpc t s] is the outcome of the
    [t]-th RPC the clerk sends, if it goes to server [s] ([None] when the call
    fails), and [query k] the configuration that the [k]-th question to the
    shardmaster brings.  The loops of the source never give up; here they get
    a number of rounds, and [Blocked] means that they are still trying. *)

From S2P Require Import Prelude GoBase GoStrings.

(** ** Trying servers in turn *)

Section try_servers.
Context {R : Type} (rpc : nat → string → option R) (good stop : R → bool).

(** [for _, srv := range servers]: the number of RPCs sent so far, and the
    reply that ended the search, if any; a reply that satisfies [stop] breaks
    out of the loop. *)
Fixpoint try_servers (t : nat) (servers : list string) : nat * option R :=
  match servers with
  | [] => (t, None)
  | srv :: servers =>
      match rpc t srv with
      | Some reply =>
          if good reply then (S t, Some reply)
          else if stop reply then (S t, None)
          else try_servers (S t) servers
      | None => try_servers (S t) servers
      end
  end.

Lemma try_servers_found t servers t' reply :
  try_servers t servers = (t', Some reply) →
  good reply = true ∧ ∃ u srv, srv ∈ servers ∧ rpc u srv = Some reply.
Proof.
  revert t. induction servers as [|srv servers IH]; intros t Ht; [done|].
  simpl in Ht. destruct (rpc t srv) as [r|] eqn:Hr.
  - destruct (good r) eqn:Hg.
    + injection Ht as _ <-. split; [done|]. exists t, srv. split; [set_solver|done].
    + destruct (stop r); [done|].
      apply IH in Ht as (? & u & s & Hs & Hu). split; [done|].
      exists u, s. split; [set_solver|done].
  - apply IH in Ht as (? & u & s & Hs & Hu). split; [done|].
    exists u, s. split; [set_solver|done].
Qed.

(** If the first server that is reached gives a good reply, the search ends
    there. *)
Lemma try_servers_finds t servers :
  (∃ srv, srv ∈ servers ∧ ∀ u, ∃ reply, rpc u srv = Some reply ∧ good reply = true) →
  (∀ u srv reply, srv ∈ servers → rpc u srv = Some reply → good reply = false →
     stop reply = false) →
  ∃ t' reply, try_servers t servers = (t', Some reply).
Proof.
  intros (srv & Hin & Hgood) Hstop. revert t.
  induction servers as [|s servers IH]; intros t; [set_solver|]. simpl.
  assert (srv ≠ s → ∃ t' reply, try_servers (S t) servers = (t', Some reply)) as Hrest.
  { intros Hne. apply IH; [set_solver|]. intros. eapply Hstop; [|done..].
    set_solver. }
  destruct (decide (srv = s)) as [<-|Hne].
  - destruct (Hgood t) as (reply & -> & ->). eauto.
  - destruct (rpc t s) as [r|] eqn:Hr; [|auto].
    destruct (good r) eqn:Hg; [eauto|]. rewrite (Hstop t s r); [auto|set_solver|done..].
Qed.
End try_servers.

(** ** Configurations: shardmaster/common.go *)

Definition NShards : Z := 10.

Record Config := mkConfig {
  Num : Z;
  Shards : list Z;
  Groups : gmap Z (list string);
}.

(** ** The shardmaster's clerk: shardmaster/client.go *)

Module ShardMaster.
Record QueryReply := mkQueryReply {
  Q_WrongLeader : bool;
  Q_Err : string;
  Q_Config : Config;
}.

Record OpReply := mkOpReply { Op_WrongLeader : bool; Op_Err : string }.

Inductive OpArgs :=
| JoinArgs (Servers : gmap Z (list string))
| LeaveArgs (GIDs : list Z)
| MoveArgs (Shard GID : Z).

(** The loop that [Query], [Join], [Leave] and [Move] share. *)
Fixpoint until_leader {R} (rpc : nat → string → option R) (wrong : R → bool)
    (servers : list string) (rounds t : nat) : result R :=
  match rounds with
  | O => Blocked
  | S rounds =>
      match try_servers rpc (λ r, negb (wrong r)) (λ _, false) t servers with
      | (_, Some reply) => Ok reply
      | (t, None) => until_leader rpc wrong servers rounds t
      end
  end.

Definition Query (rpc : nat → string → Z → option QueryReply)
    (servers : list string) (rounds : nat) (num : Z) : result Config :=
  rbind (until_leader (λ t s, rpc t s num) Q_WrongLeader servers rounds 0)
    (λ reply, Ok (Q_Config reply)).

Definition Join (rpc : nat → string → OpArgs → option OpReply)
    (servers : list string) (rounds : nat) (groups : gmap Z (list string))
    : result unit :=
  rbind (until_leader (λ t s, rpc t s (JoinArgs groups)) Op_WrongLeader servers
           rounds 0) (λ _, Ok tt).

Definition Leave (rpc : nat → string → OpArgs → option OpReply)
    (servers : list string) (rounds : nat) (gids : list Z) : result unit :=
  rbind (until_leader (λ t s, rpc t s (LeaveArgs gids)) Op_WrongLeader servers
           rounds 0) (λ _, Ok tt).

Definition Move (rpc : nat → string → OpArgs → option OpReply)
    (servers : list string) (rounds : nat) (shard gid : Z) : result unit :=
  rbind (until_leader (λ t s, rpc t s (MoveArgs shard gid)) Op_WrongLeader servers
           rounds 0) (λ _, Ok tt).
End ShardMaster.

(** ** The Paxos shardmaster's clerk: paxos-shardmaster/client.go

    There is no leader: any answer will do. *)
Module PaxosShardMaster.
Inductive OpArgs :=
| JoinArgs (GID : Z) (Servers : list string)
| LeaveArgs (GID : Z)
| MoveArgs (Shard GID : Z).

Definition Query (rpc : nat → string → Z → option Config)
    (servers : list string) (rounds : nat) (num : Z) : result Config :=
  ShardMaster.until_leader (λ t s, rpc t s num) (λ _, false) servers rounds 0.

Definition Join (rpc : nat → string → OpArgs → option unit)
    (servers : list string) (rounds : nat) (gid : Z) (group : list string)
    : result unit :=
  ShardMaster.until_leader (λ t s, rpc t s (JoinArgs gid group)) (λ _, false)
    servers rounds 0.

Definition Leave (rpc : nat → string → OpArgs → option unit)
    (servers : list string) (rounds : nat) (gid : Z) : result unit :=
  ShardMaster.until_leader (λ t s, rpc t s (LeaveArgs gid)) (λ _, false)
    servers rounds 0.

Definition Move (rpc : nat → string → OpArgs → option unit)
    (servers : list string) (rounds : nat) (shard gid : Z) : result unit :=
  ShardMaster.until_leader (λ t s, rpc t s (MoveArgs shard gid)) (λ _, false)
    servers rounds 0.
End PaxosShardMaster.

(** ** Keys and shards *)

(** [key2shard]. *)
Definition key2shard (key : string) : Z :=
  let shard :=
    match key with
    | EmptyString => 0%Z
    | String c _ => Z.of_nat (nat_of_ascii c)
    end in
  (shard mod NShards)%Z.

Lemma key2shard_range key : (0 ≤ key2shard key < NShards)%Z.
Proof. unfold key2shard. by apply Z.mod_pos_bound. Qed.

(** The group that serves a key under a configuration:
    [config.Groups[config.Shards[key2shard(key)]]]. *)
Definition group_of (cfg : Config) (key : string) : result (option (list string)) :=
  rbind (oget (zget (Shards cfg) (key2shard key)) Panic) (λ gid,
  Ok (Groups cfg !! gid)).

(** The loop that the clerks of the key/value services share. *)
Section shard_loop.
Context {R : Type} (rpc : nat → string → option R) (good stop : R → bool).
Context (query : nat → Config) (key : string).

Fixpoint shard_loop (rounds t k : nat) (cfg : Config) : result (R * Config) :=
  match rounds with
  | O => Blocked
  | S rounds =>
      rbind (group_of cfg key) (λ o,
      match o with
      | Some servers =>
          match try_servers rpc good stop t servers with
          | (_, Some reply) => Ok (reply, cfg)
          | (t, None) => shard_loop rounds t (S k) (query k)
          end
      | None => shard_loop rounds t (S k) (query k)
      end)
  end.

(** What the loop returns was a good reply of a server of the key's group
    under the configuration the clerk then had. *)
Lemma shard_loop_sound rounds t k cfg reply cfg' :
  shard_loop rounds t k cfg = Ok (reply, cfg') →
  good reply = true ∧ (cfg' = cfg ∨ ∃ k', k ≤ k' ∧ cfg' = query k') ∧
  ∃ servers u srv, group_of cfg' key = Ok (Some servers) ∧ srv ∈ servers ∧
    rpc u srv = Some reply.
Proof.
  revert t k cfg. induction rounds as [|rounds IH]; intros t k cfg Hl; [done|].
  cbn [shard_loop] in Hl. destruct (group_of cfg key) as [o| | |] eqn:Hg;
    cbn [rbind] in Hl; [|done..].
  assert (∀ t', shard_loop rounds t' (S k) (query k) = Ok (reply, cfg') →
    good reply = true ∧ (cfg' = cfg ∨ ∃ k', k ≤ k' ∧ cfg' = query k') ∧
    ∃ servers u srv, group_of cfg' key = Ok (Some servers) ∧ srv ∈ servers ∧
      rpc u srv = Some reply) as Hnext.
  { intros t' (Hgood & Hc & Hs)%IH. split; [done|]. split; [|done]. right.
    destruct Hc as [->|(k' & Hk' & ->)]; [exists k|exists k'];
      (split; [lia|done]). }
  destruct o as [servers|]; [|by eauto].
  destruct (try_servers rpc good stop t servers) as [t' [r|]] eqn:Ht; [|by eauto].
  injection Hl as -> ->. apply try_servers_found in Ht as (? & u & s & Hs & Hu).
  split; [done|]. split; [auto|]. exists servers, u, s. auto.
Qed.

(** The clerk's questions bring well-formed configurations. *)
Definition config_ok (cfg : Config) : Prop := zlen (Shards cfg) = NShards.

Lemma group_of_ok cfg : config_ok cfg → ∃ o, group_of cfg key = Ok o.
Proof.
  intros Hc. unfold group_of.
  destruct (zget_is_Some (Shards cfg) (key2shard key)) as [gid ->].
  - rewrite Hc. apply key2shard_range.
  - by eexists.
Qed.

(** Once a configuration names a group that answers, the loop ends. *)
Lemma shard_loop_terminates rounds t k cfg k0 servers :
  config_ok cfg → (∀ k', config_ok (query k')) →
  group_of (query k0) key = Ok (Some servers) → k ≤ k0 → k0 < k + rounds →
  (∃ srv, srv ∈ servers ∧ ∀ u, ∃ reply, rpc u srv = Some reply ∧ good reply = true) →
  (∀ u srv reply, srv ∈ servers → rpc u srv = Some reply → good reply = false →
     stop reply = false) →
  ∃ out, shard_loop (S rounds) t k cfg = Ok out.
Proof.
  intros Hc Hq Hg Hk Hlt Hgood Hstop. revert t k cfg Hc Hk Hlt.
  induction rounds as [|rounds IH]; intros t k cfg Hc Hk Hlt; [lia|].
  assert (∀ t', ∃ out, shard_loop (S rounds) t' (S k) (query k) = Ok out) as Hnext.
  { intros t'. destruct (decide (k = k0)) as [->|Hne]; [|apply IH; [done|lia..]].
    cbn [shard_loop]. rewrite Hg. cbn [rbind].
    destruct (try_servers_finds rpc good stop t' servers Hgood Hstop)
      as (t'' & reply & ->). eauto. }
  destruct (group_of_ok cfg Hc) as [o Ho].
  change (∃ out, rbind (group_of cfg key) (λ o,
    match o with
    | Some servers =>
        match try_servers rpc good stop t servers with
        | (_, Some reply) => Ok (reply, cfg)
        | (t, None) => shard_loop (S rounds) t (S k) (query k)
        end
    | None => shard_loop (S rounds) t (S k) (query k)
    end) = Ok out).
  rewrite Ho. cbn [rbind]. destruct o as [srvs|]; [|auto].
  destruct (try_servers rpc good stop t srvs) as [t' [r|]]; [eauto|auto].
Qed.
End shard_loop.

(** ** The clerk of the sharded key/value service: shardkv/client.go *)

Module ShardKV.
(** The constants of shardkv/common.go; [Err] is a string. *)
Definition OK : string := "OK".
Definition ErrNoKey : string := "ErrNoKey".
Definition ErrWrongGroup : string := "ErrWrongGroup".

Record GetReply := mkGetReply {
  G_WrongLeader : bool;
  G_Err : string;
  G_Value : string;
}.
Record PutAppendReply := mkPutAppendReply { P_WrongLeader : bool; P_Err : string }.

Definition Get_good (r : GetReply) : bool :=
  negb (G_WrongLeader r) &&
  (bool_decide (G_Err r = OK) || bool_decide (G_Err r = ErrNoKey)).
Definition Get_stop (r : GetReply) : bool := bool_decide (G_Err r = ErrWrongGroup).

Definition Get (rpc : nat → string → string → option GetReply)
    (query : nat → Config) (rounds : nat) (cfg : Config) (key : string)
    : result (string * Config) :=
  rbind (shard_loop (λ t s, rpc t s key) Get_good Get_stop query key rounds 0 0 cfg)
    (λ '(reply, cfg), Ok (G_Value reply, cfg)).

Definition Put_good (r : PutAppendReply) : bool :=
  negb (P_WrongLeader r) && bool_decide (P_Err r = OK).
Definition Put_stop (r : PutAppendReply) : bool :=
  bool_decide (P_Err r = ErrWrongGroup).

Record PutAppendArgs := mkPutAppendArgs {
  PA_Key : string;
  PA_Value : string;
  PA_Op : string;
}.

Definition PutAppend (rpc : nat → string → PutAppendArgs → option PutAppendReply)
    (query : nat → Config) (rounds : nat) (cfg : Config) (key value op : string)
    : result Config :=
  rbind (shard_loop (λ t s, rpc t s (mkPutAppendArgs key value op)) Put_good
           Put_stop query key rounds 0 0 cfg) (λ '(_, cfg), Ok cfg).

Definition Put rpc query rounds cfg key value : result Config :=
  PutAppend rpc query rounds cfg key value "Put".
Definition Append rpc query rounds cfg key value : result Config :=
  PutAppend rpc query rounds cfg key value "Append".
End ShardKV.

(** ** The clerk of diskv/client.go *)

Module DisKVClerk.
(** The constants of diskv/common.go. *)
Definition OK : string := "OK".
Definition ErrNoKey : string := "ErrNoKey".
Definition ErrWrongGroup : string := "ErrWrongGroup".

Record GetReply := mkGetReply { G_Err : string; G_Value : string }.
Record PutAppendReply := mkPutAppendReply { P_Err : string }.

Definition Get_good (r : GetReply) : bool :=
  bool_decide (G_Err r = OK) || bool_decide (G_Err r = ErrNoKey).
Definition Get_stop (r : GetReply) : bool := bool_decide (G_Err r = ErrWrongGroup).

Definition Get (rpc : nat → string → string → option GetReply)
    (query : nat → Config) (rounds : nat) (cfg : Config) (key : string)
    : result (string * Config) :=
  rbind (shard_loop (λ t s, rpc t s key) Get_good Get_stop query key rounds 0 0 cfg)
    (λ '(reply, cfg), Ok (G_Value reply, cfg)).

Definition PutAppend
    (rpc : nat → string → ShardKV.PutAppendArgs → option PutAppendReply)
    (query : nat → Config) (rounds : nat) (cfg : Config) (key value op : string)
    : result Config :=
  rbind (shard_loop (λ t s, rpc t s (ShardKV.mkPutAppendArgs key value op))
           (λ r, bool_decide (P_Err r = OK))
           (λ r, bool_decide (P_Err r = ErrWrongGroup)) query key rounds 0 0 cfg)
    (λ '(_, cfg), Ok cfg).

Definition Put rpc query rounds cfg key value : result Config :=
  PutAppend rpc query rounds cfg key value "Put".
Definition Append rpc query rounds cfg key value : result Config :=
  PutAppend rpc query rounds cfg key value "Append".
End DisKVClerk.

(** ** The clerk of paxos-shardkv/client.go

    The file differs from diskv's in the names of the RPCs only. *)
Module PaxosShardKV.
Definition Get := DisKVClerk.Get.
Definition PutAppend := DisKVClerk.PutAppend.
Definition Put := DisKVClerk.Put.
Definition Append := DisKVClerk.Append.
End PaxosShardKV.

(** ** The clerk of the view service: viewservice/client.go *)

Module ViewClerk.
Record View := mkView { Viewnum : Z; Primary_ : string; Backup_ : string }.

Definition no_view : View := mkView 0 "" "".

(** [call]: [None] when the server does not respond. *)
Definition Ping (rpc : string → Z → option View) (me : string) (viewnum : Z)
    : View * bool :=
  match rpc me viewnum with
  | None => (no_view, false)
  | Some v => (v, true)
  end.

Definition Get (rpc : option View) : View * bool :=
  match rpc with
  | None => (no_view, false)
  | Some v => (v, true)
  end.

Definition Primary (rpc : option View) : string :=
  let '(v, ok) := Get rpc in if ok then Primary_ v else "".
End ViewClerk.

(** ** What the clerks promise *)

(** C38. The sharded clerk's [Get] is right and ends: a value it returns came
    in a reply marked OK or ErrNoKey, not from a wrong leader, of a server in
    the group that the clerk's configuration names for the key's shard; and
    once the shardmaster names a group in which some server answers, and no
    server turns the clerk away, [Get] returns within one more round. *)
Theorem shardkv_Get_correct rpc query rounds cfg key :
  (∀ v cfg', ShardKV.Get rpc query rounds cfg key = Ok (v, cfg') →
     ∃ servers u srv reply,
       group_of cfg' key = Ok (Some servers) ∧ srv ∈ servers ∧
       rpc u srv key = Some reply ∧ ShardKV.G_Value reply = v ∧
       ShardKV.G_WrongLeader reply = false ∧
       (ShardKV.G_Err reply = ShardKV.OK ∨ ShardKV.G_Err reply = ShardKV.ErrNoKey)) ∧
  (∀ (k0 : nat) servers,
     config_ok cfg → (∀ k, config_ok (query k)) →
     group_of (query k0) key = Ok (Some servers) → k0 + 2 ≤ rounds →
     (∃ srv, srv ∈ servers ∧
        ∀ u, ∃ reply, rpc u srv key = Some reply ∧ ShardKV.Get_good reply = true) →
     (∀ u srv reply, srv ∈ servers → rpc u srv key = Some reply →
        ShardKV.G_Err reply ≠ ShardKV.ErrWrongGroup) →
     ∃ v cfg', ShardKV.Get rpc query rounds cfg key = Ok (v, cfg')).
Proof.
  split.
  - intros v cfg' Hg. unfold ShardKV.Get in Hg. run_result.
    destruct x as [reply c]. injection Hg as <- <-.
    match goal with Hl : shard_loop _ _ _ _ _ _ _ _ _ = Ok _ |- _ =>
      apply shard_loop_sound in Hl as (Hgood & _ & servers & u & srv & ? & ? & ?) end.
    exists servers, u, srv, reply. unfold ShardKV.Get_good in Hgood.
    apply andb_true_iff in Hgood as [Hw%negb_true_iff He].
    apply orb_true_iff in He. rewrite !bool_decide_eq_true in He. auto 10.
  - intros k0 servers Hc Hq Hg Hr Hgood Hstop.
    destruct rounds as [|rounds]; [lia|].
    destruct (shard_loop_terminates (λ t s, rpc t s key) ShardKV.Get_good
      ShardKV.Get_stop query key rounds 0 0 cfg k0 servers Hc Hq Hg ltac:(lia)
      ltac:(lia) Hgood) as [[reply cfg'] Hl].
    { intros u srv reply Hin Hr' _. apply bool_decide_eq_false_2. by eapply Hstop. }
    unfold ShardKV.Get. rewrite Hl. simpl. eauto.
Qed.

(** ** A run: the first configuration has no group, the second one has *)

Definition cfg0 : Config := mkConfig 0 (replicate 10 0%Z) ∅.
Definition cfg1 : Config := mkConfig 1 (replicate 10 7%Z) {[7%Z := ["s1"; "s2"]]}.

Definition one_answers (t : nat) (s key : string) : option ShardKV.GetReply :=
  if bool_decide (s = "s2") then Some (ShardKV.mkGetReply false "OK" "v") else None.

Lemma shardkv_Get_correct_witness :
  ∃ v cfg', ShardKV.Get one_answers (λ _, cfg1) 2 cfg0 "k" = Ok (v, cfg').
Proof.
  apply (shardkv_Get_correct one_answers (λ _, cfg1) 2 cfg0 "k") with
    (k0 := 0) (servers := ["s1"; "s2"]); [done|done|done|lia| |].
  - exists "s2". split; [set_solver|]. intros u. by eexists.
  - intros u srv reply _. unfold one_answers. by case_bool_decide; intros [= <-].
Defined.
