(* ===== verification/Services.v ===== *)
(** * The servers on Raft: kvraft/server.go, client.go, common.go,
    shardmaster/server.go, shardkv/server.go

    The three servers start a Raft peer and keep a reference to it.  Their RPC
    handlers have empty bodies, so that a call leaves the reply at its zero
    value; the operations of kvraft's clerk are empty as well.  The last part
    runs the clerks of Clerks.v against these servers: the shardmaster
    acknowledges every request and a clerk of the sharded store never gets an
    answer. *)

From S2P Require Import Prelude GoBase GoStrings Persister Raft Clerks.

(** [Op] of the three servers has no fields. *)
Notation Op := unit.

Section services.
Context `{!Gob (gval Op)}.

(** ** kvraft *)

Record KV_PutAppendArgs := mkKVPutAppendArgs {
  KPA_Key : string;
  KPA_Value : string;
  KPA_Op : string;
}.
Record KV_PutAppendReply := mkKVPutAppendReply {
  KPR_WrongLeader : bool;
  KPR_Err : string;
}.
Record KV_GetArgs := mkKVGetArgs { KG_Key : string }.
Record KV_GetReply := mkKVGetReply {
  KGR_WrongLeader : bool;
  KGR_Err : string;
  KGR_Value : string;
}.

Record RaftKV := mkRaftKV {
  kv_me : nat;
  kv_rf : Raft Op;
  kv_maxraftstate : Z;
}.

(** The handlers: the reply stays what the caller passed. *)
Definition KV_Get (args : KV_GetArgs) (reply : KV_GetReply) (kv : RaftKV)
    : RaftKV * KV_GetReply := (kv, reply).
Definition KV_PutAppend (args : KV_PutAppendArgs) (reply : KV_PutAppendReply)
    (kv : RaftKV) : RaftKV * KV_PutAppendReply := (kv, reply).

Definition KV_Kill (kv : RaftKV) : RaftKV :=
  mkRaftKV (kv_me kv) (Kill (kv_rf kv)) (kv_maxraftstate kv).

(** [StartKVServer]; [nservers] is the number of client ends. *)
Definition StartKVServer (nservers me : nat) (ps : Persister) (maxraftstate : Z)
    : RaftKV :=
  mkRaftKV me (Make nservers me ps) maxraftstate.

Record KV_Clerk := mkKVClerk { ck_servers : list string }.
Definition KV_MakeClerk (servers : list string) : KV_Clerk := mkKVClerk servers.
Definition KV_Clerk_Get (ck : KV_Clerk) (key : string) : string := "".
Definition KV_Clerk_PutAppend (ck : KV_Clerk) (key value op : string) : KV_Clerk := ck.
Definition KV_Clerk_Put (ck : KV_Clerk) (key value : string) : KV_Clerk :=
  KV_Clerk_PutAppend ck key value "Put".
Definition KV_Clerk_Append (ck : KV_Clerk) (key value : string) : KV_Clerk :=
  KV_Clerk_PutAppend ck key value "Append".

(** ** shardmaster *)

(** The zero value of [Config], and [configs[0]] with its empty map. *)
Definition zero_config : Config := mkConfig 0 (replicate (Z.to_nat NShards) 0%Z) ∅.

Record ShardMaster := mkShardMaster {
  sm_me : nat;
  sm_rf : Raft Op;
  sm_configs : list Config;
}.

(** [Join], [Leave], [Move] and [Query]. *)
Definition SM_op (args : ShardMaster.OpArgs) (reply : ShardMaster.OpReply)
    (sm : ShardMaster) : ShardMaster * ShardMaster.OpReply := (sm, reply).
Definition SM_Query (num : Z) (reply : ShardMaster.QueryReply) (sm : ShardMaster)
    : ShardMaster * ShardMaster.QueryReply := (sm, reply).

Definition SM_Kill (sm : ShardMaster) : ShardMaster :=
  mkShardMaster (sm_me sm) (Kill (sm_rf sm)) (sm_configs sm).
Definition SM_Raft (sm : ShardMaster) : Raft Op := sm_rf sm.

Definition SM_StartServer (nservers me : nat) (ps : Persister) : ShardMaster :=
  mkShardMaster me (Make nservers me ps) [zero_config].

(** ** shardkv *)

Record ShardKV := mkShardKV {
  skv_me : nat;
  skv_rf : Raft Op;
  skv_gid : Z;
  skv_masters : nat;
  skv_maxraftstate : Z;
}.

Definition SKV_Get (key : string) (reply : ShardKV.GetReply) (kv : ShardKV)
    : ShardKV * ShardKV.GetReply := (kv, reply).
Definition SKV_PutAppend (args : ShardKV.PutAppendArgs)
    (reply : ShardKV.PutAppendReply) (kv : ShardKV)
    : ShardKV * ShardKV.PutAppendReply := (kv, reply).

Definition SKV_Kill (kv : ShardKV) : ShardKV :=
  mkShardKV (skv_me kv) (Kill (skv_rf kv)) (skv_gid kv) (skv_masters kv)
    (skv_maxraftstate kv).

Definition SKV_StartServer (nservers me : nat) (ps : Persister) (maxraftstate gid : Z)
    (nmasters : nat) : ShardKV :=
  mkShardKV me (Make nservers me ps) gid nmasters maxraftstate.

(** ** The clerks against these servers

    [up t s] says whether the [t]-th call reaches a server; the reply is what
    the handler leaves of the zero value. *)

Section clerks.
Context (up : nat → string → bool) (sm : ShardMaster).

Definition ask_op (t : nat) (s : string) (a : ShardMaster.OpArgs)
    : option ShardMaster.OpReply :=
  if up t s then Some (SM_op a (ShardMaster.mkOpReply false "") sm).2 else None.

Definition ask_query (t : nat) (s : string) (num : Z)
    : option ShardMaster.QueryReply :=
  if up t s
  then Some (SM_Query num (ShardMaster.mkQueryReply false "" zero_config) sm).2
  else None.

Lemma try_servers_answers {R} (rpc : nat → string → option R) good stop t servers :
  (∀ u s, is_Some (rpc u s) ↔ up u s = true) →
  (∀ u s r, rpc u s = Some r → good r = true) →
  match try_servers rpc good stop t servers with
  | (_, Some r) => good r = true ∧ ∃ u s, rpc u s = Some r
  | (t', None) => t' = t + length servers ∧
      ∀ i s, servers !! i = Some s → up (t + i) s = false
  end.
Proof.
  intros Hup Hgood. revert t. induction servers as [|s servers IH]; intros t; simpl.
  { split; [lia|done]. }
  destruct (rpc t s) as [r|] eqn:Hr.
  - rewrite (Hgood _ _ _ Hr). eauto.
  - specialize (IH (S t)). destruct (try_servers _ _ _ (S t) servers) as [t' [r|]]; [done|].
    destruct IH as [-> Hno]. split; [lia|]. intros [|i] s'; simpl.
    + intros [= <-]. rewrite Nat.add_0_r. apply not_true_iff_false.
      rewrite <-Hup, Hr. by intros [].
    + intros Hi. rewrite Nat.add_succ_r. by apply (Hno i).
Qed.

Lemma until_leader_answers {R} (rpc : nat → string → option R) wrong servers rounds t :
  (∀ u s, is_Some (rpc u s) ↔ up u s = true) →
  (∀ u s r, rpc u s = Some r → wrong r = false) →
  (∃ k i s, k < rounds ∧ servers !! i = Some s ∧
     up (t + k * length servers + i) s = true) →
  ∃ u s r, ShardMaster.until_leader rpc wrong servers rounds t = Ok r ∧ rpc u s = Some r.
Proof.
  intros Hup Hw. revert t. induction rounds as [|rounds IH]; intros t (k & i & s & Hk & Hi & Hs);
    [lia|]. cbn [ShardMaster.until_leader].
  pose proof (try_servers_answers rpc (λ r, negb (wrong r)) (λ _, false) t servers Hup)
    as Ht.
  destruct (try_servers _ _ _ t servers) as [t' [r|]].
  - destruct Ht as [_ (u & s' & Hr)].
    { intros u s' r' Hr'. by rewrite (Hw _ _ _ Hr'). }
    by exists u, s', r.
  - destruct Ht as [-> Hno]. { intros u s' r' Hr'. by rewrite (Hw _ _ _ Hr'). }
    apply IH. destruct k as [|k].
    { rewrite Nat.add_0_r in Hs. specialize (Hno i s Hi). congruence. }
    exists k, i, s. split; [lia|]. split; [done|]. rewrite <-Hs. f_equal. simpl. lia.
Qed.

(** The shardmaster's clerk believes every operation done: as soon as a call
    reaches a server it returns, and [Query] then brings the zero
    configuration, whatever was joined before. *)
Lemma shardmaster_acknowledges servers rounds k i s num :
  k < rounds → servers !! i = Some s → up (k * length servers + i) s = true →
  (∀ groups, ShardMaster.Join ask_op servers rounds groups = Ok tt) ∧
  ShardMaster.Query ask_query servers rounds num = Ok zero_config.
Proof.
  intros Hk Hi Hs. split.
  - intros groups. unfold ShardMaster.Join.
    destruct (until_leader_answers (λ t s, ask_op t s (ShardMaster.JoinArgs groups))
      ShardMaster.Op_WrongLeader servers rounds 0) as (u & s' & r & -> & _); [..|done].
    + intros u s'. unfold ask_op. destruct (up u s'); split; try done; by intros [].
    + intros u s' r. unfold ask_op. destruct (up u s'); [|done]. by intros [= <-].
    + by exists k, i, s.
  - unfold ShardMaster.Query.
    destruct (until_leader_answers (λ t s, ask_query t s num)
      ShardMaster.Q_WrongLeader servers rounds 0) as (u & s' & r & -> & Hr).
    + intros u s'. unfold ask_query. destruct (up u s'); split; try done; by intros [].
    + intros u s' r. unfold ask_query. destruct (up u s'); [|done]. by intros [= <-].
    + by exists k, i, s.
    + unfold ask_query in Hr. destruct (up u s'); [|done]. by injection Hr as <-.
Qed.
End clerks.

(** Under the zero configuration no group serves any key. *)
Lemma zero_config_group key : group_of zero_config key = Ok None.
Proof.
  unfold group_of.
  assert (zget (Shards zero_config) (key2shard key) = Some 0%Z) as ->; [|done].
  apply zget_Some. split; [apply key2shard_range|].
  change (Shards zero_config) with (replicate (Z.to_nat NShards) 0%Z).
  apply lookup_replicate. split; [done|]. pose proof (key2shard_range key). unfold NShards in *. lia.
Qed.

Lemma shard_loop_no_group {R} (rpc : nat → string → option R) good stop query key
    rounds t k cfg :
  (∀ j, query j = zero_config) → group_of cfg key = Ok None →
  shard_loop rpc good stop query key rounds t k cfg = Blocked.
Proof.
  intros Hq. revert t k cfg. induction rounds as [|rounds IH]; intros t k cfg Hg; [done|].
  cbn [shard_loop]. rewrite Hg. cbn [rbind]. apply IH. rewrite Hq.
  apply zero_config_group.
Qed.

(** With the servers as they are, the sharded store does not work: a call
    of the shardmaster's clerk returns as soon as one server is reached, with
    success for every [Join] and with the zero configuration for every
    [Query]; and under the configurations that the shardmaster gives out, the
    clerk's [Get] and [PutAppend] never return, whatever the key/value
    servers answer. *)
Theorem sharded_store_unusable up sm servers rounds k i s :
  k < rounds → servers !! i = Some s → up (k * length servers + i) s = true →
  ((∀ groups, ShardMaster.Join (ask_op up sm) servers rounds groups = Ok tt) ∧
   ∀ num, ShardMaster.Query (ask_query up sm) servers rounds num = Ok zero_config) ∧
  (∀ query, (∀ j, ∃ num, ShardMaster.Query (ask_query up sm) servers rounds num
                 = Ok (query j)) →
   ∀ rpc rpc' rounds' key value op,
     Clerks.ShardKV.Get rpc query rounds' zero_config key = Blocked ∧
     Clerks.ShardKV.PutAppend rpc' query rounds' zero_config key value op = Blocked).
Proof.
  intros Hk Hi Hs.
  pose proof (λ num, shardmaster_acknowledges up sm servers rounds k i s num Hk Hi Hs) as H.
  split; [split; [apply (H 0%Z)|intros num; apply H]|].
  intros query Hq rpc rpc' rounds' key value op.
  assert (∀ j, query j = zero_config) as Hzero.
  { intros j. destruct (Hq j) as [num Hn]. destruct (H num) as [_ Hz]. congruence. }
  unfold Clerks.ShardKV.Get, Clerks.ShardKV.PutAppend.
  by rewrite !(shard_loop_no_group _ _ _ _ _ _ _ _ _ Hzero) by apply zero_config_group.
Qed.
End services.

(** One server, reached by the second call. *)
Definition demo_master : ShardMaster :=
  SM_StartServer (Gob0:=bits_gob (gval Op)) 1 0 MakePersister.

Lemma sharded_store_unusable_witness :
  ShardMaster.Query (ask_query (λ t _, t =? 1) demo_master) ["m"] 2 (-1)
    = Ok zero_config ∧
  Clerks.ShardKV.Get (λ _ _ _, None) (λ _, zero_config) 5 zero_config "k" = Blocked.
Proof.
  destruct (sharded_store_unusable (λ t _, t =? 1) demo_master ["m"] 2 1 0 "m")
    as [[_ Hq] Hs]; [lia|reflexivity|reflexivity|].
  split; [apply Hq|].
  apply (Hs (λ _, zero_config)
    (λ _, ex_intro _ (-1)%Z (Hq (-1)%Z)) _ (λ _ _ _, None) 5 "k" "v" "Put").
Defined.
