(* ===== verification/ServiceConfig.v ===== *)
(** * The test harness of the replicated services: kvraft/config.go and
    shardmaster/config.go

    The two files are one program, up to the server they start, which is an
    instance of [RaftService] here.  The harness runs [n] servers and any
    number of clerks over one labrpc network.  Each server has an end-point to
    each server, renewed when it is started; each clerk has its own end-point
    to each server.  Connections are made and cut by enabling and disabling
    end-points.

    The names that [randstring] draws and the draws of [random_handles] are
    inputs.  A clerk, a pointer in the source, is known by the value that
    [nextClientId] had when it was made.  As in RaftConfig.v, what
    [cfg.saved[i]] holds is what the running server has persisted. *)

From S2P Require Import Prelude GoBase LabRpc Persister Raft RaftConfig Shuffle Clerks Services.

(** What the harness asks of a server on Raft. *)
Class RaftService (Srv : Type) := {
  service_name : string;
  start_server : nat → nat → Persister → Srv;
  raft_of : Srv → Raft Op;
  kill_server : Srv → Srv;
}.

Class RaftServiceLaws (Srv : Type) `{!Gob (gval Op)} `{!RaftService Srv} : Prop := {
  start_server_raft n me ps : raft_of (start_server n me ps : Srv) = Make n me ps;
  kill_server_raft (s : Srv) : raft_of (kill_server s) = Kill (raft_of s);
}.

Section config.
Context {Srv : Type} `{!RaftService Srv}.
Notation Network := (@LabRpc.Network Name _ _).

(** [sc_objects] are the labrpc servers made so far, as the names of the
    services they offer; [sc_killed] the instances that were shut down. *)
Record config := mkConfig {
  sc_net : Network;
  sc_n : nat;
  sc_servers : list (option Srv);
  sc_saved : list (option Persister);
  sc_endnames : list (option (list string));
  sc_clerks : gmap Z (list string);
  sc_nextClientId : Z;
  sc_objects : list (list string);
  sc_killed : list Srv;
}.

Definition with_net (rn : Network) (cfg : config) : config :=
  mkConfig rn (sc_n cfg) (sc_servers cfg) (sc_saved cfg) (sc_endnames cfg)
    (sc_clerks cfg) (sc_nextClientId cfg) (sc_objects cfg) (sc_killed cfg).
Definition with_servers (ss : list (option Srv)) (ps : list (option Persister))
    (cfg : config) : config :=
  mkConfig (sc_net cfg) (sc_n cfg) ss ps (sc_endnames cfg) (sc_clerks cfg)
    (sc_nextClientId cfg) (sc_objects cfg) (sc_killed cfg).
Definition with_endnames (es : list (option (list string))) (cfg : config) : config :=
  mkConfig (sc_net cfg) (sc_n cfg) (sc_servers cfg) (sc_saved cfg) es
    (sc_clerks cfg) (sc_nextClientId cfg) (sc_objects cfg) (sc_killed cfg).
Definition with_clerks (cks : gmap Z (list string)) (next : Z) (cfg : config) : config :=
  mkConfig (sc_net cfg) (sc_n cfg) (sc_servers cfg) (sc_saved cfg)
    (sc_endnames cfg) cks next (sc_objects cfg) (sc_killed cfg).
Definition with_objects (objs : list (list string)) (killed : list Srv) (cfg : config)
    : config :=
  mkConfig (sc_net cfg) (sc_n cfg) (sc_servers cfg) (sc_saved cfg)
    (sc_endnames cfg) (sc_clerks cfg) (sc_nextClientId cfg) objs killed.

(** [cfg.net.Enable(e, b)]. *)
Definition switch (b : bool) (e : string) (cfg : config) : config :=
  with_net (LabRpc.Enable (inl e) b (sc_net cfg)) cfg.

(** [cfg.endnames[i][j]]; None where the source panics. *)
Definition endname (cfg : config) (i j : nat) : option string :=
  row ← sc_endnames cfg !! i; es ← row; es !! j.

(** ** Connections between servers *)

Definition connectUnlocked (i : nat) (to : list nat) (cfg : config) : result config :=
  rbind (rfor (λ t cfg, rbind (oget (endname cfg i t) Panic) (λ e,
           Ok (switch true e cfg))) to cfg)
    (rfor (λ t cfg, rbind (oget (endname cfg t i) Panic) (λ e,
       Ok (switch true e cfg))) to).

Definition connect (i : nat) (to : list nat) (cfg : config) : result config :=
  connectUnlocked i to cfg.

(** The second loop tests [cfg.endnames[j]] for the position [j] of the server
    in [from]. *)
Definition disconnectUnlocked (i : nat) (from : list nat) (cfg : config) : result config :=
  rbind (rfor (λ t cfg, rbind (oget (sc_endnames cfg !! i) Panic) (λ row,
           match row with
           | Some es => rbind (oget (es !! t) Panic) (λ e, Ok (switch false e cfg))
           | None => Ok cfg
           end)) from cfg)
    (rfor (λ '(j, t) cfg, rbind (oget (sc_endnames cfg !! j) Panic) (λ row,
       match row with
       | Some _ => rbind (oget (endname cfg t i) Panic) (λ e, Ok (switch false e cfg))
       | None => Ok cfg
       end)) (imap pair from)).

Definition disconnect (i : nat) (from : list nat) (cfg : config) : result config :=
  disconnectUnlocked i from cfg.

Definition All (cfg : config) : list nat := seq 0 (sc_n cfg).

Definition ConnectAll (cfg : config) : result config :=
  rfor (λ i cfg, connectUnlocked i (All cfg) cfg) (seq 0 (sc_n cfg)) cfg.

Definition partition (p1 p2 : list nat) (cfg : config) : result config :=
  rbind (rfor (λ i cfg, rbind (disconnectUnlocked i p2 cfg) (connectUnlocked i p1))
           p1 cfg)
    (rfor (λ i cfg, rbind (disconnectUnlocked i p1 cfg) (connectUnlocked i p2)) p2).

(** ** Clerks *)

(** [cfg.clerks[ck]], nil for a clerk that is not there. *)
Definition clerk_ends (cfg : config) (ck : Z) : list string :=
  default [] (sc_clerks cfg !! ck).

Definition switch_client (b : bool) (ck : Z) (js : list nat) (cfg : config)
    : result config :=
  let endnames := clerk_ends cfg ck in
  rfor (λ t cfg, rbind (oget (endnames !! t) Panic) (λ e, Ok (switch b e cfg))) js cfg.

Definition ConnectClientUnlocked (ck : Z) (to : list nat) (cfg : config) : result config :=
  switch_client true ck to cfg.
Definition ConnectClient (ck : Z) (to : list nat) (cfg : config) : result config :=
  ConnectClientUnlocked ck to cfg.
Definition DisconnectClientUnlocked (ck : Z) (from : list nat) (cfg : config)
    : result config := switch_client false ck from cfg.
Definition DisconnectClient (ck : Z) (from : list nat) (cfg : config) : result config :=
  DisconnectClientUnlocked ck from cfg.

(** [makeClient]; the clerk is returned with its servers, the end-points in
    the order of [random_handles]. *)
Definition makeClient (names : list string) (draws : list nat) (to : list nat)
    (cfg : config) : result (config * (Z * list string)) :=
  rbind (make_ends names 0 (sc_net cfg)) (λ rn,
  rbind (oget (random_handles draws names) Panic) (λ handles,
  let ck := sc_nextClientId cfg in
  let cfg := with_clerks (<[ck := names]> (sc_clerks cfg)) (sc_nextClientId cfg + 1)
               (with_net rn cfg) in
  rbind (ConnectClientUnlocked ck to cfg) (λ cfg, Ok (cfg, (ck, handles))))).

(** [deleteClient], with the files it removes. *)
Definition deleteClient (ck : Z) (cfg : config) : config * list string :=
  (with_clerks (delete ck (sc_clerks cfg)) (sc_nextClientId cfg) cfg, clerk_ends cfg ck).

(** ** Servers *)

(** The content of [*cfg.saved[i]]. *)
Definition saved_now (cfg : config) (i : nat) : option Persister :=
  match mjoin (sc_servers cfg !! i) with
  | Some s => Some (persister (raft_of s))
  | None => mjoin (sc_saved cfg !! i)
  end.

Definition ShutdownServer (i : nat) (cfg : config) : result config :=
  rbind (disconnectUnlocked i (All cfg) cfg) (λ cfg,
  let cfg := with_net (LabRpc.DeleteServer (inr (Z.of_nat i)) (sc_net cfg)) cfg in
  let saved := <[i := Copy <$> saved_now cfg i]> (sc_saved cfg) in
  rbind (oget (sc_servers cfg !! i) Panic) (λ kv,
  match kv with
  | Some s =>
      Ok (with_objects (sc_objects cfg) (kill_server s :: sc_killed cfg)
            (with_servers (<[i := None]> (sc_servers cfg)) saved cfg))
  | None => Ok (with_servers (sc_servers cfg) saved cfg)
  end)).

Definition StartServer (i : nat) (names : list string) (cfg : config) : result config :=
  rbind (oget (sc_endnames cfg !! i) Panic) (λ _,
  let cfg := with_endnames (<[i := Some names]> (sc_endnames cfg)) cfg in
  rbind (make_ends names 0 (sc_net cfg)) (λ rn,
  let cfg := with_net rn cfg in
  let ps := match saved_now cfg i with
            | Some ps => Copy ps
            | None => MakePersister
            end in
  let kv := start_server (sc_n cfg) i ps in
  let cfg := with_servers (<[i := Some kv]> (sc_servers cfg))
               (<[i := Some ps]> (sc_saved cfg)) cfg in
  let srv := length (sc_objects cfg) in
  let cfg := with_objects (sc_objects cfg ++ [[service_name; "Raft"]]) (sc_killed cfg)
               cfg in
  Ok (with_net (LabRpc.AddServer (inr (Z.of_nat i)) srv (sc_net cfg)) cfg))).

Fixpoint find_leader (i : nat) (l : list (option Srv)) : result (bool * nat) :=
  match l with
  | [] => Ok (false, 0)
  | None :: _ => Panic
  | Some s :: l =>
      if (GetState (raft_of s)).2 then Ok (true, i) else find_leader (S i) l
  end.

(** [Leader]; a server that is down is a nil pointer. *)
Definition Leader (cfg : config) : result (bool * nat) :=
  find_leader 0 (take (sc_n cfg) (sc_servers cfg)).

(** One step of the loop of [make_partition]. *)
Definition deal (l i : nat) (st : nat * list nat * list nat)
    : result (nat * list nat * list nat) :=
  let '(j, p1, p2) := st in
  if i =? l then Ok st
  else if j <? length p1 then Ok (S j, <[j := i]> p1, p2)
  else if j - length p1 <? length p2
  then Ok (S j, p1, <[j - length p1 := i]> p2)
  else Panic.

(** The two sides for [n] servers of which [l] leads. *)
Definition sides (n l : nat) : result (list nat * list nat) :=
  let p1 := replicate (n / 2 + 1) 0 in
  let p2 := replicate (n / 2) 0 in
  rbind (rfor (deal l) (seq 0 n) (0, p1, p2)) (λ '(_, p1, p2),
  match p2 with
  | [] => Panic
  | _ => Ok (p1, <[length p2 - 1 := l]> p2)
  end).

Definition make_partition (cfg : config) : result (list nat * list nat) :=
  rbind (Leader cfg) (λ '(_, l), sides (sc_n cfg) l).

(** ** The whole *)

Definition LogSize (cfg : config) : result Z :=
  rfor (λ i logsize, rbind (oget (saved_now cfg i) Panic) (λ ps,
    let n := RaftStateSize ps in
    Ok (if Z.ltb logsize n then n else logsize))) (seq 0 (sc_n cfg)) 0%Z.

(** [cleanup] kills the servers that run. *)
Definition cleanup (cfg : config) : config :=
  with_servers (fmap (M:=option) kill_server <$> sc_servers cfg) (sc_saved cfg) cfg.

Definition empty_config (n : nat) : config :=
  mkConfig LabRpc.MakeNetwork n (replicate n None) (replicate n None)
    (replicate n None) ∅ (Z.of_nat n + 1000) [] [].

(** [make_config], with the names of each server's end-points. *)
Definition make_config (names : list (list string)) (unreliable : bool) : result config :=
  let n := length names in
  rbind (rfor (λ '(i, ns) cfg, StartServer i ns cfg) (zip (seq 0 n) names) (empty_config n))
    (λ cfg,
  rbind (ConnectAll cfg) (λ cfg,
  Ok (with_net (LabRpc.Reliable (negb unreliable) (sc_net cfg)) cfg))).
End config.

Arguments config Srv : clear implicits.

(** ** The two services *)

Section instances.
Context `{!Gob (gval Op)}.

#[export] Instance kvraft_service (maxraftstate : Z) : RaftService RaftKV := {
  service_name := "RaftKV";
  start_server n me ps := StartKVServer n me ps maxraftstate;
  raft_of := kv_rf;
  kill_server := KV_Kill;
}.

#[export] Instance kvraft_laws maxraftstate :
  @RaftServiceLaws RaftKV _ (kvraft_service maxraftstate).
Proof. by split. Qed.

#[export] Instance shardmaster_service : RaftService ShardMaster := {
  service_name := "ShardMaster";
  start_server n me ps := SM_StartServer n me ps;
  raft_of := sm_rf;
  kill_server := SM_Kill;
}.

#[export] Instance shardmaster_laws : @RaftServiceLaws ShardMaster _ shardmaster_service.
Proof. by split. Qed.
End instances.

(** ** The harness of the shardmaster

    shardmaster/config.go is kvraft/config.go with [ShardMaster] for [RaftKV]. *)
Module ShardMasterConfig.
Section shardmaster.
Context `{!Gob (gval Op)}.
Definition config := ServiceConfig.config ShardMaster.
Definition random_handles (draws : list nat) (kvh : list string) : option (list string) :=
  Shuffle.random_handles draws kvh.
Definition connectUnlocked (i : nat) (to : list nat) (cfg : config) : result config :=
  ServiceConfig.connectUnlocked i to cfg.
Definition connect (i : nat) (to : list nat) (cfg : config) : result config :=
  ServiceConfig.connect i to cfg.
Definition disconnectUnlocked (i : nat) (from : list nat) (cfg : config) : result config :=
  ServiceConfig.disconnectUnlocked i from cfg.
Definition disconnect (i : nat) (from : list nat) (cfg : config) : result config :=
  ServiceConfig.disconnect i from cfg.
Definition All (cfg : config) : list nat := ServiceConfig.All cfg.
Definition ConnectAll (cfg : config) : result config := ServiceConfig.ConnectAll cfg.
Definition partition (p1 p2 : list nat) (cfg : config) : result config :=
  ServiceConfig.partition p1 p2 cfg.
Definition makeClient (names : list string) (draws to : list nat) (cfg : config)
    : result (config * (Z * list string)) := ServiceConfig.makeClient names draws to cfg.
Definition deleteClient (ck : Z) (cfg : config) : config * list string :=
  ServiceConfig.deleteClient ck cfg.
Definition ConnectClientUnlocked (ck : Z) (to : list nat) (cfg : config) : result config :=
  ServiceConfig.ConnectClientUnlocked ck to cfg.
Definition DisconnectClientUnlocked (ck : Z) (from : list nat) (cfg : config) : result config :=
  ServiceConfig.DisconnectClientUnlocked ck from cfg.
Definition ConnectClient (ck : Z) (to : list nat) (cfg : config) : result config :=
  ServiceConfig.ConnectClient ck to cfg.
Definition DisconnectClient (ck : Z) (from : list nat) (cfg : config) : result config :=
  ServiceConfig.DisconnectClient ck from cfg.
Definition ShutdownServer (i : nat) (cfg : config) : result config :=
  ServiceConfig.ShutdownServer i cfg.
Definition StartServer (i : nat) (names : list string) (cfg : config) : result config :=
  ServiceConfig.StartServer i names cfg.
Definition Leader (cfg : config) : result (bool * nat) := ServiceConfig.Leader cfg.
Definition make_partition (cfg : config) : result (list nat * list nat) :=
  ServiceConfig.make_partition cfg.
Definition LogSize (cfg : config) : result Z := ServiceConfig.LogSize cfg.
Definition cleanup (cfg : config) : config := ServiceConfig.cleanup cfg.
Definition make_config (names : list (list string)) (unreliable : bool) : result config :=
  ServiceConfig.make_config names unreliable.
End shardmaster.
End ShardMasterConfig.
