(* ===== verification/ServiceWiring.v ===== *)
(** * The services' test network is wired as the harness says

    A port is a place where the harness keeps the name of an end-point: that
    of server [i] to server [j], or that of a clerk to server [j].  In every
    state that the harness reaches, ports have different end-points, each leads
    to its server, and the operations that connect and disconnect switch
    exactly the ports they mean to. *)

From S2P Require Import Prelude GoBase LabRpc Persister Raft RaftConfig RaftWiring Shuffle Clerks Services ServiceConfig.

Section wiring.
Context {Srv : Type} `{!RaftService Srv}.
Notation Network := (@LabRpc.Network Name _ _).
Notation config := (config Srv).
Implicit Types cfg : config.
Implicit Types rn : Network.

(** ** Ports *)

Definition port : Type := (nat * nat + Z * nat)%type.

Definition port_name cfg (p : port) : option string :=
  match p with
  | inl (i, j) => endname cfg i j
  | inr (ck, j) => clerk_ends cfg ck !! j
  end.

Definition port_to (p : port) : nat :=
  match p with inl (_, j) => j | inr (_, j) => j end.

Definition port_on cfg (p : port) : bool :=
  match port_name cfg p with
  | Some e => is_enabled (sc_net cfg) (inl e)
  | None => false
  end.

Record wired cfg : Prop := {
  w_endnames : length (sc_endnames cfg) = sc_n cfg;
  w_servers : length (sc_servers cfg) = sc_n cfg;
  w_saved : length (sc_saved cfg) = sc_n cfg;
  w_row i es : sc_endnames cfg !! i = Some (Some es) → length es = sc_n cfg;
  w_clerk ck es : sc_clerks cfg !! ck = Some es →
    length es = sc_n cfg ∧ (ck < sc_nextClientId cfg)%Z;
  w_inj p q e : port_name cfg p = Some e → port_name cfg q = Some e → p = q;
  w_end p e : port_name cfg p = Some e →
    is_Some (ends (sc_net cfg) !! inl e) ∧
    connection (sc_net cfg) (inl e) = Some (inr (Z.of_nat (port_to p)));
  w_up i s : sc_servers cfg !! i = Some (Some s) →
    ∃ o, server (sc_net cfg) (inr (Z.of_nat i)) = Some o ∧
      sc_objects cfg !! o = Some [service_name; "Raft"];
  w_down i : sc_servers cfg !! i = Some None →
    server (sc_net cfg) (inr (Z.of_nat i)) = None;
}.

(** Every server has been started. *)
Definition full cfg : Prop :=
  ∀ i, i < sc_n cfg → ∃ es, sc_endnames cfg !! i = Some (Some es).

Lemma endname_full cfg i j :
  wired cfg → full cfg → i < sc_n cfg → j < sc_n cfg → is_Some (endname cfg i j).
Proof.
  intros Hw Hf Hi Hj. destruct (Hf i Hi) as [es Hes].
  unfold endname. rewrite Hes. simpl. apply lookup_lt_is_Some.
  by rewrite (w_row _ Hw _ _ Hes).
Qed.

(** ** Switching ports *)

(** Only which ports are enabled has changed, each as [f] says. *)
Record rewired (f : port → bool → bool) cfg cfg' : Prop := {
  rw_same : cfg' = with_net (sc_net cfg') cfg;
  rw_ends : ends (sc_net cfg') = ends (sc_net cfg);
  rw_conn : connections (sc_net cfg') = connections (sc_net cfg);
  rw_servers : servers (sc_net cfg') = servers (sc_net cfg);
  rw_on p : is_Some (port_name cfg p) → port_on cfg' p = f p (port_on cfg p);
}.

Lemma rewired_name f cfg cfg' p :
  rewired f cfg cfg' → port_name cfg' p = port_name cfg p.
Proof. intros Hr. by rewrite (rw_same _ _ _ Hr). Qed.

Lemma rewired_endname f cfg cfg' i j :
  rewired f cfg cfg' → endname cfg' i j = endname cfg i j.
Proof. intros Hr. by rewrite (rw_same _ _ _ Hr). Qed.

Lemma rewired_fields f cfg cfg' :
  rewired f cfg cfg' →
  sc_n cfg' = sc_n cfg ∧ sc_endnames cfg' = sc_endnames cfg ∧
  sc_servers cfg' = sc_servers cfg ∧ sc_clerks cfg' = sc_clerks cfg ∧
  sc_saved cfg' = sc_saved cfg.
Proof. intros Hr. by rewrite (rw_same _ _ _ Hr). Qed.

Lemma rewired_refl cfg : rewired (λ _ x, x) cfg cfg.
Proof. split; try done. by destruct cfg. Qed.

Lemma rewired_trans f g c1 c2 c3 :
  rewired f c1 c2 → rewired g c2 c3 → rewired (λ p x, g p (f p x)) c1 c3.
Proof.
  intros Hf Hg. pose proof (λ p, rewired_name f c1 c2 p Hf) as Hn.
  destruct Hf as [F1 F2 F3 F4 F5], Hg as [G1 G2 G3 G4 G5]. split; try congruence.
  - rewrite G1, F1. done.
  - intros p Hp. rewrite G5, F5; [done|done|by rewrite Hn].
Qed.

Lemma rewired_ext f g c1 c2 :
  (∀ p x, f p x = g p x) → rewired f c1 c2 → rewired g c1 c2.
Proof. intros He [R1 R2 R3 R4 R5]. split; try done. intros p Hp. by rewrite <-He, R5. Qed.

Lemma rewired_wired f cfg cfg' : rewired f cfg cfg' → wired cfg → wired cfg'.
Proof.
  intros Hr Hw. pose proof (λ p, rewired_name f cfg cfg' p Hr) as Hn.
  destruct Hr as [R1 R2 R3 R4 _], Hw as [H1 H2 H3 H4 H5 H6 H7 H8 H9].
  split; try (rewrite R1; exact H1 || exact H2 || exact H3 || exact H4 || exact H5).
  - intros p q e. rewrite !Hn. apply H6.
  - intros p e. rewrite Hn, R2. unfold connection. rewrite R3. apply H7.
  - intros i s. unfold server. rewrite R4, R1. apply H8.
  - intros i. unfold server. rewrite R4, R1. apply H9.
Qed.

Lemma rewired_full f cfg cfg' : rewired f cfg cfg' → full cfg → full cfg'.
Proof. intros Hr. by rewrite (rw_same _ _ _ Hr). Qed.

Lemma switch_rewired b e p cfg :
  wired cfg → port_name cfg p = Some e →
  rewired (λ q x, if decide (q = p) then b else x) cfg (switch b e cfg).
Proof.
  intros Hw Hp. split; try done. intros q [e' Hq].
  unfold port_on. change (port_name (switch b e cfg) q) with (port_name cfg q).
  rewrite Hq. unfold is_enabled. simpl.
  destruct (decide (q = p)) as [->|Hne].
  - rewrite Hp in Hq. injection Hq as <-. by rewrite lookup_insert_eq.
  - rewrite lookup_insert_ne; [done|]. intros [= ->]. by eapply Hne, w_inj.
Qed.

(** A loop that switches one port after the other. *)
Lemma rfor_switch {A} b (at_port : A → port) (body : A → config → result config) l cfg :
  wired cfg →
  (∀ a c f, a ∈ l → rewired f cfg c →
    ∃ e, port_name cfg (at_port a) = Some e ∧ body a c = Ok (switch b e c)) →
  ∃ cfg', rfor body l cfg = Ok cfg' ∧
    rewired (λ q x, if decide (q ∈ at_port <$> l) then b else x) cfg cfg'.
Proof.
  revert cfg. induction l as [|a l IH]; intros cfg Hw Hb.
  { exists cfg. split; [done|]. eapply rewired_ext, rewired_refl.
    intros p x. by rewrite decide_False by apply not_elem_of_nil. }
  destruct (Hb a cfg _ ltac:(by left) (rewired_refl cfg)) as (e & He & Ha).
  pose proof (switch_rewired b e _ cfg Hw He) as Hr.
  destruct (IH (switch b e cfg)) as (cfg' & Hl & Hr').
  - by eapply rewired_wired.
  - intros a' c f Ha' Hc. destruct (Hb a' c _ ltac:(by right) (rewired_trans _ _ _ _ _ Hr Hc))
      as (e' & He' & Hbody). by exists e'.
  - exists cfg'. simpl. rewrite Ha. split; [done|].
    eapply rewired_ext, rewired_trans; [|exact Hr|exact Hr'].
    intros p x. simpl. destruct (decide (p ∈ at_port <$> l)) as [Hin|Hin].
    + by rewrite decide_True by (by right).
    + destruct (decide (p = at_port a)) as [->|Hne].
      * by rewrite decide_True by (by left).
      * by rewrite decide_False by (rewrite elem_of_cons; tauto).
Qed.

(** ** Servers *)

(** The port connects server [i] with one of [l]. *)
Definition joins (i : nat) (l : list nat) (p : port) : bool :=
  match p with
  | inl (a, c) => bool_decide (a = i ∧ c ∈ l) || bool_decide (c = i ∧ a ∈ l)
  | inr _ => false
  end.

Definition put (b : bool) (sel : port → bool) (p : port) (x : bool) : bool :=
  if sel p then b else x.

Lemma joins_true i l a c :
  joins i l (inl (a, c)) = true ↔ (a = i ∧ c ∈ l) ∨ (c = i ∧ a ∈ l).
Proof. simpl. by rewrite orb_true_iff, !bool_decide_eq_true. Qed.

(** Two loops, over the ports from [i] and over the ports to [i]. *)
Lemma two_loops {A} b i (who : A → nat) body1 body2 (l1 : list nat) (l2 : list A) cfg :
  wired cfg → who <$> l2 = l1 →
  (∀ t c f, t ∈ l1 → rewired f cfg c →
    ∃ e, endname cfg i t = Some e ∧ body1 t c = Ok (switch b e c)) →
  (∀ t c f, t ∈ l2 → rewired f cfg c →
    ∃ e, endname cfg (who t) i = Some e ∧ body2 t c = Ok (switch b e c)) →
  ∃ cfg', rbind (rfor body1 l1 cfg) (rfor body2 l2) = Ok cfg' ∧
    rewired (put b (joins i l1)) cfg cfg'.
Proof.
  intros Hw Hwho H1 H2.
  destruct (rfor_switch b (λ t, inl (i, t)) body1 l1 cfg Hw H1) as (c1 & -> & Hr1).
  destruct (rfor_switch b (λ t, inl (who t, i)) body2 l2 c1) as (c2 & Hc2 & Hr2).
  { by eapply rewired_wired. }
  { intros t c f Ht Hr. destruct (H2 t c _ Ht (rewired_trans _ _ _ _ _ Hr1 Hr))
      as (e & He & Hb). exists e. split; [|done]. simpl.
    by rewrite (rewired_endname _ _ _ _ _ Hr1). }
  exists c2. split; [done|]. eapply rewired_ext, rewired_trans; [|exact Hr1|exact Hr2].
  intros p x. unfold put.
  assert (p ∈ (λ t, inl (i, t)) <$> l1 ∨ p ∈ (λ t, inl (who t, i)) <$> l2 ↔
    joins i l1 p = true) as Hsel.
  { rewrite !list_elem_of_fmap. destruct p as [[a c]|].
    2: { split; [|done]. by intros [(? & ? & _)|(? & ? & _)]. }
    rewrite joins_true. split.
    - intros [(t & [= -> ->] & Ht)|(t & [= -> ->] & Ht)]; [by left|right].
      split; [done|]. rewrite <-Hwho. by apply list_elem_of_fmap_2.
    - intros [[-> Hc]|[-> Ha]]; [left; by exists c|right].
      rewrite <-Hwho in Ha. apply list_elem_of_fmap in Ha as (t & -> & Ht). by exists t. }
  repeat case_decide; destruct (joins i l1 p); naive_solver.
Qed.

Lemma connectUnlocked_spec i to cfg :
  wired cfg → full cfg → i < sc_n cfg → (∀ t, t ∈ to → t < sc_n cfg) →
  ∃ cfg', connectUnlocked i to cfg = Ok cfg' ∧ rewired (put true (joins i to)) cfg cfg'.
Proof.
  intros Hw Hf Hi Ht. unfold connectUnlocked. apply (two_loops true i id); [done|..].
  - by rewrite list_fmap_id.
  - intros t c f Hin Hr. destruct (endname_full cfg i t) as [e He]; [auto..|].
    exists e. split; [done|]. by rewrite (rewired_endname _ _ _ _ _ Hr), He.
  - intros t c f Hin Hr. destruct (endname_full cfg t i) as [e He]; [auto..|].
    exists e. split; [done|]. by rewrite (rewired_endname _ _ _ _ _ Hr), He.
Qed.

(** When all servers have been started, the test of the second loop of
    [disconnectUnlocked] is true whatever server it looks at. *)
Lemma disconnectUnlocked_spec i from cfg :
  wired cfg → full cfg → i < sc_n cfg → (∀ t, t ∈ from → t < sc_n cfg) →
  length from ≤ sc_n cfg →
  ∃ cfg', disconnectUnlocked i from cfg = Ok cfg' ∧
    rewired (put false (joins i from)) cfg cfg'.
Proof.
  intros Hw Hf Hi Ht Hlen. unfold disconnectUnlocked.
  apply (two_loops false i (λ p, p.2)); [done|..].
  - apply list_eq. intros k. rewrite list_lookup_fmap, list_lookup_imap.
    by destruct (from !! k).
  - intros t c f Hin Hr. destruct (endname_full cfg i t) as [e He]; [auto..|].
    exists e. split; [done|]. destruct (rewired_fields _ _ _ Hr) as (_ & -> & _).
    destruct (Hf i Hi) as [es Hes]. rewrite Hes. simpl.
    unfold endname in He. rewrite Hes in He. simpl in He. by rewrite He.
  - intros [k t] c f Hin Hr. apply elem_of_lookup_imap in Hin as (k' & t' & [= -> ->] & Hk).
    simpl. assert (t' < sc_n cfg) as Ht' by (eapply Ht, list_elem_of_lookup_2, Hk).
    destruct (endname_full cfg t' i) as [e He]; [auto..|].
    exists e. split; [done|]. rewrite (rewired_endname _ _ _ _ _ Hr).
    destruct (rewired_fields _ _ _ Hr) as (_ & -> & _).
    destruct (Hf k') as [es ->]; [apply lookup_lt_Some in Hk; lia|]. simpl. by rewrite He.
Qed.

(** ** Partitions *)

(** The ports inside one of two sides, and those between the sides. *)
Definition inside (p1 p2 : list nat) (p : port) : bool :=
  match p with
  | inl (a, c) => bool_decide (a ∈ p1 ∧ c ∈ p1 ∨ a ∈ p2 ∧ c ∈ p2)
  | inr _ => false
  end.
Definition across (p1 p2 : list nat) (p : port) : bool :=
  match p with
  | inl (a, c) => bool_decide (a ∈ p1 ∧ c ∈ p2 ∨ a ∈ p2 ∧ c ∈ p1)
  | inr _ => false
  end.

Lemma existsb_joins l k p :
  existsb (λ i, joins i k p) l =
    match p with
    | inl (a, c) => bool_decide (a ∈ l ∧ c ∈ k ∨ a ∈ k ∧ c ∈ l)
    | inr _ => false
    end.
Proof.
  apply eq_true_iff_eq. rewrite existsb_exists. setoid_rewrite <-list_elem_of_In.
  destruct p as [[a c]|].
  - setoid_rewrite joins_true. rewrite bool_decide_eq_true. naive_solver.
  - split; [by intros (? & _ & ?)|done].
Qed.

(** One of the two loops of [partition]: the servers [l] of the side [own]
    leave the side [other]. *)
Lemma side_loop own other l cfg :
  wired cfg → full cfg → own ## other →
  (∀ i, i ∈ own → i < sc_n cfg) → (∀ i, i ∈ other → i < sc_n cfg) →
  length other ≤ sc_n cfg → l ⊆ own →
  ∃ cfg', rfor (λ i cfg, rbind (disconnectUnlocked i other cfg) (connectUnlocked i own))
            l cfg = Ok cfg' ∧
    rewired (λ p x, put true (λ p, existsb (λ i, joins i own p) l) p
                      (put false (λ p, existsb (λ i, joins i other p) l) p x)) cfg cfg'.
Proof.
  intros Hw Hf Hdisj Hown Hother Hlen Hl. revert cfg Hw Hf Hown Hother Hlen.
  induction l as [|i l IH]; intros cfg Hw Hf Hown Hother Hlen.
  { exists cfg. split; [done|]. eapply rewired_ext, rewired_refl. done. }
  assert (i ∈ own) as Hi by (apply Hl; by left).
  destruct (disconnectUnlocked_spec i other cfg) as (c1 & H1 & Hr1); [auto..|].
  destruct (rewired_fields _ _ _ Hr1) as (Hn1 & _).
  destruct (connectUnlocked_spec i own c1) as (c2 & H2 & Hr2).
  { by eapply rewired_wired. } { by eapply rewired_full. }
  { rewrite Hn1. auto. } { rewrite Hn1. auto. }
  pose proof (rewired_trans _ _ _ _ _ Hr1 Hr2) as Hr.
  destruct (rewired_fields _ _ _ Hr) as (Hn & _).
  destruct (IH ltac:(by intros x Hx; apply Hl; right) c2) as (c3 & H3 & Hr3).
  { by eapply rewired_wired. } { by eapply rewired_full. }
  1-3: by rewrite Hn.
  exists c3. split; [simpl; by rewrite H1; simpl; rewrite H2|].
  eapply rewired_ext, rewired_trans; [|exact Hr|exact Hr3].
  intros p x. simpl. unfold put. simpl.
  assert (∀ i l', l' ⊆ own → i ∈ own →
    joins i own p = true → existsb (λ i, joins i other p) l' = false) as Hex.
  { intros i' l' Hl' Hi' Hj. rewrite existsb_joins. destruct p as [[a c]|]; [|done].
    apply joins_true in Hj. apply bool_decide_eq_false. set_solver. }
  assert (l ⊆ own) as Hl' by (by intros y Hy; apply Hl; right).
  destruct (joins i own p) eqn:Hj, (existsb (λ i, joins i own p) l) eqn:He; try done; simpl.
  - by rewrite (Hex i l).
  - by destruct (joins i other p), (existsb (λ i, joins i other p) l).
Qed.

(** After [partition p1 p2] two servers of the partition are connected, both
    ways, exactly when they are on the same side; nothing else changes. *)
Lemma partition_spec p1 p2 cfg :
  wired cfg → full cfg → p1 ## p2 →
  (∀ i, i ∈ p1 → i < sc_n cfg) → (∀ i, i ∈ p2 → i < sc_n cfg) →
  length p1 ≤ sc_n cfg → length p2 ≤ sc_n cfg →
  ∃ cfg', partition p1 p2 cfg = Ok cfg' ∧
    rewired (λ p x, put true (inside p1 p2) p (put false (across p1 p2) p x)) cfg cfg'.
Proof.
  intros Hw Hf Hd H1 H2 Hl1 Hl2. unfold partition.
  destruct (side_loop p1 p2 p1 cfg) as (c1 & -> & Hr1); [done..|].
  destruct (rewired_fields _ _ _ Hr1) as (Hn & _).
  destruct (side_loop p2 p1 p2 c1) as (c2 & Hc2 & Hr2).
  { by eapply rewired_wired. } { by eapply rewired_full. } { by intros x H3 H4; apply (Hd x). }
  1-3: by rewrite Hn. { done. }
  exists c2. split; [done|]. eapply rewired_ext, rewired_trans; [|exact Hr1|exact Hr2].
  intros p x. simpl. unfold put. rewrite !existsb_joins.
  destruct p as [[a c]|]; simpl; [|done].
  repeat case_bool_decide; try done; exfalso; set_solver.
Qed.

Lemma ConnectAll_spec cfg :
  wired cfg → full cfg →
  ∃ cfg', ConnectAll cfg = Ok cfg' ∧
    rewired (put true (inside (seq 0 (sc_n cfg)) [])) cfg cfg'.
Proof.
  intros Hw Hf. unfold ConnectAll, All.
  assert (∀ l, (∀ i, i ∈ l → i < sc_n cfg) → ∀ c f, rewired f cfg c →
    ∃ cfg', rfor (λ i cfg, connectUnlocked i (seq 0 (sc_n cfg)) cfg) l c = Ok cfg' ∧
      rewired (put true (λ p, existsb (λ i, joins i (seq 0 (sc_n cfg)) p) l)) c cfg')
    as Hloop.
  { induction l as [|i l IH]; intros Hl c f Hr.
    { exists c. split; [done|]. eapply rewired_ext, rewired_refl. done. }
    destruct (rewired_fields _ _ _ Hr) as (Hn & _).
    destruct (connectUnlocked_spec i (seq 0 (sc_n cfg)) c) as (c1 & H1 & Hr1).
    { by eapply rewired_wired. } { by eapply rewired_full. }
    { rewrite Hn. apply Hl. by left. } { intros t Ht%elem_of_seq. rewrite Hn. lia. }
    destruct (IH ltac:(intros; apply Hl; by right) c1 _ (rewired_trans _ _ _ _ _ Hr Hr1))
      as (c2 & H2 & Hr2).
    exists c2. split; [simpl; by rewrite Hn, H1|].
    eapply rewired_ext, rewired_trans; [|exact Hr1|exact Hr2].
    intros p x. unfold put. simpl. by destruct (existsb _ l), (joins _ _ _). }
  destruct (Hloop (seq 0 (sc_n cfg)) ltac:(intros i Hi%elem_of_seq; lia) cfg _
    (rewired_refl cfg)) as (c & Hc & Hr).
  exists c. split; [done|]. eapply rewired_ext; [|exact Hr]. intros p x. unfold put.
  rewrite existsb_joins. destruct p as [[a b]|]; simpl; [|done].
  repeat case_bool_decide; try done; exfalso; set_solver.
Qed.
End wiring.
