(* ===== verification/ServiceHarness.v ===== *)
(** * What the services' harness promises to the tests

    Starting, stopping and making clerks keep the wiring right; [make_config]
    gives a connected cluster; a server that is started again gets the last
    state its predecessor persisted. *)

From S2P Require Import Prelude GoBase LabRpc Persister Raft RaftConfig RaftWiring Shuffle Clerks Services ServiceConfig ServiceWiring.

Section harness.
Context {Srv : Type} `{!RaftService Srv}.
Notation Network := (@LabRpc.Network Name _ _).
Notation config := (config Srv).
Implicit Types cfg : config.
Implicit Types rn : Network.

(** ** Fresh end-points *)

Lemma make_ends_total names j rn :
  NoDup names → (∀ e, e ∈ names → ends rn !! inl e = None) →
  ∃ rn', make_ends names j rn = Ok rn' ∧
    (∀ e, e ∉ names → ends rn' !! inl e = ends rn !! inl e).
Proof.
  revert j rn. induction names as [|e names IH]; intros j rn Hnd Hfresh.
  { by exists rn. }
  apply list.NoDup_cons in Hnd as [He Hnd]. cbn [make_ends]. unfold MakeEnd.
  rewrite (Hfresh e) by (by left). cbn [rbind].
  destruct (IH (S j) (Connect (inl e) (inr (Z.of_nat j))
    (mkNetwork (reliable rn) (longDelays rn) (longReordering rn)
       (<[inl e := mkEnd (inl e)]> (ends rn)) (<[inl e := false]> (enabled rn))
       (servers rn) (<[inl e := None]> (connections rn)))) Hnd) as (rn' & Hm & Hout).
  { intros x Hx. simpl. rewrite lookup_insert_ne by (intros [= ->]; done).
    apply Hfresh. by right. }
  exists rn'. split; [done|]. intros x [Hne Hx]%not_elem_of_cons.
  rewrite Hout by done. simpl. by rewrite lookup_insert_ne by congruence.
Qed.

(** A new row of ports with freshly made end-points. *)
Lemma fresh_row cfg cfg' names rn (at_port : nat → port) :
  wired cfg → ends_made names 0 (sc_net cfg) rn →
  (∀ k, port_to (at_port k) = k) →
  (∀ p e, port_name cfg' p = Some e →
     (∃ k, p = at_port k ∧ names !! k = Some e) ∨ port_name cfg p = Some e) →
  ends (sc_net cfg') = ends rn → connections (sc_net cfg') = connections rn →
  (∀ p q e, port_name cfg' p = Some e → port_name cfg' q = Some e → p = q) ∧
  (∀ p e, port_name cfg' p = Some e →
     is_Some (ends (sc_net cfg') !! inl e) ∧
     connection (sc_net cfg') (inl e) = Some (inr (Z.of_nat (port_to p)))).
Proof.
  intros Hw [Hnd Hnew Hold _] Hto Hcase He Hc. split.
  - intros p q e [(k & -> & Hk)|Hp]%Hcase [(k' & -> & Hk')|Hq]%Hcase.
    + f_equal. by eapply NoDup_lookup.
    + apply Hnew in Hk as (Hnone & _). apply (w_end _ Hw) in Hq as [[? ?] _]. congruence.
    + apply Hnew in Hk' as (Hnone & _). apply (w_end _ Hw) in Hp as [[? ?] _]. congruence.
    + by eapply w_inj.
  - intros p e. unfold connection. rewrite He, Hc.
    intros [(k & -> & Hk)|Hp]%Hcase.
    + rewrite Hto. by apply Hnew in Hk as (_ & ? & _ & ?).
    + apply (w_end _ Hw) in Hp as [Hs Hr]. destruct (Hold e Hs) as (? & _ & Hrr).
      split; [done|]. unfold connection in Hr, Hrr. by rewrite Hrr.
Qed.

(** ** Clerks *)

Lemma switch_client_spec b ck js cfg :
  wired cfg → is_Some (sc_clerks cfg !! ck) → (∀ t, t ∈ js → t < sc_n cfg) →
  ∃ cfg', switch_client b ck js cfg = Ok cfg' ∧
    rewired (put b (λ p, bool_decide (p ∈ (λ t, inr (ck, t)) <$> js))) cfg cfg'.
Proof.
  intros Hw [es Hes] Hjs. unfold switch_client.
  destruct (rfor_switch b (λ t, inr (ck, t))
    (λ t cfg0, rbind (oget (clerk_ends cfg ck !! t) Panic) (λ e, Ok (switch b e cfg0)))
    js cfg Hw) as (cfg' & Hc & Hr).
  - intros t c f Ht Hr. destruct (lookup_lt_is_Some_2 es t) as [e He].
    { rewrite (proj1 (w_clerk _ Hw _ _ Hes)). auto. }
    assert (clerk_ends cfg ck !! t = Some e) as Hce by (unfold clerk_ends; by rewrite Hes).
    exists e. split; [done|]. by rewrite Hce.
  - exists cfg'. split; [done|]. eapply rewired_ext, Hr. intros p x. unfold put.
    case_decide as Hd; case_bool_decide; done.
Qed.

Lemma clerk_insert cfg rn (ck : Z) names a j :
  clerk_ends (with_clerks (<[ck := names]> (sc_clerks cfg)) (ck + 1) (with_net rn cfg)) a !! j
  = if decide (a = ck) then names !! j else clerk_ends cfg a !! j.
Proof.
  unfold clerk_ends. simpl. destruct (decide (a = ck)) as [->|Hne].
  - by rewrite lookup_insert_eq.
  - by rewrite lookup_insert_ne by done.
Qed.

(** The state in which [makeClient] connects the new clerk. *)
Lemma new_clerk_wired cfg names rn :
  wired cfg → length names = sc_n cfg → make_ends names 0 (sc_net cfg) = Ok rn →
  wired (with_clerks (<[sc_nextClientId cfg := names]> (sc_clerks cfg))
           (sc_nextClientId cfg + 1) (with_net rn cfg)).
Proof.
  intros Hw Hlen Hm%make_ends_made. pose proof Hw as [H1 H2 H3 H4 H5 H6 H7 H8 H9].
  set (cfg' := with_clerks _ _ _).
  destruct (fresh_row cfg cfg' names rn (λ k, inr (sc_nextClientId cfg, k))) as [Hi He];
    [done..| |done|done|].
  { intros [[i j]|[a j]] e; [by right|]. simpl.
    unfold cfg'. rewrite clerk_insert.
    case_decide as Hd; [|by right]. subst. left. by exists j. }
  pose proof (em_servers _ _ _ _ Hm) as Hs.
  split; try done; simpl.
  - intros ck es [[<- <-]|[Hne Hck]]%lookup_insert_Some; [split; [done|lia]|].
    destruct (H5 _ _ Hck). split; [done|lia].
  - intros i s Hi'. unfold server. rewrite Hs. by eapply H8.
  - intros i Hi'. unfold server. rewrite Hs. by eapply H9.
Qed.

(** [makeClient] returns a new clerk, connected to the servers [to] and no
    others, which gets its end-points in some order. *)
Lemma makeClient_spec names draws to cfg :
  wired cfg → length names = sc_n cfg → NoDup names →
  (∀ e, e ∈ names → ends (sc_net cfg) !! inl e = None) →
  length draws = sc_n cfg → valid_draws draws → (∀ t, t ∈ to → t < sc_n cfg) →
  ∃ cfg' handles,
    makeClient names draws to cfg = Ok (cfg', (sc_nextClientId cfg, handles)) ∧
    wired cfg' ∧ sc_n cfg' = sc_n cfg ∧ sc_endnames cfg' = sc_endnames cfg ∧
    handles ≡ₚ names ∧ clerk_ends cfg' (sc_nextClientId cfg) = names ∧
    (∀ j, j < sc_n cfg → port_on cfg' (inr (sc_nextClientId cfg, j)) =
       bool_decide (j ∈ to)) ∧
    (∀ p, is_Some (port_name cfg p) → port_on cfg' p = port_on cfg p).
Proof.
  intros Hw Hlen Hnd Hfresh Hd Hv Hto. unfold makeClient.
  destruct (make_ends_total names 0 (sc_net cfg) Hnd Hfresh) as (rn & Hm & _).
  pose proof (make_ends_made _ _ _ _ Hm) as [_ Hnew Hold _].
  destruct (random_handles_total draws names Hv ltac:(congruence)) as (h & Hh & Hperm).
  rewrite Hm. cbn [rbind]. rewrite Hh. cbn [rbind oget].
  pose proof (new_clerk_wired cfg names rn Hw Hlen Hm) as Hw1.
  set (ck := sc_nextClientId cfg) in *.
  set (c1 := with_clerks _ _ _) in *.
  assert (sc_clerks c1 !! ck = Some names) as Hck by apply lookup_insert_eq.
  destruct (switch_client_spec true ck to c1 Hw1 ltac:(by rewrite Hck) Hto)
    as (c2 & Hc2 & Hr).
  unfold ConnectClientUnlocked. rewrite Hc2. cbn [rbind]. exists c2, h.
  split_and!; try done.
  - by eapply rewired_wired.
  - by destruct (rewired_fields _ _ _ Hr) as (-> & _).
  - by destruct (rewired_fields _ _ _ Hr) as (_ & -> & _).
  - unfold clerk_ends. destruct (rewired_fields _ _ _ Hr) as (_ & _ & _ & -> & _).
    by rewrite Hck.
  - intros j Hj. destruct (lookup_lt_is_Some_2 names j) as [e He]; [lia|].
    assert (port_name c1 (inr (ck, j)) = Some e) as Hpn.
    { simpl. unfold clerk_ends. by rewrite Hck. }
    rewrite (rw_on _ _ _ Hr) by (by rewrite Hpn).
    unfold put, port_on. rewrite Hpn.
    apply Hnew in He as (_ & _ & Hoff & _).
    change (sc_net c1) with rn. rewrite Hoff.
    repeat case_bool_decide; try done; set_solver.
  - intros p [e Hp].
    assert (port_name c1 p = Some e ∧ ∀ j, p ≠ inr (ck, j)) as [Hp1 Hne].
    { destruct p as [[a c]|[a j]]; [done|]. simpl in Hp. unfold clerk_ends in Hp.
      destruct (sc_clerks cfg !! a) as [es|] eqn:Ha; [|done].
      pose proof (proj2 (w_clerk _ Hw _ _ Ha)) as Hlt. split; [|intros ? [= -> _]; lia].
      simpl. unfold c1. rewrite clerk_insert, decide_False by lia.
      unfold clerk_ends. by rewrite Ha. }
    rewrite (rw_on _ _ _ Hr) by (by rewrite Hp1). unfold put, port_on.
    rewrite Hp, Hp1, bool_decide_eq_false_2.
    2: { intros (t & -> & _)%list_elem_of_fmap. by apply (Hne t). }
    change (sc_net c1) with rn.
    by destruct (Hold e (proj1 (w_end _ Hw _ _ Hp))) as (_ & -> & _).
Qed.

Lemma deleteClient_wired ck cfg : wired cfg → wired (deleteClient ck cfg).1.
Proof.
  intros Hw. pose proof Hw as [H1 H2 H3 H4 H5 H6 H7 H8 H9].
  assert (∀ p e, port_name (deleteClient ck cfg).1 p = Some e →
    port_name cfg p = Some e) as Hsub.
  { intros [[i j]|[a j]] e; [done|]. simpl. unfold clerk_ends. simpl.
    destruct (decide (a = ck)) as [->|Hne].
    - by rewrite lookup_delete_eq.
    - by rewrite lookup_delete_ne. }
  split; try done; simpl.
  - intros a es [_ Ha]%lookup_delete_Some. by apply H5.
  - intros p q e Hp Hq. eauto.
  - intros p e Hp. eauto.
Qed.

(** ** Servers *)

Lemma row_endname_insert cfg i row a c :
  length (sc_endnames cfg) = sc_n cfg → i < sc_n cfg →
  endname (with_endnames (<[i := row]> (sc_endnames cfg)) cfg) a c =
    if decide (a = i) then es ← row; es !! c else endname cfg a c.
Proof.
  intros Hl Hi. unfold endname. simpl. case_decide as Heq.
  - subst. by rewrite list_lookup_insert_eq by lia.
  - by rewrite list_lookup_insert_ne by done.
Qed.

Lemma Copy_id ps : Copy ps = ps.
Proof. by destruct ps. Qed.

Record started (i : nat) (names : list string) cfg cfg' : Prop := {
  st_wired : wired cfg';
  st_n : sc_n cfg' = sc_n cfg;
  st_clerks : sc_clerks cfg' = sc_clerks cfg;
  st_endnames : sc_endnames cfg' = <[i := Some names]> (sc_endnames cfg);
  st_server j : sc_servers cfg' !! j =
    if decide (j = i) then Some (Some (start_server (sc_n cfg) i
      (default MakePersister (saved_now cfg i)))) else sc_servers cfg !! j;
  st_saved j : j ≠ i → sc_saved cfg' !! j = sc_saved cfg !! j;
  st_ends e : e ∉ names → ends (sc_net cfg') !! inl e = ends (sc_net cfg) !! inl e;
  st_on p : is_Some (port_name cfg' p) →
    port_on cfg' p = match p with
                     | inl (a, _) => if decide (a = i) then false else port_on cfg p
                     | inr _ => port_on cfg p
                     end;
}.

Lemma StartServer_spec i names cfg :
  wired cfg → i < sc_n cfg → length names = sc_n cfg → NoDup names →
  (∀ e, e ∈ names → ends (sc_net cfg) !! inl e = None) →
  ∃ cfg', StartServer i names cfg = Ok cfg' ∧ started i names cfg cfg'.
Proof.
  intros Hw Hi Hlen Hnd Hfresh. pose proof Hw as [H1 H2 H3 H4 H5 H6 H7 H8 H9].
  unfold StartServer. destruct (lookup_lt_is_Some_2 (sc_endnames cfg) i) as [row ->]; [lia|].
  cbn [oget rbind].
  destruct (make_ends_total names 0 (sc_net cfg) Hnd Hfresh) as (rn & Hm & Hout).
  change (sc_net (with_endnames ?l cfg)) with (sc_net cfg). rewrite Hm. cbn [rbind].
  pose proof (make_ends_made _ _ _ _ Hm) as Hmade.
  pose proof Hmade as [_ Hnew Hold Hsrv].
  match goal with |- ∃ c, Ok ?x = Ok c ∧ _ => exists x; set (cfg' := x) end.
  split; [done|].
  pose proof (λ a c, row_endname_insert cfg i (Some names) a c H1 Hi) as Hen.
  assert (∀ p, port_name cfg' p = match p with
    | inl (a, c) => if decide (a = i) then names !! c else endname cfg a c
    | inr _ => port_name cfg p end) as Hname.
  { intros [[a c]|]; [apply Hen|done]. }
  destruct (fresh_row cfg cfg' names rn (λ k, inl (i, k))) as [Hinj Hend];
    [done..| |done|done|].
  { intros p e. rewrite Hname. destruct p as [[a c]|]; [|by right].
    case_decide; [|by right]. subst. left. by exists c. }
  assert (default MakePersister (saved_now cfg i) =
    match saved_now (with_net rn (with_endnames (<[i:=Some names]> (sc_endnames cfg)) cfg)) i
    with Some ps => Copy ps | None => MakePersister end) as Hps.
  { change (saved_now (with_net _ _) i) with (saved_now cfg i).
    destruct (saved_now cfg i); simpl; [by rewrite Copy_id|done]. }
  split; try done; simpl.
  - split; simpl; rewrite ?length_insert; try done.
    + intros a es [(_ & [= ->] & _)|[_ Ha]]%list_lookup_insert_Some; [done|]. by eapply H4.
    + intros j s [(-> & _)|[Hne Hj]]%list_lookup_insert_Some.
      * exists (length (sc_objects cfg)). unfold server. simpl.
        rewrite lookup_insert_eq. split; [done|]. by rewrite list_lookup_middle.
      * destruct (H8 j s Hj) as (o & Ho & Hobj). exists o. unfold server in *. simpl.
        rewrite lookup_insert_ne by (intros [= ?]; lia). rewrite Hsrv.
        split; [done|]. by apply lookup_app_l_Some.
    + intros j [(-> & [=] & _)|[Hne Hj]]%list_lookup_insert_Some. unfold server. simpl.
      rewrite lookup_insert_ne by (intros [= ?]; lia). rewrite Hsrv. by apply H9.
  - intros j. rewrite Hps. case_decide as Hj.
    + subst. rewrite list_lookup_insert_eq by lia. done.
    + by rewrite list_lookup_insert_ne.
  - intros j Hj. by rewrite list_lookup_insert_ne by done.
  - intros p [e Hp]. unfold port_on. rewrite Hp. pose proof Hp as Hp'. rewrite Hname in Hp'.
    change (is_enabled (sc_net cfg') (inl e)) with (is_enabled rn (inl e)).
    assert (port_name cfg p = Some e →
      is_enabled rn (inl e) = is_enabled (sc_net cfg) (inl e)) as Hkeep.
    { intros Hc. by destruct (Hold e (proj1 (H7 _ _ Hc))) as (_ & ? & _). }
    destruct p as [[a c]|]; [|by rewrite Hp', Hkeep].
    case_decide; [by apply Hnew in Hp' as (_ & _ & ? & _)|].
    simpl. by rewrite Hp', Hkeep.
Qed.

Lemma saved_now_net cfg rn i : saved_now (with_net rn cfg) i = saved_now cfg i.
Proof. done. Qed.

Record stopped (i : nat) cfg cfg' : Prop := {
  sp_wired : wired cfg';
  sp_n : sc_n cfg' = sc_n cfg;
  sp_clerks : sc_clerks cfg' = sc_clerks cfg;
  sp_endnames : sc_endnames cfg' = sc_endnames cfg;
  sp_ends : ends (sc_net cfg') = ends (sc_net cfg);
  sp_server j : sc_servers cfg' !! j =
    if decide (j = i) then Some None else sc_servers cfg !! j;
  sp_saved : saved_now cfg' i = saved_now cfg i;
  sp_on p : is_Some (port_name cfg p) →
    port_on cfg' p = put false (joins i (seq 0 (sc_n cfg))) p (port_on cfg p);
}.

(** The state after the disconnection [c], with the server deleted from the
    network and from the harness. *)
Lemma stopped_intro f i cfg c cfg' :
  rewired f cfg c → (∀ p x, f p x = put false (joins i (seq 0 (sc_n cfg))) p x) →
  wired c → i < sc_n c →
  sc_net cfg' = DeleteServer (inr (Z.of_nat i)) (sc_net c) →
  sc_n cfg' = sc_n c → sc_clerks cfg' = sc_clerks c → sc_endnames cfg' = sc_endnames c →
  sc_nextClientId cfg' = sc_nextClientId c → sc_objects cfg' = sc_objects c →
  sc_servers cfg' = <[i := None]> (sc_servers c) →
  sc_saved cfg' = <[i := saved_now c i]> (sc_saved c) → stopped i cfg cfg'.
Proof.
  intros Hr Hf [H1 H2 H3 H4 H5 H6 H7 H8 H9] Hi E1 E2 E3 E4 E5 E6 E7 E8.
  pose proof Hr as [Hsame Hends Hconn Hsrv Hon].
  destruct (rewired_fields _ _ _ Hr) as (Hn & Hen & Hss & Hck & Hsv).
  assert (saved_now c i = saved_now cfg i) as Hsn by (rewrite Hsame; done).
  assert (∀ j, sc_servers cfg' !! j =
    if decide (j = i) then Some None else sc_servers c !! j) as Hget.
  { intros j. rewrite E7. case_decide as Hj; [|by rewrite list_lookup_insert_ne].
    subst. by rewrite list_lookup_insert_eq by lia. }
  assert (∀ p, port_name cfg' p = port_name c p) as Hname'.
  { intros [[a b]|[a b]]; simpl; unfold endname, clerk_ends; by rewrite ?E4, ?E3. }
  assert (∀ p, port_on cfg' p = port_on c p) as Hon'.
  { intros p. unfold port_on. rewrite Hname', E1. done. }
  split; rewrite ?E1, ?E2, ?E3, ?E4; try done.
  - split; rewrite ?E1, ?E2, ?E3, ?E4, ?E5, ?E6; try done.
    + by rewrite E7, length_insert.
    + by rewrite E8, length_insert.
    + intros p q e. rewrite !Hname'. apply H6.
    + intros p e. rewrite Hname'. apply H7.
    + intros j s. rewrite Hget. case_decide as Hj; [done|].
      intros Hs. unfold server, DeleteServer. simpl.
      rewrite lookup_insert_ne by (intros [= ?]; lia). by apply (H8 j s).
    + intros j. rewrite Hget. unfold server, DeleteServer. simpl.
      destruct (decide (j = i)) as [->|Hne]; [by rewrite lookup_insert_eq|].
      rewrite lookup_insert_ne by (intros [= ?]; lia). apply H9.
  - intros j. by rewrite Hget, Hss.
  - unfold saved_now at 1. rewrite Hget, decide_True by done. simpl.
    by rewrite E8, list_lookup_insert_eq by lia.
  - intros p Hp. by rewrite Hon', Hon, Hf.
Qed.

Lemma ShutdownServer_spec i cfg :
  wired cfg → full cfg → i < sc_n cfg →
  ∃ cfg', ShutdownServer i cfg = Ok cfg' ∧ stopped i cfg cfg'.
Proof.
  intros Hw Hf Hi. unfold ShutdownServer, All.
  destruct (disconnectUnlocked_spec i (seq 0 (sc_n cfg)) cfg) as (c & -> & Hr);
    [done..| |by rewrite length_seq|].
  { intros t Ht%elem_of_seq. lia. }
  cbn [rbind]. pose proof (rewired_wired _ _ _ Hr Hw) as Hwc.
  destruct (rewired_fields _ _ _ Hr) as (Hn & _).
  change (sc_servers (with_net ?r c)) with (sc_servers c).
  change (saved_now (with_net ?r c) i) with (saved_now c i).
  assert (Copy <$> saved_now c i = saved_now c i) as ->.
  { destruct (saved_now c i); simpl; [by rewrite Copy_id|done]. }
  destruct (lookup_lt_is_Some_2 (sc_servers c) i) as [kv Hkv].
  { rewrite (w_servers _ Hwc), Hn. done. }
  rewrite Hkv. cbn [oget rbind].
  destruct kv as [s|]; eexists; (split; [reflexivity|]);
    apply (stopped_intro _ _ _ _ _ Hr); try reflexivity; try done; try lia.
  symmetry. by apply list_insert_id.
Qed.

(** ** make_config *)

(** The servers before [i] run, the others were never started, and nothing is
    connected. *)
Record starting (n i : nat) cfg : Prop := {
  sg_wired : wired cfg;
  sg_n : sc_n cfg = n;
  sg_clerks : sc_clerks cfg = ∅;
  sg_rows k : k < i → ∃ es, sc_endnames cfg !! k = Some (Some es);
  sg_up k : k < i → sc_servers cfg !! k = Some (Some (start_server n k MakePersister));
  sg_new k : i ≤ k → k < n → saved_now cfg k = None;
  sg_off p : port_on cfg p = false;
}.

Lemma starting_empty n : starting n 0 (empty_config n).
Proof.
  assert (∀ p, port_name (empty_config n : config) p = None) as Hno.
  { intros [[i j]|[ck j]]; simpl; [|done]. unfold endname. simpl.
    destruct (replicate n None !! i) eqn:Hi; [|done].
    by apply lookup_replicate in Hi as [-> _]. }
  split; try done; try lia.
  - split; simpl; rewrite ?length_replicate; try done; try (intros *; by rewrite Hno).
    + by intros i es [? _]%lookup_replicate.
    + by intros i s [? _]%lookup_replicate.
  - intros k _ Hk. unfold saved_now. simpl.
    assert (∀ A (x : A), replicate n x !! k = Some x) as Hrep.
    { intros. by apply lookup_replicate_2. }
    by rewrite !Hrep.
  - intros p. unfold port_on. by rewrite Hno.
Qed.

Lemma starting_step n i names cfg :
  starting n i cfg → i < n → length names = n → NoDup names →
  (∀ e, e ∈ names → ends (sc_net cfg) !! inl e = None) →
  ∃ cfg', StartServer i names cfg = Ok cfg' ∧ starting n (S i) cfg' ∧
    (∀ e, e ∉ names → ends (sc_net cfg') !! inl e = ends (sc_net cfg) !! inl e).
Proof.
  intros [S1 S2 S3 S4 S5 S6 S7] Hi Hlen Hnd Hfresh.
  destruct (StartServer_spec i names cfg) as (cfg' & Hs & [T1 T2 T3 T4 T5 T6 T7 T8]);
    [done|lia|lia|done|done|].
  exists cfg'. split; [done|]. split; [|done]. split; [done|congruence|congruence|..].
  - intros k Hk. rewrite T4. destruct (decide (k = i)) as [->|Hne].
    + exists names. rewrite list_lookup_insert_eq; [done|]. by rewrite (w_endnames _ S1), S2.
    + rewrite list_lookup_insert_ne by done. apply S4. lia.
  - intros k Hk. rewrite T5. case_decide as Hd; [|apply S5; lia].
    subst. by rewrite S6 by lia.
  - intros k Hk Hkn. unfold saved_now in *. rewrite T5, decide_False, T6 by lia.
    apply (S6 k); lia.
  - intros p. destruct (port_name cfg' p) as [e|] eqn:Hp; [|by unfold port_on; rewrite Hp].
    rewrite T8 by (by rewrite Hp). destruct p as [[a c]|]; [by case_decide|done].
Qed.

Lemma starting_loop n rest i cfg :
  starting n i cfg → i + length rest = n → Forall (λ ns, length ns = n) rest →
  NoDup (concat rest) → (∀ e, e ∈ concat rest → ends (sc_net cfg) !! inl e = None) →
  ∃ cfg', rfor (λ '(i, ns) cfg, StartServer i ns cfg) (zip (seq i (length rest)) rest) cfg
            = Ok cfg' ∧ starting n n cfg'.
Proof.
  revert i cfg. induction rest as [|ns rest IH]; intros i cfg Hst Hi Hall Hnd Hfresh.
  { exists cfg. simpl in *. by rewrite Nat.add_0_r in Hi; subst. }
  simpl in Hi, Hnd, Hfresh. apply list.Forall_cons in Hall as [Hns Hall].
  apply list.NoDup_app in Hnd as (Hnd1 & Hdisj & Hnd2).
  destruct (starting_step n i ns cfg) as (c & Hs & Hst' & Hout); [done|lia|done|done|..].
  { intros e He. apply Hfresh, elem_of_app. by left. }
  destruct (IH (S i) c) as (cfg' & Hl & Hst''); [done|lia|done|done|..].
  { intros e He. rewrite Hout by (intros Hin; by apply (Hdisj e)).
    apply Hfresh, elem_of_app. by right. }
  exists cfg'. split; [|done]. simpl. by rewrite Hs.
Qed.

Definition set_up (n : nat) cfg : Prop :=
  wired cfg ∧ full cfg ∧ sc_n cfg = n.

Lemma make_config_spec names unreliable :
  let n := length names in
  Forall (λ ns, length ns = n) names → NoDup (concat names) →
  ∃ cfg, make_config names unreliable = Ok cfg ∧ set_up n cfg ∧
    (∀ i j, i < n → j < n → port_on cfg (inl (i, j)) = true) ∧
    (∀ i, i < n → sc_servers cfg !! i = Some (Some (start_server n i MakePersister))) ∧
    reliable (sc_net cfg) = negb unreliable ∧ sc_clerks cfg = ∅.
Proof.
  intros n Hall Hnd. unfold make_config. fold n.
  destruct (starting_loop n names 0 (empty_config n)) as (c & Hc & [S1 S2 S3 S4 S5 _ _]);
    [apply starting_empty|done..|].
  fold n in Hc. rewrite Hc. cbn [rbind].
  assert (full c) as Hfull by (intros k Hk; rewrite S2 in Hk; by apply S4).
  destruct (ConnectAll_spec c S1 Hfull) as (c' & Hc' & Hr). rewrite Hc'. cbn [rbind].
  eexists. split; [reflexivity|]. pose proof (rewired_wired _ _ _ Hr S1) as Hw.
  pose proof (rewired_full _ _ _ Hr Hfull) as Hf.
  destruct (rewired_fields _ _ _ Hr) as (Hn & _ & Hss & Hck & _).
  split_and!; try done.
  - split_and!; [by destruct Hw; split|done|simpl; congruence].
  - intros i j Hi Hj. pose proof (endname_full c i j S1 Hfull ltac:(lia) ltac:(lia)) as Hp.
    match goal with |- port_on ?x _ = _ =>
      change (port_on x (inl (i, j))) with (port_on c' (inl (i, j))) end.
    rewrite (rw_on _ _ _ Hr (inl (i, j)) Hp). unfold put. simpl.
    rewrite bool_decide_eq_true_2; [done|]. left. rewrite !elem_of_seq. lia.
  - intros i Hi. simpl. rewrite Hss. by apply S5.
  - simpl. by rewrite Hck, S3.
Qed.
End harness.
