(* ===== verification/ServicePartition.v ===== *)
(** * make_partition: the current leader in a minority

    The two sides that [make_partition] deals the servers to, and what
    [partition] then does to the network. *)

From S2P Require Import Prelude GoBase LabRpc Persister Raft RaftConfig RaftWiring RaftDemo Shuffle Clerks Services ServiceConfig ServiceWiring ServiceHarness.

(** ** Dealing *)

Lemma insert_middle {A} (l k : list A) x y : <[length l := y]> (l ++ x :: k) = l ++ y :: k.
Proof. rewrite <-(Nat.add_0_r (length l)), insert_app_r. done. Qed.

(** Both sides are filled as one array. *)
Lemma deal_spec l i j d k p1 p2 :
  length d = j → p1 ++ p2 = d ++ replicate k 0 →
  (i ≠ l → 0 < k) →
  ∃ p1' p2', deal l i (j, p1, p2) = Ok (if i =? l then j else S j, p1', p2') ∧
    length p1' = length p1 ∧ length p2' = length p2 ∧
    p1' ++ p2' = d ++ if i =? l then replicate k 0 else i :: replicate (k - 1) 0.
Proof.
  intros Hd Hp Hk. unfold deal. destruct (Nat.eqb_spec i l) as [->|Hne]; [by exists p1, p2|].
  specialize (Hk Hne). destruct k as [|k]; [lia|].
  assert (length p1 + length p2 = j + S k) as Hlen.
  { apply (f_equal length) in Hp. rewrite !length_app, length_replicate in Hp. lia. }
  assert (<[j := i]> (p1 ++ p2) = d ++ i :: replicate k 0) as Hins.
  { rewrite Hp, <-Hd. simpl. by rewrite insert_middle. }
  rewrite Nat.sub_succ, Nat.sub_0_r.
  destruct (Nat.ltb_spec j (length p1)) as [Hlt|Hge].
  - rewrite insert_app_l in Hins by done. exists (<[j := i]> p1), p2.
    by rewrite length_insert.
  - rewrite (proj2 (Nat.ltb_lt _ _)) by lia.
    replace j with (length p1 + (j - length p1)) in Hins by lia.
    rewrite insert_app_r in Hins. exists p1, (<[j - length p1 := i]> p2).
    by rewrite length_insert.
Qed.

Lemma deal_loop l js j d k p1 p2 :
  length d = j → p1 ++ p2 = d ++ replicate k 0 →
  length (filter (λ i, i ≠ l) js) ≤ k →
  ∃ j' p1' p2', rfor (deal l) js (j, p1, p2) = Ok (j', p1', p2') ∧
    length p1' = length p1 ∧ length p2' = length p2 ∧
    p1' ++ p2' = d ++ filter (λ i, i ≠ l) js ++
      replicate (k - length (filter (λ i, i ≠ l) js)) 0.
Proof.
  revert j d k p1 p2. induction js as [|i js IH]; intros j d k p1 p2 Hd Hp Hk.
  { exists j, p1, p2. simpl. by rewrite Nat.sub_0_r. }
  rewrite filter_cons in Hk |- *. cbn [rfor].
  destruct (deal_spec l i j d k p1 p2 Hd Hp) as (q1 & q2 & Hdeal & H1 & H2 & Hq).
  { intros Hne. rewrite decide_True in Hk by done. simpl in Hk. lia. }
  rewrite Hdeal. cbn [rbind]. destruct (Nat.eqb_spec i l) as [->|Hne].
  - rewrite decide_False in Hk |- * by tauto.
    destruct (IH j d k q1 q2) as (j' & r1 & r2 & Hr & ? & ? & ?); [done..|].
    exists j', r1, r2. split_and!; [done|lia|lia|done].
  - rewrite decide_True in Hk |- * by done. simpl in Hk |- *.
    destruct (IH (S j) (d ++ [i]) (k - 1) q1 q2) as (j' & r1 & r2 & Hr & ? & ? & Happ).
    + rewrite length_app. simpl. lia.
    + by rewrite <-app_assoc.
    + lia.
    + exists j', r1, r2. split_and!; [done|lia|lia|].
      rewrite Happ, <-app_assoc. simpl. do 4 f_equal. lia.
Qed.

Lemma others_perm n l : l < n → filter (λ i, i ≠ l) (seq 0 n) ++ [l] ≡ₚ seq 0 n.
Proof.
  intros Hl. replace n with (l + (1 + (n - l - 1))) by lia.
  rewrite !seq_app, !list.filter_app. simpl. rewrite filter_cons, decide_False by tauto. simpl.
  assert (∀ s m, (∀ x, x ∈ seq s m → x ≠ l) → filter (λ i, i ≠ l) (seq s m) = seq s m)
    as Hall.
  { intros s m. induction (seq s m) as [|x k IH]; intros Hx; [done|].
    rewrite filter_cons, decide_True by (apply Hx; by left). f_equal. apply IH.
    intros y Hy. apply Hx. by right. }
  rewrite !Hall by (intros x Hx%elem_of_seq; lia). solve_Permutation.
Qed.

Lemma sides_spec n l :
  2 ≤ n → l < n →
  ∃ p1 p2, sides n l = Ok (p1, p2) ∧ length p1 = n / 2 + 1 ∧ length p2 = n / 2 ∧
    p1 ++ p2 = filter (λ i, i ≠ l) (seq 0 n) ++ replicate (2 * (n / 2) + 1 - n) 0 ++ [l].
Proof.
  intros Hn Hl. unfold sides.
  assert (length (filter (λ i, i ≠ l) (seq 0 n)) = n - 1) as Hlen.
  { pose proof (Permutation_length (others_perm n l Hl)) as Hp.
    rewrite length_app, length_seq in Hp. simpl in Hp. lia. }
  pose proof (Nat.div_mod_eq n 2). pose proof (Nat.mod_upper_bound n 2 ltac:(lia)).
  destruct (deal_loop l (seq 0 n) 0 [] (n / 2 + 1 + n / 2) (replicate (n / 2 + 1) 0)
    (replicate (n / 2) 0)) as (j & p1 & p2 & -> & H1 & H2 & Hp); [done|..].
  { by rewrite <-replicate_add. }
  { rewrite Hlen. lia. }
  rewrite length_replicate in H1, H2. cbn [rbind].
  destruct (exists_last (l:=p2)) as (q & x & ->); [intros ->; cbn [length] in H2; lia|].
  rewrite length_app in H2. cbn [length] in H2.
  exists p1, (q ++ [l]).
  assert (<[length (q ++ [x]) - 1 := l]> (q ++ [x]) = q ++ [l]) as Hlast.
  { rewrite length_app. simpl. rewrite Nat.add_sub. by rewrite insert_middle. }
  split.
  { rewrite <-Hlast. destruct q; simpl; repeat f_equal. }
  split; [done|]. split; [rewrite length_app; cbn [length]; lia|].
  rewrite Hlen in Hp. cbn [app] in Hp.
  replace (n / 2 + 1 + n / 2 - (n - 1)) with (2 * (n / 2) + 1 - n + 1) in Hp by lia.
  rewrite replicate_add, !app_assoc in Hp. cbn [replicate] in Hp.
  apply app_inj_tail in Hp as [Hp _]. by rewrite !app_assoc, Hp.
Qed.

(** For an odd number of servers the two sides are a partition. *)
Lemma sides_odd n l :
  3 ≤ n → Nat.odd n = true → l < n →
  ∃ p1 p2, sides n l = Ok (p1, p2) ∧ length p1 = n / 2 + 1 ∧ length p2 = n / 2 ∧
    p1 ++ p2 ≡ₚ seq 0 n ∧ l ∈ p2.
Proof.
  intros Hn Hodd Hl. destruct (sides_spec n l) as (p1 & p2 & Hs & H1 & H2 & Hp); [lia..|].
  apply Nat.odd_spec in Hodd as [m ->].
  assert ((2 * m + 1) / 2 = m) as Hm by (rewrite Nat.mul_comm, Nat.div_add_l by lia; simpl; lia).
  rewrite Hm in *. replace (2 * m + 1 - (2 * m + 1)) with 0 in Hp by lia.
  exists p1, p2. split_and!; [done..| |].
  - rewrite Hp. by apply others_perm.
  - destruct (exists_last (l:=p2)) as (q & x & ->); [intros ->; cbn [length] in H2; lia|].
    rewrite !app_assoc in Hp. apply app_inj_tail in Hp as [_ ->]. set_solver.
Qed.

(** For an even number of servers one entry too many is allotted, and server 0
    is on both sides unless it leads. *)
Lemma sides_even n l p1 p2 :
  4 ≤ n → Nat.even n = true → 0 < l < n → sides n l = Ok (p1, p2) →
  0 ∈ p1 ∧ 0 ∈ p2.
Proof.
  intros Hn Heven Hl Hs. destruct (sides_spec n l) as (q1 & q2 & Hs' & H1 & H2 & Hp); [lia..|].
  rewrite Hs in Hs'. injection Hs' as <- <-.
  apply Nat.even_spec in Heven as [m ->].
  assert (2 * m / 2 = m) as Hm by (rewrite Nat.mul_comm; by apply Nat.div_mul).
  rewrite Hm in *. replace (2 * m + 1 - 2 * m) with 1 in Hp by lia. split.
  - destruct p1 as [|x p1]; [cbn [length] in H1; lia|].
    replace (2 * m) with (1 + (2 * m - 1)) in Hp by lia. rewrite seq_app in Hp. simpl in Hp.
    rewrite filter_cons, decide_True in Hp by lia. injection Hp as -> _. by left.
  - destruct (exists_last (l:=p2)) as (q & x & ->); [intros ->; cbn [length] in H2; lia|].
    destruct (exists_last (l:=q)) as (q' & y & ->).
    { intros ->. rewrite length_app in H2. cbn [length] in H2. lia. }
    rewrite !app_assoc in Hp. apply app_inj_tail in Hp as [Hp _].
    simpl in Hp. apply app_inj_tail in Hp as [_ ->]. set_solver.
Qed.
