(* ===== verification/ServicePromises.v ===== *)
(** * The services' harness: reachable states and what the tests rely on *)

From S2P Require Import Prelude GoBase LabRpc Persister Raft RaftConfig RaftWiring RaftDemo Shuffle Clerks Services ServiceConfig ServiceWiring ServiceHarness ServicePartition.

Section promises.
Context {Srv : Type} `{!RaftService Srv}.
Notation config := (config Srv).
Implicit Types cfg : config.

(** ** Reachable states *)

Definition fresh_names cfg (names : list string) : Prop :=
  length names = sc_n cfg ∧ NoDup names ∧
  ∀ e, e ∈ names → ends (sc_net cfg) !! inl e = None.

Definition in_range cfg (l : list nat) : Prop :=
  length l ≤ sc_n cfg ∧ ∀ i, i ∈ l → i < sc_n cfg.

(** The states that the tests can bring about, with servers whose state may
    change at any time while they run. *)
Inductive harness (n : nat) : config → Prop :=
| h_make names u cfg :
    length names = n → Forall (λ ns, length ns = n) names → NoDup (concat names) →
    make_config names u = Ok cfg → harness n cfg
| h_run i s s' cfg :
    harness n cfg → sc_servers cfg !! i = Some (Some s) →
    harness n (with_servers (<[i := Some s']> (sc_servers cfg)) (sc_saved cfg) cfg)
| h_connect i to cfg cfg' :
    harness n cfg → i < n → in_range cfg to → connect i to cfg = Ok cfg' → harness n cfg'
| h_disconnect i from cfg cfg' :
    harness n cfg → i < n → in_range cfg from → disconnect i from cfg = Ok cfg' →
    harness n cfg'
| h_connect_all cfg cfg' :
    harness n cfg → ConnectAll cfg = Ok cfg' → harness n cfg'
| h_partition p1 p2 cfg cfg' :
    harness n cfg → p1 ## p2 → in_range cfg p1 → in_range cfg p2 →
    partition p1 p2 cfg = Ok cfg' → harness n cfg'
| h_client names draws to cfg cfg' ck :
    harness n cfg → fresh_names cfg names → length draws = n → valid_draws draws →
    in_range cfg to → makeClient names draws to cfg = Ok (cfg', ck) → harness n cfg'
| h_delete ck cfg : harness n cfg → harness n (deleteClient ck cfg).1
| h_connect_client ck to cfg cfg' :
    harness n cfg → is_Some (sc_clerks cfg !! ck) → in_range cfg to →
    ConnectClient ck to cfg = Ok cfg' → harness n cfg'
| h_disconnect_client ck from cfg cfg' :
    harness n cfg → is_Some (sc_clerks cfg !! ck) → in_range cfg from →
    DisconnectClient ck from cfg = Ok cfg' → harness n cfg'
| h_shutdown i cfg cfg' :
    harness n cfg → i < n → ShutdownServer i cfg = Ok cfg' → harness n cfg'
| h_start i names cfg cfg' :
    harness n cfg → i < n → fresh_names cfg names → StartServer i names cfg = Ok cfg' →
    harness n cfg'.

Lemma rewired_set_up f n cfg cfg' : rewired f cfg cfg' → set_up n cfg → set_up n cfg'.
Proof.
  intros Hr (Hw & Hf & Hn). split_and!; [by eapply rewired_wired|by eapply rewired_full|].
  by destruct (rewired_fields _ _ _ Hr) as (-> & _).
Qed.

Lemma started_set_up i names n cfg cfg' :
  started i names cfg cfg' → set_up n cfg → set_up n cfg'.
Proof.
  intros [T1 T2 _ T4 _ _ _ _] (Hw & Hf & Hn). split_and!; [done| |congruence].
  intros k Hk. rewrite T2 in Hk. rewrite T4. destruct (decide (k = i)) as [->|Hne].
  - exists names. apply list_lookup_insert_eq. by rewrite (w_endnames _ Hw).
  - rewrite list_lookup_insert_ne by done. by apply Hf.
Qed.

Lemma run_set_up i s s' n cfg :
  set_up n cfg → sc_servers cfg !! i = Some (Some s) →
  set_up n (with_servers (<[i := Some s']> (sc_servers cfg)) (sc_saved cfg) cfg).
Proof.
  intros (Hw & Hf & Hn) Hs. split_and!; [|done|done].
  pose proof Hw as [H1 H2 H3 H4 H5 H6 H7 H8 H9]. split; try done; simpl.
  - by rewrite length_insert.
  - intros j t [(-> & _)|[_ Hj]]%list_lookup_insert_Some; [by apply (H8 j s)|by apply (H8 j t)].
  - intros j [(_ & [=] & _)|[_ Hj]]%list_lookup_insert_Some. by apply H9.
Qed.

Lemma ok_spec {A} (r : result A) (P : A → Prop) a :
  (∃ a, r = Ok a ∧ P a) → r = Ok a → P a.
Proof. intros (b & Hb & HP) Ha. congruence. Qed.

Lemma harness_set_up n cfg : harness n cfg → set_up n cfg.
Proof.
  induction 1 as [names u cfg Hl Hall Hnd Hm|i s s' cfg _ IH Hs
    |i to cfg cfg' _ IH Hi [_ Hto] Hc|i from cfg cfg' _ IH Hi [Hl Hfr] Hc|cfg cfg' _ IH Hc
    |p1 p2 cfg cfg' _ IH Hd [Hl1 H1] [Hl2 H2] Hc
    |names draws to cfg cfg' ck _ IH (Hl & Hnd & Hf) Hd Hv [_ Hto] Hc|ck cfg _ IH
    |ck to cfg cfg' _ IH Hck [_ Hto] Hc|ck from cfg cfg' _ IH Hck [_ Hto] Hc
    |i cfg cfg' _ IH Hi Hc|i names cfg cfg' _ IH Hi (Hl & Hnd & Hf) Hc];
    try (pose proof IH as (Hw & Hfull & Hn)).
  - subst n. destruct (make_config_spec names u) as (c & Hc & Hs & _); [done..|].
    rewrite Hc in Hm. by injection Hm as <-.
  - by eapply run_set_up.
  - eapply rewired_set_up, IH. eapply ok_spec, Hc. apply (connectUnlocked_spec i to cfg); done || lia.
  - eapply rewired_set_up, IH. eapply ok_spec, Hc. apply (disconnectUnlocked_spec i from cfg); done || lia.
  - eapply rewired_set_up, IH. eapply ok_spec, Hc. apply (ConnectAll_spec cfg); done || lia.
  - eapply rewired_set_up, IH. eapply ok_spec, Hc. apply (partition_spec p1 p2 cfg); done || lia.
  - destruct (makeClient_spec names draws to cfg) as (c & h & Hm & Hw' & Hn' & He & _);
      [done|done|done|done|congruence|done|done|].
    rewrite Hm in Hc. injection Hc as <- <-. split_and!; [done| |congruence].
    intros k. rewrite Hn', He. apply Hfull.
  - split_and!; [by apply deleteClient_wired|done|done].
  - eapply rewired_set_up, IH. eapply ok_spec, Hc. apply (switch_client_spec true ck to cfg); done || lia.
  - eapply rewired_set_up, IH. eapply ok_spec, Hc. apply (switch_client_spec false ck from cfg); done || lia.
  - destruct (ShutdownServer_spec i cfg) as (c & Hs & [P1 P2 _ P4 _ _ _ _]); [done|done|lia|].
    rewrite Hs in Hc. injection Hc as <-. split_and!; [done| |congruence].
    intros k. rewrite P2, P4. apply Hfull.
  - destruct (StartServer_spec i names cfg) as (c & Hs & Hst); [done|lia|done..|].
    rewrite Hs in Hc. injection Hc as <-. by eapply started_set_up.
Qed.

(** C31. The wiring of the services' tests is right: in every state that the
    harness reaches, with servers stopped and started again, clerks made and
    deleted and connections changed in any order, no two of the places where
    it keeps an end-point name share one, the end-point for server [j] leads
    to server [j] and to no other, and there it finds a server that offers the
    service and Raft when server [j] runs, and none when it does not. *)
Theorem service_wiring_correct n cfg p e :
  harness n cfg → port_name cfg p = Some e →
  (∀ q, port_name cfg q = Some e → q = p) ∧
  connection (sc_net cfg) (inl e) = Some (inr (Z.of_nat (port_to p))) ∧
  match mjoin (sc_servers cfg !! port_to p) with
  | Some _ => ∃ o, server (sc_net cfg) (inr (Z.of_nat (port_to p))) = Some o ∧
                sc_objects cfg !! o = Some [service_name; "Raft"]
  | None => server (sc_net cfg) (inr (Z.of_nat (port_to p))) = None
  end.
Proof.
  intros (Hw & _ & _)%harness_set_up Hp. split_and!.
  - intros q Hq. by eapply w_inj.
  - by apply (w_end _ Hw).
  - assert (port_to p < sc_n cfg) as Hlt.
    { destruct p as [[i j]|[ck j]]; simpl in *.
      - unfold endname in Hp. apply bind_Some in Hp as (row & Hrow & Hp).
        apply bind_Some in Hp as (es & -> & Hj).
        rewrite <-(w_row _ Hw _ _ Hrow). by eapply lookup_lt_Some.
      - unfold clerk_ends in Hp. destruct (sc_clerks cfg !! ck) as [es|] eqn:Hes; [|done].
        rewrite <-(proj1 (w_clerk _ Hw _ _ Hes)). by eapply lookup_lt_Some. }
    destruct (lookup_lt_is_Some_2 (sc_servers cfg) (port_to p)) as [[s|] Hs].
    { by rewrite (w_servers _ Hw). }
    + rewrite Hs. simpl. by apply (w_up _ Hw _ s).
    + rewrite Hs. simpl. by apply (w_down _ Hw).
Qed.

(** ** Leader and make_partition *)

Lemma find_leader_spec i (l : list (option Srv)) :
  (∀ o, o ∈ l → is_Some o) →
  ∃ b k, find_leader i l = Ok (b, k) ∧
    if b then ∃ s, l !! (k - i) = Some (Some s) ∧ i ≤ k ∧ (GetState (raft_of s)).2 = true
    else k = 0 ∧ ∀ s, Some s ∈ l → (GetState (raft_of s)).2 = false.
Proof.
  revert i. induction l as [|o l IH]; intros i Hl.
  { exists false, 0. split; [done|]. split; [done|]. by intros s ?%elem_of_nil. }
  destruct (Hl o ltac:(by left)) as [s ->]. cbn [find_leader].
  destruct (GetState (raft_of s)).2 eqn:Hs.
  { exists true, i. split; [done|]. exists s. rewrite Nat.sub_diag. done. }
  destruct (IH (S i)) as (b & k & Hk & Hb); [intros; apply Hl; by right|].
  exists b, k. split; [done|]. destruct b.
  - destruct Hb as (t & Ht & Hle & Hlead). exists t. split; [|split; [lia|done]].
    replace (k - i) with (S (k - S i)) by lia. done.
  - destruct Hb as [-> Hb]. split; [done|].
    intros t [Ht|Ht]%elem_of_cons; [congruence|by apply Hb].
Qed.

(** What a partition tells of the ports between servers. *)
Lemma partition_ports n p1 p2 f cfg cfg' :
  set_up n cfg → p1 ++ p2 ≡ₚ seq 0 n →
  f = (λ p x, put true (inside p1 p2) p (put false (across p1 p2) p x)) →
  rewired f cfg cfg' → ∀ i j, i < n → j < n →
  port_on cfg' (inl (i, j)) = bool_decide (i ∈ p1 ↔ j ∈ p1).
Proof.
  intros (Hw & Hf & Hn) Hp -> Hr i j Hi Hj.
  rewrite (rw_on _ _ _ Hr (inl (i, j)) ltac:(apply endname_full; lia || done)).
  assert (∀ k, k < n → k ∈ p1 ++ p2) as Hall.
  { intros k Hk. rewrite Hp. apply elem_of_seq. lia. }
  assert (NoDup (p1 ++ p2)) as (_ & Hd & _)%list.NoDup_app.
  { rewrite Hp. apply NoDup_seq. }
  pose proof (Hall i Hi) as [Ha|Ha]%elem_of_app; pose proof (Hall j Hj) as [Hb|Hb]%elem_of_app;
    unfold put; simpl; repeat case_bool_decide; try done; exfalso;
    pose proof (Hd i); pose proof (Hd j); tauto.
Qed.

(** C32. [make_partition] and [partition] do what the comments say: for an odd
    number of running servers, at least three, they return, [make_partition]
    deals every server to exactly one side, the first side has a majority and
    the second contains the leader if there is one, and after [partition] two
    servers can call each other exactly when they are on the same side, while
    no clerk gains or loses a connection. *)
Theorem leader_isolated n cfg :
  harness n cfg → 3 ≤ n → Nat.odd n = true →
  (∀ i, i < n → is_Some (mjoin (sc_servers cfg !! i))) →
  ∃ p1 p2 cfg', make_partition cfg = Ok (p1, p2) ∧ partition p1 p2 cfg = Ok cfg' ∧
    p1 ++ p2 ≡ₚ seq 0 n ∧ n < 2 * length p1 ∧
    (∀ i s, sc_servers cfg !! i = Some (Some s) → (GetState (raft_of s)).2 = true →
       (∀ j t, sc_servers cfg !! j = Some (Some t) → (GetState (raft_of t)).2 = true →
         j = i) → i ∈ p2) ∧
    (∀ i j, i < n → j < n → port_on cfg' (inl (i, j)) = bool_decide (i ∈ p1 ↔ j ∈ p1)) ∧
    (∀ ck j, is_Some (port_name cfg (inr (ck, j))) →
       port_on cfg' (inr (ck, j)) = port_on cfg (inr (ck, j))).
Proof.
  intros Hs%harness_set_up Hn Hodd Hup. pose proof Hs as (Hw & Hf & Hsn).
  pose proof (w_servers _ Hw) as Hlen.
  destruct (find_leader_spec 0 (sc_servers cfg)) as (b & l & Hl & Hb).
  { intros o [i Hi]%list_elem_of_lookup. destruct (Hup i) as [s Hsi].
    { apply lookup_lt_Some in Hi. lia. }
    rewrite Hi in Hsi. simpl in Hsi. by exists s. }
  rewrite Nat.sub_0_r in Hb.
  assert (l < n) as Hln.
  { destruct b; [|lia]. destruct Hb as (s & Hls & _). apply lookup_lt_Some in Hls. lia. }
  destruct (sides_odd n l Hn Hodd Hln) as (p1 & p2 & Hsides & H1 & H2 & Hperm & Hin).
  assert (NoDup (p1 ++ p2)) as (_ & Hd & _)%list.NoDup_app.
  { rewrite Hperm. apply NoDup_seq. }
  assert (∀ i, i ∈ p1 ++ p2 → i < n) as Hlt.
  { intros i. rewrite Hperm. intros ?%elem_of_seq. lia. }
  pose proof (Nat.div_mod_eq n 2). pose proof (Nat.mod_upper_bound n 2 ltac:(lia)).
  destruct (partition_spec p1 p2 cfg Hw Hf) as (cfg' & Hc & Hr); [done|..|lia|lia|].
  { intros i Hi. rewrite Hsn. apply Hlt, elem_of_app. by left. }
  { intros i Hi. rewrite Hsn. apply Hlt, elem_of_app. by right. }
  exists p1, p2, cfg'. split_and!; [|done|done|lia| | |].
  - unfold make_partition, Leader. rewrite take_ge, Hl by lia. simpl. by rewrite Hsn.
  - intros i s Hi Hlead Huniq. destruct b.
    + destruct Hb as (t & Ht & _ & Hlt'). by rewrite <-(Huniq _ _ Ht Hlt').
    + destruct Hb as [_ Hb]. rewrite (Hb s) in Hlead; [done|]. by eapply list_elem_of_lookup_2.
  - by eapply partition_ports.
  - intros ck j Hp. rewrite (rw_on _ _ _ Hr) by done. done.
Qed.

(** A server that is shut down and started again continues from the last
    state its predecessor persisted: [ShutdownServer] returns, leaves no
    connection between the server and any server and takes it off the
    network, and [StartServer] with fresh names then starts a server whose
    Raft peer is made from exactly the bytes the old one had saved; the other
    servers keep running. *)
Theorem restart_keeps_state `{!Gob (gval Op), !RaftServiceLaws Srv} n cfg i s names :
  harness n cfg → sc_servers cfg !! i = Some (Some s) → fresh_names cfg names →
  ∃ c1 c2, ShutdownServer i cfg = Ok c1 ∧ StartServer i names c1 = Ok c2 ∧
    server (sc_net c1) (inr (Z.of_nat i)) = None ∧
    (∀ j, j < n → port_on c1 (inl (i, j)) = false ∧ port_on c1 (inl (j, i)) = false) ∧
    (∃ s', sc_servers c2 !! i = Some (Some s') ∧
       raft_of s' = Make n i (persister (raft_of s))) ∧
    (∀ j, j ≠ i → sc_servers c2 !! j = sc_servers cfg !! j).
Proof.
  intros Hs%harness_set_up Hi (Hl & Hnd & Hfr). pose proof Hs as (Hw & Hf & Hn).
  pose proof (w_servers _ Hw) as Hlen. pose proof (lookup_lt_Some _ _ _ Hi) as Hlt.
  destruct (ShutdownServer_spec i cfg) as (c1 & H1 & [P1 P2 P3 P4 P5 P6 P7 P8]); [done|done|lia|].
  destruct (StartServer_spec i names c1) as (c2 & H2 & Hst);
    [done|lia|congruence|done|by rewrite P5|].
  exists c1, c2. split_and!; [done|done| | | |].
  - apply (w_down _ P1). by rewrite P6, decide_True.
  - intros j Hj. rewrite !P8 by (apply endname_full; done || lia). unfold put.
    split; (rewrite (proj2 (joins_true _ _ _ _)); [done|]); rewrite !elem_of_seq; lia.
  - eexists. rewrite (st_server _ _ _ _ Hst), decide_True by done. split; [done|].
    rewrite start_server_raft, P7, P2, Hn. unfold saved_now. by rewrite Hi.
  - intros j Hj. by rewrite (st_server _ _ _ _ Hst), P6, !decide_False by done.
Qed.

(** [make_config] sets a cluster up: with different names for all
    end-points it returns, every server runs a Raft peer made from empty
    storage, and each of them can call each. *)
Theorem make_config_connected `{!Gob (gval Op), !RaftServiceLaws Srv} names unreliable :
  Forall (λ ns, length ns = length names) names → NoDup (concat names) →
  ∃ cfg, make_config names unreliable = Ok cfg ∧ harness (length names) cfg ∧
    (∀ i j, i < length names → j < length names → port_on cfg (inl (i, j)) = true) ∧
    (∀ i, i < length names → ∃ s, sc_servers cfg !! i = Some (Some s) ∧
       raft_of s = Make (length names) i MakePersister) ∧
    reliable (sc_net cfg) = negb unreliable.
Proof.
  intros Hall Hnd.
  destruct (make_config_spec names unreliable Hall Hnd) as (cfg & Hc & _ & Hon & Hup & Hrel & _).
  exists cfg. split_and!; [done|by eapply h_make|done| |done].
  intros i Hi. eexists. split; [by apply Hup|]. apply start_server_raft.
Qed.
End promises.

(** ** Three key/value servers *)

Section demo.
#[local] Instance op_gob : Gob (gval Op) := bits_gob (gval Op).
#[local] Instance demo_service : RaftService RaftKV := kvraft_service (-1).

Definition demo_names : list (list string) :=
  [["a0"; "a1"; "a2"]; ["b0"; "b1"; "b2"]; ["c0"; "c1"; "c2"]].

(** Whether the names below are unused, and the name of one end-point. *)
Definition observe (r : result (config RaftKV)) : bool * option string :=
  match r with
  | Ok cfg =>
      (forallb (λ e, match ends (sc_net cfg) !! inl e with None => true | _ => false end)
         ["d0"; "d1"; "d2"], port_name cfg (inl (0, 1)))
  | _ => (false, None)
  end.

Lemma demo_observed : observe (make_config demo_names false) = (true, Some "a1").
Proof. vm_compute. reflexivity. Qed.

Lemma demo_names_ok : Forall (λ ns, length ns = 3) demo_names ∧ NoDup (concat demo_names).
Proof. split; [repeat constructor|apply (bool_decide_unpack _); vm_compute; exact I]. Qed.

Lemma demo_config :
  ∃ cfg, harness 3 cfg ∧ fresh_names cfg ["d0"; "d1"; "d2"] ∧
    port_name cfg (inl (0, 1)) = Some "a1" ∧
    ∀ i, i < 3 → sc_servers cfg !! i = Some (Some (StartKVServer 3 i MakePersister (-1))).
Proof.
  destruct demo_names_ok as [H1 H2].
  destruct (make_config_spec demo_names false H1 H2) as (cfg & Hc & (_ & _ & Hn) & _ & Hup & _).
  pose proof demo_observed as Hobs. rewrite Hc in Hobs. injection Hobs as Hfresh Hport.
  exists cfg. split_and!; [by eapply (h_make 3 demo_names false)| |done|exact Hup].
  split; [by rewrite Hn|].
  split; [apply (bool_decide_unpack _); vm_compute; exact I|].
  intros e He%list_elem_of_In. rewrite !andb_true_iff in Hfresh.
  destruct Hfresh as (F0 & F1 & F2 & _). simpl in He.
  assert (∀ x, match ends (sc_net cfg) !! inl x with None => true | _ => false end = true →
    ends (sc_net cfg) !! inl x = None) as Hnone.
  { intros x. destruct (ends (sc_net cfg) !! inl x); [discriminate|reflexivity]. }
  destruct He as [<-|[<-|[<-|[]]]]; apply Hnone; assumption.
Qed.

Lemma service_wiring_correct_witness :
  ∃ cfg : config RaftKV, harness 3 cfg ∧
    connection (sc_net cfg) (inl "a1") = Some (inr 1%Z).
Proof.
  destruct demo_config as (cfg & Hh & _ & Hp & _). exists cfg. split; [exact Hh|].
  apply (service_wiring_correct 3 cfg (inl (0, 1)) "a1" Hh Hp).
Defined.

Lemma leader_isolated_witness :
  ∃ (cfg : config RaftKV) p1 p2 cfg', make_partition cfg = Ok (p1, p2) ∧
    partition p1 p2 cfg = Ok cfg' ∧ 3 < 2 * length p1.
Proof.
  destruct demo_config as (cfg & Hh & _ & _ & Hup).
  destruct (leader_isolated 3 cfg Hh ltac:(lia) eq_refl
    ltac:(intros i Hi; rewrite (Hup i Hi); eexists; reflexivity))
    as (p1 & p2 & cfg' & H1 & H2 & _ & H3 & _).
  exists cfg, p1, p2, cfg'. split; [exact H1|split; [exact H2|exact H3]].
Defined.

Lemma restart_keeps_state_witness :
  ∃ cfg c1 c2 : config RaftKV, harness 3 cfg ∧ ShutdownServer 0 cfg = Ok c1 ∧
    StartServer 0 ["d0"; "d1"; "d2"] c1 = Ok c2.
Proof.
  destruct demo_config as (cfg & Hh & Hf & _ & Hup).
  destruct (restart_keeps_state 3 cfg 0 _ _ Hh (Hup 0 ltac:(lia)) Hf)
    as (c1 & c2 & H1 & H2 & _).
  exists cfg, c1, c2. split; [exact Hh|split; [exact H1|exact H2]].
Defined.

Lemma make_config_connected_witness :
  ∃ cfg, make_config demo_names true = Ok cfg ∧ reliable (sc_net cfg) = false ∧
    port_on cfg (inl (2, 0)) = true.
Proof.
  destruct (make_config_connected demo_names true (proj1 demo_names_ok) (proj2 demo_names_ok))
    as (cfg & H1 & _ & H2 & _ & H3).
  exists cfg. split; [exact H1|split; [exact H3|]].
  apply H2; unfold demo_names, length; lia.
Defined.
End demo.
