(* ===== verification/GroupConfig.v ===== *)
(** * The test harness of the sharded store: shardkv/config.go

    Three shardmaster servers and three groups of [n] key/value servers over
    one labrpc network, whose servers have string names.  A server's
    end-points to its group and to the masters are made, connected and enabled
    when it is started; stopping it disables them and takes it off the
    network.

    As in ServiceConfig.v the names that [randstring] draws are inputs, a clerk
    is known by the value [nextClientId] had when it was made, and a server
    object is the list of the services it offers.  The [Kill] of a server that
    is stopped is left out: it reaches [Raft.Kill], which has no body. *)

From S2P Require Import Prelude GoBase GoStrings LabRpc Persister Raft RaftConfig Clerks Services.

Section config.
Context `{!Gob (gval Op)}.
Notation Network := (@LabRpc.Network Name _ _).

Record group := mkGroup {
  g_gid : Z;
  g_servers : list (option ShardKV);
  g_saved : list (option Persister);
  g_endnames : list (option (list string));
  g_mendnames : list (option (list string));
}.

Record config := mkConfig {
  gc_net : Network;
  gc_nmasters : nat;
  gc_masterservers : list (option ShardMaster);
  gc_mck : list string;
  gc_ngroups : nat;
  gc_n : nat;
  gc_groups : list group;
  gc_clerks : gmap Z (list string);
  gc_nextClientId : Z;
  gc_maxraftstate : Z;
  gc_objects : list (list string);
}.

Definition with_net (rn : Network) (cfg : config) : config :=
  mkConfig rn (gc_nmasters cfg) (gc_masterservers cfg) (gc_mck cfg) (gc_ngroups cfg)
    (gc_n cfg) (gc_groups cfg) (gc_clerks cfg) (gc_nextClientId cfg)
    (gc_maxraftstate cfg) (gc_objects cfg).
Definition with_groups (gs : list group) (cfg : config) : config :=
  mkConfig (gc_net cfg) (gc_nmasters cfg) (gc_masterservers cfg) (gc_mck cfg)
    (gc_ngroups cfg) (gc_n cfg) gs (gc_clerks cfg) (gc_nextClientId cfg)
    (gc_maxraftstate cfg) (gc_objects cfg).
Definition with_clerks (cks : gmap Z (list string)) (next : Z) (cfg : config) : config :=
  mkConfig (gc_net cfg) (gc_nmasters cfg) (gc_masterservers cfg) (gc_mck cfg)
    (gc_ngroups cfg) (gc_n cfg) (gc_groups cfg) cks next (gc_maxraftstate cfg)
    (gc_objects cfg).
Definition with_masters (ms : list (option ShardMaster)) (ck : list string)
    (cfg : config) : config :=
  mkConfig (gc_net cfg) (gc_nmasters cfg) ms ck (gc_ngroups cfg) (gc_n cfg)
    (gc_groups cfg) (gc_clerks cfg) (gc_nextClientId cfg) (gc_maxraftstate cfg)
    (gc_objects cfg).

(** A new labrpc server with the services [svcs] gets the name [name]. *)
Definition add_server (name : string) (svcs : list string) (cfg : config) : config :=
  let rn := LabRpc.AddServer (inl name) (length (gc_objects cfg)) (gc_net cfg) in
  mkConfig rn (gc_nmasters cfg) (gc_masterservers cfg) (gc_mck cfg) (gc_ngroups cfg)
    (gc_n cfg) (gc_groups cfg) (gc_clerks cfg) (gc_nextClientId cfg)
    (gc_maxraftstate cfg) (gc_objects cfg ++ [svcs]).

(** ** Names *)

Definition mastername (i : nat) : string := "master" +:+ Itoa (Z.of_nat i).
Definition servername (gid : Z) (i : nat) : string :=
  "server-" +:+ Itoa gid +:+ "-" +:+ Itoa (Z.of_nat i).

(** ** End-points *)

(** [MakeEnd], [Connect] and [Enable] for each of the names, the first of them
    for [target j]. *)
Fixpoint open_ends (target : nat → string) (names : list string) (j : nat)
    (rn : Network) : result Network :=
  match names with
  | [] => Ok rn
  | e :: names =>
      rbind (LabRpc.MakeEnd (inl e) rn) (λ '(rn, _),
      open_ends target names (S j)
        (LabRpc.Enable (inl e) true (LabRpc.Connect (inl e) (inl (target j)) rn)))
  end.

(** The function that servers and clerks get to reach a server by its name. *)
Definition make_end (name server : string) (cfg : config) : result config :=
  rbind (open_ends (λ _, server) [name] 0 (gc_net cfg)) (λ rn, Ok (with_net rn cfg)).

(** ** Masters *)

Definition StartMasterServer (i : nat) (names : list string) (cfg : config)
    : result config :=
  rbind (open_ends mastername names 0 (gc_net cfg)) (λ rn,
  let sm := SM_StartServer (gc_nmasters cfg) i MakePersister in
  rbind (oget (gc_masterservers cfg !! i) Panic) (λ _,
  let cfg := with_masters (<[i := Some sm]> (gc_masterservers cfg)) (gc_mck cfg)
               (with_net rn cfg) in
  Ok (add_server (mastername i) ["ShardMaster"; "Raft"] cfg))).

(** [shardclerk]: the clerk is the list of its end-points. *)
Definition shardclerk (names : list string) (cfg : config)
    : result (config * list string) :=
  rbind (open_ends mastername names 0 (gc_net cfg)) (λ rn,
  Ok (with_net rn cfg, names)).

(** ** Clerks *)

(** [endnames] has [cfg.n] entries and is filled for every master. *)
Definition fill_endnames (n : nat) (names : list string) : result (list string) :=
  if length names <=? n then Ok (names ++ replicate (n - length names) "") else Panic.

Definition makeClient (names : list string) (cfg : config) : result (config * Z) :=
  rbind (fill_endnames (gc_n cfg) names) (λ endnames,
  rbind (open_ends mastername names 0 (gc_net cfg)) (λ rn,
  let ck := gc_nextClientId cfg in
  Ok (with_clerks (<[ck := endnames]> (gc_clerks cfg)) (ck + 1) (with_net rn cfg), ck))).

Definition clerk_ends (cfg : config) (ck : Z) : list string :=
  default [] (gc_clerks cfg !! ck).

(** [deleteClient], with the files it removes. *)
Definition deleteClient (ck : Z) (cfg : config) : config * list string :=
  (with_clerks (delete ck (gc_clerks cfg)) (gc_nextClientId cfg) cfg, clerk_ends cfg ck).

(** ** Servers *)

Definition g_saved_now (gg : group) (i : nat) : option Persister :=
  match mjoin (g_servers gg !! i) with
  | Some s => Some (persister (skv_rf s))
  | None => mjoin (g_saved gg !! i)
  end.

Definition ShutdownServer (gi i : nat) (cfg : config) : result config :=
  rbind (oget (gc_groups cfg !! gi) Panic) (λ gg,
  rbind (oget (g_endnames gg !! i) Panic) (λ row,
  rbind (oget (mapM (λ j, es ← row; es !! j) (seq 0 (length (g_servers gg)))) Panic)
    (λ names,
  rbind (oget (g_mendnames gg !! i) Panic) (λ mrow,
  let rn := enable_all names false (gc_net cfg) in
  let rn := enable_all (default [] mrow) false rn in
  let rn := LabRpc.DeleteServer (inl (servername (g_gid gg) i)) rn in
  let saved := <[i := Copy <$> g_saved_now gg i]> (g_saved gg) in
  let gg := mkGroup (g_gid gg) (<[i := None]> (g_servers gg)) saved (g_endnames gg)
              (g_mendnames gg) in
  Ok (with_groups (<[gi := gg]> (gc_groups cfg)) (with_net rn cfg)))))).

Definition ShutdownGroup (gi : nat) (cfg : config) : result config :=
  rfor (ShutdownServer gi) (seq 0 (gc_n cfg)) cfg.

(** [StartServer], with the names of the end-points to the group and of those
    to the masters. *)
Definition StartServer (gi i : nat) (names mnames : list string) (cfg : config)
    : result config :=
  rbind (oget (gc_groups cfg !! gi) Panic) (λ gg,
  rbind (oget (g_endnames gg !! i) Panic) (λ _,
  let endnames := <[i := Some names]> (g_endnames gg) in
  rbind (open_ends (servername (g_gid gg)) names 0 (gc_net cfg)) (λ rn,
  rbind (oget (g_mendnames gg !! i) Panic) (λ _,
  let mendnames := <[i := Some mnames]> (g_mendnames gg) in
  rbind (open_ends mastername mnames 0 rn) (λ rn,
  let ps := match g_saved_now gg i with
            | Some ps => Copy ps
            | None => MakePersister
            end in
  let kv := SKV_StartServer (gc_n cfg) i ps (gc_maxraftstate cfg) (g_gid gg)
              (gc_nmasters cfg) in
  let gg := mkGroup (g_gid gg) (<[i := Some kv]> (g_servers gg))
              (<[i := Some ps]> (g_saved gg)) endnames mendnames in
  let cfg := with_groups (<[gi := gg]> (gc_groups cfg)) (with_net rn cfg) in
  Ok (add_server (servername (g_gid gg) i) ["ShardKV"; "Raft"] cfg)))))).

Definition StartGroup (gi : nat) (names : list (list string * list string)) (cfg : config)
    : result config :=
  rfor (λ '(i, (ns, ms)), StartServer gi i ns ms) (zip (seq 0 (gc_n cfg)) names) cfg.

(** ** Joining and leaving *)

(** The argument of the clerk's [Join]. *)
Definition join_args (gis : list nat) (cfg : config) : result (gmap Z (list string)) :=
  rfor (λ g m, rbind (oget (gc_groups cfg !! g) Panic) (λ gg,
    Ok (<[g_gid gg := servername (g_gid gg) <$> seq 0 (gc_n cfg)]> m))) gis ∅.

Definition joinm (rpc : nat → string → ShardMaster.OpArgs → option ShardMaster.OpReply)
    (rounds : nat) (gis : list nat) (cfg : config) : result unit :=
  rbind (join_args gis cfg) (ShardMaster.Join rpc (gc_mck cfg) rounds).
Definition join rpc (rounds gi : nat) (cfg : config) : result unit :=
  joinm rpc rounds [gi] cfg.

Definition leave_args (gis : list nat) (cfg : config) : result (list Z) :=
  rfor (λ g gids, rbind (oget (gc_groups cfg !! g) Panic) (λ gg,
    Ok (gids ++ [g_gid gg]))) gis [].

Definition leavem (rpc : nat → string → ShardMaster.OpArgs → option ShardMaster.OpReply)
    (rounds : nat) (gis : list nat) (cfg : config) : result unit :=
  rbind (leave_args gis cfg) (ShardMaster.Leave rpc (gc_mck cfg) rounds).
Definition leave rpc (rounds gi : nat) (cfg : config) : result unit :=
  leavem rpc rounds [gi] cfg.

(** ** The whole *)

(** [checklogs]. *)
Definition checklogs (cfg : config) : result unit :=
  rfor (λ gi _, rbind (oget (gc_groups cfg !! gi) Panic) (λ gg,
    rfor (λ i _, rbind (oget (g_saved_now gg i) Panic) (λ ps,
      let raft := RaftStateSize ps in
      let snap := zlen (ReadSnapshot ps) in
      if Z.leb 0 (gc_maxraftstate cfg) && Z.ltb (2 * gc_maxraftstate cfg) raft then Fatal
      else if Z.ltb (gc_maxraftstate cfg) 0 && Z.ltb 0 snap then Fatal
      else Ok tt)) (seq 0 (gc_n cfg)) tt)) (seq 0 (gc_ngroups cfg)) tt.

Definition cleanup (cfg : config) : result config :=
  rfor ShutdownGroup (seq 0 (gc_ngroups cfg)) cfg.

(** The group that [make_config] makes; [mendnames] has an entry per master. *)
Definition new_group (nmasters n gi : nat) : group :=
  mkGroup (100 + Z.of_nat gi) (replicate n None) (replicate n None) (replicate n None)
    (replicate nmasters None).

Definition start_masters (names : list (list string)) (cfg : config) : result config :=
  rfor (λ '(i, ns), StartMasterServer i ns) (zip (seq 0 (gc_nmasters cfg)) names) cfg.

(** The loop over the groups: group [gi] is made and its servers started. *)
Definition start_groups (names : list (list (list string * list string))) (cfg : config)
    : result config :=
  rfor (λ '(gi, ns) cfg,
    StartGroup gi ns
      (with_groups (gc_groups cfg ++ [new_group (gc_nmasters cfg) (gc_n cfg) gi]) cfg))
    (zip (seq 0 (gc_ngroups cfg)) names) cfg.

Definition make_config (n : nat) (unreliable : bool) (maxraftstate : Z)
    (masters : list (list string)) (clerk : list string)
    (groups : list (list (list string * list string))) : result config :=
  let cfg := mkConfig LabRpc.MakeNetwork 3 (replicate 3 None) [] 3 n [] ∅
               (Z.of_nat n + 1000) maxraftstate [] in
  rbind (start_masters masters cfg) (λ cfg,
  rbind (shardclerk clerk cfg) (λ '(cfg, mck),
  let cfg := with_masters (gc_masterservers cfg) mck cfg in
  rbind (start_groups groups cfg) (λ cfg,
  Ok (with_net (LabRpc.Reliable (negb unreliable) (gc_net cfg)) cfg)))).
End config.
