(* ===== verification/GroupWiring.v ===== *)
(** * The sharded store's test network

    In every state of the harness the end-point names it keeps are different,
    each leads to the server it is for, and a server's end-points are enabled
    exactly while the server runs.  The harness only works for groups of three
    servers. *)

From S2P Require Import Prelude GoBase GoStrings LabRpc Persister Raft RaftConfig RaftWiring RaftDemo Clerks Services GroupConfig.

(** ** Server names *)

Lemma servername_inj g g' i i' :
  (0 ≤ g)%Z → (0 ≤ g')%Z → servername g i = servername g' i' → g = g' ∧ i = i'.
Proof.
  intros Hg Hg' Heq. unfold servername in Heq. apply (inj (String.append _)) in Heq.
  apply (string_sep_inj "-"%char) in Heq as [H1 H2]; [|by apply Itoa_no_dash..].
  apply (inj Itoa) in H1, H2. lia.
Qed.

Lemma mastername_inj i i' : mastername i = mastername i' → i = i'.
Proof.
  intros Heq. apply (inj (String.append _)), (inj Itoa) in Heq. lia.
Qed.

Lemma mastername_servername i g j : mastername i ≠ servername g j.
Proof. done. Qed.

Section wiring.
Context `{!Gob (gval Op)}.
Notation Network := (@LabRpc.Network Name _ _).
Implicit Types cfg : config.
Implicit Types rn : Network.

(** ** Opening end-points *)

Record opened (target : nat → string) (names : list string) (j : nat) rn rn' : Prop := {
  op_nodup : NoDup names;
  op_new k e : names !! k = Some e →
    ends rn !! inl e = None ∧ is_Some (ends rn' !! inl e) ∧
    is_enabled rn' (inl e) = true ∧
    connection rn' (inl e) = Some (inl (target (j + k)));
  op_old e : is_Some (ends rn !! inl e) →
    is_Some (ends rn' !! inl e) ∧
    is_enabled rn' (inl e) = is_enabled rn (inl e) ∧
    connection rn' (inl e) = connection rn (inl e);
  op_out e : e ∉ names → ends rn' !! inl e = ends rn !! inl e;
  op_servers : servers rn' = servers rn;
}.

(** One end-point made, connected and enabled. *)
Definition opened_one (e s : string) rn : Network :=
  mkNetwork (reliable rn) (longDelays rn) (longReordering rn)
    (<[inl e := mkEnd (inl e)]> (ends rn)) (<[inl e := true]> (<[inl e := false]> (enabled rn)))
    (servers rn) (<[inl e := Some (inl s)]> (<[inl e := None]> (connections rn))).

Lemma open_ends_cons target e names j rn :
  open_ends target (e :: names) j rn =
    match ends rn !! inl e with
    | Some _ => Fatal
    | None => open_ends target names (S j) (opened_one e (target j) rn)
    end.
Proof. cbn [open_ends]. unfold MakeEnd. by destruct (ends rn !! inl e). Qed.

Lemma open_ends_opened target names j rn rn' :
  open_ends target names j rn = Ok rn' → opened target names j rn rn'.
Proof.
  revert j rn. induction names as [|e names IH]; intros j rn Hm.
  { injection Hm as <-. split; [constructor|done|done|done|done]. }
  rewrite open_ends_cons in Hm. destruct (ends rn !! inl e) eqn:Hfresh; [done|].
  apply IH in Hm as [Hnd Hnew Hold Hout Hsrv].
  unfold is_enabled, connection, opened_one in Hold. simpl in Hold, Hnew, Hout.
  destruct (Hold e) as (He1 & He2 & He3); [by rewrite lookup_insert_eq|].
  rewrite lookup_insert_eq in He2. rewrite lookup_insert_eq in He3. simpl in He2, He3.
  assert (e ∉ names) as He.
  { intros [k Hk]%list_elem_of_lookup. destruct (Hnew k e Hk) as [Hnone _].
    by rewrite lookup_insert_eq in Hnone. }
  split.
  - by constructor.
  - intros [|k] x Hk; simpl in Hk.
    + injection Hk as <-. rewrite Nat.add_0_r. unfold is_enabled, connection.
      by rewrite He2, He3.
    + destruct (Hnew k x Hk) as (Hx1 & Hx2 & Hx3 & Hx4). rewrite <-Nat.add_succ_comm.
      split; [|done]. destruct (decide (x = e)) as [->|Hne]; [done|].
      by rewrite lookup_insert_ne in Hx1 by congruence.
  - intros x Hx. assert (x ≠ e) as Hne by (intros ->; rewrite Hfresh in Hx; by destruct Hx).
    destruct (Hold x) as (Hx1 & Hx2 & Hx3); [by rewrite lookup_insert_ne by congruence|].
    rewrite !lookup_insert_ne in Hx2 by congruence.
    rewrite !lookup_insert_ne in Hx3 by congruence.
    unfold is_enabled, connection. by rewrite Hx2, Hx3.
  - intros x [Hne Hx]%not_elem_of_cons. rewrite Hout by done.
    by rewrite lookup_insert_ne by congruence.
  - done.
Qed.

Lemma open_ends_total target names j rn :
  NoDup names → (∀ e, e ∈ names → ends rn !! inl e = None) →
  ∃ rn', open_ends target names j rn = Ok rn'.
Proof.
  revert j rn. induction names as [|e names IH]; intros j rn Hnd Hfresh; [by exists rn|].
  apply list.NoDup_cons in Hnd as [He Hnd]. rewrite open_ends_cons, Hfresh by (by left).
  apply IH; [done|]. intros x Hx. simpl. rewrite lookup_insert_ne by (intros [= ->]; done).
  apply Hfresh. by right.
Qed.

(** ** Ports *)

(** Where the harness keeps end-point names: server [i] of group [gi] to server
    [j] of its group or to master [j]; a clerk to master [j]; its own clerk of
    the shardmaster. *)
Inductive port :=
| PGroup (gi i j : nat)
| PMaster (gi i j : nat)
| PClerk (ck : Z) (j : nat)
| PMck (j : nat).

Definition row_of (rows : list (option (list string))) (i j : nat) : option string :=
  row ← rows !! i; es ← row; es !! j.

Definition port_name cfg (p : port) : option string :=
  match p with
  | PGroup gi i j => gg ← gc_groups cfg !! gi; row_of (g_endnames gg) i j
  | PMaster gi i j => gg ← gc_groups cfg !! gi; row_of (g_mendnames gg) i j
  | PClerk ck j => if j <? gc_nmasters cfg then clerk_ends cfg ck !! j else None
  | PMck j => gc_mck cfg !! j
  end.

Definition group_id (gi : nat) : Z := 100 + Z.of_nat gi.

Definition port_target (p : port) : string :=
  match p with
  | PGroup gi _ j => servername (group_id gi) j
  | PMaster _ _ j | PClerk _ j | PMck j => mastername j
  end.

Definition running cfg (gi i : nat) : bool :=
  match gc_groups cfg !! gi with
  | Some gg => match g_servers gg !! i with Some (Some _) => true | _ => false end
  | None => false
  end.

Definition port_live cfg (p : port) : bool :=
  match p with
  | PGroup gi i _ | PMaster gi i _ => running cfg gi i
  | PClerk _ _ | PMck _ => true
  end.

Record wired_group (nmasters n gi : nat) (gg : group) : Prop := {
  wg_gid : g_gid gg = group_id gi;
  wg_servers : length (g_servers gg) = n;
  wg_saved : length (g_saved gg) = n;
  wg_endnames : length (g_endnames gg) = n;
  wg_mendnames : length (g_mendnames gg) = nmasters;
  wg_row i es : g_endnames gg !! i = Some (Some es) → length es = n;
  wg_mrow i es : g_mendnames gg !! i = Some (Some es) → length es = nmasters;
  wg_rows i s : g_servers gg !! i = Some (Some s) →
    ∃ es ms, g_endnames gg !! i = Some (Some es) ∧ g_mendnames gg !! i = Some (Some ms);
}.

(** Which server objects are on the network. *)
Definition offers cfg (name : string) (svcs : list string) : Prop :=
  ∃ o, server (gc_net cfg) (inl name) = Some o ∧ gc_objects cfg !! o = Some svcs.

Record wired cfg : Prop := {
  w_group gi gg : gc_groups cfg !! gi = Some gg →
    wired_group (gc_nmasters cfg) (gc_n cfg) gi gg;
  w_clerk ck es : gc_clerks cfg !! ck = Some es → (ck < gc_nextClientId cfg)%Z;
  w_inj p q e : port_name cfg p = Some e → port_name cfg q = Some e → p = q;
  w_end p e : port_name cfg p = Some e →
    is_Some (ends (gc_net cfg) !! inl e) ∧
    connection (gc_net cfg) (inl e) = Some (inl (port_target p)) ∧
    is_enabled (gc_net cfg) (inl e) = port_live cfg p;
  w_up gi i : running cfg gi i = true →
    offers cfg (servername (group_id gi) i) ["ShardKV"; "Raft"];
  w_down gi i : running cfg gi i = false →
    server (gc_net cfg) (inl (servername (group_id gi) i)) = None;
  w_master i sm : gc_masterservers cfg !! i = Some (Some sm) →
    offers cfg (mastername i) ["ShardMaster"; "Raft"];
}.

(** ** Steps that open end-points *)

(** The step opens the end-points [names], all of them new, for the ports
    [fresh]; other ports keep their names and stay as they are. *)
Record opens (names : list string) (fresh : port → Prop) cfg cfg' : Prop := {
  os_port p e : port_name cfg' p = Some e →
    fresh p ∧ e ∈ names ∨ port_name cfg p = Some e ∧ port_live cfg' p = port_live cfg p;
  os_new p e : fresh p → port_name cfg' p = Some e →
    ends (gc_net cfg) !! inl e = None ∧ is_Some (ends (gc_net cfg') !! inl e) ∧
    connection (gc_net cfg') (inl e) = Some (inl (port_target p)) ∧
    is_enabled (gc_net cfg') (inl e) = port_live cfg' p;
  os_inj p q e : fresh p → fresh q → port_name cfg' p = Some e →
    port_name cfg' q = Some e → p = q;
  os_fresh e : e ∈ names → ends (gc_net cfg) !! inl e = None;
  os_old e : is_Some (ends (gc_net cfg) !! inl e) →
    is_Some (ends (gc_net cfg') !! inl e) ∧
    is_enabled (gc_net cfg') (inl e) = is_enabled (gc_net cfg) (inl e) ∧
    connection (gc_net cfg') (inl e) = connection (gc_net cfg) (inl e);
}.

Lemma opens_ports names fresh cfg cfg' :
  wired cfg → opens names fresh cfg cfg' →
  (∀ p q e, port_name cfg' p = Some e → port_name cfg' q = Some e → p = q) ∧
  (∀ p e, port_name cfg' p = Some e →
     is_Some (ends (gc_net cfg') !! inl e) ∧
     connection (gc_net cfg') (inl e) = Some (inl (port_target p)) ∧
     is_enabled (gc_net cfg') (inl e) = port_live cfg' p).
Proof.
  intros Hw [Hport Hnew Hinj Hfresh Hold]. split.
  - intros p q e Hp Hq.
    pose proof (Hport p e Hp) as [[Fp Hin]|[Op _]];
      pose proof (Hport q e Hq) as [[Fq Hin']|[Oq _]].
    + by eapply Hinj.
    + apply Hfresh in Hin. apply (w_end _ Hw) in Oq as ([? ?] & _). congruence.
    + apply Hfresh in Hin'. apply (w_end _ Hw) in Op as ([? ?] & _). congruence.
    + by eapply w_inj.
  - intros p e Hp. pose proof (Hport p e Hp) as [[Fp Hin]|[Op Hlive]].
    + by apply Hnew.
    + apply (w_end _ Hw) in Op as (Hs & Hc & Ho). destruct (Hold e Hs) as (H1 & H2 & H3).
      rewrite H2, H3, Hlive. done.
Qed.

(** Server objects survive. *)
Lemma offers_mono cfg cfg' name svcs o :
  offers cfg name svcs → server (gc_net cfg') (inl name) = server (gc_net cfg) (inl name) →
  gc_objects cfg' = gc_objects cfg ++ o → offers cfg' name svcs.
Proof.
  intros (k & Hk & Ho) Hs Hobj. exists k. rewrite Hs, Hobj. split; [done|].
  by apply lookup_app_l_Some.
Qed.

Lemma add_server_offers name svcs cfg : offers (add_server name svcs cfg) name svcs.
Proof.
  exists (length (gc_objects cfg)). unfold server, add_server. simpl.
  rewrite lookup_insert_eq. split; [done|]. by rewrite list_lookup_middle.
Qed.

Lemma add_server_other name svcs cfg name' :
  name' ≠ name →
  server (gc_net (add_server name svcs cfg)) (inl name') = server (gc_net cfg) (inl name').
Proof.
  intros Hne. unfold server, add_server. simpl. by rewrite lookup_insert_ne by congruence.
Qed.

(** A step that changes neither groups nor servers, only opens end-points. *)
Lemma opens_quiet names fresh cfg cfg' :
  wired cfg → opens names fresh cfg cfg' →
  gc_groups cfg' = gc_groups cfg → gc_masterservers cfg' = gc_masterservers cfg →
  gc_objects cfg' = gc_objects cfg → gc_n cfg' = gc_n cfg →
  gc_nmasters cfg' = gc_nmasters cfg → servers (gc_net cfg') = servers (gc_net cfg) →
  (∀ ck es, gc_clerks cfg' !! ck = Some es → (ck < gc_nextClientId cfg')%Z) →
  wired cfg'.
Proof.
  intros Hw Ho Hg Hm Hobj Hn Hnm Hs Hck. destruct (opens_ports _ _ _ _ Hw Ho) as [Hi He].
  pose proof Hw as [H1 H2 H3 H4 H5 H6 H7].
  assert (∀ gi i, running cfg' gi i = running cfg gi i) as Hrun.
  { intros. unfold running. by rewrite Hg. }
  assert (∀ nm, server (gc_net cfg') nm = server (gc_net cfg) nm) as Hserver.
  { intros. unfold server. by rewrite Hs. }
  split; try done.
  - intros gi gg. rewrite Hg, Hn, Hnm. apply H1.
  - intros gi i. rewrite Hrun. intros Hr%H5. eapply (offers_mono _ _ _ _ []); [done|done|].
    by rewrite app_nil_r.
  - intros gi i. rewrite Hrun, Hserver. apply H6.
  - intros i sm. rewrite Hm. intros Hsm%H7. eapply (offers_mono _ _ _ _ []); [done|done|].
    by rewrite app_nil_r.
Qed.

Lemma make_end_wired name srv cfg cfg' :
  wired cfg → make_end name srv cfg = Ok cfg' → wired cfg'.
Proof.
  intros Hw Hm. unfold make_end in Hm. run_result. subst cfg'.
  apply open_ends_opened in H as [Hnd Hnew Hold Hout Hsrv].
  eapply (opens_quiet [name] (λ _, False)); try done; [|apply (w_clerk _ Hw)].
  split; [by right|done|done| |done].
  intros e ->%list_elem_of_singleton. by apply (Hnew 0).
Qed.

Lemma shardclerk_wired names cfg cfg' mck :
  wired cfg → gc_mck cfg = [] → shardclerk names cfg = Ok (cfg', mck) →
  wired (with_masters (gc_masterservers cfg') mck cfg').
Proof.
  intros Hw Hno Hm. unfold shardclerk in Hm.
  apply rbind_Ok in Hm as (rn & H & [= <- <-]).
  apply open_ends_opened in H as [Hnd Hnew Hold Hout Hsrv].
  eapply (opens_quiet names (λ p, ∃ j, p = PMck j)); try done; [|apply (w_clerk _ Hw)].
  split; [| | | |done].
  - intros [gi i j|gi i j|ck j|j] e Hp; [by right..|]. left. split; [by exists j|].
    simpl in Hp. by eapply list_elem_of_lookup_2.
  - intros p e [j ->] Hp. simpl in Hp. by apply Hnew in Hp as (? & ? & ? & ?).
  - intros p q e [j ->] [j' ->] Hp Hq. simpl in Hp, Hq. f_equal. by eapply NoDup_lookup.
  - intros e [k Hk]%list_elem_of_lookup. by apply (Hnew k).
Qed.

Lemma makeClient_wired names cfg cfg' ck :
  wired cfg → length names = gc_nmasters cfg → makeClient names cfg = Ok (cfg', ck) →
  wired cfg' ∧ gc_n cfg' = gc_n cfg ∧ gc_nmasters cfg' = gc_nmasters cfg.
Proof.
  intros Hw Hlen Hm. unfold makeClient, fill_endnames in Hm.
  destruct (Nat.leb_spec (length names) (gc_n cfg)) as [Hle|]; [|done]. cbn [rbind] in Hm.
  apply rbind_Ok in Hm as (rn & H & [= <- <-]). split; [|done].
  apply open_ends_opened in H as [Hnd Hnew Hold Hout Hsrv].
  set (ck := gc_nextClientId cfg). set (row := names ++ replicate _ _).
  set (cfg' := with_clerks _ _ _).
  assert (∀ a j, port_name cfg' (PClerk a j) =
    if decide (a = ck) then names !! j else port_name cfg (PClerk a j)) as Hname.
  { intros a j. simpl. unfold clerk_ends. simpl. destruct (Nat.ltb_spec j (gc_nmasters cfg)).
    - destruct (decide (a = ck)) as [->|Hne].
      + rewrite lookup_insert_eq. simpl. unfold row. by rewrite lookup_app_l by lia.
      + by rewrite lookup_insert_ne by done.
    - case_decide; [|done]. symmetry. apply lookup_ge_None. lia. }
  eapply (opens_quiet names (λ p, ∃ j, p = PClerk ck j)); try done.
  - split; [| | | |done].
    + intros [gi i j|gi i j|a j|j] e Hp; [by right|by right| |by right].
      rewrite Hname in Hp. case_decide as Ha; [|by right]. subst a. left.
      split; [by exists j|]. by eapply list_elem_of_lookup_2.
    + intros p e [j ->]. rewrite Hname, decide_True by done.
      by intros (? & ? & ? & ?)%Hnew.
    + intros p q e [j ->] [j' ->]. rewrite !Hname, !decide_True by done.
      intros Hp Hq. f_equal. by eapply NoDup_lookup.
    + intros e [k Hk]%list_elem_of_lookup. by apply (Hnew k).
  - simpl. intros a es [[<- _]|[_ Ha]]%lookup_insert_Some; [lia|].
    apply (w_clerk _ Hw) in Ha. lia.
Qed.

Lemma group_deleteClient_wired ck cfg : wired cfg → wired (deleteClient ck cfg).1.
Proof.
  intros Hw. assert (∀ p e, port_name (deleteClient ck cfg).1 p = Some e →
    port_name cfg p = Some e) as Hsub.
  { intros [gi i j|gi i j|a j|j] e; [done|done| |done]. simpl. unfold clerk_ends. simpl.
    destruct (j <? gc_nmasters cfg); [|done]. destruct (decide (a = ck)) as [->|Hne].
    - by rewrite lookup_delete_eq.
    - by rewrite lookup_delete_ne. }
  eapply (opens_quiet [] (λ _, False)); try done.
  - split; [|done|done| |done].
    + intros p e Hp. right. split; [by apply Hsub|by destruct p].
    + by intros e ?%elem_of_nil.
  - simpl. intros a es [_ Ha]%lookup_delete_Some. by apply (w_clerk _ Hw) in Ha.
Qed.

Lemma StartMasterServer_wired i names cfg cfg' :
  wired cfg → StartMasterServer i names cfg = Ok cfg' →
  wired cfg' ∧ gc_n cfg' = gc_n cfg ∧ gc_nmasters cfg' = gc_nmasters cfg ∧
  gc_groups cfg' = gc_groups cfg ∧ gc_mck cfg' = gc_mck cfg ∧
  gc_ngroups cfg' = gc_ngroups cfg.
Proof.
  intros Hw Hm. unfold StartMasterServer in Hm. apply rbind_Ok in Hm as (rn & H & Hm).
  run_result. subst cfg'. split; [|done].
  apply open_ends_opened in H as [Hnd Hnew Hold Hout Hsrv].
  set (cfg' := add_server _ _ _).
  assert (opens names (λ _, False) cfg cfg') as Ho.
  { split; [by right|done|done| |done]. intros e [k Hk]%list_elem_of_lookup.
    by apply (Hnew k). }
  destruct (opens_ports _ _ _ _ Hw Ho) as [Hi He].
  assert (∀ nm, nm ≠ mastername i →
    server (gc_net cfg') (inl nm) = server (gc_net cfg) (inl nm)) as Hother.
  { intros nm Hne. unfold cfg'. rewrite add_server_other by done. unfold server. simpl.
    by rewrite Hsrv. }
  pose proof Hw as [H1 H2 H3 H4 H5 H6 H7]. split; try done.
  - intros gi j Hr. eapply offers_mono; [by apply H5| |done].
    by rewrite Hother by (by intros ?%eq_sym%mastername_servername).
  - intros gi j Hr. rewrite Hother; [by apply H6|].
    by intros ?%eq_sym%mastername_servername.
  - intros j sm. simpl. intros [(-> & _)|[Hne Hj]]%list_lookup_insert_Some.
    { apply add_server_offers. }
    eapply offers_mono; [by eapply H7| |done]. apply Hother.
    by intros ?%mastername_inj.
Qed.

(** ** Groups *)

Lemma new_group_wired cfg :
  wired cfg →
  wired (with_groups (gc_groups cfg ++
    [new_group (gc_nmasters cfg) (gc_n cfg) (length (gc_groups cfg))]) cfg).
Proof.
  intros Hw. set (gg := new_group _ _ _). set (cfg' := with_groups _ cfg).
  assert (∀ gi, gc_groups cfg' !! gi = if decide (gi = length (gc_groups cfg)) then Some gg
    else gc_groups cfg !! gi) as Hget.
  { intros gi. simpl. case_decide as Hd.
    - subst. by rewrite list_lookup_middle.
    - destruct (decide (gi < length (gc_groups cfg))); [by rewrite lookup_app_l by lia|].
      rewrite !(proj2 (lookup_ge_None _ _)); [done|lia|]. rewrite length_app. simpl. lia. }
  assert (∀ n i j, row_of (replicate n None) i j = None) as Hrow.
  { intros n i j. unfold row_of. destruct (replicate n None !! i) eqn:Hi; [|done].
    by apply lookup_replicate in Hi as [-> _]. }
  assert (∀ gi i, running cfg' gi i = running cfg gi i) as Hrun.
  { intros gi i. unfold running. rewrite Hget. case_decide as Hd; [|done].
    subst. rewrite (proj2 (lookup_ge_None (gc_groups cfg) _)) by lia. simpl.
    destruct (replicate _ None !! i) eqn:Hi; [|done].
    by apply lookup_replicate in Hi as [-> _]. }
  assert (∀ p, port_live cfg' p = port_live cfg p) as Hlive.
  { intros [gi i j|gi i j|a j|j]; [apply Hrun|apply Hrun|done|done]. }
  assert (∀ p e, port_name cfg' p = Some e → port_name cfg p = Some e) as Hname.
  { intros [gi i j|gi i j|a j|j] e; cbn [port_name]; try done; rewrite Hget;
      case_decide; try done; simpl; by rewrite Hrow. }
  assert (opens [] (λ _, False) cfg cfg') as Ho.
  { split; [|done|done|by intros e ?%elem_of_nil|done].
    intros p e Hp. right. split; [by apply Hname|apply Hlive]. }
  destruct (opens_ports _ _ _ _ Hw Ho) as [Hi He].
  pose proof Hw as [H1 H2 H3 H4 H5 H6 H7]. split; try done.
  - intros gi gg'. rewrite Hget. case_decide as Hd; [|apply H1]. intros [= <-]. subst.
    split; simpl; rewrite ?length_replicate; try done; by intros i es [? _]%lookup_replicate.
  - intros gi i. rewrite Hrun. apply H5.
  - intros gi i. rewrite Hrun. apply H6.
Qed.
End wiring.
