(* ===== verification/GroupServers.v ===== *)
(** * Starting and stopping the servers of the sharded store's tests *)

From S2P Require Import Prelude GoBase GoStrings LabRpc Persister Raft RaftConfig RaftWiring RaftDemo Clerks Services GroupConfig GroupWiring.

Section servers.
Context `{!Gob (gval Op)}.
Notation Network := (@LabRpc.Network Name _ _).
Implicit Types cfg : config.
Implicit Types rn : Network.

(** ** Replacing a group *)

Definition put_group (gi : nat) (gg : group) cfg : config :=
  with_groups (<[gi := gg]> (gc_groups cfg)) cfg.

Lemma lookup_put_group gi gg gg0 cfg gi' :
  gc_groups cfg !! gi = Some gg0 →
  gc_groups (put_group gi gg cfg) !! gi' =
    if decide (gi' = gi) then Some gg else gc_groups cfg !! gi'.
Proof.
  intros Hgi%lookup_lt_Some. simpl. case_decide as Hd.
  - subst. by apply list_lookup_insert_eq.
  - by apply list_lookup_insert_ne.
Qed.

Lemma running_insert gi gg gg' i o cfg cfg' gi' i' :
  gc_groups cfg !! gi = Some gg → i < length (g_servers gg) →
  g_servers gg' = <[i := o]> (g_servers gg) →
  (∀ k, gc_groups cfg' !! k = if decide (k = gi) then Some gg' else gc_groups cfg !! k) →
  running cfg' gi' i' =
    if decide (gi' = gi ∧ i' = i) then match o with Some _ => true | None => false end
    else running cfg gi' i'.
Proof.
  intros Hg Hi Hs Hk. unfold running. rewrite Hk.
  destruct (decide (gi' = gi)) as [->|Hne]; simpl.
  - rewrite Hg, Hs. destruct (decide (i' = i)) as [->|Hni].
    + rewrite decide_True by done. rewrite list_lookup_insert_eq by done. by destruct o.
    + rewrite decide_False by tauto. by rewrite list_lookup_insert_ne.
  - by rewrite decide_False by tauto.
Qed.

Lemma row_insert rows i (r : option (list string)) i' j :
  i < length rows →
  row_of (<[i := r]> rows) i' j =
    if decide (i' = i) then es ← r; es !! j else row_of rows i' j.
Proof.
  intros Hi. unfold row_of. case_decide as Hd.
  - subst. by rewrite list_lookup_insert_eq by done.
  - by rewrite list_lookup_insert_ne by done.
Qed.

(** ** StartServer *)

(** Two lots of end-points, one after the other. *)
Lemma opened_twice t1 t2 names mnames rn rn1 rn2 :
  opened t1 names 0 rn rn1 → opened t2 mnames 0 rn1 rn2 →
  NoDup (names ++ mnames) ∧
  (∀ e, e ∈ names ++ mnames → ends rn !! inl e = None) ∧
  (∀ k e, names !! k = Some e → is_Some (ends rn2 !! inl e) ∧
     is_enabled rn2 (inl e) = true ∧ connection rn2 (inl e) = Some (inl (t1 k))) ∧
  (∀ k e, mnames !! k = Some e → is_Some (ends rn2 !! inl e) ∧
     is_enabled rn2 (inl e) = true ∧ connection rn2 (inl e) = Some (inl (t2 k))) ∧
  (∀ e, is_Some (ends rn !! inl e) → is_Some (ends rn2 !! inl e) ∧
     is_enabled rn2 (inl e) = is_enabled rn (inl e) ∧
     connection rn2 (inl e) = connection rn (inl e)) ∧
  servers rn2 = servers rn.
Proof.
  intros [A1 A2 A3 A4 A5] [B1 B2 B3 B4 B5].
  assert (∀ e, e ∈ names → e ∉ mnames) as Hdisj.
  { intros e [k Hk]%list_elem_of_lookup [k' Hk']%list_elem_of_lookup.
    apply A2 in Hk as (_ & [? ?] & _). apply B2 in Hk' as (? & _). congruence. }
  split_and!.
  - by apply list.NoDup_app.
  - intros e [He|He]%elem_of_app.
    + apply list_elem_of_lookup in He as [k Hk]. by apply (A2 k).
    + apply list_elem_of_lookup in He as [k Hk]. pose proof (B2 k e Hk) as (Hn & _).
      rewrite A4 in Hn; [done|]. intros Hin. eapply Hdisj, list_elem_of_lookup_2; eauto.
  - intros k e Hk. apply A2 in Hk as (_ & Hs & He & Hc).
    destruct (B3 e Hs) as (? & -> & ->). done.
  - intros k e Hk. by apply B2 in Hk as (_ & ? & ? & ?).
  - intros e Hs. destruct (A3 e Hs) as (Hs1 & E1 & C1). destruct (B3 e Hs1) as (? & -> & ->).
    done.
  - congruence.
Qed.

(** The ports of server [i] of group [gi]. *)
Definition own_port (gi i : nat) (p : port) : Prop :=
  match p with
  | PGroup gi' i' _ | PMaster gi' i' _ => gi' = gi ∧ i' = i
  | _ => False
  end.

Record restarted (gi i : nat) cfg cfg' : Prop := {
  rs_groups : ∃ gg gg', gc_groups cfg !! gi = Some gg ∧
    gc_groups cfg' = <[gi := gg']> (gc_groups cfg) ∧
    g_servers gg' = <[i := Some (SKV_StartServer (gc_n cfg) i
      (default MakePersister (g_saved_now gg i)) (gc_maxraftstate cfg) (g_gid gg)
      (gc_nmasters cfg))]> (g_servers gg);
  rs_n : gc_n cfg' = gc_n cfg;
  rs_nmasters : gc_nmasters cfg' = gc_nmasters cfg;
  rs_ngroups : gc_ngroups cfg' = gc_ngroups cfg;
}.

Lemma StartServer_inv gi i names mnames cfg cfg' :
  StartServer gi i names mnames cfg = Ok cfg' →
  ∃ gg rn1 rn2, gc_groups cfg !! gi = Some gg ∧
    i < length (g_endnames gg) ∧ i < length (g_mendnames gg) ∧
    opened (servername (g_gid gg)) names 0 (gc_net cfg) rn1 ∧
    opened mastername mnames 0 rn1 rn2 ∧
    let ps := default MakePersister (g_saved_now gg i) in
    cfg' = add_server (servername (g_gid gg) i) ["ShardKV"; "Raft"]
      (put_group gi (mkGroup (g_gid gg)
        (<[i := Some (SKV_StartServer (gc_n cfg) i ps (gc_maxraftstate cfg) (g_gid gg)
            (gc_nmasters cfg))]> (g_servers gg))
        (<[i := Some ps]> (g_saved gg)) (<[i := Some names]> (g_endnames gg))
        (<[i := Some mnames]> (g_mendnames gg))) (with_net rn2 cfg)).
Proof.
  intros Hs. unfold StartServer in Hs.
  apply rbind_Ok in Hs as (gg & Hgg & Hs). apply oget_Ok in Hgg; [|done].
  apply rbind_Ok in Hs as (row & Hrow & Hs). apply oget_Ok in Hrow; [|done].
  apply rbind_Ok in Hs as (rn1 & H1 & Hs).
  apply rbind_Ok in Hs as (mrow & Hmrow & Hs). apply oget_Ok in Hmrow; [|done].
  apply rbind_Ok in Hs as (rn2 & H2 & [= <-]).
  exists gg, rn1, rn2. split_and!; [done|by eapply lookup_lt_Some..| | |].
  - by apply open_ends_opened.
  - by apply open_ends_opened.
  - destruct (g_saved_now gg i) as [[]|]; done.
Qed.

(** The names after server [i] of group [gi] got new ones. *)
Lemma port_name_put gi i gg gg' names mnames cfg cfg' p :
  gc_groups cfg !! gi = Some gg → i < length (g_endnames gg) →
  i < length (g_mendnames gg) →
  (∀ k, gc_groups cfg' !! k = if decide (k = gi) then Some gg' else gc_groups cfg !! k) →
  g_endnames gg' = <[i := Some names]> (g_endnames gg) →
  g_mendnames gg' = <[i := Some mnames]> (g_mendnames gg) →
  gc_clerks cfg' = gc_clerks cfg → gc_mck cfg' = gc_mck cfg →
  gc_nmasters cfg' = gc_nmasters cfg →
  port_name cfg' p =
    match p with
    | PGroup gi' i' j =>
        if decide (gi' = gi ∧ i' = i) then names !! j else port_name cfg p
    | PMaster gi' i' j =>
        if decide (gi' = gi ∧ i' = i) then mnames !! j else port_name cfg p
    | _ => port_name cfg p
    end.
Proof.
  intros Hgg Hi Hmi Hget He Hm Hc Hk Hn.
  destruct p as [gi' i' j|gi' i' j|ck j|j]; cbn [port_name].
  1,2: rewrite Hget; destruct (decide (gi' = gi)) as [->|];
    [rewrite Hgg; simpl; rewrite ?He, ?Hm, row_insert by done;
     destruct (decide (i' = i)) as [->|];
     [by rewrite decide_True|by rewrite decide_False by tauto]
    |by rewrite decide_False by tauto].
  - unfold clerk_ends. by rewrite Hc, Hn.
  - by rewrite Hk.
Qed.

(** Server [i] of group [gi] has new end-points and runs. *)
Lemma started_opens gi i gg gg' kv names mnames cfg cfg' :
  wired cfg → gc_groups cfg !! gi = Some gg → i < length (g_endnames gg) →
  i < length (g_mendnames gg) →
  (∀ k, gc_groups cfg' !! k = if decide (k = gi) then Some gg' else gc_groups cfg !! k) →
  g_servers gg' = <[i := Some kv]> (g_servers gg) →
  (∀ p, port_name cfg' p =
    match p with
    | PGroup gi' i' j =>
        if decide (gi' = gi ∧ i' = i) then names !! j else port_name cfg p
    | PMaster gi' i' j =>
        if decide (gi' = gi ∧ i' = i) then mnames !! j else port_name cfg p
    | _ => port_name cfg p
    end) →
  (∀ gi' i', running cfg' gi' i' =
    if decide (gi' = gi ∧ i' = i) then true else running cfg gi' i') →
  ∀ rn1 rn2, opened (servername (group_id gi)) names 0 (gc_net cfg) rn1 →
  opened mastername mnames 0 rn1 rn2 →
  ends (gc_net cfg') = ends rn2 → enabled (gc_net cfg') = enabled rn2 →
  connections (gc_net cfg') = connections rn2 →
  opens (names ++ mnames) (own_port gi i) cfg cfg'.
Proof.
  intros Hw Hgg Hi Hmi Hget Hsv Hname Hrun rn1 rn2 Ho1 Ho2 He Hen Hc.
  destruct (opened_twice _ _ _ _ _ _ _ Ho1 Ho2) as (Hnd & Hfresh & Hn1 & Hn2 & Hold & _).
  apply list.NoDup_app in Hnd as (Hnd1 & Hdisj & Hnd2).
  split.
  - intros p e. rewrite Hname. destruct p as [gi' i' j|gi' i' j|ck j|j]; [| |by right..];
      simpl; rewrite Hrun; case_decide as Hd; try (by right); intros Hj; left;
      (split; [done|]); apply elem_of_app; [left|right]; by eapply list_elem_of_lookup_2.
  - intros p e Hown Hp. split.
    { apply Hfresh, elem_of_app. rewrite Hname in Hp.
      destruct p as [gi' i' j|gi' i' j|ck j|j]; try done; simpl in Hown;
        rewrite decide_True in Hp by done; [left|right]; by eapply list_elem_of_lookup_2. }
    unfold is_enabled, connection. rewrite He, Hen, Hc. rewrite Hname in Hp.
    destruct p as [gi' i' j|gi' i' j|ck j|j]; try done; simpl in Hown;
      rewrite decide_True in Hp by done; simpl; rewrite Hrun, decide_True by done;
      destruct Hown as [-> ->];
      [apply Hn1 in Hp as (? & ? & ?)|apply Hn2 in Hp as (? & ? & ?)]; done.
  - intros p q e Hown Hown'. rewrite !Hname.
    destruct p as [gi' i' j|gi' i' j|ck j|j], q as [gi2 i2 j2|gi2 i2 j2|ck2 j2|j2];
      try done; simpl in Hown, Hown'; rewrite !decide_True by done; intros Hp Hq;
      destruct Hown as [-> ->], Hown' as [-> ->].
    + f_equal. exact (NoDup_lookup names j j2 e Hnd1 Hp Hq).
    + destruct (Hdisj e); by eapply list_elem_of_lookup_2.
    + destruct (Hdisj e); by eapply list_elem_of_lookup_2.
    + f_equal. exact (NoDup_lookup mnames j j2 e Hnd2 Hp Hq).
  - intros e Hin. by apply Hfresh.
  - intros e Hin. unfold is_enabled, connection in *. rewrite He, Hen, Hc. by apply Hold.
Qed.

Lemma StartServer_wired gi i names mnames cfg cfg' :
  wired cfg → length names = gc_n cfg → length mnames = gc_nmasters cfg →
  StartServer gi i names mnames cfg = Ok cfg' → wired cfg' ∧ restarted gi i cfg cfg'.
Proof.
  intros Hw Hl Hlm Hs.
  apply StartServer_inv in Hs as (gg & rn1 & rn2 & Hgg & Hi & Hmi & Ho1 & Ho2 & Heq).
  cbn zeta in Heq. set (gg' := mkGroup _ _ _ _ _) in Heq.
  pose proof (w_group _ Hw gi gg Hgg) as [W1 W2 W3 W4 W5 W6 W7 W8].
  rewrite W1 in Ho1, Heq.
  destruct (opened_twice _ _ _ _ _ _ _ Ho1 Ho2) as (_ & _ & _ & _ & _ & Hsrv).
  assert (∀ k, gc_groups cfg' !! k =
    if decide (k = gi) then Some gg' else gc_groups cfg !! k) as Hget.
  { subst cfg'. intros k. by apply (lookup_put_group gi gg' gg (with_net rn2 cfg)). }
  assert (∀ gi' i', running cfg' gi' i' =
    if decide (gi' = gi ∧ i' = i) then true else running cfg gi' i') as Hrun.
  { intros gi' i'. eapply (running_insert gi gg gg' i (Some _)); [done|lia|done|done]. }
  assert (opens (names ++ mnames) (own_port gi i) cfg cfg') as Ho.
  { eapply (started_opens gi i gg gg'); try done; [|by subst cfg'..].
    intros p. subst cfg'. by apply (port_name_put gi i gg gg'). }
  destruct (opens_ports _ _ _ _ Hw Ho) as [Hinj Hend].
  assert (∀ nm, nm ≠ servername (group_id gi) i →
    server (gc_net cfg') (inl nm) = server (gc_net cfg) (inl nm)) as Hother.
  { intros nm Hne. subst cfg'. rewrite add_server_other by done. unfold server. simpl.
    by rewrite Hsrv. }
  assert (∀ gi' i', ¬ (gi' = gi ∧ i' = i) →
    servername (group_id gi') i' ≠ servername (group_id gi) i) as Hneq.
  { intros gi' i' Hne Heqn. apply servername_inj in Heqn; unfold group_id in *; lia. }
  pose proof Hw as [H1 H2 H3 H4 H5 H6 H7]. split.
  2: { subst cfg'. split; [|done..]. by exists gg, gg'. }
  split; try done.
  - intros gi' g. rewrite Hget. replace (gc_nmasters cfg') with (gc_nmasters cfg) by by subst cfg'.
    replace (gc_n cfg') with (gc_n cfg) by by subst cfg'.
    case_decide as Hd; [|apply H1]. intros [= <-]. subst gi'.
    split; simpl; rewrite ?length_insert; try done.
    + intros a es [(_ & [= ->] & _)|[_ Ha]]%list_lookup_insert_Some; [done|]. by eapply W6.
    + intros a es [(_ & [= ->] & _)|[_ Ha]]%list_lookup_insert_Some; [done|]. by eapply W7.
    + intros a s [(-> & _)|[Hne Ha]]%list_lookup_insert_Some.
      * exists names, mnames. by rewrite !list_lookup_insert_eq.
      * rewrite !list_lookup_insert_ne by done. by eapply W8.
  - subst cfg'. apply H2.
  - intros gi' i'. rewrite Hrun. case_decide as Hd.
    + intros _. destruct Hd as [-> ->]. subst cfg'. apply add_server_offers.
    + intros Hr. eapply offers_mono; [by apply H5|by apply Hother, Hneq|by subst cfg'].
  - intros gi' i'. rewrite Hrun. case_decide as Hd; [done|]. intros Hr.
    rewrite Hother by by apply Hneq. by apply H6.
  - intros j sm Hj. eapply offers_mono; [subst cfg'; by eapply H7| |by subst cfg'].
    apply Hother. by intros ?%mastername_servername.
Qed.

Lemma StartServer_total gi i names mnames gg cfg :
  gc_groups cfg !! gi = Some gg → i < length (g_endnames gg) →
  i < length (g_mendnames gg) → NoDup (names ++ mnames) →
  (∀ e, e ∈ names ++ mnames → ends (gc_net cfg) !! inl e = None) →
  ∃ cfg', StartServer gi i names mnames cfg = Ok cfg' ∧
    ∀ e, e ∉ names ++ mnames → ends (gc_net cfg') !! inl e = ends (gc_net cfg) !! inl e.
Proof.
  intros Hgg Hi Hmi Hnd Hfresh. apply list.NoDup_app in Hnd as (Hnd1 & Hdisj & Hnd2).
  unfold StartServer. rewrite Hgg. cbn [oget rbind].
  destruct (lookup_lt_is_Some_2 _ _ Hi) as [row ->]. cbn [oget rbind].
  destruct (open_ends_total (servername (g_gid gg)) names 0 (gc_net cfg) Hnd1) as [rn1 H1].
  { intros e He. apply Hfresh, elem_of_app. by left. }
  pose proof (open_ends_opened _ _ _ _ _ H1) as [_ _ _ Hout _].
  rewrite H1. cbn [rbind]. destruct (lookup_lt_is_Some_2 _ _ Hmi) as [mrow ->]. cbn [oget rbind].
  destruct (open_ends_total mastername mnames 0 rn1 Hnd2) as [rn2 H2].
  { intros e He. rewrite Hout by (intros Hin; by apply (Hdisj e)).
    apply Hfresh, elem_of_app. by right. }
  pose proof (open_ends_opened _ _ _ _ _ H2) as [_ _ _ Hout2 _].
  rewrite H2. cbn [rbind]. eexists. split; [reflexivity|]. intros e He.
  rewrite elem_of_app in He. simpl. rewrite Hout2, Hout by tauto. done.
Qed.

(** ** ShutdownServer *)

Lemma mapM_row (row : option (list string)) n names :
  mapM (λ j, es ← row; es !! j) (seq 0 n) = Some names →
  (∀ es, row = Some es → length es = n) →
  ∀ e, e ∈ names ↔ ∃ j, (es ← row; es !! j) = Some e.
Proof.
  intros Hm Hlen e. rewrite (mapM_endnames _ _ _ Hm). split; [naive_solver|].
  intros [j Hj]. exists j. split; [|done]. apply elem_of_seq.
  destruct row as [es|]; [|done]. simpl in Hj. apply lookup_lt_Some in Hj.
  rewrite (Hlen es eq_refl) in Hj. lia.
Qed.

Lemma ShutdownServer_inv gi i cfg cfg' :
  wired cfg → ShutdownServer gi i cfg = Ok cfg' →
  ∃ gg names mnames, gc_groups cfg !! gi = Some gg ∧ i < length (g_servers gg) ∧
    (∀ e, e ∈ names ↔ ∃ j, port_name cfg (PGroup gi i j) = Some e) ∧
    (∀ e, e ∈ mnames ↔ ∃ j, port_name cfg (PMaster gi i j) = Some e) ∧
    cfg' = put_group gi (mkGroup (g_gid gg) (<[i := None]> (g_servers gg))
        (<[i := g_saved_now gg i]> (g_saved gg)) (g_endnames gg) (g_mendnames gg))
      (with_net (DeleteServer (inl (servername (g_gid gg) i))
        (enable_all mnames false (enable_all names false (gc_net cfg)))) cfg).
Proof.
  intros Hw Hs. unfold ShutdownServer in Hs.
  apply rbind_Ok in Hs as (gg & Hgg & Hs). apply oget_Ok in Hgg; [|done].
  apply rbind_Ok in Hs as (row & Hrow & Hs). apply oget_Ok in Hrow; [|done].
  apply rbind_Ok in Hs as (names & Hnames & Hs). apply oget_Ok in Hnames; [|done].
  apply rbind_Ok in Hs as (mrow & Hmrow & [= <-]). apply oget_Ok in Hmrow; [|done].
  pose proof (w_group _ Hw gi gg Hgg) as [W1 W2 W3 W4 W5 W6 W7 W8].
  exists gg, names, (default [] mrow). split_and!; [done| | | |].
  - rewrite W2, <-W4. by eapply lookup_lt_Some.
  - intros e. rewrite (mapM_row row _ _ Hnames).
    + cbn [port_name]. rewrite Hgg. simpl. unfold row_of. by rewrite Hrow.
    + intros es ->. rewrite W2. by eapply W6.
  - intros e. cbn [port_name]. rewrite Hgg. simpl. unfold row_of. rewrite Hmrow. simpl.
    rewrite list_elem_of_lookup. by destruct mrow.
  - by destruct (g_saved_now gg i) as [[]|].
Qed.

(** Disabling the end-points of a server that stops leaves exactly the live
    ports enabled. *)
Lemma disabled_port gi i names mnames cfg cfg' p e :
  wired cfg →
  (∀ e, e ∈ names ↔ ∃ j, port_name cfg (PGroup gi i j) = Some e) →
  (∀ e, e ∈ mnames ↔ ∃ j, port_name cfg (PMaster gi i j) = Some e) →
  (∀ gi' i', running cfg' gi' i' =
    if decide (gi' = gi ∧ i' = i) then false else running cfg gi' i') →
  port_name cfg p = Some e →
  is_enabled (enable_all mnames false (enable_all names false (gc_net cfg))) (inl e) =
    port_live cfg' p.
Proof.
  intros Hw Hin Hmin Hrun Hp. destruct (w_end _ Hw p e Hp) as (_ & _ & E3).
  rewrite !enable_all_enabled, E3.
  assert (e ∈ names ∨ e ∈ mnames → own_port gi i p) as Hown.
  { intros [[j Hj]%Hin|[j Hj]%Hmin]; by rewrite (w_inj _ Hw _ _ _ Hp Hj). }
  assert (own_port gi i p → e ∈ names ∨ e ∈ mnames) as Hown'.
  { destruct p as [gi' i' j|gi' i' j|ck j|j]; try done; intros [-> ->];
      [left; apply Hin|right; apply Hmin]; eauto. }
  assert (port_live cfg' p = if decide (e ∈ names ∨ e ∈ mnames) then false
    else port_live cfg p) as ->.
  { destruct p as [gi' i' j|gi' i' j|ck j|j]; simpl in *; rewrite ?Hrun;
      repeat case_decide; try done; tauto. }
  repeat case_decide; try done; tauto.
Qed.

(** What stopping server [i] of group [gi] changes: its end-points are
    disabled, its name is gone from the network, it does not run any more. *)
Record closes gi i gg' names mnames cfg cfg' : Prop := {
  cl_n : gc_n cfg' = gc_n cfg;
  cl_nmasters : gc_nmasters cfg' = gc_nmasters cfg;
  cl_masters : gc_masterservers cfg' = gc_masterservers cfg;
  cl_clerks : gc_clerks cfg' = gc_clerks cfg;
  cl_nextClientId : gc_nextClientId cfg' = gc_nextClientId cfg;
  cl_objects : gc_objects cfg' = gc_objects cfg;
  cl_group k : gc_groups cfg' !! k = if decide (k = gi) then Some gg' else gc_groups cfg !! k;
  cl_running gi' i' : running cfg' gi' i' =
    if decide (gi' = gi ∧ i' = i) then false else running cfg gi' i';
  cl_name p : port_name cfg' p = port_name cfg p;
  cl_server nm : server (gc_net cfg') (inl nm) =
    if decide (nm = servername (group_id gi) i) then None else server (gc_net cfg) (inl nm);
  cl_ends : ends (gc_net cfg') = ends (gc_net cfg);
  cl_connections : connections (gc_net cfg') = connections (gc_net cfg);
  cl_enabled e : is_enabled (gc_net cfg') (inl e) =
    is_enabled (enable_all mnames false (enable_all names false (gc_net cfg))) (inl e);
}.

Lemma closes_wired gi i gg' names mnames cfg cfg' :
  wired cfg → closes gi i gg' names mnames cfg cfg' →
  wired_group (gc_nmasters cfg) (gc_n cfg) gi gg' →
  (∀ e, e ∈ names ↔ ∃ j, port_name cfg (PGroup gi i j) = Some e) →
  (∀ e, e ∈ mnames ↔ ∃ j, port_name cfg (PMaster gi i j) = Some e) →
  wired cfg'.
Proof.
  intros Hw [C1 C2 C3 C4 C5 C6 Hget Hrun Hname Hserver Hends Hconn Hon] Hgg' Hin Hmin.
  assert (∀ gi' i', servername (group_id gi') i' = servername (group_id gi) i →
    gi' = gi ∧ i' = i) as Hneq.
  { intros gi' i' Heqn. apply servername_inj in Heqn; unfold group_id in *; lia. }
  pose proof Hw as [H1 H2 H3 H4 H5 H6 H7]. split.
  - intros gi' g. rewrite Hget, C1, C2. case_decide as Hd; [|apply H1].
    intros [= <-]. by subst gi'.
  - rewrite C4, C5. exact H2.
  - intros p q e. rewrite !Hname. apply H3.
  - intros p e. rewrite Hname. intros Hp. destruct (H4 p e Hp) as (E1 & E2 & E3).
    unfold connection. rewrite Hends, Hconn, Hon. split_and!; [done..|].
    by apply (disabled_port gi i names mnames cfg cfg' p e).
  - intros gi' i'. rewrite Hrun. case_decide as Hd; [done|]. intros Hr.
    eapply (offers_mono _ _ _ _ []); [by apply H5| |by rewrite app_nil_r].
    rewrite Hserver, decide_False; [done|]. by intros ?%Hneq.
  - intros gi' i'. rewrite Hrun, Hserver. case_decide as Hd; case_decide as Hd'; try done.
    { destruct Hd as [-> ->]. done. } apply H6.
  - intros j sm. rewrite C3. intros Hj.
    eapply (offers_mono _ _ _ _ []); [by eapply H7| |by rewrite app_nil_r].
    rewrite Hserver, decide_False; [done|]. by intros ?%mastername_servername.
Qed.

Lemma ShutdownServer_closes gi i cfg cfg' :
  wired cfg → ShutdownServer gi i cfg = Ok cfg' →
  ∃ gg gg' names mnames, closes gi i gg' names mnames cfg cfg' ∧
    gc_groups cfg !! gi = Some gg ∧ wired_group (gc_nmasters cfg) (gc_n cfg) gi gg' ∧
    g_saved_now gg' i = g_saved_now gg i ∧
    (∀ e, e ∈ names ↔ ∃ j, port_name cfg (PGroup gi i j) = Some e) ∧
    (∀ e, e ∈ mnames ↔ ∃ j, port_name cfg (PMaster gi i j) = Some e).
Proof.
  intros Hw Hs. apply (ShutdownServer_inv _ _ _ _ Hw) in Hs
    as (gg & names & mnames & Hgg & Hi & Hin & Hmin & Heq).
  pose proof (w_group _ Hw gi gg Hgg) as [W1 W2 W3 W4 W5 W6 W7 W8].
  set (gg' := mkGroup _ _ _ _ _) in Heq. rewrite W1 in Heq.
  destruct (enable_all_frame names false (gc_net cfg)) as (F1 & F2 & F3).
  destruct (enable_all_frame mnames false (enable_all names false (gc_net cfg)))
    as (G1 & G2 & G3).
  assert (∀ k, gc_groups cfg' !! k =
    if decide (k = gi) then Some gg' else gc_groups cfg !! k) as Hget.
  { subst cfg'. intros k. by eapply (lookup_put_group gi gg' gg (with_net _ cfg)). }
  exists gg, gg', names, mnames. split_and!; [|done| | |done|done].
  - split; [by subst cfg'|by subst cfg'|by subst cfg'|by subst cfg'|by subst cfg'|by subst cfg'
      |exact Hget| | | |subst cfg'; simpl; congruence|subst cfg'; simpl; congruence|by subst cfg'].
    + intros gi' i'. eapply (running_insert gi gg gg' i None); [done|lia|done|done].
    + intros p. destruct p as [gi' i' j|gi' i' j|ck j|j]; [| |by subst cfg'..];
        cbn [port_name]; rewrite Hget; case_decide; try done; subst gi'; by rewrite Hgg.
    + intros nm. subst cfg'. unfold server, DeleteServer. simpl. rewrite G3, F3. case_decide.
      * subst. by rewrite lookup_insert_eq.
      * by rewrite lookup_insert_ne by congruence.
  - split; simpl; rewrite ?length_insert; try done.
    intros a s [(_ & [=] & _)|[Hne Ha]]%list_lookup_insert_Some. by eapply W8.
  - unfold g_saved_now at 1. simpl.
    rewrite list_lookup_insert_eq by lia. simpl. by rewrite list_lookup_insert_eq by lia.
Qed.

Lemma ShutdownServer_wired gi i cfg cfg' :
  wired cfg → ShutdownServer gi i cfg = Ok cfg' →
  wired cfg' ∧ gc_n cfg' = gc_n cfg ∧ gc_nmasters cfg' = gc_nmasters cfg ∧
  running cfg' gi i = false ∧
  (∃ gg gg', gc_groups cfg !! gi = Some gg ∧ gc_groups cfg' !! gi = Some gg' ∧
     g_saved_now gg' i = g_saved_now gg i).
Proof.
  intros Hw Hs.
  destruct (ShutdownServer_closes _ _ _ _ Hw Hs)
    as (gg & gg' & names & mnames & Hc & Hgg & Hgg' & Hsv & Hin & Hmin).
  split; [by eapply closes_wired|]. destruct Hc as [C1 C2 _ _ _ _ Hget Hrun _ _ _ _ _].
  split_and!; [done..| |].
  - by rewrite Hrun, decide_True.
  - exists gg, gg'. by rewrite Hget, decide_True.
Qed.
End servers.
