(* ===== verification/GroupPromises.v ===== *)
(** * The sharded store's harness: reachable states and what the tests rely on *)

From S2P Require Import Prelude GoBase GoStrings LabRpc Persister Raft RaftConfig RaftWiring RaftDemo Clerks Services GroupConfig GroupWiring GroupServers.

Section promises.
Context `{!Gob (gval Op)}.
Implicit Types cfg : config.

(** ** make_config *)

(** The names that one server of a group is started with. *)
Definition server_names (n : nat) (ns : list string * list string) : Prop :=
  length ns.1 = n ∧ length ns.2 = 3.

Definition shape (n : nat) cfg : Prop :=
  wired cfg ∧ gc_n cfg = n ∧ gc_nmasters cfg = 3.

Lemma start_shape n gi i names cfg cfg' :
  server_names n names → shape n cfg → StartServer gi i names.1 names.2 cfg = Ok cfg' →
  shape n cfg' ∧ length (gc_groups cfg') = length (gc_groups cfg) ∧
  gc_ngroups cfg' = gc_ngroups cfg.
Proof.
  intros [H1 H2] (Hw & Hn & Hm) Hs.
  apply StartServer_wired in Hs as [Hw' [(gg & gg' & _ & Hg & _) T2 T3 T4]];
    [|done|congruence|congruence].
  split_and!; [split_and!; [done|congruence..]| |done]. by rewrite Hg, length_insert.
Qed.

Lemma start_masters_shape n names cfg cfg' :
  shape n cfg → start_masters names cfg = Ok cfg' →
  shape n cfg' ∧ gc_groups cfg' = gc_groups cfg ∧ gc_mck cfg' = gc_mck cfg ∧
  gc_ngroups cfg' = gc_ngroups cfg.
Proof.
  intros Hs. apply (rfor_inv (λ c, shape n c ∧ gc_groups c = gc_groups cfg ∧
    gc_mck c = gc_mck cfg ∧ gc_ngroups c = gc_ngroups cfg)); [|done].
  intros [i ns] b b' _ [(Hw & Hn & Hm) (E1 & E2 & E3)] Hb.
  apply (StartMasterServer_wired _ _ _ _ Hw) in Hb as (Hw' & T1 & T2 & T3 & T4 & T5).
  split_and!; [split_and!|..]; congruence || done.
Qed.

Lemma start_groups_shape n names cfg cfg' :
  shape n cfg → gc_groups cfg = [] → Forall (Forall (server_names n)) names →
  start_groups names cfg = Ok cfg' → shape n cfg'.
Proof.
  intros Hs Hnil Hall Hr.
  assert (∀ k l c, Forall (Forall (server_names n)) l → shape n c → length (gc_groups c) = k →
    ∀ m c', rfor (λ '(gi, ns) cfg, StartGroup gi ns
      (with_groups (gc_groups cfg ++ [new_group (gc_nmasters cfg) (gc_n cfg) gi]) cfg))
      (zip (seq k m) l) c = Ok c' → shape n c') as Hloop.
  { intros k l. revert k. induction l as [|ns l IH]; intros k c Hl (Hw & Hn & Hm) Hk m c' Hc.
    { destruct m; injection Hc as <-; done. }
    destruct m as [|m]; [injection Hc as <-; done|].
    apply list.Forall_cons in Hl as [Hns Hl]. cbn [seq zip zip_with rfor] in Hc.
    apply rbind_Ok in Hc as (c1 & H1 & Hc).
    assert (shape n c1 ∧ length (gc_groups c1) = S k) as [Hs1 Hk1].
    { unfold StartGroup in H1. revert H1.
      apply (rfor_inv (λ c, shape n c ∧ length (gc_groups c) = S k)).
      - intros [i [a b]] d d' Hin [Hd Hlen] Hst.
        assert (server_names n (a, b)) as Hab.
        { apply elem_of_zip_r in Hin. by eapply list.Forall_forall in Hns. }
        destruct (start_shape n k i (a, b) d d' Hab Hd Hst) as (? & ? & _). split; [done|lia].
      - split; [|simpl; rewrite length_app; simpl; lia].
        split_and!; [|done..]. rewrite <-Hk. by apply new_group_wired. }
    by eapply (IH (S k) c1). }
  eapply Hloop; [exact Hall|exact Hs| |exact Hr]. by rewrite Hnil.
Qed.

Lemma empty_shape n m :
  shape n (mkConfig LabRpc.MakeNetwork 3 (replicate 3 None) [] 3 n [] ∅
             (Z.of_nat n + 1000) m []).
Proof.
  split_and!; [|done..]. set (cfg := mkConfig _ _ _ _ _ _ _ _ _ _ _).
  assert (∀ p, port_name cfg p = None) as Hno.
  { intros [gi i j|gi i j|ck j|j]; simpl; try done. by destruct j as [|[|[|j]]]. }
  split; try done; try (intros *; by rewrite Hno).
  by intros i sm [? _]%lookup_replicate.
Qed.

Lemma make_config_shape n u m masters clerk groups cfg :
  Forall (Forall (server_names n)) groups →
  make_config n u m masters clerk groups = Ok cfg → shape n cfg.
Proof.
  intros Hall Hc. unfold make_config in Hc.
  apply rbind_Ok in Hc as (c1 & H1 & Hc).
  destruct (start_masters_shape n _ _ _ (empty_shape n m) H1) as ((Hw & Hn & Hm) & Hg & Hk & _).
  apply rbind_Ok in Hc as ([c2 mck] & H2 & Hc).
  pose proof (shardclerk_wired _ _ _ _ Hw Hk H2) as Hw2.
  apply rbind_Ok in Hc as (c3 & H3 & [= <-]).
  assert (gc_n c2 = n ∧ gc_nmasters c2 = 3 ∧ gc_groups c2 = []) as (E1 & E2 & E3).
  { unfold shardclerk in H2. apply rbind_Ok in H2 as (rn & _ & [= <- <-]). done. }
  destruct (start_groups_shape n groups _ c3 (conj Hw2 (conj E1 E2)) E3 Hall H3)
    as (Hw3 & ? & ?).
  split_and!; [|done..]. by destruct Hw3; split.
Qed.

(** ** Reachable states *)

Inductive harness (n : nat) : config → Prop :=
| gh_make u m masters clerk groups cfg :
    Forall (Forall (server_names n)) groups →
    make_config n u m masters clerk groups = Ok cfg → harness n cfg
| gh_run gi i gg s s' cfg :
    harness n cfg → gc_groups cfg !! gi = Some gg → g_servers gg !! i = Some (Some s) →
    harness n (put_group gi (mkGroup (g_gid gg) (<[i := Some s']> (g_servers gg))
                 (g_saved gg) (g_endnames gg) (g_mendnames gg)) cfg)
| gh_shutdown gi i cfg cfg' :
    harness n cfg → ShutdownServer gi i cfg = Ok cfg' → harness n cfg'
| gh_start gi i names cfg cfg' :
    harness n cfg → server_names n names → StartServer gi i names.1 names.2 cfg = Ok cfg' →
    harness n cfg'
| gh_client names cfg cfg' ck :
    harness n cfg → length names = 3 → makeClient names cfg = Ok (cfg', ck) → harness n cfg'
| gh_delete ck cfg : harness n cfg → harness n (deleteClient ck cfg).1
| gh_make_end name srv cfg cfg' :
    harness n cfg → make_end name srv cfg = Ok cfg' → harness n cfg'.

Lemma run_wired gi i gg s s' cfg :
  wired cfg → gc_groups cfg !! gi = Some gg → g_servers gg !! i = Some (Some s) →
  wired (put_group gi (mkGroup (g_gid gg) (<[i := Some s']> (g_servers gg))
           (g_saved gg) (g_endnames gg) (g_mendnames gg)) cfg).
Proof.
  intros Hw Hgg Hs. set (gg' := mkGroup _ _ _ _ _). set (cfg' := put_group _ _ _).
  pose proof (λ k, lookup_put_group gi gg' gg cfg k Hgg) as Hget.
  assert (∀ a b, running cfg' a b = running cfg a b) as Hrun.
  { intros a b. rewrite (running_insert gi gg gg' i (Some s') cfg cfg' a b Hgg); [|..|done|done].
    - case_decide as Hd; [|done]. destruct Hd as [-> ->]. unfold running. by rewrite Hgg, Hs.
    - by eapply lookup_lt_Some. }
  assert (∀ p, port_live cfg' p = port_live cfg p) as Hlive.
  { intros [a b j|a b j|ck j|j]; [apply Hrun|apply Hrun|done|done]. }
  assert (∀ p, port_name cfg' p = port_name cfg p) as Hname.
  { intros [a b j|a b j|ck j|j]; cbn [port_name]; try done; fold cfg' in Hget; rewrite Hget;
      case_decide as Hd; try done; subst a; by rewrite Hgg. }
  pose proof Hw as [H1 H2 H3 H4 H5 H6 H7]. split; try done.
  - intros a g. fold cfg' in Hget. rewrite Hget. case_decide as Hd; [|apply H1].
    intros [= <-]. subst a. destruct (H1 gi gg Hgg) as [W1 W2 W3 W4 W5 W6 W7 W8].
    split; simpl; rewrite ?length_insert; try done.
    intros a t [(-> & _)|[_ Ha]]%list_lookup_insert_Some; by eapply W8.
  - intros p q e. rewrite !Hname. apply H3.
  - intros p e. rewrite Hname, Hlive. apply H4.
  - intros a b. rewrite Hrun. apply H5.
  - intros a b. rewrite Hrun. apply H6.
Qed.

Lemma harness_shape n cfg : harness n cfg → shape n cfg.
Proof.
  induction 1 as [u m masters clerk groups cfg Hall Hc|gi i gg s s' cfg _ IH Hgg Hs
    |gi i cfg cfg' _ IH Hc|gi i names cfg cfg' _ IH Hn Hc|names cfg cfg' ck _ IH Hl Hc
    |ck cfg _ IH|name srv cfg cfg' _ IH Hc].
  - by eapply make_config_shape.
  - destruct IH as (Hw & ? & ?). split_and!; [by eapply run_wired|done..].
  - destruct IH as (Hw & ? & ?).
    apply (ShutdownServer_wired _ _ _ _ Hw) in Hc as (? & ? & ? & _).
    split_and!; [done|congruence..].
  - by destruct (start_shape n gi i names cfg cfg' Hn IH Hc).
  - destruct IH as (Hw & Hn & Hm).
    destruct (makeClient_wired names cfg cfg' ck Hw ltac:(congruence) Hc) as (? & ? & ?).
    split_and!; [done|congruence..].
  - destruct IH as (Hw & ? & ?). split_and!; [by apply group_deleteClient_wired|done..].
  - destruct IH as (Hw & ? & ?). pose proof (make_end_wired _ _ _ _ Hw Hc).
    unfold make_end in Hc. run_result. by subst.
Qed.

(** C33. The wiring of the sharded store's tests is right: in every state the
    harness reaches, no two places share an end-point name, an end-point to a
    server or a master leads there and nowhere else, the end-points of a
    server are enabled exactly while the server runs, those of clerks always,
    and a server can be found under its name exactly while it runs. *)
Theorem group_wiring_correct n cfg p e :
  harness n cfg → port_name cfg p = Some e →
  (∀ q, port_name cfg q = Some e → q = p) ∧
  connection (gc_net cfg) (inl e) = Some (inl (port_target p)) ∧
  is_enabled (gc_net cfg) (inl e) = port_live cfg p ∧
  (∀ gi i, if running cfg gi i
           then offers cfg (servername (group_id gi) i) ["ShardKV"; "Raft"]
           else server (gc_net cfg) (inl (servername (group_id gi) i)) = None).
Proof.
  intros (Hw & _ & _)%harness_shape Hp. destruct (w_end _ Hw p e Hp) as (_ & Hc & He).
  split_and!; [intros q Hq; by eapply w_inj|done|done|].
  intros gi i. destruct (running cfg gi i) eqn:Hr; [by apply (w_up _ Hw)|by apply (w_down _ Hw)].
Qed.

(** The names that [join] sends to the shardmaster are those under which the
    servers are found. *)
Lemma join_args_names gis cfg m gid names i s :
  wired cfg → join_args gis cfg = Ok m → m !! gid = Some names → names !! i = Some s →
  ∃ gi, gid = group_id gi ∧ s = servername (group_id gi) i ∧ i < gc_n cfg.
Proof.
  intros Hw Hj. revert gid names i s.
  eapply (rfor_inv (λ m : gmap Z (list string), ∀ gid names i s, m !! gid = Some names →
    names !! i = Some s →
    ∃ gi, gid = group_id gi ∧ s = servername (group_id gi) i ∧ i < gc_n cfg)); [| |exact Hj].
  - intros g b b' _ IH Hb gid names i s. apply rbind_Ok in Hb as (gg & Hgg & [= <-]).
    apply oget_Ok in Hgg; [|done]. rewrite (wg_gid _ _ _ _ (w_group _ Hw _ _ Hgg)).
    intros [[<- <-]|[_ Hm]]%lookup_insert_Some; [|by eapply IH].
    rewrite list_lookup_fmap. intros (k & Hk & ->)%fmap_Some.
    apply lookup_seq in Hk as [-> Hk]. exists g. done.
  - intros gid names i s Hno. by rewrite lookup_empty in Hno.
Qed.

(** What [join] tells the shardmaster is true of the network: every name
    it lists for a group leads to a server that offers the key/value service
    and Raft while that server runs. *)
Theorem join_names_served n cfg gis m gid names i s :
  harness n cfg → join_args gis cfg = Ok m → m !! gid = Some names →
  names !! i = Some s →
  ∃ gi, gid = group_id gi ∧ i < n ∧
    if running cfg gi i then offers cfg s ["ShardKV"; "Raft"]
    else server (gc_net cfg) (inl s) = None.
Proof.
  intros (Hw & Hn & _)%harness_shape Hj Hm Hi.
  destruct (join_args_names _ _ _ _ _ _ _ Hw Hj Hm Hi) as (gi & -> & -> & Hlt).
  exists gi. split_and!; [done|lia|].
  destruct (running cfg gi i) eqn:Hr; [by apply (w_up _ Hw)|by apply (w_down _ Hw)].
Qed.
End promises.
