(* ===== verification/GroupSize.v ===== *)
(** * The sharded store's harness works for groups of three

    [make_config] gives each group as many rows of master end-points as there
    are masters, and [makeClient] gives a clerk as many names as a group has
    servers; both are indexed the other way round.  With three servers per
    group, the number the tests use, everything fits. *)

From S2P Require Import Prelude GoBase GoStrings LabRpc Persister Raft RaftConfig RaftWiring RaftDemo Clerks Services GroupConfig GroupWiring GroupServers GroupPromises.

Section size.
Context `{!Gob (gval Op)}.
Implicit Types cfg : config.

(** ** Too many servers *)

Lemma StartServer_bound n gi i names cfg cfg' :
  shape n cfg → StartServer gi i names.1 names.2 cfg = Ok cfg' → i < 3.
Proof.
  intros (Hw & _ & Hm) Hs.
  apply StartServer_inv in Hs as (gg & rn1 & rn2 & Hgg & _ & Hi & _).
  destruct (w_group _ Hw gi gg Hgg) as [_ _ _ _ W5 _ _ _]. lia.
Qed.

Lemma StartGroup_bound n gi ns cfg cfg' :
  shape n cfg → Forall (server_names n) ns → length ns = n →
  StartGroup gi ns cfg = Ok cfg' → n ≤ 3.
Proof.
  intros Hs Hall Hlen Hg. destruct (decide (n ≤ 3)) as [|Hn]; [done|]. exfalso.
  destruct (lookup_lt_is_Some_2 ns 3) as [x Hx]; [lia|].
  assert (gc_n cfg = n) as Hcn by apply Hs.
  unfold StartGroup in Hg. rewrite Hcn in Hg.
  eapply (rfor_reaches (shape n)) with (x := (3, x)) in Hg as (c & c' & Hc & Hst);
    [| |done|].
  - destruct x as [a b]. pose proof (StartServer_bound n gi 3 (a, b) c c' Hc Hst). lia.
  - intros [i [a b]] d d' Hin Hd Hst.
    assert (server_names n (a, b)) as Hab.
    { apply elem_of_zip_r in Hin. by eapply list.Forall_forall in Hall. }
    by destruct (start_shape n gi i (a, b) d d' Hab Hd Hst).
  - apply list_elem_of_lookup. exists 3. apply lookup_zip_with_Some. exists 3, x.
    split_and!; [done| |done]. apply lookup_seq. lia.
Qed.

Lemma make_config_bound n u m masters clerk groups cfg :
  Forall (Forall (server_names n)) groups →
  (∃ ns, groups !! 0 = Some ns ∧ length ns = n) →
  make_config n u m masters clerk groups = Ok cfg → n ≤ 3.
Proof.
  intros Hall (ns & Hns & Hlen) Hc. unfold make_config in Hc.
  apply rbind_Ok in Hc as (c1 & H1 & Hc).
  destruct (start_masters_shape n _ _ _ (empty_shape n m) H1)
    as ((Hw & Hn & Hm) & Hg & Hk & Hng).
  apply rbind_Ok in Hc as ([c2 mck] & H2 & Hc).
  pose proof (shardclerk_wired _ _ _ _ Hw Hk H2) as Hw2.
  apply rbind_Ok in Hc as (c3 & H3 & [= <-]).
  unfold shardclerk in H2. apply rbind_Ok in H2 as (rn & _ & [= <- <-]).
  destruct groups as [|ns' groups]; [done|]. injection Hns as ->.
  apply list.Forall_cons in Hall as [Hns _].
  set (c := with_masters _ _ _) in *.
  assert (gc_groups c = []) as Hgc by exact Hg.
  assert (gc_ngroups c = 3) as Hngc by exact Hng.
  unfold start_groups in H3. rewrite Hngc in H3. cbn [seq zip zip_with rfor] in H3.
  apply rbind_Ok in H3 as (c4 & H4 & _). eapply StartGroup_bound, H4; [|done|done].
  split_and!; [|done..]. pose proof (new_group_wired _ Hw2) as Hnew. by rewrite Hgc in Hnew |- *.
Qed.

(** ** Three servers *)

(** A loop over items that each bring fresh names. *)
Lemma rfor_fresh {A} (names_of : A → list string) (body : A → config → result config)
    (I : list A → config → Prop) :
  (∀ x l c, I (x :: l) c → NoDup (names_of x) →
     (∀ e, e ∈ names_of x → ends (gc_net c) !! inl e = None) →
     ∃ c', body x c = Ok c' ∧ I l c' ∧
       ∀ e, e ∉ names_of x → ends (gc_net c') !! inl e = ends (gc_net c) !! inl e) →
  ∀ l c, I l c → NoDup (concat (names_of <$> l)) →
    (∀ e, e ∈ concat (names_of <$> l) → ends (gc_net c) !! inl e = None) →
    ∃ c', rfor body l c = Ok c' ∧ I [] c' ∧
      ∀ e, e ∉ concat (names_of <$> l) → ends (gc_net c') !! inl e = ends (gc_net c) !! inl e.
Proof.
  intros Hbody l. induction l as [|x l IH]; intros c HI Hnd Hfresh; [by exists c|].
  cbn [fmap list_fmap concat] in *. apply list.NoDup_app in Hnd as (Hnd1 & Hdisj & Hnd2).
  destruct (Hbody x l c HI Hnd1) as (c1 & H1 & HI1 & Hout1).
  { intros e He. apply Hfresh, elem_of_app. by left. }
  destruct (IH c1 HI1 Hnd2) as (c2 & H2 & HI2 & Hout2).
  { intros e He. rewrite Hout1 by (intros Hin; by apply (Hdisj e)).
    apply Hfresh, elem_of_app. by right. }
  exists c2. split_and!; [|done|].
  - simpl. by rewrite H1.
  - intros e He. rewrite elem_of_app in He. rewrite Hout2, Hout1 by tauto. done.
Qed.

Lemma zip_snd_concat {A B} (f : B → list A) (l : list nat) (k : list B) :
  length l = length k → (λ x : nat * B, f x.2) <$> zip l k = f <$> k.
Proof.
  revert k. induction l as [|a l IH]; intros [|b k] Hlen; try done. simpl.
  f_equal. apply IH. by injection Hlen.
Qed.

Lemma zip_snd_names (l : list nat) (k : list (list string)) :
  length l = length k → (λ x : nat * list string, x.2) <$> zip l k = k.
Proof.
  intros Hlen. rewrite <-(list_fmap_id k) at 2. by apply (zip_snd_concat id).
Qed.

(** *** Masters *)

Definition master_inv (n : nat) (l : list (nat * list string)) cfg : Prop :=
  shape n cfg ∧ gc_groups cfg = [] ∧ gc_mck cfg = [] ∧ gc_ngroups cfg = 3 ∧
  (∀ x, x ∈ l → x.1 < length (gc_masterservers cfg)).

Lemma master_step n x l cfg :
  master_inv n (x :: l) cfg → NoDup x.2 →
  (∀ e, e ∈ x.2 → ends (gc_net cfg) !! inl e = None) →
  ∃ cfg', StartMasterServer x.1 x.2 cfg = Ok cfg' ∧ master_inv n l cfg' ∧
    ∀ e, e ∉ x.2 → ends (gc_net cfg') !! inl e = ends (gc_net cfg) !! inl e.
Proof.
  intros ((Hw & Hn & Hm) & Hg & Hk & Hng & Hlt) Hnd Hfresh.
  destruct (open_ends_total mastername x.2 0 (gc_net cfg) Hnd Hfresh) as [rn Hrn].
  pose proof (open_ends_opened _ _ _ _ _ Hrn) as [_ _ _ Hout _].
  destruct (lookup_lt_is_Some_2 (gc_masterservers cfg) x.1) as [o Ho].
  { apply Hlt. by left. }
  assert (StartMasterServer x.1 x.2 cfg = Ok (add_server (mastername x.1) ["ShardMaster"; "Raft"]
    (with_masters (<[x.1:=Some (SM_StartServer (gc_nmasters cfg) x.1 MakePersister)]>
       (gc_masterservers cfg)) (gc_mck cfg) (with_net rn cfg)))) as Hs.
  { unfold StartMasterServer. rewrite Hrn. cbn [rbind]. by rewrite Ho. }
  eexists. split; [exact Hs|]. split; [|done].
  apply (StartMasterServer_wired _ _ _ _ Hw) in Hs as (Hw' & _).
  split_and!; try done. simpl. intros y Hy. rewrite length_insert. apply Hlt. by right.
Qed.

(** *** Groups *)

(** The servers of the groups before the last run, those of the last one except
    for those in [l]. *)
Definition group_inv (l : list (nat * (list string * list string))) cfg : Prop :=
  shape 3 cfg ∧ gc_ngroups cfg = 3 ∧ 0 < length (gc_groups cfg) ∧
  (∀ x, x ∈ l → x.1 < 3 ∧ server_names 3 x.2) ∧
  (∀ gi i, gi < length (gc_groups cfg) → i < 3 →
     running cfg gi i = true ∨ S gi = length (gc_groups cfg) ∧ i ∈ l.*1).

Definition both (x : list string * list string) : list string := x.1 ++ x.2.

Lemma group_step gi x l cfg :
  S gi = length (gc_groups cfg) →
  group_inv (x :: l) cfg → NoDup (both x.2) →
  (∀ e, e ∈ both x.2 → ends (gc_net cfg) !! inl e = None) →
  ∃ cfg', StartServer gi x.1 x.2.1 x.2.2 cfg = Ok cfg' ∧
    (group_inv l cfg' ∧ length (gc_groups cfg') = length (gc_groups cfg)) ∧
    ∀ e, e ∉ both x.2 → ends (gc_net cfg') !! inl e = ends (gc_net cfg) !! inl e.
Proof.
  intros Hgi (Hs & Hng & Hpos & Hl & Hrun) Hnd Hfresh. pose proof Hs as (Hw & Hn & Hm).
  destruct (lookup_lt_is_Some_2 (gc_groups cfg) gi) as [gg Hgg]; [lia|].
  destruct (w_group _ Hw gi gg Hgg) as [W1 W2 W3 W4 W5 W6 W7 W8].
  destruct (Hl x ltac:(by left)) as [Hx Hnames].
  destruct (StartServer_total gi x.1 x.2.1 x.2.2 gg cfg) as (cfg' & Hst & Hout);
    [done|lia|lia|done|done|].
  exists cfg'. split; [done|]. split; [|done].
  destruct (start_shape 3 gi x.1 x.2 cfg cfg' Hnames Hs Hst) as (Hs' & Hlen & Hng').
  split; [|done]. split_and!; [apply Hs'..|congruence|lia| |].
  { intros y Hy. apply Hl. by right. }
  destruct Hnames as [Hn1 Hn2].
  apply (StartServer_wired _ _ _ _ _ _ Hw) in Hst as [_ [(gg0 & gg' & Hgg0 & Hg' & Hsv) _ _ _]];
    [|congruence..].
  rewrite Hgg in Hgg0. injection Hgg0 as <-.
  intros a i. rewrite Hlen. intros Ha Hi.
  rewrite (running_insert gi gg gg' x.1 (Some (SKV_StartServer (gc_n cfg) x.1
    (default MakePersister (g_saved_now gg x.1)) (gc_maxraftstate cfg) (g_gid gg)
    (gc_nmasters cfg))) cfg cfg' a i Hgg); [|lia|done|].
  - case_decide as Hd; [by left|]. destruct (Hrun a i Ha Hi) as [|[Hlast Hin]]; [by left|].
    right. split; [done|]. simpl in Hin. apply elem_of_cons in Hin as [->|]; [|done].
    destruct Hd. split; [lia|done].
  - intros k. rewrite Hg'. case_decide as Hd.
    + subst. rewrite list_lookup_insert_eq; [done|lia].
    + by rewrite list_lookup_insert_ne.
Qed.

(** Before the loop over the groups starts group [k]. *)
Definition groups_inv (l : list (nat * list (list string * list string))) cfg : Prop :=
  shape 3 cfg ∧ gc_ngroups cfg = 3 ∧ length (gc_groups cfg) + length l = 3 ∧
  (∀ k x, l !! k = Some x → x.1 = length (gc_groups cfg) + k ∧ length x.2 = 3 ∧
     Forall (server_names 3) x.2) ∧
  (∀ gi i, gi < length (gc_groups cfg) → i < 3 → running cfg gi i = true).

Definition group_names (x : nat * list (list string * list string)) : list string :=
  concat (both <$> x.2).

Lemma StartGroup_total n ns cfg :
  group_inv (zip (seq 0 3) ns) cfg → S n = length (gc_groups cfg) → length ns = 3 →
  NoDup (concat (both <$> ns)) →
  (∀ e, e ∈ concat (both <$> ns) → ends (gc_net cfg) !! inl e = None) →
  ∃ cfg', StartGroup n ns cfg = Ok cfg' ∧
    (group_inv [] cfg' ∧ length (gc_groups cfg') = S n) ∧
    ∀ e, e ∉ concat (both <$> ns) → ends (gc_net cfg') !! inl e = ends (gc_net cfg) !! inl e.
Proof.
  intros Hinv Hn Hlen Hnd Hfresh. unfold StartGroup.
  assert (gc_n cfg = 3) as -> by apply Hinv.
  rewrite <-(zip_snd_concat both (seq 0 3) ns) in Hnd, Hfresh |- * by (by rewrite Hlen).
  destruct (rfor_fresh (λ x : nat * (list string * list string), both x.2)
    (λ '(i, (ns, ms)), StartServer n i ns ms)
    (λ l c, group_inv l c ∧ length (gc_groups c) = S n)) with (l := zip (seq 0 3) ns) (c := cfg)
    as (c' & H1 & H2 & H3); [|done..|by exists c'].
  intros [i [a b]] l c [Hc Hk] Hnd' Hfr.
  destruct (group_step n (i, (a, b)) l c) as (c' & H1 & [H2 H3] & H4); [done..|].
  exists c'. split_and!; [done|done|congruence|done].
Qed.

Lemma groups_step x l cfg :
  groups_inv (x :: l) cfg → NoDup (group_names x) →
  (∀ e, e ∈ group_names x → ends (gc_net cfg) !! inl e = None) →
  ∃ cfg', StartGroup x.1 x.2
      (with_groups (gc_groups cfg ++ [new_group (gc_nmasters cfg) (gc_n cfg) x.1]) cfg)
      = Ok cfg' ∧ groups_inv l cfg' ∧
    ∀ e, e ∉ group_names x → ends (gc_net cfg') !! inl e = ends (gc_net cfg) !! inl e.
Proof.
  intros ((Hw & Hn & Hm) & Hng & Hlen & Hl & Hrun) Hnd Hfresh.
  destruct (Hl 0 x eq_refl) as (Hx & Hxl & Hxs). rewrite Nat.add_0_r in Hx.
  set (c1 := with_groups _ cfg).
  assert (length (gc_groups c1) = S x.1) as Hc1 by (simpl; rewrite length_app; simpl; lia).
  assert (group_inv (zip (seq 0 3) x.2) c1) as Hinv.
  { split_and!; [|exact Hng|lia| |].
    - split; [|done]. unfold c1. rewrite Hx. by apply new_group_wired.
    - intros [i ns] Hin. split.
      + apply elem_of_zip_l, elem_of_seq in Hin. simpl. lia.
      + apply elem_of_zip_r in Hin. by eapply list.Forall_forall in Hxs.
    - intros gi i. rewrite Hc1. intros Hgi Hi. destruct (decide (gi = x.1)) as [->|Hne].
      + right. split; [done|]. rewrite fst_zip by (simpl; lia). apply elem_of_seq. lia.
      + left. rewrite <-(Hrun gi i) by lia. unfold running. simpl.
        by rewrite lookup_app_l by lia. }
  destruct (StartGroup_total x.1 x.2 c1) as (c2 & H1 & [(S1 & S2 & S3 & _ & S5) Hl2] & Hout);
    [done..|].
  exists c2. split; [done|]. split; [|done].
  split_and!; [apply S1..|done|simpl in Hlen; lia| |].
  - intros k y Hy. destruct (Hl (S k) y Hy) as (E1 & E2 & E3).
    split_and!; [lia|done|done].
  - intros gi i Hgi Hi. destruct (S5 gi i Hgi Hi) as [|[_ Hin]]; [done|].
    by apply elem_of_nil in Hin.
Qed.

Lemma group_names_concat (groups : list (list (list string * list string))) :
  length groups = 3 →
  concat (group_names <$> zip (seq 0 3) groups) =
  concat ((λ ns, concat (both <$> ns)) <$> groups).
Proof.
  intros Hlen. f_equal.
  apply (zip_snd_concat (λ ns, concat (both <$> ns)) (seq 0 3) groups). by rewrite Hlen.
Qed.

(** All the names that [make_config] needs. *)
Definition config_names (masters : list (list string)) (clerk : list string)
    (groups : list (list (list string * list string))) : list string :=
  concat masters ++ clerk ++ concat ((λ ns, concat (both <$> ns)) <$> groups).

Lemma make_config_total u m masters clerk groups :
  length masters = 3 → length groups = 3 →
  Forall (λ ns, length ns = 3 ∧ Forall (server_names 3) ns) groups →
  NoDup (config_names masters clerk groups) →
  ∃ cfg, make_config 3 u m masters clerk groups = Ok cfg ∧
    (∀ gi i, gi < 3 → i < 3 → running cfg gi i = true) ∧
    length (gc_groups cfg) = 3 ∧
    (∀ e, e ∉ config_names masters clerk groups → ends (gc_net cfg) !! inl e = None).
Proof.
  intros Hml Hgl Hall Hnd. unfold config_names in *.
  apply list.NoDup_app in Hnd as (Hnd1 & Hd1 & Hnd). apply list.NoDup_app in Hnd as (Hnd2 & Hd2 & Hnd3).
  unfold make_config. set (c0 := mkConfig _ _ _ _ _ _ _ _ _ _ _).
  destruct (rfor_fresh (λ x : nat * list string, x.2) (λ '(i, ns), StartMasterServer i ns)
    (master_inv 3)) with (l := zip (seq 0 3) masters) (c := c0) as (c1 & H1 & HI1 & Ho1).
  { intros [i ns] l c. apply master_step. }
  { split_and!; try done; [apply empty_shape|]. intros [i ns] Hin%elem_of_zip_l.
    apply elem_of_seq in Hin. simpl. lia. }
  { by rewrite zip_snd_names by (by rewrite Hml). }
  { done. }
  rewrite zip_snd_names in Ho1 by (by rewrite Hml).
  unfold start_masters. cbn [gc_nmasters c0]. rewrite H1. cbn [rbind].
  destruct HI1 as (Hs1 & Hg1 & Hk1 & Hng1 & _). pose proof Hs1 as (Hw1 & Hn1 & Hm1).
  destruct (open_ends_total mastername clerk 0 (gc_net c1) Hnd2) as [rn Hrn].
  { intros e He. rewrite Ho1; [done|]. intros Hin. eapply Hd1, elem_of_app; eauto. }
  pose proof (open_ends_opened _ _ _ _ _ Hrn) as [_ _ _ Ho2 _].
  assert (shardclerk clerk c1 = Ok (with_net rn c1, clerk)) as Hsc
    by (unfold shardclerk; by rewrite Hrn).
  rewrite Hsc. cbn [rbind]. set (c2 := with_masters _ _ _).
  pose proof (shardclerk_wired _ _ _ _ Hw1 Hk1 Hsc) as Hw2.
  destruct (rfor_fresh group_names (λ '(gi, ns) cfg, StartGroup gi ns
      (with_groups (gc_groups cfg ++ [new_group (gc_nmasters cfg) (gc_n cfg) gi]) cfg))
    groups_inv) with (l := zip (seq 0 3) groups) (c := c2) as (c3 & H3 & HI3 & Ho3).
  { intros [gi ns] l c. apply groups_step. }
  { split_and!; try done.
    - change (gc_groups c2) with (gc_groups c1). rewrite Hg1, length_zip, Hgl. done.
    - intros k [gi ns] Hk. apply lookup_zip_with_Some in Hk as (a & b & [= -> ->] & Ha & Hb).
      apply lookup_seq in Ha as [-> _]. change (gc_groups c2) with (gc_groups c1).
      rewrite Hg1. eapply Forall_lookup in Hall as [? ?]; [|exact Hb]. done.
    - change (gc_groups c2) with (gc_groups c1). rewrite Hg1. simpl. lia. }
  { by rewrite group_names_concat. }
  { rewrite group_names_concat by done. intros e He.
    change (gc_net c2) with rn. rewrite Ho2, Ho1; [done|..].
    - intros Hin. eapply Hd1; [exact Hin|]. apply elem_of_app. by right.
    - intros Hin. by eapply Hd2. }
  unfold start_groups. change (gc_ngroups c2) with (gc_ngroups c1). rewrite Hng1, H3.
  cbn [rbind]. rewrite group_names_concat in Ho3 by done.
  destruct HI3 as (_ & _ & Hl3 & _ & Hrun3). simpl in Hl3. rewrite Nat.add_0_r in Hl3.
  eexists. split; [reflexivity|]. split_and!; [|done|].
  - intros gi i Hgi Hi. apply (Hrun3 gi i); lia.
  - intros e He. rewrite !elem_of_app in He. simpl. rewrite Ho3 by tauto.
    change (gc_net c2) with rn. rewrite Ho2, Ho1 by tauto. done.
Qed.

(** The harness of the sharded store works for three servers per group,
    the number of masters, and for no other number: with three, different
    names give a configuration in which every server runs and from which a
    clerk can be made; with more, [make_config] never succeeds, since
    [mendnames] has only three rows; with fewer, [makeClient] panics, since
    the clerk's slice of names is too short for the masters. *)
Theorem groups_of_three_only :
  (∀ u m masters clerk groups names,
     length masters = 3 → length groups = 3 → length names = 3 →
     Forall (λ ns, length ns = 3 ∧ Forall (server_names 3) ns) groups →
     NoDup (config_names masters clerk groups ++ names) →
     ∃ cfg cfg' ck, make_config 3 u m masters clerk groups = Ok cfg ∧ harness 3 cfg ∧
       (∀ gi i, gi < 3 → i < 3 → running cfg gi i = true) ∧
       makeClient names cfg = Ok (cfg', ck)) ∧
  (∀ n u m masters clerk groups cfg,
     3 < n → Forall (λ ns, length ns = n ∧ Forall (server_names n) ns) groups →
     groups ≠ [] → make_config n u m masters clerk groups ≠ Ok cfg) ∧
  (∀ cfg names, gc_n cfg < 3 → length names = 3 → makeClient names cfg = Panic).
Proof.
  split_and!.
  - intros u m masters clerk groups names Hm Hg Hn Hall Hnd.
    apply list.NoDup_app in Hnd as (Hnd & Hd & Hnd').
    destruct (make_config_total u m masters clerk groups Hm Hg Hall Hnd)
      as (cfg & Hc & Hrun & _ & Hout).
    assert (harness 3 cfg) as Hh.
    { eapply gh_make, Hc. eapply Forall_impl, Hall. by intros ns [_ ?]. }
    destruct (harness_shape 3 cfg Hh) as (Hw & Hcn & _).
    destruct (open_ends_total mastername names 0 (gc_net cfg) Hnd') as [rn Hrn].
    { intros e He. apply Hout. intros Hin. by apply (Hd e). }
    exists cfg. unfold makeClient, fill_endnames. rewrite Hcn, Hn, Nat.leb_refl.
    cbn [rbind]. rewrite Hrn. cbn [rbind]. by do 2 eexists.
  - intros n u m masters clerk groups cfg Hn Hall Hne Hc.
    destruct groups as [|ns groups]; [done|].
    assert (n ≤ 3) as Hle; [|lia]. eapply make_config_bound, Hc.
    + eapply Forall_impl, Hall. by intros k [_ ?].
    + apply list.Forall_cons in Hall as [[Hlen _] _]. by exists ns.
  - intros cfg names Hlt Hlen. unfold makeClient, fill_endnames.
    destruct (Nat.leb_spec (length names) (gc_n cfg)); [lia|done].
Qed.
End size.

(** ** Three groups of three *)

#[local] Instance group_op_gob : Gob (gval Op) := bits_gob (gval Op).

Definition demo_row (s : string) : list string := (λ t, s +:+ t) <$> ["0"; "1"; "2"].
Definition demo_masters : list (list string) := demo_row <$> ["m"; "n"; "o"].
Definition demo_groups : list (list (list string * list string)) :=
  (λ g, (λ i, (demo_row (g +:+ "s" +:+ i), demo_row (g +:+ "m" +:+ i))) <$> ["a"; "b"; "c"])
    <$> ["x"; "y"; "z"].

Lemma demo_groups_ok : Forall (λ ns, length ns = 3 ∧ Forall (server_names 3) ns) demo_groups.
Proof. repeat constructor. Qed.

Lemma demo_names_distinct :
  NoDup (config_names demo_masters (demo_row "k") demo_groups ++ demo_row "c").
Proof. apply (bool_decide_unpack _). vm_compute. exact I. Qed.

Lemma groups_of_three_only_witness :
  ∃ cfg cfg' ck,
    make_config 3 false (-1) demo_masters (demo_row "k") demo_groups = Ok cfg ∧
    makeClient (demo_row "c") cfg = Ok (cfg', ck).
Proof.
  destruct (proj1 groups_of_three_only false (-1)%Z demo_masters (demo_row "k") demo_groups
    (demo_row "c") eq_refl eq_refl eq_refl demo_groups_ok demo_names_distinct)
    as (cfg & cfg' & ck & H1 & _ & _ & H2).
  exists cfg, cfg', ck. split; [exact H1|exact H2].
Defined.

(** A configuration, one of its end-points, and what group 1 joins with. *)
Definition demo_observe (r : result config)
    : option string * option (list string) :=
  match r with
  | Ok cfg => (port_name cfg (PGroup 1 2 0),
      match join_args [1] cfg with Ok m => m !! 101%Z | _ => None end)
  | _ => (None, None)
  end.

Lemma demo_group_observed :
  demo_observe (make_config 3 false (-1) demo_masters (demo_row "k") demo_groups) =
  (Some "ysc0", Some ["server-101-0"; "server-101-1"; "server-101-2"]).
Proof. vm_compute. reflexivity. Qed.

Lemma demo_group_config :
  ∃ cfg m, harness 3 cfg ∧ port_name cfg (PGroup 1 2 0) = Some "ysc0" ∧
    join_args [1] cfg = Ok m ∧
    m !! 101%Z = Some ["server-101-0"; "server-101-1"; "server-101-2"].
Proof.
  pose proof demo_names_distinct as Hnd. apply list.NoDup_app in Hnd as (Hnd & _ & _).
  destruct (make_config_total false (-1)%Z demo_masters (demo_row "k") demo_groups
    eq_refl eq_refl demo_groups_ok Hnd) as (cfg & Hc & _).
  pose proof demo_group_observed as Hobs. rewrite Hc in Hobs. cbn [demo_observe] in Hobs.
  injection Hobs as Hp Hj. exists cfg.
  destruct (join_args [1] cfg) as [m| | |]; [|discriminate Hj..].
  exists m. split_and!; [|exact Hp|reflexivity|exact Hj].
  eapply gh_make, Hc. eapply Forall_impl; [|exact demo_groups_ok]. by intros ns [_ ?].
Qed.

Lemma group_wiring_correct_witness :
  ∃ cfg, harness 3 cfg ∧
    connection (gc_net cfg) (inl "ysc0") = Some (inl (servername 101 0)).
Proof.
  destruct demo_group_config as (cfg & m & Hh & Hp & _). exists cfg. split; [exact Hh|].
  apply (group_wiring_correct 3 cfg (PGroup 1 2 0) "ysc0" Hh Hp).
Defined.

Lemma join_names_served_witness :
  ∃ cfg m gi, harness 3 cfg ∧ join_args [1] cfg = Ok m ∧ 101%Z = group_id gi ∧
    if running cfg gi 1 then offers cfg "server-101-1" ["ShardKV"; "Raft"]
    else server (gc_net cfg) (inl "server-101-1") = None.
Proof.
  destruct demo_group_config as (cfg & m & Hh & _ & Hj & Hm).
  destruct (join_names_served 3 cfg [1] m 101 _ 1 "server-101-1" Hh Hj Hm eq_refl)
    as (gi & H1 & _ & H2).
  exists cfg, m, gi. split; [exact Hh|split; [exact Hj|split; [exact H1|exact H2]]].
Defined.
