(* ===== verification/Accept.v ===== *)
(** * The servers' accept loop: paxos/paxos.go, kvpaxos/server.go,
    paxos-shardkv/server.go, paxos-shardmaster/server.go, diskv/server.go,
    pbservice/server.go, viewservice/server.go

    The servers that talk over Unix sockets share one loop, which accepts
    connections until the server is dead and, when told to be unreliable,
    throws some requests or replies away.  The loop is a goroutine; killing
    the server, switching the unreliable mode and connecting happen in others,
    so it is a machine that takes one step between two reads of the shared
    flags.  Whether [Accept] fails though the listener is open, and the values of
    [rand.Int63], are arguments of the steps. *)

From S2P Require Import Prelude GoBase.

(** [int32] arithmetic wraps around. *)
Definition wrap32 (n : Z) : Z := ((n + 2 ^ 31) mod 2 ^ 32 - 2 ^ 31)%Z.

(** ** The server's flags *)

(** [f_open] is whether the listener is open. *)
Record flags := mkFlags {
  f_dead : Z;
  f_unreliable : Z;
  f_count : Z;
  f_open : bool;
}.

Definition isdead (f : flags) : bool := negb (Z.eqb (f_dead f) 0).
Definition isunreliable (f : flags) : bool := negb (Z.eqb (f_unreliable f) 0).

Definition setunreliable (what : bool) (f : flags) : flags :=
  mkFlags (f_dead f) (if what then 1 else 0) (f_count f) (f_open f).

(** The two parts of [kill]: [StoreInt32(&dead, 1)] and [l.Close()]. *)
Definition kill_store (f : flags) : flags :=
  mkFlags 1 (f_unreliable f) (f_count f) (f_open f).
Definition kill_close (f : flags) : flags :=
  mkFlags (f_dead f) (f_unreliable f) (f_count f) false.

Definition add_count (f : flags) : flags :=
  mkFlags (f_dead f) (f_unreliable f) (wrap32 (f_count f + 1)) (f_open f).

(** ** The loop *)

(** How the copies of the loop differ: whether it counts the connections it
    serves, has an unreliable mode, and kills the server when [Accept] fails. *)
Record variant := mkVariant {
  v_counts : bool;
  v_unreliable : bool;
  v_kills : bool;
}.

(** Where the loop is: at the test of [for]; at [Accept]; with what [Accept]
    returned; at the first and at the second test of the unreliable mode, with
    a connection; in [kill], before each of its two parts; at its end. *)
Inductive pc :=
| PTest
| PAccept
| PGot (conn : option nat)
| PDiscard (conn : nat)
| PDeaf (conn : nat)
| PKillStore
| PKillClose
| PDone.

#[export] Instance pc_eq_dec : EqDecision pc.
Proof. solve_decision. Defined.

(** A connection is served, with its reply thrown away if the flag is true,
    closed by the loop, or reset when the listener is closed. *)
Record world := mkWorld {
  w_flags : flags;
  w_pc : pc;
  w_backlog : list nat;
  w_served : list (nat * bool);
  w_closed : list nat;
  w_reset : list nat;
  w_arrived : list nat;
}.

Definition go_to (p : pc) (w : world) : world :=
  mkWorld (w_flags w) p (w_backlog w) (w_served w) (w_closed w) (w_reset w) (w_arrived w).
Definition with_flags (f : flags) (w : world) : world :=
  mkWorld f (w_pc w) (w_backlog w) (w_served w) (w_closed w) (w_reset w) (w_arrived w).

(** [conn.Close()]. *)
Definition close_conn (c : nat) (w : world) : world :=
  mkWorld (w_flags w) (w_pc w) (w_backlog w) (w_served w) (w_closed w ++ [c]) (w_reset w)
    (w_arrived w).

(** [go rpcs.ServeConn(conn)], after [AddInt32] in the loops that count. *)
Definition serve_conn (v : variant) (c : nat) (deaf : bool) (w : world) : world :=
  mkWorld (if v_counts v then add_count (w_flags w) else w_flags w) (w_pc w) (w_backlog w)
    (w_served w ++ [(c, deaf)]) (w_closed w) (w_reset w) (w_arrived w).

(** [l.Close()]: connections that wait for [Accept] are reset. *)
Definition close_listener (w : world) : world :=
  mkWorld (kill_close (w_flags w)) (w_pc w) [] (w_served w) (w_closed w)
    (w_reset w ++ w_backlog w) (w_arrived w).

(** One step of the loop.  [Accept] waits for a connection while the listener is
    open and returns an error when it is closed; if [ok] is false it fails for
    another reason, such as a lack of file descriptors. *)
Definition loop_step (v : variant) (ok : bool) (rand : Z) (w : world) : option world :=
  match w_pc w with
  | PTest => Some (go_to (if isdead (w_flags w) then PDone else PAccept) w)
  | PAccept =>
      if ok && f_open (w_flags w) then
        match w_backlog w with
        | c :: cs =>
            Some (mkWorld (w_flags w) (PGot (Some c)) cs (w_served w) (w_closed w)
                    (w_reset w) (w_arrived w))
        | [] => None
        end
      else Some (go_to (PGot None) w)
  | PGot (Some c) =>
      if negb (isdead (w_flags w)) then
        if v_unreliable v then Some (go_to (PDiscard c) w)
        else Some (go_to PTest (serve_conn v c false w))
      else Some (go_to PTest (close_conn c w))
  | PGot None =>
      if negb (isdead (w_flags w)) && v_kills v then Some (go_to PKillStore w)
      else Some (go_to PTest w)
  | PDiscard c =>
      if isunreliable (w_flags w) && Z.ltb (rand mod 1000) 100
      then Some (go_to PTest (close_conn c w))
      else Some (go_to (PDeaf c) w)
  | PDeaf c =>
      if isunreliable (w_flags w) && Z.ltb (rand mod 1000) 200
      then Some (go_to PTest (serve_conn v c true w))
      else Some (go_to PTest (serve_conn v c false w))
  | PKillStore => Some (go_to PKillClose (with_flags (kill_store (w_flags w)) w))
  | PKillClose => Some (go_to PTest (close_listener w))
  | PDone => None
  end.

(** What the other goroutines and the clients do. *)
Inductive action :=
| Loop (ok : bool) (rand : Z)
| Dial (c : nat)
| SetUnreliable (what : bool)
| KillStore
| KillClose.

(** A client gets through while the listener is open. *)
Definition dial (c : nat) (w : world) : world :=
  if f_open (w_flags w) then
    mkWorld (w_flags w) (w_pc w) (w_backlog w ++ [c]) (w_served w) (w_closed w) (w_reset w)
      (w_arrived w ++ [c])
  else w.

Definition act (v : variant) (a : action) (w : world) : option world :=
  match a with
  | Loop ok rand => loop_step v ok rand w
  | Dial c => Some (dial c w)
  | SetUnreliable what => Some (with_flags (setunreliable what (w_flags w)) w)
  | KillStore => Some (with_flags (kill_store (w_flags w)) w)
  | KillClose => Some (close_listener w)
  end.

Fixpoint exec (v : variant) (acts : list action) (w : world) : option world :=
  match acts with
  | [] => Some w
  | a :: acts => w' ← act v a w; exec v acts w'
  end.

(** After [net.Listen]. *)
Definition start : world :=
  mkWorld (mkFlags 0 0 0 true) PTest [] [] [] [] [].

Definition reachable (v : variant) (w : world) : Prop :=
  ∃ acts, exec v acts start = Some w.
