(* ===== verification/AcceptSafety.v ===== *)
(** * What the accept loop guarantees

    Every connection gets exactly one fate; the counter counts; a reliable
    server serves all connections in order; a killed server's loop ends. *)

From S2P Require Import Prelude GoBase Accept.

Section accept.
Context (v : variant).
Implicit Types w : world.

(** ** Executions *)

Lemma accept_exec_app acts1 acts2 w :
  exec v (acts1 ++ acts2) w = exec v acts1 w ≫= exec v acts2.
Proof.
  revert w. induction acts1 as [|a acts1 IH]; intros w; [done|]. simpl.
  destruct (act v a w); simpl; [apply IH|done].
Qed.

Lemma exec_inv (P : world → Prop) acts w w' :
  (∀ a w w', a ∈ acts → P w → act v a w = Some w' → P w') →
  P w → exec v acts w = Some w' → P w'.
Proof.
  revert w. induction acts as [|a acts IH]; intros w Hstep HP Hr.
  { by injection Hr as <-. }
  simpl in Hr. apply bind_Some in Hr as (w1 & H1 & Hr).
  eapply IH; [|eapply Hstep; [by left|..]|]; eauto. intros b u u' Hb. apply Hstep. by right.
Qed.

(** The connection the loop holds. *)
Definition held w : list nat :=
  match w_pc w with
  | PGot (Some c) | PDiscard c | PDeaf c => [c]
  | _ => []
  end.

(** ** The flags *)

(** What the counter shows after [n] connections. *)
Definition count_of (n : Z) : Z := if v_counts v then wrap32 n else 0%Z.

Record typed w : Prop := {
  ty_dead : f_dead (w_flags w) = 0%Z ∨ f_dead (w_flags w) = 1%Z;
  ty_unreliable : f_unreliable (w_flags w) = 0%Z ∨ f_unreliable (w_flags w) = 1%Z;
  ty_count : f_count (w_flags w) = count_of (zlen (w_served w));
}.

Lemma wrap32_range n : (- 2 ^ 31 ≤ wrap32 n < 2 ^ 31)%Z.
Proof. unfold wrap32. pose proof (Z.mod_pos_bound (n + 2 ^ 31) (2 ^ 32)). lia. Qed.

Lemma wrap32_succ n : wrap32 (wrap32 n + 1) = wrap32 (n + 1).
Proof.
  unfold wrap32. f_equal.
  replace ((n + 2 ^ 31) mod 2 ^ 32 - 2 ^ 31 + 1 + 2 ^ 31)%Z
    with ((n + 2 ^ 31) mod 2 ^ 32 + 1)%Z by lia.
  rewrite Zplus_mod_idemp_l. f_equal. lia.
Qed.

Lemma serve_typed c deaf p w : typed w → typed (go_to p (serve_conn v c deaf w)).
Proof.
  intros [H1 H2 H3]. split; simpl; try by destruct (v_counts v).
  unfold count_of in *. rewrite zlen_app. destruct (v_counts v); [|done]. simpl. rewrite H3. apply wrap32_succ.
Qed.

Lemma act_typed a w w' : typed w → act v a w = Some w' → typed w'.
Proof.
  intros Ht Ha. pose proof Ht as [H1 H2 H3].
  destruct a as [ok rand|c|what| |]; simpl in Ha.
  - unfold loop_step in Ha.
    destruct (w_pc w) as [| |[c|]|c|c| | |]; repeat case_match;
      try discriminate Ha; injection Ha as <-;
      try (by apply serve_typed); split; simpl; auto.
  - injection Ha as <-. unfold dial. destruct (f_open (w_flags w)); [|done]. by split.
  - injection Ha as <-. split; simpl; auto. destruct what; auto.
  - injection Ha as <-. split; simpl; auto.
  - injection Ha as <-. split; simpl; auto.
Qed.

(** ** Every connection gets one fate *)

Definition accounted w : Prop :=
  w_arrived w ≡ₚ held w ++ w_backlog w ++ w_closed w ++ (w_served w).*1 ++ w_reset w.

Lemma act_accounted a w w' : accounted w → act v a w = Some w' → accounted w'.
Proof.
  unfold accounted. intros Hacc Ha. destruct a as [ok rand|c|what| |]; simpl in Ha.
  - unfold loop_step, held in *.
    destruct (w_pc w) as [| |[c|]|c|c| | |]; repeat case_match; simplify_eq/=;
      rewrite ?fmap_app in *; simpl in *; rewrite Hacc; solve_Permutation.
  - injection Ha as <-. unfold dial, held in *. destruct (f_open (w_flags w)); [|done].
    simpl. rewrite Hacc. solve_Permutation.
  - by injection Ha as <-.
  - by injection Ha as <-.
  - injection Ha as <-. unfold held in *. simpl. rewrite Hacc. solve_Permutation.
Qed.

(** C37. The shared words of a server stay what they are meant to be: in every
    reachable state [dead] and [unreliable] are 0 or 1, and the counter, in
    the loops that have one, is the number of connections served so far, as an
    [int32]. *)
Theorem accept_flags_typed w :
  reachable v w →
  (f_dead (w_flags w) = 0%Z ∨ f_dead (w_flags w) = 1%Z) ∧
  (f_unreliable (w_flags w) = 0%Z ∨ f_unreliable (w_flags w) = 1%Z) ∧
  f_count (w_flags w) = count_of (zlen (w_served w)) ∧
  (- 2 ^ 31 ≤ f_count (w_flags w) < 2 ^ 31)%Z.
Proof.
  intros [acts Hacts]. assert (typed w) as [H1 H2 H3].
  { eapply (exec_inv typed); [| |exact Hacts].
    - intros a u u' _. apply act_typed.
    - split; simpl; auto. unfold count_of. by destruct (v_counts v). }
  split_and!; [done..| |]; rewrite H3; unfold count_of; destruct (v_counts v);
    (apply wrap32_range || lia).
Qed.

(** No connection is lost or handled twice by the loop, however
    connections, kills and changes of the unreliable mode interleave with it:
    each connection a client made waits, is in the loop's hands, was closed,
    was served, or was reset with the listener, and is so exactly once. *)
Theorem connections_accounted w :
  reachable v w → NoDup (w_arrived w) →
  w_arrived w ≡ₚ held w ++ w_backlog w ++ w_closed w ++ (w_served w).*1 ++ w_reset w ∧
  NoDup (held w ++ w_backlog w ++ w_closed w ++ (w_served w).*1 ++ w_reset w).
Proof.
  intros [acts Hacts] Hnd. assert (accounted w) as Hacc.
  { eapply (exec_inv accounted); [| |exact Hacts]; [|constructor].
    intros a u u' _. apply act_accounted. }
  split; [done|]. unfold accounted in Hacc. by rewrite <-Hacc.
Qed.

(** ** A reliable server *)

(** Actions of a server that is neither killed nor made unreliable, and whose
    [Accept] does not fail. *)
Definition calm (a : action) : bool :=
  match a with
  | Loop ok _ => ok
  | Dial _ => true
  | SetUnreliable what => negb what
  | KillStore | KillClose => false
  end.

Record calm_state w : Prop := {
  cs_alive : isdead (w_flags w) = false;
  cs_open : f_open (w_flags w) = true;
  cs_reliable : isunreliable (w_flags w) = false;
  cs_pc : match w_pc w with
          | PGot None | PKillStore | PKillClose | PDone => False
          | _ => True
          end;
  cs_closed : w_closed w = [];
  cs_reset : w_reset w = [];
  cs_full : Forall (λ x, x.2 = false) (w_served w);
  cs_order : (w_served w).*1 ++ held w ++ w_backlog w = w_arrived w;
}.

Lemma calm_loop rand w w' :
  calm_state w → loop_step v true rand w = Some w' → calm_state w'.
Proof.
  intros [H1 H0 H2 H3 H4 H5 H6 H7] Hs. unfold loop_step, held in *.
  rewrite H1, H0 in Hs. rewrite H2 in Hs. cbn [negb andb] in Hs.
  destruct (w_pc w) as [| |[c|]|c|c| | |]; try done.
  - injection Hs as <-. by split.
  - destruct (w_backlog w) as [|c cs] eqn:Hb; [done|]. injection Hs as <-. by split.
  - destruct (v_unreliable v); injection Hs as <-; [by split|].
    split; simpl; try done; try (by destruct (v_counts v)).
    + apply Forall_app. by repeat constructor.
    + rewrite fmap_app, <-app_assoc. done.
  - injection Hs as <-. by split.
  - injection Hs as <-. split; simpl; try done; try (by destruct (v_counts v)).
    + apply Forall_app. by repeat constructor.
    + rewrite fmap_app, <-app_assoc. done.
Qed.

Lemma calm_act a w w' :
  calm a = true → calm_state w → act v a w = Some w' → calm_state w'.
Proof.
  intros Hc Hw Ha. destruct a as [ok rand|c|what| |]; try done; simpl in *.
  - destruct ok; [|done]. by eapply calm_loop.
  - injection Ha as <-. unfold dial. destruct Hw as [H1 H0 H2 H3 H4 H5 H6 H7].
    rewrite H0. split; try done. simpl.
    rewrite <-H7. unfold held. simpl. by rewrite <-!app_assoc.
  - injection Ha as <-. destruct what; [done|].
    destruct Hw as [H1 H0 H2 H3 H4 H5 H6 H7]. by split.
Qed.

(** The loop moves on as long as a connection waits or is held. *)
Definition progress (p : pc) : nat :=
  match p with
  | PTest => 1 | PDeaf _ => 2 | PDiscard _ => 3 | PGot _ => 4 | _ => 0
  end.

Definition work w : nat := 5 * length (w_backlog w) + progress (w_pc w).

Lemma calm_progress rand w :
  calm_state w → w_pc w ≠ PAccept ∨ w_backlog w ≠ [] →
  ∃ w', loop_step v true rand w = Some w' ∧ work w' < work w.
Proof.
  intros [H1 H0 H2 H3 _ _ _ _] Hwork. unfold loop_step, work in *. rewrite H1, H0, H2.
  cbn [negb andb]. destruct (w_pc w) as [| |[c|]|c|c| | |]; try done.
  - eexists. split; [done|]. simpl. lia.
  - destruct Hwork as [|Hb]; [done|]. destruct (w_backlog w) as [|c cs]; [done|].
    eexists. split; [done|]. simpl. lia.
  - destruct (v_unreliable v); eexists; (split; [done|]); simpl; lia.
  - eexists. split; [done|]. simpl. lia.
  - eexists. split; [done|]. simpl. lia.
Qed.

Lemma calm_drain k : ∀ draws w, work w ≤ k → k ≤ length draws → calm_state w →
  ∃ n w', exec v (Loop true <$> take n draws) w = Some w' ∧ calm_state w' ∧
    w_pc w' = PAccept ∧ w_backlog w' = [] ∧ w_arrived w' = w_arrived w ∧ n ≤ work w.
Proof.
  induction k as [k IH] using lt_wf_ind. intros draws w Hk Hlen Hw.
  destruct (decide (w_pc w = PAccept ∧ w_backlog w = [])) as [[Hp Hb]|Hne].
  { exists 0, w. split_and!; [done..|lia]. }
  assert (w_pc w ≠ PAccept ∨ w_backlog w ≠ []) as Hgo.
  { destruct (w_backlog w); [|by right]. left. intros ?. by apply Hne. }
  destruct draws as [|r draws].
  { simpl in Hlen. unfold work in Hk. exfalso.
    destruct (w_backlog w) eqn:Hb; [|simpl in Hk; lia].
    destruct Hgo as [Hgo|]; [|done]. destruct Hw as [_ _ _ Hpc _ _ _ _].
    destruct (w_pc w) as [| |[]|c|c| | |]; simpl in Hk; try done; lia. }
  destruct (calm_progress r w Hw Hgo) as (w1 & H1 & Hlt).
  destruct (IH (k - 1) ltac:(lia) draws w1) as (n & w' & He & Hc & Hp & Hb & Ha & Hn);
    [lia|simpl in Hlen; lia|by eapply calm_loop|].
  exists (S n), w'. split_and!; try done; [|rewrite Ha|lia].
  - simpl. by rewrite H1.
  - unfold loop_step in H1.
    destruct (w_pc w) as [| |[]|c|c| | |]; repeat case_match; by simplify_eq/=.
Qed.

(** C34. A server that is left reliable and alive is equivalent to one that
    serves all connections in the order in which they were made: at any time
    it has served, with replies, the first of them and discarded none, and
    left alone, whatever [rand] gives, it comes to a state where it has served
    all of them, within five steps for each connection that waits. *)
Theorem reliable_serves_in_order acts w :
  Forall (λ a, calm a = true) acts → exec v acts start = Some w →
  w_served w = (λ c, (c, false)) <$> take (length (w_served w)) (w_arrived w) ∧
  w_closed w = [] ∧ w_reset w = [] ∧
  ∀ draws, 5 * length (w_backlog w) + 4 ≤ length draws →
    ∃ n w', exec v (Loop true <$> take n draws) w = Some w' ∧
      n ≤ 5 * length (w_backlog w) + 4 ∧
      w_served w' = (λ c, (c, false)) <$> w_arrived w ∧ w_backlog w' = [] ∧ held w' = [].
Proof.
  intros Hall Hx.
  assert (∀ l : list (nat * bool), Forall (λ x, x.2 = false) l →
    l = (λ c, (c, false)) <$> l.*1) as Hshape.
  { intros l Hl. induction Hl as [|[c b] l Hb _ IH]; [done|].
    simpl in Hb. subst b. simpl. f_equal. exact IH. }
  assert (calm_state w) as Hw.
  { eapply (exec_inv calm_state); [| |exact Hx].
    - intros a u u' Ha. eapply list.Forall_forall in Hall; [|exact Ha]. by apply calm_act.
    - by split. }
  pose proof Hw as [_ _ _ _ H4 H5 H6 H7]. split_and!; [|done|done|].
  - rewrite <-H7, take_app_le by (by rewrite length_fmap).
    rewrite take_ge by (by rewrite length_fmap). by apply Hshape.
  - intros draws Hlen.
    assert (work w ≤ 5 * length (w_backlog w) + 4) as Hwork.
    { unfold work. destruct (w_pc w); simpl; lia. }
    destruct (calm_drain (work w) draws w) as (n & w' & He & Hc & Hp & Hb & Ha & Hn);
      [done|lia|done|].
    exists n, w'. split; [done|]. split; [lia|]. destruct Hc as [_ _ _ _ _ _ H6' H7'].
    unfold held in *. rewrite Hp in *. rewrite Hb in H7'. rewrite !app_nil_r in H7'.
    rewrite <-Ha, <-H7'. split; [by apply Hshape|done].
Qed.

(** ** A killed server *)

(** How many steps the loop has left once the server is dead. *)
Definition steps_left (p : pc) : nat :=
  match p with
  | PDone => 0 | PTest => 1 | PDeaf _ => 2 | PDiscard _ => 3 | PGot _ => 4
  | PAccept => 5 | PKillClose => 2 | PKillStore => 3
  end.

(** Whether the loop may yet serve the connection it holds. *)
Definition may_serve (p : pc) : nat :=
  match p with PDiscard _ | PDeaf _ => 1 | _ => 0 end.

Definition is_loop (a : action) : bool := match a with Loop _ _ => true | _ => false end.

Lemma dead_act a w w' :
  isdead (w_flags w) = true → act v a w = Some w' →
  isdead (w_flags w') = true ∧
  (if is_loop a then steps_left (w_pc w') < steps_left (w_pc w) else w_pc w' = w_pc w) ∧
  length (w_served w') + may_serve (w_pc w') ≤ length (w_served w) + may_serve (w_pc w).
Proof.
  intros Hd Ha. destruct a as [ok rand|c|what| |]; simpl in *.
  - unfold loop_step in Ha. rewrite Hd in Ha. cbn [negb andb] in Ha.
    destruct (w_pc w) as [| |[c|]|c|c| | |]; repeat case_match; simplify_eq/=;
      rewrite ?length_app; simpl; split_and!; try done; try lia; by destruct (v_counts v).
  - injection Ha as <-. unfold dial. destruct (f_open (w_flags w)); done.
  - by injection Ha as <-.
  - by injection Ha as <-.
  - by injection Ha as <-.
Qed.

Lemma dead_exec acts w w' :
  isdead (w_flags w) = true → exec v acts w = Some w' →
  isdead (w_flags w') = true ∧
  length (filter (λ a, is_loop a = true) acts) + steps_left (w_pc w') ≤ steps_left (w_pc w) ∧
  length (w_served w') + may_serve (w_pc w') ≤ length (w_served w) + may_serve (w_pc w).
Proof.
  revert w. induction acts as [|a acts IH]; intros w Hd Hx; simpl in Hx.
  { injection Hx as <-. simpl. split_and!; [done|lia|lia]. }
  apply bind_Some in Hx as (w1 & H1 & Hx).
  destruct (dead_act a w w1 Hd H1) as (Hd1 & Hs & Hm).
  destruct (IH w1 Hd1 Hx) as (Hd' & Hs' & Hm'). split; [done|].
  rewrite filter_cons. destruct (is_loop a); case_decide; try done; simpl; try rewrite Hs in *;
    split; lia.
Qed.

(** A listener that is closed stays closed, and no connection waits for it. *)
Definition closed w : Prop := f_open (w_flags w) = false ∧ w_backlog w = [].

Lemma closed_act a w w' : closed w → act v a w = Some w' → closed w'.
Proof.
  intros [Ho Hb] Ha. destruct a as [ok rand|c|what| |]; simpl in Ha.
  - unfold loop_step in Ha. rewrite Ho, andb_false_r in Ha.
    destruct (w_pc w) as [| |[c|]|c|c| | |]; repeat case_match; simplify_eq/=;
      split; simpl; try done; by destruct (v_counts v).
  - injection Ha as <-. unfold dial. by rewrite Ho.
  - by injection Ha as <-.
  - by injection Ha as <-.
  - by injection Ha as <-.
Qed.

Lemma closed_exec acts w w' : closed w → exec v acts w = Some w' → closed w'.
Proof. apply exec_inv. intros a u u' _. apply closed_act. Qed.

(** With the listener closed no step of the loop waits. *)
Lemma closed_ends : ∀ (k : nat) draws w,
  steps_left (w_pc w) ≤ k → k ≤ length draws → isdead (w_flags w) = true → closed w →
  ∃ n w', n ≤ k ∧ exec v (Loop true <$> take n draws) w = Some w' ∧ w_pc w' = PDone.
Proof.
  induction k as [|k IH]; intros draws w Hk Hlen Hd Hc.
  { exists 0, w. split_and!; [done|done|]. by destruct (w_pc w); simpl in Hk; try lia. }
  destruct (decide (w_pc w = PDone)) as [Hp|Hp].
  { exists 0, w. split_and!; [lia|done|done]. }
  destruct draws as [|r draws]; [simpl in Hlen; lia|].
  assert (∃ w1, loop_step v true r w = Some w1) as [w1 H1].
  { unfold loop_step. rewrite (proj1 Hc), andb_false_r.
    destruct (w_pc w) as [| |[c|]|c|c| | |]; repeat case_match; eauto; done. }
  destruct (dead_act (Loop true r) w w1 Hd H1) as (Hd1 & Hs & _). simpl in Hs.
  destruct (IH draws w1) as (n & w' & Hn & Hx & Hp');
    [lia|simpl in Hlen; lia|done|by apply (closed_act (Loop true r) w)|].
  exists (S n), w'. split_and!; [lia| |done]. simpl. by rewrite H1.
Qed.

(** C36. Killing a server ends its loop.  Once [kill] has set [dead], whatever
    other goroutines and clients do between that and [l.Close()], [mid], and
    later, [acts], the loop makes at most five more steps and serves at most the
    one connection it had already accepted; and once [kill] has also closed the
    listener no connection waits or gets through, and from every state on, at
    most five steps bring the loop to its end: [Accept], which waits while the
    listener is open, does not hold it up. *)
Theorem killed_loop_ends mid acts w w' :
  exec v (KillStore :: mid ++ KillClose :: acts) w = Some w' →
  length (filter (λ a, is_loop a = true) (mid ++ acts)) ≤ 5 ∧
  length (w_served w') ≤ length (w_served w) + 1 ∧
  f_open (w_flags w') = false ∧ w_backlog w' = [] ∧
  ∀ draws, 5 ≤ length draws →
    ∃ n w'', n ≤ 5 ∧ exec v (Loop true <$> take n draws) w' = Some w'' ∧ w_pc w'' = PDone.
Proof.
  intros Hx. simpl in Hx. set (w0 := with_flags _ w) in Hx.
  assert (isdead (w_flags w0) = true) as Hd by done.
  destruct (dead_exec _ _ _ Hd Hx) as (Hd' & Hs & Hm).
  assert (∀ p, steps_left p ≤ 5) as H5 by (intros []; simpl; lia).
  assert (may_serve (w_pc w0) ≤ 1) by (destruct (w_pc w0); simpl; lia).
  rewrite accept_exec_app in Hx. apply bind_Some in Hx as (w1 & _ & Hx). simpl in Hx.
  assert (closed w') as Hc by (by eapply closed_exec; [|exact Hx]).
  rewrite filter_app, filter_cons, decide_False in Hs by done. rewrite filter_app.
  rewrite !length_app in *. specialize (H5 (w_pc w0)).
  change (w_served w0) with (w_served w) in Hm.
  split_and!; [lia|lia|apply Hc|apply Hc|].
  intros draws Hlen. apply closed_ends; [|done..]. destruct (w_pc w'); simpl; lia.
Qed.
End accept.

(** ** The copies of the loop *)

(** [px.rpcCount] is counted, and a failing [Accept] does not kill the peer. *)
Definition paxos_loop : variant := mkVariant true true false.
Definition kvpaxos_loop : variant := mkVariant false true true.
Definition paxos_shardkv_loop : variant := mkVariant false true true.
Definition paxos_shardmaster_loop : variant := mkVariant false true true.
Definition diskv_loop : variant := mkVariant false true true.
Definition pbservice_loop : variant := mkVariant false true true.
(** The view server has no unreliable mode. *)
Definition viewservice_loop : variant := mkVariant true false true.

(** One connection, served by an unreliable Paxos peer that throws the reply
    away. *)
Definition deaf_run : list action :=
  [Dial 7; SetUnreliable true; Loop true 0; Loop true 0; Loop true 0; Loop true 500;
   Loop true 150].

Definition deaf_world : world :=
  mkWorld (mkFlags 0 1 1 true) PTest [] [(7, true)] [] [] [7].

Lemma deaf_run_ok : exec paxos_loop deaf_run start = Some deaf_world.
Proof. vm_compute. reflexivity. Qed.

Lemma accept_flags_typed_witness :
  f_count (w_flags deaf_world) = count_of paxos_loop (zlen (w_served deaf_world)).
Proof.
  apply (accept_flags_typed paxos_loop deaf_world (ex_intro _ deaf_run deaf_run_ok)).
Defined.

Lemma connections_accounted_witness :
  [7] ≡ₚ held deaf_world ++ [] ++ [] ++ [7] ++ [].
Proof.
  apply (connections_accounted paxos_loop deaf_world (ex_intro _ deaf_run deaf_run_ok)).
  apply NoDup_singleton.
Defined.

Definition calm_run : list action := [Loop true 0; Dial 3; Loop true 0; Dial 4].
Definition calm_world : world :=
  mkWorld (mkFlags 0 0 0 true) (PGot (Some 3)) [4] [] [] [] [3; 4].

Lemma calm_run_ok : exec kvpaxos_loop calm_run start = Some calm_world.
Proof. vm_compute. reflexivity. Qed.

Lemma reliable_serves_in_order_witness :
  ∃ n w', exec kvpaxos_loop (Loop true <$> take n (replicate 9 50%Z)) calm_world = Some w' ∧
    w_served w' = [(3, false); (4, false)].
Proof.
  destruct (reliable_serves_in_order kvpaxos_loop calm_run calm_world
    ltac:(repeat constructor) calm_run_ok) as (_ & _ & _ & Hd).
  destruct (Hd (replicate 9 50%Z) ltac:(simpl; lia)) as (n & w' & H1 & _ & H2 & _).
  exists n, w'. split; [exact H1|exact H2].
Defined.

(** The server was killed with the loop in [Accept]; a client got through before
    the listener was closed. *)
Definition killed_world : world :=
  mkWorld (mkFlags 1 1 0 false) PAccept [] [] [] [5] [5].

Lemma killed_loop_ends_witness :
  f_open (w_flags killed_world) = false ∧
  ∃ n w', n ≤ 5 ∧ exec diskv_loop (Loop true <$> take n (replicate 5 0%Z)) killed_world =
    Some w' ∧ w_pc w' = PDone.
Proof.
  destruct (killed_loop_ends diskv_loop [Dial 5] [Dial 6; SetUnreliable true]
    (go_to PAccept start) killed_world) as (_ & _ & Ho & _ & Hd); [by vm_compute|].
  split; [exact Ho|]. apply Hd. simpl. lia.
Defined.
