(* ===== verification/PaxosServices.v ===== *)
(** * The servers over Unix sockets: paxos/paxos.go, kvpaxos, paxos-shardkv,
    paxos-shardmaster, diskv, pbservice, viewservice

    The Paxos library and the servers built on it are skeletons: their RPC
    handlers and the agreement protocol are not written.  What they have is the
    life of a server process: it starts, registers its handlers, listens, runs
    the accept loop of Accept.v, and is killed, together with the Paxos peer it
    contains.  Whether [net.Listen] succeeds is an input. *)

From S2P Require Import Prelude GoBase GoStrings Clerks Services Accept AcceptSafety.

(** ** The Paxos library *)

Inductive Fate := Decided | Pending | Forgotten.

(** [px_own] is whether the peer has a listener of its own ([l] is not nil). *)
Record Paxos := mkPaxos {
  px_flags : flags;
  px_own : bool;
  px_peers : list string;
  px_me : nat;
}.

Definition px_set_flags (f : flags) (px : Paxos) : Paxos :=
  mkPaxos f (px_own px) (px_peers px) (px_me px).

(** The agreement protocol is not written. *)
Definition Paxos_Start {V} (seq : Z) (v : V) (px : Paxos) : Paxos := px.
Definition Paxos_Done (seq : Z) (px : Paxos) : Paxos := px.
Definition Paxos_Max (px : Paxos) : Z := 0.
Definition Paxos_Min (px : Paxos) : Z := 0.
Definition Paxos_Status {V} (seq : Z) (px : Paxos) : Fate * option V := (Pending, None).

Definition Paxos_Kill (px : Paxos) : Paxos :=
  let f := kill_store (px_flags px) in
  px_set_flags (if px_own px then kill_close f else f) px.
Definition Paxos_isdead (px : Paxos) : bool := isdead (px_flags px).
Definition Paxos_setunreliable (what : bool) (px : Paxos) : Paxos :=
  px_set_flags (setunreliable what (px_flags px)) px.
Definition Paxos_isunreliable (px : Paxos) : bool := isunreliable (px_flags px).

(** [Make]; [rpcs] is whether the caller passes its own RPC server.  Only
    without one the peer listens and runs the loop. *)
Definition Paxos_Make (peers : list string) (me : nat) (rpcs listens : bool)
    : result Paxos :=
  if rpcs then Ok (mkPaxos (mkFlags 0 0 0 false) false peers me)
  else
    rbind (oget (peers !! me) Panic) (λ _,
    if listens then Ok (mkPaxos (mkFlags 0 0 0 true) true peers me) else Fatal).

Definition Paxos_accept : bool → Z → world → option world := loop_step paxos_loop.

(** ** Servers *)

(** The fields that all servers have, with what each adds. *)
Record server (D : Type) := mkServer {
  sv_flags : flags;
  sv_px : option Paxos;
  sv_data : D;
}.
Arguments mkServer {D} _ _ _.
Arguments sv_flags {D} _.
Arguments sv_px {D} _.
Arguments sv_data {D} _.

(** [kill]: the flag, the listener, the Paxos peer. *)
Definition kill {D} (s : server D) : server D :=
  mkServer (kill_close (kill_store (sv_flags s))) (Paxos_Kill <$> sv_px s) (sv_data s).
Definition server_setunreliable {D} (what : bool) (s : server D) : server D :=
  mkServer (setunreliable what (sv_flags s)) (sv_px s) (sv_data s).

(** What [StartServer] does after filling the fields: with a Paxos peer that
    uses the server's RPC server, listen on [servers[me]]. *)
Definition start_on_paxos {D} (servers : list string) (me : nat) (listens : bool) (data : D)
    : result (server D) :=
  rbind (Paxos_Make servers me true listens) (λ px,
  rbind (oget (servers !! me) Panic) (λ _,
  if listens then Ok (mkServer (mkFlags 0 0 0 true) (Some px) data) else Fatal)).

Definition start_alone {D} (listens : bool) (data : D) : result (server D) :=
  if listens then Ok (mkServer (mkFlags 0 0 0 true) None data) else Fatal.

(** *** kvpaxos *)

Record KVPaxos := mkKVPaxos { kvp_me : nat }.
Record KVP_PutAppendArgs := mkKVPPutAppendArgs {
  kvp_Key : string;
  kvp_Val : string;
  kvp_Op : string;
}.
Record KVP_PutAppendReply := mkKVPPutAppendReply { kvp_PErr : string }.
Record KVP_GetArgs := mkKVPGetArgs { kvp_GKey : string }.
Record KVP_GetReply := mkKVPGetReply { kvp_Err : string; kvp_Value : string }.
Definition KVPaxos_Get (args : KVP_GetArgs) (reply : KVP_GetReply) (kv : server KVPaxos)
    : server KVPaxos * KVP_GetReply := (kv, reply).
Definition KVPaxos_PutAppend (args : KVP_PutAppendArgs) (reply : KVP_PutAppendReply)
    (kv : server KVPaxos) : server KVPaxos * KVP_PutAppendReply := (kv, reply).
Definition KVPaxos_kill : server KVPaxos → server KVPaxos := kill.
Definition KVPaxos_isdead (kv : server KVPaxos) : bool := isdead (sv_flags kv).
Definition KVPaxos_setunreliable : bool → server KVPaxos → server KVPaxos :=
  server_setunreliable.
Definition KVPaxos_isunreliable (kv : server KVPaxos) : bool := isunreliable (sv_flags kv).
Definition KVPaxos_StartServer (servers : list string) (me : nat) (listens : bool)
    : result (server KVPaxos) := start_on_paxos servers me listens (mkKVPaxos me).
Definition KVPaxos_accept : bool → Z → world → option world := loop_step kvpaxos_loop.

Record KVP_Clerk := mkKVPClerk { kvp_servers : list string }.
Definition KVP_MakeClerk (servers : list string) : KVP_Clerk := mkKVPClerk servers.
Definition KVP_Clerk_Get (ck : KVP_Clerk) (key : string) : string := "".
Definition KVP_Clerk_PutAppend (ck : KVP_Clerk) (key value op : string) : KVP_Clerk := ck.
Definition KVP_Clerk_Put (ck : KVP_Clerk) (key value : string) : KVP_Clerk :=
  KVP_Clerk_PutAppend ck key value "Put".
Definition KVP_Clerk_Append (ck : KVP_Clerk) (key value : string) : KVP_Clerk :=
  KVP_Clerk_PutAppend ck key value "Append".

(** *** paxos-shardkv *)

Record PShardKV := mkPShardKV { psk_me : nat; psk_gid : Z; psk_sm : list string }.
Record PSK_PutAppendArgs := mkPSKPutAppendArgs {
  psk_Key : string;
  psk_Value : string;
  psk_Op : string;
}.
Record PSK_PutAppendReply := mkPSKPutAppendReply { psk_PErr : string }.
Record PSK_GetArgs := mkPSKGetArgs { psk_GKey : string }.
Record PSK_GetReply := mkPSKGetReply { psk_GErr : string; psk_GValue : string }.
Definition PShardKV_Get (args : PSK_GetArgs) (reply : PSK_GetReply) (kv : server PShardKV)
    : server PShardKV * PSK_GetReply := (kv, reply).
Definition PShardKV_PutAppend (args : PSK_PutAppendArgs) (reply : PSK_PutAppendReply)
    (kv : server PShardKV) : server PShardKV * PSK_PutAppendReply := (kv, reply).
Definition PShardKV_tick (kv : server PShardKV) : server PShardKV := kv.
Definition PShardKV_kill : server PShardKV → server PShardKV := kill.
Definition PShardKV_isdead (kv : server PShardKV) : bool := isdead (sv_flags kv).
Definition PShardKV_Setunreliable : bool → server PShardKV → server PShardKV :=
  server_setunreliable.
Definition PShardKV_isunreliable (kv : server PShardKV) : bool := isunreliable (sv_flags kv).
Definition PShardKV_StartServer (gid : Z) (shardmasters servers : list string) (me : nat)
    (listens : bool) : result (server PShardKV) :=
  start_on_paxos servers me listens (mkPShardKV me gid shardmasters).
Definition PShardKV_accept : bool → Z → world → option world :=
  loop_step paxos_shardkv_loop.

(** *** paxos-shardmaster *)

Record PShardMaster := mkPShardMaster { psm_me : nat; psm_configs : list Config }.
Definition PShardMaster_op (args : PaxosShardMaster.OpArgs) (sm : server PShardMaster)
    : server PShardMaster := sm.
Record PSM_QueryArgs := mkPSMQueryArgs { psm_Num : Z }.
Record PSM_QueryReply := mkPSMQueryReply { psm_Config : Config }.
Definition PShardMaster_Query (args : PSM_QueryArgs) (reply : PSM_QueryReply)
    (sm : server PShardMaster) : server PShardMaster * PSM_QueryReply := (sm, reply).
Definition PShardMaster_Kill : server PShardMaster → server PShardMaster := kill.
Definition PShardMaster_isdead (sm : server PShardMaster) : bool := isdead (sv_flags sm).
Definition PShardMaster_setunreliable : bool → server PShardMaster → server PShardMaster :=
  server_setunreliable.
Definition PShardMaster_isunreliable (sm : server PShardMaster) : bool :=
  isunreliable (sv_flags sm).
Definition PShardMaster_StartServer (servers : list string) (me : nat) (listens : bool)
    : result (server PShardMaster) :=
  start_on_paxos servers me listens (mkPShardMaster me [zero_config]).
Definition PShardMaster_accept : bool → Z → world → option world :=
  loop_step paxos_shardmaster_loop.

(** *** diskv *)

Record DisKV := mkDisKV { dkv_me : nat; dkv_gid : Z; dkv_sm : list string; dkv_dir : string }.
Record DKV_PutAppendArgs := mkDKVPutAppendArgs {
  dkv_Key : string;
  dkv_Value : string;
  dkv_Op : string;
}.
Record DKV_GetArgs := mkDKVGetArgs { dkv_GKey : string }.
Definition DisKV_Get (args : DKV_GetArgs) (reply : DisKVClerk.GetReply) (kv : server DisKV)
    : server DisKV * DisKVClerk.GetReply := (kv, reply).
Definition DisKV_PutAppend (args : DKV_PutAppendArgs) (reply : DisKVClerk.PutAppendReply)
    (kv : server DisKV) : server DisKV * DisKVClerk.PutAppendReply := (kv, reply).
Definition DisKV_tick (kv : server DisKV) : server DisKV := kv.
Definition DisKV_kill : server DisKV → server DisKV := kill.
Definition DisKV_isdead (kv : server DisKV) : bool := isdead (sv_flags kv).
Definition DisKV_Setunreliable : bool → server DisKV → server DisKV :=
  server_setunreliable.
Definition DisKV_isunreliable (kv : server DisKV) : bool := isunreliable (sv_flags kv).
Definition DisKV_StartServer (gid : Z) (shardmasters servers : list string) (me : nat)
    (dir : string) (restart listens : bool) : result (server DisKV) :=
  start_on_paxos servers me listens (mkDisKV me gid shardmasters dir).
Definition DisKV_accept : bool → Z → world → option world := loop_step diskv_loop.

(** *** pbservice *)

(** A clerk of the view service: who asks, and the service's address. *)
Record VS_Clerk := mkVSClerk { vck_me : string; vck_server : string }.
Definition VS_MakeClerk (me server : string) : VS_Clerk := mkVSClerk me server.

Record PBServer := mkPBServer { pb_me : string; pb_vs : VS_Clerk }.
Record PB_PutAppendArgs := mkPBPutAppendArgs { pb_Key : string; pb_Val : string }.
Record PB_PutAppendReply := mkPBPutAppendReply { pb_PErr : string }.
Record PB_GetArgs := mkPBGetArgs { pb_GKey : string }.
Record PB_GetReply := mkPBGetReply { pb_Err : string; pb_Value : string }.
Definition PBServer_Get (args : PB_GetArgs) (reply : PB_GetReply) (pb : server PBServer)
    : server PBServer * PB_GetReply := (pb, reply).
Definition PBServer_PutAppend (args : PB_PutAppendArgs) (reply : PB_PutAppendReply)
    (pb : server PBServer) : server PBServer * PB_PutAppendReply := (pb, reply).
Definition PBServer_tick (pb : server PBServer) : server PBServer := pb.
Definition PBServer_kill : server PBServer → server PBServer := kill.
Definition PBServer_isdead (pb : server PBServer) : bool := isdead (sv_flags pb).
Definition PBServer_setunreliable : bool → server PBServer → server PBServer :=
  server_setunreliable.
Definition PBServer_isunreliable (pb : server PBServer) : bool := isunreliable (sv_flags pb).
Definition PBServer_StartServer (vshost me : string) (listens : bool)
    : result (server PBServer) :=
  start_alone listens (mkPBServer me (VS_MakeClerk me vshost)).
Definition PBServer_accept : bool → Z → world → option world := loop_step pbservice_loop.

Record PB_Clerk := mkPBClerk { pbck_vs : VS_Clerk }.
Definition PB_MakeClerk (vshost me : string) : PB_Clerk := mkPBClerk (VS_MakeClerk me vshost).
Definition PB_Clerk_Get (ck : PB_Clerk) (key : string) : string := "???".
Definition PB_Clerk_PutAppend (ck : PB_Clerk) (key value op : string) : PB_Clerk := ck.
Definition PB_Clerk_Put (ck : PB_Clerk) (key value : string) : PB_Clerk :=
  PB_Clerk_PutAppend ck key value "Put".
Definition PB_Clerk_Append (ck : PB_Clerk) (key value : string) : PB_Clerk :=
  PB_Clerk_PutAppend ck key value "Append".

(** *** viewservice *)

Record ViewServer := mkViewServer { vs_me : string }.
Record PingArgs := mkPingArgs { Ping_Me : string; Ping_Viewnum : Z }.
Record PingReply := mkPingReply { Ping_View : ViewClerk.View }.
Record VS_GetArgs := mkVSGetArgs {}.
Record VS_GetReply := mkVSGetReply { VSGet_View : ViewClerk.View }.
Definition ViewServer_Ping (args : PingArgs) (reply : PingReply) (vs : server ViewServer)
    : server ViewServer * PingReply := (vs, reply).
Definition ViewServer_Get (args : VS_GetArgs) (reply : VS_GetReply) (vs : server ViewServer)
    : server ViewServer * VS_GetReply := (vs, reply).
Definition ViewServer_tick (vs : server ViewServer) : server ViewServer := vs.
Definition ViewServer_Kill : server ViewServer → server ViewServer := kill.
Definition ViewServer_isdead (vs : server ViewServer) : bool := isdead (sv_flags vs).
Definition GetRPCCount (vs : server ViewServer) : Z := f_count (sv_flags vs).
Definition ViewServer_StartServer (me : string) (listens : bool) : result (server ViewServer) :=
  start_alone listens (mkViewServer me).
Definition ViewServer_accept : bool → Z → world → option world := loop_step viewservice_loop.

(** The goroutine that calls [tick] once per [PingInterval], which is given in
    nanoseconds, or every quarter of a second, until the server is dead; [deads] are the values of [isdead]
    it sees. *)
Definition PingInterval : Z := 100 * 1000000.
Definition DeadPings : Z := 5.
Fixpoint tick_loop {D} (tick : server D → server D) (deads : list bool) (s : server D)
    : result (server D) :=
  match deads with
  | [] => Blocked
  | true :: _ => Ok s
  | false :: deads => tick_loop tick deads (tick s)
  end.
Definition ViewServer_ticks : list bool → server ViewServer → result (server ViewServer) :=
  tick_loop ViewServer_tick.
Definition DisKV_ticks : list bool → server DisKV → result (server DisKV) :=
  tick_loop DisKV_tick.
Definition PShardKV_ticks : list bool → server PShardKV → result (server PShardKV) :=
  tick_loop PShardKV_tick.
Definition PBServer_ticks : list bool → server PBServer → result (server PBServer) :=
  tick_loop PBServer_tick.

(** The loop ends the first time it finds the server dead. *)
Lemma tick_loop_ends {D} (tick : server D → server D) n deads s :
  tick_loop tick (replicate n false ++ true :: deads) s = Ok (Nat.iter n tick s).
Proof.
  revert s. induction n as [|n IH]; intros s; [done|]. simpl. rewrite IH. f_equal.
  clear IH. induction n as [|n IH]; [done|]. simpl. by rewrite IH.
Qed.

(** ** A server's life *)

(** The accept loop of a server that was just started. *)
Definition loop_of {D} (s : server D) : world := mkWorld (sv_flags s) PTest [] [] [] [] [].

(** [kill], which runs next to the loop. *)
Definition kill_actions : list action := [KillStore; KillClose].

Lemma kill_flags {D} v (s : server D) acts w :
  exec v acts (loop_of s) = Some w → w_flags w = sv_flags s →
  ∃ w', exec v (acts ++ kill_actions) (loop_of s) = Some w' ∧
    w_flags w' = sv_flags (kill s) ∧ w_pc w' = w_pc w.
Proof.
  intros Hx Hf. rewrite accept_exec_app, Hx. simpl. eexists. split; [reflexivity|].
  simpl. by rewrite Hf.
Qed.

(** The Paxos peer inside a server has no listener and no loop of its own, and
    dies with the server. *)
Lemma paxos_inside {D} servers me listens (data : D) s :
  start_on_paxos servers me listens data = Ok s →
  ∃ px, sv_px s = Some px ∧ px_own px = false ∧ Paxos_isdead px = false ∧
    ∃ px', sv_px (kill s) = Some px' ∧ Paxos_isdead px' = true.
Proof.
  unfold start_on_paxos. intros Hs. simpl in Hs. apply rbind_Ok in Hs as (name & _ & Hs).
  destruct listens; [|done]. injection Hs as <-.
  eexists. split_and!; [done..|]. by eexists.
Qed.
