(* ===== verification/ClerkState.v ===== *)
(** * The clerks' state and nrand: client.go of kvraft, shardmaster, shardkv,
    kvpaxos, paxos-shardmaster, paxos-shardkv, diskv, pbservice

    The clerks of the sharded services keep a clerk of the shardmaster and the
    last configuration it named.  [nrand] draws a number below 2^62 from the
    random bytes that [crypto/rand] reads. *)

From S2P Require Import Prelude GoBase GoStrings Clerks Services.

(** ** nrand *)

(** A number from bytes, the first one the most significant. *)
Definition bytes_value (b : list Z) : Z := foldl (λ n x, n * 256 + x)%Z 0%Z b.

(** [rand.Int(rand.Reader, 1 << 62)]: the numbers below 2^62 have 62 bits, so
    eight bytes are read and the two highest bits of the first are cleared; the
    result is below the bound at once. *)
Definition rand_Int (b : list Z) : Z :=
  match b with
  | [] => 0
  | x :: b => bytes_value (Z.land x (Z.ones 6) :: b)
  end.

(** [bigx.Int64()] takes the number modulo 2^64. *)
Definition Int64 (x : Z) : Z := wrap_int x.

Definition nrand (b : list Z) : Z := Int64 (rand_Int b).

(** The copies. *)
Definition ShardMaster_nrand : list Z → Z := nrand.
Definition ShardKV_nrand : list Z → Z := nrand.
Definition KVPaxos_nrand : list Z → Z := nrand.
Definition PShardKV_nrand : list Z → Z := nrand.
Definition DisKV_nrand : list Z → Z := nrand.
Definition PB_nrand : list Z → Z := nrand.

Definition random_bytes (b : list Z) : Prop :=
  length b = 8 ∧ Forall (λ x, 0 ≤ x < 256)%Z b.

Lemma bytes_value_app b c :
  bytes_value (b ++ c) = (bytes_value b * 256 ^ zlen c + bytes_value c)%Z.
Proof.
  unfold bytes_value. rewrite foldl_app. generalize (foldl (λ n x, n * 256 + x)%Z 0%Z b).
  induction c as [|x c IH] using rev_ind; intros n; [unfold zlen; simpl; lia|].
  rewrite !foldl_app. cbn [foldl]. rewrite IH, zlen_app.
  replace (zlen c + zlen [x])%Z with (Z.succ (zlen c)) by (unfold zlen; simpl; lia).
  rewrite Z.pow_succ_r by (unfold zlen; lia). lia.
Qed.

Lemma bytes_value_range b :
  Forall (λ x, 0 ≤ x < 256)%Z b → (0 ≤ bytes_value b < 256 ^ zlen b)%Z.
Proof.
  induction b as [|x b IH] using rev_ind; intros Hb; [done|].
  apply Forall_app in Hb as [Hb [Hx _]%list.Forall_cons]. specialize (IH Hb).
  rewrite bytes_value_app, zlen_app.
  replace (zlen b + zlen [x])%Z with (Z.succ (zlen b)) by (unfold zlen; simpl; lia).
  rewrite Z.pow_succ_r by (unfold zlen; lia).
  change (256 ^ zlen [x])%Z with 256%Z. unfold bytes_value at 2 4. simpl. lia.
Qed.

(** Numbers of [n] bytes have one representation. *)
Lemma bytes_value_inj b c :
  length b = length c → Forall (λ x, 0 ≤ x < 256)%Z b → Forall (λ x, 0 ≤ x < 256)%Z c →
  bytes_value b = bytes_value c → b = c.
Proof.
  revert c. induction b as [|x b IH] using rev_ind; intros c Hl Hb Hc He.
  { by destruct c. }
  destruct c as [|y c _] using rev_ind.
  { rewrite length_app in Hl. simpl in Hl. lia. }
  rewrite !length_app in Hl. simpl in Hl.
  apply Forall_app in Hb as [Hb [Hx _]%list.Forall_cons].
  apply Forall_app in Hc as [Hc [Hy _]%list.Forall_cons].
  rewrite !bytes_value_app in He. change (256 ^ zlen [x])%Z with 256%Z in He.
  change (256 ^ zlen [y])%Z with 256%Z in He.
  change (bytes_value [x]) with x in He. change (bytes_value [y]) with y in He.
  f_equal; [apply IH; [lia|done..|lia]|f_equal; lia].
Qed.

Lemma bytes_value_onto n v :
  (0 ≤ v < 256 ^ Z.of_nat n)%Z →
  ∃ b, length b = n ∧ Forall (λ x, 0 ≤ x < 256)%Z b ∧ bytes_value b = v.
Proof.
  revert v. induction n as [|n IH]; intros v Hv.
  { exists []. split_and!; [done|constructor|]. simpl in *. unfold bytes_value. simpl. lia. }
  rewrite Nat2Z.inj_succ, Z.pow_succ_r in Hv by lia.
  destruct (IH (v / 256)%Z) as (b & Hl & Hb & Hbv).
  { split; [apply Z.div_pos; lia|]. apply Z.div_lt_upper_bound; lia. }
  exists (b ++ [(v mod 256)%Z]). rewrite length_app, Hl, bytes_value_app, Hbv.
  split_and!; [simpl; lia|apply Forall_app; split; [done|]|].
  - repeat constructor; apply Z.mod_pos_bound; lia.
  - change (256 ^ zlen [v mod 256])%Z with 256%Z. change (bytes_value [v mod 256])%Z with (v mod 256)%Z.
    pose proof (Z.div_mod v 256). lia.
Qed.

(** Clearing the two highest bits leaves the number modulo 2^62. *)
Lemma nrand_mod b : random_bytes b → nrand b = (bytes_value b mod 2 ^ 62)%Z.
Proof.
  intros [Hl Hb]. destruct b as [|x b]; [done|].
  apply list.Forall_cons in Hb as [Hx Hb]. pose proof (bytes_value_range b Hb) as Hr.
  assert (zlen b = 7%Z) as Hz by (unfold zlen; simpl in Hl; lia). rewrite Hz in Hr.
  assert (∀ y, bytes_value (y :: b) = y * 256 ^ 7 + bytes_value b)%Z as Hcons.
  { intros y. change (y :: b) with ([y] ++ b). by rewrite bytes_value_app, Hz. }
  unfold nrand, rand_Int, Int64. rewrite !Hcons, Z.land_ones by lia.
  assert ((x * 256 ^ 7 + bytes_value b) mod 2 ^ 62 = x mod 2 ^ 6 * 256 ^ 7 + bytes_value b)%Z as ->.
  { pose proof (Z.div_mod x (2 ^ 6) ltac:(lia)). pose proof (Z.mod_pos_bound x (2 ^ 6) ltac:(lia)).
    symmetry. apply (Z.mod_unique_pos _ _ (x / 2 ^ 6)); lia. }
  pose proof (Z.mod_pos_bound x (2 ^ 6) ltac:(lia)).
  unfold wrap_int. rewrite Z.mod_small; lia.
Qed.

(** [nrand] is uniform on the numbers below 2^62: every result lies there, and
    every number is the result for exactly one choice of eight bytes for each
    value of the two bits that are cleared, which makes four. *)
Theorem nrand_uniform :
  (∀ b, random_bytes b → (0 ≤ nrand b < 2 ^ 62)%Z) ∧
  (∀ v h, (0 ≤ v < 2 ^ 62)%Z → (0 ≤ h < 4)%Z →
     exists! b, random_bytes b ∧ nrand b = v ∧ (bytes_value b / 2 ^ 62)%Z = h).
Proof.
  split; [intros b Hb; rewrite nrand_mod by done; apply Z.mod_pos_bound; lia|].
  intros v h Hv Hh. destruct (bytes_value_onto 8 (h * 2 ^ 62 + v)%Z) as (b & Hl & Hb & Hbv); [lia|].
  exists b. assert (random_bytes b) as Hrb by done. split.
  - split_and!; [done|rewrite nrand_mod, Hbv by done|rewrite Hbv].
    + symmetry. apply (Z.mod_unique_pos _ _ h); lia.
    + symmetry. apply (Z.div_unique_pos _ _ _ v); lia.
  - intros c ([Hlc Hc] & Hn & Hd). apply bytes_value_inj; [lia|done..|].
    rewrite nrand_mod in Hn by done. rewrite Hbv.
    pose proof (Z.div_mod (bytes_value c) (2 ^ 62)). lia.
Qed.

(** ** The clerks *)

(** [new(Clerk)]: the configuration is the zero value, whose map is nil. *)
Record SM_Clerk := mkSMClerk { smck_servers : list string }.
Definition SM_MakeClerk (servers : list string) : SM_Clerk := mkSMClerk servers.

(** [make_end] turns a server's name into an end-point. *)
Record SKV_Clerk (E : Type) := mkSKVClerk {
  skvck_sm : SM_Clerk;
  skvck_config : Config;
  skvck_make_end : string → E;
}.
Arguments mkSKVClerk {E} _ _ _.
Arguments skvck_sm {E} _.
Arguments skvck_config {E} _.
Definition SKV_MakeClerk {E} (masters : list string) (make_end : string → E) : SKV_Clerk E :=
  mkSKVClerk (SM_MakeClerk masters) zero_config make_end.

Record PSM_Clerk := mkPSMClerk { psmck_servers : list string }.
Definition PSM_MakeClerk (servers : list string) : PSM_Clerk := mkPSMClerk servers.

Record PSK_Clerk := mkPSKClerk { pskck_sm : PSM_Clerk; pskck_config : Config }.
Definition PSK_MakeClerk (shardmasters : list string) : PSK_Clerk :=
  mkPSKClerk (PSM_MakeClerk shardmasters) zero_config.

Record DKV_Clerk := mkDKVClerk { dkvck_sm : PSM_Clerk; dkvck_config : Config }.
Definition DKV_MakeClerk (shardmasters : list string) : DKV_Clerk :=
  mkDKVClerk (PSM_MakeClerk shardmasters) zero_config.

Definition PSK_key2shard : string → Z := key2shard.
Definition DKV_key2shard : string → Z := key2shard.

(** A new clerk knows no group and turns to the shardmaster first: whatever the
    servers would reply, it sends no request before it has a configuration. *)
Lemma new_clerk_asks_first {R} (rpc : nat → string → option R) good stop query key rounds cfg :
  cfg ∈ [skvck_config (SKV_MakeClerk [] id); pskck_config (PSK_MakeClerk []);
         dkvck_config (DKV_MakeClerk [])] →
  shard_loop rpc good stop query key (S rounds) 0 0 cfg =
    shard_loop rpc good stop query key rounds 0 1 (query 0).
Proof.
  intros Hc. assert (cfg = zero_config) as ->.
  { repeat (apply elem_of_cons in Hc as [->|Hc]; [done|]). set_solver. }
  cbn [shard_loop]. unfold group_of.
  destruct (zget_is_Some (Shards zero_config) (key2shard key)) as [gid Hgid].
  { apply key2shard_range. }
  rewrite Hgid. simpl. by rewrite lookup_empty.
Qed.
