(* ===== verification/SocketRpc.v ===== *)
(** * RPC over Unix sockets: the function call of kvpaxos, paxos, paxos-shardkv,
    paxos-shardmaster, diskv, pbservice, viewservice and lockservice

    A client dials the server's socket, writes one request to the connection,
    waits for the outcome and closes the connection.  A request is a message on
    the connection; a server that serves the connection reads messages and runs
    the handler for each of them.  Many calls to one server run next to each
    other and next to the server's accept loop, so a call is a machine that takes
    one step at a time.  What the clients need to know of a
    server is an interface, [ConnServer], with the laws [ConnServerLaws]; the
    accept loops of Accept.v and of LockService.v implement it. *)

From S2P Require Import Prelude GoBase Accept AcceptSafety.

(** ** What a server promises *)

(** What becomes of a connection that was made: it is handed to [ServeConn],
    with its replies thrown away if [deaf], or it is closed or reset without
    being read. *)
Inductive fate := Served (deaf : bool) | Dropped.

#[export] Instance fate_eq_dec : EqDecision fate.
Proof. solve_decision. Defined.

(** A server process with state [W]: its own steps, [A]; a new connection, which
    is refused when there is no listener; what has become of a connection; and
    the handler, from requests [Q] to replies [R].  The handlers of these
    packages return nil, and the methods their clients name are registered, so an
    RPC that is answered brings a reply and no error. *)
Class ConnServer (W A Q R : Type) := {
  srv_start : W;
  srv_act : A → W → option W;
  srv_connect : nat → W → option W;
  srv_fate : W → nat → option fate;
  srv_handle : Q → W → W * R;
}.

(** [srv_ok n w]: the state [w] can come about when the connections so far are
    those below [n]. *)
Class ConnServerLaws {W A Q R} (S : ConnServer W A Q R) := {
  srv_ok : nat → W → Prop;
  srv_ok_start : srv_ok 0 srv_start;
  srv_ok_act n a w w' :
    srv_ok n w → srv_act a w = Some w' →
    srv_ok n w' ∧ ∀ c f, srv_fate w c = Some f → srv_fate w' c = Some f;
  srv_ok_connect n w w' :
    srv_ok n w → srv_connect n w = Some w' →
    srv_ok (Datatypes.S n) w' ∧ ∀ c f, srv_fate w c = Some f → srv_fate w' c = Some f;
  srv_ok_handle n q w :
    srv_ok n w →
    srv_ok n (srv_handle q w).1 ∧ ∀ c, srv_fate (srv_handle q w).1 c = srv_fate w c;
}.

(** ** call *)

(** Why [rpc.Dial] fails: the field [Err] of its error; [EOther] is any other
    value, an [os.SyscallError] around one of the two among them. *)
Inductive errno := ENOENT | ECONNREFUSED | EOther.

#[export] Instance errno_eq_dec : EqDecision errno.
Proof. solve_decision. Defined.

(** Where a call is: at [rpc.Dial]; at [c.Call], which writes the request; in
    [c.Call], waiting for the reply; at the deferred [c.Close()], with the reply
    if [c.Call] returned no error; returned, true with a reply or false. *)
Inductive cpc (R : Type) :=
| CDial
| CCall (c : nat)
| CWait (c : nat)
| CClose (c : nat) (r : option R)
| CDone (r : option R).
Arguments CDial {R}.
Arguments CCall {R} _.
Arguments CWait {R} _.
Arguments CClose {R} _ _.
Arguments CDone {R} _.

(** What [call] prints. *)
Inductive message := DialFailed (k : nat) (e : errno) | CallFailed (k : nat).

(** One call: its arguments, the connection it made, and where it is. *)
Record client (Q R : Type) := mkClient {
  k_args : Q;
  k_conn : option nat;
  k_pc : cpc R;
}.
Arguments mkClient {Q R} _ _ _.
Arguments k_args {Q R} _.
Arguments k_conn {Q R} _.
Arguments k_pc {Q R} _.

(** A request on its way: the connection, the arguments, and the call that sent
    it, which the server does not see. *)
Record packet (Q : Type) := mkPacket {
  p_conn : nat;
  p_call : nat;
  p_args : Q;
}.
Arguments mkPacket {Q} _ _ _.
Arguments p_conn {Q} _.
Arguments p_call {Q} _.
Arguments p_args {Q} _.

(** The server, the number of connections made so far, the calls, the requests
    that were written and not read, the runs of the handler in their order (call,
    arguments and reply), the connections that the clients have open, and what
    they have printed. *)
Record sys (W Q R : Type) := mkSys {
  y_srv : W;
  y_next : nat;
  y_calls : list (client Q R);
  y_wire : list (packet Q);
  y_log : list (nat * Q * R);
  y_open : gset nat;
  y_out : list message;
}.
Arguments mkSys {W Q R} _ _ _ _ _ _ _.
Arguments y_srv {W Q R} _.
Arguments y_next {W Q R} _.
Arguments y_calls {W Q R} _.
Arguments y_wire {W Q R} _.
Arguments y_log {W Q R} _.
Arguments y_open {W Q R} _.
Arguments y_out {W Q R} _.

Section call.
Context {W A Q R : Type} {S : ConnServer W A Q R}.
Implicit Types (st : sys W Q R) (ck : client Q R) (k c : nat).

(** The runs of the handler for call [k]. *)
Definition runs_of k (log : list (nat * Q * R)) : list (nat * Q * R) :=
  filter (λ x, x.1.1 = k) log.

(** What [c.Call], having written its request, returns to call [k] over
    connection [c]: it waits as long as the connection does, then for the reply
    to the request, the first that the server writes; a connection that is
    dropped, or whose replies are thrown away, ends it with an error. *)
Definition Client_Call k c st : option (option R) :=
  match srv_fate (y_srv st) c with
  | None => None
  | Some (Served false) => x ← head (runs_of k (y_log st)); Some (Some x.2)
  | Some (Served true) | Some Dropped => Some None
  end.

(** Call [k] moves on to [p]. *)
Definition move k ck (p : cpc R) st : sys W Q R :=
  mkSys (y_srv st) (y_next st) (<[k := mkClient (k_args ck) (k_conn ck) p]> (y_calls st))
    (y_wire st) (y_log st) (y_open st) (y_out st).
Definition print (ms : list message) st : sys W Q R :=
  mkSys (y_srv st) (y_next st) (y_calls st) (y_wire st) (y_log st) (y_open st)
    (y_out st ++ ms).

(** A request is written to connection [c]. *)
Definition write_request c k (q : Q) st : sys W Q R :=
  mkSys (y_srv st) (y_next st) (y_calls st) (y_wire st ++ [mkPacket c k q]) (y_log st)
    (y_open st) (y_out st).

(** One step of [call]; [quiet] says which failures of [rpc.Dial] are not
    reported, [e] why it fails if it does. *)
Definition call_step (quiet : errno → bool) k (e : errno) st : option (sys W Q R) :=
  ck ← y_calls st !! k;
  match k_pc ck with
  | CDial =>
      match srv_connect (y_next st) (y_srv st) with
      | None => Some (print (if quiet e then [] else [DialFailed k e]) (move k ck (CDone None) st))
      | Some w =>
          let c := y_next st in
          Some (mkSys w (Datatypes.S c)
                  (<[k := mkClient (k_args ck) (Some c) (CCall c)]> (y_calls st))
                  (y_wire st) (y_log st) ({[c]} ∪ y_open st) (y_out st))
      end
  | CCall c => Some (write_request c k (k_args ck) (move k ck (CWait c) st))
  | CWait c =>
      r ← Client_Call k c st;
      Some (print (if r is Some _ then [] else [CallFailed k]) (move k ck (CClose c r) st))
  | CClose c r =>
      let st := move k ck (CDone r) st in
      Some (mkSys (y_srv st) (y_next st) (y_calls st) (y_wire st) (y_log st) (y_open st ∖ {[c]})
              (y_out st))
  | CDone _ => None
  end.

(** [ServeConn] reads a request of a connection it serves and runs the handler
    on its arguments.  [j] is the position of the request among those that were
    written: the handlers of requests that were read run in any order. *)
Definition serve_request (j : nat) st : option (sys W Q R) :=
  p ← y_wire st !! j;
  match srv_fate (y_srv st) (p_conn p) with
  | Some (Served _) =>
      let '(w, r) := srv_handle (p_args p) (y_srv st) in
      Some (mkSys w (y_next st) (y_calls st) (delete j (y_wire st))
              (y_log st ++ [(p_call p, p_args p, r)]) (y_open st) (y_out st))
  | _ => None
  end.

Definition srv_step (a : A) st : option (sys W Q R) :=
  w ← srv_act a (y_srv st);
  Some (mkSys w (y_next st) (y_calls st) (y_wire st) (y_log st) (y_open st) (y_out st)).

(** A client enters [call] with arguments [q]; a call, a server's connection or
    the server takes a step. *)
Inductive yaction :=
| YNew (q : Q)
| YCall (k : nat) (e : errno)
| YServe (j : nat)
| YSrv (a : A).

Definition yact (quiet : errno → bool) (a : yaction) st : option (sys W Q R) :=
  match a with
  | YNew q =>
      Some (mkSys (y_srv st) (y_next st) (y_calls st ++ [mkClient q None CDial]) (y_wire st)
              (y_log st) (y_open st) (y_out st))
  | YCall k e => call_step quiet k e st
  | YServe j => serve_request j st
  | YSrv a => srv_step a st
  end.

Fixpoint yexec (quiet : errno → bool) (acts : list yaction) st : option (sys W Q R) :=
  match acts with
  | [] => Some st
  | a :: acts => st' ← yact quiet a st; yexec quiet acts st'
  end.

Definition ystart : sys W Q R := mkSys srv_start 0 [] [] [] ∅ [].

Definition yreachable (quiet : errno → bool) st : Prop :=
  ∃ acts, yexec quiet acts ystart = Some st.

Lemma yexec_app quiet acts1 acts2 st :
  yexec quiet (acts1 ++ acts2) st = yexec quiet acts1 st ≫= yexec quiet acts2.
Proof.
  revert st. induction acts1 as [|a acts1 IH]; intros st; [done|]. simpl.
  destruct (yact quiet a st); simpl; [apply IH|done].
Qed.

Lemma yreachable_ind quiet (P : sys W Q R → Prop) :
  P ystart →
  (∀ a st st', yreachable quiet st → P st → yact quiet a st = Some st' → P st') →
  ∀ st, yreachable quiet st → P st.
Proof.
  intros H0 Hs st [acts Hx]. revert st Hx.
  induction acts as [|a acts IH] using rev_ind; intros st Hx; [by injection Hx as <-|].
  rewrite yexec_app in Hx. apply bind_Some in Hx as (st1 & H1 & Hx). simpl in Hx.
  apply bind_Some in Hx as (st2 & H2 & [= <-]). eapply Hs; [by exists acts|by apply IH|done].
Qed.

(** ** The invariant *)

Context {SL : ConnServerLaws S}.

(** The connection a call has open. *)
Definition holds ck : option nat :=
  match k_pc ck with CCall c | CWait c | CClose c _ => Some c | _ => None end.

(** A call that got reply [r] has it from a run of the handler on its arguments,
    over a connection that was served with replies. *)
Definition answered st k ck (r : option R) : Prop :=
  match r with
  | None => True
  | Some r => (k, k_args ck, r) ∈ y_log st ∧
      ∃ c, k_conn ck = Some c ∧ srv_fate (y_srv st) c = Some (Served false)
  end.

Definition call_ok st k ck : Prop :=
  (∀ c, k_conn ck = Some c → c < y_next st) ∧
  match k_pc ck with
  | CDial => k_conn ck = None
  | CCall c | CWait c => k_conn ck = Some c
  | CClose c r => k_conn ck = Some c ∧ answered st k ck r
  | CDone r => answered st k ck r
  end.

(** The calls whose request is on its way or was handled, with repetitions. *)
Definition sent st : list nat := (y_log st).*1.*1 ++ (p_call <$> y_wire st).

(** The call has not got to write its request. *)
Definition unsent ck : bool :=
  match k_pc ck with CDial | CCall _ => true | _ => false end.

Record yok st : Prop := {
  yo_srv : srv_ok (y_next st) (y_srv st);
  yo_call k ck : y_calls st !! k = Some ck → call_ok st k ck;
  yo_inj k k' ck ck' c :
    y_calls st !! k = Some ck → y_calls st !! k' = Some ck' →
    k_conn ck = Some c → k_conn ck' = Some c → k = k';
  yo_once : NoDup (sent st);
  yo_unsent k ck : y_calls st !! k = Some ck → unsent ck = true → k ∉ sent st;
  yo_wire p :
    p ∈ y_wire st →
    ∃ ck, y_calls st !! p_call p = Some ck ∧ k_args ck = p_args p ∧
      k_conn ck = Some (p_conn p);
  yo_log k q r :
    (k, q, r) ∈ y_log st →
    ∃ ck c d, y_calls st !! k = Some ck ∧ k_args ck = q ∧ k_conn ck = Some c ∧
      srv_fate (y_srv st) c = Some (Served d);
  yo_open c :
    c ∈ y_open st ↔ ∃ k ck, y_calls st !! k = Some ck ∧ holds ck = Some c;
}.

(** Fates stay, the handler's runs stay, connections are added. *)
Record ygrows st st' : Prop := {
  yg_fate c f : srv_fate (y_srv st) c = Some f → srv_fate (y_srv st') c = Some f;
  yg_next : y_next st ≤ y_next st';
  yg_log x : x ∈ y_log st → x ∈ y_log st';
}.

Lemma call_ok_grows st st' k ck : ygrows st st' → call_ok st k ck → call_ok st' k ck.
Proof.
  intros [Hf Hn Hl] [Hc Hp].
  assert (∀ r, answered st k ck r → answered st' k ck r) as Ha.
  { intros [r|]; [|done]. intros [Hr (c & Hck & Hs)]. split; eauto. }
  split; [intros c Hck; specialize (Hc c Hck); lia|].
  destruct (k_pc ck) as [|c|c|c r|r]; [done|done|done| |by apply Ha].
  split; [apply Hp|apply Ha, Hp].
Qed.

Lemma log_grows st st' k q r :
  yok st → ygrows st st' →
  (∀ ck c, y_calls st !! k = Some ck → k_conn ck = Some c →
     ∃ ck', y_calls st' !! k = Some ck' ∧ k_args ck' = k_args ck ∧ k_conn ck' = k_conn ck) →
  (k, q, r) ∈ y_log st →
  ∃ ck c d, y_calls st' !! k = Some ck ∧ k_args ck = q ∧ k_conn ck = Some c ∧
    srv_fate (y_srv st') c = Some (Served d).
Proof.
  intros Hok Hg Hkeep (ck & c & d & Hk & Hq & Hc & Hf)%(yo_log _ Hok).
  destruct (Hkeep _ _ Hk Hc) as (ck' & Hk' & Ha & Hc').
  exists ck', c, d. split_and!; [done|congruence|congruence|by apply Hg].
Qed.

Lemma runs_of_elem k x log : x ∈ runs_of k log ↔ x.1.1 = k ∧ x ∈ log.
Proof. unfold runs_of. by rewrite list_elem_of_filter. Qed.

Lemma runs_of_cons k x log :
  runs_of k (x :: log) = if decide (x.1.1 = k) then x :: runs_of k log else runs_of k log.
Proof. exact (filter_cons (λ x, x.1.1 = k) x log). Qed.

Lemma runs_of_nil k log : runs_of k log = [] ↔ k ∉ log.*1.*1.
Proof.
  induction log as [|x log IH]; [set_solver|]. rewrite runs_of_cons. simpl.
  rewrite not_elem_of_cons, <-IH. case_decide as Hx.
  - split; [done|]. intros [Hne _]. by destruct Hne.
  - split; [|by intros [_ Hl]]. intros Hl. split; [congruence|done].
Qed.

(** Every call's handler runs at most once. *)
Lemma runs_of_once k log q r :
  NoDup log.*1.*1 → (k, q, r) ∈ log → runs_of k log = [(k, q, r)].
Proof.
  induction log as [|[[k' q'] r'] log IH]; intros Hnd Hin; [set_solver|].
  rewrite runs_of_cons. simpl in *. apply NoDup_cons in Hnd as [Hk Hnd].
  apply elem_of_cons in Hin as [[= -> -> ->]|Hin].
  - rewrite decide_True by done. by apply runs_of_nil in Hk as ->.
  - rewrite decide_False; [by apply IH|]. intros ->. destruct Hk.
    change k with ((k, q, r).1.1). by do 2 apply list_elem_of_fmap_2.
Qed.

Lemma holds_conn st k ck c : call_ok st k ck → holds ck = Some c → k_conn ck = Some c.
Proof.
  intros [_ Hp] Hh. unfold holds in Hh.
  destruct (k_pc ck) as [|d|d|d r|r]; simplify_eq; [done|done|apply Hp].
Qed.

(** *** Requests *)

(** The requests [ps] that a step of call [k] writes: none, or its only one. *)
Definition writes k ck ck' (ps : list (packet Q)) : Prop :=
  ps = [] ∧ (unsent ck' = true → unsent ck = true) ∨
  ∃ c, ps = [mkPacket c k (k_args ck)] ∧ unsent ck = true ∧ unsent ck' = false ∧
    k_conn ck' = Some c.

Lemma sent_write st st' ps :
  y_log st' = y_log st → y_wire st' = y_wire st ++ ps →
  sent st' = sent st ++ (p_call <$> ps).
Proof. unfold sent. intros -> ->. by rewrite fmap_app, app_assoc. Qed.

Lemma sent_once st st' k ck ck' ps :
  yok st → y_calls st !! k = Some ck → y_log st' = y_log st →
  y_wire st' = y_wire st ++ ps → writes k ck ck' ps → NoDup (sent st').
Proof.
  intros Hok Hk Hl Hw Hps. rewrite (sent_write _ _ _ Hl Hw).
  destruct Hps as [[-> _]|(c & -> & Hu & _)]; simpl; [rewrite app_nil_r; apply Hok|].
  apply list.NoDup_app. split_and!; [apply Hok| |apply NoDup_singleton].
  intros j Hj ->%list_elem_of_singleton. by apply (yo_unsent _ Hok _ _ Hk).
Qed.

(** A request that is handled leaves the wire for the log. *)
Lemma sent_serve st st' j p q r :
  y_wire st !! j = Some p → y_log st' = y_log st ++ [(p_call p, q, r)] →
  y_wire st' = delete j (y_wire st) → sent st' ≡ₚ sent st.
Proof.
  unfold sent. intros Hj -> ->. rewrite !fmap_app, <-app_assoc. simpl.
  apply Permutation_app_head. symmetry.
  exact (fmap_Permutation p_call _ _ (delete_Permutation _ _ _ Hj)).
Qed.

(** *** Steps *)

(** Call [k] changes from [ck] to [ck']. *)
Lemma yok_update st st' k ck ck' ps :
  yok st → y_calls st !! k = Some ck → ygrows st st' → srv_ok (y_next st') (y_srv st') →
  y_calls st' = <[k := ck']> (y_calls st) → y_log st' = y_log st →
  y_wire st' = y_wire st ++ ps → writes k ck ck' ps → k_args ck' = k_args ck →
  k_conn ck' = k_conn ck ∨ k_conn ck = None ∧ k_conn ck' = Some (y_next st) →
  call_ok st' k ck' →
  (∀ c, c ∈ y_open st' ↔ holds ck' = Some c ∨ c ∈ y_open st ∧ holds ck ≠ Some c) →
  yok st'.
Proof.
  intros Hok Hk Hg Hsrv Hcalls Hlog Hwire Hps Hargs Hconn Hck Hopen.
  pose proof (lookup_lt_Some _ _ _ Hk) as Hlt.
  assert (∀ j ckj, y_calls st' !! j = Some ckj →
    j = k ∧ ckj = ck' ∨ j ≠ k ∧ y_calls st !! j = Some ckj) as Hlook.
  { intros j ckj. rewrite Hcalls. intros [(-> & <- & _)|[? ?]]%list_lookup_insert_Some; eauto. }
  assert (∀ j ckj c, j ≠ k → y_calls st !! j = Some ckj → k_conn ckj = Some c →
    k_conn ck' = Some c → False) as Hnew.
  { intros j ckj c Hne Hj Hc Hc'. destruct Hconn as [Heq|[_ Heq]].
    - destruct Hne. rewrite Heq in Hc'. by eapply (yo_inj _ Hok).
    - destruct (yo_call _ Hok _ _ Hj) as [Hb _]. specialize (Hb _ Hc).
      rewrite Heq in Hc'. injection Hc' as <-. lia. }
  assert (∀ j ckj c, y_calls st !! j = Some ckj → k_conn ckj = Some c →
    ∃ ckj', y_calls st' !! j = Some ckj' ∧ k_args ckj' = k_args ckj ∧
      k_conn ckj' = k_conn ckj) as Hkeep.
  { intros j ckj c Hj Hc. rewrite Hcalls. destruct (decide (j = k)) as [->|Hne].
    - rewrite list_lookup_insert_eq by done. simplify_eq. exists ck'. split_and!; [done..|].
      destruct Hconn as [?|[? _]]; [done|congruence].
    - rewrite list_lookup_insert_ne by done. eauto. }
  split.
  - done.
  - intros j ckj [[-> ->]|[Hne Hj]]%Hlook; [done|].
    eapply call_ok_grows; [done|]. by apply (yo_call _ Hok).
  - intros j j' ckj ckj' c [[-> ->]|[Hne Hj]]%Hlook [[-> ->]|[Hne' Hj']]%Hlook Hc Hc'.
    + done.
    + exfalso; eauto.
    + exfalso; eauto.
    + by eapply (yo_inj _ Hok).
  - by eapply (sent_once st).
  - intros j ckj Hj Hu. rewrite (sent_write _ _ _ Hlog Hwire).
    destruct Hps as [[-> Hps]|(c & -> & _ & Hu' & _)]; simpl;
      rewrite ?app_nil_r, ?not_elem_of_app, ?list_elem_of_singleton;
      apply Hlook in Hj as [[-> ->]|[Hne Hj]]; try congruence.
    + by apply (yo_unsent _ Hok _ _ Hk), Hps.
    + by apply (yo_unsent _ Hok _ _ Hj).
    + split; [by apply (yo_unsent _ Hok _ _ Hj)|done].
  - intros p. rewrite Hwire. intros [Hp|Hp]%elem_of_app.
    + destruct (yo_wire _ Hok _ Hp) as (ckj & Hj & Ha & Hc).
      destruct (Hkeep _ _ _ Hj Hc) as (ckj' & ? & ? & ?). exists ckj'. split_and!; congruence.
    + destruct Hps as [[-> _]|(c & -> & _ & _ & Hc)]; [by apply elem_of_nil in Hp|].
      apply list_elem_of_singleton in Hp as ->. exists ck'. simpl.
      by rewrite Hcalls, list_lookup_insert_eq.
  - intros j q r Hin. rewrite Hlog in Hin. eapply (log_grows st); [done..|apply Hkeep|done].
  - intros c. rewrite Hopen. split.
    + intros [Hc|[(j & ckj & Hj & Hc)%(yo_open _ Hok) Hne]].
      * exists k, ck'. by rewrite Hcalls, list_lookup_insert_eq.
      * exists j, ckj. rewrite Hcalls, list_lookup_insert_ne; [done|].
        intros ->. congruence.
    + intros (j & ckj & [[-> ->]|[Hne Hj]]%Hlook & Hc); [by left|]. right.
      split; [apply (yo_open _ Hok); eauto|]. intros Hc'. destruct Hne.
      eapply (yo_inj _ Hok); [done..| |]; (eapply holds_conn; [|done]); by apply (yo_call _ Hok).
Qed.

(** No call moves. *)
Lemma yok_same_calls st st' :
  yok st → ygrows st st' → srv_ok (y_next st') (y_srv st') →
  y_calls st' = y_calls st → y_open st' = y_open st →
  sent st' ≡ₚ sent st → y_wire st' ⊆ y_wire st →
  (∀ k q r, (k, q, r) ∈ y_log st' → (k, q, r) ∈ y_log st ∨
     ∃ ck c d, y_calls st !! k = Some ck ∧ k_args ck = q ∧ k_conn ck = Some c ∧
       srv_fate (y_srv st') c = Some (Served d)) →
  yok st'.
Proof.
  intros Hok Hg Hsrv Hcalls Hopen Hsent Hwire Hlog.
  split; rewrite ?Hcalls, ?Hopen; try apply Hok; try done.
  - intros k ck Hk. eapply call_ok_grows; [done|]. by apply (yo_call _ Hok).
  - rewrite Hsent. apply Hok.
  - intros k ck Hk Hu. rewrite Hsent. by apply (yo_unsent _ Hok _ _ Hk).
  - intros p Hp. by apply (yo_wire _ Hok), Hwire.
  - intros k q r [Hin|?]%Hlog; [|done]. rewrite <-Hcalls.
    eapply (log_grows st); [done..| |done]. intros ck c Hk _. rewrite Hcalls. eauto.
Qed.

(** A reply that [c.Call] brings is that of a run for its call. *)
Lemma Client_Call_answered st k ck c r :
  yok st → y_calls st !! k = Some ck → k_conn ck = Some c →
  Client_Call k c st = Some r → answered st k ck r.
Proof.
  intros Hok Hk Hc Hr. destruct r as [r|]; [|done]. unfold Client_Call in Hr.
  destruct (srv_fate (y_srv st) c) as [[[]|]|] eqn:Hf; try done.
  apply bind_Some in Hr as ([[k' q] r'] & Hh & [= <-]).
  assert ((k', q, r') ∈ runs_of k (y_log st)) as Hin.
  { destruct (runs_of k (y_log st)); [done|]. injection Hh as ->. by left. }
  apply runs_of_elem in Hin as [Hk' Hin]. simpl in Hk'. subst k'. simpl.
  destruct (yo_log _ Hok _ _ _ Hin) as (ck' & _ & _ & Hk' & <- & _). simplify_eq.
  split; [done|]. by exists c.
Qed.

Lemma yok_call quiet k e st st' :
  yok st → call_step quiet k e st = Some st' → yok st'.
Proof.
  intros Hok (ck & Hk & Hs)%bind_Some. pose proof (yo_call _ Hok _ _ Hk) as [Hb Hp].
  assert (∀ c, holds ck = Some c → c ∈ y_open st) as Hmine.
  { intros c Hc. apply (yo_open _ Hok). by exists k, ck. }
  destruct (k_pc ck) as [|c|c|c r|r] eqn:Hpc; [| | | |done];
    assert (holds ck = match k_pc ck with CCall c | CWait c | CClose c _ => Some c | _ => None end)
      as Hh by done; rewrite Hpc in Hh; rewrite Hh in Hmine.
  - destruct (srv_connect (y_next st) (y_srv st)) as [w|] eqn:Hc; injection Hs as <-.
    + destruct (srv_ok_connect _ _ _ (yo_srv _ Hok) Hc) as [Hsrv Hf].
      eapply (yok_update st _ _ _ _ []); eauto; simpl.
      * split; simpl; auto.
      * by rewrite app_nil_r.
      * left. unfold unsent. by rewrite Hpc.
      * split; simpl; [|done]. intros c [= <-]. lia.
      * intros c. unfold holds at 1. simpl. rewrite Hh, elem_of_union, elem_of_singleton.
        split; [intros [->|]|intros [[= <-]|[? _]]]; by (left + right).
    + eapply (yok_update st _ _ _ _ []); eauto; simpl;
        [by split|apply Hok|by rewrite app_nil_r|by left|done|].
      intros c. unfold holds at 1. simpl. rewrite Hh. split; [by right|by intros [|[? _]]].
  - injection Hs as <-.
    eapply (yok_update st _ _ _ _ [_]); eauto; simpl; [by split|apply Hok| |done|].
    + right. exists c. unfold unsent. rewrite Hpc. done.
    + intros c'. unfold holds at 1. simpl. rewrite Hh. split.
      * intros Hc'. destruct (decide (c = c')) as [->|]; [by left|right; split; congruence].
      * intros [[= <-]|[? _]]; auto.
  - apply bind_Some in Hs as (r & Hr & [= <-]).
    eapply (yok_update st _ _ _ _ []); eauto; simpl;
      [by split|apply Hok|by rewrite app_nil_r|by left| |].
    + split; [done|]. simpl. split; [done|].
      apply (Client_Call_answered _ _ _ _ _ Hok Hk Hp) in Hr. by destruct r.
    + intros c'. unfold holds at 1. simpl. rewrite Hh. split.
      * intros Hc'. destruct (decide (c = c')) as [->|]; [by left|right; split; congruence].
      * intros [[= <-]|[? _]]; auto.
  - injection Hs as <-. destruct Hp as [Hc Ha].
    eapply (yok_update st _ _ _ _ []); eauto; simpl;
      [by split|apply Hok|by rewrite app_nil_r|by left|by split|].
    intros c'. unfold holds at 1. simpl. rewrite Hh, elem_of_difference, elem_of_singleton.
    split; [intros [? ?]; right; split; congruence|intros [|[? Hne]]; [done|]].
    split; [done|]. by intros ->.
Qed.

Lemma yok_serve j st st' : yok st → serve_request j st = Some st' → yok st'.
Proof.
  intros Hok (p & Hj & Hs)%bind_Some.
  destruct (srv_fate (y_srv st) (p_conn p)) as [[d|]|] eqn:Hf; try done.
  destruct (yo_wire _ Hok p) as (ck & Hk & Ha & Hc); [by eapply list_elem_of_lookup_2|].
  destruct (srv_ok_handle _ (p_args p) _ (yo_srv _ Hok)) as [Hsrv Hfate].
  destruct (srv_handle (p_args p) (y_srv st)) as [w r]. injection Hs as <-. simpl in *.
  eapply (yok_same_calls st); simpl; try done.
  - split; simpl; [|done|set_solver]. intros c' f. by rewrite Hfate.
  - by eapply sent_serve.
  - intros p' Hp'. rewrite (delete_Permutation _ _ _ Hj). by right.
  - intros k' q' r' [Hin|Hin]%elem_of_app; [by left|]. right.
    apply list_elem_of_singleton in Hin as [= -> -> ->]. exists ck, (p_conn p), d.
    split_and!; [done..|]. by rewrite Hfate.
Qed.

Lemma yok_srv a st st' : yok st → srv_step a st = Some st' → yok st'.
Proof.
  intros Hok (w & Hw & [= <-])%bind_Some.
  destruct (srv_ok_act _ _ _ _ (yo_srv _ Hok) Hw) as [Hsrv Hf].
  eapply (yok_same_calls st); simpl; try done; by left.
Qed.

Lemma sent_called st k : yok st → k ∈ sent st → k < length (y_calls st).
Proof.
  intros Hok [Hin|Hin]%elem_of_app.
  - apply list_elem_of_fmap in Hin as ([k' q] & -> & Hin).
    apply list_elem_of_fmap in Hin as ([[k1 q1] r] & [= -> ->] & Hin).
    destruct (yo_log _ Hok _ _ _ Hin) as (ck & _ & _ & Hk & _). by eapply lookup_lt_Some.
  - apply list_elem_of_fmap in Hin as (p & -> & Hp).
    destruct (yo_wire _ Hok _ Hp) as (ck & Hk & _). by eapply lookup_lt_Some.
Qed.

Lemma yok_new quiet q st st' : yok st → yact quiet (YNew q) st = Some st' → yok st'.
Proof.
  intros Hok [= <-].
  assert (∀ k ck, (y_calls st ++ [mkClient q None CDial]) !! k = Some ck →
    y_calls st !! k = Some ck ∨ k = length (y_calls st) ∧ ck = mkClient q None CDial) as Hlook.
  { intros k ck [?|[? [? <-]%list_lookup_singleton_Some]]%lookup_app_Some; [by left|].
    right. split; [lia|done]. }
  split; simpl; try apply Hok.
  - intros k ck [Hk|[-> ->]]%Hlook; [|done]. by apply (yo_call _ Hok).
  - intros k k' ck ck' c [Hk|[-> ->]]%Hlook [Hk'|[-> ->]]%Hlook Hc Hc'; try done.
    by eapply (yo_inj _ Hok).
  - intros k ck [Hk|[-> _]]%Hlook Hu; [by apply (yo_unsent _ Hok _ _ Hk)|].
    intros Hin%(sent_called _ _ Hok). lia.
  - intros p (ck & Hk & Ha & Hc)%(yo_wire _ Hok). exists ck.
    by rewrite (lookup_app_l_Some _ _ _ _ Hk).
  - intros k q' r (ck & c & d & Hk & Hq & Hc & Hf)%(yo_log _ Hok). exists ck, c, d.
    by rewrite (lookup_app_l_Some _ _ _ _ Hk).
  - intros c. rewrite (yo_open _ Hok). split.
    + intros (k & ck & Hk & Hc). exists k, ck. by rewrite (lookup_app_l_Some _ _ _ _ Hk).
    + intros (k & ck & [Hk|[-> ->]]%Hlook & Hc); [by exists k, ck|done].
Qed.

Lemma yok_reachable quiet st : yreachable quiet st → yok st.
Proof.
  apply yreachable_ind.
  - split; simpl; try done; [apply srv_ok_start|constructor|set_solver|set_solver|].
    intros c. split; [set_solver|]. by intros (? & ? & ? & _).
  - intros [q|k e|j|a] st0 st1 _ Hok Ha; simpl in Ha.
    + by eapply (yok_new quiet).
    + by eapply yok_call.
    + by eapply yok_serve.
    + by eapply yok_srv.
Qed.

(** C18. Every call over a socket runs its handler at most once, however calls,
    the server's loop, its unreliable mode and a kill interleave: a call that
    returned true has run it exactly once, on exactly its arguments, and brings
    the reply of that run; a call whose dial was refused, or whose connection
    was closed or reset unread, has not run it at all; and a call that returned
    has closed its connection. *)
Theorem socket_call_at_most_once quiet st k ck :
  yreachable quiet st → y_calls st !! k = Some ck →
  length (runs_of k (y_log st)) ≤ 1 ∧
  (∀ r, k_pc ck = CDone (Some r) → runs_of k (y_log st) = [(k, k_args ck, r)]) ∧
  (k_conn ck = None → runs_of k (y_log st) = []) ∧
  (∀ c, k_conn ck = Some c → srv_fate (y_srv st) c = Some Dropped →
     runs_of k (y_log st) = []) ∧
  (∀ r c, k_pc ck = CDone r → k_conn ck = Some c → c ∉ y_open st).
Proof.
  intros Hok%yok_reachable Hk. pose proof (yo_once _ Hok) as [Hnd _]%list.NoDup_app.
  assert (runs_of k (y_log st) = [] ∨ ∃ c d r, k_conn ck = Some c ∧
    srv_fate (y_srv st) c = Some (Served d) ∧
    runs_of k (y_log st) = [(k, k_args ck, r)]) as Hruns.
  { destruct (runs_of k (y_log st)) as [|[[k' q] r] l] eqn:Hl; [by left|right].
    assert ((k', q, r) ∈ runs_of k (y_log st)) as [Hk' Hin]%runs_of_elem
      by (rewrite Hl; by left). simpl in Hk'. subst k'.
    destruct (yo_log _ Hok _ _ _ Hin) as (ck' & c & d & Hk' & <- & Hc & Hf). simplify_eq.
    exists c, d, r. by rewrite <-Hl, (runs_of_once _ _ _ _ Hnd Hin). }
  split_and!.
  - destruct Hruns as [->|(? & ? & ? & _ & _ & ->)]; simpl; lia.
  - intros r Hp. apply runs_of_once; [done|].
    destruct (yo_call _ Hok _ _ Hk) as [_ Ha]. rewrite Hp in Ha. apply Ha.
  - intros Hc. destruct Hruns as [|(? & ? & ? & ? & _)]; [done|congruence].
  - intros c Hc Hd. destruct Hruns as [|(? & ? & ? & ? & ? & _)]; [done|congruence].
  - intros r c Hp Hc (j & ckj & Hj & Hh)%(yo_open _ Hok).
    assert (j = k) as ->.
    { eapply (yo_inj _ Hok); [done..| |done].
      eapply holds_conn; [by apply (yo_call _ Hok)|done]. }
    simplify_eq. unfold holds in Hh. by rewrite Hp in Hh.
Qed.
End call.

(** ** Servers with the loop of Accept.v *)

(** What has become of connection [c] of such a server. *)
Definition conn_fate (w : world) (c : nat) : option fate :=
  match list_find (λ x, x.1 = c) (w_served w) with
  | Some (_, x) => Some (Served x.2)
  | None => if decide (c ∈ w_closed w ++ w_reset w) then Some Dropped else None
  end.

Lemma conn_fate_served w c d :
  NoDup (w_served w).*1 → (conn_fate w c = Some (Served d) ↔ (c, d) ∈ w_served w).
Proof.
  intros Hnd. unfold conn_fate. destruct (list_find _ _) as [[i x]|] eqn:Hf.
  - apply list_find_Some in Hf as (Hx & Hc & _). apply list_elem_of_lookup_2 in Hx.
    destruct x as [c' d']. simpl in Hc. subst c'. simpl. split; [by intros [= <-]|].
    intros Hin. do 2 f_equal.
    apply list_elem_of_lookup in Hx as [j Hj], Hin as [j' Hj'].
    assert (j = j') as ->; [|congruence].
    eapply (NoDup_lookup _ _ _ c Hnd); by rewrite list_lookup_fmap, ?Hj, ?Hj'.
  - apply list_find_None in Hf. split; [by case_decide|]. intros Hin.
    eapply list.Forall_forall in Hf; [|exact Hin]. done.
Qed.

Lemma conn_fate_dropped w c :
  conn_fate w c = Some Dropped ↔ c ∉ (w_served w).*1 ∧ c ∈ w_closed w ++ w_reset w.
Proof.
  unfold conn_fate. destruct (list_find _ _) as [[i x]|] eqn:Hf.
  - apply list_find_Some in Hf as (Hx%list_elem_of_lookup_2 & <- & _). split; [done|].
    intros [Hn _]. destruct Hn. by apply list_elem_of_fmap_2.
  - apply list_find_None in Hf. rewrite list.Forall_forall in Hf. case_decide as Hin.
    + split; [|done]. intros _. split; [|done].
      intros (x & -> & Hx)%list_elem_of_fmap. by apply (Hf x).
    + split; [done|]. by intros [_ ?].
Qed.

(** The fates of connections only get more, and only a dial makes one. *)
Lemma act_grows v a w w' :
  act v a w = Some w' →
  w_served w `prefix_of` w_served w' ∧ w_closed w `prefix_of` w_closed w' ∧
  w_reset w `prefix_of` w_reset w' ∧
  (w_arrived w' = w_arrived w ∨ ∃ c, a = Dial c ∧ w' = dial c w).
Proof.
  intros Ha. destruct a as [ok rand|c|what| |]; simpl in Ha.
  - unfold loop_step in Ha.
    destruct (w_pc w) as [| |[c|]|c|c| | |]; repeat case_match; simplify_eq/=;
      split_and!; auto using prefix_app_r.
  - injection Ha as <-. unfold dial. destruct (f_open (w_flags w)); simpl; split_and!; eauto.
  - injection Ha as <-. split_and!; auto.
  - injection Ha as <-. split_and!; auto.
  - injection Ha as <-. simpl. split_and!; auto using prefix_app_r.
Qed.

Section accept_server.
Context (v : variant) {D Q R : Type} (handler : Q → D → D * R) (d0 : D).

(** The loop's world with the data of the handlers.  Connections are made by
    calls. *)
#[export] Instance accept_server : ConnServer (world * D) action Q R := {
  srv_start := (start, d0);
  srv_act a w := if a is Dial _ then None else w' ← act v a w.1; Some (w', w.2);
  srv_connect c w := if f_open (w_flags w.1) then Some (dial c w.1, w.2) else None;
  srv_fate w := conn_fate w.1;
  srv_handle q w := let '(d, r) := handler q w.2 in ((w.1, d), r);
}.

Definition accept_ok (n : nat) (w : world * D) : Prop :=
  accounted w.1 ∧ w_arrived w.1 = seq 0 n.

Lemma accept_ok_NoDup n w :
  accept_ok n w →
  NoDup (w_served w.1).*1 ∧ ∀ c, c ∈ w_closed w.1 ++ w_reset w.1 → c ∉ (w_served w.1).*1.
Proof.
  intros [Hacc Harr]. unfold accounted in Hacc.
  pose proof (NoDup_seq 0 n) as Hnd. rewrite <-Harr, Hacc in Hnd.
  apply list.NoDup_app in Hnd as (_ & _ & Hnd). apply list.NoDup_app in Hnd as (_ & _ & Hnd).
  apply list.NoDup_app in Hnd as (_ & Hcl & Hnd). apply list.NoDup_app in Hnd as (Hs & Hre & _).
  split; [done|]. intros c [Hc|Hc]%elem_of_app Hin.
  - apply (Hcl c Hc). set_solver.
  - by apply (Hre c Hin).
Qed.

(** Later states agree on the fates that are settled. *)
Lemma conn_fate_grows n n' w w' c f :
  accept_ok n w → accept_ok n' w' → w_served w.1 `prefix_of` w_served w'.1 →
  w_closed w.1 `prefix_of` w_closed w'.1 → w_reset w.1 `prefix_of` w_reset w'.1 →
  conn_fate w.1 c = Some f → conn_fate w'.1 c = Some f.
Proof.
  intros [Hnd _]%accept_ok_NoDup [Hnd' Hd']%accept_ok_NoDup Hs Hc Hr Hf.
  destruct f as [d|].
  - apply conn_fate_served in Hf; [|done]. apply conn_fate_served; [done|].
    destruct Hs as [l ->]. set_solver.
  - apply conn_fate_dropped in Hf as [_ Hin]. apply conn_fate_dropped.
    assert (c ∈ w_closed w'.1 ++ w_reset w'.1) as Hin'.
    { destruct Hc as [lc ->], Hr as [lr ->]. set_solver. }
    split; [by apply Hd'|done].
Qed.

#[export] Instance accept_server_laws : ConnServerLaws accept_server.
Proof.
  refine {| srv_ok := accept_ok |}.
  - split; [constructor|done].
  - intros n a [w d] w1 Hok Ha. simpl in Ha.
    assert (∃ w', act v a w = Some w' ∧ w1 = (w', d) ∧ ∀ c, a ≠ Dial c) as (w' & Hw & -> & Hnd).
    { destruct a; try done; apply bind_Some in Ha as (w' & Hw & [= <-]); eauto. }
    destruct (act_grows _ _ _ _ Hw) as (Hs & Hc & Hr & Harr).
    assert (accept_ok n (w', d)) as Hok'.
    { split; [by eapply act_accounted; [apply Hok|]|].
      simpl. destruct Harr as [->|(c & -> & _)]; [apply Hok|by destruct (Hnd c)]. }
    split; [done|]. intros c f. by eapply (conn_fate_grows n n (w, d) (w', d)).
  - intros n [w d] w1 Hok Ha. simpl in Ha. destruct (f_open (w_flags w)) eqn:Hopen; [|done].
    injection Ha as <-. destruct (act_grows v (Dial n) w (dial n w) eq_refl) as (Hs & Hc & Hr & _).
    assert (accept_ok (Datatypes.S n) (dial n w, d)) as Hok'.
    { split; [by eapply (act_accounted v (Dial n)); [apply Hok|]|].
      simpl. unfold dial. rewrite Hopen. simpl. destruct Hok as [_ Harr]. simpl in Harr.
      by rewrite Harr, <-seq_S. }
    split; [done|]. intros c f. by eapply (conn_fate_grows n (Datatypes.S n) (w, d) (dial n w, d)).
  - intros n q [w d] Hok. simpl. destruct (handler q d) as [d' r]. by split.
Defined.
End accept_server.
