(* ===== verification/SocketServers.v ===== *)
(** * Calls to the servers with the loop of Accept.v

    On a server that is left alone no call fails and every call can be completed.
    The second part names the copies of [call], and runs one call that fails
    although its handler ran. *)

From S2P Require Import Prelude GoBase Accept AcceptSafety SocketRpc.

Section reliable.
Context (v : variant) {D Q R : Type} (handler : Q → D → D * R) (d0 : D).
Context (quiet : errno → bool).
#[local] Existing Instance accept_server.
#[local] Existing Instance accept_server_laws.
#[local] Abbreviation server := (accept_server v handler d0).
#[local] Abbreviation yexec := (yexec (S := server) quiet).
#[local] Abbreviation yact := (yact (S := server) quiet).
#[local] Abbreviation ystart := (ystart (S := server)).
#[local] Abbreviation yok := (yok (S := server) (SL := accept_server_laws v handler d0)).
Implicit Types st : sys (world * D) Q R.

(** Actions of a run in which the server is neither killed nor made unreliable,
    and [Accept] does not fail. *)
Definition ycalm (a : yaction (A := action) (Q := Q)) : bool :=
  match a with YSrv a => calm a | _ => true end.

Record calm_sys st : Prop := {
  cy_ok : yok st;
  cy_calm : calm_state (y_srv st).1;
  cy_sent k ck c : y_calls st !! k = Some ck → k_pc ck = CWait c → k ∈ sent st;
  cy_true k ck : y_calls st !! k = Some ck →
    k_pc ck ≠ CDone None ∧ ∀ c, k_pc ck ≠ CClose c None;
}.

Lemma calm_fate w c f : calm_state w → conn_fate w c = Some f → f = Served false.
Proof.
  intros [_ _ _ _ Hc Hr Hs _]. unfold conn_fate. rewrite Hc, Hr.
  destruct (list_find _ _) as [[i x]|] eqn:Hf.
  - intros [= <-]. apply list_find_Some in Hf as (Hx%list_elem_of_lookup_2 & _).
    eapply list.Forall_forall in Hs; [|exact Hx]. by rewrite Hs.
  - case_decide; [set_solver|done].
Qed.

(** A calm call moves to [p]. *)
Lemma calm_move k ck cn p st st' :
  calm_sys st → y_calls st !! k = Some ck → yok st' → calm_state (y_srv st').1 →
  y_calls st' = <[k := mkClient (k_args ck) cn p]> (y_calls st) → sent st ⊆ sent st' →
  (∀ c, p = CWait c → k ∈ sent st') → p ≠ CDone None → (∀ c, p ≠ CClose c None) →
  calm_sys st'.
Proof.
  intros Hst Hk Hok Hw Hcalls Hsent Hp H1 H2. split; [done|done|..].
  - intros j ckj c. rewrite Hcalls.
    intros [(<- & <- & _)|[_ Hj]]%list_lookup_insert_Some Hc; [by eapply Hp|].
    by eapply Hsent, (cy_sent _ Hst).
  - intros j ckj. rewrite Hcalls.
    intros [(_ & <- & _)|[_ Hj]]%list_lookup_insert_Some; [done|].
    by apply (cy_true _ Hst _ _ Hj).
Qed.

Lemma calm_sys_call k e st st' :
  calm_sys st → yok st' → yact (YCall k e) st = Some st' → calm_sys st'.
Proof.
  intros Hst Hok' (ck & Hk & Ha)%bind_Some. pose proof Hst as [Hok Hw Hsent Htrue].
  destruct (k_pc ck) as [|c|c|c r|r] eqn:Hpc; [| | | |done].
  - simpl in Ha. rewrite (cs_open _ Hw) in Ha. injection Ha as <-.
    eapply (calm_move k ck); [done..| | | | | |]; simpl; try done.
    by eapply (calm_act v (Dial (y_next st))).
  - injection Ha as <-. eapply (calm_move k ck); [done..| | | | |]; simpl; try done;
      unfold sent; simpl; rewrite fmap_app; set_solver.
  - apply bind_Some in Ha as (r & Hr & [= <-]).
    eapply (calm_move k ck); [done..| | | | |]; simpl; try done.
    intros c' [= -> ->]. unfold Client_Call in Hr.
    destruct (srv_fate (y_srv st) c') as [f|] eqn:Hf; [|done].
    apply calm_fate in Hf as ->; [|done]. by apply bind_Some in Hr as (? & _ & ?).
  - injection Ha as <-. eapply (calm_move k ck); [done..| | | | |]; simpl; try done.
    intros [= ->]. destruct (Htrue _ _ Hk) as [_ Hn]. by destruct (Hn c).
Qed.

Lemma calm_sys_act a st st' :
  ycalm a = true → calm_sys st → yact a st = Some st' → calm_sys st'.
Proof.
  intros Hcalm Hst Ha. pose proof Hst as [Hok Hw Hsent Htrue].
  assert (yok st') as Hok'.
  { destruct a; [by eapply (yok_new quiet)|by eapply yok_call|by eapply yok_serve|
      by eapply yok_srv]. }
  destruct a as [q|k e|j|a]; simpl in Ha.
  - injection Ha as <-. split; simpl; try done.
    + intros k ck c [Hk|[_ [_ <-]%list_lookup_singleton_Some]]%lookup_app_Some; [|done].
      by eapply Hsent.
    + intros k ck [Hk|[_ [_ <-]%list_lookup_singleton_Some]]%lookup_app_Some; [eauto|done].
  - by eapply calm_sys_call.
  - apply bind_Some in Ha as (p & Hp & Ha).
    destruct (srv_fate (y_srv st) (p_conn p)) as [[d|]|]; try done.
    simpl in Ha. destruct (handler _ _) as [d' r]. injection Ha as <-.
    split; simpl; [done..| |done]. intros k ck c Hk Hc.
    rewrite (sent_serve st _ j p); [by eapply Hsent|done..].
  - apply bind_Some in Ha as (w & Hs & [= <-]).
    assert (act v a (y_srv st).1 = Some w.1) as Ha.
    { destruct a; try done; by apply bind_Some in Hs as (w' & Hw' & [= <-]). }
    split; simpl; [done|by eapply calm_act|exact Hsent|done].
Qed.

Lemma calm_sys_run acts st st' :
  calm_sys st → Forall (λ a, ycalm a = true) acts → yexec acts st = Some st' → calm_sys st'.
Proof.
  revert st. induction acts as [|a acts IH]; intros st H0 Hall Hx; [by injection Hx as <-|].
  apply list.Forall_cons in Hall as [Ha Hall].
  apply bind_Some in Hx as (st2 & H2 & Hx). eapply IH; [|done..]. by eapply calm_sys_act.
Qed.

Lemma calm_sys_exec acts st :
  Forall (λ a, ycalm a = true) acts → yexec acts ystart = Some st → calm_sys st.
Proof.
  apply calm_sys_run. split; [|by split|done..]. apply yok_reachable with quiet. by exists [].
Qed.

(** Steps of the loop are steps of the whole. *)
Lemma yexec_loop draws st w' :
  exec v (Loop true <$> draws) (y_srv st).1 = Some w' →
  yexec ((λ r, YSrv (Loop true r)) <$> draws) st =
    Some (mkSys (w', (y_srv st).2) (y_next st) (y_calls st) (y_wire st) (y_log st) (y_open st)
            (y_out st)).
Proof.
  revert st. induction draws as [|r draws IH]; intros st Hx.
  { injection Hx as <-. by destruct st as [[w d] n cs wi l o out]. }
  simpl in Hx. apply bind_Some in Hx as (w1 & H1 & Hx). simpl. unfold srv_step. simpl.
  rewrite H1. simpl.
  exact (IH (mkSys (w1, (y_srv st).2) (y_next st) (y_calls st) (y_wire st) (y_log st)
    (y_open st) (y_out st)) Hx).
Qed.

(** What may happen while call [k] is completed: steps of the loop, of the call
    and of its connection's server, which reads the call's request. *)
Definition serving k st (a : yaction (A := action) (Q := Q)) : Prop :=
  (∃ j p, a = YServe j ∧ y_wire st !! j = Some p ∧ p_call p = k) ∨
  (∃ e, a = YCall k e) ∨ ∃ rand, a = YSrv (Loop true rand).

Lemma serving_call k st e : serving k st (YCall k e).
Proof. right; left. by eexists. Qed.

(** Call [k] can be completed from [st]: it has returned true with the reply of a
    run on its arguments, or a step leads to where it can be completed. *)
Inductive completes k : sys (world * D) Q R → Prop :=
| completes_done st ck r :
    y_calls st !! k = Some ck → k_pc ck = CDone (Some r) → (k, k_args ck, r) ∈ y_log st →
    completes k st
| completes_step a st st' :
    serving k st a → yact a st = Some st' → completes k st' → completes k st.

Lemma completes_exec k acts st st' :
  Forall (λ a, ∃ rand, a = YSrv (Loop true rand)) acts →
  yexec acts st = Some st' → completes k st' → completes k st.
Proof.
  intros Hall. revert st. induction Hall as [|a acts Ha _ IH]; intros st Hx Hc.
  { by injection Hx as ->. }
  apply bind_Some in Hx as (st1 & H1 & Hx). eapply completes_step; [by right; right|done|eauto].
Qed.

(** The call takes a step. *)
Lemma completes_call k st :
  calm_sys st →
  (∃ st1, yact (YCall k EOther) st = Some st1 ∧ (calm_sys st1 → completes k st1)) →
  completes k st.
Proof.
  intros Hst (st1 & H1 & Hc). eapply completes_step; [apply serving_call|done|].
  apply Hc. by apply (calm_sys_act (YCall k EOther) st).
Qed.

Lemma completes_close k c r st ck :
  calm_sys st → y_calls st !! k = Some ck → k_pc ck = CClose c r → completes k st.
Proof.
  intros Hst Hk Hp. destruct (cy_true _ Hst _ _ Hk) as [_ Hn].
  destruct r as [r|]; [|by destruct (Hn c)].
  destruct (yo_call _ (cy_ok _ Hst) _ _ Hk) as [_ Hc]. rewrite Hp in Hc. destruct Hc as [_ [Hl _]].
  apply completes_call; [done|]. simpl. unfold call_step. rewrite Hk. simpl. rewrite Hp.
  eexists. split; [done|]. intros _. eapply completes_done; simpl;
    [by rewrite list_lookup_insert_eq by (by eapply lookup_lt_Some)|done..].
Qed.

(** A call whose request was handled. *)
Lemma completes_answered k c st ck :
  calm_sys st → y_calls st !! k = Some ck → k_pc ck = CWait c → runs_of k (y_log st) ≠ [] →
  srv_fate (ConnServer := server) (y_srv st) c = Some (Served false) → completes k st.
Proof.
  intros Hst Hk Hp Hr Hf. destruct (runs_of k (y_log st)) as [|x l] eqn:Hl; [done|].
  apply completes_call; [done|]. simpl. unfold call_step. rewrite Hk. simpl. rewrite Hp.
  unfold Client_Call. rewrite Hf, Hl. simpl. eexists. split; [done|]. intros Hst1.
  eapply (completes_close k c); [exact Hst1| |]; simpl;
    [by rewrite list_lookup_insert_eq by (by eapply lookup_lt_Some)|done].
Qed.

(** A call whose connection is served, with its request sent. *)
Lemma completes_served k c st ck :
  calm_sys st → y_calls st !! k = Some ck → k_pc ck = CWait c →
  srv_fate (ConnServer := server) (y_srv st) c = Some (Served false) → completes k st.
Proof.
  intros Hst Hk Hp Hf.
  destruct (runs_of k (y_log st)) as [|x l] eqn:Hl;
    [|eapply completes_answered; [done..| |done]; by rewrite Hl].
  pose proof (cy_sent _ Hst _ _ _ Hk Hp) as Hs. apply runs_of_nil in Hl.
  apply elem_of_app in Hs as [|(p & -> & Hin)%list_elem_of_fmap]; [done|].
  destruct (yo_call _ (cy_ok _ Hst) _ _ Hk) as [_ Hc]. rewrite Hp in Hc.
  destruct (yo_wire _ (cy_ok _ Hst) _ Hin) as (ck' & Hk' & _ & Hc'). simplify_eq.
  apply list_elem_of_lookup in Hin as [j Hj].
  assert (∃ st1 r, yact (YServe j) st = Some st1 ∧ y_calls st1 = y_calls st ∧
    y_log st1 = y_log st ++ [(p_call p, p_args p, r)] ∧
    srv_fate (ConnServer := server) (y_srv st1) (p_conn p) = Some (Served false))
    as (st1 & r & H1 & Hcs & Hlog & Hf1).
  { simpl. unfold serve_request. rewrite Hj. simpl. simpl in Hf. rewrite Hf.
    destruct (handler _ _) as [d r]. by eexists _, r. }
  eapply completes_step; [left; by exists j, p|done|].
  eapply completes_answered; [by apply (calm_sys_act (YServe j) st)|by rewrite Hcs|done| |done].
  rewrite runs_of_nil, Hlog, !fmap_app. set_solver.
Qed.

(** When the loop has accepted all that waits, connection [c] is served. *)
Lemma drained_served n w c (d : D) :
  accept_ok n (w, d) → calm_state w → w_pc w = PAccept → w_backlog w = [] → c < n →
  conn_fate w c = Some (Served false).
Proof.
  intros Haok Hw Hpc Hb Hlt. pose proof Haok as [_ Ha]. simpl in Ha.
  apply accept_ok_NoDup in Haok as [Hnd _]. simpl in Hnd. apply conn_fate_served; [done|].
  destruct Hw as [_ _ _ _ _ _ Hfull Horder].
  unfold held in Horder. rewrite Hpc, Hb, app_nil_r in Horder. simpl in Horder.
  assert (c ∈ (w_served w).*1) as ((c' & b) & -> & Hin)%list_elem_of_fmap.
  { rewrite Horder, Ha. apply elem_of_seq. lia. }
  eapply list.Forall_forall in Hfull; [|exact Hin]. simpl in Hfull. by subst b.
Qed.

(** A call that waits for its reply: the loop gets to its connection. *)
Lemma completes_wait k c st ck :
  calm_sys st → y_calls st !! k = Some ck → k_pc ck = CWait c → completes k st.
Proof.
  intros Hst Hk Hp. pose proof (cy_calm _ Hst) as Hw. set (w := (y_srv st).1) in *.
  destruct (calm_drain v (work w) (replicate (work w) 0%Z) w)
    as (n & w' & Hx & Hw' & Hpc & Hb & _); [lia|by rewrite length_replicate|done|].
  pose proof (yexec_loop _ _ _ Hx) as Hy.
  set (st1 := mkSys _ _ _ _ _ _ _) in Hy.
  assert (calm_sys st1) as Hst1.
  { eapply calm_sys_run; [exact Hst| |exact Hy]. apply Forall_fmap, Forall_true. done. }
  destruct (yo_call _ (cy_ok _ Hst) _ _ Hk) as [Hlt Hc]. rewrite Hp in Hc. specialize (Hlt _ Hc).
  eapply completes_exec; [|exact Hy|].
  - apply Forall_fmap, Forall_true. intros x. by eexists.
  - eapply (completes_served k c); [done..|].
    eapply drained_served; [exact (yo_srv _ (cy_ok _ Hst1))|done..].
Qed.

(** A call that has dialled. *)
Lemma completes_called k c st ck :
  calm_sys st → y_calls st !! k = Some ck → k_pc ck = CCall c → completes k st.
Proof.
  intros Hst Hk Hp. apply completes_call; [done|]. simpl. unfold call_step.
  rewrite Hk. simpl. rewrite Hp. eexists. split; [done|]. intros Hst1.
  eapply (completes_wait k c); [exact Hst1| |]; simpl;
    [by rewrite list_lookup_insert_eq by (by eapply lookup_lt_Some)|done].
Qed.

(** C35. On a server that is neither killed nor made unreliable and whose
    [Accept] does not fail, no call returns false, and every call that was
    entered can be completed: steps of the accept loop, of the connection's
    server and of the call itself lead to its return, true with the reply of a
    run of the handler on its arguments. *)
Theorem reliable_call_completes acts st k ck :
  Forall (λ a, ycalm a = true) acts → yexec acts ystart = Some st →
  y_calls st !! k = Some ck →
  k_pc ck ≠ CDone None ∧ completes k st.
Proof.
  intros Hall Hx Hk. pose proof (calm_sys_exec _ _ Hall Hx) as Hst.
  split; [by apply (cy_true _ Hst _ _ Hk)|].
  destruct (k_pc ck) as [|c|c|c r|r] eqn:Hp.
  - apply completes_call; [done|]. simpl. unfold call_step. rewrite Hk. simpl.
    rewrite Hp, (cs_open _ (cy_calm _ Hst)). eexists. split; [done|]. intros Hst1.
    eapply (completes_called k (y_next st)); [exact Hst1| |]; simpl;
      [by rewrite list_lookup_insert_eq by (by eapply lookup_lt_Some)|done].
  - by eapply completes_called.
  - by eapply completes_wait.
  - by eapply completes_close.
  - destruct r as [r|]; [|by destruct (cy_true _ Hst _ _ Hk)].
    eapply completes_done; [done..|].
    destruct (yo_call _ (cy_ok _ Hst) _ _ Hk) as [_ Ha]. rewrite Hp in Ha. apply Ha.
Qed.
End reliable.

(** ** The copies of call *)

Section copies.
Context {W A Q R : Type} {S : ConnServer W A Q R}.

(** The Paxos library reports failures to dial, except that nobody listens. *)
Definition paxos_quiet (e : errno) : bool :=
  bool_decide (e = ENOENT) || bool_decide (e = ECONNREFUSED).
Definition Paxos_call : nat → errno → sys W Q R → option (sys W Q R) := call_step paxos_quiet.

(** The others return false without a word. *)
Definition silent (e : errno) : bool := true.
Definition KVPaxos_call : nat → errno → sys W Q R → option (sys W Q R) := call_step silent.
Definition PShardKV_call : nat → errno → sys W Q R → option (sys W Q R) := call_step silent.
Definition PShardMaster_call : nat → errno → sys W Q R → option (sys W Q R) :=
  call_step silent.
Definition DisKV_call : nat → errno → sys W Q R → option (sys W Q R) := call_step silent.
Definition PB_call : nat → errno → sys W Q R → option (sys W Q R) := call_step silent.
Definition VS_call : nat → errno → sys W Q R → option (sys W Q R) := call_step silent.
Definition Lock_call : nat → errno → sys W Q R → option (sys W Q R) := call_step silent.
End copies.

(** ** Runs *)

(** A server whose handler adds its argument to a total and replies with it. *)
Definition add_handler (q d : nat) : nat * nat := (d + q, d + q).
Definition add_server : ConnServer (world * nat) action nat nat :=
  accept_server paxos_loop add_handler 0.
#[local] Existing Instance add_server.

(** One call is served and answered, and a second one is served without its
    reply. *)
Definition two_calls : list (yaction (A := action) (Q := nat)) :=
  [YNew 5; YCall 0 EOther; YSrv (Loop true 0); YSrv (Loop true 0); YSrv (Loop true 0);
   YSrv (Loop true 0); YSrv (Loop true 0); YCall 0 EOther; YServe 0; YCall 0 EOther; YCall 0 EOther;
   YSrv (SetUnreliable true); YNew 7; YCall 1 EOther; YCall 1 EOther; YSrv (Loop true 0);
   YSrv (Loop true 0); YSrv (Loop true 0); YSrv (Loop true 500); YSrv (Loop true 150);
   YServe 0; YCall 1 EOther; YCall 1 EOther].

Definition two_calls_end : sys (world * nat) nat nat :=
  default ystart (yexec paxos_quiet two_calls ystart).

(** The second call returned false, yet its handler ran. *)
Example false_may_have_run :
  yexec paxos_quiet two_calls ystart = Some two_calls_end ∧
  k_pc <$> y_calls two_calls_end = [CDone (Some 5); CDone None] ∧
  y_log two_calls_end = [(0, 5, 5); (1, 7, 12)] ∧ y_out two_calls_end = [CallFailed 1].
Proof. by vm_compute. Qed.

Lemma socket_call_at_most_once_witness :
  runs_of 0 (y_log two_calls_end) = [(0, 5, 5)].
Proof.
  apply (socket_call_at_most_once (S := add_server)
    (SL := accept_server_laws paxos_loop add_handler 0) paxos_quiet two_calls_end 0
    (mkClient 5 (Some 0) (CDone (Some 5)))); [|by vm_compute|by vm_compute].
  exists two_calls. by vm_compute.
Defined.

Lemma reliable_call_completes_witness :
  completes paxos_loop add_handler 0 silent 0
    (default ystart
       (yexec silent [YNew 5; YCall 0 ENOENT; YNew 3] ystart)).
Proof.
  eapply (reliable_call_completes paxos_loop add_handler 0 silent
    [YNew 5; YCall 0 ENOENT; YNew 3]); [by repeat constructor|by vm_compute|by vm_compute].
Defined.
