(* ===== verification/LockSystem.v ===== *)
(** * The lock service over its socket: lockservice/server.go, client.go

    The accept loop of LockService.v, with the connections that wait and the test
    hook that makes the primary die, implements the interface of SocketRpc.v; so
    what the server replies and what the clients' calls return are related.
    [Unlock] is not written, and its effect on the service is a theorem: a lock
    that was granted is never granted again. *)

From S2P Require Import Prelude GoBase GoStrings LockService Accept SocketRpc.

(** The server, the connections that wait for [Accept], and what became of the
    others. *)
Record lockd := mkLockd {
  d_ls : LockServer;
  d_backlog : list nat;
  d_fates : gmap nat fate;
}.

Definition event_fate (e : conn_event) : fate :=
  match e with Serve => Served false | ServeDeaf => Served true | CloseConn => Dropped end.

(** When the listener is closed the connections that wait are reset. *)
Definition settle (w : lockd) : lockd :=
  if listening (d_ls w) then w
  else mkLockd (d_ls w) []
         (foldr (λ c f, <[c := Dropped]> f) (d_fates w) (d_backlog w)).

(** A turn of the accept loop, in which [Accept] waits for a connection while the
    listener is open, unless it fails ([ok] is false); [kill]; the tests set
    [dying]. *)
Inductive daction := DAccept (ok killed : bool) | DKill | DDying.

Definition lockd_act (a : daction) (w : lockd) : option lockd :=
  match a with
  | DAccept ok killed =>
      if dead (d_ls w) then None
      else if ok && listening (d_ls w) then
        match d_backlog w with
        | [] => None
        | c :: cs =>
            let '(ls, ev) := accept_turn true killed (d_ls w) in
            Some (settle (mkLockd ls cs
                    (<[c := from_option event_fate Dropped (head ev)]> (d_fates w))))
        end
      else
        Some (settle (mkLockd (accept_turn false killed (d_ls w)).1 (d_backlog w) (d_fates w)))
  | DKill => Some (settle (mkLockd (kill (d_ls w)) (d_backlog w) (d_fates w)))
  | DDying =>
      let ls := d_ls w in
      Some (mkLockd (mkLockServer (dead ls) true (listening ls) (am_primary ls) (backup ls)
                       (locks ls)) (d_backlog w) (d_fates w))
  end.

(** The handler a request is for. *)
Definition lockd_handle (q : request) (w : lockd) : lockd * bool :=
  match q with
  | RLock n =>
      let '(ls, r) := Lock (mkLockArgs n) (d_ls w) in
      (mkLockd ls (d_backlog w) (d_fates w), LR_OK r)
  | RUnlock n =>
      let '(ls, r) := Unlock (mkUnlockArgs n) (d_ls w) in
      (mkLockd ls (d_backlog w) (d_fates w), UR_OK r)
  end.

Section lock_server.
Context (bk : string) (primary : bool).

#[export] Instance lock_server : ConnServer lockd daction request bool := {
  srv_start := mkLockd (StartServer bk primary) [] ∅;
  srv_act := lockd_act;
  srv_connect c w :=
    if listening (d_ls w) then Some (mkLockd (d_ls w) (d_backlog w ++ [c]) (d_fates w))
    else None;
  srv_fate w c := d_fates w !! c;
  srv_handle := lockd_handle;
}.

(** ** The interface *)

Record lockd_ok (n : nat) (w : lockd) : Prop := {
  lo_nodup : NoDup (d_backlog w);
  lo_waits c : c ∈ d_backlog w → c < n ∧ d_fates w !! c = None;
  lo_below c f : d_fates w !! c = Some f → c < n;
}.

Lemma reset_lookup (l : list nat) (f : gmap nat fate) c :
  foldr (λ c f, <[c := Dropped]> f) f l !! c =
    if decide (c ∈ l) then Some Dropped else f !! c.
Proof.
  induction l as [|d l IH]; [by rewrite decide_False by set_solver|]. cbn [foldr].
  destruct (decide (d = c)) as [->|Hne].
  - by rewrite lookup_insert_eq, decide_True by set_solver.
  - rewrite lookup_insert_ne, IH by done.
    by destruct (decide (c ∈ l)), (decide (c ∈ d :: l)); [|set_solver..|].
Qed.

(** The fates that are settled stay when waiting connections get theirs. *)
Definition fates_kept (w w' : lockd) : Prop :=
  ∀ c f, d_fates w !! c = Some f → d_fates w' !! c = Some f.

Lemma settle_ok n w : lockd_ok n w → lockd_ok n (settle w) ∧ fates_kept w (settle w).
Proof.
  intros Hok. unfold settle. destruct (listening (d_ls w)); [by split; [|intros c f]|].
  split.
  - split; simpl; [constructor|set_solver|]. intros c f. rewrite reset_lookup.
    case_decide as Hin; [|apply Hok]. intros _. by apply (lo_waits _ _ Hok).
  - intros c f Hf. simpl. rewrite reset_lookup, decide_False; [done|].
    intros [_ Hn]%(lo_waits _ _ Hok). congruence.
Qed.

Lemma lockd_ok_act n a w w' :
  lockd_ok n w → lockd_act a w = Some w' → lockd_ok n w' ∧ fates_kept w w'.
Proof.
  intros Hok Ha.
  assert (∀ w1, lockd_ok n w1 → fates_kept w w1 →
    lockd_ok n (settle w1) ∧ fates_kept w (settle w1)) as Hset.
  { intros w1 H1 Hk. apply settle_ok in H1 as [H2 Hk']. split; [done|].
    intros c f Hf. by apply Hk', Hk. }
  assert (∀ ls, lockd_ok n (mkLockd ls (d_backlog w) (d_fates w))) as Hls.
  { intros ls. split; apply Hok. }
  destruct a as [ok killed| |]; simpl in Ha.
  - destruct (dead (d_ls w)); [done|].
    destruct (ok && listening (d_ls w));
      [|injection Ha as <-; by apply Hset; [apply Hls|intros c f]].
    destruct (d_backlog w) as [|c cs] eqn:Hb; [done|].
    destruct (accept_turn true killed (d_ls w)) as [ls ev]. injection Ha as <-.
    pose proof (lo_nodup _ _ Hok) as Hnd. rewrite Hb in Hnd. apply NoDup_cons in Hnd as [Hc Hnd].
    assert (∀ d, d ∈ c :: cs → d < n ∧ d_fates w !! d = None) as Hw.
    { rewrite <-Hb. apply Hok. }
    apply Hset.
    + split; simpl; [done| |].
      * intros d Hd. rewrite lookup_insert_ne by (by intros ->). apply Hw. set_solver.
      * intros d f. rewrite lookup_insert_Some. intros [[<- _]|[_ Hf]]; [apply Hw; set_solver|].
        by apply Hok in Hf.
    + intros d f Hf. simpl. rewrite lookup_insert_ne; [done|]. intros ->.
      destruct (Hw d) as [_ Hn]; [set_solver|congruence].
  - injection Ha as <-. by apply Hset; [apply Hls|intros c f].
  - injection Ha as <-. by split; [apply Hls|intros c f].
Qed.

#[export] Instance lock_server_laws : ConnServerLaws lock_server.
Proof.
  refine {| srv_ok := lockd_ok |}.
  - split; simpl; [constructor|set_solver|]. intros c f. by rewrite lookup_empty.
  - apply lockd_ok_act.
  - intros n w w' Hok Hc. simpl in Hc. destruct (listening (d_ls w)); [|done].
    injection Hc as <-. split; [|done]. split; simpl.
    + apply list.NoDup_app. split_and!; [apply Hok| |apply NoDup_singleton].
      intros c [? _]%(lo_waits _ _ Hok) ->%list_elem_of_singleton. lia.
    + intros c [[? ?]%(lo_waits _ _ Hok)| ->%list_elem_of_singleton]%elem_of_app;
        [split; [lia|done]|]. split; [lia|].
      apply eq_None_not_Some. intros [f Hf%(lo_below _ _ Hok)]. lia.
    + intros c f Hf%(lo_below _ _ Hok). lia.
  - intros n [m|m] w Hok; simpl; [destruct (Lock _ _) as [ls r]|];
      (split; [|done]); split; simpl; apply Hok.
Defined.

(** ** What the server replies *)

(** One more request, to a server with the same locks. *)
Lemma serve_all_snoc reqs q ls0 ls rs w :
  serve_all reqs ls0 = (ls, rs) → locks (d_ls w) = locks ls →
  (serve_all (reqs ++ [q]) ls0).2 = rs ++ [(lockd_handle q w).2] ∧
  locks (serve_all (reqs ++ [q]) ls0).1 = locks (d_ls (lockd_handle q w).1).
Proof.
  revert ls0 rs. induction reqs as [|r reqs IH]; intros ls0 rs Hs Hl.
  - injection Hs as <- <-. destruct q as [n|n]; simpl; [|done].
    unfold Lock. simpl. rewrite Hl. by destruct (default false (locks ls0 !! n)); simpl; rewrite ?Hl.
  - cbn [app serve_all] in *.
    destruct r as [n|n]; [destruct (Lock (mkLockArgs n) ls0) as [ls1 r1]|
      destruct (Unlock (mkUnlockArgs n) ls0) as [ls1 r1]];
      destruct (serve_all reqs ls1) as [ls2 rs2] eqn:H2; injection Hs as <- <-;
      destruct (IH ls1 rs2 H2 Hl) as [Ha Hb];
      destruct (serve_all (reqs ++ [q]) ls1); simpl in *; split; congruence.
Qed.

(** The server answers the requests it has handled, in their order, as
    [serve_all] does. *)
Definition replies_match (st : sys lockd request bool) : Prop :=
  (serve_all (y_log st).*1.*2 (StartServer bk primary)).2 = (y_log st).*2 ∧
  locks (serve_all (y_log st).*1.*2 (StartServer bk primary)).1 = locks (d_ls (y_srv st)).

Lemma lockd_act_locks a w w' : lockd_act a w = Some w' → locks (d_ls w') = locks (d_ls w).
Proof.
  assert (∀ w, locks (d_ls (settle w)) = locks (d_ls w)) as Hset.
  { intros w0. unfold settle. by destruct (listening (d_ls w0)). }
  assert (∀ ok killed ls, locks (accept_turn ok killed ls).1 = locks ls) as Hturn.
  { intros ok killed ls. unfold accept_turn. destruct killed; repeat case_match; done. }
  intros Ha. destruct a as [ok killed| |]; simpl in Ha.
  - destruct (dead (d_ls w)); [done|].
    destruct (ok && listening (d_ls w)); [|injection Ha as <-; rewrite Hset; apply Hturn].
    destruct (d_backlog w); [done|]. specialize (Hturn true killed (d_ls w)).
    destruct (accept_turn true killed (d_ls w)). injection Ha as <-. by rewrite Hset.
  - injection Ha as <-. by rewrite Hset.
  - by injection Ha as <-.
Qed.

Lemma replies_reachable quiet st : yreachable quiet st → replies_match st.
Proof.
  apply yreachable_ind; [done|]. intros a st0 st1 _ [Hr Hl] Ha. unfold replies_match.
  destruct a as [q|k e|j|a]; simpl in Ha.
  - by injection Ha as <-.
  - apply bind_Some in Ha as (ck & _ & Ha). destruct (k_pc ck) as [|c|c|c r|r]; simpl in Ha.
    + by destruct (listening (d_ls (y_srv st0))); injection Ha as <-.
    + by injection Ha as <-.
    + by apply bind_Some in Ha as (r & _ & [= <-]).
    + by injection Ha as <-.
    + done.
  - apply bind_Some in Ha as (p & _ & Ha). simpl in Ha.
    destruct (d_fates (y_srv st0) !! p_conn p) as [[d|]|]; try done.
    destruct (serve_all _ _) as [ls rs] eqn:Hs. simpl in *.
    destruct (serve_all_snoc _ (p_args p) _ _ _ (y_srv st0) Hs (eq_sym Hl)) as [H1 H2].
    destruct (lockd_handle (p_args p) (y_srv st0)) as [w r]. injection Ha as <-. simpl in *.
    rewrite !fmap_app. simpl. rewrite H1, H2. split; [|done]. by rewrite Hr.
  - apply bind_Some in Ha as (w & Hw & [= <-]). simpl in *.
    by rewrite (lockd_act_locks _ _ _ Hw).
Qed.

(** What [Clerk.Lock] returns when its [call] brings [r]. *)
Definition lock_outcome (n : string) (r : option bool) : bool :=
  Clerk_Lock (λ _, true) (λ _ _, mkLockReply <$> r) (MakeClerk "" bk) n.

Lemma lock_outcome_true n r : lock_outcome n r = true → r = Some true.
Proof. unfold lock_outcome, Clerk_Lock. by destruct r as [[]|]. Qed.

(** The server grants the first request for a lock that reaches it. *)
Lemma granted_first quiet st i k n r :
  yreachable quiet st → y_log st !! i = Some (k, RLock n, r) →
  r = true ↔ ∀ j q, j < i → (y_log st).*1.*2 !! j = Some q → q ≠ RLock n.
Proof.
  intros [Hr _]%replies_reachable Hi.
  rewrite (serve_all_spec _ _ ∅) in Hr.
  2: { intros m. simpl. rewrite lookup_empty. symmetry. apply bool_decide_eq_false_2. set_solver. }
  assert ((y_log st).*2 !! i = Some r) as Hri by (by rewrite list_lookup_fmap, Hi).
  assert ((y_log st).*1.*2 !! i = Some (RLock n)) as Hqi by (by rewrite !list_lookup_fmap, Hi).
  rewrite <-Hr in Hri. split.
  - intros ->. apply spec_replies_true in Hri as (m & Hm & _ & Hfirst). simplify_eq.
    intros j q Hj Hq ->. by apply (Hfirst j).
  - intros Hfirst. destruct r; [done|]. exfalso.
    assert (spec_replies ∅ (y_log st).*1.*2 !! i = Some true) as Ht; [|congruence].
    apply spec_replies_true. exists n. split_and!; [done|set_solver|].
    intros j Hj Hq. by apply (Hfirst j (RLock n)).
Qed.

(** The server refuses every request to unlock. *)
Lemma unlock_refused quiet st i k n r :
  yreachable quiet st → y_log st !! i = Some (k, RUnlock n, r) → r = false.
Proof.
  intros [Hr _]%replies_reachable Hi.
  assert ((y_log st).*2 !! i = Some r) as Hri by (by rewrite list_lookup_fmap, Hi).
  assert ((y_log st).*1.*2 !! i = Some (RUnlock n)) as Hqi by (by rewrite !list_lookup_fmap, Hi).
  destruct r; [exfalso|done]. rewrite <-Hr in Hri.
  apply lock_granted_once in Hri as (m & Hm & _). congruence.
Qed.

(** A call of [Clerk.Lock] that returned true was granted the lock. *)
Lemma outcome_granted quiet st k ck n r :
  yreachable quiet st → y_calls st !! k = Some ck → k_args ck = RLock n →
  k_pc ck = CDone r → lock_outcome n r = true → (k, RLock n, true) ∈ y_log st.
Proof.
  intros Hok%yok_reachable Hk Hq Hp ->%lock_outcome_true.
  destruct (yo_call _ Hok _ _ Hk) as [_ Ha]. rewrite Hp in Ha. destruct Ha as [Ha _].
  by rewrite Hq in Ha.
Qed.

(** C19. A defect: a lock is never released.  In every run of a lock server, its
    accept loop, a kill or the death of a dying primary, and any number of
    clients over the socket, once the server has granted lock [n] to call [k] it
    refuses every later request about [n]: requests to unlock it, although it is
    held, and requests to lock it, although it was unlocked; no other call of
    [Clerk.Lock] for [n] returns true; and [Clerk.Unlock] returns false.  So the
    sequence Lock, Unlock, Lock of TestBasic, which expects true three times,
    gets true once, and the comments of common.go and client.go do not hold. *)
Theorem lock_never_released quiet st i k n :
  yreachable quiet st → y_log st !! i = Some (k, RLock n, true) →
  (∀ j k' q r, i < j → y_log st !! j = Some (k', q, r) → q = RLock n ∨ q = RUnlock n →
     r = false) ∧
  (∀ k' ck' r', y_calls st !! k' = Some ck' → k_args ck' = RLock n →
     k_pc ck' = CDone r' → k' ≠ k → lock_outcome n r' = false) ∧
  ∀ ck, Clerk_Unlock ck n = false.
Proof.
  intros Hreach Hi.
  assert ((y_log st).*1.*2 !! i = Some (RLock n)) as Hqi by (by rewrite !list_lookup_fmap, Hi).
  assert (∀ j k' r, i < j → y_log st !! j = Some (k', RLock n, r) → r = false) as Hlater.
  { intros j k' r Hlt Hj. destruct r; [exfalso|done].
    by apply (proj1 (granted_first _ _ _ _ _ _ Hreach Hj) eq_refl i (RLock n)). }
  split_and!; [| |done].
  - intros j k' q r Hlt Hj [-> | ->]; [by eapply Hlater|by eapply unlock_refused].
  - intros k' ck' r' Hk' Hq' Hp' Hne. apply not_true_iff_false. intros Hout.
    pose proof (outcome_granted _ _ _ _ _ _ Hreach Hk' Hq' Hp' Hout) as [j Hj]%list_elem_of_lookup.
    destruct (Nat.lt_trichotomy i j) as [Hlt|[->|Hlt]]; [|congruence|].
    + by specialize (Hlater _ _ _ Hlt Hj).
    + apply (proj1 (granted_first _ _ _ _ _ _ Hreach Hi) eq_refl j (RLock n)); [done| |done].
      by rewrite !list_lookup_fmap, Hj.
Qed.
End lock_server.

(** ** A run *)

(** A client locks, unlocks and locks the same name again. *)
Definition one_call (k : nat) (q : request) : list (yaction (A := daction) (Q := request)) :=
  [YNew q; YCall k EOther; YSrv (DAccept true false); YCall k EOther; YServe 0;
   YCall k EOther; YCall k EOther].

Definition lock_run : list (yaction (A := daction) (Q := request)) :=
  one_call 0 (RLock "a") ++ one_call 1 (RUnlock "a") ++ one_call 2 (RLock "a").

#[local] Existing Instance lock_server.

Definition lock_end : sys lockd request bool :=
  default (ystart (S := lock_server "b" true))
    (yexec (S := lock_server "b" true) (λ _, true) lock_run
       (ystart (S := lock_server "b" true))).

Lemma lock_never_released_witness :
  y_log lock_end = [(0, RLock "a", true); (1, RUnlock "a", false); (2, RLock "a", false)] ∧
  lock_outcome "b" "a" (Some false) = false.
Proof.
  destruct (lock_never_released "b" true (λ _, true) lock_end 0 0 "a") as (_ & Hk & _);
    [exists lock_run; by vm_compute|by vm_compute|].
  split; [by vm_compute|].
  apply (Hk 2 (mkClient (RLock "a") (Some 2) (CDone (Some false)))); by vm_compute.
Defined.
