(* ===== verification/CommandLine.v ===== *)
(** * The command line programs: main/diskvd.go, lockc.go, lockd.go, pbc.go,
    pbd.go, viewd.go, and testGo/test.go

    What each program does with its arguments: it starts a server, asks one for
    something and prints the answer, or prints its usage and exits.  diskvd
    ignores the errors of strconv, so ParseInt, Atoi and ParseBool are modelled
    with the value they return next to an error. *)

From S2P Require Import Prelude GoBase GoStrings LockService Accept PaxosServices.

(** ** strconv *)

Inductive num_error := ErrSyntax | ErrRange.

(** The loop of [ParseUint] in base 10 with 64 bits: a character that is no digit
    is a syntax error, a number that gets too large ends the loop at once. *)
Fixpoint ParseUint_loop (n : Z) (s : string) : Z * option num_error :=
  match s with
  | EmptyString => (n, None)
  | String c s =>
      match digit_value c with
      | None => (0%Z, Some ErrSyntax)
      | Some d =>
          let n1 := (n * 10 + d)%Z in
          if Z.ltb (2 ^ 64 - 1) n1 then ((2 ^ 64 - 1)%Z, Some ErrRange)
          else ParseUint_loop n1 s
      end
  end.

Definition ParseUint (s : string) : Z * option num_error :=
  match s with
  | EmptyString => (0%Z, Some ErrSyntax)
  | _ => ParseUint_loop 0 s
  end.

(** A sign in front of a number. *)
Definition split_sign (s : string) : bool * string :=
  match s with
  | String "-" s' => (true, s')
  | String "+" s' => (false, s')
  | _ => (false, s)
  end.

(** [ParseInt(s, 10, 64)], which [Atoi] agrees with. *)
Definition ParseInt (s : string) : Z * option num_error :=
  match s with
  | EmptyString => (0%Z, Some ErrSyntax)
  | _ =>
      let '(neg, s) := split_sign s in
      let '(un, err) := ParseUint s in
      match err with
      | Some ErrSyntax => (0%Z, Some ErrSyntax)
      | _ =>
          let cutoff := (2 ^ 63)%Z in
          if negb neg && Z.leb cutoff un then ((cutoff - 1)%Z, Some ErrRange)
          else if neg && Z.ltb cutoff un then ((- cutoff)%Z, Some ErrRange)
          else ((if neg : bool then - un else un)%Z, None)
      end
  end.

(** [ParseBool]; with an error it returns false. *)
Definition ParseBool (s : string) : bool * option num_error :=
  if bool_decide (s ∈ ["1"; "t"; "T"; "true"; "TRUE"; "True"]) then (true, None)
  else if bool_decide (s ∈ ["0"; "f"; "F"; "false"; "FALSE"; "False"]) then (false, None)
  else (false, Some ErrSyntax).

Definition FormatBool (b : bool) : string := if b then "true" else "false".

Lemma ParseBool_FormatBool b : ParseBool (FormatBool b) = (b, None).
Proof. by destruct b. Qed.

(** ** Processes *)

Definition newline : string := String "010" EmptyString.

(** What becomes of a process: it exits with a code after printing, runs to its
    end after printing, serves for some seconds or for ever, or dies of a panic
    or of [log.Fatal]. *)
Inductive process (S : Type) :=
| Exits (code : Z) (out : string)
| Returns (out : string)
| Serves (srv : S) (seconds : option Z)
| Dies.
Arguments Exits {S} _ _.
Arguments Returns {S} _.
Arguments Serves {S} _ _.
Arguments Dies {S}.

(** The server that [StartServer] returns, served for [seconds]. *)
Definition serve_for {S} (r : result S) (seconds : option Z) : process S :=
  match r with Ok srv => Serves srv seconds | _ => Dies end.

(** ** diskvd *)

Record diskvd_opts := mkOpts {
  o_gid : Z;
  o_masters : list string;
  o_replicas : list string;
  o_me : Z;
  o_unreliable : bool;
  o_dir : string;
  o_restart : bool;
}.

Definition opts0 : diskvd_opts := mkOpts (-1) [] [] (-1) false "" false.

Definition diskvd_usage : process (server DisKV) :=
  Exits 1 ("Usage: diskvd -g gid -m master... -s server... -i my-index -d dir" +:+ newline).

(** One round of the loop over the arguments; [None] is a call of [usage]. *)
Definition diskvd_arg (a0 a1 : string) (o : diskvd_opts) : option diskvd_opts :=
  let '(mkOpts gid masters replicas me unreliable dir restart) := o in
  if bool_decide (a0 = "-g") then
    Some (mkOpts (ParseInt a1).1 masters replicas me unreliable dir restart)
  else if bool_decide (a0 = "-m") then
    Some (mkOpts gid (masters ++ [a1]) replicas me unreliable dir restart)
  else if bool_decide (a0 = "-s") then
    Some (mkOpts gid masters (replicas ++ [a1]) me unreliable dir restart)
  else if bool_decide (a0 = "-i") then
    Some (mkOpts gid masters replicas (ParseInt a1).1 unreliable dir restart)
  else if bool_decide (a0 = "-u") then
    Some (mkOpts gid masters replicas me (ParseBool a1).1 dir restart)
  else if bool_decide (a0 = "-d") then
    Some (mkOpts gid masters replicas me unreliable a1 restart)
  else if bool_decide (a0 = "-r") then
    Some (mkOpts gid masters replicas me unreliable dir (ParseBool a1).1)
  else None.

(** The loop takes the arguments in pairs; one that is left over is ignored. *)
Fixpoint diskvd_args (args : list string) (o : diskvd_opts) : option diskvd_opts :=
  match args with
  | a0 :: a1 :: args => o ← diskvd_arg a0 a1 o; diskvd_args args o
  | _ => Some o
  end.

(** The check after the loop. *)
Definition diskvd_bad (o : diskvd_opts) : bool :=
  Z.ltb (o_gid o) 0 || Z.ltb (o_me o) 0 || Z.ltb (zlen (o_masters o)) 1 ||
  Z.leb (zlen (o_replicas o)) (o_me o) || bool_decide (o_dir o = "").

(** [main]; [os_args] is [os.Args].  The process kills itself after 600 s. *)
Definition diskvd_main (os_args : list string) (listens : bool) : process (server DisKV) :=
  match diskvd_args (drop 1 os_args) opts0 with
  | None => diskvd_usage
  | Some o =>
      if diskvd_bad o then diskvd_usage
      else
        serve_for
          (rbind (DisKV_StartServer (o_gid o) (o_masters o) (o_replicas o) (Z.to_nat (o_me o))
                    (o_dir o) (o_restart o) listens)
             (λ srv, Ok (DisKV_Setunreliable (o_unreliable o) srv)))
          (Some (10 * 60)%Z)
  end.

(** ** lockd and lockc *)

Definition lockd_main (os_args : list string) (listens : bool) : process LockServer :=
  match os_args with
  | [_; a1; _; a3] =>
      if bool_decide (a1 = "-p") then
        serve_for (if listens then Ok (StartServer a3 true) else Fatal) None
      else if bool_decide (a1 = "-b") then
        serve_for (if listens then Ok (StartServer a3 false) else Fatal) None
      else Exits 1 ("Usage: lockd -p|-b primaryport backupport" +:+ newline)
  | _ => Exits 1 ("Usage: lockd -p|-b primaryport backupport" +:+ newline)
  end.

Definition lockc_usage : process unit :=
  Exits 1 ("Usage: lockc -l|-u primaryport backupport lockname" +:+ newline).

(** [dial] and [rpc] are what the clerk's [call] meets. *)
Definition lockc_main (dial : string → bool) (rpc : string → LockArgs → option LockReply)
    (os_args : list string) : process unit :=
  match os_args with
  | [_; a1; a2; a3; a4] =>
      let ck := MakeClerk a2 a3 in
      if bool_decide (a1 = "-l") then
        Returns ("reply: " +:+ FormatBool (Clerk_Lock dial rpc ck a4) +:+ newline)
      else if bool_decide (a1 = "-u") then
        Returns ("reply: " +:+ FormatBool (Clerk_Unlock ck a4) +:+ newline)
      else lockc_usage
  | _ => lockc_usage
  end.

(** ** pbc, pbd and viewd *)

Definition pbc_usage : process unit :=
  Exits 1 ("Usage: pbc viewport key" +:+ newline +:+
           "       pbc viewport key value" +:+ newline).

Definition pbc_main (os_args : list string) : process unit :=
  match os_args with
  | [_; a1; a2] => Returns (PB_Clerk_Get (PB_MakeClerk a1 "") a2 +:+ newline)
  | [_; a1; a2; a3] => let ck := PB_Clerk_Put (PB_MakeClerk a1 "") a2 a3 in Returns ""
  | _ => pbc_usage
  end.

Definition pbd_main (os_args : list string) (listens : bool) : process (server PBServer) :=
  match os_args with
  | [_; a1; a2] => serve_for (PBServer_StartServer a1 a2 listens) None
  | _ => Exits 1 ("Usage: pbd viewport myport" +:+ newline)
  end.

Definition viewd_main (os_args : list string) (listens : bool) : process (server ViewServer) :=
  match os_args with
  | [_; a1] => serve_for (ViewServer_StartServer a1 listens) None
  | _ => Exits 1 ("Usage: viewd port" +:+ newline)
  end.

(** ** testGo/test.go *)

(** The loop counts the runes of a string. *)
Definition count_rune (m : gmap Z Z) (char : Z) : gmap Z Z :=
  match m !! char with
  | Some v => <[char := (v + 1)%Z]> m
  | None => <[char := 1%Z]> m
  end.

(** [main], with the order in which the map is iterated. *)
Definition test_main (range : gmap Z Z → list (Z * Z)) : process unit :=
  let str := (λ c, Z.of_nat (nat_of_ascii c)) <$> ["a"; "a"; "a"; "a"; "b"; "c"; "d"; "e"]%char in
  Returns (concat_strings
    ((λ '(k, v), "k: " +:+ Itoa k +:+ " v: " +:+ Itoa v +:+ newline) <$>
       range (foldl count_rune ∅ str))).

(** ** Numbers *)

Lemma digit_value_range c d : digit_value c = Some d → (0 ≤ d ≤ 9)%Z.
Proof.
  unfold digit_value. destruct (Z.leb_spec 48 (Z.of_nat (nat_of_ascii c)));
    destruct (Z.leb_spec (Z.of_nat (nat_of_ascii c)) 57); simpl; try done. intros [= <-]. lia.
Qed.

Lemma parse_digits_mono s acc n : (0 ≤ acc)%Z → parse_digits acc s = Some n → (acc ≤ n)%Z.
Proof.
  revert acc. induction s as [|c s IH]; intros acc Hacc; simpl; [intros [= <-]; lia|].
  intros (d & Hd%digit_value_range & Hn)%bind_Some. apply IH in Hn; lia.
Qed.

(** The loop stops early with a number that is too large, and else reads all
    digits. *)
Lemma ParseUint_loop_spec s acc :
  (0 ≤ acc < 2 ^ 64)%Z →
  match ParseUint_loop acc s with
  | (n, None) => parse_digits acc s = Some n ∧ (n < 2 ^ 64)%Z
  | (_, Some ErrSyntax) => parse_digits acc s = None
  | (n, Some ErrRange) => n = (2 ^ 64 - 1)%Z ∧ ∀ m, parse_digits acc s = Some m → (2 ^ 64 ≤ m)%Z
  end.
Proof.
  revert acc. induction s as [|c s IH]; intros acc Hacc; cbn [ParseUint_loop parse_digits].
  { split; [done|lia]. }
  destruct (digit_value c) as [d|] eqn:Hd; cbn [mbind option_bind]; [|done].
  apply digit_value_range in Hd. destruct (Z.ltb_spec (2 ^ 64 - 1) (acc * 10 + d)) as [Hlt|Hle].
  - split; [done|]. intros m Hm%parse_digits_mono; lia.
  - apply IH. lia.
Qed.

(** What [ParseInt] and [Atoi] do after the sign. *)
Definition signed (neg : bool) (ds : string) : Z * option num_error :=
  let '(un, err) := ParseUint ds in
  match err with
  | Some ErrSyntax => (0%Z, Some ErrSyntax)
  | _ =>
      if negb neg && Z.leb (2 ^ 63) un then ((2 ^ 63 - 1)%Z, Some ErrRange)
      else if neg && Z.ltb (2 ^ 63) un then ((- 2 ^ 63)%Z, Some ErrRange)
      else ((if neg then - un else un)%Z, None)
  end.

Lemma signed_spec neg ds n :
  signed neg ds = (n, None) ↔
  ds ≠ "" ∧ ∃ v, parse_digits 0 ds = Some v ∧ n = (if neg then - v else v)%Z ∧
    (int_min ≤ n ≤ int_max)%Z.
Proof.
  unfold signed, int_min, int_max.
  destruct (decide (ds = "")) as [->|Hne]; [by split; [|intros [? _]]|].
  assert (ParseUint ds = ParseUint_loop 0 ds) as -> by (by destruct ds).
  pose proof (ParseUint_loop_spec ds 0 ltac:(lia)) as Hs.
  pose proof (parse_digits_mono ds 0) as Hpos.
  destruct (ParseUint_loop 0 ds) as [un [[]|]].
  - split; [done|]. intros (_ & v & Hv & _). congruence.
  - destruct Hs as [-> Hbig]. split; [by destruct neg|].
    intros (_ & v & Hv & -> & Hr). apply Hbig in Hv. destruct neg; lia.
  - destruct Hs as [Hv Hlt]. specialize (Hpos un ltac:(lia) Hv).
    transitivity (n = (if neg then - un else un)%Z ∧ (- 2 ^ 63 ≤ n ≤ 2 ^ 63 - 1)%Z).
    2: { split; [intros []; split; [done|]; by exists un|].
         intros (_ & v & Hv' & -> & Hr). rewrite Hv in Hv'. by injection Hv' as <-. }
    destruct neg; cbn [negb andb];
      [destruct (Z.ltb_spec (2 ^ 63) un)|destruct (Z.leb_spec (2 ^ 63) un)].
    + split; [done|lia].
    + split; [intros [= <-]; lia|by intros [-> _]].
    + split; [done|lia].
    + split; [intros [= <-]; lia|by intros [-> _]].
Qed.

(** [Atoi] and [ParseInt] accept the same strings, with the same values. *)
Lemma ParseInt_Atoi s n : ParseInt s = (n, None) ↔ Atoi s = Some n.
Proof.
  assert (∀ neg ds,
    match ds with
    | EmptyString => None
    | _ =>
        v ← parse_digits 0 ds;
        let n := if neg : bool then (- v)%Z else v in
        if Z.leb int_min n && Z.leb n int_max then Some n else None
    end = Some n ↔ signed neg ds = (n, None)) as Hatoi.
  { intros neg ds. rewrite signed_spec. destruct ds as [|c ds]; [by split; [|intros [? _]]|].
    split.
    - intros (v & Hv & Hn)%bind_Some. split; [done|]. exists v. split; [done|]. cbv zeta in Hn.
      destruct (_ && _) eqn:Hr in Hn; [|done]. injection Hn as <-. split; [done|]. lia.
    - intros (_ & v & -> & -> & Hr). cbn [mbind option_bind].
      destruct (_ && _) eqn:Hb; [done|lia]. }
  change (Atoi s) with (let '(neg, ds) := split_sign s in
    match ds with
    | EmptyString => None
    | _ =>
        v ← parse_digits 0 ds;
        let n := if neg : bool then (- v)%Z else v in
        if Z.leb int_min n && Z.leb n int_max then Some n else None
    end).
  unfold ParseInt. destruct s as [|c s]; [done|].
  destruct (split_sign (String c s)) as [neg ds]. symmetry. apply Hatoi.
Qed.

Lemma ParseInt_Itoa n : (0 ≤ n ≤ int_max)%Z → ParseInt (Itoa n) = (n, None).
Proof. intros Hn. by apply ParseInt_Atoi, Atoi_Itoa. Qed.

(** ** What diskvd makes of its arguments *)

(** The arguments for given options, in the order in which the tests of diskv
    pass them. *)
Definition print_opts (o : diskvd_opts) : list string :=
  ["-g"; Itoa (o_gid o)] ++ (o_masters o ≫= λ m, ["-m"; m]) ++
  (o_replicas o ≫= λ s, ["-s"; s]) ++
  ["-i"; Itoa (o_me o); "-u"; FormatBool (o_unreliable o); "-d"; o_dir o;
   "-r"; FormatBool (o_restart o)].

Lemma diskvd_args_masters ms rest g ms0 rs me u d r :
  diskvd_args ((ms ≫= λ m, ["-m"; m]) ++ rest) (mkOpts g ms0 rs me u d r) =
    diskvd_args rest (mkOpts g (ms0 ++ ms) rs me u d r).
Proof.
  revert ms0. induction ms as [|m ms IH]; intros ms0; simpl; [by rewrite app_nil_r|].
  by rewrite IH, <-app_assoc.
Qed.

Lemma diskvd_args_replicas ss rest g ms rs me u d r :
  diskvd_args ((ss ≫= λ s, ["-s"; s]) ++ rest) (mkOpts g ms rs me u d r) =
    diskvd_args rest (mkOpts g ms (rs ++ ss) me u d r).
Proof.
  revert rs. induction ss as [|s ss IH]; intros rs; simpl; [by rewrite app_nil_r|].
  by rewrite IH, <-app_assoc.
Qed.

Lemma diskvd_bad_false o :
  diskvd_bad o = false ↔
  (0 ≤ o_gid o)%Z ∧ (0 ≤ o_me o < zlen (o_replicas o))%Z ∧ o_masters o ≠ [] ∧ o_dir o ≠ "".
Proof.
  assert ((zlen (o_masters o) <? 1)%Z = false ↔ o_masters o ≠ []) as Hm.
  { destruct (o_masters o); unfold zlen; simpl; [done|]. rewrite Z.ltb_ge. split; [done|lia]. }
  unfold diskvd_bad. rewrite !orb_false_iff, Hm, !Z.ltb_ge, Z.leb_gt, bool_decide_eq_false.
  split; intros H; destruct_and!; split_and!; (done || lia).
Qed.

(** The server that diskvd runs for options it accepts. *)
Definition diskvd_server (o : diskvd_opts) : server DisKV :=
  mkServer (setunreliable (o_unreliable o) (mkFlags 0 0 0 true))
    (Some (mkPaxos (mkFlags 0 0 0 false) false (o_replicas o) (Z.to_nat (o_me o))))
    (mkDisKV (Z.to_nat (o_me o)) (o_gid o) (o_masters o) (o_dir o)).

Lemma diskvd_starts os_args o listens :
  diskvd_args (drop 1 os_args) opts0 = Some o → diskvd_bad o = false →
  diskvd_main os_args listens =
    if listens then Serves (diskvd_server o) (Some 600%Z) else Dies.
Proof.
  intros Ha Hb. unfold diskvd_main. rewrite Ha, Hb.
  apply diskvd_bad_false in Hb as (_ & Hme & _).
  unfold DisKV_StartServer, start_on_paxos. cbn [Paxos_Make rbind].
  destruct (lookup_lt_is_Some_2 (o_replicas o) (Z.to_nat (o_me o))) as [name ->].
  { unfold zlen in Hme. lia. }
  by destruct listens.
Qed.

(** C39. A command line of diskvd is read back: for every choice of options that
    pass its check and whose numbers are [int]s, run with the arguments that
    print them it serves, until it kills itself after 600 seconds, a server with
    exactly these options, if it can listen. *)
Theorem diskvd_roundtrip prog o :
  diskvd_bad o = false → (o_gid o ≤ int_max)%Z → (o_me o ≤ int_max)%Z →
  diskvd_args (print_opts o) opts0 = Some o ∧
  diskvd_main (prog :: print_opts o) true = Serves (diskvd_server o) (Some 600%Z).
Proof.
  intros Hb Hg Hm.
  assert (diskvd_args (print_opts o) opts0 = Some o) as Ho.
  { pose proof Hb as (Hg0 & [Hm0 _] & _)%diskvd_bad_false.
    destruct o as [gid ms rs me u d r]. unfold print_opts. simpl in *.
    rewrite ParseInt_Itoa by lia. simpl. rewrite diskvd_args_masters, diskvd_args_replicas.
    simpl. rewrite ParseInt_Itoa by lia. simpl. by rewrite !ParseBool_FormatBool. }
  split; [done|]. by apply (diskvd_starts (prog :: print_opts o) o true).
Qed.

(** diskvd never panics: whatever its arguments are, it prints its usage and
    exits with 1, is stopped because it cannot listen, or serves a server that
    has a group that is not negative, an own index among the replicas, at least
    one shardmaster and a directory. *)
Theorem diskvd_never_panics os_args listens :
  diskvd_main os_args listens = diskvd_usage ∨
  listens = false ∧ diskvd_main os_args listens = Dies ∨
  ∃ srv px, diskvd_main os_args listens = Serves srv (Some 600%Z) ∧
    sv_px srv = Some px ∧ dkv_me (sv_data srv) = px_me px ∧
    is_Some (px_peers px !! px_me px) ∧ (0 ≤ dkv_gid (sv_data srv))%Z ∧
    dkv_sm (sv_data srv) ≠ [] ∧ dkv_dir (sv_data srv) ≠ "".
Proof.
  destruct (diskvd_args (drop 1 os_args) opts0) as [o|] eqn:Ha.
  2: { left. unfold diskvd_main. by rewrite Ha. }
  destruct (diskvd_bad o) eqn:Hb.
  { left. unfold diskvd_main. by rewrite Ha, Hb. }
  right. rewrite (diskvd_starts _ o listens Ha Hb). destruct listens; [right|by left].
  apply diskvd_bad_false in Hb as (Hg & Hm & Hms & Hd).
  eexists _, _. split_and!; [done..| |done|done|done]. simpl.
  apply lookup_lt_is_Some_2. unfold zlen in Hm. lia.
Qed.

(** A group that is no number: [ParseInt] fails and returns 0, which the check
    accepts, so that the server joins group 0, which stands for no group. *)
Theorem diskvd_garbage_is_group_zero :
  ∃ srv, diskvd_main ["diskvd"; "-g"; "seven"; "-m"; "m"; "-s"; "a"; "-s"; "b"; "-i"; "one";
                      "-d"; "dir"] true = Serves srv (Some 600%Z) ∧
    dkv_gid (sv_data srv) = 0%Z ∧ dkv_me (sv_data srv) = 0.
Proof. eexists. by split; [vm_compute|]. Qed.

Lemma diskvd_roundtrip_witness :
  let o := mkOpts 7 ["m1"; "m2"] ["a"; "b"; "c"] 2 true "/d" false in
  diskvd_main ("diskvd" :: print_opts o) true = Serves (diskvd_server o) (Some 600%Z).
Proof.
  intros o. apply (diskvd_roundtrip "diskvd" o); [by vm_compute|by vm_compute|by vm_compute].
Defined.

(** ** The other programs *)

(** A lock client prints true only when the primary granted the lock. *)
Lemma lockc_prints_true dial rpc prog p b n :
  lockc_main dial rpc [prog; "-l"; p; b; n] = Returns ("reply: true" +:+ newline) →
  dial p = true ∧ rpc p (mkLockArgs n) = Some (mkLockReply true).
Proof.
  cbn [lockc_main]. rewrite bool_decide_eq_true_2 by done. intros [= Hr].
  unfold Clerk_Lock, call in Hr. simpl in Hr.
  destruct (dial p); simpl in Hr; [|done].
  destruct (rpc p (mkLockArgs n)) as [[[]]|]; done.
Qed.

(** An unlock is never reported as done. *)
Lemma lockc_unlock dial rpc prog p b n :
  lockc_main dial rpc [prog; "-u"; p; b; n] = Returns ("reply: false" +:+ newline).
Proof. done. Qed.

(** test.go prints every rune with the number of its occurrences. *)
Lemma count_rune_lookup str c :
  foldl count_rune ∅ str !! c =
    if decide (c ∈ str) then Some (zlen (filter (λ x, x = c) str)) else None.
Proof.
  induction str as [|x str IH] using rev_ind; [done|].
  rewrite foldl_app. simpl. unfold count_rune at 1.
  rewrite filter_app, zlen_app, filter_cons, filter_nil.
  destruct (decide (x = c)) as [->|Hne].
  - rewrite IH, (decide_True (P := c ∈ str ++ [c])) by set_solver.
    destruct (decide (c ∈ str)) as [Hin|Hin]; rewrite lookup_insert_eq; [done|].
    destruct (filter (λ x, x = c) str) as [|y l] eqn:Hf; [done|].
    assert (y ∈ filter (λ x, x = c) str) as [-> ?]%list_elem_of_filter; [|done].
    rewrite Hf. by left.
  - assert (∀ v, <[x := v]> (foldl count_rune ∅ str) !! c = foldl count_rune ∅ str !! c) as Hi.
    { intros v. by rewrite lookup_insert_ne. }
    transitivity (foldl count_rune ∅ str !! c); [by destruct (foldl count_rune ∅ str !! x)|].
    rewrite IH. destruct (decide (c ∈ str)), (decide (c ∈ str ++ [x])); try set_solver.
    by rewrite Z.add_0_r.
Qed.
