(* ===== verification/Programs.v ===== *)
(** * The MapReduce programs: main of main/wc.go and main/ii.go

    The first arguments say whether the program is the master of a sequential
    job, the master of a distributed one, or a worker.  What the other processes
    of a distributed job do is an input, [cluster]. *)

From S2P Require Import Prelude GoBase GoStrings MapReduce MapReduceNames MapReduceCorrect.
From S2P Require Import MapReduceDemo MRSchedule WordCount MRWorker MRDistributed CommandLine.

(** What the program has done when it returns: printed its usage, run a job and
    left the files [fs], or started a worker for a master. *)
Inductive app_run :=
| AppUsage (out : string)
| AppMaster (mr : Master) (fs : gmap string string)
| AppWorker (master : string) (wk : Worker).

(** The environment of a distributed job: the worker that runs the tasks, the
    workers that wait at the start of each phase and the steps of its schedule,
    the workers that register and their answers to [Shutdown]. *)
Record cluster := mkCluster {
  cl_worker : Worker;
  cl_waiting1 : list string;
  cl_steps1 : list daction;
  cl_waiting2 : list string;
  cl_steps2 : list daction;
  cl_registered : list string;
  cl_reply : string → option ShutdownReply;
}.

Section programs.
Context `{Json} (can_create : string → bool).
Context (IsLetter : Z → bool) (range : gmap string Z → list (string * Z)).
Implicit Types fs : gmap string string.

(** [main], for a job name, a map and a reduce function. *)
Definition app_main (job : string) (mapF : string → string → list KeyValue)
    (reduceF : string → list string → result string) (cl : cluster)
    (os_args : list string) fs : result app_run :=
  match os_args with
  | a0 :: a1 :: a2 :: a3 :: rest =>
      if bool_decide (a1 = "master") then
        rbind
          (if bool_decide (a2 = "sequential") then
             Sequential can_create job (a3 :: rest) 3 mapF reduceF fs
           else
             Distributed can_create job (a3 :: rest) 3 a2 (cl_worker cl) (cl_waiting1 cl)
               (cl_steps1 cl) (cl_waiting2 cl) (cl_steps2 cl) (cl_registered cl)
               (cl_reply cl) fs)
          (λ '(mr, fs), Ok (AppMaster mr fs))
      else Ok (AppWorker a2 (RunWorker a3 mapF reduceF 100))
  | a0 :: _ => Ok (AppUsage (a0 +:+ ": see usage comments in file" +:+ newline))
  | [] => Panic
  end.

Definition wc_main : cluster → list string → gmap string string → result app_run :=
  app_main "wcseq" (wc_mapF IsLetter range) wc_reduceF.
Definition ii_main : cluster → list string → gmap string string → result app_run :=
  app_main "iiseq" (ii_mapF IsLetter range) ii_reduceF.

Context {laws : JsonLaws}.
Context (range_perm : ∀ m, range m ≡ₚ map_to_list m).
Context (Hcreate : ∀ n, can_create n = true).

(** A process that became a worker of wc.go runs its functions. *)
Lemma wc_worker cl w_args fs address wk :
  wc_main cl w_args fs = Ok (AppWorker address wk) →
  wk_Map wk = wc_mapF IsLetter range ∧ wk_Reduce wk = wc_reduceF.
Proof.
  unfold wc_main, app_main. intros Hw. destruct w_args as [|a0 [|a1 [|a2 [|a3 rest]]]]; try done.
  case_bool_decide; [|by injection Hw as _ <-]. by apply rbind_Ok in Hw as ([mr fs'] & _ & Hw).
Qed.

(** C15. The word count program counts words in all its modes.  Take input files
    of valid words that are not named like intermediate files, and workers that
    run the same program.  Run as a sequential master on the files it completes
    and leaves in mrtmp.wcseq one line for every word, in order, with the number
    of its occurrences in all files; and run as the master of a distributed job,
    whatever the schedule and the failures, it leaves the same if it returns. *)
Theorem wc_program_correct prog (fls datas : list string) fs cl w_args address mode :
  wc_main cl w_args fs = Ok (AppWorker address (cl_worker cl)) →
  fls ≠ [] →
  Forall2 (λ f d, fs !! f = Some d) fls datas →
  (∀ f m r, f ∈ fls → (0 ≤ m)%Z → (0 ≤ r)%Z → f ≠ reduceName "wcseq" m r) →
  (∀ w, w ∈ all_words IsLetter datas → utf8_ValidString w = true) →
  (∀ n, (0 ≤ n)%Z → utf8_ValidString (Itoa n) = true) →
  (∀ w, w ∈ all_words IsLetter datas →
     (occurrences w (all_words IsLetter datas) ≤ int_max)%Z) →
  (∃ mr fs', wc_main cl (prog :: "master" :: "sequential" :: fls) fs = Ok (AppMaster mr fs')) ∧
  (∀ run, wc_main cl (prog :: "master" :: mode :: fls) fs = Ok run →
     ∃ mr fs', run = AppMaster mr fs' ∧ done mr = true ∧
       fs' !! "mrtmp.wcseq" = Some (wc_output IsLetter datas)).
Proof.
  intros [Hmap Hred]%wc_worker Hne Hds Hnames Hwords Hdig Hmax.
  assert (0 < 3 < 2 ^ 32)%Z as HR by lia.
  destruct (wc_job IsLetter range range_perm 3 HR fls datas fs Hds Hwords Hdig Hmax)
    as (Hv & Hr & Hjo).
  destruct (Sequential_ok can_create Hcreate "wcseq" 3 HR _ _ _ fls datas fs Hds Hnames Hv Hr)
    as (mrs & fss & Hs & Hso & Hsd & _). rewrite Hjo in Hso.
  destruct fls as [|f fls]; [done|]. split.
  { exists mrs, fss. unfold wc_main, app_main. cbn -[Sequential]. by rewrite Hs. }
  intros run. unfold wc_main, app_main. rewrite bool_decide_eq_true_2 by done.
  case_bool_decide as Hmode.
  { rewrite Hs. intros [= <-]. by exists mrs, fss. }
  intros ([mrd fsd] & Hd & [= <-])%rbind_Ok. exists mrd, fsd. split; [done|].
  destruct (Distributed_phases _ _ _ _ _ _ _ _ _ _ _ _ _ _ _ Hd) as (fs1 & fs2 & H1 & H2).
  rewrite <-Hmap in Hv. rewrite <-Hmap, <-Hred in Hr. rewrite <-Hmap in Hjo.
  destruct (Distributed_runs can_create Hcreate "wcseq" 3 HR (cl_worker cl) _ (f :: fls) datas fs
    mode _ _ _ _ (cl_registered cl) (cl_reply cl) fs1 fs2 Hds Hnames Hv Hr H1 H2)
    as (mr' & fs' & Hd' & Hout & Hdone).
  rewrite Hd in Hd'. injection Hd' as <- <-. split; [done|]. by rewrite <-Hjo.
Qed.

(** With fewer files than reduce tasks no distributed job returns: the master
    looks up a file for every task of both phases. *)
Theorem few_files_never_return job mapF reduceF prog (fls : list string) fs cl mode run :
  mode ≠ "sequential" → length fls < 3 →
  app_main job mapF reduceF cl (prog :: "master" :: mode :: fls) fs = Ok run →
  run = AppUsage (prog +:+ ": see usage comments in file" +:+ newline).
Proof using Type.
  intros Hmode Hlen. unfold app_main. destruct fls as [|f fls]; [by intros [= <-]|].
  rewrite bool_decide_eq_true_2, bool_decide_eq_false_2 by done.
  intros ([mrd fsd] & Hd & _)%rbind_Ok. exfalso.
  destruct (Distributed_phases _ _ _ _ _ _ _ _ _ _ _ _ _ _ _ Hd) as (fs1 & fs2 & _ & H2).
  assert (is_Some ((f :: fls) !! 2)) as Hs; [|apply lookup_lt_is_Some in Hs; simpl in *; lia].
  destruct (schedule_run_args _ _ _ _ _ _ _ _ 2 H2) as [args Hargs]; [done|].
  unfold execute_args in Hargs. apply rbind_Ok in Hargs as (g & Hg & _).
  apply oget_Ok in Hg; [|done]. rewrite zget_nat in Hg. by exists g.
Qed.
End programs.

(** ** A distributed run with three files *)

Definition wc_fs : gmap string string :=
  {["f1" := "to be, or not to be"; "f2" := "to do"; "f3" := "be"]}.
Definition wc_files : list string := ["f1"; "f2"; "f3"].
Definition wc_datas : list string := ["to be, or not to be"; "to do"; "be"].

Definition three_tasks : list daction :=
  concat (replicate 3 [DSched (SSpawn 0); DSched (SExec 0); DDone 0]) ++ [DSched SReturn].

Definition wc_worker_args : list string := ["wc"; "worker"; "localhost:7777"; "localhost:7778"].

Definition wc_cluster : cluster :=
  mkCluster (RunWorker "localhost:7778" (wc_mapF ascii_letter map_to_list) wc_reduceF 100)
    ["w"] three_tasks ["w"] three_tasks ["w"] (λ _, None).

Definition wc_demo (os_args : list string) : result app_run :=
  wc_main (λ _, true) ascii_letter map_to_list wc_cluster os_args wc_fs.

(** The distributed master returns. *)
Lemma wc_demo_returns : is_ok (wc_demo (["wc"; "master"; "localhost:7777"] ++ wc_files)) = true.
Proof. by vm_compute. Qed.

(** A property of every word of the files. *)
Lemma wc_demo_words (P : string → Prop) :
  Forall P ["to"; "be"; "or"; "not"; "do"] →
  ∀ w, w ∈ all_words ascii_letter wc_datas → P w.
Proof.
  intros HP w Hw. rewrite Forall_forall in HP. apply HP.
  assert (all_words ascii_letter wc_datas =
    ["to"; "be"; "or"; "not"; "to"; "be"; "to"; "do"; "be"]) as Heq by (by vm_compute).
  rewrite Heq in Hw. clear -Hw. set_solver.
Qed.

Lemma wc_demo_names f m r :
  f ∈ wc_files → (0 ≤ m)%Z → (0 ≤ r)%Z → f ≠ reduceName "wcseq" m r.
Proof.
  intros Hf _ _. apply not_reduceName.
  repeat (apply elem_of_cons in Hf as [->|Hf]; [cbn; lia|]). by apply elem_of_nil in Hf.
Qed.

Lemma wc_program_correct_witness :
  ∃ mr fs', wc_demo (["wc"; "master"; "localhost:7777"] ++ wc_files) = Ok (AppMaster mr fs') ∧
    fs' !! "mrtmp.wcseq" =
      Some (output_line "be" "3" +:+ output_line "do" "1" +:+ output_line "not" "1" +:+
            output_line "or" "1" +:+ output_line "to" "3").
Proof.
  destruct (wc_demo (["wc"; "master"; "localhost:7777"] ++ wc_files)) as [run| | |] eqn:Hrun;
    pose proof wc_demo_returns as Hok; rewrite Hrun in Hok; try discriminate Hok.
  destruct (wc_program_correct (λ _, true) ascii_letter map_to_list (laws := demo_json_laws)
    (λ _, reflexivity _) (λ _, eq_refl) "wc" wc_files wc_datas wc_fs wc_cluster wc_worker_args
    "localhost:7777" "localhost:7777") as [_ Hmode].
  - reflexivity.
  - discriminate.
  - repeat constructor.
  - exact wc_demo_names.
  - apply wc_demo_words. repeat constructor.
  - intros n Hn. apply digits_ascii, Itoa_digits, Hn.
  - apply wc_demo_words. repeat constructor; by vm_compute.
  - destruct (Hmode run Hrun) as (mr & fs' & -> & _ & Hout). exists mr, fs'.
    split; [reflexivity|exact Hout].
Defined.
