(* ===== verification/DebugPrint.v ===== *)
(** * Debug printing

    [DPrintf] of raft/util.go and its copies in kvraft, kvpaxos, paxos-shardkv
    and diskv, and [debug] of mapreduce/common.go.  The printers of the
    packages log and fmt are parameters: a printer takes a format and its
    arguments and changes the state of the world [W]; fmt's also returns the
    number of bytes written and an error.

    With the constants as they are in the source none of the functions has an
    effect, which is why the other files leave their calls out. *)

From S2P Require Import Prelude.

Section printing.
Context {W Arg Err : Type}.

(** [log.Printf] and [fmt.Printf]. *)
Context (log_Printf : string → list Arg → W → W).
Context (fmt_Printf : string → list Arg → W → W * (Z * option Err)).

(** [const Debug] of the five packages. *)
Definition raft_Debug : Z := 0.
Definition kvraft_Debug : Z := 0.
Definition kvpaxos_Debug : Z := 0.
Definition paxos_shardkv_Debug : Z := 0.
Definition diskv_Debug : Z := 0.

(** [DPrintf]: the results are named and never set. *)
Definition DPrintf_at (Debug : Z) (format : string) (a : list Arg) (w : W)
    : W * (Z * option Err) :=
  let w := if (0 <? Debug)%Z then log_Printf format a w else w in
  (w, (0%Z, None)).

Definition raft_DPrintf := DPrintf_at raft_Debug.
Definition kvraft_DPrintf := DPrintf_at kvraft_Debug.
Definition kvpaxos_DPrintf := DPrintf_at kvpaxos_Debug.
Definition paxos_shardkv_DPrintf := DPrintf_at paxos_shardkv_Debug.
Definition diskv_DPrintf := DPrintf_at diskv_Debug.

(** [const debugEnabled] and [debug] of mapreduce, which returns what fmt
    returned. *)
Definition debugEnabled : bool := false.

Definition debug_at (enabled : bool) (format : string) (a : list Arg) (w : W)
    : W * (Z * option Err) :=
  if enabled then fmt_Printf format a w else (w, (0%Z, None)).

Definition debug := debug_at debugEnabled.

(** None of them does anything. *)
Lemma printing_silent f format a w :
  f ∈ [raft_DPrintf; kvraft_DPrintf; kvpaxos_DPrintf; paxos_shardkv_DPrintf;
       diskv_DPrintf; debug] →
  f format a w = (w, (0%Z, None)).
Proof.
  intros Hf. repeat (apply elem_of_cons in Hf as [->|Hf]; [done|]).
  by apply not_elem_of_nil in Hf.
Qed.

(** Were they enabled, [debug] would report the outcome of the printing and
    [DPrintf] would not. *)
Lemma printing_enabled (Debug : Z) format a w :
  (0 < Debug)%Z →
  DPrintf_at Debug format a w = (log_Printf format a w, (0%Z, None)) ∧
  debug_at true format a w = fmt_Printf format a w.
Proof. intros Hd. unfold DPrintf_at. by rewrite (proj2 (Z.ltb_lt _ _) Hd). Qed.
End printing.
